(* ===== verification/_CoqProject ===== *)
-Q . S2P
Prelude.v
Hex.v
Text.v
Args.v
Json.v
Serial.v
Fips.v
Sha256.v
Hash.v
Crypto.v
Merkle.v
Tx.v
Ledger.v
Store.v
Shim.v
ShimSpec.v
Chain.v
Consensus.v
Recovery.v
Typed.v
Mempool.v
Miner.v
Net.v
Loop.v
Http.v
Node.v
Safety.v
Mining.v
Sync.v
Gpu.v
Verify.v
Rpc.v
RpcSpec.v
Running.v
Config.v
Threads.v
ThreadsSpec.v
Converge.v
Wallet.v
WalletSpec.v
GpuHost.v
Launcher.v
Processes.v
Supervisor.v
LauncherSpec.v
SupervisorSpec.v
Selftest.v
SelftestSpec.v
Samples.v
ChainWitnesses.v
NodeWitnesses.v
PartWitnesses.v
ConvergeWitnesses.v
LoopWitnesses.v
RpcWitnesses.v
LauncherWitnesses.v
SelftestWitnesses.v
ShimWitnesses.v
SupervisorWitnesses.v
ThreadsWitnesses.v
