(* ===== verification/Prelude.v ===== *)
(** * chainlite: a verification development

    chainlite is a private proof-of-work block chain. A node ([src/node_impl.h])
    keeps a chain of blocks ([src/core.h]) in a database, a pool of pending
    transactions, links to other nodes ([src/net.h]) and a local HTTP interface
    ([src/rpc.h]); a wallet ([src/clctl.cpp]) and a GPU miner ([src/clminer_gpu.cu])
    talk to that interface. This development models the code of all of them, as
    functions from states to states, and proves what makes each part correct.

    ** Files

    Bytes and text.
    - [Prelude]: widths ([wrap], [in_width]), results, automation, lists, strings.
    - [Hex], [Serial]: [hexs], [unhex], [Writer], [Reader] of [common.h]. [Codec] is the
      interface of all wire formats: what is written is read back, and what is read is
      the canonical form of the result.
    - [Text], [Json], [Args]: searches, numbers and fields of texts, command lines
      ([common.h], [http_client.h]).

    The ledger.
    - [Fips]: SHA-256 from the standard alone. [Sha256]: [sha256.h], streaming hash and
      difficulty test, which computes the same ([sha256_is_fips]). [Hash]: the class
      [HashFn] that the other files use, and [collision K], a collision among the
      strings [K]; theorems that need it hold for every hash function, or two of the
      strings that the code hashes for the chains at hand ([chain_pre]) collide.
    - [Crypto]: [crypto_cng.h] around the class [Cng] of the operations of bcrypt.dll.
    - [Merkle], [Tx], [Ledger]: trees, transactions and blocks, accounts ([core.h]).
    - [Store], [Shim]: the class [Sqlite] of what the chain relies on in the database, and
      [sqlite_shim.h], which gives it over the functions of winsqlite3.dll ([ShimSpec]).
    - [Chain]: [connect_block], [try_replace] and [init]. [Consensus] and [Recovery] hold
      what follows: supply, nonces, the index, reorganisation, restart.
    - [Mempool], [Miner]: [add], [collect], [purge]; templates and the nonce search.

    The node.
    - [Net], [Loop]: peers, frames and handshakes of [net.h], and one turn of its thread.
      What sockets and [select] deliver is the argument of the operations.
    - [Http]: one connection of [rpc.h] and [http_req] of [http_client.h], over what
      [recv] and [send] return.
    - [Node]: [App] and the handlers of [node_impl.h]. Every handler runs under one
      mutex, so it is one step; readings of clocks are arguments.
    - [Typed]: the C++ types of what a chain holds. [Safety]: the transition system of
      all handlers and the invariant [app_inv].
      [Mining]: a turn of the miner between steps of the other threads.
      [Sync]: two nodes exchange blocks.
    - [Verify]: proof files of [/prove] and the checks of [clctl verify].
    - [Rpc], [RpcSpec]: the endpoints of [handle_rpc], and what they promise.
    - [Running]: the network thread among the other threads, as a step relation that
      refines the one of [Safety]. [Config]: options and start of [node_run].
    - [Threads], [ThreadsSpec]: the five threads of a node, what they lock, which flags
      their loops read, how they wait in [accept] and [join], and when they end.
      [thread_step] is what a thread does by itself, [chance_step] what comes from outside:
      a connection, a nonce that is found.
    - [Converge]: two nodes and the bytes on the link between them come to one chain.

    Programs around the node.
    - [Wallet], [WalletSpec]: the commands of [clctl], and the wallet with a network of
      nodes.
    - [Gpu], [GpuHost]: the kernel, and the host loop with a node.
    - [Launcher], [LauncherSpec]: [chainlite_app.cpp], which runs three nodes as its
      children and reports on them. [Processes] is what it uses of Windows, with the
      laws of processes, jobs and handles: every call may fail, and [TerminateProcess]
      returns before the process has ended. [Supervisor], [SupervisorSpec] are its main
      function over them, which may be killed before any call; what depends on calls
      that the code does not check has their success as a hypothesis
      ([job_calls_succeed], [terminate_succeeds]).
    - [Selftest], [SelftestSpec]: [selftest.cpp], a run of checks over the parts of
      [core.h]. Keys, nonces and the clock are arguments.
    - [Samples] and the files named [..Witnesses]: a concrete chain, nodes and inputs at
      which the theorems are applied.

    ** What the theorems show

    - Contracts: [connect_block_refines], [try_replace_refines], [apply_tx_refines] and
      [add_refines] give the abstract rule that each operation implements, on success
      and on every error.
    - The chain: [reachable_safe] (every state a node can reach is in order),
      [reachable_typed] (and within the C++ types of its members),
      [work_increases], [supply_conservation], [no_replay], [tip_hash_commits],
      [txidx_exact]; the database: [database_follows_chain], [init_recovers],
      [init_keeps_valid_prefix], [shim_refines].
    - Nodes together: [nodes_converge], [framing_any_chunks], [hello_dedup_agrees]; the
      network thread: [running_safe], [link_protocol]; all threads: [lock_discipline],
      [node_ends].
    - Mining: [mining_turn] (the block of a turn is accepted or the tip has moved),
      [mined_block_accepted], [mine_search], [gpu_hash_agrees], [gpu_turn].
    - Formats and proofs: [block_wire_form], [sign_hash_covers], [prove_verify],
      [verify_sound], [tx_proof_sound], [sha256_is_fips].
    - The interface: [http_exchange] (an exchange over sockets is a call of the
      handler), [rpc_safe], [answers_whole], [records_feed], [payment_accepted],
      [cross_check_nodes]; the launcher: [no_node_outlives], [launcher_network] (the first
      free ports and the nodes on them), [launcher_window]; the self-test: [selftest_passes].

    ** Integers, fuel and bounds

    Unsigned integers of the code are [Z] with [wrap] where the code wraps; [wf_tx],
    [wf_header] and the like say that values are of their C++ types. Loops that are not
    structural take fuel: the levels of a Merkle tree (the length of the level, which
    halves), the frames in a buffer (its length), the passes of [collect] (one more than
    the bound on picked transactions; every pass but the last picks one), and the rounds
    of [mine_loop] ([mine_search]: enough for the 2^40 attempts after which the code gives
    up). Endless loops run for a number of turns that is an argument. Theorems that need
    it assume chains of at most 2^32 blocks, the width of the index, and accumulated work
    or supply below 2^64.

    ** Not modelled

    Sockets, timeouts and [select] (what they deliver is an argument). In the functional
    model handlers of other threads are one step also for the network thread, although it
    may send what they queue first before they queue the rest; [Threads] has the finer
    interleaving, without the data, and without a mutex for the listening socket of the
    RPC server, which has none. The number of the next link is an [int] in the code and
    unbounded here: a node makes fewer than 2^31 links. Log output; the length of the
    random delay before mining; the web page. *)

From Stdlib Require Export Ascii.
From stdpp Require Export base tactics list numbers option gmap strings pretty.

#[export] Set Default Goal Selector "!".

(** ** Notations *)

Declare Scope chainlite_scope.
Delimit Scope chainlite_scope with cl.

(** C++ [std::vector<uint8_t>], [std::array<uint8_t, N>] and [const uint8_t*]
    are lists of integers; the width and length invariants are [wf_bytes] and
    [wf_array]. *)
Abbreviation bytes := (list Z) (only parsing).

(** ** Machine-width integers *)

(** [wrap w x] is the conversion of [x] to an unsigned [w]-bit integer. *)
Definition wrap (w x : Z) : Z := (x mod 2 ^ w)%Z.

Abbreviation u8 := (wrap 8).
Abbreviation u16 := (wrap 16).
Abbreviation u32 := (wrap 32).
Abbreviation u64 := (wrap 64).

(** [in_width w x]: [x] is a value of the unsigned [w]-bit type. *)
Definition in_width (w x : Z) : Prop := (0 ≤ x < 2 ^ w)%Z.

(** All elements are [uint8_t]. *)
Definition wf_bytes (l : bytes) : Prop := Forall (in_width 8) l.

(** A [std::array<uint8_t, n>]. *)
Definition wf_array (n : nat) (l : bytes) : Prop := length l = n ∧ wf_bytes l.

#[export] Instance in_width_dec w x : Decision (in_width w x).
Proof. unfold in_width. apply _. Defined.

#[export] Instance wf_bytes_dec l : Decision (wf_bytes l).
Proof. unfold wf_bytes. apply _. Defined.

#[export] Instance wf_array_dec n l : Decision (wf_array n l).
Proof. unfold wf_array. apply _. Defined.

(** ** Results of code that can throw or report an error text *)

Inductive result (A : Type) : Type :=
  | Ok (a : A)
  | Err (e : string).
Arguments Ok {A} a.
Arguments Err {A} e.

#[export] Instance result_ret : MRet result := λ A a, Ok a.
#[export] Instance result_bind : MBind result := λ A B f m,
  match m with Ok a => f a | Err e => Err e end.

Definition is_ok {A} (r : result A) : bool :=
  match r with Ok _ => true | Err _ => false end.

(** ** Automation *)

Create HintDb chainlite.
Create Rewrite HintDb chainlite.

(** Splits a hypothesis [match]/[if] of a definition's body into its cases and
    removes the impossible ones. *)
Ltac invert_cases H :=
  repeat (simpl in H;
    match type of H with
    | context [match ?x with _ => _ end] =>
        let E := fresh "E" in destruct x eqn:E; try discriminate
    end).

(** Turns boolean tests in the context into propositions. *)
Ltac bool_props :=
  repeat match goal with
  | H : _ && _ = true |- _ => apply andb_true_iff in H; destruct H
  | H : _ || _ = false |- _ => apply orb_false_iff in H; destruct H
  | H : negb _ = true |- _ => apply negb_true_iff in H
  | H : negb _ = false |- _ => apply negb_false_iff in H
  | H : bool_decide _ = true |- _ => apply bool_decide_eq_true in H
  | H : bool_decide _ = false |- _ => apply bool_decide_eq_false in H
  | H : (_ =? _)%Z = true |- _ => apply Z.eqb_eq in H
  | H : (_ =? _)%Z = false |- _ => apply Z.eqb_neq in H
  | H : (_ <? _)%Z = true |- _ => apply Z.ltb_lt in H
  | H : (_ <? _)%Z = false |- _ => apply Z.ltb_ge in H
  | H : (_ <=? _)%Z = true |- _ => apply Z.leb_le in H
  | H : (_ <=? _)%Z = false |- _ => apply Z.leb_gt in H
  end.

(** ** Lemmas on widths *)

Section widths.
Local Open Scope Z_scope.

Lemma wrap_in_width w x : 0 ≤ w → in_width w (wrap w x).
Proof. intros. apply Z.mod_pos_bound. by apply Z.pow_pos_nonneg. Qed.

Lemma wrap_small w x : in_width w x → wrap w x = x.
Proof. apply Z.mod_small. Qed.

Lemma wrap_wrap w x : 0 ≤ w → wrap w (wrap w x) = wrap w x.
Proof. intros. by apply wrap_small, wrap_in_width. Qed.

Lemma wrap_add_l w x y : wrap w (wrap w x + y) = wrap w (x + y).
Proof. apply Zplus_mod_idemp_l. Qed.

Lemma wrap_add_r w x y : wrap w (x + wrap w y) = wrap w (x + y).
Proof. apply Zplus_mod_idemp_r. Qed.

Lemma wrap_ones w x : 0 ≤ w → wrap w x = Z.land x (Z.ones w).
Proof. intros. unfold wrap. by rewrite Z.land_ones. Qed.

Lemma wrap_0 w : 0 ≤ w → wrap w 0 = 0.
Proof. intros. apply Z.mod_0_l. pose proof (Z.pow_pos_nonneg 2 w). lia. Qed.

Lemma in_width_mono w1 w2 x : w1 ≤ w2 → in_width w1 x → in_width w2 x.
Proof. unfold in_width. intros. pose proof (Z.pow_le_mono_r 2 w1 w2). lia. Qed.
End widths.

#[export] Hint Resolve wrap_in_width : chainlite.
#[export] Hint Rewrite wrap_add_l wrap_add_r : chainlite.

(** ** Lemmas on byte lists *)

Lemma wf_bytes_nil : wf_bytes [].
Proof. constructor. Qed.

Lemma wf_bytes_app l k : wf_bytes (l ++ k) ↔ wf_bytes l ∧ wf_bytes k.
Proof. apply Forall_app. Qed.

Lemma wf_bytes_take n l : wf_bytes l → wf_bytes (take n l).
Proof. apply Forall_take. Qed.

Lemma wf_bytes_drop n l : wf_bytes l → wf_bytes (drop n l).
Proof. apply Forall_drop. Qed.

Lemma wf_array_take n l : n ≤ length l → wf_bytes l → wf_array n (take n l).
Proof.
  intros ? Hl. split; [rewrite length_take; lia | by apply wf_bytes_take].
Qed.

Lemma wf_array_length n l : wf_array n l → length l = n.
Proof. by intros [? _]. Qed.

Lemma wf_array_bytes n l : wf_array n l → wf_bytes l.
Proof. by intros [_ ?]. Qed.

#[export] Hint Resolve wf_bytes_nil wf_bytes_take wf_bytes_drop wf_array_take
  wf_array_length wf_array_bytes : chainlite.

(** ** Lemmas on lists *)

Lemma take_app_exact {A} (l k : list A) n : n = length l → take n (l ++ k) = l.
Proof. intros ->. apply take_app_length. Qed.

Lemma drop_app_exact {A} (l k : list A) n : n = length l → drop n (l ++ k) = k.
Proof. intros ->. apply drop_app_length. Qed.

Lemma foldl_reverse {A B} (f : A → B → A) (a : A) (l : list B) :
  foldl f a (reverse l) = foldr (λ x y, f y x) a l.
Proof.
  induction l as [|x l IH]; [done|]. rewrite reverse_cons, foldl_app. simpl. by rewrite IH.
Qed.

Lemma foldl_ext {A B} (f g : A → B → A) (a : A) (l : list B) :
  (∀ x y, y ∈ l → f x y = g x y) → foldl f a l = foldl g a l.
Proof.
  revert a. induction l as [|y l IH]; intros a H; [done|]. simpl.
  rewrite H by left. apply IH. intros. apply H. by right.
Qed.

(** ** Strings *)

(** [while (!s.empty() && f(s.back())) s.pop_back();] *)
Fixpoint pop_back_while (f : ascii → bool) (s : string) : string :=
  match s with
  | EmptyString => EmptyString
  | String c s =>
      match pop_back_while f s with
      | EmptyString => if f c then EmptyString else String c EmptyString
      | s' => String c s'
      end
  end.

(** [s.rfind(p, 0) == 0] *)
Definition starts_with (p s : string) : bool := String.prefix p s.

(** [s.substr(n)] for [n <= s.size()]. *)
Definition substr_from (n : nat) (s : string) : string :=
  String.substring n (String.length s - n) s.

Definition newline : string := String (ascii_of_nat 10) EmptyString.

Lemma string_length_app s t :
  String.length (s +:+ t) = (String.length s + String.length t)%nat.
Proof. induction s as [|c s IH]; [done|]. simpl. by rewrite IH. Qed.

Lemma substring_all s n : (String.length s ≤ n)%nat → String.substring 0 n s = s.
Proof.
  revert n. induction s as [|c s IH]; intros [|n] Hn; simpl in *; try done; [lia|].
  by rewrite IH by lia.
Qed.

Lemma substr_from_app p s : substr_from (String.length p) (p +:+ s) = s.
Proof.
  unfold substr_from. rewrite string_length_app.
  replace (String.length p + String.length s - String.length p)%nat
    with (String.length s) by lia.
  induction p as [|c p IH]; simpl; [by apply substring_all|done].
Qed.

Lemma starts_with_app p s : starts_with p (p +:+ s) = true.
Proof.
  unfold starts_with. induction p as [|c p IH]; simpl; [by destruct s|].
  by destruct (Ascii.ascii_dec c c).
Qed.

Lemma pop_back_while_keep f s t :
  Forall (λ c, f c = false) (String.list_ascii_of_string s) →
  Forall (λ c, f c = true) (String.list_ascii_of_string t) →
  pop_back_while f (s +:+ t) = s.
Proof.
  intros Hs Ht.
  assert (pop_back_while f t = EmptyString) as E.
  { induction t as [|c t IH]; simpl in *; [done|].
    apply Forall_cons in Ht as [Hc Ht]. by rewrite IH, Hc. }
  induction s as [|c s IH]; simpl in *; [done|].
  apply Forall_cons in Hs as [Hc Hs]. rewrite IH by done. destruct s; [by rewrite Hc|done].
Qed.

Lemma string_app_nil_r s : s +:+ "" = s.
Proof. induction s as [|c s IH]; [done|]. exact (f_equal (String c) IH). Qed.

Lemma string_app_assoc s t u : (s +:+ t) +:+ u = s +:+ (t +:+ u).
Proof. induction s as [|c s IH]; [done|]. exact (f_equal (String c) IH). Qed.

(** Induction for functions that consume two elements at a time. *)
Lemma list_pair_ind {A} (P : list A → Prop) :
  P [] → (∀ a, P [a]) → (∀ a b l, P l → P (a :: b :: l)) → ∀ l, P l.
Proof. intros H0 H1 H2. fix IH 1. intros [|a [|b l]]; [done|apply H1|apply H2, IH]. Qed.

(** A list has no duplicates or shows two equal elements. *)
Lemma NoDup_or_dup `{EqDecision A} (l : list A) :
  NoDup l ∨ ∃ i j x, i < j ∧ l !! i = Some x ∧ l !! j = Some x.
Proof.
  induction l as [|x l [IH|(i & j & y & ? & ? & ?)]].
  - left. constructor.
  - destruct (decide (x ∈ l)) as [Hin|Hin]; [|left; by constructor].
    right. apply list_elem_of_lookup in Hin as [j Hj]. exists 0, (S j), x. split_and!; [lia|done..].
  - right. exists (S i), (S j), y. split_and!; [lia|done..].
Qed.
