(* ===== verification/Hex.v ===== *)
(** * Hex: the hexadecimal helpers of [src/common.h]

    [hexs], [hexval], [unhex], [unhex_n] and [is_zero], with the round trips
    between them. A C++ [std::string] is a [string]. *)

From S2P Require Import Prelude.

Local Open Scope Z_scope.

(** ** Operations *)

(** The table [d] of [hexs]. *)
Definition hex_table : string := "0123456789abcdef".

Definition hex_digit (n : Z) : ascii :=
  match String.get (Z.to_nat n) hex_table with Some c => c | None => "0"%char end.

Fixpoint hexs (p : bytes) : string :=
  match p with
  | [] => ""
  | b :: p => String (hex_digit (Z.shiftr b 4)) (String (hex_digit (Z.land b 15)) (hexs p))
  end.

(** The code of a character. *)
Definition code (c : ascii) : Z := Z.of_N (Ascii.N_of_ascii c).

Definition hexval (c : ascii) : Z :=
  if (code "0" <=? code c) && (code c <=? code "9") then code c - code "0"
  else if (code "a" <=? code c) && (code c <=? code "f") then code c - code "a" + 10
  else if (code "A" <=? code c) && (code c <=? code "F") then code c - code "A" + 10
  else -1.

(** The loop of [unhex], on a string of even length. *)
Fixpoint unhex_loop (s : string) : option bytes :=
  match s with
  | String c1 (String c2 s) =>
      let h := hexval c1 in
      let l := hexval c2 in
      if (h <? 0) || (l <? 0) then None
      else b ← unhex_loop s; Some (u8 (Z.lor (Z.shiftl h 4) l) :: b)
  | _ => Some []
  end.

Definition unhex (s : string) : option bytes :=
  if Nat.odd (String.length s) then None else unhex_loop s.

Definition unhex_n (n : nat) (s : string) : option bytes :=
  b ← unhex s;
  if bool_decide (length b = n) then Some b else None.

(** The all-zero test of a [std::array]. *)
Definition is_zero (a : bytes) : bool := forallb (λ c, c =? 0) a.

(** ** Digits *)

Lemma hexval_digit n : 0 ≤ n < 16 → hexval (hex_digit n) = n.
Proof.
  intros Hn.
  assert (n = 0 ∨ n = 1 ∨ n = 2 ∨ n = 3 ∨ n = 4 ∨ n = 5 ∨ n = 6 ∨ n = 7 ∨ n = 8 ∨
          n = 9 ∨ n = 10 ∨ n = 11 ∨ n = 12 ∨ n = 13 ∨ n = 14 ∨ n = 15) as H by lia.
  repeat destruct H as [->|H]; subst; reflexivity.
Qed.

Lemma hexval_range c : -1 ≤ hexval c < 16.
Proof.
  unfold hexval. set (z := code c).
  assert (code "0" = 48 ∧ code "9" = 57 ∧ code "a" = 97 ∧ code "f" = 102 ∧
          code "A" = 65 ∧ code "F" = 70) as (-> & -> & -> & -> & -> & ->) by done.
  repeat case_match; bool_props; lia.
Qed.

Lemma byte_nibbles b : in_width 8 b → Z.lor (Z.shiftl (Z.shiftr b 4) 4) (Z.land b 15) = b.
Proof.
  intros _. change 15 with (Z.ones 4).
  rewrite <- Z.ldiff_ones_r by done.
  apply Z.bits_inj'. intros i Hi.
  rewrite Z.lor_spec, Z.ldiff_spec, Z.land_spec.
  by destruct (Z.testbit b i), (Z.testbit (Z.ones 4) i).
Qed.

Lemma nibble_high b : in_width 8 b → 0 ≤ Z.shiftr b 4 < 16.
Proof.
  unfold in_width. intros. rewrite Z.shiftr_div_pow2 by done.
  split; [apply Z.div_pos | apply Z.div_lt_upper_bound]; lia.
Qed.

Lemma nibble_low b : 0 ≤ Z.land b 15 < 16.
Proof. change 15 with (Z.ones 4). rewrite Z.land_ones by done. by apply Z.mod_pos_bound. Qed.

(** ** Round trips *)

Lemma length_hexs p : String.length (hexs p) = (2 * length p)%nat.
Proof. induction p as [|b p IH]; simpl; lia. Qed.

Lemma unhex_loop_hexs p : wf_bytes p → unhex_loop (hexs p) = Some p.
Proof.
  induction 1 as [|b p Hb Hp IH]; [done|]. cbn [hexs unhex_loop].
  pose proof (nibble_high b Hb). pose proof (nibble_low b).
  rewrite !hexval_digit by lia.
  rewrite (proj2 (Z.ltb_ge _ 0)), (proj2 (Z.ltb_ge _ 0)) by lia. cbn [orb].
  rewrite IH, byte_nibbles by done. simpl. by rewrite wrap_small.
Qed.

Lemma unhex_hexs_some p : wf_bytes p → unhex (hexs p) = Some p.
Proof.
  intros. unfold unhex. rewrite length_hexs.
  rewrite Nat.odd_mul. simpl. by apply unhex_loop_hexs.
Qed.

Lemma unhex_loop_wf s b : unhex_loop s = Some b → wf_bytes b.
Proof.
  revert s b. fix IH 1. intros [|c1 [|c2 s]] b; simpl; intros [= H]; subst; try constructor.
  destruct (_ || _); [done|].
  destruct (unhex_loop s) as [b'|] eqn:E; simplify_eq/=.
  constructor; [by apply wrap_in_width | by apply (IH s)].
Qed.

Lemma unhex_wf s b : unhex s = Some b → wf_bytes b.
Proof. unfold unhex. case_match; [done|]. apply unhex_loop_wf. Qed.

Lemma unhex_loop_length s b : Nat.odd (String.length s) = false → unhex_loop s = Some b →
  String.length s = (2 * length b)%nat.
Proof.
  revert s b. fix IH 1. intros [|c1 [|c2 s]] b Ho H; simpl in H; [by injection H as <-|done|].
  destruct (_ || _); [done|]. destruct (unhex_loop s) as [b'|] eqn:E; [|done].
  injection H as <-. apply IH in E; [|exact Ho]. simpl. lia.
Qed.

Lemma unhex_length s b : unhex s = Some b → String.length s = (2 * length b)%nat.
Proof. unfold unhex. case_match eqn:E; [done|]. by apply unhex_loop_length. Qed.

Lemma unhex_n_hexs n p : wf_array n p → unhex_n n (hexs p) = Some p.
Proof.
  intros [Hl Hp]. unfold unhex_n. rewrite unhex_hexs_some by done. simpl.
  by rewrite bool_decide_eq_true_2.
Qed.

Lemma unhex_n_wf n s p : unhex_n n s = Some p → wf_array n p.
Proof.
  unfold unhex_n. destruct (unhex s) as [b|] eqn:E; simpl; [|done].
  case_bool_decide; intros [= <-]. split; [done | by eapply unhex_wf].
Qed.

#[export] Hint Resolve unhex_n_wf unhex_wf : chainlite.

Lemma hexs_inj p q : wf_bytes p → wf_bytes q → hexs p = hexs q → p = q.
Proof.
  intros Hp Hq E. apply unhex_hexs_some in Hp, Hq. rewrite E in Hp. congruence.
Qed.

Lemma is_zero_spec n a : is_zero a = true → length a = n → a = replicate n 0.
Proof.
  revert n. induction a as [|x a IH]; intros [|n]; simpl; try done.
  intros Hz ?. bool_props. subst. f_equal. apply IH; [done|lia].
Qed.

Lemma is_zero_replicate n : is_zero (replicate n 0) = true.
Proof. induction n; [done|]. simpl. done. Qed.

