(* ===== verification/Text.v ===== *)
(** * Text: strings, decimal numbers and the C functions that read them

    The searches and conversions of [std::string] and of the C library that the
    program uses on request lines, JSON answers, proof files and arguments. *)

From S2P Require Import Prelude Hex.

Local Open Scope Z_scope.

(** ** Numbers *)

Definition is_digit (c : ascii) : bool := (48 <=? code c) && (code c <=? 57).
Definition is_space (c : ascii) : bool := (code c =? 32) || ((9 <=? code c) && (code c <=? 13)).

(** The value of the digits at the start of [s], after [acc]. *)
Fixpoint digits_value (acc : Z) (s : string) : Z :=
  match s with
  | String c s => if is_digit c then digits_value (10 * acc + (code c - 48)) s else acc
  | EmptyString => acc
  end.

Fixpoint skip_space (s : string) : string :=
  match s with
  | String c s' => if is_space c then skip_space s' else s
  | EmptyString => s
  end.

(** Leading space, a sign and digits: whether the sign is [-], and the digits' value. *)
Definition signed_digits (s : string) : bool * Z :=
  match skip_space s with
  | String c s' =>
      if code c =? 45 then (true, digits_value 0 s')
      else if code c =? 43 then (false, digits_value 0 s')
      else (false, digits_value 0 (String c s'))
  | EmptyString => (false, 0)
  end.

(** Unsigned conversions saturate, and negate on [w] bits. *)
Definition strtou (w : Z) (s : string) : Z :=
  let '(neg, v) := signed_digits s in
  if 2 ^ w <=? v then 2 ^ w - 1 else if neg then wrap w (- v) else v.

(** Signed conversions saturate at both ends. *)
Definition strtos (w : Z) (s : string) : Z :=
  let '(neg, v) := signed_digits s in
  let v := if neg then - v else v in
  Z.max (- 2 ^ (w - 1)) (Z.min (2 ^ (w - 1) - 1) v).

(** [unsigned long] has 32 bits on Windows. *)
Definition strtoull (s : string) : Z := strtou 64 s.
Definition strtoul (s : string) : Z := strtou 32 s.
Definition atoll (s : string) : Z := strtos 64 s.
Definition atoi (s : string) : Z := strtos 32 s.

(** ** Searching *)

(** [i = s.find(p)] with [s.substr(0, i)] and [s.substr(i + p.size())]. *)
Fixpoint cut (p s : string) : option (string * string) :=
  if starts_with p s then Some (EmptyString, substr_from (String.length p) s)
  else match s with
       | EmptyString => None
       | String c s' => match cut p s' with
                        | Some (a, b) => Some (String c a, b)
                        | None => None
                        end
       end.

(** The same at the last occurrence of a character, [s.rfind(c)]. *)
Fixpoint cut_last (c : ascii) (s : string) : option (string * string) :=
  match s with
  | EmptyString => None
  | String d s' =>
      match cut_last c s' with
      | Some (a, b) => Some (String d a, b)
      | None => if bool_decide (d = c) then Some (EmptyString, s') else None
      end
  end.

(** The loop [while (pos < s.size())] that cuts [s] at every [c]. *)
Fixpoint pieces (c : ascii) (s : string) : list string :=
  match s with
  | EmptyString => []
  | String d s =>
      if bool_decide (d = c) then EmptyString :: pieces c s
      else match pieces c s with
           | [] => [String d EmptyString]
           | l :: ls => String d l :: ls
           end
  end.

Definition newline_char : ascii := ascii_of_nat 10.

(** The loop that cuts a file at ['\n']. *)
Definition lines (s : string) : list string := pieces newline_char s.

(** [sep.join(l)]: what a loop with [if (i) out += sep;] builds. *)
Fixpoint join (sep : string) (l : list string) : string :=
  match l with
  | [] => ""
  | [x] => x
  | x :: l => x +:+ sep +:+ join sep l
  end.

(** [strf]: [vsnprintf] into a buffer of 4096 bytes; the texts hold no NUL. *)
Definition strf (s : string) : string := String.substring 0 4095 s.

(** ** Properties of characters *)

Definition all_chars (f : ascii → bool) (s : string) : Prop :=
  Forall (λ c, f c = true) (String.list_ascii_of_string s).

Lemma all_chars_app f s t : all_chars f s → all_chars f t → all_chars f (s +:+ t).
Proof.
  unfold all_chars. intros Hs Ht. induction s as [|c s IH]; [done|].
  change (String c s +:+ t) with (String c (s +:+ t)). cbn in *.
  apply Forall_cons in Hs as [Hc Hs]. constructor; auto.
Qed.

Lemma all_chars_impl (f g : ascii → bool) s : (∀ c, f c = true → g c = true) →
  all_chars f s → all_chars g s.
Proof. intros Hi H. eapply Forall_impl; [exact H|]. cbn. auto. Qed.

(** ** Decimal text *)

Lemma pretty_N_char_digit x : (x < 10)%N →
  is_digit (pretty_N_char x) = true ∧ code (pretty_N_char x) = 48 + Z.of_N x.
Proof.
  intros Hx. assert (x = 0 ∨ x = 1 ∨ x = 2 ∨ x = 3 ∨ x = 4 ∨ x = 5 ∨ x = 6 ∨ x = 7 ∨ x = 8 ∨ x = 9)%N as H by lia.
  repeat destruct H as [->|H]; subst; split; reflexivity.
Qed.

Lemma digits_value_go x s :
  digits_value 0 (pretty_N_go x s) = digits_value (Z.of_N x) s.
Proof.
  revert s. induction (N.lt_wf_0 x) as [x _ IH]; intros s.
  assert (x = 0 ∨ 0 < x)%N as [->|Hpos] by lia; [by rewrite pretty_N_go_0|].
  rewrite pretty_N_go_step by done.
  destruct (pretty_N_char_digit (x `mod` 10)) as [Hd Hc]; [by apply N.mod_lt|].
  pose proof (N.div_mod x 10 ltac:(done)) as Hdm.
  rewrite IH by by apply N.div_lt.
  cbn [digits_value]. rewrite Hd, Hc. f_equal. lia.
Qed.

Lemma all_digits_go x s : all_chars is_digit s → all_chars is_digit (pretty_N_go x s).
Proof.
  revert s. induction (N.lt_wf_0 x) as [x _ IH]; intros s Hs.
  assert (x = 0 ∨ 0 < x)%N as [->|Hpos] by lia; [by rewrite pretty_N_go_0|].
  rewrite pretty_N_go_step by done. apply IH; [by apply N.div_lt|].
  constructor; [|done]. by apply pretty_N_char_digit, N.mod_lt.
Qed.

Lemma pretty_Z_nonneg x : 0 ≤ x → pretty x = pretty (Z.to_N x).
Proof. by destruct x. Qed.

Lemma pretty_digits x : 0 ≤ x → all_chars is_digit (pretty x).
Proof.
  intros Hx. rewrite pretty_Z_nonneg by done. unfold pretty, pretty_N.
  case_decide; [by repeat constructor|]. apply all_digits_go. constructor.
Qed.

Lemma digits_value_pretty x : 0 ≤ x → digits_value 0 (pretty x) = x.
Proof.
  intros Hx. rewrite pretty_Z_nonneg by lia. unfold pretty, pretty_N. case_decide as E.
  - assert (x = 0) as -> by lia. done.
  - rewrite digits_value_go. cbn. lia.
Qed.

Lemma pretty_nonempty (x : Z) : 0 ≤ x → pretty x ≠ "".
Proof.
  intros Hx. rewrite pretty_Z_nonneg by done. unfold pretty, pretty_N. case_decide; [done|].
  assert (∀ y s, s ≠ "" → pretty_N_go y s ≠ "") as Hgo.
  { intros y. induction (N.lt_wf_0 y) as [y _ IHy]; intros s Hs.
    assert (y = 0 ∨ 0 < y)%N as [->|Hpos] by lia; [by rewrite pretty_N_go_0|].
    rewrite pretty_N_go_step by done. apply IHy; [by apply N.div_lt|done]. }
  rewrite pretty_N_go_step by lia. by apply Hgo.
Qed.

Lemma signed_digits_pretty x t : 0 ≤ x → signed_digits (pretty x +:+ t) = (false, digits_value 0 (pretty x +:+ t)).
Proof.
  intros Hx. pose proof (pretty_digits x Hx) as Hd. unfold signed_digits.
  destruct (pretty x) as [|c s] eqn:E; [by apply pretty_nonempty in E|].
  inversion Hd as [|?? Hc _]; subst. unfold is_digit in Hc. bool_props.
  change (String c s +:+ t) with (String c (s +:+ t)).
  assert (is_space c = false) as Hsp.
  { unfold is_space. apply orb_false_iff. split; [apply Z.eqb_neq; lia|].
    apply andb_false_iff. right. apply Z.leb_gt. lia. }
  cbn [skip_space]. rewrite Hsp.
  by rewrite (proj2 (Z.eqb_neq _ 45)), (proj2 (Z.eqb_neq _ 43)) by lia.
Qed.

(** Digits are read up to the first other character. *)
Definition no_digit_first (t : string) : bool :=
  match t with String c _ => negb (is_digit c) | EmptyString => true end.

Lemma digits_value_app s t acc : all_chars is_digit s → no_digit_first t = true →
  digits_value acc (s +:+ t) = digits_value acc s.
Proof.
  intros Hs Ht. revert acc. induction s as [|c s IH]; intros acc.
  - destruct t as [|c t]; [done|]. cbn in Ht. change ("" +:+ String c t) with (String c t).
    cbn [digits_value]. by destruct (is_digit c).
  - apply Forall_cons in Hs as [Hc Hs]. change (String c s +:+ t) with (String c (s +:+ t)).
    cbn [digits_value]. rewrite Hc. by apply IH.
Qed.

Lemma signed_digits_text x t : 0 ≤ x → no_digit_first t = true →
  signed_digits (pretty x +:+ t) = (false, x).
Proof.
  intros Hx Ht. rewrite signed_digits_pretty, digits_value_app, digits_value_pretty; auto using pretty_digits.
Qed.

(** Reading back a printed number, whatever follows it. *)
Lemma strtou_text w x t : 0 ≤ x < 2 ^ w → no_digit_first t = true → strtou w (pretty x +:+ t) = x.
Proof.
  intros Hx Ht. unfold strtou. rewrite signed_digits_text by (done || lia).
  by rewrite (proj2 (Z.leb_gt _ _)) by lia.
Qed.

Lemma strtos_text w x t : 0 ≤ x < 2 ^ (w - 1) → no_digit_first t = true →
  strtos w (pretty x +:+ t) = x.
Proof.
  intros Hx Ht. unfold strtos. rewrite signed_digits_text by (done || lia). lia.
Qed.

Lemma strtoull_pretty x : 0 ≤ x < 2 ^ 64 → strtoull (pretty x) = x.
Proof. intros. rewrite <- (string_app_nil_r (pretty x)). by apply strtou_text. Qed.

Lemma digits_value_nonneg acc s : 0 ≤ acc → 0 ≤ digits_value acc s.
Proof.
  revert acc. induction s as [|c s IH]; intros acc Ha; [done|]. cbn [digits_value].
  destruct (is_digit c) eqn:Ec; [|done]. apply IH. unfold is_digit in Ec. bool_props. lia.
Qed.

Lemma signed_digits_nonneg s : 0 ≤ (signed_digits s).2.
Proof.
  unfold signed_digits. destruct (skip_space s); [done|].
  repeat case_match; cbn [snd]; by apply digits_value_nonneg.
Qed.

Lemma strtou_range w s : 0 ≤ w → in_width w (strtou w s).
Proof.
  intros Hw. unfold strtou. pose proof (signed_digits_nonneg s) as H.
  destruct (signed_digits s) as [neg v]. cbn [snd] in H. pose proof (Z.pow_pos_nonneg 2 w).
  destruct (Z.leb_spec (2 ^ w) v); [unfold in_width; lia|].
  destruct neg; [by apply wrap_in_width|unfold in_width; lia].
Qed.

(** A number is as long as the powers of ten it reaches. *)
Lemma length_pretty_go x s d : Z.of_N x < 10 ^ Z.of_nat d →
  (String.length (pretty_N_go x s) ≤ d + String.length s)%nat.
Proof.
  revert x s. induction d as [|d IH]; intros x s Hx.
  - change (10 ^ Z.of_nat 0) with 1 in Hx. assert (x = 0%N) as -> by lia. by rewrite pretty_N_go_0.
  - assert (x = 0 ∨ 0 < x)%N as [->|Hpos] by lia; [rewrite pretty_N_go_0; lia|].
    rewrite pretty_N_go_step by done. etransitivity; [apply IH|cbn; lia].
    rewrite N2Z.inj_div. apply Z.div_lt_upper_bound; [lia|].
    rewrite Nat2Z.inj_succ, Z.pow_succ_r in Hx by lia. lia.
Qed.

Lemma length_pretty x d : 0 ≤ x < 10 ^ Z.of_nat (S d) → (String.length (pretty x) ≤ S d)%nat.
Proof.
  intros Hx. rewrite pretty_Z_nonneg by lia. unfold pretty, pretty_N.
  case_decide; [cbn; lia|]. etransitivity; [apply (length_pretty_go _ _ (S d)); lia|cbn; lia].
Qed.

(** ** Pieces and lines *)

Definition not_char (c d : ascii) : bool := negb (bool_decide (d = c)).

Lemma pieces_cons c l rest : all_chars (not_char c) l →
  pieces c (l +:+ String c rest) = l :: pieces c rest.
Proof.
  intros H. unfold all_chars in H. induction l as [|d l IH].
  - change ("" +:+ String c rest) with (String c rest). cbn [pieces]. by rewrite bool_decide_eq_true_2.
  - apply Forall_cons in H as [Hd Hl]. change (String d l +:+ String c rest) with (String d (l +:+ String c rest)).
    cbn [pieces]. unfold not_char in Hd. apply negb_true_iff in Hd. by rewrite Hd, IH.
Qed.

Lemma pieces_last c l : l ≠ "" → all_chars (not_char c) l → pieces c l = [l].
Proof.
  intros Hne H. induction l as [|d l IH]; [done|]. apply Forall_cons in H as [Hd Hl].
  cbn [pieces]. unfold not_char in Hd. apply negb_true_iff in Hd. rewrite Hd.
  destruct l as [|e l]; [done|]. by rewrite IH.
Qed.

(** Cutting joined texts gives them back. *)
Lemma pieces_join c l : Forall (λ x, x ≠ "" ∧ all_chars (not_char c) x) l →
  pieces c (join (String c EmptyString) l) = l.
Proof.
  induction 1 as [|x l [Hne Hx] Hl IH]; [done|]. destruct l as [|y l].
  - by apply pieces_last.
  - change (join (String c "") (x :: y :: l)) with (x +:+ String c (join (String c "") (y :: l))).
    by rewrite pieces_cons, IH.
Qed.

Definition no_newline (c : ascii) : bool := negb (code c =? 10).

Lemma code_inj c d : code c = code d → c = d.
Proof.
  unfold code. intros H%N2Z.inj. by rewrite <- (ascii_N_embedding c), H, ascii_N_embedding.
Qed.

Lemma no_newline_char c : no_newline c = true → not_char newline_char c = true.
Proof.
  unfold no_newline, not_char. intros H. apply negb_true_iff in H. apply Z.eqb_neq in H.
  apply negb_true_iff, bool_decide_eq_false_2. by intros ->.
Qed.

Lemma lines_cons l rest : all_chars no_newline l → lines (l +:+ newline +:+ rest) = l :: lines rest.
Proof.
  intros H. apply (pieces_cons newline_char).
  eapply all_chars_impl; [apply no_newline_char|done].
Qed.

Lemma digit_no_newline c : is_digit c = true → no_newline c = true.
Proof. unfold is_digit, no_newline. intros. bool_props. apply negb_true_iff, Z.eqb_neq. lia. Qed.

(** Hexadecimal digits. *)
Definition is_hex (c : ascii) : bool := 0 <=? hexval c.

Lemma hexs_is_hex p : wf_bytes p → all_chars is_hex (hexs p).
Proof.
  induction 1 as [|b p Hb Hp IH]; [constructor|]. unfold all_chars in *. cbn.
  pose proof (nibble_high b Hb). pose proof (nibble_low b).
  repeat constructor; try done; unfold is_hex; rewrite hexval_digit by lia; apply Z.leb_le; lia.
Qed.

Lemma hex_no_newline c : is_hex c = true → no_newline c = true.
Proof.
  unfold is_hex, no_newline. intros H. destruct (code c =? 10) eqn:E; [|done]. exfalso.
  apply Z.eqb_eq in E. unfold hexval in H. rewrite E in H. done.
Qed.

Lemma substr_prefix n p s : n = String.length p → substr_from n (p +:+ s) = s.
Proof. intros ->. apply substr_from_app. Qed.

(** ** Where a search stops *)

Definition prepend (t : string) (r : string * string) : string * string := (t +:+ r.1, r.2).

Lemma prepend_prepend s t (r : option (string * string)) : prepend s <$> (prepend t <$> r) = prepend (s +:+ t) <$> r.
Proof. destruct r as [[a b]|]; [|done]. cbn. unfold prepend. cbn. by rewrite string_app_assoc. Qed.

Lemma cut_char_other d p c s : d ≠ c → cut (String d p) (String c s) = prepend (String c "") <$> cut (String d p) s.
Proof.
  intros Hd. cbn [cut]. unfold starts_with. cbn [String.prefix].
  destruct (Ascii.ascii_dec d c) as [->|_]; [done|]. by destruct (cut (String d p) s) as [[]|].
Qed.

Lemma cut_skip d p t s : all_chars (not_char d) t → cut (String d p) (t +:+ s) = prepend t <$> cut (String d p) s.
Proof.
  intros Ht. induction t as [|c t IH].
  - change ("" +:+ s) with s. by destruct (cut (String d p) s) as [[]|].
  - apply Forall_cons in Ht as [Hc Ht]. change (String c t +:+ s) with (String c (t +:+ s)).
    unfold not_char in Hc. apply negb_true_iff, bool_decide_eq_false in Hc.
    rewrite cut_char_other by congruence. by rewrite IH, prepend_prepend.
Qed.

Lemma cut_miss d p s : starts_with p s = false →
  cut (String d p) (String d s) = prepend (String d "") <$> cut (String d p) s.
Proof.
  intros H. cbn [cut]. unfold starts_with in *. cbn [String.prefix].
  destruct (Ascii.ascii_dec d d) as [_|?]; [|done]. rewrite H. by destruct (cut (String d p) s) as [[]|].
Qed.

Lemma cut_hit p s : cut p (p +:+ s) = Some ("", s).
Proof.
  destruct (p +:+ s) eqn:E.
  - cbn [cut]. rewrite <- E, starts_with_app. by rewrite substr_from_app.
  - cbn [cut]. rewrite <- E, starts_with_app. by rewrite substr_from_app.
Qed.

Lemma cut_found p a b : ∃ x y, cut p (a +:+ p +:+ b) = Some (x, y).
Proof.
  induction a as [|c a (x & y & IH)]; [exists "", b; by apply (cut_hit p b)|].
  change (String c a +:+ p +:+ b) with (String c (a +:+ p +:+ b)). cbn [cut].
  case_match; [by eexists _, _|]. rewrite IH. by eexists _, _.
Qed.

Lemma starts_with_extend p s t : starts_with p s = true → starts_with p (s +:+ t) = true.
Proof.
  unfold starts_with. revert s. induction p as [|c p IH]; intros [|d s]; try done.
  - by destruct t.
  - change (String d s +:+ t) with (String d (s +:+ t)). cbn [String.prefix].
    destruct (Ascii.ascii_dec c d); [apply IH|done].
Qed.

Lemma starts_with_within p s t : (String.length p ≤ String.length s)%nat →
  starts_with p (s +:+ t) = starts_with p s.
Proof.
  unfold starts_with. revert s. induction p as [|c p IH]; intros [|d s] Hl; cbn in Hl; try lia.
  - by destruct t.
  - done.
  - change (String d s +:+ t) with (String d (s +:+ t)). cbn [String.prefix].
    destruct (Ascii.ascii_dec c d); [apply IH; lia|done].
Qed.

Lemma starts_with_split p s : starts_with p s = true → ∃ t, s = p +:+ t.
Proof.
  unfold starts_with. revert s. induction p as [|c p IH]; intros s H; [by exists s|].
  destruct s as [|d s]; [done|]. cbn [String.prefix] in H.
  destruct (Ascii.ascii_dec c d) as [->|]; [|done]. destruct (IH s H) as [t ->]. by exists t.
Qed.

Lemma starts_with_substr p s : starts_with p s = true → s = p +:+ substr_from (String.length p) s.
Proof. intros [t ->]%starts_with_split. by rewrite substr_from_app. Qed.

Lemma cut_split p s a b : cut p s = Some (a, b) → s = a +:+ p +:+ b.
Proof.
  revert a. induction s as [|c s IH]; intros a; cbn [cut];
    (destruct (starts_with _ _) eqn:E; [intros [= <- <-]; exact (starts_with_substr _ _ E)|]); [done|].
  destruct (cut p s) as [[x y]|]; [|done]. intros [= <- <-].
  change (String c x +:+ p +:+ y) with (String c (x +:+ p +:+ y)). by rewrite <- IH.
Qed.

(** What was found stays found when more text arrives. *)
Lemma cut_extend p s a b t : cut p s = Some (a, b) → cut p (s +:+ t) = Some (a, b +:+ t).
Proof.
  revert a. induction s as [|c s IH]; intros a; cbn [cut].
  - destruct (starts_with p "") eqn:E; [|done]. destruct p; [|done]. intros [= <- <-].
    exact (cut_hit "" t).
  - change (String c s +:+ t) with (String c (s +:+ t)). cbn [cut].
    destruct (starts_with p (String c s)) eqn:E.
    + intros [= <- <-]. pose proof (starts_with_extend _ _ t E) as E'.
      change (String c s +:+ t) with (String c (s +:+ t)) in E'. rewrite E'.
      do 2 f_equal. change (String c (s +:+ t)) with (String c s +:+ t).
      rewrite (starts_with_substr _ _ E) at 1. by rewrite string_app_assoc, substr_from_app.
    + destruct (cut p s) as [[x y]|] eqn:Ec; [|done]. intros [= <- <-].
      destruct (starts_with p (String c (s +:+ t))) eqn:E'.
      2:{ by rewrite (IH x). }
      exfalso. pose proof (cut_split _ _ _ _ Ec) as Es.
      change (String c (s +:+ t)) with (String c s +:+ t) in E'.
      rewrite starts_with_within in E'; [congruence|].
      rewrite Es. cbn. rewrite !string_length_app. lia.
Qed.

(** The searched text begins with a character that does not occur before it. *)
Lemma cut_text c p s t : all_chars (not_char c) s → cut (String c p) (s +:+ String c p +:+ t) = Some (s, t).
Proof.
  intros Hs. rewrite cut_skip, cut_hit by done. cbn. unfold prepend. cbn. by rewrite string_app_nil_r.
Qed.

(** Cutting at one character. *)
Lemma cut_char c s t : all_chars (not_char c) s → cut (String c "") (s +:+ String c t) = Some (s, t).
Proof.
  intros Hs. change (String c t) with (String c "" +:+ t). by apply cut_text.
Qed.

Lemma cut_char_none c p s : all_chars (not_char c) s → cut (String c p) s = None.
Proof.
  intros Hs. rewrite <- (string_app_nil_r s), cut_skip by done. done.
Qed.

Lemma cut_last_none c s : all_chars (not_char c) s → cut_last c s = None.
Proof.
  intros Hs. induction s as [|d s IH]; [done|]. apply Forall_cons in Hs as [Hd Hs]. cbn [cut_last].
  rewrite IH by done. unfold not_char in Hd. apply negb_true_iff in Hd. by rewrite Hd.
Qed.

Lemma cut_last_char c s t : all_chars (not_char c) t → cut_last c (s +:+ String c t) = Some (s, t).
Proof.
  intros Ht. induction s as [|d s IH].
  - change ("" +:+ String c t) with (String c t). cbn [cut_last].
    by rewrite cut_last_none, bool_decide_eq_true_2.
  - change (String d s +:+ String c t) with (String d (s +:+ String c t)). cbn [cut_last]. by rewrite IH.
Qed.

Lemma strf_short s : (String.length s ≤ 4095)%nat → strf s = s.
Proof. intros. by apply substring_all. Qed.
