(* ===== verification/Args.v ===== *)
(** * Args: command lines, [Args] of [src/common.h] *)

From S2P Require Import Prelude Hex Text.

Record Args := mkArgs {
  kv : gmap string string;
  pos : list string;
}.

Definition Args_empty : Args := mkArgs ∅ [].

Definition is_option (s : string) : bool := starts_with "--" s.

Definition set_option (a : Args) (k v : string) : Args := mkArgs (<[k := v]> (kv a)) (pos a).

(** [argv] without the program's name. *)
Fixpoint parse_loop (a : Args) (argv : list string) : Args :=
  match argv with
  | [] => a
  | s :: rest =>
      if is_option s then
        let k := substr_from 2 s in
        match rest with
        | v :: rest' =>
            if negb (is_option v) then parse_loop (set_option a k v) rest'
            else parse_loop (set_option a k "1") rest
        | [] => set_option a k "1"
        end
      else parse_loop (mkArgs (kv a) (pos a ++ [s])) rest
  end.

Definition parse (argv : list string) : Args := parse_loop Args_empty argv.

Definition get (a : Args) (k def : string) : string := default def (kv a !! k).

Definition has_option (a : Args) (k : string) : bool := bool_decide (is_Some (kv a !! k)).

(** ** Options with values *)

(** The words of a command line for options. *)
Definition option_words (l : list (string * string)) : list string :=
  concat (map (λ kv, ["--" +:+ kv.1; kv.2]) l).

Lemma parse_options l a rest : Forall (λ kv, is_option kv.2 = false) l →
  parse_loop a (option_words l ++ rest) =
  parse_loop (mkArgs (foldl (λ m kv, <[kv.1 := kv.2]> m) (kv a) l) (pos a)) rest.
Proof.
  revert a. induction l as [|[k v] l IH]; intros a Hl; [by destruct a|].
  apply Forall_cons in Hl as [Hv Hl]. cbn [snd] in Hv. unfold option_words. cbn [map concat].
  cbn [app fst snd]. cbn [parse_loop]. unfold is_option at 1. rewrite starts_with_app, Hv. cbn [negb].
  fold (option_words l). rewrite (substr_prefix 2 "--" k eq_refl). by rewrite IH.
Qed.

(** An option without a value, before another option. *)
Lemma parse_flag a k l rest : l ≠ [] →
  parse_loop a (("--" +:+ k) :: option_words l ++ rest) = parse_loop (set_option a k "1") (option_words l ++ rest).
Proof.
  intros Hl. destruct l as [|[k' v] l]; [done|]. unfold option_words. cbn [map concat app fst snd].
  cbn [parse_loop]. unfold is_option at 1 2. rewrite !starts_with_app. cbn [negb].
  by rewrite (substr_prefix 2 "--" k eq_refl).
Qed.

(** A command followed by options with values. *)
Lemma parse_command cmd l : is_option cmd = false → Forall (λ kv, is_option kv.2 = false) l →
  parse (cmd :: option_words l) = mkArgs (foldl (λ m kv, <[kv.1 := kv.2]> m) ∅ l) [cmd].
Proof.
  intros Hc Hl. unfold parse. cbn [parse_loop]. rewrite Hc. cbn [pos Args_empty app kv].
  rewrite <- (app_nil_r (option_words l)), parse_options by done. done.
Qed.
