(* ===== verification/Json.v ===== *)
(** * Json: the JSON texts of the node and the extractors of [src/http_client.h]

    The node writes flat objects with [strf]; the wallet and the GPU miner read single
    fields back with [extract_json_str] and [extract_json_int], which search for the
    quoted key. The lemmas show when that search finds the right field. *)

From S2P Require Import Prelude Hex Text.

Local Open Scope Z_scope.

(** ** Objects *)

Definition dq : ascii := ascii_of_nat 34.

Definition quoted (s : string) : string := String dq (s +:+ String dq "").

(** Strings, numbers, and other texts (booleans and arrays). *)
Inductive JVal : Type :=
  | JStr (s : string)
  | JNum (x : Z)
  | JRaw (s : string).

Definition value_text (v : JVal) : string :=
  match v with JStr s => quoted s | JNum x => pretty x | JRaw s => s end.

Definition field_text (f : string * JVal) : string := quoted f.1 +:+ ":" +:+ value_text f.2.

(** The fields of an object after its opening brace. *)
Definition fields_text (fs : list (string * JVal)) : string := join "," (map field_text fs).

Definition obj (fs : list (string * JVal)) : string := "{" +:+ fields_text fs +:+ "}".

(** ** Extractors *)

Definition extract_json_str (body key : string) : string :=
  match cut (quoted key +:+ ":" +:+ String dq "") body with
  | None => ""
  | Some (_, r) => match cut (String dq "") r with Some (v, _) => v | None => "" end
  end.

Definition extract_json_int (body key : string) (def : Z) : Z :=
  match cut (quoted key +:+ ":") body with
  | None => def
  | Some (_, r) => atoll r
  end.

(** ** Searching past other fields *)

Definition no_dq : ascii → bool := not_char dq.

(** Characters of a key. *)
Definition key_char (c : ascii) : bool :=
  is_digit c || ((97 <=? code c) && (code c <=? 122)) || (code c =? 95).

Definition key_ok (k : string) : Prop := k ≠ "" ∧ all_chars key_char k.

(** A value whose text cannot be mistaken for a key. *)
Definition value_ok (v : JVal) : Prop :=
  match v with JStr s => all_chars no_dq s | JNum x => 0 ≤ x | JRaw s => all_chars no_dq s end.

Lemma key_char_no_dq c : key_char c = true → no_dq c = true.
Proof.
  unfold key_char, no_dq, not_char. intros H. apply negb_true_iff, bool_decide_eq_false_2. intros ->. done.
Qed.

Lemma digit_no_dq c : is_digit c = true → no_dq c = true.
Proof. intros H. apply key_char_no_dq. unfold key_char. by rewrite H. Qed.

Lemma starts_with_key k s x y : all_chars no_dq k → all_chars no_dq s →
  starts_with (k +:+ String dq x) (s +:+ String dq y) = true → k = s ∧ starts_with x y = true.
Proof.
  unfold starts_with. revert s. induction k as [|c k IH]; intros [|d s] Hk Hs.
  - change ("" +:+ String dq x) with (String dq x). change ("" +:+ String dq y) with (String dq y).
    cbn [String.prefix]. destruct (Ascii.ascii_dec dq dq) as [_|?]; [|done]. done.
  - change ("" +:+ String dq x) with (String dq x). change (String d s +:+ String dq y) with (String d (s +:+ String dq y)).
    apply Forall_cons in Hs as [Hd _]. cbn [String.prefix].
    destruct (Ascii.ascii_dec dq d) as [<-|_]; [|done]. by apply negb_true_iff, bool_decide_eq_false in Hd.
  - change (String c k +:+ String dq x) with (String c (k +:+ String dq x)). change ("" +:+ String dq y) with (String dq y).
    apply Forall_cons in Hk as [Hc _]. cbn [String.prefix].
    destruct (Ascii.ascii_dec c dq) as [->|_]; [|done]. by apply negb_true_iff, bool_decide_eq_false in Hc.
  - change (String c k +:+ String dq x) with (String c (k +:+ String dq x)).
    change (String d s +:+ String dq y) with (String d (s +:+ String dq y)).
    apply Forall_cons in Hk as [_ Hk], Hs as [_ Hs]. cbn [String.prefix].
    destruct (Ascii.ascii_dec c d) as [->|_]; [|done]. intros H. by destruct (IH s Hk Hs H) as [-> ?].
Qed.

Lemma key_no_dq k : key_ok k → all_chars no_dq k.
Proof. intros [_ Hk]. eapply all_chars_impl; [apply key_char_no_dq|done]. Qed.

(** A key does not begin with punctuation. *)
Lemma starts_with_punct k x c s : key_ok k → key_char c = false →
  starts_with (k +:+ x) (String c s) = false.
Proof.
  intros [Hne Hk] Hc. destruct k as [|d k]; [done|]. apply Forall_cons in Hk as [Hd _].
  unfold starts_with. change (String d k +:+ x) with (String d (k +:+ x)). cbn [String.prefix].
  destruct (Ascii.ascii_dec d c) as [->|_]; [congruence|done].
Qed.

(** The pattern of key [k], followed by [q]. *)
Definition pattern (k q : string) : string := quoted k +:+ ":" +:+ q.

Lemma pattern_cons k q : pattern k q = String dq (k +:+ String dq (":" +:+ q)).
Proof.
  unfold pattern, quoted.
  change (String dq (k +:+ String dq "") +:+ ":" +:+ q) with (String dq ((k +:+ String dq "") +:+ ":" +:+ q)).
  by rewrite string_app_assoc.
Qed.

Lemma quoted_app s t : quoted s +:+ t = String dq (s +:+ String dq t).
Proof.
  unfold quoted. change (String dq (s +:+ String dq "") +:+ t) with (String dq ((s +:+ String dq "") +:+ t)).
  by rewrite string_app_assoc.
Qed.

(** What follows a field of an object. *)
Definition field_end (t : string) : Prop :=
  match t with String c _ => key_char c = false ∧ c ≠ dq ∧ code c ≠ 58 | EmptyString => False end.

(** A quoted text that is not the key is passed over. *)
Lemma cut_quoted k q s c t : key_ok k → all_chars no_dq s → key_char c = false → c ≠ dq →
  (k = s → code c ≠ 58) →
  cut (pattern k q) (quoted s +:+ String c t) = prepend (quoted s) <$> cut (pattern k q) (String c t).
Proof.
  intros Hk Hs Hc Hq Hne. rewrite pattern_cons, quoted_app. rewrite cut_miss.
  2:{ destruct (starts_with _ _) eqn:E; [|done]. exfalso.
      apply starts_with_key in E as [E1 E2]; [|by apply key_no_dq|done].
      unfold starts_with in E2. cbn [String.prefix] in E2. change (":" +:+ q) with (String ":" q) in E2.
      cbn [String.prefix] in E2. destruct (Ascii.ascii_dec ":" c) as [<-|_]; [|done]. by apply Hne. }
  rewrite cut_skip by done. rewrite cut_miss by by apply starts_with_punct.
  rewrite !prepend_prepend. f_equal.
Qed.

Lemma cut_plain k q s c t : key_ok k → all_chars no_dq s → c ≠ dq →
  cut (pattern k q) (s +:+ String c t) = prepend s <$> cut (pattern k q) (String c t).
Proof. intros Hk Hs Hc. rewrite pattern_cons. by apply cut_skip. Qed.

Lemma value_text_no_dq v : value_ok v → (∃ s, v = JStr s) ∨ all_chars no_dq (value_text v).
Proof.
  destruct v as [s|x|s]; cbn; [left; by eexists|right..|right]; [|done].
  eapply all_chars_impl; [apply digit_no_dq|by apply pretty_digits].
Qed.

(** The search for [k] passes over the field of another key. *)
Lemma cut_field k q f t : key_ok k → key_ok f.1 → k ≠ f.1 → value_ok f.2 → field_end t →
  cut (pattern k q) (field_text f +:+ t) = prepend (field_text f) <$> cut (pattern k q) t.
Proof.
  destruct f as [k' v], t as [|c t]; [done|]. cbn [fst snd]. intros Hk Hk' Hne Hv (Hc & Hq & Hcol).
  unfold field_text. cbn [fst snd]. rewrite !string_app_assoc.
  change (":" +:+ value_text v +:+ String c t) with (String ":" (value_text v +:+ String c t)).
  rewrite cut_quoted; [|done|by apply key_no_dq|done|done|intros E; congruence].
  change (String ":" (value_text v +:+ String c t)) with (":" +:+ value_text v +:+ String c t).
  assert (cut (pattern k q) (":" +:+ value_text v +:+ String c t) =
    prepend ":" <$> cut (pattern k q) (value_text v +:+ String c t)) as ->.
  { rewrite pattern_cons. by apply (cut_skip _ _ ":"); repeat constructor. }
  destruct (value_text_no_dq v Hv) as [[s ->]|Hp].
  - cbn [value_text]. rewrite (cut_quoted k q s) by done.
    by rewrite !prepend_prepend, !string_app_assoc.
  - rewrite cut_plain by done. by rewrite !prepend_prepend, !string_app_assoc.
Qed.

(** Fields, each with the comma after it. *)
Definition concat_fields (l : list (string * JVal)) : string :=
  foldr (λ f s, field_text f +:+ "," +:+ s) "" l.

(** The search passes over all fields before that of [k]. *)
Lemma cut_fields k q l t : key_ok k → Forall (λ f, key_ok f.1 ∧ k ≠ f.1 ∧ value_ok f.2) l →
  ∃ a, cut (pattern k q) (concat_fields l +:+ pattern k q +:+ t) = Some (a, t).
Proof.
  intros Hk. induction 1 as [|f l (H1 & H2 & H3) Hl [a IH]].
  - exists "". change (concat_fields [] +:+ pattern k q +:+ t) with (pattern k q +:+ t). apply cut_hit.
  - exists (field_text f +:+ "," +:+ a).
    change (concat_fields (f :: l)) with (field_text f +:+ "," +:+ concat_fields l).
    rewrite !string_app_assoc, cut_field by done.
    assert (cut (pattern k q) ("," +:+ concat_fields l +:+ pattern k q +:+ t) =
      prepend "," <$> cut (pattern k q) (concat_fields l +:+ pattern k q +:+ t)) as ->.
    { rewrite pattern_cons. by apply (cut_skip _ _ ","); repeat constructor. }
    by rewrite IH.
Qed.

(** The fields around one of them; [d] closes the object or separates more fields. *)
Lemma fields_text_split l f r d u : field_end (String d u) → no_digit_first (String d u) = true →
  ∃ c t, field_end (String c t) ∧ no_digit_first (String c t) = true ∧
  fields_text (l ++ f :: r) +:+ String d u = concat_fields l +:+ field_text f +:+ String c t.
Proof.
  intros Hd Hu. induction l as [|g l (c & t & Hc & Hd' & IH)].
  - destruct r as [|g r].
    + by exists d, u.
    + exists ","%char, (fields_text (g :: r) +:+ String d u). split_and!; try done.
      unfold fields_text. cbn [app map join]. by rewrite !string_app_assoc.
  - exists c, t. split_and!; try done. rewrite <- app_comm_cons.
    change (concat_fields (g :: l)) with (field_text g +:+ "," +:+ concat_fields l).
    rewrite !string_app_assoc, <- IH. unfold fields_text. cbn [map].
    destruct (map field_text (l ++ f :: r)) as [|x xs] eqn:E; [by destruct l|].
    cbn [join]. by rewrite !string_app_assoc.
Qed.

(** ** Reading fields of an object *)

Lemma cut_obj k q l t : key_ok k → Forall (λ f, key_ok f.1 ∧ k ≠ f.1 ∧ value_ok f.2) l →
  ∃ a, cut (pattern k q) ("{" +:+ concat_fields l +:+ pattern k q +:+ t) = Some (a, t).
Proof.
  intros Hk Hl. destruct (cut_fields k q l t Hk Hl) as [a E]. exists ("{" +:+ a).
  rewrite pattern_cons in *. rewrite (cut_skip _ _ "{") by by repeat constructor. by rewrite E.
Qed.

Lemma pattern_app k q t : pattern k q +:+ t = quoted k +:+ ":" +:+ q +:+ t.
Proof. unfold pattern. by rewrite !string_app_assoc. Qed.

(** A field comes after fields of other keys with plain values. *)
Definition before (k : string) (l : list (string * JVal)) : Prop :=
  Forall (λ f, key_ok f.1 ∧ k ≠ f.1 ∧ value_ok f.2) l.

(** The value of a number field, whatever follows it. *)
Lemma extract_int_open l r k x d c u : key_ok k → before k l → 0 ≤ x < 2 ^ 63 →
  field_end (String c u) → no_digit_first (String c u) = true →
  extract_json_int ("{" +:+ fields_text (l ++ (k, JNum x) :: r) +:+ String c u) k d = x.
Proof.
  intros Hk Hl Hx Hc Hu. unfold extract_json_int.
  destruct (fields_text_split l (k, JNum x) r c u Hc Hu) as (c' & t & _ & Hd & ->).
  unfold field_text. cbn [fst snd value_text]. change (quoted k +:+ ":") with (pattern k "").
  destruct (cut_obj k "" l (pretty x +:+ String c' t) Hk Hl) as [a E].
  rewrite pattern_app in E. change ("" +:+ pretty x +:+ String c' t) with (pretty x +:+ String c' t) in E.
  rewrite !string_app_assoc, E. by apply (strtos_text 64).
Qed.

(** The value of a string field. *)
Lemma extract_str_open l r k v c u : key_ok k → before k l → all_chars no_dq v →
  field_end (String c u) → no_digit_first (String c u) = true →
  extract_json_str ("{" +:+ fields_text (l ++ (k, JStr v) :: r) +:+ String c u) k = v.
Proof.
  intros Hk Hl Hv Hc Hu. unfold extract_json_str.
  destruct (fields_text_split l (k, JStr v) r c u Hc Hu) as (c' & t & _ & _ & ->).
  unfold field_text. cbn [fst snd value_text].
  change (quoted k +:+ ":" +:+ String dq "") with (pattern k (String dq "")).
  destruct (cut_obj k (String dq "") l (v +:+ String dq (String c' t)) Hk Hl) as [a E].
  rewrite pattern_app in E. change (String dq "" +:+ v +:+ String dq (String c' t)) with
    (String dq (v +:+ String dq (String c' t))) in E.
  rewrite !string_app_assoc, (quoted_app v), E.
  change (String dq (String c' t)) with (String dq "" +:+ String c' t). by rewrite cut_text.
Qed.

Lemma extract_int_obj l r k x d : key_ok k → before k l → 0 ≤ x < 2 ^ 63 →
  extract_json_int (obj (l ++ (k, JNum x) :: r)) k d = x.
Proof. intros. by apply (extract_int_open l r k x d "}" ""). Qed.

Lemma extract_str_obj l r k v : key_ok k → before k l → all_chars no_dq v →
  extract_json_str (obj (l ++ (k, JStr v) :: r)) k = v.
Proof. intros. by apply (extract_str_open l r k v "}" ""). Qed.

(** ** Sizes *)

Definition field_size (f : string * JVal) : nat := String.length f.1 + 4 + String.length (value_text f.2).

Lemma length_quoted s : String.length (quoted s) = (2 + String.length s)%nat.
Proof. unfold quoted. cbn. rewrite string_length_app. cbn. lia. Qed.

Lemma length_fields fs : (String.length (fields_text fs) ≤ sum_list_with field_size fs)%nat.
Proof.
  unfold fields_text. induction fs as [|f fs IH]; [cbn; lia|]. cbn [map sum_list_with].
  assert (String.length (field_text f) = String.length f.1 + 3 + String.length (value_text f.2))%nat as Hf.
  { unfold field_text. rewrite !string_length_app, length_quoted. cbn. lia. }
  unfold field_size at 1. destruct (map field_text fs) as [|x xs] eqn:E.
  - cbn [join]. lia.
  - cbn [join] in *. rewrite !string_length_app in *. cbn. lia.
Qed.

Lemma length_obj fs : (String.length (obj fs) ≤ 2 + sum_list_with field_size fs)%nat.
Proof. unfold obj. rewrite !string_length_app. cbn. pose proof (length_fields fs). lia. Qed.

Lemma length_num x : 0 ≤ x < 2 ^ 64 → (String.length (value_text (JNum x)) ≤ 20)%nat.
Proof. intros. cbn. apply length_pretty. lia. Qed.

Lemma length_str s : String.length (value_text (JStr s)) = (2 + String.length s)%nat.
Proof. apply length_quoted. Qed.
