(* ===== verification/Serial.v ===== *)
(** * Serial: the little-endian [Writer] and [Reader] of [src/common.h]

    A [Writer] is its buffer [b]; a [Reader] keeps the buffer and the offset and
    throws "short read". The interface [Codec] states what a component that is
    written by one and read back by the other promises; this file gives the
    instances of the primitive types. *)

From S2P Require Import Prelude.

Local Open Scope Z_scope.

(** ** Writer *)

Definition w_u8 (w : bytes) (v : Z) : bytes := w ++ [u8 v].

Definition w_u16 (w : bytes) (v : Z) : bytes :=
  (w ++ [Z.land v 255]) ++ [Z.land (Z.shiftr v 8) 255].

(** [for (int i = 0; i < n; i++) b.push_back((v >> (8 * i)) & 0xff)] *)
Definition w_le (n : nat) (w : bytes) (v : Z) : bytes :=
  foldl (λ b i, b ++ [Z.land (Z.shiftr v (8 * Z.of_nat i)) 255]) w (seq 0 n).

Definition w_u32 : bytes → Z → bytes := w_le 4.
Definition w_u64 : bytes → Z → bytes := w_le 8.

Definition w_raw (w p : bytes) : bytes := w ++ p.
Definition w_arr (w a : bytes) : bytes := w_raw w a.
Definition w_blob (w v : bytes) : bytes := w_raw w v.

(** ** Reader *)

Record Reader := mkReader { rp : bytes; roff : Z }.

Definition reader_of (b : bytes) : Reader := mkReader b 0.

Definition rn (r : Reader) : Z := Z.of_nat (length (rp r)).

(** A reading operation: it may throw and it moves the offset. *)
Definition Parser (A : Type) : Type := Reader → result (A * Reader).

#[export] Instance parser_ret : MRet Parser := λ A a r, Ok (a, r).
#[export] Instance parser_bind : MBind Parser := λ A B f m r,
  match m r with
  | Ok (a, r') => f a r'
  | Err e => Err e
  end.

Definition throw {A} (e : string) : Parser A := λ _, Err e.

(** Offsets and lengths of buffers stay far below [2 ^ 63], so the [size_t]
    addition [off + k] is the integer one. *)
Definition need (k : Z) : Parser unit := λ r,
  if roff r + k >? rn r then Err "short read" else Ok (tt, r).

(** [p[off + i]] *)
Definition rd (r : Reader) (i : Z) : Z := nth (Z.to_nat (roff r + i)) (rp r) 0.

(** [off += k] *)
Definition adv (r : Reader) (k : Z) : Reader := mkReader (rp r) (roff r + k).

Definition advance {A} (k : Z) (f : Reader → A) : Parser A := λ r, Ok (f r, adv r k).

Definition r_u8 : Parser Z := _ ← need 1; advance 1 (λ r, rd r 0).

Definition r_u16 : Parser Z :=
  _ ← need 2; advance 2 (λ r, u16 (Z.lor (rd r 0) (Z.shiftl (rd r 1) 8))).

(** [for (int i = n - 1; i >= 0; i--) v = (v << 8) | p[off + i]] on [8 * n] bits. *)
Definition r_le (n : nat) (r : Reader) : Z :=
  foldl (λ v i, wrap (8 * Z.of_nat n) (Z.lor (Z.shiftl v 8) (rd r (Z.of_nat i))))
        0 (reverse (seq 0 n)).

Definition r_u32 : Parser Z := _ ← need 4; advance 4 (r_le 4).
Definition r_u64 : Parser Z := _ ← need 8; advance 8 (r_le 8).

(** [bytes(p + off, p + off + k)] *)
Definition r_slice (k : Z) (r : Reader) : bytes :=
  take (Z.to_nat k) (drop (Z.to_nat (roff r)) (rp r)).

Definition r_arr (n : nat) : Parser bytes :=
  _ ← need (Z.of_nat n); advance (Z.of_nat n) (r_slice (Z.of_nat n)).

Definition r_blob (k : Z) : Parser bytes := _ ← need k; advance k (r_slice k).

Definition remaining (r : Reader) : Z := rn r - roff r.

(** ** Well-formed readers and what is left to read *)

Definition wfr (r : Reader) : Prop := wf_bytes (rp r) ∧ 0 ≤ roff r ≤ rn r.

Definition view (r : Reader) : bytes := drop (Z.to_nat (roff r)) (rp r).

Lemma wfr_reader_of b : wf_bytes b → wfr (reader_of b).
Proof. intros. split; [done|]. unfold rn; simpl; lia. Qed.

Lemma view_reader_of b : view (reader_of b) = b.
Proof. unfold view. simpl. by rewrite drop_0. Qed.

Lemma wf_view r : wfr r → wf_bytes (view r).
Proof. intros [? _]. by apply wf_bytes_drop. Qed.

Lemma remaining_view r : wfr r → remaining r = Z.of_nat (length (view r)).
Proof.
  intros [_ ?]. unfold remaining, view, rn in *. rewrite length_drop. lia.
Qed.

Lemma remaining_0 r : wfr r → remaining r = 0 ↔ view r = [].
Proof.
  intros Hr. rewrite remaining_view by done.
  split; [intros; apply nil_length_inv; lia | by intros ->].
Qed.

Lemma view_adv r k : wfr r → 0 ≤ k → view (adv r k) = drop (Z.to_nat k) (view r).
Proof.
  intros [_ ?] ?. unfold view, adv. simpl. rewrite drop_drop. f_equal. lia.
Qed.

Lemma wfr_adv r k : wfr r → 0 ≤ k ≤ Z.of_nat (length (view r)) → wfr (adv r k).
Proof.
  intros Hr Hk. rewrite <- remaining_view in Hk by done. destruct Hr as [Hb ?].
  split; [done|]. unfold remaining, rn in *. simpl. lia.
Qed.

Lemma adv_adv r j k : adv (adv r j) k = adv r (j + k).
Proof. unfold adv. simpl. by rewrite Z.add_assoc. Qed.

Lemma adv_0 r : adv r 0 = r.
Proof. destruct r. unfold adv. simpl. f_equal. lia. Qed.

#[export] Hint Resolve wfr_reader_of wf_view : chainlite.

(** [need k] tests whether [k] bytes are left. *)
Lemma need_spec k r : wfr r → 0 ≤ k →
  need k r = if bool_decide (k ≤ Z.of_nat (length (view r))) then Ok (tt, r)
             else Err "short read".
Proof.
  intros Hr ?. unfold need. rewrite <- remaining_view by done.
  unfold remaining. rewrite Z.gtb_ltb.
  case_bool_decide as Hk; case (Z.ltb_spec (rn r) (roff r + k)); intros; try done; lia.
Qed.

Lemma rd_view r i : wfr r → 0 ≤ i → rd r i = nth (Z.to_nat i) (view r) 0.
Proof.
  intros [_ ?] ?. unfold rd, view. rewrite nth_skipn. f_equal. lia.
Qed.

Lemma r_slice_view k r : r_slice k r = take (Z.to_nat k) (view r).
Proof. done. Qed.

(** ** Little-endian values *)

Fixpoint le (n : nat) (v : Z) : bytes :=
  match n with
  | O => []
  | S n => v mod 256 :: le n (v / 256)
  end.

Fixpoint le_val (l : bytes) : Z :=
  match l with
  | [] => 0
  | b :: l => b + 256 * le_val l
  end.

Lemma length_le n v : length (le n v) = n.
Proof. revert v. induction n; simpl; auto. Qed.

Lemma wf_le n v : wf_bytes (le n v).
Proof.
  revert v. induction n as [|n IH]; intros v; simpl; constructor; [|apply IH].
  by apply Z.mod_pos_bound.
Qed.

Lemma le_val_bound l : wf_bytes l → in_width (8 * Z.of_nat (length l)) (le_val l).
Proof.
  unfold in_width. induction 1 as [|b l Hb Hl IH]; simpl; [done|].
  replace (8 * Z.of_nat (S (length l))) with (8 + 8 * Z.of_nat (length l)) by lia.
  rewrite Z.pow_add_r by lia. change (2 ^ 8) with 256. unfold in_width in Hb. lia.
Qed.

Lemma le_val_le n v : in_width (8 * Z.of_nat n) v → le_val (le n v) = v.
Proof.
  revert v. induction n as [|n IH]; intros v; unfold in_width; cbn [le le_val].
  - change (8 * Z.of_nat 0) with 0. lia.
  - replace (8 * Z.of_nat (S n)) with (8 + 8 * Z.of_nat n) by lia.
    rewrite Z.pow_add_r by lia. change (2 ^ 8) with 256. intros Hv.
    rewrite IH; [rewrite (Z.div_mod v 256) at 3 by done; lia|].
    split; [apply Z.div_pos; lia | apply Z.div_lt_upper_bound; lia].
Qed.

Lemma le_le_val l : wf_bytes l → le (length l) (le_val l) = l.
Proof.
  unfold wf_bytes, in_width. induction 1 as [|b l Hb Hl IH]; simpl; [done|].
  rewrite (Z.mul_comm 256), Z.mod_add, Z.mod_small, Z.div_add, Z.div_small by lia.
  by rewrite Z.add_0_l, IH.
Qed.

Lemma le_take_drop n l : wf_bytes l → (n ≤ length l)%nat →
  le n (le_val (take n l)) = take n l.
Proof.
  intros. rewrite <- (le_le_val (take n l)) at 2 by auto with chainlite.
  f_equal. rewrite length_take. lia.
Qed.

(** The writer's loop appends [le]. *)
Lemma w_le_app n w v : w_le n w v = w ++ le n v.
Proof.
  unfold w_le.
  assert (∀ j w, foldl (λ b i, b ++ [Z.land (Z.shiftr v (8 * Z.of_nat i)) 255]) w (seq j n)
                 = w ++ le n (v / 2 ^ (8 * Z.of_nat j))) as ->.
  { induction n as [|n IH]; intros j w'; simpl; [by rewrite app_nil_r|].
    rewrite IH, <- app_assoc. simpl. f_equal. f_equal.
    - change 255 with (Z.ones 8).
      rewrite Z.land_ones, Z.shiftr_div_pow2 by lia. done.
    - f_equal. rewrite Z.div_div by lia. f_equal.
      replace (8 * Z.of_nat (S j)) with (8 * Z.of_nat j + 8) by lia.
      rewrite Z.pow_add_r by lia. done. }
  by rewrite Z.div_1_r.
Qed.

Lemma w_u8_app w v : w_u8 w v = w ++ le 1 v.
Proof. done. Qed.

Lemma w_u16_app w v : w_u16 w v = w ++ le 2 v.
Proof.
  unfold w_u16. simpl. rewrite <- app_assoc. simpl. change 255 with (Z.ones 8).
  rewrite !Z.land_ones, Z.shiftr_div_pow2 by done. done.
Qed.

Lemma w_u32_app w v : w_u32 w v = w ++ le 4 v.
Proof. apply w_le_app. Qed.

Lemma w_u64_app w v : w_u64 w v = w ++ le 8 v.
Proof. apply w_le_app. Qed.

(** Joining a shifted value and one of the low bits. *)
Lemma lor_shiftl_low v b k : 0 ≤ k → 0 ≤ v → in_width k b →
  Z.lor (Z.shiftl v k) b = b + 2 ^ k * v.
Proof.
  intros Hk ? Hb. unfold in_width in Hb. rewrite Z.shiftl_mul_pow2 by done.
  destruct (decide (b = 0)) as [->|Hb0]; [rewrite Z.lor_0_r; lia|].
  assert (Z.land (v * 2 ^ k) b = 0) as H0.
  { apply Z.bits_inj'. intros i Hi. rewrite Z.land_spec, Z.bits_0.
    destruct (Z.lt_ge_cases i k).
    - by rewrite Z.mul_pow2_bits_low by done.
    - rewrite (Z.bits_above_log2 b i); [apply andb_false_r|lia|].
      apply Z.lt_le_trans with k; [|done]. apply Z.log2_lt_pow2; lia. }
  pose proof (Z.add_lor_land (v * 2 ^ k) b). lia.
Qed.

Lemma lor_shiftl_byte v b : 0 ≤ v → in_width 8 b → Z.lor (Z.shiftl v 8) b = b + 256 * v.
Proof. intros. by rewrite lor_shiftl_low. Qed.

(** The reader's loop computes [le_val]. *)
Lemma r_le_view n r : wfr r → (n ≤ length (view r))%nat →
  r_le n r = le_val (take n (view r)).
Proof.
  intros Hr Hn. unfold r_le. rewrite foldl_reverse.
  pose proof (wf_view r Hr) as Hv.
  assert (∀ m j, (j + m ≤ n)%nat →
    foldr (λ i v, wrap (8 * Z.of_nat n) (Z.lor (Z.shiftl v 8) (rd r (Z.of_nat i))))
      0 (seq j m) = le_val (take m (drop j (view r)))) as IH.
  { induction m as [|m IH]; intros j Hj; simpl; [done|]. rewrite IH by lia.
    destruct (view r !! j) as [b|] eqn:Ej; [|apply lookup_ge_None in Ej; lia].
    rewrite (drop_S _ b j) by done. simpl.
    rewrite rd_view, Nat2Z.id by (done || lia).
    rewrite (nth_lookup_Some _ _ _ _ Ej).
    assert (wf_bytes (take m (drop (S j) (view r)))) as Hw by auto with chainlite.
    pose proof (le_val_bound _ Hw) as Hb. rewrite length_take, length_drop in Hb.
    replace (m `min` (length (view r) - S j))%nat with m in Hb by lia.
    assert (in_width 8 b) as Hbb by (eapply Forall_lookup_1 in Ej; eauto; done).
    rewrite lor_shiftl_byte by (done || apply Hb).
    apply wrap_small. unfold in_width in *.
    assert (2 ^ (8 * Z.of_nat (S m)) ≤ 2 ^ (8 * Z.of_nat n)) by (apply Z.pow_le_mono_r; lia).
    replace (8 * Z.of_nat (S m)) with (8 + 8 * Z.of_nat m) in * by lia.
    rewrite Z.pow_add_r in * by lia. change (2 ^ 8) with 256 in *. lia. }
  specialize (IH n 0%nat). rewrite drop_0 in IH. by rewrite <- IH by lia.
Qed.

(** ** The codec interface

    [enc] writes a value, [dec] reads it back, [wf] says which values the C++
    type holds. [codec_dec]: what was written is read, whatever follows it.
    [codec_enc]: what is read is a value of the type and its encoding is exactly
    the bytes consumed (so no two encodings of a value are accepted). *)
Class Codec {A} (enc : A → bytes) (dec : Parser A) (wf : A → Prop) : Prop := {
  codec_dec r a rest :
    wfr r → wf a → view r = enc a ++ rest →
    dec r = Ok (a, adv r (Z.of_nat (length (enc a))));
  codec_enc r a r' :
    wfr r → dec r = Ok (a, r') →
    wf a ∧ view r = enc a ++ view r' ∧ r' = adv r (Z.of_nat (length (enc a)));
}.

(** After a decoding step. *)
Lemma view_adv_app r (l rest : bytes) :
  wfr r → view r = l ++ rest → view (adv r (Z.of_nat (length l))) = rest.
Proof.
  intros ? E. rewrite view_adv by (done || lia).
  rewrite E, Nat2Z.id. apply drop_app_length.
Qed.

Lemma wfr_adv_app r (l rest : bytes) :
  wfr r → view r = l ++ rest → wfr (adv r (Z.of_nat (length l))).
Proof.
  intros ? E. apply wfr_adv; [done|]. rewrite E, length_app. lia.
Qed.

Lemma parser_bind_ok {A B} (m : Parser A) (f : A → Parser B) r b r2 :
  (x ← m; f x) r = Ok (b, r2) → ∃ a r1, m r = Ok (a, r1) ∧ f a r1 = Ok (b, r2).
Proof.
  unfold mbind, parser_bind. destruct (m r) as [[a r1]|e]; [|done]. eauto.
Qed.

Lemma parser_bind_run {A B} (m : Parser A) (f : A → Parser B) r a r1 :
  m r = Ok (a, r1) → (x ← m; f x) r = f a r1.
Proof. unfold mbind, parser_bind. by intros ->. Qed.

(** One forward step through a field read by a codec. *)
Lemma codec_run `{Codec A enc dec wf} {B} (f : A → Parser B) r a rest :
  wfr r → wf a → view r = enc a ++ rest →
  let r' := adv r (Z.of_nat (length (enc a))) in
  (x ← dec; f x) r = f a r' ∧ wfr r' ∧ view r' = rest.
Proof.
  intros Hr Ha E r'. split_and!.
  - by apply parser_bind_run, codec_dec with rest.
  - by eapply wfr_adv_app.
  - by apply view_adv_app.
Qed.

Lemma codec_next `{Codec A enc dec wf} r a rest : wfr r → wf a → view r = enc a ++ rest →
  ∃ r', dec r = Ok (a, r') ∧ wfr r' ∧ view r' = rest.
Proof.
  intros Hr Ha E. eexists. split; [by eapply codec_dec|].
  split; [by eapply wfr_adv_app|by apply view_adv_app].
Qed.

(** One backward step. *)
Lemma codec_inv `{Codec A enc dec wf} {B} (f : A → Parser B) r b r2 :
  wfr r → (x ← dec; f x) r = Ok (b, r2) →
  ∃ a, let r1 := adv r (Z.of_nat (length (enc a))) in
    wf a ∧ wfr r1 ∧ view r = enc a ++ view r1 ∧ f a r1 = Ok (b, r2).
Proof.
  intros Hr (a & r1 & Hd & Hf)%parser_bind_ok.
  apply codec_enc in Hd as (Ha & Hv & ->); [|done].
  exists a. simpl. split_and!; try done. by eapply wfr_adv_app.
Qed.

(** A decoder that fails on short input never succeeds with less than it needs. *)
Lemma need_ok k r u r' : need k r = Ok (u, r') → r' = r ∧ roff r + k ≤ rn r.
Proof.
  unfold need. rewrite Z.gtb_ltb. case_match; [done|]. bool_props. intros [= _ <-]. done.
Qed.

Lemma need_run {B} (f : unit → Parser B) k r : wfr r → 0 ≤ k ≤ Z.of_nat (length (view r)) →
  (x ← need k; f x) r = f tt r.
Proof.
  intros. apply parser_bind_run. rewrite need_spec by (done || lia).
  by rewrite bool_decide_eq_true_2 by lia.
Qed.

Lemma need_inv {B} (f : unit → Parser B) k r b r2 : wfr r → 0 ≤ k →
  (x ← need k; f x) r = Ok (b, r2) → k ≤ Z.of_nat (length (view r)) ∧ f tt r = Ok (b, r2).
Proof.
  intros Hr Hk ([] & r1 & Hn & Hf)%parser_bind_ok.
  rewrite need_spec in Hn by done. case_bool_decide; simplify_eq. done.
Qed.

Lemma advance_run {A B} k (f : Reader → A) (g : A → Parser B) r :
  (x ← advance k f; g x) r = g (f r) (adv r k).
Proof. reflexivity. Qed.

(** The fixed-width integers are one instance scheme. *)
Lemma le_codec (n : nat) (f : Reader → Z) :
  (∀ r, wfr r → (n ≤ length (view r))%nat → f r = le_val (take n (view r))) →
  Codec (le n) (_ ← need (Z.of_nat n); advance (Z.of_nat n) f)
        (in_width (8 * Z.of_nat n)).
Proof.
  intros Hf. split.
  - intros r a rest Hr Ha E.
    assert (n ≤ length (view r))%nat by (rewrite E, length_app, length_le; lia).
    rewrite need_run by (done || lia). unfold advance.
    rewrite Hf, E, take_app_exact, le_val_le, length_le by (done || by rewrite length_le).
    done.
  - intros r a r' Hr [Hn Ha]%need_inv; [|done|lia]. unfold advance in Ha. simplify_eq.
    rewrite Hf by (done || lia). pose proof (wf_view r Hr).
    split_and!.
    + pose proof (le_val_bound (take n (view r))) as Hb.
      rewrite length_take, Nat.min_l in Hb by lia. auto with chainlite.
    + rewrite le_take_drop, view_adv, Nat2Z.id by (done || lia). by rewrite take_drop.
    + by rewrite length_le.
Qed.

#[export] Instance u8_codec : Codec (le 1) r_u8 (in_width 8).
Proof.
  apply le_codec. intros r Hr Hl. rewrite rd_view by done.
  destruct (view r) as [|b l]; simpl in *; [lia|]. lia.
Qed.

#[export] Instance u16_codec : Codec (le 2) r_u16 (in_width 16).
Proof.
  apply le_codec. intros r Hr Hl. pose proof (wf_view r Hr) as Hv.
  rewrite !rd_view by done. change (Z.to_nat 0) with 0%nat. change (Z.to_nat 1) with 1%nat.
  destruct (view r) as [|b0 [|b1 l]]; simpl in *; [lia|lia|].
  inversion Hv as [|?? Hb0 Hv']; subst. inversion Hv' as [|?? Hb1 ?]; subst.
  unfold in_width in *. change (2 ^ 8) with 256 in *.
  rewrite Z.lor_comm, lor_shiftl_byte by (done || lia).
  rewrite wrap_small; [lia|]. unfold in_width. change (2 ^ 16) with 65536. lia.
Qed.

#[export] Instance u32_codec : Codec (le 4) r_u32 (in_width 32).
Proof. apply (le_codec 4). intros. by apply r_le_view. Qed.

#[export] Instance u64_codec : Codec (le 8) r_u64 (in_width 64).
Proof. apply (le_codec 8). intros. by apply r_le_view. Qed.

Lemma slice_codec (k : Z) : 0 ≤ k →
  Codec (λ b : bytes, b) (r_blob k) (λ b, wf_bytes b ∧ Z.of_nat (length b) = k).
Proof.
  intros Hk. split.
  - intros r a rest Hr [Ha Hl] E. unfold r_blob.
    rewrite need_run by (rewrite ?E, ?length_app; (done || lia)).
    unfold advance. rewrite r_slice_view, E, take_app_exact by lia. by rewrite Hl.
  - intros r a r' Hr [Hn Ha]%need_inv; [|done|lia]. unfold advance in Ha. simplify_eq.
    rewrite r_slice_view. pose proof (wf_view r Hr).
    assert (Z.of_nat (length (take (Z.to_nat k) (view r))) = k) as Hl
      by (rewrite length_take; lia).
    split_and!; [by apply wf_bytes_take|done| |by rewrite Hl].
    rewrite view_adv by done. by rewrite take_drop.
Qed.

#[export] Instance blob_codec (k : nat) :
  Codec (λ b : bytes, b) (r_blob (Z.of_nat k)) (wf_array k).
Proof.
  destruct (slice_codec (Z.of_nat k)) as [Hd He]; [lia|]. split.
  - intros r a rest Hr [Hl Ha] E. eapply Hd; eauto with lia.
  - intros r a r' Hr Ha. destruct (He r a r') as ([? ?] & ? & ?); [done|done|].
    split_and!; [split; [lia|done]|done|done].
Qed.

#[export] Instance arr_codec (n : nat) : Codec (λ b : bytes, b) (r_arr n) (wf_array n).
Proof. apply (blob_codec n). Qed.

(** The tactics that walk a record's fields. *)
Ltac codec_forward :=
  match goal with
  | Hr : wfr ?r, E : view ?r = _ |- context [@mbind Parser _ _ _ ?f ?dec ?r] =>
      edestruct (@codec_run _ _ dec _ _ _ f r) as (-> & ? & ?);
        [exact Hr | | rewrite E; reflexivity |]
  end.

Ltac codec_backward H :=
  match type of H with
  | @mbind Parser _ _ _ _ _ ?r = Ok _ =>
      let a := fresh "a" in
      let Ha := fresh "Hwf" in
      let Hr := fresh "Hr" in
      let E := fresh "Ev" in
      apply codec_inv in H as (a & Ha & Hr & E & H); [|assumption]
  end.

#[global] Arguments le : simpl never.
#[global] Arguments w_le : simpl never.
#[global] Arguments wrap : simpl never.
