(* ===== verification/Fips.v ===== *)
(** * Fips: SHA-256 as FIPS 180-4 defines it

    The standard by itself, for comparison with [src/sha256.h]: words are numbers below
    [2 ^ 32], the operations of section 4.1.2 are arithmetic, and the constants are computed
    from the primes as sections 4.2.2 and 5.3.3 say. Nothing here is taken from the code. *)

From S2P Require Import Prelude.

Local Open Scope Z_scope.

(** ** Words (sections 2.2.2 and 3.2) *)

Definition WORD : Z := 2 ^ 32.

(** Addition is modulo [2 ^ 32]. *)
Definition add_words (l : list Z) : Z := foldr Z.add 0 l mod WORD.

Definition NOT (x : Z) : Z := WORD - 1 - x.
Definition SHR (n x : Z) : Z := x / 2 ^ n.

(** The last [n] bits come first. *)
Definition ROTR (n x : Z) : Z := (x mod 2 ^ n) * 2 ^ (32 - n) + x / 2 ^ n.

(** ** Functions (section 4.1.2) *)

Definition Ch (x y z : Z) : Z := Z.lxor (Z.land x y) (Z.land (NOT x) z).
Definition Maj (x y z : Z) : Z := Z.lxor (Z.lxor (Z.land x y) (Z.land x z)) (Z.land y z).
Definition Sigma0 (x : Z) : Z := Z.lxor (Z.lxor (ROTR 2 x) (ROTR 13 x)) (ROTR 22 x).
Definition Sigma1 (x : Z) : Z := Z.lxor (Z.lxor (ROTR 6 x) (ROTR 11 x)) (ROTR 25 x).
Definition sigma0 (x : Z) : Z := Z.lxor (Z.lxor (ROTR 7 x) (ROTR 18 x)) (SHR 3 x).
Definition sigma1 (x : Z) : Z := Z.lxor (Z.lxor (ROTR 17 x) (ROTR 19 x)) (SHR 10 x).

(** ** Constants (sections 4.2.2 and 5.3.3) *)

(** No divisor up to the root; of the numbers below [18 * 18]. *)
Definition is_prime (n : Z) : bool :=
  forallb (λ d, (n <? d * d) || negb (n mod d =? 0)) (seqZ 2 16).

Definition primes (n : nat) : list Z := take n (List.filter is_prime (seqZ 2 310)).

(** The greatest [r + x] with [(r + x) ^ e <= n] and [x < 2 ^ k]. *)
Fixpoint root_bits (k : nat) (e n r : Z) : Z :=
  match k with
  | O => r
  | S k => let r' := r + 2 ^ Z.of_nat k in root_bits k e n (if r' ^ e <=? n then r' else r)
  end.

(** The first 32 bits of the fractional part of the [e]-th root of [p]. *)
Definition root_fraction (e p : Z) : Z := root_bits 40 e (p * 2 ^ (32 * e)) 0 mod WORD.

Definition fips_K : list Z := map (root_fraction 3) (primes 64).
Definition fips_H0 : list Z := map (root_fraction 2) (primes 8).

(** ** Preprocessing (sections 5.1.1 and 5.2.1) *)

(** [x] in [n] bytes, the most significant one first. *)
Fixpoint big_endian (n : nat) (x : Z) : bytes :=
  match n with
  | O => []
  | S n => (x / 256 ^ Z.of_nat n) mod 256 :: big_endian n x
  end.

(** The bit 1, zero bits up to 448 modulo 512, and the number of bits of the message. *)
Definition fips_pad (m : bytes) : bytes :=
  let l := 8 * Z.of_nat (length m) in
  let k := (448 - (l + 1)) mod 512 in
  m ++ [0x80] ++ replicate (Z.to_nat ((k - 7) / 8)) 0 ++ big_endian 8 (l mod 2 ^ 64).

(** Word [t] of a block. *)
Definition block_word (blk : bytes) (t : nat) : Z :=
  foldl (λ x b, x * 256 + b) 0 (take 4 (drop (4 * t) blk)).

(** ** Computation (section 6.2.2) *)

(** The words [W_0] to [W_(n-1)] of the message schedule, the last one first. *)
Fixpoint schedule_words (blk : bytes) (n : nat) : list Z :=
  match n with
  | O => []
  | S t =>
      let W := schedule_words blk t in
      let W_ i := nth (i - 1) W 0 in
      (if (t <? 16)%nat then block_word blk t
       else add_words [sigma1 (W_ 2%nat); W_ 7%nat; sigma0 (W_ 15%nat); W_ 16%nat]) :: W
  end.

(** A round, with the word and the constant of the round. *)
Definition fips_round (v : list Z) (WK : Z * Z) : list Z :=
  match v with
  | [a; b; c; d; e; f; g; h] =>
      let T1 := add_words [h; Sigma1 e; Ch e f g; WK.2; WK.1] in
      let T2 := add_words [Sigma0 a; Maj a b c] in
      [add_words [T1; T2]; a; b; c; add_words [d; T1]; e; f; g]
  | _ => v
  end.

(** The next hash value. *)
Definition fips_block (H : list Z) (blk : bytes) : list Z :=
  let v := foldl fips_round H (zip (reverse (schedule_words blk 64)) fips_K) in
  zip_with (λ x y, add_words [x; y]) v H.

Definition fips_sha256 (m : bytes) : bytes :=
  let p := fips_pad m in
  let H := foldl (λ H i, fips_block H (take 64 (drop (64 * i) p))) fips_H0 (seq 0 (length p / 64)) in
  mjoin (map (big_endian 4) H).

(** ** Lemmas *)

Lemma length_schedule_words blk n : length (schedule_words blk n) = n.
Proof. induction n as [|n IH]; cbn; [done|by rewrite IH]. Qed.

Lemma length_big_endian n x : length (big_endian n x) = n.
Proof. induction n as [|n IH]; cbn; [done|by rewrite IH]. Qed.

Lemma add_words_width l : in_width 32 (add_words l).
Proof. by apply wrap_in_width. Qed.

(** The first bits of an exact root: the search ends at the greatest number. *)
Lemma root_bits_spec k e n r : 0 < e → 0 ≤ r → r ^ e ≤ n < (r + 2 ^ Z.of_nat k) ^ e →
  (root_bits k e n r) ^ e ≤ n < (root_bits k e n r + 1) ^ e.
Proof.
  intros He. revert r. induction k as [|k IH]; intros r Hr Hn; [exact Hn|]. cbn [root_bits].
  set (r' := r + 2 ^ Z.of_nat k). assert (0 < 2 ^ Z.of_nat k) by (apply Z.pow_pos_nonneg; lia).
  assert (r' + 2 ^ Z.of_nat k = r + 2 ^ Z.of_nat (S k)) as E.
  { unfold r'. rewrite Nat2Z.inj_succ, Z.pow_succ_r by lia. lia. }
  destruct (Z.leb_spec (r' ^ e) n); apply IH; unfold r' in *; rewrite ?E; lia.
Qed.
