(* ===== verification/Sha256.v ===== *)
(** * Sha256: SHA-256 and the proof-of-work helpers of [src/sha256.h]

    The compression function, the streaming context [Ctx] with [update] and
    [final], [sha256], [sha256d], [leading_zero_bits], [pow_ok] and [work_of].
    The theorems compare the code with the function of FIPS 180-4 as [Fips] has it, and
    the bit count with the big-endian value of the hash. *)

From S2P Require Import Prelude Serial Fips.

Local Open Scope Z_scope.

(** ** Constants *)

Definition K : list Z := [
  0x428A2F98;0x71374491;0xB5C0FBCF;0xE9B5DBA5;0x3956C25B;0x59F111F1;0x923F82A4;0xAB1C5ED5;
  0xD807AA98;0x12835B01;0x243185BE;0x550C7DC3;0x72BE5D74;0x80DEB1FE;0x9BDC06A7;0xC19BF174;
  0xE49B69C1;0xEFBE4786;0x0FC19DC6;0x240CA1CC;0x2DE92C6F;0x4A7484AA;0x5CB0A9DC;0x76F988DA;
  0x983E5152;0xA831C66D;0xB00327C8;0xBF597FC7;0xC6E00BF3;0xD5A79147;0x06CA6351;0x14292967;
  0x27B70A85;0x2E1B2138;0x4D2C6DFC;0x53380D13;0x650A7354;0x766A0ABB;0x81C2C92E;0x92722C85;
  0xA2BFE8A1;0xA81A664B;0xC24B8B70;0xC76C51A3;0xD192E819;0xD6990624;0xF40E3585;0x106AA070;
  0x19A4C116;0x1E376C08;0x2748774C;0x34B0BCB5;0x391C0CB3;0x4ED8AA4A;0x5B9CCA4F;0x682E6FF3;
  0x748F82EE;0x78A5636F;0x84C87814;0x8CC70208;0x90BEFFFA;0xA4506CEB;0xBEF9A3F7;0xC67178F2].

(** The eight words of the hash state, [st[0]] to [st[7]] (and the working
    variables [a] to [h]). *)
Record regs := mkRegs { ra : Z; rb : Z; rc : Z; rD : Z; re : Z; rf : Z; rg : Z; rh : Z }.

Definition IV : regs :=
  mkRegs 0x6A09E667 0xBB67AE85 0x3C6EF372 0xA54FF53A 0x510E527F 0x9B05688C 0x1F83D9AB 0x5BE0CD19.

(** ** Compression *)

Definition rotr (x n : Z) : Z := u32 (Z.lor (Z.shiftr x n) (Z.shiftl x (32 - n))).

(** [l[i]] on an array the code indexes within its bounds. *)
Definition at_ (l : list Z) (i : nat) : Z := nth i l 0.

(** The big-endian load of [w[i]]. *)
Definition load_be (blk : bytes) (i : nat) : Z :=
  Z.lor (Z.lor (Z.lor (u32 (Z.shiftl (at_ blk (i * 4)) 24))
                      (u32 (Z.shiftl (at_ blk (i * 4 + 1)) 16)))
               (u32 (Z.shiftl (at_ blk (i * 4 + 2)) 8)))
        (at_ blk (i * 4 + 3)).

(** One step of the second loop: [w[i]] from the earlier words. *)
Definition schedule_step (w : list Z) (i : nat) : list Z :=
  let s0 := Z.lxor (Z.lxor (rotr (at_ w (i - 15)) 7) (rotr (at_ w (i - 15)) 18))
                   (Z.shiftr (at_ w (i - 15)) 3) in
  let s1 := Z.lxor (Z.lxor (rotr (at_ w (i - 2)) 17) (rotr (at_ w (i - 2)) 19))
                   (Z.shiftr (at_ w (i - 2)) 10) in
  w ++ [u32 (at_ w (i - 16) + s0 + at_ w (i - 7) + s1)].

Definition schedule (blk : bytes) : list Z :=
  foldl schedule_step (map (load_be blk) (seq 0 16)) (seq 16 48).

(** One round of the third loop. *)
Definition round (w : list Z) (v : regs) (i : nat) : regs :=
  let '(mkRegs a b c d e f g h) := v in
  let S1 := Z.lxor (Z.lxor (rotr e 6) (rotr e 11)) (rotr e 25) in
  let ch := Z.lxor (Z.land e f) (Z.land (Z.lnot e) g) in
  let t1 := u32 (h + S1 + ch + at_ K i + at_ w i) in
  let S0 := Z.lxor (Z.lxor (rotr a 2) (rotr a 13)) (rotr a 22) in
  let mj := Z.lxor (Z.lxor (Z.land a b) (Z.land a c)) (Z.land b c) in
  let t2 := u32 (S0 + mj) in
  mkRegs (u32 (t1 + t2)) a b c (u32 (d + t1)) e f g.

Definition compress (st : regs) (blk : bytes) : regs :=
  let w := schedule blk in
  let v := foldl (round w) st (seq 0 64) in
  mkRegs (u32 (ra st + ra v)) (u32 (rb st + rb v)) (u32 (rc st + rc v)) (u32 (rD st + rD v))
         (u32 (re st + re v)) (u32 (rf st + rf v)) (u32 (rg st + rg v)) (u32 (rh st + rh v)).

(** ** The streaming context *)

(** [buf] holds the [buflen] bytes of the C++ buffer that are in use; the rest of
    that array is never read. *)
Record Ctx := mkCtx { st : regs; buf : bytes; total : Z }.

Definition Ctx_init : Ctx := mkCtx IV [] 0.

Definition buflen (c : Ctx) : nat := length (buf c).

(** The loop [while (n)] of [update]: the fuel bounds the number of iterations,
    each of which consumes a byte or more ([update_loop_absorb]). *)
Fixpoint update_loop (fuel : nat) (c : Ctx) (p : bytes) : Ctx :=
  match fuel with
  | O => c
  | S fuel =>
      if bool_decide (length p = 0%nat) then c
      else
        let k := Nat.min (length p) (64 - buflen c) in
        let buf' := buf c ++ take k p in
        let c' := if bool_decide (length buf' = 64%nat)
                  then mkCtx (compress (st c) buf') [] (total c)
                  else mkCtx (st c) buf' (total c) in
        update_loop fuel c' (drop k p)
  end.

Definition update (c : Ctx) (p : bytes) : Ctx :=
  update_loop (length p) (mkCtx (st c) (buf c) (u64 (total c + Z.of_nat (length p)))) p.

(** [while (buflen != 56) update(&z, 1)]: at most 63 iterations
    ([zero_loop_absorb]). *)
Fixpoint zero_loop (fuel : nat) (c : Ctx) : Ctx :=
  match fuel with
  | O => c
  | S fuel => if bool_decide (buflen c = 56%nat) then c else zero_loop fuel (update c [0])
  end.

(** The four big-endian bytes of a word. *)
Definition be32 (x : Z) : bytes :=
  [u8 (Z.shiftr x 24); u8 (Z.shiftr x 16); u8 (Z.shiftr x 8); u8 x].

Definition output (v : regs) : bytes :=
  let '(mkRegs a b c d e f g h) := v in
  be32 a ++ be32 b ++ be32 c ++ be32 d ++ be32 e ++ be32 f ++ be32 g ++ be32 h.

(** The length field: [len[i] = (uint8_t)(bits >> (56 - 8 * i))]. *)
Definition len_be (bits : Z) : bytes :=
  map (λ i, u8 (Z.shiftr bits (56 - 8 * Z.of_nat i))) (seq 0 8).

Definition final (c : Ctx) : bytes :=
  let bits := u64 (total c * 8) in
  let c := update c [0x80] in
  let c := zero_loop 64 c in
  let c := update c (len_be bits) in
  output (st c).

Definition sha256 (p : bytes) : bytes := final (update Ctx_init p).

Definition sha256d (p : bytes) : bytes := sha256 (sha256 p).

(** ** Proof of work *)

(** [while (!(b & 0x80)) { n++; b <<= 1; }] on a non-zero byte: the bit is found
    in at most seven shifts ([shift_loop_spec]). *)
Fixpoint shift_loop (fuel : nat) (n b : Z) : Z :=
  match fuel with
  | O => n
  | S fuel => if Z.land b 0x80 =? 0 then shift_loop fuel (n + 1) (u8 (Z.shiftl b 1)) else n
  end.

(** The loop over the bytes; [n] counts the bits so far, and a hash of zeros only
    gives [256]. *)
Fixpoint lzb_loop (n : Z) (h : bytes) : Z :=
  match h with
  | [] => 256
  | b :: h => if b =? 0 then lzb_loop (n + 8) h else shift_loop 8 n b
  end.

Definition leading_zero_bits (h : bytes) : Z := lzb_loop 0 h.

Definition pow_ok (h : bytes) (bits : Z) : bool := bits <=? u32 (leading_zero_bits h).

Definition work_of (bits : Z) : Z := if 63 <=? bits then 2 ^ 64 - 1 else u64 (Z.shiftl 1 bits).

(** ** The streaming code absorbs bytes one by one

    [absorb1] is the abstract machine: append a byte, compress a full block. *)
Definition absorb1 (s : regs * bytes) (b : Z) : regs * bytes :=
  let buf' := s.2 ++ [b] in
  if bool_decide (length buf' = 64%nat) then (compress s.1 buf', []) else (s.1, buf').

Definition absorb (s : regs * bytes) (p : bytes) : regs * bytes := foldl absorb1 s p.

Definition ctx_state (c : Ctx) : regs * bytes := (st c, buf c).

Lemma absorb_app s p q : absorb s (p ++ q) = absorb (absorb s p) q.
Proof. apply foldl_app. Qed.

(** Absorbing what still fits in the buffer. *)
Lemma absorb_fit v b l : (length b < 64)%nat → (length b + length l ≤ 64)%nat →
  absorb (v, b) l =
    if bool_decide (length (b ++ l) = 64%nat) then (compress v (b ++ l), []) else (v, b ++ l).
Proof.
  revert b. induction l as [|x l IH]; intros b Hb Hl.
  - rewrite app_nil_r, bool_decide_eq_false_2 by lia. done.
  - simpl in Hl. cbn [absorb foldl]. unfold absorb1 at 2. cbn [fst snd].
    destruct (decide (length (b ++ [x]) = 64%nat)) as [E|E].
    + rewrite bool_decide_eq_true_2 by done. rewrite length_app in E. simpl in E.
      destruct l as [|y l]; [|simpl in Hl; lia]. cbn [foldl].
      rewrite bool_decide_eq_true_2; [done|]. rewrite length_app. simpl. lia.
    + rewrite bool_decide_eq_false_2 by done. rewrite length_app in E. simpl in E.
      fold (absorb (v, b ++ [x]) l).
      rewrite IH by (rewrite ?length_app; simpl; lia). by rewrite <- app_assoc.
Qed.

Lemma absorb_buf_bound s p : (length s.2 < 64)%nat → (length (absorb s p).2 < 64)%nat.
Proof.
  revert s. induction p as [|x p IH]; intros s Hs; [done|]. apply IH.
  unfold absorb1. case_bool_decide as E; simpl; [lia|]. rewrite length_app in *. simpl in *. lia.
Qed.

Lemma absorb_buf_length s p : (length s.2 < 64)%nat →
  length (absorb s p).2 = ((length s.2 + length p) mod 64)%nat.
Proof.
  revert s. induction p as [|x p IH]; intros s Hs; cbn [absorb foldl length].
  - rewrite Nat.add_0_r, Nat.mod_small by done. done.
  - fold (absorb (absorb1 s x) p). unfold absorb1. case_bool_decide as E.
    + rewrite length_app in E. simpl in E. rewrite IH by (simpl; lia).
      cbn [snd length Nat.add].
      replace (length s.2 + S (length p))%nat with (length p + 1 * 64)%nat by lia.
      by rewrite Nat.Div0.mod_add.
    + rewrite length_app in E. simpl in E.
      rewrite IH by (simpl; rewrite length_app; simpl; lia).
      cbn [snd]. rewrite length_app. cbn [length]. f_equal. lia.
Qed.

Lemma update_loop_absorb fuel c p :
  (buflen c < 64)%nat → (length p ≤ fuel)%nat →
  ctx_state (update_loop fuel c p) = absorb (ctx_state c) p ∧
  total (update_loop fuel c p) = total c.
Proof.
  revert c p. induction fuel as [|fuel IH]; intros c p Hc Hp.
  - destruct p; [done|simpl in Hp; lia].
  - cbn [update_loop]. case_bool_decide as E; [by destruct p|].
    set (k := Nat.min (length p) (64 - buflen c)).
    assert (k ≤ length p ∧ 1 ≤ k ∧ buflen c + k ≤ 64)%nat as (Hk1 & Hk2 & Hk3)
      by (unfold k; lia).
    assert (absorb (ctx_state c) p = absorb (absorb (ctx_state c) (take k p)) (drop k p))
      as -> by by rewrite <- absorb_app, take_drop.
    assert (ctx_state c = (st c, buf c)) as -> by done. unfold buflen in *.
    rewrite absorb_fit by (rewrite ?length_take; lia).
    destruct (IH (if bool_decide (length (buf c ++ take k p) = 64%nat)
      then mkCtx (compress (st c) (buf c ++ take k p)) [] (total c)
      else mkCtx (st c) (buf c ++ take k p) (total c)) (drop k p)) as [-> ->].
    + case_bool_decide as E'; simpl; [lia|]. rewrite length_app, length_take in *. lia.
    + rewrite length_drop. lia.
    + by case_bool_decide.
Qed.

Lemma update_absorb c p : (buflen c < 64)%nat →
  ctx_state (update c p) = absorb (ctx_state c) p ∧
  total (update c p) = u64 (total c + Z.of_nat (length p)).
Proof.
  intros Hc. unfold update.
  destruct (update_loop_absorb (length p)
    (mkCtx (st c) (buf c) (u64 (total c + Z.of_nat (length p)))) p) as [-> ->]; done.
Qed.

Lemma update_buflen_mod c p : (buflen c < 64)%nat →
  buflen (update c p) = ((buflen c + length p) mod 64)%nat.
Proof.
  intros Hc. unfold buflen. change (buf (update c p)) with (ctx_state (update c p)).2.
  rewrite (proj1 (update_absorb c p Hc)). by apply absorb_buf_length.
Qed.

Lemma update_buflen c p : (buflen c < 64)%nat → (buflen (update c p) < 64)%nat.
Proof. intros Hc. rewrite update_buflen_mod by done. by apply Nat.mod_upper_bound. Qed.

(** Number of zero bytes between the [0x80] and the length. *)
Definition zeros_needed (c : Ctx) : nat := ((120 - buflen c) mod 64)%nat.

Lemma zero_loop_absorb fuel c : (buflen c < 64)%nat → (zeros_needed c < fuel)%nat →
  ctx_state (zero_loop fuel c) = absorb (ctx_state c) (replicate (zeros_needed c) 0) ∧
  (buflen (zero_loop fuel c) < 64)%nat.
Proof.
  revert c. induction fuel as [|fuel IH]; intros c Hc Hf; [lia|].
  cbn [zero_loop]. case_bool_decide as E.
  { assert (zeros_needed c = 0%nat) as -> by (unfold zeros_needed; by rewrite E). done. }
  destruct (update_absorb c [0] Hc) as [Hu _].
  assert (buflen (update c [0]) = ((buflen c + 1) mod 64)%nat) as Hl.
  { unfold buflen. change (buf (update c [0])) with (ctx_state (update c [0])).2.
    rewrite Hu. by apply absorb_buf_length. }
  assert (zeros_needed c = S (zeros_needed (update c [0]))) as Hz.
  { unfold zeros_needed. rewrite Hl.
    destruct (decide (buflen c = 63%nat)) as [->|]; [done|].
    rewrite (Nat.mod_small (buflen c + 1)) by lia.
    destruct (decide (buflen c < 56)%nat).
    - replace (120 - buflen c)%nat with ((56 - buflen c) + 1 * 64)%nat by lia.
      replace (120 - (buflen c + 1))%nat with ((55 - buflen c) + 1 * 64)%nat by lia.
      rewrite !Nat.Div0.mod_add, !Nat.mod_small by lia. lia.
    - rewrite !Nat.mod_small by lia. lia. }
  destruct (IH (update c [0])) as [-> ?]; [by apply update_buflen|lia|].
  split; [|done]. rewrite Hz, Hu. by rewrite <- absorb_app.
Qed.

(** ** The message as a whole: padding and the block loop *)

Definition pad (m : bytes) : bytes :=
  m ++ [0x80] ++ replicate ((119 - length m mod 64) mod 64) 0 ++ len_be (8 * Z.of_nat (length m)).

Definition block (p : bytes) (i : nat) : bytes := take 64 (drop (64 * i) p).

Definition one_shot (m : bytes) : bytes :=
  output (foldl (λ v i, compress v (block (pad m) i)) IV (seq 0 (length (pad m) / 64))).

Lemma absorb_blocks n v p : length p = (64 * n)%nat →
  absorb (v, []) p = (foldl (λ v i, compress v (block p i)) v (seq 0 n), []).
Proof.
  revert v p. induction n as [|n IH]; intros v p Hp.
  - by destruct p.
  - rewrite <- (take_drop 64 p) at 1. rewrite absorb_app.
    rewrite absorb_fit by (rewrite ?length_take; cbn [length]; lia).
    rewrite app_nil_l, bool_decide_eq_true_2 by (rewrite length_take; lia).
    rewrite IH by (rewrite length_drop; lia).
    cbn [seq foldl]. rewrite <- fmap_S_seq. rewrite foldl_fmap.
    f_equal. change (block p 0) with (take 64 (drop 0 p)). rewrite drop_0.
    apply foldl_ext. intros a i _. f_equal. unfold block.
    rewrite drop_drop. do 2 f_equal. lia.
Qed.

Lemma length_pad m : length (pad m) = (64 * (length (pad m) / 64))%nat.
Proof.
  apply Nat.Div0.div_exact. unfold pad. rewrite !length_app, length_replicate.
  unfold len_be. rewrite length_map, length_seq. change (length [128]) with 1%nat.
  pose proof (Nat.mod_upper_bound (length m) 64 ltac:(done)).
  pose proof (Nat.div_mod_eq (length m) 64) as Hm.
  set (r := (length m mod 64)%nat) in *. rewrite Hm.
  generalize (length m / 64)%nat. intros q. clear Hm. clearbody r.
  replace (64 * q + r + (1 + ((119 - r) mod 64 + 8)))%nat
    with ((r + 9 + (119 - r) mod 64) + q * 64)%nat by lia.
  rewrite Nat.Div0.mod_add.
  destruct (decide (r < 56)%nat).
  - replace (119 - r)%nat with ((55 - r) + 1 * 64)%nat by lia.
    rewrite Nat.Div0.mod_add, (Nat.mod_small (55 - r)) by lia.
    by replace (r + 9 + (55 - r))%nat with 64%nat by lia.
  - rewrite (Nat.mod_small (119 - r)) by lia.
    by replace (r + 9 + (119 - r))%nat with 128%nat by lia.
Qed.

Lemma u8_shiftr_wrap64 x s : 0 ≤ s ≤ 56 → u8 (Z.shiftr (u64 x) s) = u8 (Z.shiftr x s).
Proof.
  intros Hs. unfold wrap. rewrite <- !Z.land_ones by lia.
  apply Z.bits_inj'. intros i Hi. rewrite !Z.land_spec, !Z.shiftr_spec, Z.land_spec by lia.
  destruct (Z.lt_ge_cases i 8).
  - rewrite (Z.ones_spec_low 64) by lia. by rewrite andb_true_r.
  - rewrite (Z.ones_spec_high 8) by lia. by rewrite !andb_false_r.
Qed.

Lemma len_be_wrap64 x : len_be (u64 x) = len_be x.
Proof.
  apply map_ext_in. intros i Hi%in_seq. apply u8_shiftr_wrap64. lia.
Qed.

(** The bit length that the code stores is the one of the message. *)
Lemma len_be_total m :
  len_be (u64 (total (update Ctx_init m) * 8)) = len_be (8 * Z.of_nat (length m)).
Proof.
  destruct (update_absorb Ctx_init m) as [_ ->]; [unfold buflen; simpl; lia|].
  rewrite len_be_wrap64, Z.add_0_l.
  rewrite <- (len_be_wrap64 (u64 _ * 8)), <- (len_be_wrap64 (8 * _)). f_equal.
  unfold wrap. rewrite Z.mul_mod_idemp_l by done. f_equal. lia.
Qed.

(** So is the number of zero bytes. *)
Lemma zeros_after_pad c (n : nat) : buflen c = (n mod 64)%nat →
  zeros_needed (update c [0x80]) = ((119 - n mod 64) mod 64)%nat.
Proof.
  intros Hc. pose proof (Nat.mod_upper_bound n 64 ltac:(done)) as Hr.
  unfold zeros_needed. rewrite update_buflen_mod, Hc by lia. cbn [length].
  set (r := (n mod 64)%nat) in *. clearbody r.
  destruct (decide (r = 63%nat)) as [->|]; [done|].
  rewrite (Nat.mod_small (r + 1)) by lia. f_equal. lia.
Qed.

#[local] Opaque compress update zero_loop output len_be.

(** ** The streaming code pads and compresses the message

    On every message: the length field is the bit length modulo [2 ^ 64]. *)
Lemma sha256_streaming m : sha256 m = one_shot m.
Proof.
  unfold sha256, final, one_shot. rewrite len_be_total.
  assert (buflen Ctx_init < 64)%nat as Hi by (unfold buflen; simpl; lia).
  pose proof (update_buflen_mod Ctx_init m Hi) as Hb.
  pose proof (update_buflen Ctx_init m Hi) as Hb'.
  destruct (update_absorb Ctx_init m Hi) as [Hs _].
  set (c0 := update Ctx_init m) in *.
  destruct (update_absorb c0 [0x80] Hb') as [H1 _].
  assert (zeros_needed (update c0 [0x80%Z]) < 64)%nat
    by (unfold zeros_needed; by apply Nat.mod_upper_bound).
  destruct (zero_loop_absorb 64 (update c0 [0x80])) as [H2 H2'];
    [by apply update_buflen|done|].
  set (c2 := zero_loop 64 (update c0 [0x80])) in *.
  destruct (update_absorb c2 (len_be (8 * Z.of_nat (length m))) H2') as [H3 _].
  rewrite H2, (zeros_after_pad c0 (length m)), H1, Hs, <- !absorb_app in H3 by done.
  fold (pad m) in H3. change (ctx_state Ctx_init) with (IV, @nil Z) in H3.
  rewrite (absorb_blocks _ IV (pad m) (length_pad m)) in H3.
  apply (f_equal fst) in H3. cbn [fst ctx_state] in H3. by rewrite <- H3.
Qed.

#[local] Transparent output.

(** ** Hashes are 32-byte arrays *)

Lemma wf_be32 x : wf_bytes (be32 x).
Proof. repeat constructor; by apply wrap_in_width. Qed.

Lemma wf_sha256 m : wf_array 32 (sha256 m).
Proof.
  unfold sha256, final. generalize (st (update (zero_loop 64 (update (update Ctx_init m) [0x80]))
    (len_be (u64 (total (update Ctx_init m) * 8))))).
  intros [a b c d e f g h]. split; [done|]. cbn [output].
  rewrite !wf_bytes_app. by split_and!; apply wf_be32.
Qed.

Lemma wf_sha256d m : wf_array 32 (sha256d m).
Proof. apply wf_sha256. Qed.

(** ** Leading zero bits

    [be_val] reads a hash as a big-endian number. *)
Fixpoint be_val (l : bytes) : Z :=
  match l with
  | [] => 0
  | b :: l => b * 2 ^ (8 * Z.of_nat (length l)) + be_val l
  end.

Lemma be_val_bound l : wf_bytes l → 0 ≤ be_val l < 2 ^ (8 * Z.of_nat (length l)).
Proof.
  induction 1 as [|b l Hb Hl IH]; simpl; [done|].
  replace (8 * Z.of_nat (S (length l))) with (8 + 8 * Z.of_nat (length l)) by lia.
  rewrite Z.pow_add_r by lia. unfold in_width in Hb. nia.
Qed.

Lemma shift_loop_add fuel n b : shift_loop fuel n b = n + shift_loop fuel 0 b.
Proof.
  revert n b. induction fuel as [|fuel IH]; intros n b; simpl; [lia|].
  case_match; [|lia]. rewrite IH, (IH (0 + 1)). lia.
Qed.

(** On every non-zero byte the loop stops at the highest set bit. *)
Lemma shift_loop_byte b : 0 < b < 256 → shift_loop 8 0 b = 7 - Z.log2 b.
Proof.
  intros Hb.
  assert (forallb (λ b, shift_loop 8 0 b =? 7 - Z.log2 b) (seqZ 1 255) = true) as H
    by by vm_compute.
  rewrite forallb_forall in H. apply Z.eqb_eq, H.
  apply list_elem_of_In, elem_of_seqZ. lia.
Qed.

Lemma lzb_loop_spec n h : wf_bytes h → n + 8 * Z.of_nat (length h) = 256 →
  lzb_loop n h = if bool_decide (be_val h = 0) then 256 else 255 - Z.log2 (be_val h).
Proof.
  intros Hh. revert n. induction Hh as [|b h Hb Hh IH]; intros n Hn; [done|].
  cbn [lzb_loop be_val length] in *. pose proof (be_val_bound h Hh).
  destruct (Z.eqb_spec b 0) as [->|Hb0].
  - rewrite IH by lia. by rewrite Z.mul_0_l, Z.add_0_l.
  - unfold in_width in Hb. rewrite shift_loop_add, shift_loop_byte by lia.
    set (k := 8 * Z.of_nat (length h)) in *.
    assert (0 < 2 ^ k) by (apply Z.pow_pos_nonneg; lia).
    rewrite bool_decide_eq_false_2 by nia.
    assert (Z.log2 (b * 2 ^ k + be_val h) = Z.log2 b + k) as ->; [|lia].
    destruct (Z.log2_spec b) as [Hl1 Hl2]; [lia|].
    apply Z.log2_unique.
    { pose proof (Z.log2_nonneg b). lia. }
    pose proof (Z.log2_nonneg b). 
    replace (Z.succ (Z.log2 b + k)) with (Z.succ (Z.log2 b) + k) by lia.
    rewrite !Z.pow_add_r by lia. nia.
Qed.

Lemma leading_zero_bits_range h : wf_array 32 h → 0 ≤ leading_zero_bits h ≤ 256.
Proof.
  intros [Hl Hh]. unfold leading_zero_bits. rewrite lzb_loop_spec by (done || lia).
  case_bool_decide; [lia|]. pose proof (be_val_bound h Hh). rewrite Hl in *.
  pose proof (Z.log2_nonneg (be_val h)).
  assert (Z.log2 (be_val h) < 256); [|lia]. apply Z.log2_lt_pow2; [lia|].
  change (8 * Z.of_nat 32) with 256 in *. lia.
Qed.

(** Meeting difficulty [bits] is being below the target [2 ^ (256 - bits)]. *)
Lemma pow_ok_target h bits : wf_array 32 h → 0 ≤ bits ≤ 256 →
  pow_ok h bits = true ↔ be_val h < 2 ^ (256 - bits).
Proof.
  intros Hh Hb. pose proof (leading_zero_bits_range h Hh) as Hr.
  unfold pow_ok. rewrite wrap_small by (split; [lia | eapply Z.le_lt_trans; [apply Hr|done]]).
  rewrite Z.leb_le. destruct Hh as [Hl Hh].
  unfold leading_zero_bits in *. rewrite lzb_loop_spec in * by (done || lia).
  pose proof (be_val_bound h Hh). case_bool_decide as E.
  - rewrite E. split; [|lia]. intros _. apply Z.pow_pos_nonneg; lia.
  - rewrite Z.log2_lt_pow2 by lia. lia.
Qed.

(** No hash meets a difficulty above 256 bits. *)
Lemma pow_ok_above h bits : wf_array 32 h → 256 < bits → pow_ok h bits = false.
Proof.
  intros Hh Hb. pose proof (leading_zero_bits_range h Hh) as Hr. unfold pow_ok.
  rewrite wrap_small by (split; [lia | eapply Z.le_lt_trans; [apply Hr|done]]).
  apply Z.leb_gt. lia.
Qed.

Lemma work_of_range bits : 0 ≤ bits → 1 ≤ work_of bits < 2 ^ 64.
Proof.
  intros Hb. unfold work_of. case_match; bool_props; [done|].
  rewrite Z.shiftl_1_l. rewrite wrap_small.
  - pose proof (Z.pow_lt_mono_r 2 bits 64). pose proof (Z.pow_pos_nonneg 2 bits). lia.
  - split; [apply Z.pow_nonneg; lia | apply Z.pow_lt_mono_r; lia].
Qed.

Lemma work_of_small bits : 0 ≤ bits < 63 → work_of bits = 2 ^ bits.
Proof.
  intros Hb. unfold work_of. rewrite (proj2 (Z.leb_gt 63 bits)) by lia.
  rewrite Z.shiftl_1_l. apply wrap_small.
  split; [apply Z.pow_nonneg; lia | apply Z.pow_lt_mono_r; lia].
Qed.

(** ** Theorems *)

(** Updating twice is updating with the joined bytes. *)
Lemma update_app c p q : (buflen c < 64)%nat → update (update c p) q = update c (p ++ q).
Proof.
  intros Hc. pose proof (update_buflen c p Hc) as Hc'.
  destruct (update_absorb c p Hc) as [S1 T1]. destruct (update_absorb (update c p) q Hc') as [S2 T2].
  destruct (update_absorb c (p ++ q) Hc) as [S3 T3].
  rewrite S1, <- absorb_app, <- S3 in S2. unfold ctx_state in S2.
  rewrite T1, wrap_add_l, <- Z.add_assoc, <- Nat2Z.inj_add, <- length_app, <- T3 in T2.
  destruct (update (update c p) q), (update c (p ++ q)). cbn in *. congruence.
Qed.

#[local] Transparent compress len_be.

(** The code at the words of the standard. *)
Lemma lor_shiftl_add a b n : 0 ≤ n → 0 ≤ b < 2 ^ n → Z.lor (Z.shiftl a n) b = a * 2 ^ n + b.
Proof.
  intros Hn Hb. assert (Z.land (Z.shiftl a n) b = 0) as H0.
  { apply Z.bits_inj'. intros i Hi. rewrite Z.land_spec, Z.bits_0.
    destruct (Z.lt_ge_cases i n); [by rewrite Z.shiftl_spec_low|].
    rewrite <- (Z.mod_small b (2 ^ n)), Z.mod_pow2_bits_high by lia. apply andb_false_r. }
  by rewrite <- Z.lxor_lor, <- Z.add_nocarry_lxor, Z.shiftl_mul_pow2 by done.
Qed.

Lemma rotr_ROTR x n : in_width 32 x → 0 < n < 32 → rotr x n = ROTR n x.
Proof.
  intros [Hx0 Hx] Hn. unfold rotr, ROTR. rewrite Z.lor_comm, Z.shiftr_div_pow2 by lia.
  assert (0 < 2 ^ n) as H1 by (apply Z.pow_pos_nonneg; lia).
  assert (0 < 2 ^ (32 - n)) as H2 by (apply Z.pow_pos_nonneg; lia).
  assert (2 ^ n * 2 ^ (32 - n) = 2 ^ 32) as E by (rewrite <- Z.pow_add_r by lia; f_equal; lia).
  pose proof (Z.div_mod x (2 ^ n) ltac:(lia)) as Ex. pose proof (Z.mod_pos_bound x (2 ^ n) H1) as Hr.
  assert (0 ≤ x / 2 ^ n < 2 ^ (32 - n)) as Hq.
  { split; [apply Z.div_pos; lia|]. apply Z.div_lt_upper_bound; lia. }
  rewrite lor_shiftl_add by lia. unfold wrap.
  replace (x * 2 ^ (32 - n) + x / 2 ^ n) with ((x mod 2 ^ n) * 2 ^ (32 - n) + x / 2 ^ n + x / 2 ^ n * 2 ^ 32) by nia.
  rewrite Z.mod_add by done. apply Z.mod_small. nia.
Qed.

(** The hash value and the working variables. *)
Definition words (v : regs) : list Z := [ra v; rb v; rc v; rD v; re v; rf v; rg v; rh v].

Definition wf_words (v : regs) : Prop := Forall (in_width 32) (words v).

Lemma wf_words_intro a b c d e f g h : in_width 32 a → in_width 32 b → in_width 32 c → in_width 32 d →
  in_width 32 e → in_width 32 f → in_width 32 g → in_width 32 h → wf_words (mkRegs a b c d e f g h).
Proof. intros. unfold wf_words, words. cbn [ra rb rc rD re rf rg rh]. repeat apply Forall_cons_2; by try assumption. Qed.

Lemma K_fips : fips_K = K.
Proof. vm_compute. reflexivity. Qed.

Lemma IV_fips : fips_H0 = words IV.
Proof. vm_compute. reflexivity. Qed.

Lemma take_at (l : bytes) k : (k + 4 ≤ length l)%nat →
  take 4 (drop k l) = [at_ l k; at_ l (k + 1); at_ l (k + 2); at_ l (k + 3)].
Proof.
  revert k. induction l as [|x l IH]; intros k Hk; cbn [length] in Hk; [lia|]. destruct k as [|k].
  - do 3 (destruct l as [|? l]; [cbn in Hk; lia|]). done.
  - cbn [drop]. rewrite IH by lia. done.
Qed.

Lemma at_width w l i : 0 ≤ w → Forall (in_width w) l → in_width w (at_ l i).
Proof.
  intros Hw H. revert i. induction H as [|x l Hx _ IH]; intros [|i]; [..|exact Hx|apply IH];
    (split; [done|by apply Z.pow_pos_nonneg]).
Qed.

Lemma load_word blk t : wf_bytes blk → (4 * t + 4 ≤ length blk)%nat →
  load_be blk t = block_word blk t ∧ in_width 32 (load_be blk t).
Proof.
  intros Hb Hl. unfold load_be, block_word. rewrite take_at by done.
  replace (t * 4)%nat with (4 * t)%nat by lia. cbn [foldl].
  assert (∀ i, in_width 8 (at_ blk i)) as Hw by (intros i; by apply at_width).
  pose proof (Hw (4 * t)%nat) as [? ?]. pose proof (Hw (4 * t + 1)%nat) as [? ?].
  pose proof (Hw (4 * t + 2)%nat) as [? ?]. pose proof (Hw (4 * t + 3)%nat) as [? ?].
  set (a := at_ blk (4 * t)) in *. set (b := at_ blk (4 * t + 1)) in *.
  set (c := at_ blk (4 * t + 2)) in *. set (d := at_ blk (4 * t + 3)) in *. clearbody a b c d.
  rewrite !(wrap_small 32) by (rewrite Z.shiftl_mul_pow2 by done; split; lia).
  rewrite <- !Z.lor_assoc. rewrite (lor_shiftl_add c), (lor_shiftl_add b), (lor_shiftl_add a) by lia.
  split; [lia|split; lia].
Qed.

Lemma schedule_start blk n : (n ≤ 16)%nat → schedule_words blk n = reverse (map (block_word blk) (seq 0 n)).
Proof.
  induction n as [|n IH]; intros Hn; [done|]. cbn [schedule_words].
  rewrite (proj2 (Nat.ltb_lt n 16)), IH, seq_S, map_app, reverse_app by lia. done.
Qed.

Lemma at_reverse l k : (1 ≤ k ≤ length l)%nat → at_ (reverse l) (length l - k) = nth (k - 1) l 0.
Proof.
  intros Hk. unfold at_, reverse. rewrite <- rev_alt, rev_nth by lia. f_equal. lia.
Qed.

(** One word more, in the order of the code and in the one of the standard. *)
Lemma schedule_next blk n : (16 ≤ n)%nat → Forall (in_width 32) (schedule_words blk n) →
  schedule_step (reverse (schedule_words blk n)) n = reverse (schedule_words blk (S n)) ∧
  Forall (in_width 32) (schedule_words blk (S n)).
Proof.
  intros Hn Hw. cbn [schedule_words]. rewrite (proj2 (Nat.ltb_ge n 16)) by lia. unfold schedule_step.
  pose proof (length_schedule_words blk n) as Hl. set (W := schedule_words blk n) in *. clearbody W.
  assert (∀ k, (1 ≤ k ≤ n)%nat → at_ (reverse W) (n - k) = nth (k - 1) W 0) as Hat.
  { intros k Hk. rewrite <- Hl. apply at_reverse. lia. }
  assert (∀ k, in_width 32 (nth k W 0)) as Hnth by (intros k; by apply (at_width 32 W)).
  split; [|constructor; [apply add_words_width|done]].
  rewrite reverse_cons. f_equal. f_equal. rewrite !Hat, !rotr_ROTR by (done || lia).
  rewrite !Z.shiftr_div_pow2 by done. unfold add_words, sigma0, sigma1, SHR, wrap. cbn [foldr]. f_equal. lia.
Qed.

Lemma schedule_fips blk : wf_array 64 blk →
  schedule blk = reverse (schedule_words blk 64) ∧ Forall (in_width 32) (schedule_words blk 64).
Proof.
  intros [Hl Hb]. unfold schedule.
  assert (∀ n, foldl schedule_step (map (load_be blk) (seq 0 16)) (seq 16 n) = reverse (schedule_words blk (16 + n)) ∧
    Forall (in_width 32) (schedule_words blk (16 + n))) as H; [|apply (H 48%nat)].
  induction n as [|n [IH Hw]].
  - rewrite Nat.add_0_r, schedule_start, reverse_involutive by lia. cbn [foldl].
    assert (∀ t, t ∈ seq 0 16 → load_be blk t = block_word blk t ∧ in_width 32 (load_be blk t)) as Ht.
    { intros t [_ ?]%elem_of_seq. apply load_word; [done|lia]. }
    split; [apply map_ext_in; intros t; rewrite <- list_elem_of_In; apply Ht|].
    apply Forall_reverse, Forall_map, Forall_forall. intros t Hi. rewrite <- (proj1 (Ht t Hi)). by apply Ht.
  - rewrite (seq_S n 16), foldl_app, IH. cbn [foldl]. rewrite Nat.add_succ_r. apply schedule_next; [lia|done].
Qed.

Lemma add_words_2 x y : add_words [x; y] = u32 (x + y).
Proof. unfold add_words, wrap, WORD. cbn [foldr]. f_equal. lia. Qed.

Lemma add_words_5 x y z v w : add_words [x; y; z; v; w] = u32 (x + y + z + v + w).
Proof. unfold add_words, wrap, WORD. cbn [foldr]. f_equal. lia. Qed.

(** A round, and the bounds it keeps. *)
Lemma round_fips w v i : wf_words v →
  words (round w v i) = fips_round (words v) (at_ w i, at_ K i) ∧ wf_words (round w v i).
Proof.
  intros Hv. destruct v as [a b c d e f g h]. unfold wf_words, words in *. cbn [ra rb rc rD re rf rg rh] in Hv.
  rewrite !Forall_cons in Hv. destruct Hv as (Ha & Hb & Hc & Hd & He & Hf & Hg & Hh & _).
  assert (∀ x y, in_width 32 y → Z.land (Z.lnot x) y = Z.land (NOT x) y) as Hnot.
  { intros x y Hy. unfold NOT, WORD. replace (2 ^ 32 - 1 - x) with (Z.lnot x + 2 ^ 32) by (unfold Z.lnot; lia).
    rewrite <- (wrap_small 32 y Hy), wrap_ones by done. rewrite (Z.land_comm y), !Z.land_assoc.
    f_equal. rewrite !Z.land_ones by done. by rewrite <- (Z.mul_1_l (2 ^ 32)) at 2; rewrite Z.mod_add. }
  cbn [round ra rb rc rD re rf rg rh]. rewrite !rotr_ROTR, (Hnot e g) by (done || lia). split.
  - cbn [fips_round fst snd ra rb rc rD re rf rg rh]. by rewrite !add_words_5, !add_words_2.
  - by apply wf_words_intro; try apply wrap_in_width.
Qed.

Lemma rounds_fips w v l : wf_words v →
  words (foldl (round w) v l) = foldl fips_round (words v) (map (λ i, (at_ w i, at_ K i)) l) ∧
  wf_words (foldl (round w) v l).
Proof.
  revert v. induction l as [|i l IH]; intros v Hv; [done|]. cbn [foldl map].
  destruct (round_fips w v i Hv) as [<- Hv']. by apply IH.
Qed.

Lemma zip_at (l k : list Z) n : length l = n → length k = n →
  zip l k = map (λ i, (at_ l i, at_ k i)) (seq 0 n).
Proof.
  revert l k. induction n as [|n IH]; intros [|x l] [|y k] Hl Hk; try done. injection Hl as Hl. injection Hk as Hk.
  cbn [zip zip_with seq map]. f_equal. rewrite <- seq_shift, map_map. by apply IH.
Qed.

Lemma compress_fips v blk : wf_words v → wf_array 64 blk →
  words (compress v blk) = fips_block (words v) blk ∧ wf_words (compress v blk).
Proof.
  intros Hv Hb. destruct (schedule_fips blk Hb) as [Es _]. unfold fips_block. rewrite <- Es, K_fips.
  rewrite (zip_at _ _ 64) by (rewrite ?Es, ?length_reverse, ?length_schedule_words; done).
  destruct (rounds_fips (schedule blk) v (seq 0 64) Hv) as [<- _]. unfold compress.
  generalize (foldl (round (schedule blk)) v (seq 0 64)). intros u. split.
  - unfold words. cbn [zip_with ra rb rc rD re rf rg rh]. rewrite !add_words_2.
    repeat (f_equal; [by rewrite Z.add_comm|]). by rewrite Z.add_comm.
  - by apply wf_words_intro; apply wrap_in_width.
Qed.

Lemma big_endian_be32 x : be32 x = big_endian 4 x.
Proof. unfold be32, wrap. rewrite !Z.shiftr_div_pow2 by done. cbn. by rewrite Z.div_1_r. Qed.

Lemma output_fips v : output v = mjoin (map (big_endian 4) (words v)).
Proof. destruct v. cbn [output words map mjoin list_join]. by rewrite !big_endian_be32, app_nil_r. Qed.

Lemma pad_fips m : pad m = fips_pad m.
Proof.
  unfold pad, fips_pad. rewrite <- (len_be_wrap64 (8 * _)). do 2 f_equal. f_equal.
  - f_equal. pose proof (Nat.mod_upper_bound (length m) 64 ltac:(done)) as Hr.
    pose proof (Nat.div_mod_eq (length m) 64) as Hm.
    set (q := (length m / 64)%nat) in *. set (r := (length m mod 64)%nat) in *. clearbody q r. rewrite Hm.
    replace (448 - (8 * Z.of_nat (64 * q + r) + 1)) with (447 - 8 * Z.of_nat r + (- Z.of_nat q) * 512) by lia.
    rewrite Z.mod_add by done. destruct (decide (r < 56)%nat).
    + replace (119 - r)%nat with ((55 - r) + 1 * 64)%nat by lia.
      rewrite Nat.Div0.mod_add, (Nat.mod_small (55 - r)), Z.mod_small by lia.
      replace (447 - 8 * Z.of_nat r - 7) with (Z.of_nat (55 - r) * 8) by lia. by rewrite Z.div_mul, Nat2Z.id by done.
    + rewrite (Nat.mod_small (119 - r)) by lia.
      replace (447 - 8 * Z.of_nat r) with (959 - 8 * Z.of_nat r + (-1) * 512) by lia.
      rewrite Z.mod_add, Z.mod_small by lia.
      replace (959 - 8 * Z.of_nat r - 7) with (Z.of_nat (119 - r) * 8) by lia. by rewrite Z.div_mul, Nat2Z.id by done.
  - unfold len_be, wrap. cbn [seq map big_endian]. by rewrite !Z.shiftr_div_pow2 by done.
Qed.

Lemma wf_pad m : wf_bytes m → wf_bytes (pad m).
Proof.
  intros Hm. unfold pad. rewrite !wf_bytes_app. split_and!; [done|by repeat constructor|by apply Forall_replicate|].
  apply Forall_map, Forall_true. intros i. by apply wrap_in_width.
Qed.

Lemma one_shot_fips m : wf_bytes m → one_shot m = fips_sha256 m.
Proof.
  intros Hm. unfold one_shot, fips_sha256. rewrite output_fips, <- pad_fips, IV_fips.
  pose proof (wf_pad m Hm) as Hw. pose proof (length_pad m) as Hl. set (p := pad m) in *. clearbody p.
  assert (∀ l v, wf_words v → (∀ i, i ∈ l → (i < length p / 64)%nat) →
    words (foldl (λ v i, compress v (block p i)) v l) =
    foldl (λ H i, fips_block H (take 64 (drop (64 * i) p))) (words v) l) as H.
  { induction l as [|i l IH]; intros v Hv Hi; [done|]. cbn [foldl].
    assert (wf_array 64 (block p i)) as Hb.
    { apply wf_array_take; [|by apply wf_bytes_drop]. rewrite length_drop. specialize (Hi i ltac:(left)). nia. }
    change (take 64 (drop (64 * i) p)) with (block p i).
    destruct (compress_fips v _ Hv Hb) as [<- Hv']. apply IH; [done|]. intros j Hj. apply Hi. by right. }
  rewrite H; [done| |]; [by repeat constructor|]. intros i [_ ?]%elem_of_seq. lia.
Qed.

(** C30: the SHA-256 of the code is the function of FIPS 180-4. Whatever the pieces in which
    a byte string is given to [update], [final] is the digest that [Fips] computes from the
    standard alone: its constants are the fractions of the roots of the first primes, its
    rounds the functions of section 4.1.2, its padding the smallest that fits. *)
Theorem sha256_is_fips (chunks : list bytes) : Forall wf_bytes chunks →
  final (foldl update Ctx_init chunks) = fips_sha256 (concat chunks).
Proof.
  intros Hw. rewrite <- one_shot_fips, <- sha256_streaming.
  2:{ induction Hw; [constructor|]. by apply wf_bytes_app. }
  unfold sha256. f_equal. clear Hw.
  assert (∀ c, (buflen c < 64)%nat → in_width 64 (total c) →
    foldl update c chunks = update c (concat chunks)) as H.
  { induction chunks as [|p chunks IH]; intros c Hc Ht; cbn [foldl concat].
    { destruct (update_absorb c [] Hc) as [S1 T1]. unfold ctx_state in S1. cbn [absorb foldl] in S1.
      rewrite Z.add_0_r, wrap_small in T1 by done.
      destruct c, (update _ []). cbn in *. congruence. }
    rewrite IH; [by apply update_app|by apply update_buflen|].
    destruct (update_absorb c p Hc) as [_ ->]. by apply wrap_in_width. }
  apply H; [unfold buflen; cbn; lia|done].
Qed.

(** The difficulty test is a comparison with a target. A hash meets [bits]
    exactly when its big-endian value is below [2 ^ (256 - bits)], up to 256 bits,
    and no hash meets more. *)
Lemma pow_ok_iff_target (h : bytes) bits : wf_array 32 h → 0 ≤ bits →
  pow_ok h bits = true ↔ bits ≤ 256 ∧ be_val h < 2 ^ (256 - bits).
Proof.
  intros Hh Hb. destruct (Z.le_gt_cases bits 256) as [Hle|Hgt].
  - rewrite pow_ok_target by (done || lia). naive_solver.
  - rewrite pow_ok_above by (done || lia). split; [done|lia].
Qed.
