(* ===== verification/Hash.v ===== *)
(** * Hash: the interface between the hash function and its clients

    Transactions, blocks, Merkle trees and addresses are built on the hash only
    through this class: 32-byte digests of byte strings. The instance is the code
    of [Sha256]; the clients' theorems hold for every instance, so none of them
    depends on the internals of the compression function. *)

From S2P Require Import Prelude Sha256.

Class HashFn : Type := {
  hash256 : bytes → bytes;
  wf_hash256 m : wf_array 32 (hash256 m);
}.

#[export] Instance sha256_hash : HashFn := {| hash256 := sha256; wf_hash256 := wf_sha256 |}.

#[export] Hint Resolve wf_hash256 : chainlite.

Section hash.
Context `{HF : HashFn}.

(** Transaction ids, block hashes and tree nodes use the double hash. *)
Definition hash256d (m : bytes) : bytes := hash256 (hash256 m).

Lemma wf_hash256d m : wf_array 32 (hash256d m).
Proof. apply wf_hash256. Qed.

(** Two of the byte strings [K] have the same double hash. As hashes are shorter than
    what is hashed, some strings collide; the theorems say which ones would have to. *)
Definition collision (K : list bytes) : Prop :=
  ∃ x y : bytes, x ∈ K ∧ y ∈ K ∧ x ≠ y ∧ hash256d x = hash256d y.

Lemma collision_mono K L : K ⊆ L → collision K → collision L.
Proof. intros HK (x & y & Hx & Hy & H). exists x, y. auto. Qed.

Lemma hash256d_inj K x y : x ∈ K → y ∈ K → hash256d x = hash256d y → x = y ∨ collision K.
Proof.
  intros Hx Hy E. destruct (decide (x = y)) as [|Hne]; [by left|]. right. by exists x, y.
Qed.
End hash.

#[export] Hint Resolve wf_hash256d : chainlite.

(** For the code's instance [hash256d] is [sha256d]. *)
Lemma hash256d_sha256d m : hash256d m = sha256d m.
Proof. unfold hash256d, sha256d. cbn [hash256 sha256_hash]. reflexivity. Qed.
