(* ===== verification/Crypto.v ===== *)
(** * Crypto: keys and signatures of [src/crypto_cng.h]

    The ECDSA operations of Windows CNG are the parameters of the class [Cng];
    [sig_verify], [kp_sign], [kp_generate] and the key file are the code around
    them. *)

From S2P Require Import Prelude Hex Serial Hash.

Local Open Scope Z_scope.

(** ** bcrypt.dll

    [None] and [false] stand for an NTSTATUS other than zero. The algorithm
    handle of [ecdsa_alg] is opened once, so whether it could be opened is one
    boolean. A key that is finalized is another key. [BCryptExportKey] without a buffer
    gives the size, and with one what it wrote there. *)
Class Cng : Type := {
  CngKey : Type;
  BCryptOpenAlgorithmProvider : bool;
  BCryptImportKeyPair_public : bytes → option CngKey;
  BCryptImportKeyPair_private : bytes → option CngKey;
  BCryptVerifySignature : CngKey → bytes → bytes → bool;
  BCryptSignHash : CngKey → bytes → option bytes;
  BCryptGenerateKeyPair : option CngKey;
  BCryptFinalizeKeyPair : CngKey → option CngKey;
  BCryptExportKey_size : CngKey → option Z;
  BCryptExportKey : CngKey → Z → option bytes;
}.

Definition BCRYPT_ECDSA_PUBLIC_P256_MAGIC : Z := 0x31534345.

(** ** Key pairs *)

Record KeyPair := mkKeyPair { kp_pub : bytes; kp_blob : bytes }.

Definition kp_valid (kp : KeyPair) : bool := bool_decide (length (kp_blob kp) = 104%nat).

Definition addr_of `{HF : HashFn} (pub : bytes) : bytes := take 20 (hash256 pub).

Section cng.
Context `{CN : Cng}.

Definition kp_generate : option KeyPair :=
  if negb BCryptOpenAlgorithmProvider then None
  else
    k ← BCryptGenerateKeyPair;
    k ← BCryptFinalizeKeyPair k;
    len ← BCryptExportKey_size k;
    blob ← BCryptExportKey k len;
    if bool_decide (length blob = 104%nat)
    then Some (mkKeyPair (take 64 (drop 8 blob)) blob)
    else None.

Definition kp_sign (kp : KeyPair) (digest : bytes) : option bytes :=
  if negb BCryptOpenAlgorithmProvider || negb (kp_valid kp) then None
  else
    k ← BCryptImportKeyPair_private (kp_blob kp);
    sig ← BCryptSignHash k digest;
    if bool_decide (length sig = 64%nat) then Some sig else None.

(** The 72-byte public blob: magic, key length, X and Y. *)
Definition public_blob (pub : bytes) : bytes :=
  le 4 BCRYPT_ECDSA_PUBLIC_P256_MAGIC ++ le 4 32 ++ pub.

Definition sig_verify (pub digest sig : bytes) : bool :=
  if negb BCryptOpenAlgorithmProvider then false
  else
    match BCryptImportKeyPair_public (public_blob pub) with
    | Some k => BCryptVerifySignature k digest sig
    | None => false
    end.
(** A key pair whose signatures verify. *)
Record signer (kp : KeyPair) : Prop := {
  sg_pub : wf_array 64 (kp_pub kp);
  sg_nonzero : is_zero (kp_pub kp) = false;
  sg_sign : ∀ h, wf_array 32 h → ∃ sig, kp_sign kp h = Some sig ∧ wf_array 64 sig ∧
    sig_verify (kp_pub kp) h sig = true;
}.
End cng.

(** ** The key file

    A file is its contents, [None] when it cannot be opened. *)
Definition key_magic : string := "chainlite-key-v1" +:+ newline.

Definition kp_save (kp : KeyPair) : string := key_magic +:+ hexs (kp_blob kp) +:+ newline.

Definition key_trim (c : ascii) : bool :=
  (code c =? 10) || (code c =? 13) || (code c =? 32).

(** [fread] fills a buffer of 511 bytes at most. *)
Definition kp_load (file : option string) : option KeyPair :=
  contents ← file;
  let s := String.substring 0 511 contents in
  if negb (starts_with key_magic s) then None
  else
    let hx := pop_back_while key_trim (substr_from 17 s) in
    blob ← unhex hx;
    if bool_decide (length blob = 104%nat)
    then Some (mkKeyPair (take 64 (drop 8 blob)) blob)
    else None.

(** Returns the key and the file's new contents; [writable] says whether the
    file can be opened for writing. *)
Definition kp_load_or_create `{CN : Cng} (writable : bool) (file : option string)
    : option KeyPair * option string :=
  match kp_load file with
  | Some kp => (Some kp, file)
  | None =>
      match kp_generate with
      | None => (None, file)
      | Some kp => if writable then (Some kp, Some (kp_save kp)) else (None, file)
      end
  end.

(** ** Properties *)

Lemma wf_addr_of `{HF : HashFn} pub : wf_array 20 (addr_of pub).
Proof.
  destruct (wf_hash256 pub) as [Hl Hb]. apply wf_array_take; [lia|done].
Qed.

#[export] Hint Resolve wf_addr_of : chainlite.

(** A generated or loaded pair is consistent: [pub] is the X and Y of the blob. *)
Definition wf_keypair (kp : KeyPair) : Prop :=
  wf_array 104 (kp_blob kp) ∧ kp_pub kp = take 64 (drop 8 (kp_blob kp)).

Lemma hex_digit_not_trim n : 0 ≤ n < 16 → key_trim (hex_digit n) = false.
Proof.
  intros Hn.
  assert (forallb (λ n, negb (key_trim (hex_digit n))) (seqZ 0 16) = true) as Ha by done.
  rewrite forallb_forall in Ha. apply negb_true_iff, Ha.
  apply list_elem_of_In, elem_of_seqZ. lia.
Qed.

Lemma hexs_not_trim p : wf_bytes p →
  Forall (λ c, key_trim c = false) (String.list_ascii_of_string (hexs p)).
Proof.
  induction 1 as [|b p Hb Hp IH]; simpl; repeat constructor; try done;
    apply hex_digit_not_trim; [by apply nibble_high | apply nibble_low].
Qed.

(** Reading back a saved key file gives the key pair. *)
Lemma kp_load_kp_save kp : wf_keypair kp → kp_load (Some (kp_save kp)) = Some kp.
Proof.
  intros [[Hl Hb] Hp]. unfold kp_load. cbn [mbind option_bind].
  rewrite substring_all.
  2:{ unfold kp_save. rewrite !string_length_app, length_hexs, Hl. done || (vm_compute; lia). }
  unfold kp_save. rewrite starts_with_app. cbn [negb].
  change 17%nat with (String.length key_magic). rewrite substr_from_app.
  rewrite pop_back_while_keep; [|by apply hexs_not_trim|by repeat constructor].
  rewrite unhex_hexs_some by done. simpl. rewrite bool_decide_eq_true_2 by done.
  rewrite <- Hp. by destruct kp.
Qed.

Lemma kp_generate_wf `{CN : Cng} kp :
  (∀ k n b, BCryptExportKey k n = Some b → wf_bytes b) → kp_generate = Some kp → wf_keypair kp.
Proof.
  intros Hb. unfold kp_generate. case_match; [done|].
  destruct BCryptGenerateKeyPair as [k|]; cbn [mbind option_bind]; [|done].
  destruct (BCryptFinalizeKeyPair k) as [k'|]; cbn [mbind option_bind]; [|done].
  destruct (BCryptExportKey_size k') as [n|]; cbn [mbind option_bind]; [|done].
  destruct (BCryptExportKey k' n) as [b|] eqn:E; cbn [mbind option_bind]; [|done].
  case_bool_decide; intros [= <-]. split; [split; [done|by eapply Hb]|done].
Qed.

(** A node keeps its key over restarts. When [kp_load_or_create] returns a key,
    loaded or newly created, the file it leaves gives the same key again and is not
    changed by the next start; and the saved form of any key pair is read back as
    that pair. *)
Lemma key_survives_restart `{CN : Cng} writable writable' file file' kp :
  (∀ k n b, BCryptExportKey k n = Some b → wf_bytes b) →
  kp_load_or_create writable file = (Some kp, file') →
  kp_load_or_create writable' file' = (Some kp, file') ∧
  (wf_keypair kp → kp_load (Some (kp_save kp)) = Some kp).
Proof.
  intros Hb H. split; [|apply kp_load_kp_save]. unfold kp_load_or_create in H.
  destruct (kp_load file) as [kp1|] eqn:El.
  - injection H as <- <-. unfold kp_load_or_create. by rewrite El.
  - destruct kp_generate as [kp1|] eqn:Eg; [|done]. destruct writable; [|done].
    injection H as <- <-. unfold kp_load_or_create.
    by rewrite kp_load_kp_save by by eapply kp_generate_wf.
Qed.
