(* ===== verification/Merkle.v ===== *)
(** * Merkle: the Merkle tree of [src/core.h]

    [merkle_parent], [merkle_root], [merkle_proof] and [merkle_apply]. The loops
    of the tree run on levels; the fuel is the number of nodes of the level, which
    at least halves ([merkle_root_step], [merkle_proof_step]). *)

From S2P Require Import Prelude Hash.

Local Open Scope nat_scope.

Section merkle.
Context `{HF : HashFn}.

(** ** Operations *)

Definition merkle_parent (l r : bytes) : bytes := hash256d (l ++ r).

(** [if (level.size() & 1) level.push_back(level.back())] *)
Definition pad_level (level : list bytes) : list bytes :=
  if Nat.odd (length level)
  then match last level with Some x => level ++ [x] | None => level end
  else level.

(** [for (i = 0; i < level.size(); i += 2) up.push_back(...)] *)
Fixpoint pair_up (level : list bytes) : list bytes :=
  match level with
  | l :: r :: level => merkle_parent l r :: pair_up level
  | _ => []
  end.

Definition level_up (level : list bytes) : list bytes := pair_up (pad_level level).

(** [H256{}] *)
Definition zero_hash : bytes := replicate 32 0%Z.

(** The loop [while (level.size() > 1)] of [merkle_root]. *)
Fixpoint root_loop (fuel : nat) (level : list bytes) : bytes :=
  match fuel with
  | O => nth 0 level zero_hash
  | S fuel => if 1 <? length level then root_loop fuel (level_up level)
              else nth 0 level zero_hash
  end.

Definition merkle_root (level : list bytes) : bytes :=
  if bool_decide (level = []) then zero_hash else root_loop (length level) level.

(** [left = true]: the sibling is on the left. *)
Record MerkleStep := mkStep { step_h : bytes; step_left : bool }.

Fixpoint proof_loop (fuel : nat) (level : list bytes) (idx : nat) : list MerkleStep :=
  match fuel with
  | O => []
  | S fuel =>
      if 1 <? length level then
        let level := pad_level level in
        let sib := Nat.lxor idx 1 in
        mkStep (nth sib level zero_hash) (Nat.odd idx)
          :: proof_loop fuel (pair_up level) (Nat.div2 idx)
      else []
  end.

Definition merkle_proof (level : list bytes) (idx : nat) : list MerkleStep :=
  proof_loop (length level) level idx.

Definition apply_step (leaf : bytes) (s : MerkleStep) : bytes :=
  if step_left s then merkle_parent (step_h s) leaf else merkle_parent leaf (step_h s).

Definition merkle_apply (leaf : bytes) (steps : list MerkleStep) : bytes :=
  foldl apply_step leaf steps.

(** ** What is hashed

    The byte strings that [merkle_root] hashes, level by level, and those that
    [merkle_apply] hashes along a path. *)
Fixpoint pair_pre (level : list bytes) : list bytes :=
  match level with
  | l :: r :: level => (l ++ r) :: pair_pre level
  | _ => []
  end.

Fixpoint tree_loop (fuel : nat) (level : list bytes) : list bytes :=
  match fuel with
  | O => []
  | S fuel => if 1 <? length level then pair_pre (pad_level level) ++ tree_loop fuel (level_up level)
              else []
  end.

Definition tree_pre (level : list bytes) : list bytes := tree_loop (length level) level.

Definition step_pre (leaf : bytes) (s : MerkleStep) : bytes :=
  if step_left s then step_h s ++ leaf else leaf ++ step_h s.

Fixpoint path_pre (leaf : bytes) (steps : list MerkleStep) : list bytes :=
  match steps with
  | [] => []
  | s :: steps => step_pre leaf s :: path_pre (apply_step leaf s) steps
  end.

(** ** Levels *)

Lemma pad_level_even level : Nat.odd (length level) = false → pad_level level = level.
Proof. unfold pad_level. by intros ->. Qed.

Lemma pad_level_odd level : Nat.odd (length level) = true →
  ∃ x, last level = Some x ∧ pad_level level = level ++ [x].
Proof.
  unfold pad_level. intros H. rewrite H.
  destruct (last level) as [x|] eqn:E; [by exists x|].
  apply last_None in E. by subst.
Qed.

Lemma pad_level_length level : length (pad_level level) = 2 * ((length level + 1) / 2).
Proof.
  destruct (Nat.odd (length level)) eqn:E.
  - destruct (pad_level_odd level E) as (x & _ & ->). rewrite length_app. simpl (length [x]).
    apply Nat.odd_spec in E as [k ->].
    replace (2 * k + 1 + 1) with ((k + 1) * 2) by lia. rewrite Nat.div_mul by done. lia.
  - rewrite pad_level_even by done. rewrite <- Nat.negb_even in E. apply negb_false_iff in E.
    apply Nat.even_spec in E as [k ->].
    replace (2 * k + 1) with (1 + k * 2) by lia. rewrite Nat.div_add by done.
    by rewrite Nat.add_0_l.
Qed.

Lemma pair_up_length n level : length level = 2 * n → length (pair_up level) = n.
Proof.
  revert level. induction n as [|n IH]; intros [|a [|b level]]; simpl; try lia.
  intros. f_equal. apply IH. lia.
Qed.

Lemma level_up_length level : length (level_up level) = (length level + 1) / 2.
Proof. apply pair_up_length, pad_level_length. Qed.

Lemma level_up_shrinks level : 1 < length level → 1 ≤ length (level_up level) < length level.
Proof.
  intros. rewrite level_up_length. split.
  - apply Nat.div_le_lower_bound; lia.
  - apply Nat.Div0.div_lt_upper_bound; lia.
Qed.

(** Enough fuel: any number at least the size of the level gives the same loop. *)
Lemma root_loop_fuel n m level : length level ≤ n → length level ≤ m →
  root_loop n level = root_loop m level.
Proof.
  revert m level. induction n as [|n IH]; intros [|m] level Hn Hm; cbn [root_loop]; try done.
  - destruct level; [done|simpl in *; lia].
  - destruct level; [done|simpl in *; lia].
  - case (Nat.ltb_spec 1 (length level)); [|done]. intros H.
    pose proof (level_up_shrinks level H). apply IH; lia.
Qed.

Lemma proof_loop_fuel n m level idx : length level ≤ n → length level ≤ m →
  proof_loop n level idx = proof_loop m level idx.
Proof.
  revert m level idx. induction n as [|n IH]; intros [|m] level idx Hn Hm;
    cbn [proof_loop]; try done.
  - destruct level; [done|simpl in *; lia].
  - destruct level; [done|simpl in *; lia].
  - case (Nat.ltb_spec 1 (length level)); [|done]. intros H. f_equal.
    pose proof (level_up_shrinks level H). unfold level_up in *. apply IH; lia.
Qed.

(** The unfolding equations of the two loops. *)
Lemma tree_loop_fuel n m level : length level ≤ n → length level ≤ m →
  tree_loop n level = tree_loop m level.
Proof.
  revert m level. induction n as [|n IH]; intros [|m] level Hn Hm; cbn [tree_loop]; try done.
  - destruct level; [done|simpl in *; lia].
  - destruct level; [done|simpl in *; lia].
  - destruct (Nat.ltb_spec 1 (length level)) as [H|H]; [|done].
    pose proof (level_up_shrinks level H). f_equal. apply IH; lia.
Qed.

Lemma tree_pre_step level : 1 < length level →
  tree_pre level = pair_pre (pad_level level) ++ tree_pre (level_up level).
Proof.
  intros H. pose proof (level_up_shrinks level H). unfold tree_pre at 1.
  destruct (length level) as [|n] eqn:E; [lia|]. cbn [tree_loop]. rewrite E.
  destruct (Nat.ltb_spec 1 (S n)); [|lia]. f_equal. apply tree_loop_fuel; lia.
Qed.

Lemma apply_step_pre leaf s : apply_step leaf s = hash256d (step_pre leaf s).
Proof. unfold apply_step, step_pre. by destruct (step_left s). Qed.

Lemma path_pre_app leaf steps more :
  path_pre leaf (steps ++ more) = path_pre leaf steps ++ path_pre (merkle_apply leaf steps) more.
Proof.
  revert leaf. induction steps as [|s steps IH]; intros leaf; [done|].
  cbn [app path_pre]. by rewrite IH.
Qed.

Lemma merkle_root_single x : merkle_root [x] = x.
Proof. done. Qed.

Lemma merkle_root_step level : 1 < length level →
  merkle_root level = merkle_root (level_up level).
Proof.
  intros H. pose proof (level_up_shrinks level H).
  unfold merkle_root. rewrite !bool_decide_eq_false_2 by (intros E; rewrite E in *; simpl in *; lia).
  rewrite (root_loop_fuel (length level) (S (length level)) level) by lia. cbn [root_loop].
  rewrite (proj2 (Nat.ltb_lt 1 _) H). apply root_loop_fuel; lia.
Qed.

Lemma merkle_proof_single x idx : merkle_proof [x] idx = [].
Proof. done. Qed.

Lemma merkle_proof_step level idx : 1 < length level →
  merkle_proof level idx =
    mkStep (nth (Nat.lxor idx 1) (pad_level level) zero_hash) (Nat.odd idx)
      :: merkle_proof (level_up level) (Nat.div2 idx).
Proof.
  intros H. pose proof (level_up_shrinks level H). unfold merkle_proof.
  rewrite (proof_loop_fuel (length level) (S (length level)) level) by lia. cbn [proof_loop].
  rewrite (proj2 (Nat.ltb_lt 1 _) H). f_equal. apply proof_loop_fuel; unfold level_up in *; lia.
Qed.

(** Induction on the number of levels. *)
Lemma level_ind (P : list bytes → Prop) :
  (∀ x, P [x]) →
  (∀ level, 1 < length level → P (level_up level) → P level) →
  ∀ level, level ≠ [] → P level.
Proof.
  intros H1 Hs level. remember (length level) as n eqn:Hn. revert level Hn.
  induction (lt_wf n) as [n _ IH]. intros level -> Hne.
  destruct level as [|x [|y level]]; [done|apply H1|].
  apply Hs; [simpl; lia|].
  pose proof (level_up_shrinks (x :: y :: level)) as Hl. simpl length in Hl at 1.
  apply (IH (length (level_up (x :: y :: level)))); [lia|done|].
  intros E. rewrite E in Hl. simpl in Hl. lia.
Qed.

(** ** Completeness of proofs *)

Lemma testbit_1_succ i : Nat.testbit 1 (S i) = false.
Proof. change 1 with (2 * 0 + 1). rewrite Nat.testbit_odd_succ by lia. apply Nat.bits_0. Qed.

Lemma lxor_1 idx : Nat.lxor idx 1 = if Nat.odd idx then idx - 1 else idx + 1.
Proof.
  destruct (Nat.odd idx) eqn:E.
  - apply Nat.odd_spec in E as [k ->]. replace (2 * k + 1 - 1) with (2 * k) by lia.
    apply Nat.bits_inj. intros [|i]; rewrite Nat.lxor_spec.
    + by rewrite Nat.testbit_odd_0, Nat.testbit_even_0.
    + by rewrite testbit_1_succ, Nat.testbit_odd_succ, Nat.testbit_even_succ, xorb_false_r
        by lia.
  - rewrite <- Nat.negb_even in E. apply negb_false_iff, Nat.even_spec in E as [k ->].
    apply Nat.bits_inj. intros [|i]; rewrite Nat.lxor_spec.
    + by rewrite Nat.testbit_odd_0, Nat.testbit_even_0.
    + by rewrite testbit_1_succ, Nat.testbit_odd_succ, Nat.testbit_even_succ, xorb_false_r
        by lia.
Qed.

Lemma pair_up_lookup level i l r :
  level !! (2 * i) = Some l → level !! (2 * i + 1) = Some r →
  pair_up level !! i = Some (merkle_parent l r).
Proof.
  revert level. induction i as [|i IH]; intros [|a [|b level]]; try done.
  - by intros [= ->] [= ->].
  - replace (2 * S i) with (S (S (2 * i))) by lia.
    replace (S (S (2 * i)) + 1) with (S (S (2 * i + 1))) by lia. apply IH.
Qed.

Lemma pad_level_lookup level i x : level !! i = Some x → pad_level level !! i = Some x.
Proof.
  intros H. unfold pad_level. destruct (Nat.odd _); [|done].
  destruct (last level); [|done]. by apply lookup_app_l_Some.
Qed.

Lemma pair_pre_lookup level i l r :
  level !! (2 * i) = Some l → level !! (2 * i + 1) = Some r → l ++ r ∈ pair_pre level.
Proof.
  revert level. induction i as [|i IH]; intros [|a [|b level]]; try done.
  - intros [= ->] [= ->]. left.
  - intros Hl Hr. right. replace (2 * S i) with (S (S (2 * i))) in Hl by lia.
    replace (2 * S i + 1) with (S (S (2 * i + 1))) in Hr by lia. by apply IH.
Qed.

(** The parent that [apply_step] computes from the produced step is the node of
  the next level. *)
Lemma proof_step_pair level idx leaf : level !! idx = Some leaf →
  let s := mkStep (nth (Nat.lxor idx 1) (pad_level level) zero_hash) (Nat.odd idx) in
  ∃ l r, pad_level level !! (2 * Nat.div2 idx) = Some l ∧
    pad_level level !! (2 * Nat.div2 idx + 1) = Some r ∧
    step_pre leaf s = l ++ r ∧ apply_step leaf s = merkle_parent l r.
Proof.
  intros Hi. pose proof (lookup_lt_Some _ _ _ Hi) as Hlt.
  pose proof (pad_level_lookup _ _ _ Hi) as Hp.
  pose proof (pad_level_length level) as Hpl.
  unfold apply_step, step_pre. cbn [step_left step_h]. rewrite lxor_1.
  destruct (Nat.odd idx) eqn:E.
  - apply Nat.odd_spec in E as [k ->].
    replace (Nat.div2 (2 * k + 1)) with k
      by (rewrite Nat.add_1_r; by rewrite Nat.div2_succ_double).
    replace (2 * k + 1 - 1) with (2 * k) by lia.
    destruct (lookup_lt_is_Some_2 (pad_level level) (2 * k)) as [y Hy];
      [apply lookup_lt_Some in Hp; lia|].
    exists y, leaf. by rewrite (nth_lookup_Some _ _ _ _ Hy).
  - rewrite <- Nat.negb_even in E. apply negb_false_iff, Nat.even_spec in E as [k ->].
    rewrite Nat.div2_double.
    destruct (lookup_lt_is_Some_2 (pad_level level) (2 * k + 1)) as [y Hy].
    { rewrite Hpl. apply Nat.lt_le_trans with (2 * (k + 1)); [lia|].
      apply Nat.mul_le_mono_l, Nat.div_le_lower_bound; lia. }
    exists leaf, y. by rewrite (nth_lookup_Some _ _ _ _ Hy).
Qed.

Lemma proof_step_parent level idx leaf : level !! idx = Some leaf →
  level_up level !! Nat.div2 idx =
    Some (apply_step leaf (mkStep (nth (Nat.lxor idx 1) (pad_level level) zero_hash)
                                  (Nat.odd idx))).
Proof.
  intros (l & r & Hl & Hr & _ & ->)%proof_step_pair. by apply pair_up_lookup.
Qed.

Lemma step_pre_elem level idx leaf : level !! idx = Some leaf →
  step_pre leaf (mkStep (nth (Nat.lxor idx 1) (pad_level level) zero_hash) (Nat.odd idx))
    ∈ pair_pre (pad_level level).
Proof.
  intros (l & r & Hl & Hr & -> & _)%proof_step_pair. by apply (pair_pre_lookup _ (Nat.div2 idx)).
Qed.

Lemma merkle_proof_correct level idx leaf : level !! idx = Some leaf →
  merkle_apply leaf (merkle_proof level idx) = merkle_root level.
Proof.
  intros Hi. assert (level ≠ []) as Hne by by intros ->.
  revert idx leaf Hi. pattern level. apply level_ind; [| |done]; clear level Hne.
  - intros x [|idx] leaf; simpl; [by intros [= ->]|done].
  - intros level Hl IH idx leaf Hi.
    rewrite merkle_proof_step, merkle_root_step by done. cbn [merkle_apply foldl].
    by apply IH, proof_step_parent.
Qed.

(** ** Binding

  The number of levels above the leaves. *)
Definition depth (level : list bytes) : nat := length (merkle_proof level 0).

Lemma depth_step level : 1 < length level → depth level = S (depth (level_up level)).
Proof. intros. unfold depth. by rewrite merkle_proof_step. Qed.

Lemma merkle_proof_length level idx : level ≠ [] →
  length (merkle_proof level idx) = depth level.
Proof.
  intros Hne. revert idx. pattern level. apply level_ind; [done| |done].
  intros l Hl IH idx. rewrite merkle_proof_step, depth_step by done. simpl. by rewrite IH.
Qed.

(** All nodes are 32-byte hashes. *)
Definition wf_level (level : list bytes) : Prop := Forall (wf_array 32) level.

Lemma wf_pad_level level : wf_level level → wf_level (pad_level level).
Proof.
  intros H. destruct (Nat.odd (length level)) eqn:E; [|by rewrite pad_level_even].
  destruct (pad_level_odd level E) as (x & Hx & ->).
  apply Forall_app. split; [done|]. constructor; [|done].
  apply last_Some in Hx as [l ->]. apply Forall_app in H as [_ H]. by inversion H.
Qed.

Lemma wf_pair_up level : wf_level (pair_up level).
Proof.
  induction level as [|a|a b level IH] using list_pair_ind; simpl; constructor; [|done].
  apply wf_hash256d.
Qed.

Lemma wf_level_up level : wf_level (level_up level).
Proof. apply wf_pair_up. Qed.

Lemma wf_merkle_root level : wf_level level → wf_array 32 (merkle_root level).
Proof.
  intros H. destruct (decide (level = [])) as [->|Hne].
  { split; [done|]. by apply Forall_replicate. }
  revert H. pattern level. apply level_ind; [| |done].
  - intros x Hx. by inversion Hx.
  - intros l Hl IH _. rewrite merkle_root_step by done. apply IH, wf_level_up.
Qed.

Lemma merkle_parent_inj K a b c d : a ++ b ∈ K → c ++ d ∈ K → wf_array 32 a → wf_array 32 c →
  merkle_parent a b = merkle_parent c d → (a = c ∧ b = d) ∨ collision K.
Proof.
  intros H1 H2 [Ha _] [Hc _] [E|?]%(hash256d_inj K); [|by right|done..]. left.
  apply app_inj_1 in E; [done|congruence].
Qed.

Lemma last_elem (l : list bytes) x : last l = Some x → x ∈ l.
Proof. intros (k & ->)%last_Some. apply elem_of_app. right. by left. Qed.

Lemma elem_of_pad_level level x : x ∈ pad_level level → x ∈ level.
Proof.
  destruct (Nat.odd (length level)) eqn:E; [|by rewrite pad_level_even].
  destruct (pad_level_odd level E) as (y & Hy & ->).
  rewrite elem_of_app, list_elem_of_singleton. intros [?| ->]; [done|]. by apply last_elem.
Qed.

Lemma elem_of_pair_up level x : x ∈ pair_up level →
  ∃ a b, a ∈ level ∧ b ∈ level ∧ a ++ b ∈ pair_pre level ∧ x = merkle_parent a b.
Proof.
  induction level as [|a|a b level IH] using list_pair_ind; simpl;
    [by rewrite elem_of_nil|by rewrite elem_of_nil|].
  rewrite elem_of_cons. intros [->|H].
  - exists a, b. split_and!; [by left|by right; left|by left|done].
  - destruct (IH H) as (c & d & ? & ? & ? & ->).
    exists c, d. split_and!; [by do 2 right|by do 2 right|by right|done].
Qed.

Lemma elem_of_level_up level x : x ∈ level_up level →
  ∃ a b, a ∈ level ∧ b ∈ level ∧ a ++ b ∈ pair_pre (pad_level level) ∧ x = merkle_parent a b.
Proof.
  intros (a & b & ?%elem_of_pad_level & ?%elem_of_pad_level & ? & ->)%elem_of_pair_up.
  by exists a, b.
Qed.

(** A path of the tree's depth that reaches the root starts at a leaf. *)
Lemma merkle_apply_sound K level leaf steps : tree_pre level ⊆ K → path_pre leaf steps ⊆ K →
  level ≠ [] → wf_level level → wf_array 32 leaf → Forall (λ s, wf_array 32 (step_h s)) steps →
  length steps = depth level → merkle_apply leaf steps = merkle_root level →
  leaf ∈ level ∨ collision K.
Proof.
  intros HK HP Hne. revert HK leaf steps HP. pattern level. apply level_ind; [| |done]; clear level Hne.
  - intros x _ leaf [|s steps] _ _ _ _ Hd E; [|done]. left.
    change (leaf = x) in E. subst. by left.
  - intros level Hl IH HK leaf steps HP Hw Hleaf Hs Hd E.
    rewrite depth_step in Hd by done. rewrite merkle_root_step in E by done.
    rewrite tree_pre_step in HK by done. apply list_subseteq_app_iff_l in HK as [HK1 HK2].
    destruct steps as [|s steps]; [done|]. inversion Hs as [|?? Hsh Hs']; subst.
    cbn [path_pre] in HP. apply list_subseteq_cons_iff in HP as [HP1 HP2].
    change (merkle_apply (apply_step leaf s) steps = merkle_root (level_up level)) in E.
    apply IH in E as [Hin|?]; [|by right|done|done|apply wf_level_up| |done|by simpl in Hd; lia].
    + apply elem_of_level_up in Hin as (a & b & Ha & Hb & Hab & E').
      assert (wf_array 32 a) by by eapply Forall_forall in Hw.
      unfold apply_step, step_pre in E', HP1. destruct (step_left s);
        apply (merkle_parent_inj K) in E' as [[? ?]|?]; auto; subst; auto.
    + rewrite apply_step_pre. apply wf_hash256d.
Qed.

(** ** Duplicate-free levels

  Because an odd level repeats its last node, [l] and [l ++ [last l]] can have
  the same root; on levels without duplicates the root determines the level. *)
Lemma pair_up_lookup_inv level i x : pair_up level !! i = Some x →
  ∃ a b, level !! (2 * i) = Some a ∧ level !! (2 * i + 1) = Some b ∧ a ++ b ∈ pair_pre level ∧
    x = merkle_parent a b.
Proof.
  revert i. induction level as [|a|a b level IH] using list_pair_ind; intros i Hi; [done..|].
  destruct i as [|i]; simpl in Hi.
  - exists a, b. injection Hi as <-. split_and!; try done. by left.
  - destruct (IH i Hi) as (c & d & Hc & Hd & Hcd & ->). exists c, d.
    replace (2 * S i) with (S (S (2 * i))) by lia.
    replace (S (S (2 * i)) + 1) with (S (S (2 * i + 1))) by lia. split_and!; try done. by right.
Qed.

Lemma pad_level_lookup_even level i x : pad_level level !! (2 * i) = Some x →
  level !! (2 * i) = Some x.
Proof.
  destruct (Nat.odd (length level)) eqn:E; [|by rewrite pad_level_even].
  destruct (pad_level_odd level E) as (y & Hy & ->). intros Hi.
  apply Nat.odd_spec in E as [k Hk].
  rewrite lookup_app_l in Hi; [done|].
  apply lookup_lt_Some in Hi. rewrite length_app in Hi. simpl in Hi. lia.
Qed.

Lemma NoDup_level_up K level : pair_pre (pad_level level) ⊆ K → wf_level level → NoDup level →
  NoDup (level_up level) ∨ collision K.
Proof.
  intros HK Hw Hn. destruct (NoDup_or_dup (level_up level)) as [?|(i & j & x & Hij & Hi & Hj)];
    [by left|].
  right. apply pair_up_lookup_inv in Hi as (a & b & Ha & Hb & Hab & ->).
  apply pair_up_lookup_inv in Hj as (c & d & Hc & Hd & Hcd & E).
  apply pad_level_lookup_even in Ha, Hc.
  apply (merkle_parent_inj K) in E as [[-> _]|?];
    [|done|by apply HK|by apply HK|by eapply Forall_lookup_1 in Ha|by eapply Forall_lookup_1 in Hc].
  assert (2 * i = 2 * j) by by eapply NoDup_lookup. lia.
Qed.

Lemma pair_up_inj K n l k : pair_pre l ⊆ K → pair_pre k ⊆ K → length l = 2 * n → length k = 2 * n →
  wf_level l → wf_level k → pair_up l = pair_up k → l = k ∨ collision K.
Proof.
  revert l k. induction n as [|n IH]; intros [|a [|b l]] [|c [|d k]]; simpl; try lia.
  { by left. }
  intros [HK1 HK2]%list_subseteq_cons_iff [HK3 HK4]%list_subseteq_cons_iff Hl Hk Hwl Hwk [= Hp Hu].
  inversion Hwl as [|?? Ha Hwl1]; subst. inversion Hwl1 as [|?? Hb Hwl2]; subst.
  inversion Hwk as [|?? Hc Hwk1]; subst. inversion Hwk1 as [|?? Hd Hwk2]; subst.
  apply (merkle_parent_inj K) in Hp as [[-> ->]|?]; try done; [|by right].
  destruct (IH l k) as [-> |?]; try done; [lia|lia|by left|by right].
Qed.

Lemma pad_level_inj l k : NoDup l → NoDup k → pad_level l = pad_level k → l = k.
Proof.
  assert (∀ l k x, NoDup (l : list bytes) → last k = Some x → l = k ++ [x] → False) as Hno.
  { intros l' k' x Hn Hx ->. apply last_Some in Hx as [k'' ->].
    rewrite NoDup_app in Hn. destruct Hn as (_ & Hn & _).
    apply (Hn x); [apply elem_of_app; right; by left|by left]. }
  intros Hl Hk E.
  destruct (Nat.odd (length l)) eqn:El, (Nat.odd (length k)) eqn:Ek.
  - destruct (pad_level_odd l El) as (x & _ & E1), (pad_level_odd k Ek) as (y & _ & E2).
    rewrite E1, E2 in E. by apply app_inj_tail in E as [-> _].
  - destruct (pad_level_odd l El) as (x & Hx & E1). rewrite E1, pad_level_even in E by done.
    exfalso. by eapply (Hno k l x).
  - destruct (pad_level_odd k Ek) as (y & Hy & E2). rewrite E2, pad_level_even in E by done.
    exfalso. by eapply (Hno l k y).
  - by rewrite !pad_level_even in E by done.
Qed.

Lemma level_up_inj K l k : pair_pre (pad_level l) ⊆ K → pair_pre (pad_level k) ⊆ K →
  wf_level l → wf_level k → NoDup l → NoDup k → level_up l = level_up k → l = k ∨ collision K.
Proof.
  intros HK1 HK2 Hwl Hwk Hl Hk E.
  assert (length (pad_level l) = length (pad_level k)) as Hlen.
  { rewrite !pad_level_length, <- !level_up_length. by rewrite E. }
  destruct (pair_up_inj K ((length l + 1) / 2) (pad_level l) (pad_level k)) as [Hp|?];
    try by auto using wf_pad_level, pad_level_length.
  - by rewrite <- Hlen, pad_level_length.
  - left. by apply pad_level_inj.
Qed.

Lemma depth_0 l : l ≠ [] → depth l = 0 → ∃ x, l = [x].
Proof.
  intros Hl Hd. destruct l as [|x [|y l]]; [done|by exists x|].
  rewrite depth_step in Hd by (simpl; lia). done.
Qed.

Lemma depth_S l d : depth l = S d → 1 < length l ∧ depth (level_up l) = d.
Proof.
  intros Hd. destruct l as [|x [|y l]]; [done|done|].
  rewrite depth_step in Hd by (simpl; lia). split; [simpl; lia|]. by injection Hd.
Qed.

Lemma level_up_nonempty l : 1 < length l → level_up l ≠ [].
Proof.
  intros Hl E. pose proof (level_up_shrinks l Hl) as Hs. rewrite E in Hs. simpl in Hs. lia.
Qed.

(** The root of a tree of known depth determines a duplicate-free list of leaves. *)
Lemma merkle_root_binding K l k : tree_pre l ⊆ K → tree_pre k ⊆ K →
  l ≠ [] → k ≠ [] → wf_level l → wf_level k →
  NoDup l → NoDup k → depth l = depth k → merkle_root l = merkle_root k →
  l = k ∨ collision K.
Proof.
  intros HKl HKk Hl Hk Hwl Hwk Hnl Hnk Hd. remember (depth l) as d eqn:Ed. symmetry in Ed, Hd.
  revert l k HKl HKk Hl Hk Hwl Hwk Hnl Hnk Ed Hd.
  induction d as [|d IH]; intros l k HKl HKk Hl Hk Hwl Hwk Hnl Hnk Ed Hd E.
  - apply depth_0 in Ed as [x ->], Hd as [y ->]; [|done..]. left. by rewrite !merkle_root_single in E; subst.
  - apply depth_S in Ed as [Hl1 Ed], Hd as [Hk1 Hd]. rewrite (merkle_root_step l), (merkle_root_step k) in E by done.
    rewrite tree_pre_step in HKl, HKk by done.
    apply list_subseteq_app_iff_l in HKl as [HKl HKl'], HKk as [HKk HKk'].
    destruct (NoDup_level_up K l HKl Hwl Hnl) as [Hn1|?]; [|by right].
    destruct (NoDup_level_up K k HKk Hwk Hnk) as [Hn2|?]; [|by right].
    destruct (IH (level_up l) (level_up k)) as [Eu|?];
      auto using wf_level_up, level_up_nonempty, level_up_inj.
Qed.

Lemma wf_merkle_proof level idx : wf_level level →
  Forall (λ s, wf_array 32 (step_h s)) (merkle_proof level idx).
Proof.
  assert (wf_array 32 zero_hash) as Hz by (split; [done|by apply Forall_replicate]).
  intros Hw. destruct (decide (level = [])) as [->|Hne]; [constructor|].
  revert idx Hw. pattern level. apply level_ind; [constructor| |done].
  intros l Hl IH idx Hw. rewrite merkle_proof_step by done. constructor.
  - cbn. apply wf_pad_level in Hw. rewrite nth_lookup.
    destruct (pad_level l !! _) eqn:E; [by eapply Forall_lookup_1 in E|done].
  - apply IH, wf_level_up.
Qed.

(** ** Short paths

  A path shorter than the depth that reaches the root starts at an inner node. *)
Lemma level_at_depth n d level : wf_level level → depth level = n + d → 0 < n →
  ∃ upper, depth upper = d ∧ merkle_root upper = merkle_root level ∧ wf_level upper ∧
    upper ≠ [] ∧ tree_pre upper ⊆ tree_pre level ∧
    ∀ x, x ∈ upper → ∃ a b, wf_array 32 a ∧ wf_array 32 b ∧ a ++ b ∈ tree_pre level ∧ x = merkle_parent a b.
Proof.
  revert level. induction n as [|n IH]; intros level Hw Hd Hn; [lia|].
  simpl in Hd. apply depth_S in Hd as [Hl Hd]. rewrite merkle_root_step, tree_pre_step by done.
  destruct (decide (n = 0)) as [->|Hn0].
  - exists (level_up level). split_and!; auto using wf_level_up, level_up_nonempty.
    + apply list_subseteq_app_r. done.
    + intros x (a & b & Ha & Hb & Hab & ->)%elem_of_level_up. exists a, b.
      split_and!; [by eapply Forall_forall in Ha|by eapply Forall_forall in Hb|by apply elem_of_app; left|done].
  - destruct (IH (level_up level)) as (upper & ? & ? & ? & ? & HK & Hx); [apply wf_level_up|done|lia|].
    exists upper. split_and!; try done; [by apply list_subseteq_app_r|].
    intros x (a & b & ? & ? & ? & ->)%Hx. exists a, b. split_and!; try done. apply elem_of_app. by right.
Qed.

Lemma merkle_apply_short K level leaf steps : tree_pre level ⊆ K → path_pre leaf steps ⊆ K →
  wf_level level → wf_array 32 leaf → Forall (λ s, wf_array 32 (step_h s)) steps →
  length steps < depth level → merkle_apply leaf steps = merkle_root level →
  (∃ a b, wf_array 32 a ∧ wf_array 32 b ∧ a ++ b ∈ K ∧ leaf = merkle_parent a b) ∨ collision K.
Proof.
  intros HK HP Hw Hleaf Hs Hd E.
  destruct (level_at_depth (depth level - length steps) (length steps) level)
    as (upper & Hu & Hr & Hwu & Hne & HKu & Hp); [done|lia|lia|].
  destruct (merkle_apply_sound K upper leaf steps) as [Hin|?]; auto; [by etrans|congruence|].
  left. destruct (Hp leaf Hin) as (a & b & ? & ? & ? & ->). exists a, b. auto.
Qed.

(** ** Theorems *)

(** Merkle proofs are sound. A leaf of the tree has a path with one step for
  every level that leads to the root; a 32-byte value that has such a path is a
  leaf, or two of the strings hashed for the tree and along the path collide. *)
Lemma merkle_path_iff_leaf level leaf : level ≠ [] → wf_level level → wf_array 32 leaf →
  let path steps := Forall (λ s, wf_array 32 (step_h s)) steps ∧ length steps = depth level ∧
    merkle_apply leaf steps = merkle_root level in
  (leaf ∈ level → ∃ steps, path steps) ∧ (∀ steps, path steps → leaf ∈ level ∨ collision (tree_pre level ++ path_pre leaf steps)).
Proof.
  intros Hne Hw Hl path. split.
  - intros (i & Hi)%list_elem_of_lookup. exists (merkle_proof level i).
    split_and!; [by apply wf_merkle_proof|by apply merkle_proof_length|by apply merkle_proof_correct].
  - intros steps (Hs & Hd & E).
    eapply merkle_apply_sound; eauto; [by apply list_subseteq_app_l|by apply list_subseteq_app_r].
Qed.
End merkle.
