(* ===== verification/Tx.v ===== *)
(** * Tx: transactions, headers and blocks of [src/core.h]

    The consensus parameters, the records [Tx], [BlockHeader] and [Block] with
    their [ser], [serialize], [parse], [sign_hash], [txid] and [hash], and the
    codec instances: what is serialized is parsed back, and what is parsed is the
    canonical serialization of the result. *)

From S2P Require Import Prelude Hex Serial Hash.

Local Open Scope Z_scope.

(** ** Consensus parameters *)

Record Params := mkParams {
  p_net_id : Z;
  p_bits : Z;
  p_reward : Z;
  p_genesis_time : Z;
}.

Definition Params_default : Params := mkParams 0x4C495445 20 50 1753000000.

Definition CL_VERSION : Z := 1.
Definition MAX_PAYLOAD : Z := 1024.
Definition MAX_BLOCK_TXS : Z := 5000.
Definition MAX_TIME_SKEW_S : Z := 7200.

Definition TX_COINBASE : Z := 0.
Definition TX_TRANSFER : Z := 1.
Definition TX_RECORD : Z := 2.

(** The size of a [std::vector] as a [size_t]. *)
Definition size {A} (l : list A) : Z := Z.of_nat (length l).

(** ** Transactions *)

Record Tx := mkTx {
  t_type : Z;
  t_net_id : Z;
  t_from : bytes;
  t_to : bytes;
  t_amount : Z;
  t_nonce : Z;
  t_payload : bytes;
  t_sig : bytes;
}.

#[export] Instance tx_eq_dec : EqDecision Tx.
Proof. solve_decision. Defined.

(** [Tx()]: the member initializers. *)
Definition Tx_default : Tx :=
  mkTx TX_TRANSFER 0 (replicate 64 0) (replicate 20 0) 0 0 [] (replicate 64 0).

Definition tx_ser (t : Tx) (w : bytes) (with_sig : bool) : bytes :=
  let w := w_u8 w (t_type t) in
  let w := w_u32 w (t_net_id t) in
  let w := w_arr w (t_from t) in
  let w := w_arr w (t_to t) in
  let w := w_u64 w (t_amount t) in
  let w := w_u64 w (t_nonce t) in
  let w := w_u16 w (u16 (size (t_payload t))) in
  let w := w_blob w (t_payload t) in
  if with_sig then w_arr w (t_sig t) else w.

Definition tx_serialize (t : Tx) : bytes := tx_ser t [] true.

Definition tx_parse : Parser Tx :=
  ty ← r_u8;
  net_id ← r_u32;
  from ← r_arr 64;
  to ← r_arr 20;
  amount ← r_u64;
  nonce ← r_u64;
  pl ← r_u16;
  if pl >? MAX_PAYLOAD then throw "payload too big"
  else
    payload ← r_blob pl;
    sig ← r_arr 64;
    mret (mkTx ty net_id from to amount nonce payload sig).

(** ** Headers *)

Definition HEADER_SIZE : Z := 100.
Definition NONCE_OFFSET : Z := 92.

Record BlockHeader := mkHeader {
  h_version : Z;
  h_net_id : Z;
  h_prev : bytes;
  h_merkle : bytes;
  h_height : Z;
  h_time : Z;
  h_bits : Z;
  h_nonce : Z;
}.

#[export] Instance header_eq_dec : EqDecision BlockHeader.
Proof. solve_decision. Defined.

Definition header_ser (h : BlockHeader) (w : bytes) : bytes :=
  let w := w_u32 w (h_version h) in
  let w := w_u32 w (h_net_id h) in
  let w := w_arr w (h_prev h) in
  let w := w_arr w (h_merkle h) in
  let w := w_u64 w (h_height h) in
  let w := w_u64 w (h_time h) in
  let w := w_u32 w (h_bits h) in
  w_u64 w (h_nonce h).

Definition header_serialize (h : BlockHeader) : bytes := header_ser h [].

Definition header_parse : Parser BlockHeader :=
  version ← r_u32;
  net_id ← r_u32;
  prev ← r_arr 32;
  merkle ← r_arr 32;
  height ← r_u64;
  time ← r_u64;
  bits ← r_u32;
  nonce ← r_u64;
  mret (mkHeader version net_id prev merkle height time bits nonce).

(** ** Blocks *)

Record Block := mkBlock { b_h : BlockHeader; b_txs : list Tx }.

#[export] Instance block_eq_dec : EqDecision Block.
Proof. solve_decision. Defined.

Definition block_serialize (b : Block) : bytes :=
  let w := header_ser (b_h b) [] in
  let w := w_u32 w (u32 (size (b_txs b))) in
  foldl (λ w t, tx_ser t w true) w (b_txs b).

(** [for (i = 0; i < n; i++) b.txs.push_back(Tx::parse(r))] *)
Fixpoint txs_parse (n : nat) : Parser (list Tx) :=
  match n with
  | O => mret []
  | S n => t ← tx_parse; ts ← txs_parse n; mret (t :: ts)
  end.

(** The body of [Block::parse]: [None] for [return std::nullopt]. *)
Definition block_body : Parser (option Block) :=
  h ← header_parse;
  n ← r_u32;
  if n >? MAX_BLOCK_TXS then mret None
  else
    txs ← txs_parse (Z.to_nat n);
    left ← advance 0 remaining;
    if negb (left =? 0) then mret None else mret (Some (mkBlock h txs)).

(** [catch (...) { return std::nullopt; }] *)
Definition block_parse (raw : bytes) : option Block :=
  match block_body (reader_of raw) with
  | Ok (b, _) => b
  | Err _ => None
  end.

#[global] Arguments tx_ser : simpl never.
#[global] Arguments header_ser : simpl never.
#[global] Arguments tx_parse : simpl never.
#[global] Arguments header_parse : simpl never.

(** ** Hashes *)

Section hashes.
Context `{HF : HashFn}.

Definition sign_hash (t : Tx) : bytes := hash256d (tx_ser t [] false).
Definition txid (t : Tx) : bytes := hash256d (tx_ser t [] true).
Definition header_hash (h : BlockHeader) : bytes := hash256d (header_ser h []).
End hashes.

(** ** Values of the C++ types *)

Record wf_tx (t : Tx) : Prop := {
  wf_t_type : in_width 8 (t_type t);
  wf_t_net_id : in_width 32 (t_net_id t);
  wf_t_from : wf_array 64 (t_from t);
  wf_t_to : wf_array 20 (t_to t);
  wf_t_amount : in_width 64 (t_amount t);
  wf_t_nonce : in_width 64 (t_nonce t);
  wf_t_payload : wf_bytes (t_payload t);
  wf_t_sig : wf_array 64 (t_sig t);
}.

Record wf_header (h : BlockHeader) : Prop := {
  wf_h_version : in_width 32 (h_version h);
  wf_h_net_id : in_width 32 (h_net_id h);
  wf_h_prev : wf_array 32 (h_prev h);
  wf_h_merkle : wf_array 32 (h_merkle h);
  wf_h_height : in_width 64 (h_height h);
  wf_h_time : in_width 64 (h_time h);
  wf_h_bits : in_width 32 (h_bits h);
  wf_h_nonce : in_width 64 (h_nonce h);
}.

(** A transaction that [parse] accepts: of its C++ type, with a bounded payload. *)
Definition wire_tx (t : Tx) : Prop := wf_tx t ∧ size (t_payload t) ≤ MAX_PAYLOAD.

Definition wire_block (b : Block) : Prop :=
  wf_header (b_h b) ∧ Forall wire_tx (b_txs b) ∧ size (b_txs b) ≤ MAX_BLOCK_TXS.

(** These can be evaluated. *)
#[export] Instance wf_tx_dec t : Decision (wf_tx t).
Proof.
  refine (cast_if (decide (in_width 8 (t_type t) ∧ in_width 32 (t_net_id t) ∧
    wf_array 64 (t_from t) ∧ wf_array 20 (t_to t) ∧ in_width 64 (t_amount t) ∧
    in_width 64 (t_nonce t) ∧ wf_bytes (t_payload t) ∧ wf_array 64 (t_sig t))));
    [abstract (destruct_and!; by constructor) | abstract (intros []; match goal with Hn : ¬ _ |- _ => apply Hn; split_and!; auto end)].
Defined.

#[export] Instance wf_header_dec h : Decision (wf_header h).
Proof.
  refine (cast_if (decide (in_width 32 (h_version h) ∧ in_width 32 (h_net_id h) ∧
    wf_array 32 (h_prev h) ∧ wf_array 32 (h_merkle h) ∧ in_width 64 (h_height h) ∧
    in_width 64 (h_time h) ∧ in_width 32 (h_bits h) ∧ in_width 64 (h_nonce h))));
    [abstract (destruct_and!; by constructor) | abstract (intros []; match goal with Hn : ¬ _ |- _ => apply Hn; split_and!; auto end)].
Defined.

#[export] Instance wire_tx_dec t : Decision (wire_tx t).
Proof. unfold wire_tx. apply _. Defined.

#[export] Instance wire_block_dec b : Decision (wire_block b).
Proof. unfold wire_block. apply _. Defined.

(** ** Encodings: what the writers append *)

(** The signed part of a transaction. *)
Definition tx_body (t : Tx) : bytes :=
  le 1 (t_type t) ++ le 4 (t_net_id t) ++ t_from t ++ t_to t ++
  le 8 (t_amount t) ++ le 8 (t_nonce t) ++ le 2 (u16 (size (t_payload t))) ++ t_payload t.

Definition tx_enc (t : Tx) : bytes := tx_body t ++ t_sig t.

Definition header_enc (h : BlockHeader) : bytes :=
  le 4 (h_version h) ++ le 4 (h_net_id h) ++ h_prev h ++ h_merkle h ++
  le 8 (h_height h) ++ le 8 (h_time h) ++ le 4 (h_bits h) ++ le 8 (h_nonce h).

Lemma tx_ser_app t w with_sig :
  tx_ser t w with_sig = w ++ tx_body t ++ (if with_sig then t_sig t else []).
Proof.
  unfold tx_ser, tx_body, w_arr, w_blob, w_raw. cbv zeta.
  rewrite w_u16_app, !w_u64_app, w_u32_app, w_u8_app, <- !app_assoc.
  by destruct with_sig; rewrite ?app_nil_r, <- ?app_assoc.
Qed.

Lemma tx_serialize_enc t : tx_serialize t = tx_enc t.
Proof. unfold tx_serialize, tx_enc. rewrite tx_ser_app, app_nil_l. reflexivity. Qed.

Lemma header_ser_app h w : header_ser h w = w ++ header_enc h.
Proof.
  unfold header_ser, header_enc, w_arr, w_raw. cbv zeta.
  by rewrite !w_u64_app, !w_u32_app, <- !app_assoc.
Qed.

Lemma header_serialize_enc h : header_serialize h = header_enc h.
Proof. unfold header_serialize. rewrite header_ser_app, app_nil_l. reflexivity. Qed.

Lemma block_serialize_enc b :
  block_serialize b = header_enc (b_h b) ++ le 4 (u32 (size (b_txs b))) ++ concat (map tx_enc (b_txs b)).
Proof.
  unfold block_serialize. rewrite header_ser_app, w_u32_app. cbv zeta. rewrite app_nil_l.
  assert (∀ ts w, foldl (λ w t, tx_ser t w true) w ts = w ++ concat (map tx_enc ts)) as Hf.
  { induction ts as [|t ts IH]; intros w; cbn [foldl map concat].
    - by rewrite app_nil_r.
    - rewrite IH, tx_ser_app, <- app_assoc. reflexivity. }
  rewrite Hf, <- app_assoc. reflexivity.
Qed.

(** ** Codecs *)

(** The last [mret] of a parser. *)
Lemma mret_inv {A} (a b : A) r r' : (mret a : Parser A) r = Ok (b, r') → a = b ∧ r = r'.
Proof. by intros [= -> ->]. Qed.

Lemma bad_payload_inv {A} (m : Parser A) (pl : Z) r a r' :
  (if pl >? MAX_PAYLOAD then throw "payload too big" else m) r = Ok (a, r') →
  pl ≤ MAX_PAYLOAD ∧ m r = Ok (a, r').
Proof. rewrite Z.gtb_ltb. case_match; [done|]. bool_props. done. Qed.

Lemma wire_tx_payload t : wire_tx t → u16 (size (t_payload t)) = Z.of_nat (length (t_payload t)).
Proof.
  intros [_ Hp]. apply wrap_small. unfold in_width, size, MAX_PAYLOAD in *.
  change (2 ^ 16) with 65536. lia.
Qed.

#[export] Instance tx_codec : Codec tx_enc tx_parse wire_tx.
Proof.
  split.
  - intros r t rest Hr Ht E. pose proof (wire_tx_payload t Ht) as Hpl.
    destruct Ht as [Hw Hp]. unfold tx_enc, tx_body in E. rewrite Hpl in E.
    rewrite <- !app_assoc in E. unfold tx_parse.
    codec_forward; [by apply wf_t_type|]. codec_forward; [by apply wf_t_net_id|].
    codec_forward; [by apply wf_t_from|]. codec_forward; [by apply wf_t_to|].
    codec_forward; [by apply wf_t_amount|]. codec_forward; [by apply wf_t_nonce|].
    codec_forward; [rewrite <- Hpl; by apply wrap_in_width|].
    rewrite Z.gtb_ltb, (proj2 (Z.ltb_ge _ _)) by done.
    codec_forward; [split; [done|by apply wf_t_payload]|].
    codec_forward; [by apply wf_t_sig|].
    rewrite !adv_adv. unfold mret, parser_ret. destruct t; cbn [t_type t_net_id t_from t_to
      t_amount t_nonce t_payload t_sig] in *.
    do 2 f_equal. f_equal. unfold tx_enc, tx_body. cbn. rewrite !length_app, !length_le. lia.
  - intros r t r' Hr H. unfold tx_parse in H.
    do 7 codec_backward H. apply bad_payload_inv in H as [Hpl H].
    pose proof (proj1 Hwf5) as Hpl0.
    destruct (Z_of_nat_complete a5 Hpl0) as [k ->].
    do 2 codec_backward H. apply mret_inv in H as [<- <-].
    destruct Hwf6 as [Hl6 Hw6].
    assert (u16 (size a5) = Z.of_nat k) as Hs.
    { unfold size. rewrite Hl6. apply wrap_small.
      unfold in_width, MAX_PAYLOAD in *. change (2 ^ 16) with 65536. lia. }
    split_and!.
    + split; [by constructor|]. cbn [t_payload]. unfold size. lia.
    + unfold tx_enc, tx_body. cbn [t_type t_net_id t_from t_to t_amount t_nonce t_payload t_sig].
      rewrite Hs, <- !app_assoc. rewrite Ev. f_equal. rewrite Ev0. f_equal. rewrite Ev1. f_equal.
      rewrite Ev2. f_equal. rewrite Ev3. f_equal. rewrite Ev4. f_equal. rewrite Ev5. f_equal.
      rewrite Ev6. f_equal. rewrite Ev7. done.
    + rewrite !adv_adv. f_equal. unfold tx_enc, tx_body. cbn. rewrite !length_app, !length_le. lia.
Qed.

#[export] Instance header_codec : Codec header_enc header_parse wf_header.
Proof.
  split.
  - intros r h rest Hr Hw E. unfold header_enc in E. rewrite <- !app_assoc in E.
    unfold header_parse.
    codec_forward; [by apply wf_h_version|]. codec_forward; [by apply wf_h_net_id|].
    codec_forward; [by apply wf_h_prev|]. codec_forward; [by apply wf_h_merkle|].
    codec_forward; [by apply wf_h_height|]. codec_forward; [by apply wf_h_time|].
    codec_forward; [by apply wf_h_bits|]. codec_forward; [by apply wf_h_nonce|].
    rewrite !adv_adv. unfold mret, parser_ret. destruct h.
    do 2 f_equal. f_equal. unfold header_enc. cbn. rewrite !length_app, !length_le. lia.
  - intros r h r' Hr H. unfold header_parse in H.
    do 8 codec_backward H. apply mret_inv in H as [<- <-]. split_and!.
    + by constructor.
    + unfold header_enc. cbn [h_version h_net_id h_prev h_merkle h_height h_time h_bits h_nonce].
      rewrite <- !app_assoc. rewrite Ev. f_equal. rewrite Ev0. f_equal. rewrite Ev1. f_equal.
      rewrite Ev2. f_equal. rewrite Ev3. f_equal. rewrite Ev4. f_equal. rewrite Ev5. f_equal.
      done.
    + rewrite !adv_adv. f_equal. unfold header_enc. cbn. rewrite !length_app, !length_le. lia.
Qed.

(** The transactions of a block, one after the other. *)
Definition txs_enc (ts : list Tx) : bytes := concat (map tx_enc ts).

#[export] Instance txs_codec n :
  Codec txs_enc (txs_parse n) (λ ts, length ts = n ∧ Forall wire_tx ts).
Proof.
  induction n as [|n IH]; split.
  - intros r [|t ts] rest Hr [Hl _] E; [|done]. cbn. by rewrite adv_0.
  - intros r ts r' Hr [<- <-]%mret_inv. cbn. by rewrite adv_0.
  - intros r [|t ts] rest Hr [Hl Hw] E; [done|]. injection Hl as Hl.
    inversion Hw as [|?? Ht Hts]; subst. cbn [txs_parse].
    change (txs_enc (t :: ts)) with (tx_enc t ++ txs_enc ts) in *. rewrite <- app_assoc in E.
    codec_forward; [done|]. codec_forward; [done|]. rewrite adv_adv, <- Nat2Z.inj_add.
    by rewrite <- length_app.
  - intros r ts r' Hr H. cbn [txs_parse] in H. do 2 codec_backward H.
    apply mret_inv in H as [<- <-]. destruct Hwf0 as [<- Hts].
    change (txs_enc (a :: a0)) with (tx_enc a ++ txs_enc a0). split_and!.
    + done.
    + by constructor.
    + rewrite <- app_assoc, Ev. by rewrite Ev0 at 1.
    + by rewrite adv_adv, <- Nat2Z.inj_add, <- length_app.
Qed.

#[global] Arguments tx_enc : simpl never.
#[global] Arguments header_enc : simpl never.

(** ** Blocks *)

Lemma wire_block_size b : wire_block b → u32 (size (b_txs b)) = size (b_txs b).
Proof.
  intros (_ & _ & Hs). apply wrap_small. unfold in_width, size, MAX_BLOCK_TXS in *.
  change (2 ^ 32) with 4294967296. lia.
Qed.

Lemma wf_tx_enc t : wf_tx t → wf_bytes (tx_enc t).
Proof.
  intros []. unfold tx_enc, tx_body. rewrite !wf_bytes_app.
  split_and!; eauto using wf_le with chainlite.
Qed.

Lemma wf_header_enc h : wf_header h → wf_bytes (header_enc h).
Proof.
  intros []. unfold header_enc. rewrite !wf_bytes_app.
  split_and!; eauto using wf_le with chainlite.
Qed.

Lemma wf_txs_enc ts : Forall wire_tx ts → wf_bytes (txs_enc ts).
Proof.
  unfold txs_enc. induction 1 as [|t ts [Ht _] Hts IH]; cbn [map concat]; [constructor|].
  apply wf_bytes_app. split; [by apply wf_tx_enc|done].
Qed.

Lemma wf_block_serialize b : wire_block b → wf_bytes (block_serialize b).
Proof.
  intros (Hh & Ht & _). rewrite block_serialize_enc, !wf_bytes_app.
  split_and!; [by apply wf_header_enc|apply wf_le|by apply wf_txs_enc].
Qed.

Lemma block_body_run r b : wfr r → wire_block b → view r = block_serialize b →
  ∃ r', block_body r = Ok (Some b, r').
Proof.
  intros Hr Hb E. rewrite block_serialize_enc, (wire_block_size b Hb) in E.
  destruct Hb as (Hh & Ht & Hs). fold (txs_enc (b_txs b)) in E.
  rewrite <- (app_nil_r (txs_enc _)) in E. eexists. unfold block_body.
  codec_forward; [done|].
  codec_forward; [split; [unfold size; lia|]; unfold size, MAX_BLOCK_TXS in *;
    change (2 ^ 32) with 4294967296; lia|].
  rewrite Z.gtb_ltb, (proj2 (Z.ltb_ge _ _)) by done.
  unfold size at 1. rewrite Nat2Z.id.
  codec_forward; [done|]. rewrite advance_run.
  rewrite (proj2 (remaining_0 _ ltac:(eassumption))) by done. destruct b. reflexivity.
Qed.

Lemma block_body_inv r b r' : wfr r → block_body r = Ok (Some b, r') →
  wire_block b ∧ view r = block_serialize b.
Proof.
  intros Hr H. unfold block_body in H. do 2 codec_backward H.
  rewrite Z.gtb_ltb in H. case_match; [done|]. bool_props.
  destruct (Z_of_nat_complete a0) as [n ->]; [apply Hwf0|]. rewrite Nat2Z.id in H.
  codec_backward H. rewrite advance_run in H.
  case_match eqn:Hrem; [done|]. bool_props. apply remaining_0 in Hrem; [|done].
  injection H as <- _. destruct Hwf1 as [<- Ht]. split.
  - split_and!; done.
  - rewrite block_serialize_enc. cbn [b_h b_txs]. rewrite wrap_small by done.
    rewrite Ev. f_equal. rewrite Ev0. f_equal. rewrite Ev1, Hrem, app_nil_r. done.
Qed.

Lemma block_parse_serialize b : wire_block b → block_parse (block_serialize b) = Some b.
Proof.
  intros Hb. unfold block_parse.
  destruct (block_body_run (reader_of (block_serialize b)) b) as [r' ->]; try done.
  by apply wfr_reader_of, wf_block_serialize.
Qed.

Lemma block_parse_inv raw b : wf_bytes raw → block_parse raw = Some b →
  wire_block b ∧ raw = block_serialize b.
Proof.
  intros Hraw. unfold block_parse.
  destruct (block_body _) as [[ob r']|e] eqn:E; [|done]. intros ->.
  apply block_body_inv in E as [Hb Hv]; [|by apply wfr_reader_of].
  by rewrite view_reader_of in Hv.
Qed.

(** ** Injectivity of the encodings *)

Lemma tx_enc_inj t u : wire_tx t → wire_tx u → tx_enc t = tx_enc u → t = u.
Proof.
  intros Ht Hu E.
  assert (∀ v, wire_tx v → tx_parse (reader_of (tx_enc v)) =
    Ok (v, adv (reader_of (tx_enc v)) (Z.of_nat (length (tx_enc v))))) as Hp.
  { intros v Hv. eapply codec_dec with (rest := []); [|done|].
    - apply wfr_reader_of, wf_tx_enc, Hv.
    - by rewrite view_reader_of, app_nil_r. }
  pose proof (Hp t Ht) as H1. rewrite E, (Hp u Hu) in H1. congruence.
Qed.

Lemma header_enc_inj h k : wf_header h → wf_header k → header_enc h = header_enc k → h = k.
Proof.
  intros Hh Hk E.
  assert (∀ v, wf_header v → header_parse (reader_of (header_enc v)) =
    Ok (v, adv (reader_of (header_enc v)) (Z.of_nat (length (header_enc v))))) as Hp.
  { intros v Hv. eapply codec_dec with (rest := []); [|done|].
    - by apply wfr_reader_of, wf_header_enc.
    - by rewrite view_reader_of, app_nil_r. }
  pose proof (Hp h Hh) as H1. rewrite E, (Hp k Hk) in H1. congruence.
Qed.

Lemma length_header_enc h : wf_header h → length (header_enc h) = 100%nat.
Proof.
  intros []. unfold header_enc. rewrite !length_app, !length_le.
  rewrite (wf_array_length 32 (h_prev h)), (wf_array_length 32 (h_merkle h)) by done. done.
Qed.

Lemma length_tx_enc_le t : wire_tx t → (length (tx_enc t) ≤ 1195)%nat.
Proof.
  intros [[] Hp]. unfold tx_enc, tx_body. rewrite !length_app, !length_le.
  rewrite (wf_array_length 64 (t_from t)), (wf_array_length 20 (t_to t)),
    (wf_array_length 64 (t_sig t)) by done. unfold size, MAX_PAYLOAD in Hp. lia.
Qed.

Lemma length_txs_enc_le ts : Forall wire_tx ts →
  (length (concat (map tx_enc ts)) ≤ 1195 * length ts)%nat.
Proof.
  induction 1 as [|t ts Ht _ IH]; cbn [map concat length]; [done|].
  rewrite length_app. pose proof (length_tx_enc_le t Ht). lia.
Qed.

(** A block is less than 6 MiB on the wire. *)
Lemma length_block_le b : wire_block b → size (block_serialize b) ≤ 104 + 1195 * 5000.
Proof.
  intros (Hh & Ht & Hs). unfold size in *. rewrite block_serialize_enc, !length_app, length_le.
  rewrite length_header_enc by done. pose proof (length_txs_enc_le _ Ht). unfold MAX_BLOCK_TXS in Hs. lia.
Qed.

(** A transaction is longer than the 64-byte input of an inner Merkle node. *)
Lemma length_tx_enc t : wf_tx t → (171 ≤ length (tx_enc t))%nat.
Proof.
  intros []. unfold tx_enc, tx_body. rewrite !length_app, !length_le.
  rewrite (wf_array_length 64 (t_from t)), (wf_array_length 20 (t_to t)),
    (wf_array_length 64 (t_sig t)) by done. lia.
Qed.

Section hash_lemmas.
Context `{HF : HashFn}.

Lemma txid_enc t : txid t = hash256d (tx_enc t).
Proof. unfold txid. rewrite tx_ser_app, app_nil_l. reflexivity. Qed.

Lemma header_hash_enc h : header_hash h = hash256d (header_enc h).
Proof. unfold header_hash. rewrite header_ser_app, app_nil_l. reflexivity. Qed.

Lemma wf_txid t : wf_array 32 (txid t).
Proof. apply wf_hash256d. Qed.

Lemma wf_header_hash h : wf_array 32 (header_hash h).
Proof. apply wf_hash256d. Qed.

Lemma txid_inj K t u : tx_enc t ∈ K → tx_enc u ∈ K → wire_tx t → wire_tx u → txid t = txid u →
  t = u ∨ collision K.
Proof.
  intros H1 H2 Ht Hu E. rewrite !txid_enc in E. apply (hash256d_inj K) in E as [E|?]; [|by right|done..].
  left. by apply tx_enc_inj.
Qed.

Lemma header_hash_inj K h k : header_enc h ∈ K → header_enc k ∈ K → wf_header h → wf_header k →
  header_hash h = header_hash k → h = k ∨ collision K.
Proof.
  intros H1 H2 Hh Hk E. rewrite !header_hash_enc in E.
  apply (hash256d_inj K) in E as [E|?]; [|by right|done..]. left. by apply header_enc_inj.
Qed.
End hash_lemmas.

#[export] Hint Resolve wf_txid wf_header_hash : chainlite.

(** C28: a block has exactly one wire form. [Block::parse] accepts a byte string as a
    block exactly when it is what [serialize] writes for a block whose transactions
    and their number are within the limits; in particular parsing a serialized block
    gives it back, nothing may follow it, and two byte strings never parse to the
    same block. *)
Theorem block_wire_form raw b : wf_bytes raw →
  block_parse raw = Some b ↔ wire_block b ∧ raw = block_serialize b.
Proof.
  intros Hw. split; [by apply block_parse_inv|]. intros [Hb ->]. by apply block_parse_serialize.
Qed.

(** C29: the signed digest covers a whole transaction. Two transactions with the
    same [sign_hash] differ at most in the signature, so a signature cannot be moved
    to a transaction with another network, type, recipient, amount, nonce or
    payload; and the transaction id covers the signature too. (Unless the strings that
    are hashed for the two collide.) *)
Theorem sign_hash_covers `{HF : HashFn} t u : wire_tx t → wire_tx u →
  (sign_hash t = sign_hash u →
    (t_type t = t_type u ∧ t_net_id t = t_net_id u ∧ t_from t = t_from u ∧ t_to t = t_to u ∧
     t_amount t = t_amount u ∧ t_nonce t = t_nonce u ∧ t_payload t = t_payload u) ∨ collision [tx_body t; tx_body u]) ∧
  (txid t = txid u → t = u ∨ collision [tx_serialize t; tx_serialize u]).
Proof.
  intros Ht Hu. split.
  2:{ rewrite !tx_serialize_enc. apply txid_inj; try done; [left|right; left]. }
  unfold sign_hash. rewrite !tx_ser_app, !app_nil_l, !app_nil_r.
  intros [E|?]%(hash256d_inj [tx_body t; tx_body u]); [left|by right|left|right; left].
  (* with a common signature the encodings are equal *)
  set (sg t := mkTx (t_type t) (t_net_id t) (t_from t) (t_to t) (t_amount t) (t_nonce t)
                 (t_payload t) (replicate 64 0)).
  assert (∀ x, wire_tx x → wire_tx (sg x)) as Hsg.
  { intros x [[] ?]. split; [|done]. split; try done. split; [done|by apply Forall_replicate]. }
  assert (sg t = sg u) as Es.
  { apply tx_enc_inj; [by apply Hsg..|]. unfold tx_enc. by change (tx_body (sg t)) with (tx_body t); rewrite E. }
  by injection Es.
Qed.
