(* ===== verification/Ledger.v ===== *)
(** * Ledger: accounts and [apply_tx] of [src/core.h]

    A [State] is a finite map from addresses to accounts. [operator[]] of the
    [std::map] inserts a default account, also on the paths that then fail, so
    [apply_tx] returns the state in every case. States that differ only by default
    accounts are equivalent ([≡]), and the operations respect the equivalence. *)

From S2P Require Import Prelude Hex Serial Hash Crypto Tx.

Local Open Scope Z_scope.

(** ** Accounts *)

Record Account := mkAccount { balance : Z; nonce : Z }.

#[export] Instance account_eq_dec : EqDecision Account.
Proof. solve_decision. Defined.

Definition Account_default : Account := mkAccount 0 0.

(** [std::map<Addr20, Account>] *)
Abbreviation State := (gmap (list Z) Account).

(** The account that [st[a]] or [st.find(a)] shows, default when absent. *)
Definition acct (st : State) (a : bytes) : Account := default Account_default (st !! a).

(** [st[a]]: a reference to the account, inserted when absent. *)
Definition touch (st : State) (a : bytes) : State :=
  match st !! a with
  | Some _ => st
  | None => <[a := Account_default]> st
  end.

Definition set_balance (st : State) (a : bytes) (v : Z) : State :=
  let st := touch st a in <[a := mkAccount v (nonce (acct st a))]> st.

Definition set_nonce (st : State) (a : bytes) (v : Z) : State :=
  let st := touch st a in <[a := mkAccount (balance (acct st a)) v]> st.

(** [st[a].balance += v], on 64 bits. *)
Definition credit (st : State) (a : bytes) (v : Z) : State :=
  set_balance st a (u64 (balance (acct st a) + v)).

Definition debit (st : State) (a : bytes) (v : Z) : State :=
  set_balance st a (u64 (balance (acct st a) - v)).

(** [acct.nonce++] *)
Definition bump (st : State) (a : bytes) : State :=
  set_nonce st a (u64 (nonce (acct st a) + 1)).

(** ** apply_tx *)

Section apply.
Context `{HF : HashFn} `{CN : Cng}.

Definition apply_tx (st : State) (t : Tx) (p : Params) (height : Z) (is_first : bool)
    : State * string :=
  if negb (t_net_id t =? p_net_id p) then (st, "wrong network id")
  else if t_type t =? TX_COINBASE then
    if negb is_first then (st, "coinbase must be first tx")
    else if negb (is_zero (t_from t)) || negb (is_zero (t_sig t))
      then (st, "coinbase must have zero from/sig")
    else if negb (size (t_payload t) =? 0) then (st, "coinbase payload not allowed")
    else if negb (t_amount t =? p_reward p) then (st, "bad coinbase amount")
    else if negb (t_nonce t =? height) then (st, "coinbase nonce must equal height")
    else (credit st (t_to t) (t_amount t), "")
  else if is_first then (st, "first tx must be coinbase")
  else if is_zero (t_from t) then (st, "missing sender")
  else if negb (sig_verify (t_from t) (sign_hash t) (t_sig t)) then (st, "bad signature")
  else
    let a := addr_of (t_from t) in
    let st := touch st a in
    if negb (t_nonce t =? nonce (acct st a)) then
      (st, "bad nonce (want " +:+ pretty (nonce (acct st a)) +:+ " got " +:+
           pretty (t_nonce t) +:+ ")")
    else if t_type t =? TX_TRANSFER then
      if negb (size (t_payload t) =? 0) then (st, "transfer payload not allowed")
      else if balance (acct st a) <? t_amount t then (st, "insufficient balance")
      else
        let st := debit st a (t_amount t) in
        let st := credit st (t_to t) (t_amount t) in
        (bump st a, "")
    else if t_type t =? TX_RECORD then
      if negb (t_amount t =? 0) then (st, "record amount must be 0")
      else if (size (t_payload t) =? 0) || (size (t_payload t) >? MAX_PAYLOAD)
        then (st, "bad payload size")
      else (bump st a, "")
    else (st, "unknown tx type").

(** The loop of [connect_block] over the transactions: the first one is at index
    [i]; it stops at the first error. *)
Fixpoint apply_txs (st : State) (txs : list Tx) (p : Params) (height : Z) (i : nat)
    : State * string :=
  match txs with
  | [] => (st, "")
  | t :: txs =>
      let '(st, err) := apply_tx st t p height (bool_decide (i = 0%nat)) in
      if negb (bool_decide (err = "")) then (st, "tx " +:+ pretty i +:+ ": " +:+ err)
      else apply_txs st txs p height (S i)
  end.
End apply.

(** ** States up to default accounts *)

#[export] Instance state_equiv : Equiv State := λ s1 s2, ∀ a, acct s1 a = acct s2 a.

#[export] Instance state_equivalence : Equivalence (≡@{State}).
Proof. split; [by intros ??|by intros ????|intros x y z H1 H2 a; by transitivity (acct y a)]. Qed.

#[export] Instance acct_proper : Proper ((≡) ==> (=) ==> (=)) acct.
Proof. intros s1 s2 E a ? <-. apply E. Qed.

Lemma acct_insert st a b v : acct (<[a := v]> st) b = if decide (a = b) then v else acct st b.
Proof.
  unfold acct. case_decide as E; [subst; by rewrite lookup_insert_eq|by rewrite lookup_insert_ne].
Qed.

Lemma touch_equiv st a : touch st a ≡ st.
Proof.
  intros b. unfold touch. destruct (st !! a) eqn:E; [done|].
  rewrite acct_insert. case_decide; [|done]. subst. unfold acct. by rewrite E.
Qed.

Lemma acct_touch st a b : acct (touch st a) b = acct st b.
Proof. apply touch_equiv. Qed.

Lemma acct_set_balance st a v b :
  acct (set_balance st a v) b =
    if decide (a = b) then mkAccount v (nonce (acct st a)) else acct st b.
Proof. unfold set_balance. by rewrite acct_insert, !acct_touch. Qed.

Lemma acct_set_nonce st a v b :
  acct (set_nonce st a v) b =
    if decide (a = b) then mkAccount (balance (acct st a)) v else acct st b.
Proof. unfold set_nonce. by rewrite acct_insert, !acct_touch. Qed.

Lemma acct_credit st a v b :
  acct (credit st a v) b =
    if decide (a = b) then mkAccount (u64 (balance (acct st a) + v)) (nonce (acct st a))
    else acct st b.
Proof. apply acct_set_balance. Qed.

Lemma acct_debit st a v b :
  acct (debit st a v) b =
    if decide (a = b) then mkAccount (u64 (balance (acct st a) - v)) (nonce (acct st a))
    else acct st b.
Proof. apply acct_set_balance. Qed.

Lemma acct_bump st a b :
  acct (bump st a) b =
    if decide (a = b) then mkAccount (balance (acct st a)) (u64 (nonce (acct st a) + 1))
    else acct st b.
Proof. apply acct_set_nonce. Qed.

Create Rewrite HintDb ledger.
#[export] Hint Rewrite acct_touch acct_credit acct_debit acct_bump : ledger.

#[export] Instance touch_proper : Proper ((≡) ==> (=) ==> (≡)) touch.
Proof. intros s1 s2 E a ? <- b. rewrite !acct_touch. apply E. Qed.

#[export] Instance credit_proper : Proper ((≡) ==> (=) ==> (=) ==> (≡)) credit.
Proof. intros s1 s2 E a ? <- v ? <- b. by rewrite !acct_credit, !E. Qed.

#[export] Instance debit_proper : Proper ((≡) ==> (=) ==> (=) ==> (≡)) debit.
Proof. intros s1 s2 E a ? <- v ? <- b. by rewrite !acct_debit, !E. Qed.

#[export] Instance bump_proper : Proper ((≡) ==> (=) ==> (≡)) bump.
Proof. intros s1 s2 E a ? <- b. by rewrite !acct_bump, !E. Qed.

(** The two ways a path of [apply_tx] ends. *)
Ltac reject :=
  cbn [negb orb]; let H := fresh in intros H; injection H as <- <-;
  right; split_and!; [|done|by rewrite ?touch_equiv].

Ltac accept :=
  cbn [negb orb]; let H := fresh in intros H; injection H as <- <-;
  left; split_and!; try done.

(** ** Specification of one transaction *)

Section spec.
Context `{HF : HashFn} `{CN : Cng}.

(** When a transaction is valid in a state. *)
Definition coinbase_ok (t : Tx) (p : Params) (height : Z) : Prop :=
  is_zero (t_from t) = true ∧ is_zero (t_sig t) = true ∧ t_payload t = [] ∧
  t_amount t = p_reward p ∧ t_nonce t = height.

Definition authentic (t : Tx) : Prop :=
  is_zero (t_from t) = false ∧ sig_verify (t_from t) (sign_hash t) (t_sig t) = true.

Definition body_ok (bal : Z) (t : Tx) : Prop :=
  t_type t = TX_TRANSFER ∧ t_payload t = [] ∧ t_amount t ≤ bal ∨
  t_type t = TX_RECORD ∧ t_amount t = 0 ∧ 0 < size (t_payload t) ≤ MAX_PAYLOAD.

Definition tx_ok (st : State) (t : Tx) (p : Params) (height : Z) (is_first : bool) : Prop :=
  t_net_id t = p_net_id p ∧
  if is_first then t_type t = TX_COINBASE ∧ coinbase_ok t p height
  else authentic t ∧ t_nonce t = nonce (acct st (addr_of (t_from t))) ∧
       body_ok (balance (acct st (addr_of (t_from t)))) t.

(** What a valid transaction does. *)
Definition tx_post (st : State) (t : Tx) : State :=
  if t_type t =? TX_COINBASE then credit st (t_to t) (t_amount t)
  else
    let a := addr_of (t_from t) in
    let st := if t_type t =? TX_TRANSFER
              then credit (debit st a (t_amount t)) (t_to t) (t_amount t) else st in
    bump st a.

#[export] Instance tx_post_proper : Proper ((≡) ==> (=) ==> (≡)) tx_post.
Proof. intros s1 s2 E t ? <-. unfold tx_post. repeat case_match; by rewrite E. Qed.

#[export] Instance tx_ok_proper :
  Proper ((≡) ==> (=) ==> (=) ==> (=) ==> (=) ==> iff) tx_ok.
Proof.
  intros s1 s2 E t ? <- p ? <- h ? <- f ? <-. unfold tx_ok. by rewrite E.
Qed.

Lemma size_0 (l : bytes) : size l = 0 ↔ l = [].
Proof. unfold size. split; [intros; apply nil_length_inv; lia|by intros ->]. Qed.

(** Every path of [apply_tx]: the transaction is valid and its effect is
    [tx_post], or it is not, there is an error text, and the accounts show what
    they showed before. *)
Lemma apply_tx_cases st t p height is_first st' err :
  apply_tx st t p height is_first = (st', err) →
  (tx_ok st t p height is_first ∧ err = "" ∧ st' ≡ tx_post st t) ∨
  (¬ tx_ok st t p height is_first ∧ err ≠ "" ∧ st' ≡ st).
Proof.
  unfold apply_tx, tx_ok, tx_post. cbv zeta. rewrite !acct_touch.
  destruct (Z.eqb_spec (t_net_id t) (p_net_id p)) as [Hn|Hn]; [|reject; by intros [? _]].
  destruct (Z.eqb_spec (t_type t) TX_COINBASE) as [Hc|Hc]; cbn [negb].
  - destruct is_first; [|reject; by intros (_ & _ & _ & [[? _]|[? _]]); rewrite Hc in *].
    unfold coinbase_ok.
    destruct (is_zero (t_from t)), (is_zero (t_sig t)); cbn [negb orb]; try (reject; naive_solver).
    destruct (Z.eqb_spec (size (t_payload t)) 0) as [Hp|Hp]; rewrite size_0 in Hp;
      [|reject; naive_solver].
    destruct (Z.eqb_spec (t_amount t) (p_reward p)); [|reject; naive_solver].
    destruct (Z.eqb_spec (t_nonce t) height); [|reject; naive_solver].
    accept.
  - destruct is_first; [reject; naive_solver|]. unfold authentic.
    destruct (is_zero (t_from t)); [reject; naive_solver|].
    destruct (sig_verify _ _ _); [|reject; naive_solver]. cbn [negb].
    destruct (Z.eqb_spec (t_nonce t) (nonce (acct st (addr_of (t_from t)))));
      [|reject; naive_solver]. cbn [negb]. unfold body_ok.
    destruct (Z.eqb_spec (t_type t) TX_TRANSFER) as [Ht|Ht].
    + destruct (Z.eqb_spec (size (t_payload t)) 0) as [Hp|Hp]; rewrite size_0 in Hp;
        [|reject; rewrite Ht; naive_solver].
      destruct (Z.ltb_spec (balance (acct st (addr_of (t_from t)))) (t_amount t)); cbn [negb].
      { reject. rewrite Ht. intros (_ & _ & _ & [(_ & _ & ?)|[? _]]); [lia|done]. }
      accept; [by left|]. by rewrite touch_equiv.
    + destruct (Z.eqb_spec (t_type t) TX_RECORD) as [Hr|Hr]; [|reject; naive_solver].
      destruct (Z.eqb_spec (t_amount t) 0); [|reject; naive_solver].
      destruct (Z.eqb_spec (size (t_payload t)) 0); [reject; naive_solver lia|].
      rewrite Z.gtb_ltb.
      destruct (Z.ltb_spec MAX_PAYLOAD (size (t_payload t))); [reject; naive_solver lia|].
      accept; [right|by rewrite touch_equiv]. split_and!; try done. unfold size in *. lia.
Qed.

Lemma apply_tx_success st t p height is_first st' :
  apply_tx st t p height is_first = (st', "") →
  tx_ok st t p height is_first ∧ st' ≡ tx_post st t.
Proof. intros [(? & _ & ?)|(_ & ? & _)]%apply_tx_cases; done. Qed.

Lemma apply_tx_run st t p height is_first :
  tx_ok st t p height is_first →
  ∃ st', apply_tx st t p height is_first = (st', "") ∧ st' ≡ tx_post st t.
Proof.
  intros Hok. destruct (apply_tx st t p height is_first) as [st' err] eqn:E.
  exists st'. by apply apply_tx_cases in E as [(_ & -> & ?)|(? & _)].
Qed.

Lemma apply_tx_failure st t p height is_first st' err :
  apply_tx st t p height is_first = (st', err) → err ≠ "" → st' ≡ st.
Proof. intros [(_ & ? & _)|(_ & _ & ?)]%apply_tx_cases; done. Qed.

(** ** Sequences of transactions *)

Inductive txs_ok (p : Params) (height : Z) : State → nat → list Tx → Prop :=
  | txs_ok_nil st i : txs_ok p height st i []
  | txs_ok_cons st i t ts :
      tx_ok st t p height (bool_decide (i = 0%nat)) →
      txs_ok p height (tx_post st t) (S i) ts →
      txs_ok p height st i (t :: ts).

Definition txs_post (st : State) (ts : list Tx) : State := foldl tx_post st ts.

Lemma txs_ok_equiv p height s1 s2 i ts : s1 ≡ s2 → txs_ok p height s1 i ts → txs_ok p height s2 i ts.
Proof.
  intros E H. revert s2 E. induction H as [|st i t ts Ht Hts IH]; intros s2 E; constructor.
  - by rewrite <- E.
  - apply IH. by rewrite E.
Qed.

#[export] Instance txs_post_proper : Proper ((≡) ==> (=) ==> (≡)) txs_post.
Proof.
  intros s1 s2 E ts ? <-. revert s1 s2 E. induction ts as [|t ts IH]; intros s1 s2 E; [done|].
  apply IH. by rewrite E.
Qed.

Lemma apply_txs_success st ts p height i st' : apply_txs st ts p height i = (st', "") →
  txs_ok p height st i ts ∧ st' ≡ txs_post st ts.
Proof.
  revert st i. induction ts as [|t ts IH]; intros st i H; cbn [apply_txs] in H.
  { injection H as <-. split; [constructor|done]. }
  destruct (apply_tx _ _ _ _ _) as [st1 err] eqn:E. case_bool_decide; [|done].
  subst err. apply apply_tx_success in E as [? E]. apply IH in H as [Hok Hp]. split.
  - constructor; [done|]. by apply (txs_ok_equiv _ _ st1).
  - rewrite Hp. exact (txs_post_proper _ _ E ts ts eq_refl).
Qed.

Lemma apply_txs_run st ts p height i : txs_ok p height st i ts →
  ∃ st', apply_txs st ts p height i = (st', "") ∧ st' ≡ txs_post st ts.
Proof.
  revert st i. induction ts as [|t ts IH]; intros st i H; [by exists st|].
  inversion H as [|???? Ht Hts]; subst. cbn [apply_txs].
  destruct (apply_tx_run _ _ _ _ _ Ht) as (st1 & -> & E1).
  rewrite bool_decide_eq_true_2 by done. cbn [negb].
  destruct (IH st1 (S i)) as (st2 & -> & E2); [by eapply txs_ok_equiv|].
  exists st2. split; [done|]. rewrite E2. exact (txs_post_proper _ _ E1 ts ts eq_refl).
Qed.
End spec.

(** ** Supply

    The sum of all balances. *)
Definition supply (st : State) : Z := map_fold (λ _ a s, balance a + s) 0 st.

(** Balances and nonces are 64-bit values. *)
Definition wf_state (st : State) : Prop :=
  map_Forall (λ _ a, in_width 64 (balance a) ∧ in_width 64 (nonce a)) st.

Lemma wf_acct st a : wf_state st → in_width 64 (balance (acct st a)) ∧ in_width 64 (nonce (acct st a)).
Proof.
  intros Hw. unfold acct. destruct (st !! a) eqn:E; [by apply (Hw a)|].
  simpl. split; split; done.
Qed.

Lemma wf_state_insert st a v : wf_state st → in_width 64 (balance v) → in_width 64 (nonce v) →
  wf_state (<[a := v]> st).
Proof. intros. by apply map_Forall_insert_2. Qed.

Lemma wf_touch st a : wf_state st → wf_state (touch st a).
Proof.
  intros. unfold touch. destruct (st !! a); [done|]. apply wf_state_insert; [done|..]; done.
Qed.

Lemma wf_set_balance st a v : wf_state st → in_width 64 v → wf_state (set_balance st a v).
Proof.
  intros Hw Hv. apply wf_state_insert; [by apply wf_touch|done|]. rewrite acct_touch.
  by apply wf_acct.
Qed.

Lemma wf_credit st a v : wf_state st → wf_state (credit st a v).
Proof. intros. apply wf_set_balance; [done|]. by apply wrap_in_width. Qed.

Lemma wf_debit st a v : wf_state st → wf_state (debit st a v).
Proof. intros. apply wf_set_balance; [done|]. by apply wrap_in_width. Qed.

Lemma wf_bump st a : wf_state st → wf_state (bump st a).
Proof.
  intros Hw. apply wf_state_insert; [by apply wf_touch| |by apply wrap_in_width].
  rewrite acct_touch. by apply wf_acct.
Qed.

#[export] Hint Resolve wf_touch wf_credit wf_debit wf_bump : ledger.

Lemma supply_insert st a v : supply (<[a := v]> st) = supply st - balance (acct st a) + balance v.
Proof.
  assert (∀ st v, st !! a = None → supply (<[a := v]> st) = supply st + balance v) as Hnew.
  { intros st' v' Hn. unfold supply. rewrite map_fold_insert_L by (done || intros; lia). lia. }
  unfold acct. destruct (st !! a) as [w|] eqn:E.
  - assert (supply st = supply (delete a st) + balance w) as ->.
    { rewrite <- Hnew by apply lookup_delete_eq. by rewrite insert_delete_id. }
    rewrite <- (insert_delete_eq st a v), Hnew by apply lookup_delete_eq. simpl. lia.
  - rewrite Hnew by done. simpl. lia.
Qed.

Lemma supply_touch st a : supply (touch st a) = supply st.
Proof.
  unfold touch. destruct (st !! a) eqn:E; [done|].
  rewrite supply_insert. unfold acct. rewrite E. simpl. lia.
Qed.

Lemma supply_set_balance st a v : supply (set_balance st a v) = supply st - balance (acct st a) + v.
Proof. unfold set_balance. by rewrite supply_insert, supply_touch, acct_touch. Qed.

Lemma supply_bump st a : supply (bump st a) = supply st.
Proof. unfold bump, set_nonce. rewrite supply_insert, supply_touch, acct_touch. simpl. lia. Qed.

Lemma supply_nonneg st : wf_state st → 0 ≤ supply st.
Proof.
  unfold wf_state, supply. induction st as [|a v st Hn IH] using map_ind; intros Hw.
  - by rewrite map_fold_empty.
  - rewrite map_fold_insert_L by (done || intros; lia).
    apply map_Forall_insert in Hw as [[[? _] _] Hw]; [|done]. specialize (IH Hw). lia.
Qed.

(** The supply and the widths only depend on what the accounts show. *)
Lemma supply_delete st a : supply st = supply (delete a st) + balance (acct st a).
Proof.
  destruct (st !! a) as [v|] eqn:E.
  - rewrite <- (insert_delete_id st a v E) at 1. rewrite supply_insert.
    unfold acct. rewrite lookup_delete_eq, E. simpl. lia.
  - unfold acct. rewrite delete_id, E by done. simpl. lia.
Qed.

Lemma acct_delete st a b : acct (delete a st) b = if decide (a = b) then Account_default else acct st b.
Proof.
  unfold acct. case_decide; [subst; by rewrite lookup_delete_eq|by rewrite lookup_delete_ne].
Qed.

#[export] Instance supply_proper : Proper ((≡) ==> (=)) supply.
Proof.
  intros s1. induction s1 as [|a v s1 Hn IH] using map_ind; intros s2 E.
  - assert (∀ a, acct s2 a = Account_default) as H0 by (intros b; by rewrite <- E).
    clear E. induction s2 as [|a v s2 Hn IH] using map_ind; [done|].
    rewrite supply_insert. pose proof (H0 a) as Ha. rewrite acct_insert, decide_True in Ha by done.
    subst v. rewrite <- IH.
    + unfold acct. rewrite Hn. cbn. by rewrite Z.sub_diag.
    + intros b. specialize (H0 b). rewrite acct_insert in H0. case_decide; [|done].
      subst. unfold acct. by rewrite Hn.
  - rewrite (supply_delete s2 a), supply_insert, <- (IH (delete a s2)).
    + rewrite <- E, acct_insert, decide_True by done. unfold acct. rewrite Hn. cbn. lia.
    + intros b. rewrite acct_delete. case_decide.
      * subst. unfold acct. by rewrite Hn.
      * rewrite <- E, acct_insert. by rewrite decide_False.
Qed.

Lemma wf_state_acct st :
  wf_state st ↔ ∀ a, in_width 64 (balance (acct st a)) ∧ in_width 64 (nonce (acct st a)).
Proof.
  split; [intros; by apply wf_acct|]. intros Hw a v Hv. specialize (Hw a).
  unfold acct in Hw. by rewrite Hv in Hw.
Qed.

#[export] Instance wf_state_proper : Proper ((≡) ==> iff) wf_state.
Proof. intros s1 s2 E. rewrite !wf_state_acct. by setoid_rewrite E. Qed.

(** No account holds more than the supply. *)
Lemma balance_le_supply st a : wf_state st → balance (acct st a) ≤ supply st.
Proof.
  intros Hw. assert (0 ≤ supply (delete a st)) by by apply supply_nonneg, map_Forall_delete.
  rewrite (supply_delete st a). lia.
Qed.

(** Modulo [2 ^ 64] the balances always add up; below [2 ^ 64] nothing wraps. *)
Lemma supply_credit_mod st a v : u64 (supply (credit st a v)) = u64 (supply st + v).
Proof.
  unfold credit. rewrite supply_set_balance, wrap_add_r. f_equal. lia.
Qed.

Lemma supply_debit_mod st a v : u64 (supply (debit st a v)) = u64 (supply st - v).
Proof.
  unfold debit. rewrite supply_set_balance, wrap_add_r. f_equal. lia.
Qed.

Lemma supply_credit st a v : wf_state st → 0 ≤ v → supply st + v < 2 ^ 64 →
  supply (credit st a v) = supply st + v.
Proof.
  intros Hw Hv Hs. unfold credit. rewrite supply_set_balance.
  pose proof (balance_le_supply st a Hw). destruct (wf_acct st a Hw) as [[Hb _] _].
  rewrite wrap_small by (unfold in_width; lia). lia.
Qed.

Lemma supply_debit st a v : wf_state st → 0 ≤ v ≤ balance (acct st a) →
  supply (debit st a v) = supply st - v.
Proof.
  intros Hw Hv. unfold debit. rewrite supply_set_balance.
  destruct (wf_acct st a Hw) as [Hb _]. unfold in_width in Hb.
  rewrite wrap_small by (unfold in_width; lia). lia.
Qed.

(** What a transaction adds to the supply. *)
Definition minted (t : Tx) : Z := if t_type t =? TX_COINBASE then t_amount t else 0.

Section supply.
Context `{HF : HashFn} `{CN : Cng}.

Lemma wf_tx_post st t : wf_state st → wf_state (tx_post st t).
Proof. intros. unfold tx_post. repeat case_match; auto with ledger. Qed.

Lemma supply_tx_post_mod st t : u64 (supply (tx_post st t)) = u64 (supply st + minted t).
Proof.
  unfold tx_post, minted. case_match; [apply supply_credit_mod|].
  rewrite supply_bump, Z.add_0_r. case_match; [|done].
  rewrite supply_credit_mod, <- wrap_add_l, supply_debit_mod, wrap_add_l. f_equal. lia.
Qed.

Lemma supply_tx_post st t p height is_first : wf_state st → wf_tx t →
  tx_ok st t p height is_first → supply st + minted t < 2 ^ 64 →
  supply (tx_post st t) = supply st + minted t.
Proof.
  intros Hw [_ _ _ _ [Ha _] _ _ _] [_ Hok] Hs. unfold tx_post, minted in *.
  case_match eqn:Hc; [by apply supply_credit|]. bool_props.
  destruct is_first; [by destruct Hok|]. destruct Hok as (_ & _ & Hbody).
  rewrite supply_bump. case_match eqn:Ht; [|lia]. bool_props.
  destruct Hbody as [(_ & _ & Hle)|[Hr _]]; [|by rewrite Ht in Hr].
  pose proof (supply_debit st (addr_of (t_from t)) (t_amount t) Hw (conj Ha Hle)) as Hd.
  rewrite supply_credit by (auto with ledger lia). lia.
Qed.

(** Coins created by a list of transactions. *)
Definition minted_by (ts : list Tx) : Z := foldr (λ t s, minted t + s) 0 ts.

Lemma supply_txs_post_mod st ts : u64 (supply (txs_post st ts)) = u64 (supply st + minted_by ts).
Proof.
  revert st. induction ts as [|t ts IH]; intros st; [by rewrite Z.add_0_r|].
  change (txs_post st (t :: ts)) with (txs_post (tx_post st t) ts).
  rewrite IH, <- wrap_add_l, supply_tx_post_mod, wrap_add_l. cbn [minted_by foldr].
  fold (minted_by ts). f_equal. lia.
Qed.

Lemma minted_by_nonneg ts : Forall wf_tx ts → 0 ≤ minted_by ts.
Proof.
  induction 1 as [|t ts [_ _ _ _ [Ha _] _ _ _] _ IH]; cbn [minted_by foldr]; [done|].
  fold (minted_by ts). unfold minted. case_match; lia.
Qed.

Lemma supply_txs_post p height st i ts : wf_state st → Forall wf_tx ts →
  txs_ok p height st i ts → supply st + minted_by ts < 2 ^ 64 →
  supply (txs_post st ts) = supply st + minted_by ts.
Proof.
  intros Hw Ht H. revert Hw Ht. induction H as [st i|st i t ts Hok Hts IH]; intros Hw Ht Hs;
    [cbn; lia|]. apply Forall_cons in Ht as [Ht1 Ht].
  cbn [minted_by foldr] in *. fold (minted_by ts) in *. pose proof (minted_by_nonneg ts Ht).
  change (txs_post st (t :: ts)) with (txs_post (tx_post st t) ts).
  pose proof (supply_tx_post _ _ _ _ _ Hw Ht1 Hok ltac:(lia)) as E.
  rewrite IH; auto using wf_tx_post; lia.
Qed.

Lemma wf_txs_post st ts : wf_state st → wf_state (txs_post st ts).
Proof.
  revert st. induction ts as [|t ts IH]; intros st Hw; [done|]. apply IH, wf_tx_post, Hw.
Qed.
End supply.

(** ** Coinbases and nonces *)

Section nonces.
Context `{HF : HashFn} `{CN : Cng}.

(** Only the first transaction of a block is a coinbase. *)
Lemma txs_ok_no_coinbase p height st i ts : txs_ok p height st (S i) ts →
  Forall (λ t, t_type t ≠ TX_COINBASE) ts.
Proof.
  remember (S i) as j eqn:Hj. intros H. revert i Hj.
  induction H as [|st j t ts [_ Ht] _ IH]; intros k ->; constructor; [|by eapply IH].
  cbn in Ht. destruct Ht as (_ & _ & [(-> & _)|(-> & _)]); done.
Qed.

Lemma minted_no_coinbase ts : Forall (λ t, t_type t ≠ TX_COINBASE) ts → minted_by ts = 0.
Proof.
  induction 1 as [|t ts Ht _ IH]; cbn [minted_by foldr]; [done|]. fold (minted_by ts).
  unfold minted. rewrite (proj2 (Z.eqb_neq _ _) Ht). lia.
Qed.

Lemma txs_ok_minted p height st ts : ts ≠ [] → txs_ok p height st 0 ts →
  minted_by ts = p_reward p.
Proof.
  intros Hne H. inversion H as [|???? [_ Hc] Hts]; subst; [done|].
  cbn in Hc. destruct Hc as (Hty & _ & _ & _ & Ha & _).
  cbn [minted_by foldr]. fold (minted_by ts0). unfold minted.
  rewrite Hty, Z.eqb_refl, (minted_no_coinbase _ (txs_ok_no_coinbase _ _ _ _ _ Hts)). lia.
Qed.

(** The transactions an address sent. *)
Definition sent_by (a : bytes) (t : Tx) : Prop :=
  t_type t ≠ TX_COINBASE ∧ addr_of (t_from t) = a.

#[export] Instance sent_by_dec a t : Decision (sent_by a t).
Proof. unfold sent_by. apply _. Defined.

Definition nonces_of (a : bytes) (ts : list Tx) : list Z := map t_nonce (filter (sent_by a) ts).

(** [v], [v + 1], ... on 64 bits. *)
Definition nonce_seq (v : Z) (n : nat) : list Z := map (λ k, u64 (v + Z.of_nat k)) (seq 0 n).

Lemma nonce_seq_S v n : in_width 64 v → nonce_seq v (S n) = v :: nonce_seq (u64 (v + 1)) n.
Proof.
  intros Hv. unfold nonce_seq. cbn [seq map]. rewrite Z.add_0_r, wrap_small by done. f_equal.
  rewrite <- seq_shift, map_map. apply map_ext. intros k. rewrite wrap_add_l. f_equal. lia.
Qed.

Lemma nonce_seq_app v n m :
  nonce_seq v (n + m) = nonce_seq v n ++ nonce_seq (u64 (v + Z.of_nat n)) m.
Proof.
  unfold nonce_seq. rewrite seq_app, map_app. f_equal. rewrite Nat.add_0_l.
  rewrite <- (Nat.add_0_r n) at 1. rewrite <- (fmap_add_seq n 0 m).
  change (Nat.add n <$> seq 0 m) with (map (Nat.add n) (seq 0 m)). rewrite map_map. apply map_ext. intros k.
  rewrite wrap_add_l. f_equal. lia.
Qed.

Lemma acct_tx_post_nonce st t a :
  nonce (acct (tx_post st t) a) =
    if decide (sent_by a t) then u64 (nonce (acct st a) + 1) else nonce (acct st a).
Proof.
  unfold tx_post, sent_by. destruct (Z.eqb_spec (t_type t) TX_COINBASE) as [Hc|Hc].
  - rewrite decide_False by naive_solver. rewrite acct_credit. by case_decide; subst.
  - rewrite acct_bump. case_decide as Ha.
    + rewrite decide_True by done. cbn [nonce]. subst.
      case_match; rewrite ?acct_credit, ?acct_debit; repeat case_decide; subst; done.
    + rewrite decide_False by naive_solver.
      case_match; rewrite ?acct_credit, ?acct_debit; repeat case_decide; subst; congruence || done.
Qed.

(** The nonces of an address's transactions count up from its account's nonce. *)
Lemma txs_ok_nonces p height st i ts a : wf_state st → txs_ok p height st i ts →
  nonces_of a ts = nonce_seq (nonce (acct st a)) (length (nonces_of a ts)) ∧
  nonce (acct (txs_post st ts) a) = u64 (nonce (acct st a) + size (nonces_of a ts)).
Proof.
  intros Hw H. revert Hw. induction H as [st i|st i t ts Ht Hts IH]; intros Hw.
  { split; [done|]. cbn. rewrite Z.add_0_r, wrap_small; [done|]. by apply wf_acct. }
  destruct (IH (wf_tx_post _ _ Hw)) as [IH1 IH2]. clear IH.
  change (txs_post st (t :: ts)) with (txs_post (tx_post st t) ts).
  rewrite acct_tx_post_nonce in *. unfold nonces_of in *. rewrite filter_cons.
  case_decide as Hs; [|done]. cbn [map]. unfold size in *. cbn [length]. split.
  - rewrite nonce_seq_S by by apply wf_acct. rewrite <- IH1. f_equal.
    destruct Ht as [_ Ht], Hs as [Hc <-]. destruct (bool_decide _); [by destruct Ht|].
    by destruct Ht as (_ & ? & _).
  - rewrite IH2, wrap_add_l. f_equal. lia.
Qed.

Lemma nonce_seq_NoDup v n : Z.of_nat n ≤ 2 ^ 64 → NoDup (nonce_seq v n).
Proof.
  intros Hn. apply NoDup_fmap_2_strong; [|apply NoDup_seq].
  intros x y Hx%elem_of_seq Hy%elem_of_seq E. unfold wrap in E.
  assert ((Z.of_nat x - Z.of_nat y) mod 2 ^ 64 = 0) as Hd.
  { replace (Z.of_nat x - Z.of_nat y) with ((v + Z.of_nat x) - (v + Z.of_nat y)) by lia.
    by rewrite Zminus_mod, E, Z.sub_diag. }
  apply Z.mod_divide in Hd as [q Hq]; [|done]. nia.
Qed.
End nonces.

(** ** Sequences without a coinbase *)

Section pending.
Context `{HF : HashFn} `{CN : Cng}.

(** Beyond the first transaction the index does not matter. *)
Lemma txs_ok_shift p h s i j ts : txs_ok p h s (S i) ts → txs_ok p h s (S j) ts.
Proof.
  remember (S i) as k eqn:Hk. intros H. revert i j Hk.
  induction H as [s k|s k t ts Ht Hts IH]; intros i j ->; constructor; [done|]. by eapply IH.
Qed.

(** Only a coinbase looks at the height. *)
Lemma txs_ok_height p h h' s i ts : txs_ok p h s (S i) ts → txs_ok p h' s (S i) ts.
Proof.
  remember (S i) as k eqn:Hk. intros H. revert i Hk.
  induction H as [s k|s k t ts Ht Hts IH]; intros i ->; constructor; [exact Ht|]. by eapply IH.
Qed.

Lemma txs_ok_app p h s i ts us : txs_ok p h s i ts →
  txs_ok p h (txs_post s ts) (i + length ts)%nat us → txs_ok p h s i (ts ++ us).
Proof.
  induction 1 as [s i|s i t ts Ht Hts IH]; cbn [length app]; intros Hu;
    [by rewrite Nat.add_0_r in Hu|].
  constructor; [done|]. apply IH. by rewrite Nat.add_succ_comm.
Qed.

Lemma txs_post_app s ts us : txs_post s (ts ++ us) = txs_post (txs_post s ts) us.
Proof. apply foldl_app. Qed.
End pending.

(** Debits and credits of amounts that are there do not wrap. *)
Lemma balance_debit s a v b : wf_state s → 0 ≤ v ≤ balance (acct s a) →
  balance (acct (debit s a v) b) = balance (acct s b) - (if decide (a = b) then v else 0).
Proof.
  intros Hw Hv. rewrite acct_debit. destruct (wf_acct s a Hw) as [[_ Hb] _]. case_decide; [subst|lia].
  cbn. rewrite wrap_small by (unfold in_width; lia). lia.
Qed.

Lemma balance_credit s a v b : wf_state s → 0 ≤ v → balance (acct s a) + v < 2 ^ 64 →
  balance (acct (credit s a v) b) = balance (acct s b) + (if decide (a = b) then v else 0).
Proof.
  intros Hw Hv Hs. rewrite acct_credit. destruct (wf_acct s a Hw) as [[Hb _] _]. case_decide; [subst|lia].
  cbn. rewrite wrap_small by (unfold in_width; lia). lia.
Qed.

Lemma nonce_debit s a v b : nonce (acct (debit s a v) b) = nonce (acct s b).
Proof. rewrite acct_debit. case_decide; by subst. Qed.

Lemma nonce_credit s a v b : nonce (acct (credit s a v) b) = nonce (acct s b).
Proof. rewrite acct_credit. case_decide; by subst. Qed.

Lemma transfer_balances `{HF : HashFn} `{CN : Cng} st t p h b : wf_state st → wf_tx t →
  supply st < 2 ^ 64 → t_type t = TX_TRANSFER → tx_ok st t p h false →
  let a := addr_of (t_from t) in
  balance (acct (tx_post st t) b) =
    balance (acct st b) - (if decide (b = a) then t_amount t else 0)
                        + (if decide (b = t_to t) then t_amount t else 0).
Proof.
  intros Hw Ht Hs Hty (_ & _ & _ & Hbody) a. unfold tx_post. rewrite Hty. cbn [Z.eqb TX_TRANSFER TX_COINBASE Pos.eqb].
  fold a in Hbody. fold a. destruct Hbody as [(_ & _ & Hle)|(E & _)]; [|by rewrite Hty in E].
  pose proof (wf_t_amount t Ht) as [Hnn _].
  pose proof (balance_le_supply (debit st a (t_amount t)) (t_to t) (wf_debit _ _ _ Hw)) as Hd.
  rewrite supply_debit in Hd by done.
  assert (∀ s, balance (acct (bump s a) b) = balance (acct s b)) as ->.
  { intros s. rewrite acct_bump. by case_decide; subst. }
  rewrite balance_credit; [rewrite balance_debit by done|by apply wf_debit|done|lia].
  destruct (decide (a = b)), (decide (b = a)), (decide (t_to t = b)), (decide (b = t_to t)); congruence || lia.
Qed.

(** ** Theorems *)

(** C11: [apply_tx] implements the rules of the ledger. It reports success exactly
    for a transaction that is valid in the state (network, coinbase rules, signature,
    the sender's next nonce, funds, payload), and then the accounts are those after
    the transaction; on each of its error paths every account shows what it showed
    before. *)
Theorem apply_tx_refines `{HF : HashFn} `{CN : Cng} st t p height is_first :
  let '(st', err) := apply_tx st t p height is_first in
  (err = "" ↔ tx_ok st t p height is_first) ∧
  (err = "" → st' ≡ tx_post st t) ∧ (err ≠ "" → st' ≡ st).
Proof.
  destruct (apply_tx st t p height is_first) as [st' err] eqn:E.
  destruct (apply_tx_cases _ _ _ _ _ _ _ E) as [(?&->&?)|(?&?&?)]; naive_solver.
Qed.

(** A valid transfer moves its amount and nothing else. The sender loses it, the
    recipient gains it, the sender's nonce advances by one and every other account
    is untouched; no balance wraps around as long as the supply fits 64 bits. *)
Lemma transfer_effect `{HF : HashFn} `{CN : Cng} st t p height :
  wf_state st → wf_tx t → supply st < 2 ^ 64 → t_type t = TX_TRANSFER →
  tx_ok st t p height false →
  let a := addr_of (t_from t) in
  ∃ st', apply_tx st t p height false = (st', "") ∧ supply st' = supply st ∧
    (∀ b, balance (acct st' b) = balance (acct st b) - (if decide (b = a) then t_amount t else 0)
                                   + (if decide (b = t_to t) then t_amount t else 0)) ∧
    (∀ b, nonce (acct st' b) = if decide (b = a) then u64 (nonce (acct st b) + 1) else nonce (acct st b)).
Proof.
  intros Hw Ht Hs Hty Hok a. destruct (apply_tx_run _ _ _ _ _ Hok) as (st' & E & Est).
  exists st'. split; [done|].
  assert (minted t = 0) as Hm by (unfold minted; by rewrite Hty).
  split_and!.
  - rewrite Est. erewrite supply_tx_post; [|done..|]; rewrite Hm; lia.
  - intros b. rewrite Est. by apply transfer_balances with p height.
  - intros b. rewrite Est, acct_tx_post_nonce. destruct (decide (b = a)) as [->|Hne].
    + rewrite decide_True; [done|]. split; [by rewrite Hty|done].
    + rewrite decide_False; [done|]. intros [_ E']. by apply Hne.
Qed.
