(* ===== verification/Store.v ===== *)
(** * Store: the SQLite interface the chain uses

    winsqlite3.dll is loaded at run time ([src/sqlite_shim.h]); its statements are
    run by a parameter. [Sqlite] is what the code calls, [SqliteSpec] states the
    documented behaviour of those statements on the [blocks] table, and [mem_db] is
    a database in memory that satisfies it. *)

From stdpp Require Import sorting.
From S2P Require Import Prelude Tx.

Local Open Scope Z_scope.

(** A [uint64_t] bound as a signed 64-bit column, [(long long)x]. *)
Definition i64 (x : Z) : Z := if x <? 2 ^ 63 then x else x - 2 ^ 64.

(** The statements of [Chain] with their bound values. *)
Inductive Stmt : Type :=
  | Exec (sql : string)
  | InsertBlock (height : Z) (hash prev : string) (time ntx : Z) (raw : bytes)
  | InsertTx (txid : string) (height idx type : Z) (from_addr to_addr : string)
      (amount nonce : Z) (payload : bytes)
  | DeleteBlocksFrom (h : Z)
  | DeleteTxsFrom (h : Z).

(** Running a statement gives the new database and whether the result code is
    [SQLITE_OK] or [SQLITE_DONE]; [sql_select] is
    "SELECT raw FROM blocks ORDER BY height". *)
Class Sqlite (D : Type) : Type := {
  sql_run : Stmt → D → D * bool;
  sql_select : D → option (list bytes);
  sql_errmsg : D → string;
}.

(** The texts the code executes directly. *)
Definition schema_texts : list string := [
  "PRAGMA journal_mode=WAL";
  "PRAGMA synchronous=NORMAL";
  "CREATE TABLE IF NOT EXISTS blocks(height INTEGER PRIMARY KEY, hash TEXT, prev TEXT, time INTEGER,ntx INTEGER, raw BLOB)";
  "CREATE TABLE IF NOT EXISTS txs(txid TEXT, height INTEGER, idx INTEGER, type INTEGER,from_addr TEXT, to_addr TEXT, amount INTEGER, nonce INTEGER, payload BLOB)"].

Definition code_texts : list string := "BEGIN IMMEDIATE" :: "COMMIT" :: schema_texts.

(** A statement whose result is not looked at. *)
Definition sql_do `{Sqlite D} (s : Stmt) (d : D) : D := (sql_run s d).1.

(** Rows in the order of their primary key. *)
Definition row_le (x y : Z * bytes) : Prop := x.1 ≤ y.1.

#[export] Instance row_le_dec x y : Decision (row_le x y).
Proof. unfold row_le. apply _. Defined.

Definition ordered_rows (m : gmap Z (list Z)) : list bytes :=
  map snd (merge_sort row_le (map_to_list m)).

(** No value is longer (the default of SQLITE_LIMIT_LENGTH). *)
Definition MAX_VALUE : Z := 1000000000.

(** The statements of the code, with values that fit. *)
Definition known (s : Stmt) : Prop :=
  match s with
  | Exec text => text ∈ code_texts
  | InsertBlock _ _ _ _ _ raw => size raw ≤ MAX_VALUE
  | InsertTx _ _ _ _ _ _ _ _ payload => size payload ≤ MAX_VALUE
  | _ => True
  end.

(** What the statements do to the [blocks] table. In a usable database the tables exist
    and statements succeed; it stays so. *)
Class SqliteSpec (D : Type) `{Sqlite D} : Type := {
  rows : D → gmap Z (list Z);
  usable : D → Prop;
  usable_run d s : usable d → known s → usable (sql_do s d);
  rows_exec d s : s ∈ code_texts → rows (sql_do (Exec s) d) = rows d;
  rows_insert_block d h hash prev time ntx raw : usable d → size raw ≤ MAX_VALUE →
    rows (sql_do (InsertBlock h hash prev time ntx raw) d) = <[h := raw]> (rows d);
  rows_insert_tx d txid h idx ty from to amount nonce payload : usable d → size payload ≤ MAX_VALUE →
    rows (sql_do (InsertTx txid h idx ty from to amount nonce payload) d) = rows d;
  rows_delete_blocks d h : usable d →
    rows (sql_do (DeleteBlocksFrom h) d) = filter (λ kv, kv.1 < h) (rows d);
  rows_delete_txs d h : usable d → rows (sql_do (DeleteTxsFrom h) d) = rows d;
  select_rows d : usable d → sql_select d = Some (ordered_rows (rows d));
}.

(** ** A database in memory *)

Definition mem_run (s : Stmt) (d : gmap Z (list Z)) : gmap Z (list Z) * bool :=
  match s with
  | InsertBlock h _ _ _ _ raw => (<[h := raw]> d, true)
  | DeleteBlocksFrom h => (filter (λ kv, kv.1 < h) d, true)
  | _ => (d, true)
  end.

#[export] Instance mem_db : Sqlite (gmap Z (list Z)) := {|
  sql_run := mem_run;
  sql_select d := Some (ordered_rows d);
  sql_errmsg _ := "not an error";
|}.

#[export] Instance mem_db_spec : SqliteSpec (gmap Z (list Z)).
Proof. by refine {| rows d := d; usable d := True |}. Defined.

(** ** Ordered rows *)

(** Consecutive rows in key order are read back in that order. *)
Definition rows_of_list (l : list bytes) : gmap Z (list Z) :=
  list_to_map (imap (λ i raw, (Z.of_nat i, raw)) l).

#[export] Instance row_le_total : Total row_le.
Proof. intros x y. unfold row_le. lia. Qed.

#[export] Instance row_le_trans : Transitive row_le.
Proof. intros x y z. unfold row_le. lia. Qed.

Lemma NoDup_row_keys (l : list bytes) : NoDup (imap (λ i raw, (Z.of_nat i, raw)) l).*1.
Proof.
  rewrite fmap_imap. apply NoDup_alt. intros j k x Hj Hk.
  rewrite list_lookup_imap in Hj, Hk.
  destruct (l !! j), (l !! k); simplify_eq/=; lia.
Qed.

Lemma rows_of_list_lookup l i : rows_of_list l !! Z.of_nat i = l !! i.
Proof.
  unfold rows_of_list. apply option_eq. intros raw.
  rewrite <- elem_of_list_to_map by apply NoDup_row_keys. rewrite list_elem_of_lookup.
  setoid_rewrite list_lookup_imap_Some.
  split.
  - intros (j & x & Hj & [= Hij ->]). apply Nat2Z.inj in Hij as ->. done.
  - intros Hi. by exists i, raw.
Qed.

Lemma rows_sorted (l : list bytes) j :
  StronglySorted row_le (imap (λ i raw, (Z.of_nat (i + j), raw)) l).
Proof.
  revert j. induction l as [|x l IH]; intros j; cbn [imap]; [constructor|]. constructor.
  - specialize (IH (S j)). erewrite imap_ext; [exact IH|].
    intros i y _. cbn. do 2 f_equal. lia.
  - apply Forall_lookup. intros i y Hi.
    apply list_lookup_imap_Some in Hi as (z & _ & ->).
    unfold row_le. cbn. lia.
Qed.

(** Two sorted permutations of rows with distinct keys are equal. *)
Lemma sorted_rows_unique l k : NoDup l.*1 → l ≡ₚ k →
  StronglySorted row_le l → StronglySorted row_le k → l = k.
Proof.
  intros Hn Hp Hl. revert k Hn Hp. induction Hl as [|x l Hl IH Hx]; intros k Hn Hp Hk.
  { by apply Permutation_nil_l in Hp as ->. }
  destruct k as [|y k]; [by apply Permutation_nil_r in Hp|].
  inversion Hk as [|?? Hk' Hy]; subst. apply NoDup_cons in Hn as [Hnx Hn].
  assert (x = y) as ->.
  { destruct (decide (x = y)) as [|Hne]; [done|].
    assert (y ∈ l) as Hyl.
    { assert (y ∈ x :: l) as H by (rewrite Hp; left). apply elem_of_cons in H as [|]; done. }
    assert (x ∈ k) as Hxk.
    { assert (x ∈ y :: k) as H by (rewrite <- Hp; left). apply elem_of_cons in H as [|]; done. }
    rewrite Forall_forall in Hx, Hy. specialize (Hx y Hyl). specialize (Hy x Hxk).
    exfalso. apply Hnx. apply list_elem_of_fmap. exists y. split; [|done].
    unfold row_le in *. lia. }
  f_equal. apply IH; [done| |done]. by apply Permutation_cons_inv in Hp.
Qed.

Lemma ordered_rows_list l : ordered_rows (rows_of_list l) = l.
Proof.
  unfold ordered_rows.
  assert (merge_sort row_le (map_to_list (rows_of_list l)) =
          imap (λ i raw, (Z.of_nat i, raw)) l) as ->.
  { symmetry. apply sorted_rows_unique.
    - apply NoDup_row_keys.
    - rewrite merge_sort_Permutation. unfold rows_of_list.
      by rewrite map_to_list_to_map by apply NoDup_row_keys.
    - pose proof (rows_sorted l 0) as H. erewrite imap_ext; [exact H|].
      intros i y _. cbn. do 2 f_equal. lia.
    - apply StronglySorted_merge_sort; apply _. }
  change (map snd) with (fmap (M := list) (snd (A := Z) (B := list Z))).
  rewrite fmap_imap. apply list_eq. intros i. rewrite list_lookup_imap. by destruct (l !! i).
Qed.

Lemma rows_of_list_neg l k : k < 0 → rows_of_list l !! k = None.
Proof.
  intros Hk. apply not_elem_of_list_to_map. intros (y & -> & Hy)%list_elem_of_fmap.
  apply list_elem_of_lookup in Hy as [j Hj].
  apply list_lookup_imap_Some in Hj as (x & _ & ->). cbn in Hk. lia.
Qed.

Lemma rows_of_list_spec l k :
  rows_of_list l !! k = if decide (0 ≤ k) then l !! Z.to_nat k else None.
Proof.
  case_decide; [|apply rows_of_list_neg; lia].
  rewrite <- rows_of_list_lookup. f_equal. lia.
Qed.

Lemma rows_of_list_snoc l x : rows_of_list (l ++ [x]) = <[size l := x]> (rows_of_list l).
Proof.
  apply map_eq. intros k. unfold size. destruct (decide (k = Z.of_nat (length l))) as [->|Hk].
  - by rewrite lookup_insert_eq, rows_of_list_lookup, list_lookup_middle.
  - rewrite lookup_insert_ne, !rows_of_list_spec by done. case_decide; [|done].
    destruct (decide (Z.to_nat k < length l)%nat); [by apply lookup_app_l|].
    rewrite !lookup_ge_None_2; [done|lia|rewrite length_app; cbn; lia].
Qed.

Lemma rows_of_list_cut l n :
  filter (λ kv, kv.1 < Z.of_nat n) (rows_of_list l) = rows_of_list (take n l).
Proof.
  apply map_eq. intros k. rewrite map_lookup_filter, !rows_of_list_spec.
  destruct (decide (0 ≤ k)); [|done]. destruct (decide (k < Z.of_nat n)).
  - rewrite lookup_take_lt by lia. destruct (l !! Z.to_nat k); [|done]. cbn.
    by rewrite option_guard_True.
  - rewrite lookup_take_ge by lia. destruct (l !! Z.to_nat k); [|done]. cbn.
    by rewrite option_guard_False.
Qed.

Lemma i64_small x : 0 ≤ x < 2 ^ 63 → i64 x = x.
Proof. intros. unfold i64. by rewrite (proj2 (Z.ltb_lt _ _)) by lia. Qed.
