(* ===== verification/Shim.v ===== *)
(** * Shim: the SQLite shim of [src/sqlite_shim.h]

    winsqlite3.dll is loaded at run time and its functions are called through pointers.
    [Winsqlite] is what the code gets from it: which functions there are, and what they do
    to the state [L] of the library (connections, prepared statements, tables). [Db] and
    [St] are the wrappers, [run_stmt] and [select_raws] the statements that the chain makes
    with them ([src/core.h]); [shim] is their packaging as the [Sqlite] of [Store]. *)

From S2P Require Import Prelude Tx Store.

Local Open Scope Z_scope.

Definition CL_SQLITE_OK : Z := 0.
Definition CL_SQLITE_ROW : Z := 100.
Definition CL_SQLITE_DONE : Z := 101.
Definition CL_SQLITE_OPEN_READWRITE : Z := 0x02.
Definition CL_SQLITE_OPEN_CREATE : Z := 0x04.

(** ** The library

    Handles are addresses, 0 is the null pointer. A function that gives a pointer to data
    gives the data, [None] for null. *)
Class Winsqlite (L : Type) : Type := {
  GetProcAddress : option (string → bool);
  sqlite3_open_v2 : string → Z → L → L * (Z * Z);
  sqlite3_close : Z → L → L;
  sqlite3_exec : Z → string → L → L * Z;
  sqlite3_prepare_v2 : Z → string → L → L * Z;
  sqlite3_step : Z → L → L * Z;
  sqlite3_finalize : Z → L → L;
  sqlite3_bind_int64 : Z → Z → Z → L → L;
  sqlite3_bind_text : Z → Z → string → Z → L → L;
  sqlite3_bind_blob : Z → Z → bytes → Z → L → L;
  sqlite3_column_int64 : Z → Z → L → Z;
  sqlite3_column_text : Z → Z → L → option string;
  sqlite3_column_blob : Z → Z → L → option bytes;
  sqlite3_column_bytes : Z → Z → L → Z;
  sqlite3_errmsg : Z → L → string;
  sqlite3_busy_timeout : Z → Z → L → L;
}.

(** Calls change the state of the library. *)
Definition Lib (L A : Type) : Type := L → L * A.

#[export] Instance lib_ret {L} : MRet (Lib L) := λ A a l, (l, a).
#[export] Instance lib_bind {L} : MBind (Lib L) := λ A B f c l, let '(l, a) := c l in f a l.

Definition call {L} (f : L → L) : Lib L unit := λ l, (f l, tt).
Definition ask {L A} (f : L → A) : Lib L A := λ l, (l, f l).

(** [(int)n] *)
Definition c_int (n : Z) : Z := let v := u32 n in if v <? 2 ^ 31 then v else v - 2 ^ 32.

(** ** Loading *)

(** The functions that [Api::ok] asks for; [busy_timeout] may be missing. *)
Definition api_names : list string :=
  ["sqlite3_open_v2"; "sqlite3_close"; "sqlite3_exec"; "sqlite3_prepare_v2"; "sqlite3_step";
   "sqlite3_finalize"; "sqlite3_bind_int64"; "sqlite3_bind_text"; "sqlite3_bind_blob";
   "sqlite3_column_int64"; "sqlite3_column_text"; "sqlite3_column_blob"; "sqlite3_column_bytes";
   "sqlite3_errmsg"].

Section shim.
Context {L : Type} `{W : Winsqlite L}.

(** [load] runs once; what it finds does not change. *)
Definition load : bool :=
  match GetProcAddress with
  | None => false
  | Some gp => forallb gp api_names
  end.

Definition has_busy_timeout : bool :=
  match GetProcAddress with
  | None => false
  | Some gp => gp "sqlite3_busy_timeout"
  end.

(** ** [Db] *)

Record Db := mkDb { db_h : Z }.

(** The handle is stored also when opening fails. *)
Definition db_open (db : Db) (path : string) : Lib L (Db * bool) :=
  if negb load then mret (db, false)
  else
    r ← sqlite3_open_v2 path (Z.lor CL_SQLITE_OPEN_READWRITE CL_SQLITE_OPEN_CREATE);
    let db := mkDb r.2 in
    if negb (r.1 =? CL_SQLITE_OK) then mret (db, false)
    else
      (if has_busy_timeout then call (sqlite3_busy_timeout (db_h db) 3000) else mret tt) ;;
      mret (db, true).

Definition db_exec (db : Db) (sql : string) : Lib L bool :=
  rc ← sqlite3_exec (db_h db) sql;
  mret (rc =? CL_SQLITE_OK).

Definition db_errmsg (db : Db) (l : L) : string :=
  if negb (db_h db =? 0) then sqlite3_errmsg (db_h db) l else "no db".

(** Also the destructor. *)
Definition db_close (db : Db) : Lib L Db :=
  if negb (db_h db =? 0) then call (sqlite3_close (db_h db)) ;; mret (mkDb 0) else mret db.

(** ** [Db::St] *)

Definition St_new (db : Db) (sql : string) : Lib L Z := sqlite3_prepare_v2 (db_h db) sql.
Definition St_delete (s : Z) : Lib L unit := if negb (s =? 0) then call (sqlite3_finalize s) else mret tt.
Definition St_ok (s : Z) : bool := negb (s =? 0).
Definition bind_i64 (s i v : Z) : Lib L unit := call (sqlite3_bind_int64 s i v).
Definition bind_text (s i : Z) (v : string) : Lib L unit :=
  call (sqlite3_bind_text s i v (c_int (Z.of_nat (String.length v)))).
Definition bind_blob (s i : Z) (v : bytes) : Lib L unit := call (sqlite3_bind_blob s i v (c_int (size v))).
Definition st_step (s : Z) : Lib L Z := sqlite3_step s.
Definition col_i64 (s i : Z) (l : L) : Z := sqlite3_column_int64 s i l.
Definition col_text (s i : Z) (l : L) : string := default "" (sqlite3_column_text s i l).
Definition col_blob (s i : Z) (l : L) : bytes :=
  let n := sqlite3_column_bytes s i l in
  match sqlite3_column_blob s i l with
  | Some p => if 0 <? n then take (Z.to_nat n) p else []
  | None => []
  end.

(** ** The statements of [Chain] *)

Definition insert_block_sql : string :=
  "INSERT OR REPLACE INTO blocks(height,hash,prev,time,ntx,raw) VALUES(?,?,?,?,?,?)".
Definition insert_tx_sql : string :=
  "INSERT INTO txs(txid,height,idx,type,from_addr,to_addr,amount,nonce,payload) VALUES(?,?,?,?,?,?,?,?,?)".
Definition delete_blocks_sql : string := "DELETE FROM blocks WHERE height>=?".
Definition delete_txs_sql : string := "DELETE FROM txs WHERE height>=?".
Definition select_sql : string := "SELECT raw FROM blocks ORDER BY height".

(** [St s(db, sql); if (s.ok()) { ...; s.step(); }] *)
Definition with_st (db : Db) (sql : string) (binds : Z → Lib L unit) : Lib L bool :=
  s ← St_new db sql;
  done ← (if St_ok s then binds s ;; rc ← st_step s; mret (rc =? CL_SQLITE_DONE) else mret false);
  St_delete s ;;
  mret done.

Definition run_stmt (db : Db) (st : Stmt) : Lib L bool :=
  match st with
  | Exec sql => db_exec db sql
  | InsertBlock height hash prev time ntx raw =>
      with_st db insert_block_sql (λ s,
        bind_i64 s 1 height ;;
        bind_text s 2 hash ;;
        bind_text s 3 prev ;;
        bind_i64 s 4 time ;;
        bind_i64 s 5 ntx ;;
        bind_blob s 6 raw)
  | InsertTx txid height idx type from_addr to_addr amount nonce payload =>
      with_st db insert_tx_sql (λ s,
        bind_text s 1 txid ;;
        bind_i64 s 2 height ;;
        bind_i64 s 3 idx ;;
        bind_i64 s 4 type ;;
        bind_text s 5 from_addr ;;
        bind_text s 6 to_addr ;;
        bind_i64 s 7 amount ;;
        bind_i64 s 8 nonce ;;
        bind_blob s 9 payload)
  | DeleteBlocksFrom h => with_st db delete_blocks_sql (λ s, bind_i64 s 1 h)
  | DeleteTxsFrom h => with_st db delete_txs_sql (λ s, bind_i64 s 1 h)
  end.

(** [while (q.step() == CL_SQLITE_ROW) raws.push_back(q.col_blob(0));]; [None] when the fuel
    is used up. *)
Fixpoint fetch (fuel : nat) (s : Z) (raws : list bytes) : Lib L (option (list bytes)) :=
  match fuel with
  | O => mret None
  | S fuel =>
      rc ← st_step s;
      if rc =? CL_SQLITE_ROW
      then raw ← ask (col_blob s 0); fetch fuel s (raws ++ [raw])
      else mret (Some raws)
  end.

(** [None]: the query failed. *)
Definition select_raws (fuel : nat) (db : Db) : Lib L (option (list bytes)) :=
  q ← St_new db select_sql;
  raws ← (if St_ok q then fetch fuel q [] else mret None);
  St_delete q ;;
  mret raws.
End shim.

Arguments Winsqlite : clear implicits.
