(* ===== verification/ShimSpec.v ===== *)
(** * ShimSpec: the shim over sqlite3 is the database the chain relies on

    [WinsqliteSpec] states what the documentation of sqlite3 says of the calls of the shim;
    from it the statements of the chain have the effects that [SqliteSpec] states. *)

From stdpp Require Import sorting.
From S2P Require Import Prelude Tx Store Shim.

Local Open Scope Z_scope.

(** ** Prepared statements *)

Inductive Value : Type :=
  | VInt (v : Z)
  | VText (v : string)
  | VBlob (v : bytes).

(** The text of a statement, the values of its parameters, the row it stands on and, once
    a query runs, the rows to come. *)
Record Prepared := mkPrepared {
  p_sql : string;
  p_binds : gmap Z Value;
  p_row : option bytes;
  p_rest : option (list bytes);
}.

Definition fresh (sql : string) : Prepared := mkPrepared sql ∅ None None.

Definition bound (p : Prepared) (i : Z) (v : Value) : Prepared :=
  mkPrepared (p_sql p) (<[i := v]> (p_binds p)) (p_row p) (p_rest p).

(** [p] with another value for parameter [i], or none. *)
Definition rebound (p p' : Prepared) (i : Z) : Prop :=
  p_sql p' = p_sql p ∧ p_row p' = p_row p ∧ p_rest p' = p_rest p ∧
  ∀ j, j ≠ i → p_binds p' !! j = p_binds p !! j.

(** The parameters of a text are its question marks. *)
Definition placeholders (sql : string) : Z :=
  Z.of_nat (length (filter (λ c, c = "?"%char) (String.list_ascii_of_string sql))).

Definition chain_sql : list string :=
  [insert_block_sql; insert_tx_sql; delete_blocks_sql; delete_txs_sql; select_sql].

(** What a statement that changes tables does to [blocks]. *)
Definition effect (p : Prepared) (t : gmap Z (list Z)) : option (gmap Z (list Z)) :=
  if decide (p_sql p = insert_block_sql) then
    match p_binds p !! 1, p_binds p !! 6 with
    | Some (VInt h), Some (VBlob raw) => Some (<[h := raw]> t)
    | _, _ => None
    end
  else if decide (p_sql p = delete_blocks_sql) then
    match p_binds p !! 1 with
    | Some (VInt h) => Some (filter (λ kv, kv.1 < h) t)
    | _ => None
    end
  else if decide (p_sql p = select_sql) then None
  else Some t.

(** What a query has still to give. *)
Definition to_come (p : Prepared) (t : gmap Z (list Z)) : list bytes := default (ordered_rows t) (p_rest p).

(** ** sqlite3

    [ready l] says that the connection is open, that the tables exist and that calls do
    not fail; [tbl] is the [blocks] table that the connection sees, [live] its statements,
    and [limit] a bound on the rows of the table. *)
Class WinsqliteSpec (L : Type) `{Winsqlite L} (db : Db) (limit : L → nat) : Type := {
  ready : L → Prop;
  tbl : L → gmap Z (list Z);
  live : L → Z → option Prepared;
  ws_exec l sql : sql ∈ code_texts →
    let l' := (sqlite3_exec (db_h db) sql l).1 in tbl l' = tbl l ∧ (ready l → ready l');
  ws_prepare l sql : ready l → sql ∈ chain_sql →
    let '(l', s) := sqlite3_prepare_v2 (db_h db) sql l in
    s ≠ 0 ∧ ready l' ∧ tbl l' = tbl l ∧ live l' s = Some (fresh sql);
  ws_bind_int64 l s p i v : ready l → live l s = Some p → p_rest p = None → 1 ≤ i ≤ placeholders (p_sql p) →
    let l' := sqlite3_bind_int64 s i v l in
    ready l' ∧ tbl l' = tbl l ∧ live l' s = Some (bound p i (VInt v));
  ws_bind_text l s p i v n : ready l → live l s = Some p → p_rest p = None → 1 ≤ i ≤ placeholders (p_sql p) →
    let l' := sqlite3_bind_text s i v n l in
    ready l' ∧ tbl l' = tbl l ∧ ∃ p', live l' s = Some p' ∧ rebound p p' i;
  ws_bind_blob l s p i v n : ready l → live l s = Some p → p_rest p = None → 1 ≤ i ≤ placeholders (p_sql p) →
    n = size v → n ≤ MAX_VALUE →
    let l' := sqlite3_bind_blob s i v n l in
    ready l' ∧ tbl l' = tbl l ∧ live l' s = Some (bound p i (VBlob v));
  ws_step l s p t : ready l → live l s = Some p → effect p (tbl l) = Some t →
    let '(l', rc) := sqlite3_step s l in
    rc = CL_SQLITE_DONE ∧ ready l' ∧ tbl l' = t ∧ is_Some (live l' s);
  ws_step_select l s p : ready l → live l s = Some p → p_sql p = select_sql →
    let '(l', rc) := sqlite3_step s l in
    ready l' ∧ tbl l' = tbl l ∧
    match to_come p (tbl l) with
    | [] => rc = CL_SQLITE_DONE ∧ is_Some (live l' s)
    | row :: rest =>
        rc = CL_SQLITE_ROW ∧ live l' s = Some (mkPrepared (p_sql p) (p_binds p) (Some row) (Some rest))
    end;
  ws_column l s p row : live l s = Some p → p_row p = Some row →
    sqlite3_column_bytes s 0 l = size row ∧ (row ≠ [] → sqlite3_column_blob s 0 l = Some row);
  ws_finalize l s : ready l → is_Some (live l s) →
    ready (sqlite3_finalize s l) ∧ tbl (sqlite3_finalize s l) = tbl l;
  ws_limit l : (stdpp.base.size (tbl l) ≤ limit l)%nat;
}.

(** ** The shim as a [Sqlite] *)

Definition shim {L} `{Winsqlite L} (db : Db) (limit : L → nat) : Sqlite L := {|
  sql_run s l := run_stmt db s l;
  sql_select l := (select_raws (S (S (limit l))) db l).2;
  sql_errmsg l := db_errmsg db l;
|}.

(** ** Calls with pre- and postconditions *)

Definition triple {L A} (P : L → Prop) (c : Lib L A) (Q : A → L → Prop) : Prop :=
  ∀ l, P l → Q (c l).2 (c l).1.

Lemma triple_ret {L A} (a : A) (Q : A → L → Prop) : triple (Q a) (mret a) Q.
Proof. by intros l. Qed.

Lemma triple_bind {L A B} (c : Lib L A) (f : A → Lib L B) P R Q :
  triple P c R → (∀ a, triple (R a) (f a) Q) → triple P (c ≫= f) Q.
Proof.
  intros Hc Hf l Hl. specialize (Hc l Hl). unfold mbind, lib_bind. destruct (c l) as [l' a]. by apply Hf.
Qed.

Lemma triple_pre {L A} (P P' : L → Prop) (c : Lib L A) Q : (∀ l, P l → P' l) → triple P' c Q → triple P c Q.
Proof. intros HP Hc l Hl. by apply Hc, HP. Qed.

Lemma triple_pure {L A} (φ : Prop) (P : L → Prop) (c : Lib L A) Q : (φ → triple P c Q) → triple (λ l, φ ∧ P l) c Q.
Proof. intros Hc l [Hφ Hl]. by apply Hc. Qed.

Lemma triple_ask {L A} (f : L → A) (P : L → Prop) : triple P (ask f) (λ a l, P l ∧ a = f l).
Proof. by intros l. Qed.

Section spec.
Context {L : Type} `{W : Winsqlite L} (db : Db) (limit : L → nat) `{WS : !WinsqliteSpec L db limit}.

(** The connection sees the rows [t], and [s] is a statement that has not run whose
    parameters have the values [vals] and maybe more. *)
Definition has (t : gmap Z (list Z)) (s : Z) (sql : string) (vals : gmap Z Value) (l : L) : Prop :=
  ready l ∧ tbl l = t ∧ ∃ p, live l s = Some p ∧ p_sql p = sql ∧ p_rest p = None ∧ vals ⊆ p_binds p.

Definition sees (t : gmap Z (list Z)) (l : L) : Prop := ready l ∧ tbl l = t.

Lemma new_triple t sql : sql ∈ chain_sql →
  triple (sees t) (St_new db sql) (λ s l, s ≠ 0 ∧ has t s sql ∅ l).
Proof.
  intros Hs l [Hr Ht]. unfold St_new. pose proof (ws_prepare l sql Hr Hs) as Hp.
  destruct (sqlite3_prepare_v2 _ sql l) as [l' s]. destruct Hp as (Hn & Hr' & Ht' & Hl).
  split; [done|]. split; [done|]. split; [exact (eq_trans Ht' Ht)|]. exists (fresh sql). by split_and!.
Qed.

Lemma i64_triple t s sql vals i v : 1 ≤ i ≤ placeholders sql →
  triple (has t s sql vals) (bind_i64 s i v) (λ _, has t s sql (<[i := VInt v]> vals)).
Proof.
  intros Hi l (Hr & Ht & p & Hl & Hsql & Hrest & Hv). subst sql.
  destruct (ws_bind_int64 l s p i v Hr Hl Hrest Hi) as (Hr' & Ht' & Hl').
  split; [exact Hr'|]. split; [exact (eq_trans Ht' Ht)|]. eexists. split_and!; [exact Hl'|done|done|]. by apply insert_mono.
Qed.

Lemma text_triple t s sql vals i v : 1 ≤ i ≤ placeholders sql → vals !! i = None →
  triple (has t s sql vals) (bind_text s i v) (λ _, has t s sql vals).
Proof.
  intros Hi Hn l (Hr & Ht & p & Hl & Hsql & Hrest & Hv). subst sql.
  destruct (ws_bind_text l s p i v (c_int (Z.of_nat (String.length v))) Hr Hl Hrest Hi) as (Hr' & Ht' & p' & Hl' & E1 & _ & E3 & E4).
  split; [exact Hr'|]. split; [exact (eq_trans Ht' Ht)|]. exists p'. split_and!; [done|done|by rewrite E3|].
  apply map_subseteq_spec. intros j w Hj. rewrite E4 by (intros ->; congruence). by eapply lookup_weaken.
Qed.

Lemma c_int_small n : 0 ≤ n ≤ MAX_VALUE → c_int n = n.
Proof.
  unfold MAX_VALUE. intros Hn. unfold c_int. rewrite wrap_small by (unfold in_width; lia).
  by rewrite (proj2 (Z.ltb_lt _ _)) by lia.
Qed.

Lemma blob_triple t s sql vals i v : 1 ≤ i ≤ placeholders sql → size v ≤ MAX_VALUE →
  triple (has t s sql vals) (bind_blob s i v) (λ _, has t s sql (<[i := VBlob v]> vals)).
Proof.
  intros Hi Hsz l (Hr & Ht & p & Hl & Hsql & Hrest & Hv). subst sql. unfold bind_blob.
  rewrite c_int_small by (unfold size in *; lia).
  destruct (ws_bind_blob l s p i v (size v) Hr Hl Hrest Hi eq_refl Hsz) as (Hr' & Ht' & Hl').
  split; [exact Hr'|]. split; [exact (eq_trans Ht' Ht)|]. eexists. split_and!; [exact Hl'|done|done|]. by apply insert_mono.
Qed.

(** Running a statement with all its values. *)
Lemma with_triple t t' sql binds vals : sql ∈ chain_sql →
  (∀ s, triple (has t s sql ∅) (binds s) (λ _, has t s sql vals)) →
  (∀ p, p_sql p = sql → vals ⊆ p_binds p → effect p t = Some t') →
  triple (sees t) (with_st db sql binds) (λ done l, done = true ∧ sees t' l).
Proof.
  intros Hsql Hb He. unfold with_st. eapply triple_bind; [by apply new_triple|]. intros s.
  apply triple_pure. intros Hs. unfold St_ok. rewrite (proj2 (Z.eqb_neq _ _) Hs). cbn [negb].
  apply (triple_bind _ _ _ (λ done l, done = true ∧ sees t' l ∧ is_Some (live l s))).
  - eapply triple_bind; [apply Hb|]. intros []. apply (triple_bind _ _ _ (λ rc l, rc = CL_SQLITE_DONE ∧ sees t' l ∧ is_Some (live l s))).
    + intros l (Hr & Ht & p & Hl & Hp & _ & Hv). unfold st_step.
      pose proof (ws_step l s p t' Hr Hl) as Hst. rewrite Ht in Hst. specialize (Hst (He p Hp Hv)).
      destruct (sqlite3_step s l) as [l' rc]. destruct Hst as (? & ? & ? & ?). by split_and!.
    + intros rc l (-> & ? & ?). by split_and!.
  - intros done. unfold St_delete. rewrite (proj2 (Z.eqb_neq _ _) Hs). cbn [negb].
    intros l (-> & [Hr Ht] & Hl). destruct (ws_finalize l s Hr Hl) as [Hr' Ht'].
    split; [reflexivity|]. split; [exact Hr'|exact (eq_trans Ht' Ht)].
Qed.

(** ** The statements of the chain *)

Ltac bind_values := repeat (eapply triple_bind; [first
  [apply i64_triple; by vm_compute
  |apply text_triple; [by vm_compute|reflexivity]]|intros ?; cbn beta]).

Lemma insert_block_triple t height hash prev time ntx raw : size raw ≤ MAX_VALUE →
  triple (sees t) (run_stmt db (InsertBlock height hash prev time ntx raw))
    (λ done l, done = true ∧ sees (<[height := raw]> t) l).
Proof.
  intros Hr. cbn [run_stmt]. apply (with_triple t _ _ _
    (<[6 := VBlob raw]> (<[5 := VInt ntx]> (<[4 := VInt time]> (<[1 := VInt height]> ∅))))); [left|..].
  - intros s. bind_values. apply blob_triple; [by vm_compute|done].
  - intros p Hp Hv. unfold effect. rewrite decide_True by done.
    assert (p_binds p !! 1 = Some (VInt height)) as -> by (eapply lookup_weaken; [|exact Hv]; reflexivity).
    by assert (p_binds p !! 6 = Some (VBlob raw)) as -> by (eapply lookup_weaken; [|exact Hv]; reflexivity).
Qed.

Lemma insert_tx_triple t txid height idx type from to amount nonce payload : size payload ≤ MAX_VALUE →
  triple (sees t) (run_stmt db (InsertTx txid height idx type from to amount nonce payload))
    (λ done l, done = true ∧ sees t l).
Proof.
  intros Hr. cbn [run_stmt]. eapply (with_triple t); [right; left|..].
  - intros s. bind_values. apply blob_triple; [by vm_compute|done].
  - intros p Hp _. unfold effect. by rewrite Hp.
Qed.

Lemma delete_blocks_triple t h :
  triple (sees t) (run_stmt db (DeleteBlocksFrom h))
    (λ done l, done = true ∧ sees (filter (λ kv, kv.1 < h) t) l).
Proof.
  cbn [run_stmt]. eapply (with_triple t); [do 2 right; left|..].
  - intros s. apply i64_triple. by vm_compute.
  - intros p Hp Hv. unfold effect. rewrite Hp. cbn -[filter lookup].
    by assert (p_binds p !! 1 = Some (VInt h)) as -> by (eapply lookup_weaken; [|exact Hv]; reflexivity).
Qed.

Lemma delete_txs_triple t h :
  triple (sees t) (run_stmt db (DeleteTxsFrom h)) (λ done l, done = true ∧ sees t l).
Proof.
  cbn [run_stmt]. eapply (with_triple t); [do 3 right; left|..].
  - intros s. apply i64_triple. by vm_compute.
  - intros p Hp _. unfold effect. by rewrite Hp.
Qed.

Lemma exec_triple t sql : sql ∈ code_texts →
  triple (sees t) (run_stmt db (Exec sql)) (λ _ l, sees t l).
Proof.
  intros Hs l [Hr Ht]. cbn [run_stmt]. unfold db_exec. destruct (ws_exec l sql Hs) as [Ht' Hr'].
  unfold mbind, lib_bind. destruct (sqlite3_exec _ sql l) as [l' rc]. cbn in *. split; [by apply Hr'|congruence].
Qed.

(** The rows that the loop reads. *)
Lemma fetch_triple fuel t s raws rest : (length rest < fuel)%nat →
  triple (λ l, sees t l ∧ ∃ p, live l s = Some p ∧ p_sql p = select_sql ∧ to_come p t = rest)
    (fetch fuel s raws)
    (λ got l, got = Some (raws ++ rest) ∧ sees t l ∧ is_Some (live l s)).
Proof.
  revert raws rest. induction fuel as [|fuel IH]; intros raws rest Hf; [lia|]. cbn [fetch].
  intros l ([Hr Ht] & p & Hl & Hp & Hc). unfold mbind, lib_bind, st_step.
  pose proof (ws_step_select l s p Hr Hl Hp) as Hst. rewrite Ht, Hc in Hst.
  destruct (sqlite3_step s l) as [l' rc]. destruct Hst as (Hr' & Ht' & Hst). destruct rest as [|row rest].
  - destruct Hst as [-> Hl']. cbn [Z.eqb Pos.eqb CL_SQLITE_DONE CL_SQLITE_ROW]. rewrite app_nil_r. by split_and!.
  - destruct Hst as [-> Hl']. cbn [Z.eqb Pos.eqb CL_SQLITE_ROW]. unfold ask. cbn [fst snd].
    assert (col_blob s 0 l' = row) as ->.
    { destruct (ws_column l' s _ row Hl' eq_refl) as [Hn Hb]. unfold col_blob. rewrite Hn. unfold size.
      destruct row as [|x row]; [by destruct (sqlite3_column_blob s 0 l')|]. rewrite Hb by done. cbn [length].
      rewrite (proj2 (Z.ltb_lt _ _)), Nat2Z.id by lia. apply (firstn_all (x :: row)). }
    replace (raws ++ row :: rest) with ((raws ++ [row]) ++ rest) by by rewrite <- app_assoc.
    apply (IH (raws ++ [row]) rest); [cbn in Hf; lia|]. split; [done|]. eexists. by split_and!.
Qed.

Lemma select_run t l : sees t l → (length (ordered_rows t) ≤ limit l)%nat →
  (select_raws (S (S (limit l))) db l).2 = Some (ordered_rows t).
Proof.
  intros Hl Hlim. unfold select_raws.
  cut (triple (sees t) (q ← St_new db select_sql;
      raws ← (if St_ok q then fetch (S (S (limit l))) q [] else mret None); St_delete q ;; mret raws)
      (λ got _, got = Some (ordered_rows t))); [intros H; by apply H|].
  eapply triple_bind; [apply new_triple; by do 4 right; left|]. intros s. apply triple_pure. intros Hs.
  unfold St_ok. rewrite (proj2 (Z.eqb_neq _ _) Hs). cbn [negb].
  eapply triple_bind; [|intros got; eapply (triple_bind _ _ _ (λ _ _, got = Some (ordered_rows t))); [|by intros ? l0]].
  - eapply triple_pre; [|by apply (fetch_triple _ t s [] (ordered_rows t)); lia].
    intros l0 (Hr & Ht & p & Hp & Hsql & Hrest & _). split; [done|]. exists p.
    split_and!; try done. unfold to_come. by rewrite Hrest.
  - by intros l0 (-> & _).
Qed.

Lemma length_ordered_rows (t : gmap Z (list Z)) : length (ordered_rows t) = stdpp.base.size t.
Proof. unfold ordered_rows. rewrite length_map, merge_sort_Permutation. by rewrite length_map_to_list. Qed.
End spec.

(** ** Refinement *)

(** C13: the shim over sqlite3 is the database that the chain relies on. For a library that
    behaves as sqlite3 is documented - statements that prepare, take the values bound to
    them and step to their effect, queries that step through their rows - the statements
    of the chain, prepared, bound, stepped and finalized by the shim, insert, delete and
    read the rows as [SqliteSpec] says, with the same view of the table. *)
Theorem shim_refines {L} `{W : Winsqlite L} (db : Db) (limit : L → nat) (WS : WinsqliteSpec L db limit) :
  ∃ S : @SqliteSpec L (shim db limit),
    ∀ l, @rows _ (shim db limit) S l = tbl l ∧ (@usable _ (shim db limit) S l ↔ ready l).
Proof.
  unshelve eexists.
  - refine (@Build_SqliteSpec L (shim db limit) tbl ready _ _ _ _ _ _ _).
    + intros l s Hr Hs.
      destruct s as [sql|height hash prev time ntx raw|txid height idx ty from to amount nonce payload|h|h]; cbn in Hs.
      * by apply (exec_triple db limit (tbl l) sql Hs l).
      * by apply (insert_block_triple db limit (tbl l) height hash prev time ntx raw Hs l).
      * by apply (insert_tx_triple db limit (tbl l) txid height idx ty from to amount nonce payload Hs l).
      * by apply (delete_blocks_triple db limit (tbl l) h l).
      * by apply (delete_txs_triple db limit (tbl l) h l).
    + intros l sql Hs. destruct (ws_exec l sql Hs) as [E _]. rewrite <- E.
      unfold sql_do. cbn [sql_run shim run_stmt]. unfold db_exec, mbind, lib_bind. by destruct (sqlite3_exec _ sql l).
    + intros l h hash prev time ntx raw Hr Hs. by apply (insert_block_triple db limit (tbl l) h hash prev time ntx raw Hs l).
    + intros l txid h idx ty from to amount nonce payload Hr Hs.
      by apply (insert_tx_triple db limit (tbl l) txid h idx ty from to amount nonce payload Hs l).
    + intros l h Hr. by apply (delete_blocks_triple db limit (tbl l) h l).
    + intros l h Hr. by apply (delete_txs_triple db limit (tbl l) h l).
    + intros l Hr. apply (select_run db limit (tbl l) l); [done|]. rewrite length_ordered_rows. apply ws_limit.
  - done.
Qed.
