(* ===== verification/Chain.v ===== *)
(** * Chain: the block chain of [src/core.h]

    [Chain] keeps the blocks, their hashes, the accounts, the transaction index,
    the accumulated work and a database handle. [connect_block] validates and
    appends one block, [try_replace] adopts a better chain, [init] loads the
    database. The clock is an argument: [now_s()] may be read once for every
    block, so a loop takes a function from the block's position to the reading. *)

From S2P Require Import Prelude Hex Serial Sha256 Hash Crypto Merkle Tx Ledger Store.

Local Open Scope Z_scope.

Record Chain {D : Type} := mkChain {
  params : Params;
  blocks : list Block;
  hashes : list bytes;
  st : State;
  txidx : gmap (list Z) (Z * Z);
  work : Z;
  db : option D;
  persisting : bool;
}.
Arguments Chain : clear implicits.
Arguments mkChain {D}.

(** [Chain c; c.params = p;] *)
Definition Chain_new {D} (p : Params) : Chain D := mkChain p [] [] ∅ ∅ 0 None true.

Definition make_genesis (p : Params) : Block :=
  mkBlock (mkHeader CL_VERSION (p_net_id p) zero_hash zero_hash 0 (p_genesis_time p) 0 0) [].

Section accessors.
Context {D : Type}.
Implicit Types c : Chain D.

Definition tip c : option Block := last (blocks c).
Definition tip_hash c : option bytes := last (hashes c).

Definition height c : Z :=
  match tip c with None => 0 | Some b => h_height (b_h b) end.

Definition has_block c (h : bytes) : bool := existsb (λ x, bool_decide (x = h)) (hashes c).

(** Assignments to one member. *)
Definition set_db c (d : option D) : Chain D :=
  mkChain (params c) (blocks c) (hashes c) (st c) (txidx c) (work c) d (persisting c).
Definition set_st c (s : State) : Chain D :=
  mkChain (params c) (blocks c) (hashes c) s (txidx c) (work c) (db c) (persisting c).
Definition set_persisting c (b : bool) : Chain D :=
  mkChain (params c) (blocks c) (hashes c) (st c) (txidx c) (work c) (db c) b.
End accessors.

Section chain.
Context `{HF : HashFn} `{CN : Cng} {D : Type} `{DB : Sqlite D}.
Implicit Types c : Chain D.

(** The loop of [append] over the transactions. *)
Fixpoint index_txs (h : Z) (i : Z) (ts : list Tx) (m : gmap (list Z) (Z * Z))
    : gmap (list Z) (Z * Z) :=
  match ts with
  | [] => m
  | t :: ts => index_txs h (i + 1) ts (<[txid t := (u32 h, u32 i)]> m)
  end.

(** The loop of [db_insert] over the transactions. *)
Fixpoint insert_txs (h : Z) (i : Z) (ts : list Tx) (d : D) : D :=
  match ts with
  | [] => d
  | t :: ts =>
      let from := if t_type t =? TX_COINBASE then "coinbase"%string
                  else hexs (addr_of (t_from t)) in
      insert_txs h (i + 1) ts
        (sql_do (InsertTx (hexs (txid t)) (i64 h) i (t_type t) from (hexs (t_to t))
                   (i64 (t_amount t)) (i64 (t_nonce t)) (t_payload t)) d)
  end.

Definition db_insert (d : D) (b : Block) : D :=
  let h := b_h b in
  let d := sql_do (InsertBlock (i64 (h_height h)) (hexs (header_hash h)) (hexs (h_prev h))
                     (i64 (h_time h)) (size (b_txs b)) (block_serialize b)) d in
  insert_txs (h_height h) 0 (b_txs b) d.

Definition db_truncate_from (d : D) (h : Z) : D :=
  sql_do (DeleteTxsFrom (i64 h)) (sql_do (DeleteBlocksFrom (i64 h)) d).

Definition append c (b : Block) (w : Z) : Chain D :=
  mkChain (params c) (blocks c ++ [b]) (hashes c ++ [header_hash (b_h b)]) (st c)
    (index_txs (h_height (b_h b)) 0 (b_txs b) (txidx c))
    (u64 (work c + w))
    (if persisting c then (λ d, db_insert d b) <$> db c else db c)
    (persisting c).

(** The result carries the chain also when the block is refused. *)
Definition connect_block c (b : Block) (now : Z) : Chain D * string :=
  let h := b_h b in
  match tip c, tip_hash c with
  | Some prev, Some prev_hash =>
      if negb (h_version h =? CL_VERSION) then (c, "bad version")
      else if negb (h_net_id h =? p_net_id (params c)) then (c, "wrong network")
      else if negb (h_height h =? u64 (h_height (b_h prev) + 1)) then (c, "bad height")
      else if negb (bool_decide (h_prev h = prev_hash)) then (c, "prev hash mismatch")
      else if negb (h_bits h =? p_bits (params c)) then (c, "bad difficulty")
      else if negb (pow_ok (header_hash h) (h_bits h)) then (c, "insufficient proof of work")
      else if h_time h >? u64 (now + MAX_TIME_SKEW_S) then (c, "timestamp too far in future")
      else if bool_decide (b_txs b = []) || (size (b_txs b) >? MAX_BLOCK_TXS)
        then (c, "bad tx count")
      else if negb (bool_decide (merkle_root (map txid (b_txs b)) = h_merkle h))
        then (c, "merkle mismatch")
      else
        let '(tmp, err) := apply_txs (st c) (b_txs b) (params c) (h_height h) 0 in
        if negb (bool_decide (err = "")) then (c, err)
        else (append (set_st c tmp) b (work_of (h_bits h)), "")
  | _, _ =>
      let g := make_genesis (params c) in
      if negb (bool_decide (header_hash h = header_hash (b_h g))) ||
         negb (bool_decide (b_txs b = [])) then (c, "invalid genesis")
      else (append c b 1, "")
  end.

(** The loop of [try_replace] over the candidate's blocks. *)
Fixpoint connect_all c (cand : list Block) (clock : nat → Z) (i : nat) : Chain D * string :=
  match cand with
  | [] => (c, "")
  | b :: cand =>
      let '(c, err) := connect_block c b (clock i) in
      if negb (bool_decide (err = ""))
      then (c, "candidate height " +:+ pretty (h_height (b_h b)) +:+ ": " +:+ err)
      else connect_all c cand clock (S i)
  end.

(** [while (fork < ... && hashes[fork] == tmp.hashes[fork]) fork++;] *)
Fixpoint common_prefix (hs ks : list bytes) : nat :=
  match hs, ks with
  | h :: hs, k :: ks => if bool_decide (h = k) then S (common_prefix hs ks) else 0
  | _, _ => 0
  end.

(** The rows of the blocks from height [fork] on are replaced in one transaction. *)
Definition db_replace (d : D) (bs : list Block) (fork : nat) : D :=
  let d := sql_do (Exec "BEGIN IMMEDIATE") d in
  let d := db_truncate_from d (Z.of_nat fork) in
  let d := foldl db_insert d (drop fork bs) in
  sql_do (Exec "COMMIT") d.

(** The third component is what [*fork_out] is set to. *)
Definition try_replace c (cand : list Block) (clock : nat → Z)
    : Chain D * string * option nat :=
  if bool_decide (cand = []) then (c, "empty candidate", None)
  else
    let tmp := set_persisting (Chain_new (params c)) false in
    let '(tmp, err) := connect_all tmp cand clock 0 in
    if negb (bool_decide (err = "")) then (c, err, None)
    else if work tmp <=? work c
      then (c, "candidate has no more work than current chain", None)
    else
      let fork := common_prefix (hashes c) (hashes tmp) in
      let d := if persisting c then (λ d, db_replace d (blocks tmp) fork) <$> db c
               else db c in
      (mkChain (params c) (blocks tmp) (hashes tmp) (st tmp) (txidx tmp) (work tmp)
         d (persisting c), "", Some fork).

(** [!db->exec(..) || !db->exec(..) || ...] *)
Fixpoint exec_all (texts : list string) (d : D) : D * bool :=
  match texts with
  | [] => (d, true)
  | s :: texts =>
      let '(d, ok) := sql_run (Exec s) d in
      if ok then exec_all texts d else (d, false)
  end.

(** The loop of [init] over the rows; the second component is [good]. *)
Fixpoint load_loop c (raws : list bytes) (clock : nat → Z) (good : nat) : Chain D * nat :=
  match raws with
  | [] => (c, good)
  | raw :: raws =>
      match block_parse raw with
      | None => (c, good)
      | Some b =>
          let '(c, err) := connect_block c b (clock good) in
          if negb (bool_decide (err = "")) then (c, good)
          else load_loop c raws clock (S good)
      end
  end.

Definition db_cut (d : D) (good : nat) : D :=
  sql_do (Exec "COMMIT") (db_truncate_from (sql_do (Exec "BEGIN IMMEDIATE") d) (Z.of_nat good)).

(** What [init] does with a database: load it and drop what is not valid. *)
Definition init_db c (d : D) (clock : nat → Z) : Chain D * string :=
  let '(d, ok) := exec_all schema_texts d in
  if negb ok then (set_db c (Some d), "schema: " +:+ sql_errmsg d)
  else
    match sql_select d with
    | None => (set_db c (Some d), "load query failed")
    | Some raws =>
        let '(c, good) := load_loop (set_persisting (set_db c (Some d)) false) raws clock 0 in
        let c := set_persisting c true in
        if (good <? length raws)%nat then (set_db c ((λ d, db_cut d good) <$> db c), "")
        else (c, "")
    end.

Definition init c (database : option D) (clock : nat → Z) : Chain D * string :=
  let '(c, err) :=
    match database with
    | Some d => init_db c d clock
    | None => (set_db c None, "")
    end in
  if negb (bool_decide (err = "")) then (c, err)
  else if bool_decide (blocks c = []) then
    let '(c, err) := connect_block c (make_genesis (params c)) (clock 0%nat) in
    if negb (bool_decide (err = "")) then (c, "genesis: " +:+ err) else (c, "")
  else (c, "").
End chain.

(** ** Specification: valid chains *)

(** Values of the C++ types in a block. *)
Definition wf_block (b : Block) : Prop := wf_header (b_h b) ∧ Forall wf_tx (b_txs b).

#[export] Instance wf_block_dec b : Decision (wf_block b).
Proof. unfold wf_block. apply _. Defined.

Section spec.
Context `{HF : HashFn} `{CN : Cng}.

Definition block_hash (b : Block) : bytes := header_hash (b_h b).
Definition txids (b : Block) : list bytes := map txid (b_txs b).
Definition chain_txs (bs : list Block) : list Tx := concat (map b_txs bs).

(** The accounts after all blocks. *)
Definition ledger (bs : list Block) : State := txs_post ∅ (chain_txs bs).

Definition genesis_ok (p : Params) (b : Block) : Prop :=
  block_hash b = block_hash (make_genesis p) ∧ b_txs b = [].

(** [b] extends the chain [bs] whose last block is [prev]. *)
Record extends (p : Params) (bs : list Block) (prev b : Block) : Prop := {
  ext_version : h_version (b_h b) = CL_VERSION;
  ext_net_id : h_net_id (b_h b) = p_net_id p;
  ext_height : h_height (b_h b) = u64 (h_height (b_h prev) + 1);
  ext_prev : h_prev (b_h b) = block_hash prev;
  ext_bits : h_bits (b_h b) = p_bits p;
  ext_pow : pow_ok (block_hash b) (p_bits p) = true;
  ext_count : 1 ≤ size (b_txs b) ≤ MAX_BLOCK_TXS;
  ext_merkle : merkle_root (txids b) = h_merkle (b_h b);
  ext_txs : txs_ok p (h_height (b_h b)) (ledger bs) 0 (b_txs b);
}.

Definition next_ok (p : Params) (bs : list Block) (b : Block) : Prop :=
  match last bs with
  | None => genesis_ok p b
  | Some prev => extends p bs prev b
  end.

Inductive chain_valid (p : Params) : list Block → Prop :=
  | chain_valid_nil : chain_valid p []
  | chain_valid_snoc bs b :
      chain_valid p bs → next_ok p bs b → chain_valid p (bs ++ [b]).

(** Only blocks after the first are compared with the clock. *)
Definition time_ok (bs : list Block) (b : Block) (now : Z) : Prop :=
  bs ≠ [] → h_time (b_h b) ≤ u64 (now + MAX_TIME_SKEW_S).

(** The work of a chain, before it is reduced to 64 bits. *)
Definition chain_work (p : Params) (bs : list Block) : Z :=
  match length bs with
  | O => 0
  | S n => 1 + Z.of_nat n * work_of (p_bits p)
  end.

Definition index_of (bs : list Block) : gmap (list Z) (Z * Z) :=
  foldl (λ m b, index_txs (h_height (b_h b)) 0 (b_txs b) m) ∅ bs.

(** The members of [Chain] are functions of its blocks, and the blocks are valid. *)
Record chain_inv {D} (c : Chain D) : Prop := {
  ci_valid : chain_valid (params c) (blocks c);
  ci_wf : Forall wf_block (blocks c);
  ci_hashes : hashes c = map block_hash (blocks c);
  ci_st : st c ≡ ledger (blocks c);
  ci_txidx : txidx c = index_of (blocks c);
  ci_work : work c = u64 (chain_work (params c) (blocks c));
}.

Lemma chain_txs_snoc bs b : chain_txs (bs ++ [b]) = chain_txs bs ++ b_txs b.
Proof. unfold chain_txs. rewrite map_app, concat_app. cbn. by rewrite app_nil_r. Qed.

Lemma ledger_snoc bs b : ledger (bs ++ [b]) = txs_post (ledger bs) (b_txs b).
Proof. unfold ledger, txs_post. by rewrite chain_txs_snoc, foldl_app. Qed.

Lemma wf_ledger bs : wf_state (ledger bs).
Proof. apply wf_txs_post, map_Forall_empty. Qed.

Lemma index_of_snoc bs b :
  index_of (bs ++ [b]) = index_txs (h_height (b_h b)) 0 (b_txs b) (index_of bs).
Proof. unfold index_of. by rewrite foldl_app. Qed.

Lemma chain_work_snoc p bs b :
  chain_work p (bs ++ [b]) =
    chain_work p bs + (if bool_decide (bs = []) then 1 else work_of (p_bits p)).
Proof.
  unfold chain_work. rewrite length_app, Nat.add_1_r.
  destruct bs as [|x bs]; cbn [length]; [done|]. rewrite bool_decide_eq_false_2 by done. lia.
Qed.

Lemma chain_valid_snoc_inv p bs b : chain_valid p (bs ++ [b]) → chain_valid p bs ∧ next_ok p bs b.
Proof.
  inversion 1 as [E|bs' b' Hv Hn E]; [by destruct bs|].
  apply app_inj_tail in E as [-> ->]. done.
Qed.

(** Validity is a property of every prefix. *)
Lemma chain_valid_prefix p bs ks : chain_valid p (bs ++ ks) → chain_valid p bs.
Proof.
  induction ks as [|k ks IH] using rev_ind; [by rewrite app_nil_r|].
  rewrite app_assoc. intros [? _]%chain_valid_snoc_inv. auto.
Qed.

Lemma chain_inv_new {D} p : chain_inv (Chain_new (D := D) p).
Proof. split; cbn; try done; constructor. Qed.

Lemma chain_inv_tip {D} (c : Chain D) : chain_inv c →
  tip_hash c = block_hash <$> tip c.
Proof.
  intros Hc. unfold tip_hash, tip. rewrite (ci_hashes c Hc). by rewrite <- fmap_last.
Qed.
End spec.

#[global] Arguments ledger : simpl never.
#[global] Arguments index_of : simpl never.
#[global] Arguments chain_work : simpl never.

(** ** connect_block *)

Section connect.
Context `{HF : HashFn} `{CN : Cng} {D : Type} `{DB : Sqlite D}.
Implicit Types c : Chain D.

Lemma chain_inv_append c b tmp : chain_inv c → wf_block b → next_ok (params c) (blocks c) b →
  tmp ≡ txs_post (st c) (b_txs b) →
  chain_inv (append (set_st c tmp) b
               (if bool_decide (blocks c = []) then 1 else work_of (p_bits (params c)))).
Proof.
  intros Hc Hb Hn E. split; cbn.
  - constructor; [apply Hc|done].
  - apply Forall_app. split; [apply Hc|by constructor].
  - by rewrite (ci_hashes c Hc), map_app.
  - by rewrite ledger_snoc, E, (ci_st c Hc).
  - by rewrite index_of_snoc, (ci_txidx c Hc).
  - by rewrite (ci_work c Hc), wrap_add_l, chain_work_snoc.
Qed.

Lemma Z_gtb_false x y : (x >? y) = false ↔ x ≤ y.
Proof. rewrite Z.gtb_ltb. apply Z.ltb_ge. Qed.

Lemma Z_gtb_true x y : (x >? y) = true ↔ y < x.
Proof. rewrite Z.gtb_ltb. apply Z.ltb_lt. Qed.

Lemma size_pos {A} (l : list A) : l ≠ [] ↔ 1 ≤ size l.
Proof. unfold size. destruct l; cbn; [naive_solver lia|split; [lia|done]]. Qed.

(** What a call can do: append a valid block, or leave the chain as it is. *)
Definition appended c b c' : Prop :=
  ∃ tmp, tmp ≡ txs_post (st c) (b_txs b) ∧
    c' = append (set_st c tmp) b
           (if bool_decide (blocks c = []) then 1 else work_of (p_bits (params c))).

Lemma set_st_id c : set_st c (st c) = c.
Proof. by destruct c. Qed.

Ltac refuse :=
  cbn [negb orb]; let H := fresh in intros H; injection H as <- <-;
  right; split_and!; [done|done|let H1 := fresh in let H2 := fresh in intros [[] H2]].

Lemma connect_genesis c b now c' err : tip c = None → chain_inv c →
  connect_block c b now = (c', err) →
  err = "" ∧ genesis_ok (params c) b ∧ appended c b c' ∨
  err ≠ "" ∧ c' = c ∧ ¬ genesis_ok (params c) b.
Proof.
  intros Ht Hc. unfold connect_block. rewrite Ht.
  assert (blocks c = []) as He by by apply last_None. unfold genesis_ok, block_hash.
  case_bool_decide as Hh; [|intros [= <- <-]; right; split_and!; [done|done|by intros []]].
  case_bool_decide as Hx; [|intros [= <- <-]; right; split_and!; [done|done|by intros []]].
  intros [= <- <-]. left. split_and!; [done..|]. exists (st c). split.
  - by rewrite Hx.
  - by rewrite bool_decide_eq_true_2, set_st_id.
Qed.

Lemma connect_next c prev b now c' err : tip c = Some prev → chain_inv c →
  connect_block c b now = (c', err) →
  err = "" ∧ (extends (params c) (blocks c) prev b ∧ h_time (b_h b) ≤ u64 (now + MAX_TIME_SKEW_S)) ∧
    appended c b c' ∨
  err ≠ "" ∧ c' = c ∧
    ¬ (extends (params c) (blocks c) prev b ∧ h_time (b_h b) ≤ u64 (now + MAX_TIME_SKEW_S)).
Proof.
  intros Ht Hc. unfold connect_block. rewrite (chain_inv_tip c Hc), Ht. cbn [fmap option_fmap option_map].
  destruct (Z.eqb_spec (h_version (b_h b)) CL_VERSION) as [H1|H1]; [|by refuse].
  destruct (Z.eqb_spec (h_net_id (b_h b)) (p_net_id (params c))) as [H2|H2]; [|by refuse].
  destruct (Z.eqb_spec (h_height (b_h b)) (u64 (h_height (b_h prev) + 1))) as [H3|H3]; [|by refuse].
  case_bool_decide as H4; [|by refuse].
  destruct (Z.eqb_spec (h_bits (b_h b)) (p_bits (params c))) as [H5|H5]; [|by refuse].
  destruct (pow_ok _ _) eqn:H6; [|refuse; unfold block_hash in *; congruence].
  destruct (h_time _ >? _) eqn:H7; [refuse; apply Z_gtb_true in H7; lia|].
  apply Z_gtb_false in H7.
  case_bool_decide as H8; [refuse; rewrite H8 in *; cbn in *; unfold size in *; cbn in *; lia|]. apply size_pos in H8.
  destruct (_ >? MAX_BLOCK_TXS) eqn:H9; [refuse; apply Z_gtb_true in H9; lia|].
  apply Z_gtb_false in H9.
  case_bool_decide as H10; [|by refuse].
  destruct (apply_txs _ _ _ _ _) as [tmp e] eqn:H11. case_bool_decide as H12; cbn [negb].
  - subst e. intros [= <- <-]. left. apply apply_txs_success in H11 as [Hok Hp].
    split_and!; [done| |done|].
    + split; try done; [unfold block_hash; congruence|].
      eapply txs_ok_equiv; [|done]. apply Hc.
    + exists tmp. split; [done|]. rewrite bool_decide_eq_false_2, H5; [done|].
      intros E. unfold tip in Ht. by rewrite E in Ht.
  - intros [= <- <-]. right. split_and!; [done|done|]. intros [Hx _].
    destruct (apply_txs_run (st c) (b_txs b) (params c) (h_height (b_h b)) 0) as (? & E & _).
    { eapply txs_ok_equiv; [symmetry; apply Hc|apply Hx]. }
    rewrite H11 in E. by injection E as _ ->.
Qed.

Lemma connect_block_cases c b now c' err : chain_inv c →
  connect_block c b now = (c', err) →
  err = "" ∧ (next_ok (params c) (blocks c) b ∧ time_ok (blocks c) b now) ∧ appended c b c' ∨
  err ≠ "" ∧ c' = c ∧ ¬ (next_ok (params c) (blocks c) b ∧ time_ok (blocks c) b now).
Proof.
  intros Hc H. unfold next_ok, time_ok. fold (tip c). destruct (tip c) as [prev|] eqn:Ht.
  - assert (blocks c ≠ []) as Hne by (intros E; unfold tip in Ht; by rewrite E in Ht).
    destruct (connect_next _ _ _ _ _ _ Ht Hc H) as [(?&[? ?]&?)|(?&?&Hn)]; [left|right]; split_and!; auto.
    intros [? ?]. apply Hn. auto.
  - assert (blocks c = []) as He by by apply last_None.
    destruct (connect_genesis _ _ _ _ _ Ht Hc H) as [(?&?&?)|(?&?&Hn)]; [left|right]; split_and!; auto; [done|].
    intros [? ?]. auto.
Qed.

Lemma appended_inv c b c' : chain_inv c → wf_block b → next_ok (params c) (blocks c) b →
  appended c b c' → chain_inv c' ∧ params c' = params c ∧ blocks c' = blocks c ++ [b] ∧
    persisting c' = persisting c ∧
    db c' = if persisting c then (λ d, db_insert d b) <$> db c else db c.
Proof.
  intros Hc Hb Hn (tmp & E & ->). split_and!; try done. by apply chain_inv_append.
Qed.

(** An accepted block. *)
Lemma connect_block_ok c b now c' : chain_inv c → wf_block b →
  connect_block c b now = (c', "") →
  next_ok (params c) (blocks c) b ∧ time_ok (blocks c) b now ∧
  chain_inv c' ∧ params c' = params c ∧ blocks c' = blocks c ++ [b] ∧
  persisting c' = persisting c ∧
  db c' = if persisting c then (λ d, db_insert d b) <$> db c else db c.
Proof.
  intros Hc Hb H. apply connect_block_cases in H as [(_&[? ?]&Ha)|(?&_)]; [|done|done].
  apply appended_inv in Ha; auto.
Qed.

(** A valid block is accepted. *)
Lemma connect_block_run c b now : chain_inv c →
  next_ok (params c) (blocks c) b → time_ok (blocks c) b now →
  ∃ c', connect_block c b now = (c', "").
Proof.
  intros Hc Hn Ht. destruct (connect_block c b now) as [c' err] eqn:H. exists c'.
  by apply connect_block_cases in H as [(->&_)|(_&_&[])].
Qed.

Lemma connect_block_fail c b now c' err : chain_inv c →
  connect_block c b now = (c', err) → err ≠ "" → c' = c.
Proof. by intros Hc [(->&_)|(_&->&_)]%connect_block_cases. Qed.
End connect.

(** ** The contract of connect_block *)

Section theorems.
Context `{HF : HashFn} `{CN : Cng} {D : Type} `{DB : Sqlite D}.

(** C1: [connect_block] refines the abstract chain: it reports success exactly when
    the block is a valid next block (version, network, height, predecessor,
    difficulty, proof of work, transaction count, Merkle root and every
    transaction) whose time the clock allows; then the block is appended, the
    members are those of the longer chain and a database that is kept gets the
    block; on every error path the chain is left unchanged. *)
Theorem connect_block_refines (c : Chain D) b now : chain_inv c → wf_block b →
  let '(c', err) := connect_block c b now in
  (err = "" ↔ next_ok (params c) (blocks c) b ∧ time_ok (blocks c) b now) ∧
  (err = "" → chain_inv c' ∧ params c' = params c ∧ blocks c' = blocks c ++ [b] ∧
     db c' = if persisting c then (λ d, db_insert d b) <$> db c else db c) ∧
  (err ≠ "" → c' = c).
Proof.
  intros Hc Hb. destruct (connect_block c b now) as [c' err] eqn:E.
  destruct (connect_block_cases _ _ _ _ _ Hc E) as [(->&[Hn Ht]&Ha)|(?&->&?)]; [|naive_solver].
  destruct (appended_inv _ _ _ Hc Hb Hn Ha) as (? & ? & ? & _ & ?).
  by split_and!.
Qed.
End theorems.
