(* ===== verification/Consensus.v ===== *)
(** * Consensus: what a valid chain guarantees

    Lemmas on [chain_valid]: heights, supply, nonces, distinct transactions, the
    transaction index, and that the hash of the tip determines every block. Facts
    that rest on the hash function hold, or two of the strings that it is applied to
    ([chain_pre]) collide. *)

From S2P Require Import Prelude Hex Serial Sha256 Hash Crypto Merkle Tx Ledger Store Chain.

Local Open Scope Z_scope.

(** [Params] of its C++ types. *)
Definition wf_params (p : Params) : Prop :=
  in_width 32 (p_net_id p) ∧ in_width 32 (p_bits p) ∧ in_width 64 (p_reward p) ∧
  in_width 64 (p_genesis_time p).

#[export] Instance wf_params_dec p : Decision (wf_params p).
Proof. unfold wf_params. apply _. Defined.

Lemma wf_zero_hash : wf_array 32 zero_hash.
Proof. split; [done|]. by apply Forall_replicate. Qed.

Lemma wf_make_genesis p : wf_params p → wf_block (make_genesis p).
Proof.
  intros (Hn & _ & _ & Ht). split; [|constructor].
  split; cbn; try done; apply wf_zero_hash.
Qed.

(** Two copies of an element in a list survive a filter that keeps it. *)
Lemma NoDup_by_filter {A B} `{EqDecision A} (f : A → B) (l : list A) :
  (∀ x, x ∈ l → ∃ (P : A → Prop) (HP : ∀ y, Decision (P y)), P x ∧ NoDup (map f (filter P l))) →
  NoDup l.
Proof.
  intros H. destruct (NoDup_or_dup l) as [?|(i & j & x & Hij & Hi & Hj)]; [done|exfalso].
  destruct (H x) as (P & HP & Hx & Hn); [by eapply list_elem_of_lookup_2|].
  pose proof (take_drop_middle l i x Hi) as El.
  assert (drop (S i) l !! (j - S i)%nat = Some x) as Hd by (rewrite lookup_drop, <- Hj; f_equal; lia).
  rewrite <- El, filter_app, map_app in Hn. apply NoDup_app in Hn as (_ & _ & Hn).
  rewrite filter_cons_True in Hn by done. cbn [map] in Hn.
  apply NoDup_cons in Hn as [Hn _]. apply Hn. apply list_elem_of_fmap. exists x.
  split; [done|]. apply list_elem_of_filter. split; [done|]. by eapply list_elem_of_lookup_2.
Qed.

Lemma u64_seq_NoDup (i n : nat) : Z.of_nat n ≤ 2 ^ 64 →
  NoDup (map (λ k, u64 (Z.of_nat k)) (seq i n)).
Proof.
  intros Hn. pose proof (nonce_seq_NoDup (Z.of_nat i) n Hn) as H. unfold nonce_seq in H.
  rewrite <- (Nat.add_0_r i), <- (fmap_add_seq i 0 n).
  change (Nat.add i <$> seq 0 n) with (map (Nat.add i) (seq 0 n)). rewrite map_map.
  erewrite map_ext; [exact H|]. intros k. cbn. f_equal. lia.
Qed.

Section consensus.
Context `{HF : HashFn} `{CN : Cng}.

(** ** What a chain hashes

    The double hash is applied to the headers, the transactions and the nodes of the
    Merkle trees of a chain, and to the header of its genesis block. *)
Definition txs_pre (ts : list Tx) : list bytes := map tx_enc ts ++ tree_pre (map txid ts).

Definition block_pre (b : Block) : list bytes := header_enc (b_h b) :: txs_pre (b_txs b).

Definition chain_pre (p : Params) (bs : list Block) : list bytes :=
  header_enc (b_h (make_genesis p)) :: concat (map block_pre bs).

Lemma txs_pre_subseteq ts K : txs_pre ts ⊆ K ↔ (∀ t, t ∈ ts → tx_enc t ∈ K) ∧ tree_pre (map txid ts) ⊆ K.
Proof.
  unfold txs_pre. rewrite list_subseteq_app_iff_l. f_equiv. split.
  - intros H t Ht. apply H, list_elem_of_fmap. by exists t.
  - intros H x (t & -> & Ht)%list_elem_of_fmap. by apply H.
Qed.

Lemma block_pre_subseteq b K : block_pre b ⊆ K ↔ header_enc (b_h b) ∈ K ∧ txs_pre (b_txs b) ⊆ K.
Proof. apply list_subseteq_cons_iff. Qed.

Lemma chain_pre_subseteq p bs K : chain_pre p bs ⊆ K ↔
  header_enc (b_h (make_genesis p)) ∈ K ∧ ∀ b, b ∈ bs → block_pre b ⊆ K.
Proof.
  unfold chain_pre. rewrite list_subseteq_cons_iff. f_equiv. split.
  - intros H b Hb x Hx. apply H. rewrite list_elem_of_In, in_concat. exists (block_pre b).
    split; [by apply in_map, list_elem_of_In|by apply list_elem_of_In].
  - intros H x. rewrite list_elem_of_In, in_concat. intros (k & Hk & Hx).
    apply in_map_iff in Hk as (b & <- & Hb). apply (H b); by apply list_elem_of_In.
Qed.

(** A part of a chain hashes no more. *)
Lemma chain_pre_mono p bs ks K : (∀ b, b ∈ bs → b ∈ ks) → chain_pre p ks ⊆ K → chain_pre p bs ⊆ K.
Proof. intros Hs. rewrite !chain_pre_subseteq. intros [? H]. auto. Qed.

Lemma chain_pre_snoc p bs b K : chain_pre p (bs ++ [b]) ⊆ K ↔ chain_pre p bs ⊆ K ∧ block_pre b ⊆ K.
Proof.
  rewrite !chain_pre_subseteq. split.
  - intros [Hg H]. split; [split; [done|]|apply H, elem_of_app; right; by left].
    intros x Hx. apply H, elem_of_app. by left.
  - intros [[Hg H] Hb]. split; [done|]. intros x [Hx|E%list_elem_of_singleton]%elem_of_app; subst; auto.
Qed.

Lemma chain_pre_take p bs n K : chain_pre p bs ⊆ K → chain_pre p (take n bs) ⊆ K.
Proof. apply chain_pre_mono. intros b. apply subseteq_take. Qed.

(** ** Heights *)

Context (K : list bytes).

Lemma genesis_header p b : header_enc (b_h b) ∈ K → header_enc (b_h (make_genesis p)) ∈ K →
  wf_params p → wf_block b → genesis_ok p b → b = make_genesis p ∨ collision K.
Proof.
  intros H1 H2 Hp [Hw _] [Hh Ht]. destruct (wf_make_genesis p Hp) as [Hg _].
  destruct (header_hash_inj K _ _ H1 H2 Hw Hg Hh) as [E|?]; [left|by right].
  destruct b as [h txs]; cbn in *. by subst.
Qed.

Lemma valid_heights p bs : chain_pre p bs ⊆ K → wf_params p → Forall wf_block bs → chain_valid p bs →
  (∀ i b, bs !! i = Some b → h_height (b_h b) = u64 (Z.of_nat i)) ∨ collision K.
Proof.
  intros HK Hp Hw Hv. induction Hv as [|bs b Hv IH Hn]; [by left|].
  apply Forall_app in Hw as [Hw [Hb _]%Forall_cons]. apply chain_pre_snoc in HK as [HK HKb].
  destruct (IH HK Hw) as [IH1|?]; [|by right]. clear IH. unfold next_ok in Hn.
  assert (h_height (b_h b) = u64 (Z.of_nat (length bs)) ∨ collision K) as [Hh|?]; [| |by right].
  { destruct (last bs) as [prev|] eqn:El.
    - left. destruct bs as [|g bs]; [done|]. rewrite last_lookup in El. apply IH1 in El.
      destruct Hn as [_ _ -> _ _ _ _ _ _]. rewrite El, wrap_add_l. f_equal. cbn [length]. lia.
    - apply last_None in El as ->. apply block_pre_subseteq in HKb as [HKb _]. apply chain_pre_subseteq in HK as [HK _].
      destruct (genesis_header p b) as [->|?]; [done..|by left|by right]. }
  left. intros i x Hi. apply lookup_snoc_Some in Hi as [[_ ?]|[-> <-]]; auto.
Qed.

(** ** Supply *)

Lemma valid_minted p bs : chain_valid p bs →
  minted_by (chain_txs bs) = p_reward p * Z.of_nat (pred (length bs)).
Proof.
  assert (∀ l k, minted_by (l ++ k) = minted_by l + minted_by k) as Happ.
  { intros l k. induction l as [|t l IH]; [done|]. cbn [app minted_by foldr].
    fold (minted_by (l ++ k)). fold (minted_by l). lia. }
  intros Hv. induction Hv as [|bs b Hv IH Hn]; [cbn; lia|].
  rewrite chain_txs_snoc, Happ, IH, length_app, Nat.add_1_r. unfold next_ok in Hn.
  destruct (last bs) as [prev|] eqn:El; cbn [pred].
  - rewrite (txs_ok_minted p (h_height (b_h b)) (ledger bs)).
    + destruct bs; [done|cbn [length pred]; lia].
    + apply size_pos, Hn.
    + apply Hn.
  - destruct Hn as [_ ->]. apply last_None in El as ->. cbn. lia.
Qed.

Lemma supply_ledger_nil : supply (ledger []) = 0.
Proof. apply map_fold_empty. Qed.

Lemma valid_supply_mod p bs : chain_valid p bs →
  u64 (supply (ledger bs)) = u64 (p_reward p * Z.of_nat (pred (length bs))).
Proof.
  intros Hv. unfold ledger. rewrite supply_txs_post_mod, (valid_minted p) by done.
  unfold supply. by rewrite map_fold_empty.
Qed.

Lemma valid_supply p bs : 0 ≤ p_reward p → Forall wf_block bs → chain_valid p bs →
  p_reward p * Z.of_nat (pred (length bs)) < 2 ^ 64 →
  supply (ledger bs) = p_reward p * Z.of_nat (pred (length bs)).
Proof.
  intros Hr Hw Hv. induction Hv as [|bs b Hv IH Hn]; intros Hs; [rewrite supply_ledger_nil; cbn; lia|].
  apply Forall_app in Hw as [Hw [[_ Hb] _]%Forall_cons].
  pose proof (valid_minted p (bs ++ [b])) as Hm.
  rewrite chain_txs_snoc in Hm. rewrite ledger_snoc. unfold next_ok in Hn.
  rewrite length_app, Nat.add_1_r in *. cbn [pred] in *.
  destruct (last bs) as [prev|] eqn:El.
  - assert (length bs = S (pred (length bs))) as El' by (destruct bs; [done|cbn; lia]).
    rewrite El' in *. specialize (IH Hw ltac:(cbn; nia)). cbn [pred] in *.
    assert (minted_by (b_txs b) = p_reward p) as Hm'.
    { eapply txs_ok_minted; [apply size_pos, Hn|apply Hn]. }
    erewrite supply_txs_post; [rewrite IH, Hm'; lia|apply wf_ledger|done|apply Hn|lia].
  - destruct Hn as [_ ->]. apply last_None in El as ->.
    change (txs_post (ledger []) []) with (ledger []). rewrite supply_ledger_nil. cbn. lia.
Qed.

(** ** Nonces *)

Lemma nonces_of_app a ts us : nonces_of a (ts ++ us) = nonces_of a ts ++ nonces_of a us.
Proof. unfold nonces_of. by rewrite filter_app, map_app. Qed.

Lemma length_nonce_seq v n : length (nonce_seq v n) = n.
Proof. unfold nonce_seq. by rewrite length_map, length_seq. Qed.

Lemma valid_nonces p bs a : chain_valid p bs →
  nonces_of a (chain_txs bs) = nonce_seq 0 (length (nonces_of a (chain_txs bs))) ∧
  nonce (acct (ledger bs) a) = u64 (size (nonces_of a (chain_txs bs))).
Proof.
  induction 1 as [|bs b Hv [IH1 IH2] Hn]; [done|].
  rewrite chain_txs_snoc, nonces_of_app, ledger_snoc. unfold next_ok in Hn.
  destruct (last bs) as [prev|] eqn:El; [|destruct Hn as [_ ->]; cbn; by rewrite app_nil_r].
  destruct (txs_ok_nonces p _ _ _ _ a (wf_ledger bs) (ext_txs _ _ _ _ Hn)) as [H1 H2].
  unfold size in *. rewrite length_app, nonce_seq_app, H2, IH2, Nat2Z.inj_add, wrap_add_l.
  split; [|done]. f_equal; [done|]. by rewrite H1, length_nonce_seq, IH2.
Qed.

(** ** Distinct transactions *)

Definition is_coinbase (t : Tx) : Prop := t_type t = TX_COINBASE.

#[export] Instance is_coinbase_dec t : Decision (is_coinbase t).
Proof. unfold is_coinbase. apply _. Defined.

(** A valid block has one coinbase, which carries the height. *)
Lemma block_coinbases p h st ts : ts ≠ [] → txs_ok p h st 0 ts →
  map t_nonce (filter is_coinbase ts) = [h].
Proof.
  intros Hne H. inversion H as [|???? [_ Hc] Hts]; subst; [done|].
  cbn in Hc. destruct Hc as (Hty & _ & _ & _ & _ & Hh).
  rewrite filter_cons_True by done. cbn [map]. rewrite Hh. f_equal.
  apply txs_ok_no_coinbase in Hts. clear -Hts. induction Hts as [|x l Hx _ IH]; [done|].
  by rewrite filter_cons_False.
Qed.

Lemma valid_coinbases p bs : chain_valid p bs →
  map t_nonce (filter is_coinbase (chain_txs bs)) = map (λ b, h_height (b_h b)) (tail bs).
Proof.
  induction 1 as [|bs b Hv IH Hn]; [done|].
  rewrite chain_txs_snoc, filter_app, map_app, IH. unfold next_ok in Hn.
  destruct (last bs) as [prev|] eqn:El.
  - rewrite (block_coinbases p (h_height (b_h b)) (ledger bs)); [|apply size_pos, Hn|apply Hn].
    destruct bs; [done|]. cbn [app tail]. by rewrite map_app.
  - destruct Hn as [_ ->]. by apply last_None in El as ->.
Qed.

Lemma valid_txs_NoDup p bs : chain_pre p bs ⊆ K → wf_params p → Forall wf_block bs → chain_valid p bs →
  size bs ≤ 2 ^ 64 → size (chain_txs bs) ≤ 2 ^ 64 → NoDup (chain_txs bs) ∨ collision K.
Proof.
  intros HK Hp Hw Hv Hb Ht. destruct (valid_heights p bs HK Hp Hw Hv) as [Hh|?]; [left|by right].
  apply (NoDup_by_filter t_nonce). intros x Hx.
  destruct (decide (is_coinbase x)) as [Hc|Hc].
  - exists is_coinbase, _. split; [done|]. rewrite (valid_coinbases p) by done.
    assert (map (λ b, h_height (b_h b)) (tail bs) =
            map (λ k, u64 (Z.of_nat k)) (seq 1 (length (tail bs)))) as ->.
    { apply list_eq. intros i. rewrite !list_lookup_fmap. destruct (tail bs !! i) as [b|] eqn:E.
      - rewrite lookup_seq_lt by by eapply lookup_lt_Some. cbn. f_equal. apply Hh.
        by destruct bs.
      - rewrite lookup_seq_ge by by apply lookup_ge_None. done. }
    apply u64_seq_NoDup. unfold size in Hb. destruct bs; cbn [length tail] in *; lia.
  - exists (sent_by (addr_of (t_from x))), _. split; [done|].
    fold (nonces_of (addr_of (t_from x)) (chain_txs bs)).
    destruct (valid_nonces p bs (addr_of (t_from x)) Hv) as [-> _]. apply nonce_seq_NoDup.
    unfold nonces_of, size in *. rewrite length_map.
    pose proof (length_filter (sent_by (addr_of (t_from x))) (chain_txs bs)). lia.
Qed.

(** Valid transactions of the C++ type are those that [parse] gives. *)
Lemma txs_ok_wire p h st i ts : Forall wf_tx ts → txs_ok p h st i ts → Forall wire_tx ts.
Proof.
  intros Hw H. induction H as [|st i t ts [_ Ht] Hts IH]; [constructor|].
  apply Forall_cons in Hw as [Hw1 Hw]. constructor; [|by apply IH]. split; [done|].
  destruct (bool_decide (i = 0%nat)).
  - destruct Ht as (_ & _ & _ & -> & _). done.
  - destruct Ht as (_ & _ & [(_ & -> & _)|(_ & _ & _ & ?)]); done.
Qed.

Lemma valid_wire p bs : Forall wf_block bs → chain_valid p bs → Forall wire_block bs.
Proof.
  intros Hw Hv. induction Hv as [|bs b Hv IH Hn]; [constructor|].
  apply Forall_app in Hw as [Hw [[Hh Hb] _]%Forall_cons].
  apply Forall_app. split; [by apply IH|]. constructor; [|constructor]. split; [done|].
  unfold next_ok in Hn. destruct (last bs) as [prev|].
  - split; [by eapply txs_ok_wire, Hn|apply Hn].
  - destruct Hn as [_ ->]. split; [constructor|done].
Qed.

Lemma map_txid_inj ts us : (∀ t, t ∈ ts → tx_enc t ∈ K) → (∀ t, t ∈ us → tx_enc t ∈ K) →
  Forall wire_tx ts → Forall wire_tx us → map txid ts = map txid us → ts = us ∨ collision K.
Proof.
  intros H1 H2 Ht. revert us H2. induction Ht as [|t ts Ht Hts IH]; intros [|u us] H2 Hu E; try done; [by left|].
  injection E as E1 E2. apply Forall_cons in Hu as [Hu Hus].
  destruct (txid_inj K t u (H1 t ltac:(left)) (H2 u ltac:(left)) Ht Hu E1) as [->|?]; [|by right].
  destruct (IH (λ t Ht, H1 t ltac:(by right)) us (λ t Ht, H2 t ltac:(by right)) Hus E2) as [->|?];
    [by left|by right].
Qed.

Lemma map_txid_NoDup ts : (∀ t, t ∈ ts → tx_enc t ∈ K) → Forall wire_tx ts → NoDup ts →
  NoDup (map txid ts) ∨ collision K.
Proof.
  intros HK. induction 1 as [|t ts Ht Hts IH]; intros Hn; [left; constructor|].
  apply NoDup_cons in Hn as [Hn Hd]. destruct (IH (λ t Ht, HK t ltac:(by right)) Hd) as [?|?]; [|by right].
  cbn [map]. destruct (decide (txid t ∈ map txid ts)) as [Hin|Hin]; [|left; by constructor].
  apply list_elem_of_fmap in Hin as (u & E & Hu). rewrite Forall_forall in Hts.
  destruct (txid_inj K t u (HK t ltac:(left)) (HK u ltac:(by right)) Ht (Hts u Hu) E) as [->|?];
    [done|by right].
Qed.

(** ** The Merkle root of a block determines its transactions *)

(** A transaction id is not an inner node: the encodings differ in length. *)
Lemma txid_not_parent t a b : tx_enc t ∈ K → a ++ b ∈ K → wf_tx t → wf_array 32 a → wf_array 32 b →
  txid t = merkle_parent a b → collision K.
Proof.
  intros H1 H2 Ht [Ha _] [Hb _] E. rewrite txid_enc in E.
  apply (hash256d_inj K) in E as [E|?]; [|done..]. exfalso.
  pose proof (length_tx_enc t Ht) as Hl. rewrite E, length_app in Hl. lia.
Qed.

Lemma wf_txids ts : wf_level (map txid ts).
Proof. apply Forall_fmap. apply Forall_forall. intros t _. apply wf_txid. Qed.

Lemma snoc_inv {A} (l : list A) : l ≠ [] → ∃ k x, l = k ++ [x].
Proof. destruct l as [|x k _] using rev_ind; [done|]. by exists k, x. Qed.

Lemma wf_merkle_apply leaf steps : wf_array 32 leaf →
  Forall (λ s, wf_array 32 (step_h s)) steps → wf_array 32 (merkle_apply leaf steps).
Proof.
  intros Hl Hs. unfold merkle_apply. revert leaf Hl.
  induction Hs as [|s steps Hs _ IH]; intros leaf Hl; [done|]. cbn [foldl]. apply IH.
  unfold apply_step. case_match; apply wf_hash256d.
Qed.

(** A path longer than the tree is deep passes through a leaf. *)
Lemma merkle_apply_long ts leaf steps : txs_pre ts ⊆ K → path_pre leaf steps ⊆ K →
  ts ≠ [] → Forall wf_tx ts → wf_array 32 leaf →
  Forall (λ s, wf_array 32 (step_h s)) steps → (depth (map txid ts) < length steps)%nat →
  merkle_apply leaf steps = merkle_root (map txid ts) → collision K.
Proof.
  intros [HK1 HK2]%txs_pre_subseteq HP Hne Hw Hl Hs Hd E. set (d := depth (map txid ts)) in *.
  set (n := (length steps - d)%nat).
  assert (length (drop n steps) = d) as Hpost by (rewrite length_drop; lia).
  destruct (snoc_inv (take n steps)) as (pre & s & Epre).
  { intros E0. apply (f_equal length) in E0. rewrite length_take in E0. cbn in E0. lia. }
  rewrite <- (take_drop n steps), Epre in E, HP, Hs. rewrite <- !app_assoc, path_pre_app in HP.
  cbn [app path_pre] in HP. apply list_subseteq_app_iff_l in HP as [_ [HPs HP]%list_subseteq_cons_iff].
  unfold merkle_apply in E. rewrite !foldl_app in E. cbn [foldl] in E. fold (merkle_apply leaf pre) in E.
  apply Forall_app in Hs as [[Hpre Hss%Forall_inv]%Forall_app Hrest].
  assert (wf_array 32 (merkle_apply leaf pre)) as Hm by by apply wf_merkle_apply.
  set (y := merkle_apply leaf pre) in *. set (x := apply_step y s) in *.
  assert (∃ a b, wf_array 32 a ∧ wf_array 32 b ∧ a ++ b ∈ K ∧ x = merkle_parent a b) as (a & b & Ha & Hb & Hab & Ex).
  { subst x. unfold apply_step, step_pre in *.
    destruct (step_left s); eexists _, _; split_and!; [exact Hss|exact Hm|done|done|exact Hm|exact Hss|done|done]. }
  destruct (merkle_apply_sound K (map txid ts) x (drop n steps)) as [Hin|?]; try done.
  - by destruct ts.
  - apply wf_txids.
  - rewrite Ex. apply wf_hash256d.
  - apply list_elem_of_fmap in Hin as (t & Et & Ht). rewrite Forall_forall in Hw.
    apply (txid_not_parent t a b); auto. by rewrite <- Et.
Qed.

(** The path of a leaf hashes what the tree hashes. *)
Lemma proof_pre level idx leaf : level !! idx = Some leaf →
  path_pre leaf (merkle_proof level idx) ⊆ tree_pre level.
Proof.
  intros Hi. assert (level ≠ []) as Hne by by intros ->.
  revert idx leaf Hi. pattern level. apply level_ind; [| |done]; clear level Hne.
  - intros x idx leaf _. rewrite merkle_proof_single. apply list_subseteq_nil.
  - intros level Hl IH idx leaf Hi. rewrite merkle_proof_step, tree_pre_step by done.
    cbn [path_pre]. apply list_subseteq_cons_iff. split.
    + apply elem_of_app. left. by apply step_pre_elem.
    + apply list_subseteq_app_r, IH. by apply proof_step_parent.
Qed.

Lemma merkle_depth_le ts us : txs_pre ts ⊆ K → txs_pre us ⊆ K → ts ≠ [] → us ≠ [] → Forall wf_tx ts →
  merkle_root (map txid ts) = merkle_root (map txid us) →
  (depth (map txid us) ≤ depth (map txid ts))%nat ∨ collision K.
Proof.
  intros [HK1 HK2]%txs_pre_subseteq [HK3 HK4]%txs_pre_subseteq Ht Hu Hw E. destruct ts as [|t ts]; [done|].
  destruct (decide (depth (map txid us) ≤ depth (map txid (t :: ts)))%nat) as [|Hd]; [by left|].
  right. destruct (merkle_apply_short K (map txid us) (txid t) (merkle_proof (map txid (t :: ts)) 0))
    as [(a & b & Ha & Hb & Hab & Ex)|?]; try done.
  - etrans; [by apply proof_pre|done].
  - apply wf_txids.
  - apply wf_txid.
  - apply wf_merkle_proof, wf_txids.
  - unfold depth in *. lia.
  - rewrite <- E. by apply merkle_proof_correct.
  - apply Forall_cons in Hw as [Hw _]. exact (txid_not_parent t a b (HK1 t ltac:(left)) Hab Hw Ha Hb Ex).
Qed.

Lemma wire_txs_wf ts : Forall wire_tx ts → Forall wf_tx ts.
Proof. intros H. eapply Forall_impl; [exact H|]. by intros ? []. Qed.

Lemma txids_binding ts us : txs_pre ts ⊆ K → txs_pre us ⊆ K →
  ts ≠ [] → us ≠ [] → Forall wire_tx ts → Forall wire_tx us →
  NoDup ts → NoDup us → merkle_root (map txid ts) = merkle_root (map txid us) →
  ts = us ∨ collision K.
Proof.
  intros HKt HKu Ht Hu Hwt Hwu Hnt Hnu E.
  pose proof (wire_txs_wf ts Hwt) as Hwt'. pose proof (wire_txs_wf us Hwu) as Hwu'.
  destruct (merkle_depth_le ts us HKt HKu Ht Hu Hwt' E) as [Hd1|?]; [|by right].
  destruct (merkle_depth_le us ts HKu HKt Hu Ht Hwu' (eq_sym E)) as [Hd2|?]; [|by right].
  apply txs_pre_subseteq in HKt as [HKt HKt2], HKu as [HKu HKu2].
  destruct (map_txid_NoDup ts HKt Hwt Hnt) as [Hn1|?]; [|by right].
  destruct (map_txid_NoDup us HKu Hwu Hnu) as [Hn2|?]; [|by right].
  destruct (merkle_root_binding K (map txid ts) (map txid us)) as [Ex|?];
    auto using wf_txids; try lia; [by destruct ts|by destruct us|].
  by apply map_txid_inj.
Qed.

(** ** The hash of the tip determines the chain *)

Lemma block_txs_NoDup p h s ts : wf_state s → ts ≠ [] → txs_ok p h s 0 ts →
  size ts ≤ 2 ^ 64 → NoDup ts.
Proof.
  intros Hs Hne H Hl. apply (NoDup_by_filter t_nonce). intros x Hx.
  destruct (decide (is_coinbase x)) as [Hc|Hc].
  - exists is_coinbase, _. split; [done|]. rewrite (block_coinbases p h s ts) by done.
    apply NoDup_singleton.
  - exists (sent_by (addr_of (t_from x))), _. split; [done|].
    fold (nonces_of (addr_of (t_from x)) ts).
    destruct (txs_ok_nonces p h s 0 ts (addr_of (t_from x)) Hs H) as [-> _].
    apply nonce_seq_NoDup. unfold nonces_of, size in *. rewrite length_map.
    pose proof (length_filter (sent_by (addr_of (t_from x))) ts). lia.
Qed.

Lemma extends_txs_NoDup p bs prev b : extends p bs prev b → NoDup (b_txs b).
Proof.
  intros Hx. eapply (block_txs_NoDup p); [apply wf_ledger|apply size_pos, Hx|apply Hx|].
  destruct Hx as [_ _ _ _ _ _ [_ H] _ _]. unfold MAX_BLOCK_TXS in H. lia.
Qed.

(** Two blocks with the same header that extend a chain are equal. *)
Lemma same_header_blocks p bs ks pb pk b k : block_pre b ⊆ K → block_pre k ⊆ K →
  extends p bs pb b → extends p ks pk k →
  wire_block b → wire_block k → b_h b = b_h k → b = k ∨ collision K.
Proof.
  intros [_ HKb]%block_pre_subseteq [_ HKk]%block_pre_subseteq Hb Hk (_ & Hwb & _) (_ & Hwk & _) E.
  destruct (txids_binding (b_txs b) (b_txs k)) as [Et|?]; [..|by right]; try done.
  - apply size_pos, Hb.
  - apply size_pos, Hk.
  - by eapply extends_txs_NoDup.
  - by eapply extends_txs_NoDup.
  - transitivity (h_merkle (b_h b)); [apply Hb|]. rewrite E. symmetry. apply Hk.
  - left. destruct b, k; cbn in *. by subst.
Qed.

Lemma extends_height p bs prev b : chain_pre p (bs ++ [b]) ⊆ K → wf_params p → Forall wf_block (bs ++ [b]) →
  chain_valid p (bs ++ [b]) → last bs = Some prev → size (bs ++ [b]) ≤ 2 ^ 64 →
  h_height (b_h b) ≠ 0 ∨ collision K.
Proof.
  intros HK Hp Hw Hv El Hs. destruct (valid_heights p _ HK Hp Hw Hv) as [Hh|?]; [left|by right].
  rewrite (Hh (length bs) b) by by apply list_lookup_middle.
  unfold size in Hs. rewrite length_app in Hs. cbn [length] in Hs.
  rewrite wrap_small by (unfold in_width; lia). destruct bs; [done|cbn; lia].
Qed.

Lemma genesis_height p bs b : chain_pre p (bs ++ [b]) ⊆ K → wf_params p → wf_block b → genesis_ok p b →
  h_height (b_h b) = 0 ∨ collision K.
Proof.
  intros [[HK _]%chain_pre_subseteq [HKb _]%block_pre_subseteq]%chain_pre_snoc Hp Hw Hg.
  destruct (genesis_header p b HKb HK Hp Hw Hg) as [->|?]; [by left|by right].
Qed.

Lemma tip_binding p bs ks : chain_pre p bs ⊆ K → chain_pre p ks ⊆ K → wf_params p → Forall wf_block bs → Forall wf_block ks →
  chain_valid p bs → chain_valid p ks → size bs ≤ 2 ^ 64 → size ks ≤ 2 ^ 64 →
  bs ≠ [] → ks ≠ [] → block_hash <$> last bs = block_hash <$> last ks →
  bs = ks ∨ collision K.
Proof.
  intros HKb HKk Hp Hwb Hwk Hvb. revert ks HKk Hwk. induction Hvb as [|bs b Hvb IH Hb]; [done|].
  intros ks HKk Hwk Hvk Hsb Hsk _ Hk E. apply snoc_inv in Hk as (ks' & k & ->).
  rewrite !last_snoc in E. injection E as E.
  pose proof (chain_valid_snoc p bs b Hvb Hb) as Hvb'.
  pose proof (valid_wire p _ Hwb Hvb') as Hzb. pose proof (valid_wire p _ Hwk Hvk) as Hzk.
  apply Forall_app in Hzb as [_ [Hzb _]%Forall_cons]. apply Forall_app in Hzk as [_ [Hzk _]%Forall_cons].
  pose proof HKb as [HKb1 HKb2]%chain_pre_snoc. pose proof HKk as [HKk1 HKk2]%chain_pre_snoc.
  destruct (header_hash_inj K (b_h b) (b_h k)) as [Eh|?];
    [by apply block_pre_subseteq|by apply block_pre_subseteq|apply Hzb|apply Hzk|done| |by right].
  pose proof (chain_valid_snoc_inv _ _ _ Hvk) as [Hvk' Hk].
  pose proof (proj1 (proj1 (Forall_app _ _ _) Hwb)) as Hwb1.
  pose proof (proj1 (proj1 (Forall_app _ _ _) Hwk)) as Hwk1.
  assert (wf_block b) as Hb1 by by eapply Forall_inv, Forall_app.
  assert (wf_block k) as Hk1 by by eapply Forall_inv, Forall_app.
  unfold next_ok in Hb, Hk. destruct (last bs) as [pb|] eqn:Eb, (last ks') as [pk|] eqn:Ek.
  - destruct (same_header_blocks p bs ks' pb pk b k) as [->|?]; [done..| |by right].
    assert (bs ≠ [] ∧ ks' ≠ []) as [Hne1 Hne2] by (split; by intros ->).
    unfold size in *. rewrite length_app in Hsb, Hsk.
    destruct (IH HKb1 Hwb1 ks' HKk1 Hwk1 Hvk' ltac:(lia) ltac:(lia) Hne1 Hne2) as [->|?]; [|by left|by right].
    rewrite Ek. cbn. f_equal. rewrite <- (ext_prev _ _ _ _ Hb), <- (ext_prev _ _ _ _ Hk). done.
  - destruct (genesis_height p ks' k) as [Hz|?]; [done..| |by right].
    destruct (extends_height p bs pb b) as [Hnz|?]; [done..| |by right]. congruence.
  - destruct (genesis_height p bs b) as [Hz|?]; [done..| |by right].
    destruct (extends_height p ks' pk k) as [Hnz|?]; [done..| |by right]. congruence.
  - apply last_None in Eb as ->, Ek as ->. left. destruct Hb as [_ Hb], Hk as [_ Hk].
    destruct b, k; cbn in *. by subst.
Qed.

(** A path from a transaction's id to the root of a block, of any length. *)
Lemma merkle_path_txid ts t steps : txs_pre ts ⊆ K → tx_enc t ∈ K → path_pre (txid t) steps ⊆ K →
  ts ≠ [] → Forall wire_tx ts → wire_tx t →
  Forall (λ s, wf_array 32 (step_h s)) steps →
  merkle_apply (txid t) steps = merkle_root (map txid ts) → t ∈ ts ∨ collision K.
Proof.
  intros HK HKt HP Hne Hw Ht Hs E. pose proof (wire_txs_wf ts Hw) as Hwt.
  pose proof HK as [HK1 HK2]%txs_pre_subseteq.
  assert (wf_level (map txid ts) ∧ wf_array 32 (txid t)) as [Hl Hi] by (split; [apply wf_txids|apply wf_txid]).
  destruct (Nat.lt_trichotomy (length steps) (depth (map txid ts))) as [Hd|[Hd|Hd]].
  - destruct (merkle_apply_short K _ _ _ HK2 HP Hl Hi Hs Hd E) as [(a & b & Ha & Hb & Hab & Ex)|?]; right; [|done].
    by apply (txid_not_parent t a b); [..|apply Ht| | |].
  - destruct (merkle_apply_sound K (map txid ts) (txid t) steps) as [Hin|?]; try done;
      [by destruct ts| |by right].
    apply list_elem_of_fmap in Hin as (u & Eu & Hu). rewrite Forall_forall in Hw.
    destruct (txid_inj K t u HKt (HK1 u Hu) Ht (Hw u Hu) Eu) as [->|?]; [by left|by right].
  - right. by apply (merkle_apply_long ts (txid t) steps).
Qed.

(** The root of two or more transactions is not the id of one. *)
Lemma root_not_txid ts t : tree_pre (map txid ts) ⊆ K → tx_enc t ∈ K →
  (1 < length ts)%nat → Forall wire_tx ts → wire_tx t →
  merkle_root (map txid ts) ≠ txid t ∨ collision K.
Proof.
  intros HK HKt Hl Hw Ht. destruct (decide (merkle_root (map txid ts) = txid t)) as [E|?]; [right|by left].
  destruct (merkle_apply_short K (map txid ts) (txid t) []) as [(a & b & Ha & Hb & Hab & Ex)|?]; try done.
  - apply list_subseteq_nil.
  - by apply wf_txids.
  - apply wf_txid.
  - rewrite depth_step by by rewrite length_map. cbn. lia.
  - by apply (txid_not_parent t a b); [..|apply Ht| | |].
Qed.

(** ** Blocks inside a chain *)

Lemma chain_valid_next p bs i b : chain_valid p bs → bs !! i = Some b → next_ok p (take i bs) b.
Proof.
  intros Hv Hi. rewrite <- (take_drop_middle bs i b Hi) in Hv.
  replace (take i bs ++ b :: drop (S i) bs) with ((take i bs ++ [b]) ++ drop (S i) bs) in Hv
    by by rewrite <- app_assoc.
  by apply chain_valid_prefix, chain_valid_snoc_inv in Hv as [_ ?].
Qed.

Lemma chain_valid_extends p bs i b : chain_valid p bs → bs !! S i = Some b →
  ∃ prev, bs !! i = Some prev ∧ extends p (take (S i) bs) prev b.
Proof.
  intros Hv Hi. pose proof (chain_valid_next p bs (S i) b Hv Hi) as Hn. unfold next_ok in Hn.
  destruct (lookup_lt_is_Some_2 bs i) as [prev Hprev]; [apply lookup_lt_Some in Hi; lia|].
  rewrite (take_S_r _ _ _ Hprev), last_snoc in Hn. exists prev. split; [done|].
  by rewrite (take_S_r _ _ _ Hprev).
Qed.

Lemma chain_valid_pow p bs i b : chain_valid p bs → bs !! S i = Some b →
  pow_ok (header_hash (b_h b)) (h_bits (b_h b)) = true.
Proof.
  intros Hv Hi. destruct (chain_valid_extends p bs i b Hv Hi) as (prev & _ & [_ _ _ _ Hb Hp _ _ _]).
  by rewrite Hb.
Qed.

(** A block with transactions commits to them and carries its proof of work. *)
Lemma chain_valid_lookup p bs i b : chain_valid p bs → bs !! i = Some b → b_txs b ≠ [] →
  merkle_root (map txid (b_txs b)) = h_merkle (b_h b) ∧
  pow_ok (header_hash (b_h b)) (h_bits (b_h b)) = true.
Proof.
  intros Hv Hi Hne. destruct i as [|i].
  - apply (chain_valid_next p) in Hi; [|done]. destruct Hi as [_ ?]. congruence.
  - destruct (chain_valid_extends p bs i b Hv Hi) as (prev & _ & Hx).
    split; [apply Hx|by eapply chain_valid_pow].
Qed.

(** ** The transaction index *)

Definition block_entries (b : Block) : list (bytes * (Z * Z)) :=
  imap (λ (j : nat) t, (txid t, (u32 (h_height (b_h b)), u32 (Z.of_nat j)))) (b_txs b).

Lemma index_txs_entries (h : Z) (i : nat) (ts : list Tx) (m : gmap (list Z) (Z * Z)) :
  index_txs h (Z.of_nat i) ts m =
    foldl (λ m kv, <[kv.1 := kv.2]> m) m (imap (λ (j : nat) t, (txid t, (u32 h, u32 (Z.of_nat (i + j))))) ts).
Proof.
  revert i m. induction ts as [|t ts IH]; intros i m; [done|]. cbn [index_txs imap foldl fst snd].
  rewrite Nat.add_0_r. replace (Z.of_nat i + 1) with (Z.of_nat (S i)) by lia. rewrite IH. f_equal.
  apply imap_ext. intros j x _. cbn. do 3 f_equal. lia.
Qed.

Lemma index_of_entries bs :
  index_of bs = list_to_map (reverse (concat (map block_entries bs))).
Proof.
  induction bs as [|b bs IH] using rev_ind; [done|].
  rewrite index_of_snoc, IH, (index_txs_entries _ 0), map_app, concat_app.
  cbn [map concat]. rewrite app_nil_r, reverse_app, list_to_map_app.
  unfold block_entries. rewrite <- (reverse_involutive (imap _ (b_txs b))) at 1.
  rewrite foldl_reverse. induction (reverse (imap _ (b_txs b))) as [|[k v] l IHl]; cbn [foldr list_to_map fst snd].
  - by rewrite (left_id_L ∅ (∪)).
  - rewrite IHl. by rewrite insert_union_l.
Qed.

Lemma entries_keys bs : (concat (map block_entries bs)).*1 = map txid (chain_txs bs).
Proof.
  unfold chain_txs. induction bs as [|b bs IH]; [done|]. cbn [map concat].
  rewrite fmap_app, map_app, IH. f_equal. unfold block_entries. rewrite fmap_imap.
  apply list_eq. intros i. rewrite list_lookup_imap, list_lookup_fmap. by destruct (b_txs b !! i).
Qed.

Lemma elem_of_block_entries bs id v : (id, v) ∈ concat (map block_entries bs) ↔
  ∃ b j t, b ∈ bs ∧ b_txs b !! j = Some t ∧ id = txid t ∧
    v = (u32 (h_height (b_h b)), u32 (Z.of_nat j)).
Proof.
  rewrite list_elem_of_In, in_concat. split.
  - intros (l & Hl & Hin). apply list_elem_of_In in Hl, Hin.
    apply list_elem_of_fmap in Hl as (b & -> & Hb).
    apply list_elem_of_lookup in Hin as [j Hj].
    apply list_lookup_imap_Some in Hj as (t & Ht & [= -> ->]). by exists b, j, t.
  - intros (b & j & t & Hb & Ht & -> & ->). exists (block_entries b).
    split; apply list_elem_of_In; [by apply list_elem_of_fmap_2|].
    apply list_elem_of_lookup. exists j. apply list_lookup_imap_Some. by exists t.
Qed.

(** What the index holds is the place of a transaction of the chain. *)
Lemma index_of_sound bs id v : index_of bs !! id = Some v →
  ∃ b j t, b ∈ bs ∧ b_txs b !! j = Some t ∧ id = txid t ∧
    v = (u32 (h_height (b_h b)), u32 (Z.of_nat j)).
Proof.
  rewrite index_of_entries. intros H%elem_of_list_to_map_2.
  rewrite elem_of_reverse in H. by apply elem_of_block_entries.
Qed.

(** Every transaction of the chain is found at its place. *)
Lemma index_of_complete p bs : chain_pre p bs ⊆ K → wf_params p → Forall wf_block bs → chain_valid p bs →
  size bs ≤ 2 ^ 64 → size (chain_txs bs) ≤ 2 ^ 64 →
  (∀ b j t, b ∈ bs → b_txs b !! j = Some t →
    index_of bs !! txid t = Some (u32 (h_height (b_h b)), u32 (Z.of_nat j))) ∨ collision K.
Proof.
  intros HK Hp Hw Hv Hs Hc.
  destruct (valid_txs_NoDup p bs) as [Hn|?]; [done..| |by right].
  assert (Forall wire_tx (chain_txs bs)) as Hz.
  { apply Forall_concat, Forall_fmap. eapply Forall_impl; [by eapply valid_wire|].
    by intros x (_ & ? & _). }
  assert (∀ t, t ∈ chain_txs bs → tx_enc t ∈ K) as HKt.
  { apply chain_pre_subseteq in HK as [_ HK]. intros t. unfold chain_txs. rewrite list_elem_of_In, in_concat.
    intros (ts & Hts & Ht). apply in_map_iff in Hts as (b & <- & Hb).
    specialize (HK b ltac:(by apply list_elem_of_In)).
    apply block_pre_subseteq in HK as [_ [HK _]%txs_pre_subseteq]. by apply HK, list_elem_of_In. }
  destruct (map_txid_NoDup _ HKt Hz Hn) as [Hk|?]; [left|by right]. intros b j t Hb Ht.
  rewrite index_of_entries. apply elem_of_list_to_map_1.
  - by rewrite fmap_reverse, reverse_Permutation, entries_keys.
  - rewrite elem_of_reverse. apply elem_of_block_entries. by exists b, j, t.
Qed.

(** The places that the index stores are not cut off. *)
Lemma valid_index_bound p bs b j t : Forall wf_block bs → chain_valid p bs → b ∈ bs →
  b_txs b !! j = Some t → u32 (Z.of_nat j) = Z.of_nat j.
Proof.
  intros Hw Hv Hb Ht. pose proof (valid_wire p bs Hw Hv) as Hz. rewrite Forall_forall in Hz.
  destruct (Hz b Hb) as (_ & _ & Hs). apply lookup_lt_Some in Ht. apply wrap_small.
  unfold size, MAX_BLOCK_TXS, in_width in *. lia.
Qed.

Lemma valid_height_bound bs i b : (∀ i b, bs !! i = Some b → h_height (b_h b) = u64 (Z.of_nat i)) →
  size bs ≤ 2 ^ 32 → bs !! i = Some b → u32 (h_height (b_h b)) = Z.of_nat i.
Proof.
  intros Hh Hs Hi. rewrite (Hh i b Hi). apply lookup_lt_Some in Hi. unfold size in Hs.
  rewrite !wrap_small; [done|unfold in_width; lia..|]. rewrite wrap_small; unfold in_width; lia.
Qed.

(** What an entry of the index stands for. *)
Lemma txidx_lookup {D} (c : Chain D) id h j : (∀ i b, blocks c !! i = Some b → h_height (b_h b) = u64 (Z.of_nat i)) →
  chain_inv c → size (blocks c) ≤ 2 ^ 32 → txidx c !! id = Some (h, j) →
  ∃ b t, blocks c !! Z.to_nat h = Some b ∧ b_txs b !! Z.to_nat j = Some t ∧ txid t = id ∧
    0 ≤ h ∧ 0 ≤ j ∧ b ∈ blocks c.
Proof.
  intros Hh Hc Hs. rewrite (ci_txidx c Hc). intros (b & k & t & Hb & Hk & -> & [= -> ->])%index_of_sound.
  rewrite (valid_index_bound (params c) (blocks c) b k t) by (apply Hc || done).
  pose proof Hb as [i Hi]%list_elem_of_lookup. rewrite (valid_height_bound _ i b Hh Hs Hi).
  exists b, t. rewrite !Nat2Z.id. split_and!; done || lia.
Qed.
End consensus.

(** ** Theorems on the members of a chain *)

Section theorems.
Context `{HF : HashFn} `{CN : Cng} {D : Type}.
Implicit Types c : Chain D.

(** C6: coins are only created by coinbases. The balances of a chain add up to the
    reward times the number of mined blocks, modulo [2 ^ 64], and exactly as long
    as that product fits 64 bits; no balance is larger than the total. *)
Theorem supply_conservation c : chain_inv c → 0 ≤ p_reward (params c) →
  let minted := p_reward (params c) * Z.of_nat (pred (length (blocks c))) in
  u64 (supply (st c)) = u64 minted ∧
  (minted < 2 ^ 64 → supply (st c) = minted ∧ ∀ a, 0 ≤ balance (acct (st c) a) ≤ minted).
Proof.
  intros Hc Hr minted. rewrite (ci_st c Hc). split; [apply valid_supply_mod, Hc|]. intros Hs.
  assert (supply (ledger (blocks c)) = minted) as E by (apply valid_supply; (apply Hc || done)).
  split; [done|]. intros a. rewrite (ci_st c Hc), <- E. pose proof (wf_ledger (blocks c)) as Hw.
  split; [apply (wf_acct _ a Hw)|by apply balance_le_supply].
Qed.

(** C7: no transaction can be replayed. The transactions that an address sent
    along the chain carry the nonces 0, 1, 2, ... in this order and without
    repetition, and the account holds the next one. *)
Theorem no_replay c a : chain_inv c → size (chain_txs (blocks c)) ≤ 2 ^ 64 →
  let sent := nonces_of a (chain_txs (blocks c)) in
  sent = nonce_seq 0 (length sent) ∧ NoDup sent ∧ nonce (acct (st c) a) = u64 (size sent).
Proof.
  intros Hc Hs sent. destruct (valid_nonces (params c) (blocks c) a) as [E En]; [apply Hc|].
  fold sent in E, En. split_and!; [done| |by rewrite (ci_st c Hc)].
  rewrite E. apply nonce_seq_NoDup. unfold sent, nonces_of, size in *. rewrite length_map.
  pose proof (length_filter (sent_by a) (chain_txs (blocks c))). lia.
Qed.

(** C8: the hash of the tip commits to the whole history. Two chains with the same
    parameters and the same tip hash have the same blocks, hence the same
    accounts, index and work, unless two of the strings hashed for the two chains
    collide. *)
Theorem tip_hash_commits c1 c2 : wf_params (params c1) → chain_inv c1 → chain_inv c2 →
  params c1 = params c2 → size (blocks c1) ≤ 2 ^ 64 → size (blocks c2) ≤ 2 ^ 64 →
  blocks c1 ≠ [] → blocks c2 ≠ [] → tip_hash c1 = tip_hash c2 →
  (blocks c1 = blocks c2 ∧ st c1 ≡ st c2 ∧ txidx c1 = txidx c2 ∧ work c1 = work c2) ∨
  collision (chain_pre (params c1) (blocks c1) ++ chain_pre (params c1) (blocks c2)).
Proof.
  intros Hp H1 H2 Ep Hs1 Hs2 Hn1 Hn2 E. rewrite (chain_inv_tip c1), (chain_inv_tip c2) in E by done.
  set (K := chain_pre (params c1) (blocks c1) ++ _).
  destruct (tip_binding K (params c1) (blocks c1) (blocks c2)) as [Eb|?];
    try done; [by apply list_subseteq_app_l|by apply list_subseteq_app_r|apply H1|apply H2|apply H1|rewrite Ep; apply H2| |by right].
  left. split_and!; [done| | |].
  - by rewrite (ci_st c1), (ci_st c2), Eb.
  - by rewrite (ci_txidx c1), (ci_txidx c2), Eb.
  - by rewrite (ci_work c1), (ci_work c2), Eb, Ep.
Qed.

(** C38: the transaction index is exact. A transaction of the chain is found at the
    height and position where it is, and what the index holds is the place of a
    transaction with that id (unless two of the strings hashed for the chain collide). *)
Theorem txidx_exact c : wf_params (params c) → chain_inv c →
  size (blocks c) ≤ 2 ^ 32 → size (chain_txs (blocks c)) ≤ 2 ^ 64 →
  (∀ id h j, txidx c !! id = Some (h, j) ↔
     ∃ b t, blocks c !! Z.to_nat h = Some b ∧ b_txs b !! Z.to_nat j = Some t ∧ txid t = id ∧
       0 ≤ h ∧ 0 ≤ j) ∨ collision (chain_pre (params c) (blocks c)).
Proof.
  intros Hp Hc Hs Ht.
  set (K := chain_pre (params c) (blocks c)). assert (K ⊆ K) as HK by done.
  destruct (valid_heights K (params c) (blocks c) HK Hp (ci_wf c Hc) (ci_valid c Hc)) as [Hh|?]; [|by right].
  destruct (index_of_complete K (params c) (blocks c)) as [Hall|?]; try done;
    [apply Hc|apply Hc|lia| |by right].
  left. intros id h j. split.
  - intros H. destruct (txidx_lookup c id h j Hh Hc Hs H) as (b & t & ? & ? & ? & ? & ? & _).
    by exists b, t.
  - rewrite (ci_txidx c Hc). intros (b & t & Hb & Hk & <- & H0 & H1).
    pose proof (list_elem_of_lookup_2 _ _ _ Hb) as Hin. rewrite (Hall b _ t Hin Hk).
    rewrite (valid_index_bound (params c) (blocks c) b _ t), (valid_height_bound _ _ b Hh Hs Hb)
      by (apply Hc || done).
    by rewrite !Z2Nat.id.
Qed.

(** C37: a Merkle proof of a transaction is sound whatever its length. If a path,
    of any number of 32-byte steps, leads from the id of a transaction to the Merkle
    root in the header of a block of the chain, then the transaction is in the block,
    or two of the strings hashed for the block, the transaction and along the path
    collide: an inner node cannot pass for a transaction,
    whose encoding is longer than two hashes. And every transaction of the block has
    such a path. *)
Theorem tx_proof_sound c i b t : chain_inv c → blocks c !! i = Some b → b_txs b ≠ [] →
  wire_tx t →
  (t ∈ b_txs b → ∃ steps, Forall (λ s, wf_array 32 (step_h s)) steps ∧
     merkle_apply (txid t) steps = h_merkle (b_h b)) ∧
  (∀ steps, Forall (λ s, wf_array 32 (step_h s)) steps →
     merkle_apply (txid t) steps = h_merkle (b_h b) →
     t ∈ b_txs b ∨ collision (txs_pre (b_txs b) ++ tx_enc t :: path_pre (txid t) steps)).
Proof.
  intros Hc Hi Hne Ht.
  destruct (chain_valid_lookup (params c) (blocks c) i b (ci_valid c Hc) Hi Hne) as [<- _].
  split.
  - intros (j & Hj)%list_elem_of_lookup. exists (merkle_proof (map txid (b_txs b)) j).
    split; [apply wf_merkle_proof, wf_txids|]. apply merkle_proof_correct.
    by rewrite list_lookup_fmap, Hj.
  - intros steps Hs E. pose proof (valid_wire _ _ (ci_wf c Hc) (ci_valid c Hc)) as Hz.
    apply (Forall_lookup_1 _ _ _ _ Hz) in Hi as (_ & Hzt & _).
    eapply merkle_path_txid; try done.
    + by apply list_subseteq_app_l.
    + apply elem_of_app. right. left.
    + apply list_subseteq_app_r, list_subseteq_cons. done.
Qed.
End theorems.
