(* ===== verification/Recovery.v ===== *)
(** * Recovery: [try_replace], [init] and the database of [src/core.h]

    What the loops over candidate blocks and stored rows compute, and that the
    [blocks] table stays the serialized chain. *)

From S2P Require Import Prelude Hex Serial Sha256 Hash Crypto Merkle Tx Ledger Store Chain Consensus.

Local Open Scope Z_scope.

(** ** Common prefix *)

Lemma common_prefix_take hs ks :
  take (common_prefix hs ks) hs = take (common_prefix hs ks) ks.
Proof.
  revert ks. induction hs as [|h hs IH]; intros [|k ks]; cbn; try done.
  case_bool_decide; [|done]. subst. cbn. by rewrite IH.
Qed.

Lemma common_prefix_max hs ks h k :
  hs !! common_prefix hs ks = Some h → ks !! common_prefix hs ks = Some k → h ≠ k.
Proof.
  revert ks. induction hs as [|x hs IH]; intros [|y ks]; cbn; try done.
  case_bool_decide; cbn; [apply IH|]. congruence.
Qed.

Lemma common_prefix_le hs ks :
  (common_prefix hs ks ≤ length hs)%nat ∧ (common_prefix hs ks ≤ length ks)%nat.
Proof.
  revert ks. induction hs as [|x hs IH]; intros [|y ks]; cbn; try lia.
  case_bool_decide; [specialize (IH ks)|]; lia.
Qed.

Section replace.
Context `{HF : HashFn} `{CN : Cng} {D : Type} `{DB : Sqlite D}.
Implicit Types c : Chain D.

(** Every block but the first of the chain passes the clock when it is connected. *)
Definition times_ok (bs : list Block) (cand : list Block) (clock : nat → Z) (i : nat) : Prop :=
  ∀ j b, cand !! j = Some b → time_ok (bs ++ take j cand) b (clock (i + j)%nat).

Lemma times_ok_cons bs b cand clock i : times_ok bs (b :: cand) clock i ↔
  time_ok bs b (clock i) ∧ times_ok (bs ++ [b]) cand clock (S i).
Proof.
  unfold times_ok. split.
  - intros H. split.
    + specialize (H 0%nat b eq_refl). cbn in H. by rewrite app_nil_r, Nat.add_0_r in H.
    + intros j x Hj. specialize (H (S j) x Hj). cbn in H.
      by rewrite <- app_assoc, Nat.add_succ_comm.
  - intros [H0 H] [|j] x Hj.
    + injection Hj as <-. cbn. by rewrite app_nil_r, Nat.add_0_r.
    + specialize (H j x Hj). cbn. by rewrite <- app_assoc, Nat.add_succ_comm in H.
Qed.

Lemma connect_all_cases c cand clock i c' err : chain_inv c → Forall wf_block cand →
  connect_all c cand clock i = (c', err) →
  err = "" ∧ (chain_valid (params c) (blocks c ++ cand) ∧ times_ok (blocks c) cand clock i) ∧
    chain_inv c' ∧ params c' = params c ∧ blocks c' = blocks c ++ cand ∨
  err ≠ "" ∧ ¬ (chain_valid (params c) (blocks c ++ cand) ∧ times_ok (blocks c) cand clock i).
Proof.
  revert c i. induction cand as [|b cand IH]; intros c i Hc Hw H; cbn [connect_all] in H.
  { injection H as <- <-. left. rewrite app_nil_r. split_and!; try done. apply Hc. }
  apply Forall_cons in Hw as [Hb Hw]. rewrite times_ok_cons.
  replace (blocks c ++ b :: cand) with ((blocks c ++ [b]) ++ cand) by by rewrite <- app_assoc.
  destruct (connect_block c b (clock i)) as [c1 err1] eqn:E. case_bool_decide as He; cbn in H.
  - subst err1. apply connect_block_ok in E as (Hn & Ht & Hc1 & Hp & Hbs & _); [|done..].
    specialize (IH c1 (S i) Hc1 Hw H). rewrite Hp, Hbs in IH.
    destruct IH as [(->&[Hv Hts]&?&Hp'&?)|(?&Hn')]; [left|right]; split_and!; try done.
    intros (?&?&?). auto.
  - injection H as <- <-. right. split; [done|]. intros (Hv & Ht & _).
    apply connect_block_cases in E as [(?&_)|(_&_&[])]; [done| |done]. split; [|done].
    apply chain_valid_prefix, chain_valid_snoc_inv in Hv. apply Hv.
Qed.

(** What makes a candidate acceptable. *)
Definition candidate_ok c (cand : list Block) (clock : nat → Z) : Prop :=
  cand ≠ [] ∧ chain_valid (params c) cand ∧ times_ok [] cand clock 0 ∧
  work c < u64 (chain_work (params c) cand).

Lemma try_replace_cases c cand clock c' err f : chain_inv c → Forall wf_block cand →
  try_replace c cand clock = (c', err, f) →
  err = "" ∧ candidate_ok c cand clock ∧
    chain_inv c' ∧ params c' = params c ∧ blocks c' = cand ∧ persisting c' = persisting c ∧
    f = Some (common_prefix (hashes c) (map block_hash cand)) ∧
    db c' = (if persisting c
             then (λ d, db_replace d cand (common_prefix (hashes c) (map block_hash cand))) <$> db c
             else db c) ∨
  err ≠ "" ∧ c' = c ∧ f = None ∧ ¬ candidate_ok c cand clock.
Proof.
  intros Hc Hw. unfold try_replace, candidate_ok. case_bool_decide as Hne.
  { intros [= <- <- <-]. right. split_and!; try done. naive_solver. }
  set (tmp := set_persisting (Chain_new (params c)) false).
  assert (chain_inv (D := D) tmp) as Htmp by (destruct (chain_inv_new (D := D) (params c)); by split).
  destruct (connect_all tmp cand clock 0) as [c1 e1] eqn:E.
  apply connect_all_cases in E as [(->&[Hv Ht]&Hc1&Hp&Hbs)|(He&Hn)]; try done; cbn [blocks params tmp set_persisting Chain_new app] in *.
  - rewrite bool_decide_eq_true_2 by done. cbn [negb].
    pose proof (ci_work c1 Hc1) as Hwk. rewrite Hp, Hbs in Hwk.
    destruct (Z.leb_spec (work c1) (work c)) as [Hle|Hlt]; intros [= <- <- <-].
    + right. split_and!; try done. intros (_&_&_&?). lia.
    + left. pose proof (ci_hashes c1 Hc1) as Hh. rewrite Hbs in Hh.
      cbn [blocks params persisting db]. rewrite Hh, Hbs.
      split_and!; try done; [lia|]. destruct Hc1 as [H1 H2 H3 H4 H5 H6]. rewrite Hp, Hbs in *.
      split; cbn; done.
  - rewrite bool_decide_eq_false_2 by done. intros [= <- <- <-]. right.
    split_and!; try done. intros (_&?&?&_). auto.
Qed.
End replace.

(** ** The blocks table *)

Section stored.
Context `{HF : HashFn} `{CN : Cng} {D : Type} `{DB : Sqlite D} `{DS : !SqliteSpec D}.
Implicit Types c : Chain D.

(** The table holds the serialized blocks under their heights. *)
Definition stored (d : D) (bs : list Block) : Prop :=
  usable d ∧ rows d = rows_of_list (map block_serialize bs).

Definition db_ok c : Prop := ∀ d, db c = Some d → stored d (blocks c).

Lemma rows_insert_txs h i ts d : usable d → Forall wire_tx ts →
  usable (insert_txs h i ts d) ∧ rows (insert_txs h i ts d) = rows d.
Proof.
  intros Hd Ht. revert i d Hd. induction Ht as [|t ts [_ Ht] _ IH]; intros i d Hd; [done|]. cbn [insert_txs].
  assert (size (t_payload t) ≤ MAX_VALUE) by (unfold MAX_PAYLOAD, MAX_VALUE in *; lia).
  edestruct IH as [Hu ->]; [|by rewrite rows_insert_tx]. by apply usable_run.
Qed.

Lemma rows_db_insert d b : usable d → wire_block b →
  usable (db_insert d b) ∧
  rows (db_insert d b) = <[i64 (h_height (b_h b)) := block_serialize b]> (rows d).
Proof.
  intros Hd Hb. assert (size (block_serialize b) ≤ MAX_VALUE).
  { pose proof (length_block_le b Hb). unfold MAX_VALUE. lia. }
  unfold db_insert. edestruct rows_insert_txs as [Hu ->]; [by apply usable_run|apply Hb|].
  split; [done|]. by rewrite rows_insert_block.
Qed.

Lemma rows_truncate d n : usable d → Z.of_nat n < 2 ^ 63 →
  usable (db_truncate_from d (Z.of_nat n)) ∧
  rows (db_truncate_from d (Z.of_nat n)) = filter (λ kv, kv.1 < Z.of_nat n) (rows d).
Proof.
  intros Hd Hn. unfold db_truncate_from.
  assert (usable (sql_do (DeleteBlocksFrom (i64 (Z.of_nat n))) d)) by by apply usable_run.
  split; [by apply usable_run|]. by rewrite rows_delete_txs, rows_delete_blocks, i64_small by (done || lia).
Qed.

(** A statement without values. *)
Lemma stored_exec d bs s : s ∈ code_texts → stored d bs → stored (sql_do (Exec s) d) bs.
Proof. intros Hs [Hu Hd]. split; [by apply usable_run|]. by rewrite rows_exec. Qed.

Lemma stored_insert d bs b : stored d bs → wire_block b → size bs < 2 ^ 63 → h_height (b_h b) = u64 (size bs) →
  stored (db_insert d b) (bs ++ [b]).
Proof.
  unfold size. intros [Hu Hd] Hb Hs Hh. destruct (rows_db_insert d b Hu Hb) as [Hu' E].
  split; [done|]. rewrite E, Hd, map_app. cbn [map]. rewrite rows_of_list_snoc. f_equal.
  unfold size. rewrite length_map, Hh, wrap_small by (unfold in_width; lia).
  apply i64_small. lia.
Qed.

Lemma stored_inserts d bs ks : stored d bs → Forall wire_block ks → size (bs ++ ks) ≤ 2 ^ 63 →
  (∀ i b, (bs ++ ks) !! i = Some b → h_height (b_h b) = u64 (Z.of_nat i)) →
  stored (foldl db_insert d ks) (bs ++ ks).
Proof.
  intros Hd Hk. revert d bs Hd. induction Hk as [|b ks Hb Hk IH]; intros d bs Hd Hs Hh; [by rewrite app_nil_r|].
  assert (h_height (b_h b) = u64 (size bs)) as Hbh by by apply Hh, list_lookup_middle.
  replace (bs ++ b :: ks) with ((bs ++ [b]) ++ ks) in * by by rewrite <- app_assoc.
  apply IH; [|done..]. apply stored_insert; [done|done| |done].
  unfold size in *. rewrite !length_app in Hs. cbn in Hs. lia.
Qed.

Lemma stored_cut d bs rest n : usable d → rows d = rows_of_list (map block_serialize bs ++ rest) →
  (n ≤ length bs)%nat → Z.of_nat n < 2 ^ 63 →
  stored (db_truncate_from (sql_do (Exec "BEGIN IMMEDIATE") d) (Z.of_nat n)) (take n bs).
Proof.
  intros Hu Hd Hl Hn. assert (usable (sql_do (Exec "BEGIN IMMEDIATE") d)) as Hu1 by (apply usable_run; [done|left]).
  destruct (rows_truncate _ n Hu1 Hn) as [Hu2 E]. split; [done|].
  rewrite E, rows_exec, Hd, rows_of_list_cut by left.
  rewrite take_app_le by by rewrite length_map. by rewrite <- firstn_map.
Qed.

Lemma stored_replace d bs ks n : stored d bs → take n bs = take n ks → (n ≤ length bs)%nat → (n ≤ length ks)%nat →
  Forall wire_block ks →
  size ks < 2 ^ 63 → (∀ i b, ks !! i = Some b → h_height (b_h b) = u64 (Z.of_nat i)) →
  stored (db_replace d ks n) ks.
Proof.
  unfold size. intros [Hu Hd] Ht Hl Hn Hw Hs Hh. unfold db_replace. apply stored_exec; [right; left|].
  rewrite <- (take_drop n ks) at 2.
  apply (stored_inserts _ (take n ks)); rewrite ?take_drop; [|by apply Forall_drop|unfold size; lia|done].
  rewrite <- Ht. apply (stored_cut _ _ []); [done|by rewrite app_nil_r|done|lia].
Qed.

(** Equal hashes at the start of two valid chains are equal blocks. *)
Lemma fork_blocks K p bs ks n : chain_pre p bs ⊆ K → chain_pre p ks ⊆ K → wf_params p → Forall wf_block bs → Forall wf_block ks →
  chain_valid p bs → chain_valid p ks → size bs ≤ 2 ^ 64 → size ks ≤ 2 ^ 64 →
  take n (map block_hash bs) = take n (map block_hash ks) →
  take n bs = take n ks ∨ collision K.
Proof.
  intros HKb HKk Hp Hwb Hwk Hvb Hvk Hsb Hsk E. rewrite !firstn_map in E.
  destruct (decide (take n bs = [])) as [Hb|Hb].
  { rewrite Hb in *. left. symmetry in E. by apply map_eq_nil in E. }
  destruct (decide (take n ks = [])) as [Hk|Hk].
  { rewrite Hk in *. by apply map_eq_nil in E. }
  apply (tip_binding K p); try done.
  - by apply chain_pre_take.
  - by apply chain_pre_take.
  - by apply Forall_take.
  - by apply Forall_take.
  - apply (chain_valid_prefix _ _ (drop n bs)). by rewrite take_drop.
  - apply (chain_valid_prefix _ _ (drop n ks)). by rewrite take_drop.
  - unfold size in *. rewrite length_take. lia.
  - unfold size in *. rewrite length_take. lia.
  - rewrite <- !fmap_last. by apply (f_equal last) in E.
Qed.

(** *** The database follows the chain *)

Lemma connect_block_stored K c b now c' : chain_pre (params c) (blocks c ++ [b]) ⊆ K → wf_params (params c) → chain_inv c → wf_block b →
  db_ok c → persisting c = true → size (blocks c) < 2 ^ 63 →
  connect_block c b now = (c', "") → db_ok c' ∨ collision K.
Proof.
  intros HK Hp Hc Hb Hd Hps Hs H.
  apply connect_block_ok in H as (Hn & _ & Hc' & Ep & Eb & _ & Ed); [|done..].
  rewrite Hps in Ed. pose proof (ci_valid c' Hc') as Hv. pose proof (ci_wf c' Hc') as Hw.
  rewrite Ep, Eb in *. destruct (valid_heights K (params c) (blocks c ++ [b])) as [Hh|?]; [done..| |by right].
  left. intros d E. rewrite Ed in E. apply fmap_Some in E as (d0 & E0 & ->). rewrite Eb.
  apply stored_insert; [by apply Hd|by pose proof (valid_wire _ _ Hw Hv) as [_ ?%Forall_inv]%Forall_app|done|].
  apply (Hh (length (blocks c))). by apply list_lookup_middle.
Qed.

Lemma try_replace_stored K c cand clock c' f :
  chain_pre (params c) (blocks c) ⊆ K → chain_pre (params c) cand ⊆ K → wf_params (params c) → chain_inv c →
  Forall wf_block cand → db_ok c → persisting c = true →
  size (blocks c) < 2 ^ 63 → size cand < 2 ^ 63 →
  try_replace c cand clock = (c', "", f) → db_ok c' ∨ collision K.
Proof.
  intros HKc HKd Hp Hc Hw Hd Hps Hs1 Hs2 H.
  apply try_replace_cases in H as [(_&(Hne&Hv&_)&Hc'&Ep&Eb&_&_&Ed)|(?&_)]; [|done..].
  rewrite Hps in Ed. destruct (valid_heights K (params c) cand) as [Hh|?]; [done..| |by right].
  destruct (fork_blocks K (params c) (blocks c) cand (common_prefix (hashes c) (map block_hash cand)))
    as [Ht|?]; try done; [apply Hc|apply Hc|lia|lia| | |by right].
  { rewrite (ci_hashes c Hc). apply common_prefix_take. }
  left. intros d E. rewrite Ed in E. apply fmap_Some in E as (d0 & E0 & ->). rewrite Eb.
  pose proof (common_prefix_le (hashes c) (map block_hash cand)) as [Hl1 Hl2].
  rewrite length_map in Hl2. assert (length (hashes c) = length (blocks c)) as El by (rewrite (ci_hashes c Hc); apply length_map).
  apply (stored_replace _ (blocks c)); try done; [by apply Hd|lia|by eapply valid_wire].
Qed.
End stored.

(** ** init *)

Section init.
Context `{HF : HashFn} `{CN : Cng} {D : Type} `{DB : Sqlite D} `{DS : !SqliteSpec D}.
Implicit Types c : Chain D.

Lemma rows_exec_all texts d : (∀ s, s ∈ texts → s ∈ code_texts) →
  rows (exec_all texts d).1 = rows d.
Proof.
  revert d. induction texts as [|s texts IH]; intros d Hs; [done|]. cbn [exec_all].
  pose proof (rows_exec d s (Hs s ltac:(left))) as He. unfold sql_do in He.
  destruct (sql_run (Exec s) d) as [d1 []]; cbn [fst] in *; [|done].
  rewrite IH; [done|]. intros. apply Hs. by right.
Qed.

Lemma rows_schema d : rows (exec_all schema_texts d).1 = rows d.
Proof. apply rows_exec_all. intros s Hs. unfold code_texts. do 2 right. done. Qed.

(** A row that does not continue the chain. *)
Definition bad_row (p : Params) (bs : list Block) (raw : bytes) (now : Z) : Prop :=
  ∀ b, block_parse raw = Some b → ¬ (next_ok p bs b ∧ time_ok bs b now).

Lemma parsed_block raw b : wf_bytes raw → block_parse raw = Some b →
  wf_block b ∧ raw = block_serialize b.
Proof.
  intros Hw H. apply block_parse_inv in H as [(Hh & Ht & _) ->]; [|done].
  split; [|done]. split; [done|]. by apply wire_txs_wf.
Qed.

Definition loaded c (raws : list bytes) (clock : nat → Z) (good : nat) c' (bs : list Block) : Prop :=
  ∃ rest, raws = map block_serialize bs ++ rest ∧ blocks c' = blocks c ++ bs ∧
    times_ok (blocks c) bs clock good ∧
    match rest with
    | [] => True
    | raw :: _ => bad_row (params c) (blocks c') raw (clock (good + length bs)%nat)
    end.

Lemma load_loop_cases c raws clock good c' n : chain_inv c → persisting c = false →
  Forall wf_bytes raws → load_loop c raws clock good = (c', n) →
  chain_inv c' ∧ params c' = params c ∧ db c' = db c ∧
  ∃ bs, n = (good + length bs)%nat ∧ loaded c raws clock good c' bs.
Proof.
  revert c good. induction raws as [|raw raws IH]; intros c good Hc Hps Hw H; cbn [load_loop] in H.
  { injection H as <- <-. split_and!; try done. exists []. split; [cbn; lia|].
    exists []. rewrite !app_nil_r. by split_and!. }
  apply Forall_cons in Hw as [Hr Hw].
  assert (bad_row (params c) (blocks c) raw (clock good) → (c, good) = (c', n) →
    chain_inv c' ∧ params c' = params c ∧ db c' = db c ∧
    ∃ bs, n = (good + length bs)%nat ∧ loaded c (raw :: raws) clock good c' bs) as Hstop.
  { intros Hbad [= <- <-]. split_and!; try done. exists []. split; [cbn; lia|].
    exists (raw :: raws). cbn [length]. rewrite app_nil_r, Nat.add_0_r. by split_and!. }
  destruct (block_parse raw) as [b|] eqn:Eb; [|apply Hstop; [intros x ?; congruence|done]].
  destruct (parsed_block raw b Hr Eb) as [Hb ->].
  destruct (connect_block c b (clock good)) as [c1 err] eqn:E. case_bool_decide as He; cbn in H.
  - subst err. apply connect_block_ok in E as (Hn & Ht & Hc1 & Ep & Ebs & Eps & Ed); [|done..].
    rewrite Hps in *. apply IH in H as (H1 & H2 & H3 & bs & -> & rest & -> & Hbs & Hts & Hrest); [|done..].
    split_and!; [done|congruence|congruence|]. exists (b :: bs). split; [cbn; lia|].
    exists rest. cbn [map app length]. rewrite Ebs, Ep in *. split_and!; try done.
    + by rewrite Hbs, <- app_assoc.
    + apply times_ok_cons. done.
    + by rewrite <- Nat.add_succ_comm.
  - apply Hstop; [|by injection H as <- <-; apply (connect_block_fail _ _ _ _ _ Hc) in E as ->].
    intros x Hx Hok. rewrite Eb in Hx. injection Hx as <-.
    apply connect_block_cases in E as [(?&_)|(_&_&[])]; done.
Qed.

Lemma connect_genesis_run c now : chain_inv c → blocks c = [] →
  ∃ c', connect_block c (make_genesis (params c)) now = (c', "").
Proof.
  intros Hc E. apply connect_block_run; [done| |].
  - unfold next_ok. rewrite E. done.
  - intros []. done.
Qed.

(** The chain that [init] builds from valid rows [bs]. *)
Definition or_genesis (p : Params) (bs : list Block) : list Block :=
  if bool_decide (bs = []) then [make_genesis p] else bs.

Lemma init_genesis_step c clock : wf_params (params c) → chain_inv c → blocks c = [] →
  persisting c = true → db_ok c →
  ∃ c', (if bool_decide (blocks c = []) then
           let '(c, err) := connect_block c (make_genesis (params c)) clock in
           if negb (bool_decide (err = "")) then (c, "genesis: " +:+ err) else (c, "")
         else (c, "")) = (c', "") ∧
    chain_inv c' ∧ params c' = params c ∧ blocks c' = [make_genesis (params c)] ∧
    db_ok c'.
Proof.
  intros Hp Hc E Hps Hd. rewrite bool_decide_eq_true_2 by done.
  destruct (connect_genesis_run c clock Hc E) as [c' H]. rewrite H. exists c'. split; [done|].
  pose proof (wf_make_genesis _ Hp) as Hg.
  apply connect_block_ok in H as (_ & _ & ? & ? & Eb & _ & Ed); [|done..].
  rewrite E in Eb. rewrite Hps in Ed. split_and!; try done.
  intros d Hd'. rewrite Ed in Hd'. apply fmap_Some in Hd' as (d0 & E0 & ->). rewrite Eb.
  apply (stored_insert d0 []); [|by split; [apply Hg|split]|done..].
  rewrite <- E. by apply Hd.
Qed.

(** The table after the rows beyond [good] were dropped. *)
Lemma stored_db_cut d bs rest : usable d →
  rows d = rows_of_list (map block_serialize bs ++ rest) → size bs < 2 ^ 63 →
  stored (db_cut d (length bs)) bs.
Proof.
  intros Hu Hd Hs. unfold db_cut. unfold size in Hs. apply stored_exec; [right; left|].
  rewrite <- (firstn_all bs) at 2. by eapply stored_cut.
Qed.

Lemma init_db_cases p d clock raws : rows d = rows_of_list raws →
  Forall wf_bytes raws → size raws < 2 ^ 63 →
  (exec_all schema_texts d).2 = true → usable (exec_all schema_texts d).1 →
  ∃ c' rest, init_db (Chain_new p) d clock = (c', "") ∧
    chain_inv c' ∧ params c' = p ∧ persisting c' = true ∧ db_ok c' ∧
    raws = map block_serialize (blocks c') ++ rest ∧ times_ok [] (blocks c') clock 0 ∧
    match rest with
    | [] => True
    | raw :: _ => bad_row p (blocks c') raw (clock (length (blocks c')))
    end.
Proof.
  intros Hd Hw Hs Hok Hsel. unfold init_db.
  pose proof (rows_schema d) as Hr. destruct (exec_all schema_texts d) as [d1 ok]. cbn [fst snd] in *.
  subst ok. cbn [negb]. rewrite (select_rows d1 Hsel), Hr, Hd, ordered_rows_list.
  set (c0 := set_persisting (set_db (Chain_new p) (Some d1)) false).
  assert (chain_inv c0) as Hc0 by (destruct (chain_inv_new (D := D) p); by split).
  destruct (load_loop c0 raws clock 0) as [c1 n] eqn:El.
  apply load_loop_cases in El as (Hc1 & Ep & Ed & bs & -> & rest & -> & Ebs & Ht & Hrest); [|done..].
  cbn [c0 blocks params db set_persisting set_db Chain_new app] in Ep, Ed, Ebs, Ht, Hrest.
  rewrite Nat.add_0_l in *. subst bs. unfold size in Hs. rewrite length_app, length_map in *.
  assert (chain_inv (set_persisting c1 true)) as Hc2 by (destruct Hc1; by split).
  destruct (Nat.ltb_spec (length (blocks c1)) (length (blocks c1) + length rest)) as [Hlt|Hge].
  - eexists _, rest. split; [done|]. split_and!; try done; [destruct Hc1; by split|].
    intros d2 E2. cbn in E2. rewrite Ed in E2. injection E2 as <-.
    eapply stored_db_cut; [done|by rewrite Hr|unfold size; cbn; lia].
  - eexists _, rest. split; [done|]. split_and!; try done.
    intros d2 E2. cbn in E2. rewrite Ed in E2. injection E2 as <-.
    destruct rest; [|cbn in *; lia]. split; [done|]. cbn. by rewrite Hr, Hd, app_nil_r.
Qed.

Lemma init_cases p d clock raws : wf_params p → rows d = rows_of_list raws →
  Forall wf_bytes raws → size raws < 2 ^ 63 →
  (exec_all schema_texts d).2 = true → usable (exec_all schema_texts d).1 →
  ∃ c' bs rest, init (Chain_new p) (Some d) clock = (c', "") ∧
    chain_inv c' ∧ params c' = p ∧ raws = map block_serialize bs ++ rest ∧
    blocks c' = or_genesis p bs ∧ times_ok [] bs clock 0 ∧
    match rest with [] => True | raw :: _ => bad_row p bs raw (clock (length bs)) end ∧
    db_ok c'.
Proof.
  intros Hp Hd Hw Hs Hok Hsel. unfold init.
  destruct (init_db_cases p d clock raws Hd Hw Hs Hok Hsel)
    as (c1 & rest & -> & Hc1 & Ep & Eps & Hd1 & Hraws & Ht & Hrest).
  rewrite bool_decide_eq_true_2 by done. cbn [negb].
  destruct (decide (blocks c1 = [])) as [E|E].
  - destruct (init_genesis_step c1 (clock 0%nat)) as (c2 & H & Hc2 & Ep2 & Eb2 & Hd2);
      [by rewrite Ep|done..|].
    rewrite H. exists c2, [], rest. rewrite E in *. split_and!; try done; [congruence|].
    rewrite Eb2, Ep. done.
  - rewrite bool_decide_eq_false_2 by done. exists c1, (blocks c1), rest. split_and!; try done.
    + unfold or_genesis. by rewrite bool_decide_eq_false_2.
Qed.
End init.

(** ** Theorems *)

Section theorems.
Context `{HF : HashFn} `{CN : Cng} {D : Type} `{DB : Sqlite D}.
Implicit Types c : Chain D.

Lemma block_serialize_inj b k : wire_block b → wire_block k →
  block_serialize b = block_serialize k → b = k.
Proof.
  intros Hb Hk E. apply block_parse_serialize in Hb, Hk. rewrite E in Hb. congruence.
Qed.

Lemma serialized_prefix bs ks rest : Forall wire_block bs → Forall wire_block ks →
  map block_serialize bs = map block_serialize ks ++ rest →
  ∃ tl, bs = ks ++ tl ∧ rest = map block_serialize tl.
Proof.
  intros Hb Hk. revert bs Hb. induction Hk as [|k ks Hk Hks IH]; intros bs Hb E; [by exists bs|].
  destruct bs as [|b bs]; [done|]. injection E as E1 E2. apply Forall_cons in Hb as [Hb Hbs].
  destruct (IH bs Hbs E2) as (tl & -> & ->). exists tl.
  by rewrite (block_serialize_inj b k).
Qed.

(** C4: [try_replace] adopts a candidate exactly when it is a non-empty valid chain
    from genesis whose times the clock allows and which has strictly more work.
    Then the chain is the candidate, with its members, and the reported fork height
    is the number of leading blocks that both chains share; otherwise nothing
    changes and no fork height is reported. *)
Theorem try_replace_refines c cand clock : chain_inv c → Forall wf_block cand →
  let '(c', err, fork) := try_replace c cand clock in
  (err = "" ↔ candidate_ok c cand clock) ∧
  (err = "" → chain_inv c' ∧ params c' = params c ∧ blocks c' = cand ∧ work c < work c' ∧
     ∃ f, fork = Some f ∧ take f (hashes c') = take f (hashes c) ∧
       (∀ h k, hashes c' !! f = Some h → hashes c !! f = Some k → h ≠ k)) ∧
  (err ≠ "" → c' = c ∧ fork = None).
Proof.
  intros Hc Hw. destruct (try_replace c cand clock) as [[c' err] fork] eqn:E.
  destruct (try_replace_cases _ _ _ _ _ _ Hc Hw E)
    as [(->&Hok&Hc'&Ep&Eb&_&->&_)|(?&->&->&?)]; [|naive_solver].
  split_and!; [done| |done]. intros _. split_and!; try done.
  - rewrite (ci_work c' Hc'), Ep, Eb. apply Hok.
  - eexists. split; [done|]. rewrite (ci_hashes c' Hc'), Eb. split.
    + symmetry. apply common_prefix_take.
    + intros h k Hh Hk Ehk. by eapply common_prefix_max.
Qed.

Context `{DS : !SqliteSpec D}.

Lemma bad_row_next p bs b now : wire_block b → next_ok p bs b → time_ok bs b now →
  ¬ bad_row p bs (block_serialize b) now.
Proof. intros Hw Hn Ht Hbad. apply (Hbad b); [by apply block_parse_serialize|done]. Qed.

(** C9: a restart restores the chain. When the table holds a valid non-empty chain
    (and the clock is not behind its times), [init] succeeds, loads exactly these
    blocks with the members that belong to them, and the table still holds them. *)
Theorem init_recovers p d bs clock : wf_params p → Forall wf_block bs → chain_valid p bs →
  bs ≠ [] → times_ok [] bs clock 0 → rows d = rows_of_list (map block_serialize bs) → size bs < 2 ^ 63 →
  (exec_all schema_texts d).2 = true → usable (exec_all schema_texts d).1 →
  ∃ c', init (Chain_new p) (Some d) clock = (c', "") ∧ chain_inv c' ∧ params c' = p ∧
    blocks c' = bs ∧ db_ok c'.
Proof.
  intros Hp Hw Hv Hne Ht Hd Hs Hex Hsel. pose proof (valid_wire p bs Hw Hv) as Hz.
  destruct (init_cases p d clock (map block_serialize bs)) as
    (c' & ks & rest & Hi & Hc' & Ep & Er & Eb & Htk & Hrest & Hdb); try done.
  { apply Forall_fmap. eapply Forall_impl; [exact Hz|]. intros b. apply wf_block_serialize. }
  { unfold size in *. by rewrite length_map. }
  exists c'. split_and!; try done. rewrite Eb.
  assert (Forall wire_block ks) as Hk.
  { destruct (decide (ks = [])) as [->|Hk]; [constructor|].
    unfold or_genesis in Eb. rewrite bool_decide_eq_false_2 in Eb by done. rewrite <- Eb.
    by apply (valid_wire (params c')); apply Hc'. }
  destruct (serialized_prefix bs ks rest Hz Hk Er) as (tl & -> & ->).
  destruct tl as [|b tl].
  - rewrite app_nil_r in *. unfold or_genesis. by rewrite bool_decide_eq_false_2.
  - exfalso. cbn [map] in Hrest. eapply bad_row_next; [| | |exact Hrest].
    + by apply Forall_app in Hz as [_ ?%Forall_inv].
    + replace (ks ++ b :: tl) with ((ks ++ [b]) ++ tl) in Hv by by rewrite <- app_assoc.
      by apply chain_valid_prefix, chain_valid_snoc_inv in Hv as [_ ?].
    + specialize (Ht (length ks) b). rewrite list_lookup_middle in Ht by done.
      specialize (Ht eq_refl). by rewrite app_nil_l, take_app_length in Ht.
Qed.

(** C10: a damaged database is repaired. Whatever byte strings the table holds under
    consecutive heights, [init] succeeds with a valid chain: the longest prefix of
    rows that parse and continue the chain, or genesis when there is none; the first
    row after it does not continue it, and the table is cut back to the chain. *)
Theorem init_keeps_valid_prefix p d raws clock : wf_params p → Forall wf_bytes raws →
  rows d = rows_of_list raws → size raws < 2 ^ 63 →
  (exec_all schema_texts d).2 = true → usable (exec_all schema_texts d).1 →
  ∃ c' bs rest, init (Chain_new p) (Some d) clock = (c', "") ∧
    chain_inv c' ∧ params c' = p ∧ blocks c' = or_genesis p bs ∧
    raws = map block_serialize bs ++ rest ∧
    (∀ raw tl, rest = raw :: tl → bad_row p bs raw (clock (length bs))) ∧
    db_ok c'.
Proof.
  intros Hp Hw Hd Hs Hex Hsel.
  destruct (init_cases p d clock raws Hp Hd Hw Hs Hex Hsel) as
    (c' & bs & rest & Hi & Hc' & Ep & Er & Eb & _ & Hrest & Hdb).
  exists c', bs, rest. split_and!; try done. by intros raw tl ->.
Qed.
End theorems.
