(* ===== verification/Typed.v ===== *)
(** * Typed: the C++ types of what a chain holds

    Most of it follows from [chain_inv]; that the keys of [Chain::st] are addresses of 20
    bytes is kept by every operation that inserts an account. *)

From S2P Require Import Prelude Hex Serial Sha256 Hash Crypto Merkle Tx Ledger Store Chain Consensus Recovery.

Local Open Scope Z_scope.

(** [std::map<Addr20, Account>] *)
Definition addr_keys (s : State) : Prop := ∀ a, is_Some (s !! a) → wf_array 20 a.

Lemma addr_keys_empty : addr_keys ∅.
Proof. intros a [v H]. done. Qed.

Lemma addr_keys_insert s a v : addr_keys s → wf_array 20 a → addr_keys (<[a := v]> s).
Proof.
  intros Hs Ha b [w Hb]. apply lookup_insert_Some in Hb as [[<- _]|[_ Hb]]; [done|]. apply Hs. by exists w.
Qed.

Lemma addr_keys_touch s a : addr_keys s → wf_array 20 a → addr_keys (touch s a).
Proof. intros. unfold touch. case_match; [done|]. by apply addr_keys_insert. Qed.

#[export] Hint Resolve addr_keys_touch addr_keys_insert addr_keys_empty : ledger.

Lemma addr_keys_credit s a v : addr_keys s → wf_array 20 a → addr_keys (credit s a v).
Proof. intros. unfold credit, set_balance. auto with ledger. Qed.

Lemma addr_keys_debit s a v : addr_keys s → wf_array 20 a → addr_keys (debit s a v).
Proof. intros. unfold debit, set_balance. auto with ledger. Qed.

Lemma addr_keys_bump s a : addr_keys s → wf_array 20 a → addr_keys (bump s a).
Proof. intros. unfold bump, set_nonce. auto with ledger. Qed.

#[export] Hint Resolve addr_keys_credit addr_keys_debit addr_keys_bump : ledger.

Section typed.
Context `{HF : HashFn} `{CN : Cng} {D : Type} `{DB : Sqlite D}.
Implicit Types c : Chain D.

(** On every path, the failing ones included. *)
Lemma addr_keys_apply_tx s t p h first s' err : addr_keys s → wf_tx t →
  apply_tx s t p h first = (s', err) → addr_keys s'.
Proof.
  intros Hs Ht H. pose proof (wf_t_to t Ht) as Hto. pose proof (wf_addr_of (t_from t)) as Hfrom.
  unfold apply_tx in H. cbv zeta in H. repeat case_match; simplify_eq; auto 6 with ledger.
Qed.

Lemma addr_keys_apply_txs s ts p h i s' err : addr_keys s → Forall wf_tx ts →
  apply_txs s ts p h i = (s', err) → addr_keys s'.
Proof.
  revert s i. induction ts as [|t ts IH]; intros s i Hs Ht H; cbn [apply_txs] in H; [by simplify_eq|].
  apply Forall_cons in Ht as [Ht Hts]. destruct (apply_tx s t p h _) as [s1 e] eqn:E.
  apply addr_keys_apply_tx in E; [|done..]. case_bool_decide; cbn [negb] in H; [by eapply IH|by simplify_eq].
Qed.

Lemma addr_keys_connect c b now c' err : addr_keys (st c) → wf_block b →
  connect_block c b now = (c', err) → addr_keys (st c').
Proof.
  intros Hs [_ Hb] H. unfold connect_block in H. destruct (tip c), (tip_hash c).
  2-4: by repeat case_match; simplify_eq.
  repeat match type of H with (if ?b then _ else _) = _ => destruct b; [by simplify_eq|] end.
  destruct (apply_txs _ _ _ _ _) as [s e] eqn:E. apply addr_keys_apply_txs in E; [|done..].
  by case_match; simplify_eq.
Qed.

Lemma addr_keys_connect_all c bs clock i c' err : addr_keys (st c) → Forall wf_block bs →
  connect_all c bs clock i = (c', err) → addr_keys (st c').
Proof.
  revert c i. induction bs as [|b bs IH]; intros c i Hs Hb H; cbn [connect_all] in H; [by simplify_eq|].
  apply Forall_cons in Hb as [Hb Hbs]. destruct (connect_block c b (clock i)) as [c1 e] eqn:E.
  apply addr_keys_connect in E; [|done..]. case_bool_decide; cbn [negb] in H; [by eapply IH|by simplify_eq].
Qed.

Lemma addr_keys_replace c bs clock c' err f : addr_keys (st c) → Forall wf_block bs →
  try_replace c bs clock = (c', err, f) → addr_keys (st c').
Proof.
  intros Hs Hb H. unfold try_replace in H. case_bool_decide; [by simplify_eq|]. cbv zeta in H.
  destruct (connect_all _ bs clock 0) as [c1 e] eqn:E. apply addr_keys_connect_all in E; [|apply addr_keys_empty|done].
  by repeat case_match; simplify_eq.
Qed.

Lemma addr_keys_load c raws clock n c' n' : addr_keys (st c) → Forall wf_bytes raws →
  load_loop c raws clock n = (c', n') → addr_keys (st c').
Proof.
  revert c n. induction raws as [|raw raws IH]; intros c n Hs Hr H; cbn [load_loop] in H; [by simplify_eq|].
  apply Forall_cons in Hr as [Hr Hrs]. destruct (block_parse raw) as [b|] eqn:Eb; [|by simplify_eq].
  destruct (connect_block c b (clock n)) as [c1 e] eqn:E.
  apply addr_keys_connect in E; [|done|by apply (parsed_block raw)].
  case_bool_decide; cbn [negb] in H; [by eapply IH|by simplify_eq].
Qed.

Lemma addr_keys_init_db p d clock c err :
  (∀ (d : D) raws, sql_select d = Some raws → Forall wf_bytes raws) →
  init_db (Chain_new p) d clock = (c, err) → addr_keys (st c).
Proof.
  intros Hw E. unfold init_db in E.
  destruct (exec_all schema_texts d) as [d1 ok]. destruct ok; cbn [negb] in E; [|simplify_eq; apply addr_keys_empty].
  destruct (sql_select d1) as [raws|] eqn:Er; [|simplify_eq; apply addr_keys_empty].
  destruct (load_loop _ raws clock 0) as [c1 n] eqn:El.
  apply addr_keys_load in El; [|apply addr_keys_empty|by eapply Hw]. by case_match; simplify_eq.
Qed.
End typed.
