(* ===== verification/Mempool.v ===== *)
(** * Mempool: pending transactions of [src/core.h]

    [m] is the [std::map] from (sender address, nonce) to the transaction, iterated
    in key order, [ids] the set of the transaction ids. The loop of [collect] takes
    fuel; the theorems show that one more than [maxn] is enough. *)

From stdpp Require Import sorting.
From S2P Require Import Prelude Hex Serial Hash Crypto Tx Ledger.

Local Open Scope Z_scope.

(** [std::pair<Addr20, uint64_t>] and its order *)
Abbreviation Key := (list Z * Z)%type.

Fixpoint lex_leb (x y : bytes) : bool :=
  match x, y with
  | [], _ => true
  | _ :: _, [] => false
  | a :: x, b :: y => (a <? b) || ((a =? b) && lex_leb x y)
  end.

Definition key_leb (j k : Key) : bool :=
  if bool_decide (j.1 = k.1) then j.2 <=? k.2 else lex_leb j.1 k.1.

Record Mempool := mkMempool {
  m : gmap Key Tx;
  ids : gset (list Z);
}.

Definition Mempool_empty : Mempool := mkMempool ∅ ∅.

Definition entry_le (x y : Key * Tx) : Prop := key_leb x.1 y.1 = true.

#[export] Instance entry_le_dec x y : Decision (entry_le x y).
Proof. unfold entry_le. apply _. Defined.

(** The entries in the order of the iteration. *)
Definition entries (mp : Mempool) : list (Key * Tx) := merge_sort entry_le (map_to_list (m mp)).

Section mempool.
Context `{HF : HashFn} `{CN : Cng}.

(** The nonce and balance that [st.find(a)] shows. *)
Definition cur_nonce (st : State) (a : bytes) : Z :=
  match st !! a with None => 0 | Some v => nonce v end.

Definition cur_balance (st : State) (a : bytes) : Z :=
  match st !! a with None => 0 | Some v => balance v end.

Definition insert_pending (mp : Mempool) (a : bytes) (t : Tx) : Mempool * string :=
  let key := (a, t_nonce t) in
  if bool_decide (is_Some (m mp !! key))
  then (mp, "conflicting tx (same sender+nonce) already pending")
  else (mkMempool (<[key := t]> (m mp)) ({[txid t]} ∪ ids mp), "").

Definition add (mp : Mempool) (t : Tx) (st : State) (p : Params) : Mempool * string :=
  if t_type t =? TX_COINBASE then (mp, "coinbase not allowed in mempool")
  else if negb (t_net_id t =? p_net_id p) then (mp, "wrong network id")
  else if 10000 <=? Z.of_nat (stdpp.base.size (m mp)) then (mp, "mempool full")
  else if bool_decide (txid t ∈ ids mp) then (mp, "already in mempool")
  else if is_zero (t_from t) then (mp, "missing sender")
  else if negb (sig_verify (t_from t) (sign_hash t) (t_sig t)) then (mp, "bad signature")
  else
    let a := addr_of (t_from t) in
    let cur := cur_nonce st a in
    if t_nonce t <? cur then (mp, "nonce already used")
    else if t_nonce t >? u64 (cur + 16) then (mp, "nonce too far ahead")
    else if t_type t =? TX_TRANSFER then
      if (t_nonce t =? cur) && (cur_balance st a <? t_amount t)
        then (mp, "insufficient balance")
      else if negb (size (t_payload t) =? 0) then (mp, "transfer payload not allowed")
      else insert_pending mp a t
    else if t_type t =? TX_RECORD then
      if negb (t_amount t =? 0) then (mp, "record amount must be 0")
      else if (size (t_payload t) =? 0) || (size (t_payload t) >? MAX_PAYLOAD)
        then (mp, "bad payload size")
      else insert_pending mp a t
    else (mp, "unknown tx type").

(** One pass of the inner loop of [collect]: the state copy, what was picked and
    whether anything was. *)
Fixpoint collect_pass (l : list (Key * Tx)) (tmp : State) (out : list Tx) (progress : bool)
    (p : Params) (height : Z) (maxn : nat) : State * list Tx * bool :=
  match l with
  | [] => (tmp, out, progress)
  | (key, tx) :: l =>
      if negb (key.2 =? cur_nonce tmp key.1)
      then collect_pass l tmp out progress p height maxn
      else
        let '(tmp, err) := apply_tx tmp tx p height false in
        if bool_decide (err = "") then
          let out := out ++ [tx] in
          if (maxn <=? length out)%nat then (tmp, out, true)
          else collect_pass l tmp out true p height maxn
        else collect_pass l tmp out progress p height maxn
  end.

(** [while (progress && out.size() < maxn)]; [None] when the fuel is used up. *)
Fixpoint collect_loop (fuel : nat) (l : list (Key * Tx)) (tmp : State) (out : list Tx)
    (progress : bool) (p : Params) (height : Z) (maxn : nat) : option (list Tx) :=
  if progress && (length out <? maxn)%nat then
    match fuel with
    | O => None
    | S fuel =>
        let '(tmp, out, progress) := collect_pass l tmp out false p height maxn in
        collect_loop fuel l tmp out progress p height maxn
    end
  else Some out.

Definition collect_n (mp : Mempool) (base : State) (p : Params) (height : Z) (maxn : nat)
    : option (list Tx) :=
  collect_loop (S maxn) (entries mp) base [] true p height maxn.

(** [collect] with its default bound, [maxn = 1000]. *)
Definition collect (mp : Mempool) (base : State) (p : Params) (height : Z) : list Tx :=
  default [] (collect_n mp base p height 1000).

(** The loop of [purge] over the entries. *)
Fixpoint purge_loop (l : list (Key * Tx)) (mp : Mempool) (st : State) : Mempool :=
  match l with
  | [] => mp
  | (key, tx) :: l =>
      if key.2 <? cur_nonce st key.1
      then purge_loop l (mkMempool (delete key (m mp)) (ids mp ∖ {[txid tx]})) st
      else purge_loop l mp st
  end.

Definition purge (mp : Mempool) (st : State) : Mempool := purge_loop (entries mp) mp st.

Definition has (mp : Mempool) (id : bytes) : bool := bool_decide (id ∈ ids mp).

Definition find (mp : Mempool) (id : bytes) : option Tx :=
  snd <$> List.find (λ kt, bool_decide (txid kt.2 = id)) (entries mp).
End mempool.

(** ** Invariant *)

Lemma elem_of_entries mp k t : (k, t) ∈ entries mp ↔ m mp !! k = Some t.
Proof. unfold entries. by rewrite merge_sort_Permutation, elem_of_map_to_list. Qed.

Lemma entries_keys_NoDup mp : NoDup (entries mp).*1.
Proof. unfold entries. rewrite merge_sort_Permutation. apply NoDup_fst_map_to_list. Qed.

Section invariant.
Context `{HF : HashFn} `{CN : Cng}.

Lemma cur_nonce_acct st a : cur_nonce st a = nonce (acct st a).
Proof. unfold cur_nonce, acct. by destruct (st !! a). Qed.

Lemma cur_balance_acct st a : cur_balance st a = balance (acct st a).
Proof. unfold cur_balance, acct. by destruct (st !! a). Qed.

(** The part of [body_ok] that does not depend on the balance. *)
Definition body_shape (t : Tx) : Prop :=
  t_type t = TX_TRANSFER ∧ t_payload t = [] ∨
  t_type t = TX_RECORD ∧ t_amount t = 0 ∧ 0 < size (t_payload t) ≤ MAX_PAYLOAD.

(** What the pool holds under a key. *)
Record pool_tx (p : Params) (k : Key) (t : Tx) : Prop := {
  pt_key : k = (addr_of (t_from t), t_nonce t);
  pt_wf : wf_tx t;
  pt_net_id : t_net_id t = p_net_id p;
  pt_authentic : authentic t;
  pt_body : body_shape t;
}.

Record pool_inv (p : Params) (mp : Mempool) : Prop := {
  pi_entry : ∀ k t, m mp !! k = Some t → pool_tx p k t;
  pi_ids : ∀ id, id ∈ ids mp ↔ ∃ k t, m mp !! k = Some t ∧ txid t = id;
  pi_distinct : ∀ j k t u, m mp !! j = Some t → m mp !! k = Some u → txid t = txid u → j = k;
  pi_size : Z.of_nat (stdpp.base.size (m mp)) ≤ 10000;
}.

Lemma pool_inv_empty p : pool_inv p Mempool_empty.
Proof.
  split; cbn; [done| |done|done]. intros id. split; [done|]. by intros (k & t & H & _).
Qed.

(** ** add *)

Record admissible (mp : Mempool) (t : Tx) (st : State) (p : Params) : Prop := {
  ad_net_id : t_net_id t = p_net_id p;
  ad_room : Z.of_nat (stdpp.base.size (m mp)) < 10000;
  ad_new : txid t ∉ ids mp;
  ad_authentic : authentic t;
  ad_nonce : nonce (acct st (addr_of (t_from t))) ≤ t_nonce t
               ≤ u64 (nonce (acct st (addr_of (t_from t))) + 16);
  ad_body : body_shape t;
  ad_funds : t_type t = TX_TRANSFER → t_nonce t = nonce (acct st (addr_of (t_from t))) →
    t_amount t ≤ balance (acct st (addr_of (t_from t)));
  ad_free : m mp !! (addr_of (t_from t), t_nonce t) = None;
}.

Definition inserted (mp : Mempool) (t : Tx) : Mempool :=
  mkMempool (<[(addr_of (t_from t), t_nonce t) := t]> (m mp)) ({[txid t]} ∪ ids mp).

Lemma insert_pending_cases mp t mp' err :
  insert_pending mp (addr_of (t_from t)) t = (mp', err) →
  err = "" ∧ m mp !! (addr_of (t_from t), t_nonce t) = None ∧ mp' = inserted mp t ∨
  err ≠ "" ∧ m mp !! (addr_of (t_from t), t_nonce t) ≠ None ∧ mp' = mp.
Proof.
  unfold insert_pending. case_bool_decide as H; intros [= <- <-].
  - right. split_and!; try done. by rewrite <- not_eq_None_Some in H.
  - left. split_and!; try done. by apply eq_None_not_Some.
Qed.

Ltac refused := cbn [negb orb]; let H := fresh in intros H; injection H as <- <-; right;
  split_and!; [done|done|]; intros [].

Lemma add_cases mp t st p mp' err : add mp t st p = (mp', err) →
  err = "" ∧ admissible mp t st p ∧ mp' = inserted mp t ∨
  err ≠ "" ∧ mp' = mp ∧ ¬ admissible mp t st p.
Proof.
  unfold add. rewrite cur_nonce_acct, cur_balance_acct.
  set (v := acct st (addr_of (t_from t))).
  destruct (Z.eqb_spec (t_type t) TX_COINBASE) as [H1|H1].
  { refused. destruct ad_body0 as [[E _]|[E _]]; by rewrite H1 in E. }
  destruct (Z.eqb_spec (t_net_id t) (p_net_id p)) as [H2|H2]; [|by refused].
  destruct (Z.leb_spec 10000 (Z.of_nat (stdpp.base.size (m mp)))) as [H3|H3]; [refused; lia|].
  case_bool_decide as H4; [by refused|].
  destruct (is_zero (t_from t)) eqn:H5; [refused; destruct ad_authentic0; congruence|].
  destruct (sig_verify _ _ _) eqn:H6; [|refused; destruct ad_authentic0; congruence].
  cbn [negb]. cbv zeta. fold v.
  destruct (Z.ltb_spec (t_nonce t) (nonce v)) as [H7|H7]; [refused; subst v; lia|].
  rewrite Z.gtb_ltb. destruct (Z.ltb_spec (u64 (nonce v + 16)) (t_nonce t)) as [H8|H8];
    [refused; subst v; lia|].
  destruct (Z.eqb_spec (t_type t) TX_TRANSFER) as [H9|H9].
  - destruct (Z.eqb_spec (t_nonce t) (nonce v)) as [Ha|Ha], (Z.ltb_spec (balance v) (t_amount t)) as [Hb|Hb];
      cbn [andb]; try (refused; specialize (ad_funds0 H9 Ha); subst v; lia).
    all: destruct (Z.eqb_spec (size (t_payload t)) 0) as [Hp|Hp];
      [|refused; destruct ad_body0 as [[_ Hx]|[Hx _]]; [by rewrite Hx in Hp|by rewrite H9 in Hx]].
    all: apply size_0 in Hp; intros [(->&Hf&->)|(?&Hf&->)]%insert_pending_cases;
      [left|right]; split_and!; try done; [|by intros []].
    all: split; try done; try (by left); intros; subst v; lia.
  - destruct (Z.eqb_spec (t_type t) TX_RECORD) as [Hr|Hr].
    2:{ refused. by destruct ad_body0 as [[? _]|[? _]]. }
    destruct (Z.eqb_spec (t_amount t) 0) as [Ha|Ha].
    2:{ refused. destruct ad_body0 as [[? _]|(_&?&_)]; done. }
    cbn [negb]. destruct (_ || _) eqn:Hs.
    { refused. apply orb_true_iff in Hs. rewrite Z.gtb_ltb, Z.eqb_eq, Z.ltb_lt in Hs.
      destruct ad_body0 as [[? _]|(_&_&?)]; [done|lia]. }
    rewrite Z.gtb_ltb in Hs. bool_props.
    intros [(->&Hf&->)|(?&Hf&->)]%insert_pending_cases; [left|right]; split_and!; try done;
      [|by intros []].
    split; try done. right. split_and!; try done. unfold size in *. lia.
Qed.

Lemma inserted_inv p mp t st : pool_inv p mp → wf_tx t → admissible mp t st p →
  pool_inv p (inserted mp t).
Proof.
  intros [H1 H2 H3 H4] Hw Ha. split; cbn.
  - intros k u [[<- <-]|[_ Hk]]%lookup_insert_Some; [|by apply H1]. by split; try apply Ha.
  - intros id. rewrite elem_of_union, elem_of_singleton, H2. split.
    + intros [->|(k & u & Hk & <-)].
      * eexists _, t. by rewrite lookup_insert_eq.
      * exists k, u. split; [|done]. rewrite lookup_insert_ne; [done|].
        intros <-. by rewrite (ad_free _ _ _ _ Ha) in Hk.
    + intros (k & u & [[<- <-]|[_ Hk]]%lookup_insert_Some & <-); [by left|right]. by exists k, u.
  - assert (∀ k u, m mp !! k = Some u → txid t = txid u → False) as Hno.
    { intros k u Hk E. apply (ad_new _ _ _ _ Ha), H2. by exists k, u. }
    intros j k u v [[<- <-]|[_ Hj]]%lookup_insert_Some [[<- <-]|[_ Hk]]%lookup_insert_Some E;
      [done|by destruct (Hno k v)|by destruct (Hno j u)|by eapply H3].
  - rewrite map_size_insert_None by apply (ad_free _ _ _ _ Ha).
    pose proof (ad_room _ _ _ _ Ha). lia.
Qed.
End invariant.

(** ** collect *)

Section collect.
Context `{HF : HashFn} `{CN : Cng}.

(** What a pass adds to [out]: transactions of the pool, valid one after another. *)
Definition picked (l : list (Key * Tx)) (tmp : State) (p : Params) (h : Z) (tmp' : State)
    (new : list Tx) : Prop :=
  (∀ t, t ∈ new → t ∈ l.*2) ∧ txs_ok p h tmp 1 new ∧ tmp' ≡ txs_post tmp new.

Lemma picked_nil l tmp p h : picked l tmp p h tmp [].
Proof. split_and!; [by intros ? ?%elem_of_nil|constructor|done]. Qed.

Lemma picked_skip e l tmp s p h tmp' new : s ≡ tmp →
  picked l s p h tmp' new → picked (e :: l) tmp p h tmp' new.
Proof.
  intros E (H1 & H2 & H3). split_and!.
  - intros t Ht. right. by apply H1.
  - by eapply txs_ok_equiv.
  - by rewrite H3, E.
Qed.

Lemma picked_cons k t l tmp s p h tmp' new : tx_ok tmp t p h false → s ≡ tx_post tmp t →
  picked l s p h tmp' new → picked ((k, t) :: l) tmp p h tmp' (t :: new).
Proof.
  intros Hok E (H1 & H2 & H3). split_and!.
  - intros x [->|Hx]%elem_of_cons; [by left|right; by apply H1].
  - constructor; [done|]. eapply txs_ok_equiv; [done|]. by eapply txs_ok_shift.
  - by rewrite H3, E.
Qed.

Lemma collect_pass_cases l tmp out pr p h maxn tmp' out' pr' : (length out < maxn)%nat →
  collect_pass l tmp out pr p h maxn = (tmp', out', pr') →
  ∃ new, out' = out ++ new ∧ picked l tmp p h tmp' new ∧ (length out' ≤ maxn)%nat ∧
    pr' = pr || bool_decide (new ≠ []).
Proof.
  revert tmp out pr. induction l as [|[k t] l IH]; intros tmp out pr Hm H; cbn [collect_pass] in H.
  { injection H as <- <- <-. exists []. rewrite app_nil_r, orb_false_r.
    split_and!; [done|apply picked_nil|lia|done]. }
  assert (∀ s, s ≡ tmp → collect_pass l s out pr p h maxn = (tmp', out', pr') →
    ∃ new, out' = out ++ new ∧ picked ((k, t) :: l) tmp p h tmp' new ∧ (length out' ≤ maxn)%nat ∧
      pr' = pr || bool_decide (new ≠ [])) as Hskip.
  { intros s Es (new & H1 & H2 & H3 & H4)%IH; [|done]. exists new.
    split_and!; try done. by eapply picked_skip. }
  destruct (negb _); [by apply (Hskip tmp)|].
  destruct (apply_tx tmp t p h false) as [s1 err] eqn:E. case_bool_decide as He.
  2:{ apply (Hskip s1); [|done]. by eapply apply_tx_failure. }
  subst err. apply apply_tx_success in E as [Hok E].
  destruct (Nat.leb_spec maxn (length (out ++ [t]))) as [Hle|Hgt].
  - injection H as <- <- <-. exists [t]. rewrite length_app in *. cbn [length] in *.
    split_and!; [done| |lia|by rewrite orb_true_r].
    eapply picked_cons; [done..|apply picked_nil].
  - apply IH in H as (new & -> & H2 & H3 & H4); [|lia]. exists (t :: new).
    rewrite <- app_assoc. split_and!; [done|by eapply picked_cons|by rewrite <- app_assoc in H3|].
    rewrite H4. by rewrite orb_true_r.
Qed.

(** A pass without progress tried every transaction of the pool in vain. *)
Lemma collect_pass_stuck l tmp out p h maxn tmp' out' : (length out < maxn)%nat →
  collect_pass l tmp out false p h maxn = (tmp', out', false) →
  out' = out ∧ tmp' ≡ tmp ∧
  ∀ k t, (k, t) ∈ l → k = (addr_of (t_from t), t_nonce t) → ¬ tx_ok tmp t p h false.
Proof.
  revert tmp. induction l as [|[k t] l IH]; intros tmp Hm H; cbn [collect_pass] in H.
  { injection H as <- <-. split_and!; try done. by intros ? ? ?%elem_of_nil. }
  rewrite cur_nonce_acct in H.
  destruct (Z.eqb_spec k.2 (nonce (acct tmp k.1))) as [Hk|Hk]; cbn [negb] in H.
  - destruct (apply_tx tmp t p h false) as [s1 err] eqn:E. case_bool_decide as He.
    + exfalso. destruct (maxn <=? _)%nat eqn:El; [done|].
      apply collect_pass_cases in H as (? & _ & _ & _ & ?); [done|by apply Nat.leb_gt].
    + destruct (apply_tx_cases _ _ _ _ _ _ _ E) as [(_&->&_)|(Hn&_&Es)]; [done|].
      apply IH in H as (-> & E' & Hall); [|done]. split_and!; [done|by rewrite E'|].
      intros j u [[= -> ->]|Hin]%elem_of_cons Hj; [done|]. rewrite <- Es. by eapply Hall.
  - apply IH in H as (-> & E' & Hall); [|done]. split_and!; [done..|].
    intros j u [[= -> ->]|Hin]%elem_of_cons Hj; [|by eapply Hall].
    intros (_ & _ & Hn & _). rewrite Hj in Hk. done.
Qed.

Definition collected (l : list (Key * Tx)) (base : State) (p : Params) (h : Z) (maxn : nat)
    (out : list Tx) : Prop :=
  (∀ t, t ∈ out → t ∈ l.*2) ∧ txs_ok p h base 1 out ∧ (length out ≤ maxn)%nat ∧
  ((length out < maxn)%nat → ∀ k t, (k, t) ∈ l → k = (addr_of (t_from t), t_nonce t) →
     ¬ tx_ok (txs_post base out) t p h false).

(** With enough fuel the loop ends, and its result cannot be extended. *)
Lemma collect_loop_cases fuel l base tmp out p h maxn : (maxn < fuel + length out)%nat →
  (length out ≤ maxn)%nat → picked l base p h tmp out →
  ∃ out', collect_loop fuel l tmp out true p h maxn = Some out' ∧ collected l base p h maxn out'.
Proof.
  revert tmp out. induction fuel as [|fuel IH]; intros tmp out Hf Hm Hp.
  { lia. }
  cbn [collect_loop andb]. destruct (Nat.ltb_spec (length out) maxn) as [Hlt|Hge].
  2:{ exists out. destruct Hp as (H1 & H2 & _). split; [done|]. split_and!; [done..|lia]. }
  destruct (collect_pass l tmp out false p h maxn) as [[tmp' out'] pr] eqn:E.
  assert (picked l base p h tmp' out' ∧ (length out' ≤ maxn)%nat ∧
          (pr = true → (length out < length out')%nat)) as (Hp' & Hm' & Hgrow).
  { apply collect_pass_cases in E as (new & -> & (H1 & H2 & H3) & H4 & H5); [|done].
    destruct Hp as (G1 & G2 & G3). split; [split_and!|split; [done|]].
    - intros t [?|?]%elem_of_app; auto.
    - apply txs_ok_app; [done|]. eapply txs_ok_equiv; [exact G3|]. by eapply txs_ok_shift.
    - by rewrite H3, G3, txs_post_app.
    - intros ->. cbn in H5. rewrite length_app. destruct new; [done|cbn; lia]. }
  destruct pr.
  - specialize (Hgrow eq_refl). apply IH; [lia|done|done].
  - apply collect_pass_stuck in E as (-> & E & Hall); [|done].
    exists out. split; [by destruct fuel|]. destruct Hp as (H1 & H2 & H3).
    split_and!; try done. intros _ k t Hin Hk. rewrite <- H3. by eapply Hall.
Qed.

Lemma collect_n_cases mp base p h maxn :
  ∃ out, collect_n mp base p h maxn = Some out ∧ collected (entries mp) base p h maxn out.
Proof. apply collect_loop_cases; [lia|cbn; lia|apply picked_nil]. Qed.

Lemma collect_collected mp base p h : collected (entries mp) base p h 1000 (collect mp base p h).
Proof. unfold collect. by destruct (collect_n_cases mp base p h 1000) as (out & -> & ?). Qed.

Lemma elem_of_entries_snd mp t : t ∈ (entries mp).*2 ↔ ∃ k, m mp !! k = Some t.
Proof.
  rewrite list_elem_of_fmap. split.
  - intros ([k u] & -> & H%elem_of_entries). by exists k.
  - intros [k H]. exists (k, t). split; [done|]. by apply elem_of_entries.
Qed.
End collect.

(** ** purge and find *)

Section purge.
Context `{HF : HashFn} `{CN : Cng}.

Definition stale (st : State) (k : Key) : Prop := k.2 < nonce (acct st k.1).

#[export] Instance stale_dec st k : Decision (stale st k).
Proof. unfold stale. apply _. Defined.

Lemma purge_loop_inv p l mp st : pool_inv p mp → NoDup l.*1 →
  (∀ k t, (k, t) ∈ l → m mp !! k = Some t) →
  pool_inv p (purge_loop l mp st) ∧
  ∀ k, m (purge_loop l mp st) !! k =
    if decide (k ∈ l.*1 ∧ stale st k) then None else m mp !! k.
Proof.
  revert mp. induction l as [|[k t] l IH]; intros mp Hp Hn Hl; cbn [purge_loop].
  { split; [done|]. intros k. rewrite decide_False; [done|]. by intros [?%elem_of_nil _]. }
  apply NoDup_cons in Hn as [Hk Hn]. rewrite cur_nonce_acct.
  destruct (Z.ltb_spec k.2 (nonce (acct st k.1))) as [Hs|Hs].
  - pose proof (Hl k t ltac:(left)) as Ht. destruct Hp as [H1 H2 H3 H4].
    edestruct (IH (mkMempool (delete k (m mp)) (ids mp ∖ {[txid t]}))) as [Hi Hm]; [|done| |].
    + split; cbn.
      * intros j u [_ Hj]%lookup_delete_Some. by apply H1.
      * intros id. rewrite elem_of_difference, elem_of_singleton, H2. split.
        -- intros [(j & u & Hj & <-) Hne]. exists j, u. split; [|done].
           rewrite lookup_delete_ne; [done|]. intros ->. congruence.
        -- intros (j & u & [Hne Hj]%lookup_delete_Some & <-). split; [by exists j, u|].
           intros E. apply Hne. symmetry. by eapply H3.
      * intros i j u v [_ Hi]%lookup_delete_Some [_ Hj]%lookup_delete_Some. by apply H3.
      * rewrite map_size_delete, Ht. pose proof (Nat.le_pred_l (stdpp.base.size (m mp))). lia.
    + intros j u Hj. cbn. rewrite lookup_delete_ne; [by apply Hl; right|].
      intros ->. apply Hk. by apply (list_elem_of_fmap_2 fst _ (j, u)).
    + split; [exact Hi|]. intros j. rewrite Hm. cbn [m fmap list_fmap fst].
      destruct (decide (k = j)) as [->|Hne].
      * rewrite (decide_True (P := j ∈ j :: _ ∧ _)) by (split; [by left|done]).
        rewrite lookup_delete_eq. by case_decide.
      * rewrite lookup_delete_ne by done. apply decide_ext. rewrite elem_of_cons. naive_solver.
  - destruct (IH mp) as [Hi Hm]; [done..|intros; apply Hl; by right|]. split; [done|].
    intros j. rewrite Hm. cbn [fmap list_fmap fst]. apply decide_ext. rewrite elem_of_cons.
    split; [naive_solver|]. intros [[->|?] ?]; [unfold stale in *; lia|done].
Qed.

Lemma purge_inv p mp st : pool_inv p mp → pool_inv p (purge mp st) ∧
  ∀ k, m (purge mp st) !! k = if decide (stale st k) then None else m mp !! k.
Proof.
  intros Hp. destruct (purge_loop_inv p (entries mp) mp st Hp (entries_keys_NoDup mp)) as [Hi Hm].
  { intros k t. apply elem_of_entries. }
  split; [exact Hi|]. intros k. unfold purge. rewrite Hm.
  destruct (m mp !! k) as [t|] eqn:E; [|by case_decide; case_decide].
  apply decide_ext. split; [by intros [_ ?]|]. split; [|done].
  apply (list_elem_of_fmap_2 fst _ (k, t)). by apply elem_of_entries.
Qed.

Lemma find_spec mp id t : find mp id = Some t → (∃ k, m mp !! k = Some t) ∧ txid t = id.
Proof.
  unfold find. destruct (List.find _ _) as [[k u]|] eqn:E; [|done]. intros [= ->].
  apply List.find_some in E as [Hin Hb]. apply list_elem_of_In, elem_of_entries in Hin.
  bool_props. split; [by exists k|done].
Qed.

Lemma find_has p mp id : pool_inv p mp → has mp id = true ↔ is_Some (find mp id).
Proof.
  intros Hp. unfold has. rewrite bool_decide_eq_true, (pi_ids p mp Hp). split.
  - intros (k & t & Hk & Hid). unfold find.
    destruct (List.find _ _) as [[j u]|] eqn:E; [by eexists|].
    eapply List.find_none in E; [|by apply list_elem_of_In, elem_of_entries].
    cbn in E. by rewrite bool_decide_eq_true_2 in E.
  - intros [t [[k Hk] Hid]%find_spec]. by exists k, t.
Qed.
End purge.

(** ** Theorems *)

Section theorems.
Context `{HF : HashFn} `{CN : Cng}.

(** C32: [add] admits exactly the transactions that may become valid. It reports
    success iff the pool has room, the transaction is new, signed, of this network,
    well-formed, within 16 of the sender's next nonce, paid for if it is next, and
    no other transaction holds its sender and nonce; then the pool is extended by
    it, and otherwise unchanged. The pool invariant is kept: keys, ids and
    transactions agree and no two entries share an id. *)
Theorem add_refines mp t st p : pool_inv p mp → wf_tx t →
  let '(mp', err) := add mp t st p in
  (err = "" ↔ admissible mp t st p) ∧ pool_inv p mp' ∧
  (err = "" → ∀ k, m mp' !! k = if decide (k = (addr_of (t_from t), t_nonce t)) then Some t else m mp !! k) ∧
  (err ≠ "" → mp' = mp).
Proof.
  intros Hp Hw. destruct (add mp t st p) as [mp' err] eqn:E.
  destruct (add_cases _ _ _ _ _ _ E) as [(->&Ha&->)|(?&->&?)]; [|naive_solver].
  split_and!; try done; [by eapply inserted_inv|]. intros _ k. cbn [m inserted].
  case_decide as Hk; [subst; by rewrite lookup_insert_eq|by rewrite lookup_insert_ne].
Qed.

(** C31: [collect] picks transactions a block can hold, and as many as it can. Its
    loop ends within [maxn + 1] passes; the result has at most [maxn] transactions
    of the pool, each valid after the ones before it; and unless the bound was
    reached no other transaction of the pool is valid after them. *)
Theorem collect_sound_and_maximal p mp base height maxn : pool_inv p mp →
  ∃ out, collect_n mp base p height maxn = Some out ∧ (length out ≤ maxn)%nat ∧
    (∀ t, t ∈ out → ∃ k, m mp !! k = Some t) ∧ txs_ok p height base 1 out ∧
    ((length out < maxn)%nat → ∀ k t, m mp !! k = Some t → ¬ tx_ok (txs_post base out) t p height false).
Proof.
  intros Hp. destruct (collect_n_cases mp base p height maxn) as (out & E & H1 & H2 & H3 & H4).
  exists out. split_and!; try done.
  - intros t Ht. by apply elem_of_entries_snd, H1.
  - intros Hlt k t Hk. apply (H4 Hlt k); [by apply elem_of_entries|]. by apply (pi_entry p mp Hp).
Qed.

(** [purge] drops exactly the transactions whose nonce the chain has consumed,
    and keeps the pool invariant; and [has] says whether [find] finds, which only
    returns a pooled transaction with the id asked for. *)
Lemma purge_exact p mp st id : pool_inv p mp →
  let mp' := purge mp st in
  pool_inv p mp' ∧
  (∀ k t, m mp' !! k = Some t ↔ m mp !! k = Some t ∧ nonce (acct st k.1) ≤ k.2) ∧
  (has mp' id = true ↔ ∃ k t, m mp' !! k = Some t ∧ find mp' id = Some t ∧ txid t = id).
Proof.
  intros Hp mp'. destruct (purge_inv p mp st Hp) as [Hi Hm]. fold mp' in Hi, Hm. split_and!; [done| |].
  - intros k t. rewrite Hm. unfold stale. case_decide.
    + split; [done|]. intros [_ ?]. lia.
    + split; [intros Hk; split; [done|lia]|by intros [? _]].
  - rewrite (find_has p mp' id Hi). split.
    + intros [t Ht]. destruct (find_spec _ _ _ Ht) as [[k Hk] Hid]. by exists k, t.
    + intros (k & t & _ & -> & _). by eexists.
Qed.
End theorems.
