(* ===== verification/Miner.v ===== *)
(** * Miner: block templates and the nonce search of [src/node_impl.h]

    [template] is the candidate block of [miner_thread] and of [/work]: a coinbase
    and what [collect] picks, on top of the current tip. The theorems show that a
    template with a good nonce is accepted by [connect_block]. *)

From S2P Require Import Prelude Hex Serial Sha256 Hash Crypto Merkle Tx Ledger Store Chain Consensus Mempool.

Local Open Scope Z_scope.

(** The coinbase of height [height] paying [to]. *)
Definition coinbase (p : Params) (to : bytes) (height : Z) : Tx :=
  mkTx TX_COINBASE (p_net_id p) (t_from Tx_default) to (p_reward p) height
    (t_payload Tx_default) (t_sig Tx_default).

Definition with_nonce (h : BlockHeader) (n : Z) : BlockHeader :=
  mkHeader (h_version h) (h_net_id h) (h_prev h) (h_merkle h) (h_height h) (h_time h) (h_bits h) n.

(** [for (k = 0; k < 8; k++) hdr[NONCE_OFFSET + k] = (uint8_t)(nonce >> (8 * k));] *)
Definition patch_nonce (hdr : bytes) (nonce : Z) : bytes :=
  foldl (λ hdr k, <[(Z.to_nat NONCE_OFFSET + k)%nat := u8 (Z.shiftr nonce (8 * Z.of_nat k))]> hdr)
    hdr (seq 0 8).

Section miner.
Context `{HF : HashFn} `{CN : Cng} {D : Type}.

(** The block built on the tip of [c] for the picked transactions [txs]. *)
Definition template (c : Chain D) (p : Params) (to : bytes) (txs : list Tx) (now : Z) : Block :=
  let height := u64 (height c + 1) in
  let all := coinbase p to height :: txs in
  mkBlock (mkHeader CL_VERSION (p_net_id p) (default zero_hash (tip_hash c))
             (merkle_root (map txid all)) height now (p_bits p) 0) all.

(** [miner_thread] mines when there is a transaction or a heartbeat is due; the
    clock is read twice. *)
Definition miner_candidate (c : Chain D) (pool : Mempool) (p : Params) (to : bytes)
    (heartbeat_s now1 now2 : Z) : option Block :=
  let txs := collect pool (st c) p (u64 (height c + 1)) in
  let tip_time := match tip c with Some b => h_time (b_h b) | None => 0 end in
  let hb_due := (0 <? heartbeat_s) && (u64 (tip_time + heartbeat_s) <=? now1) in
  if negb (bool_decide (txs = [])) || hb_due
  then Some (template c p to txs now2) else None.

(** The inner loop of the search: [n] attempts from [nonce] on; the found flag and
    the nonce it ends with. *)
Fixpoint search (n : nat) (hdr : bytes) (bits nonce : Z) : bool * Z :=
  match n with
  | O => (false, nonce)
  | S n =>
      let hdr := patch_nonce hdr nonce in
      if pow_ok (hash256d hdr) bits then (true, nonce)
      else search n hdr bits (u64 (nonce + 1))
  end.

(** The outer loop; [go i] is [a.running && a.tip_seq.load() == seq] before round
    [i], and [tried] counts the attempts of the rounds that were run. *)
Fixpoint mine_loop (fuel : nat) (batch : nat) (hdr : bytes) (bits nonce : Z) (tried : Z)
    (go : nat → bool) (i : nat) : option (bool * Z) :=
  match fuel with
  | O => None
  | S fuel =>
      if negb (go i) then Some (false, nonce)
      else
        let '(found, nonce) := search batch hdr bits nonce in
        let tried := u64 (tried + Z.of_nat batch) in
        if tried >? 2 ^ 40 then Some (found, nonce)
        else if found then Some (true, nonce)
        else mine_loop fuel batch hdr bits nonce tried go (S i)
  end.

(** The search of [miner_thread], 100000 attempts in a round: the mined block. *)
Definition mine (fuel : nat) (cand : Block) (nonce : Z) (go : nat → bool) : option Block :=
  match mine_loop fuel (Z.to_nat 100000) (header_serialize (b_h cand)) (h_bits (b_h cand))
          nonce 0 go 0 with
  | Some (true, n) => Some (mkBlock (with_nonce (b_h cand) n) (b_txs cand))
  | _ => None
  end.
End miner.

(** ** The nonce bytes *)

Lemma le_bytes n v : le n v = map (λ k, u8 (Z.shiftr v (8 * Z.of_nat k))) (seq 0 n).
Proof.
  assert (∀ j, le n (Z.shiftr v (8 * Z.of_nat j)) =
    map (λ k, u8 (Z.shiftr v (8 * Z.of_nat k))) (seq j n)) as H.
  { induction n as [|n IH]; intros j; [done|]. cbn [seq map]. rewrite <- IH.
    set (x := Z.shiftr v (8 * Z.of_nat j)). change (le (S n) x) with (x mod 256 :: le n (x / 256)). subst x.
    assert (Z.shiftr v (8 * Z.of_nat j) / 256 = Z.shiftr v (8 * Z.of_nat (S j))) as ->.
    { change 256 with (2 ^ 8). rewrite <- (Z.shiftr_div_pow2 _ 8), Z.shiftr_shiftr by lia.
      f_equal. lia. }
    done. }
  rewrite <- H. done.
Qed.

Lemma patch_app (a b : bytes) nonce : length a = Z.to_nat NONCE_OFFSET → length b = 8%nat →
  patch_nonce (a ++ b) nonce = a ++ le 8 nonce.
Proof.
  intros Ha Hb. rewrite le_bytes. unfold patch_nonce. rewrite <- Ha.
  cbn [seq foldl map]. rewrite !insert_app_r.
  do 8 (destruct b as [|? b]; [done|]). destruct b; [|done]. reflexivity.
Qed.

Lemma patch_header h nonce : wf_header h →
  patch_nonce (header_enc h) nonce = header_enc (with_nonce h nonce).
Proof.
  intros []. unfold header_enc at 1. rewrite !app_assoc, patch_app.
  - unfold header_enc, with_nonce. cbn [h_version h_net_id h_prev h_merkle h_height h_time h_bits h_nonce].
    by rewrite !app_assoc.
  - rewrite !length_app, !length_le. rewrite (wf_array_length 32 (h_prev h)), (wf_array_length 32 (h_merkle h)); done.
  - apply length_le.
Qed.

Lemma wf_with_nonce h n : wf_header h → in_width 64 n → wf_header (with_nonce h n).
Proof. intros [] ?. by split. Qed.

(** ** The search *)

Section search.
Context `{HF : HashFn}.

Definition good_nonce (h : BlockHeader) (bits n : Z) : bool :=
  pow_ok (header_hash (with_nonce h n)) bits.

Lemma search_cases n h bits nonce found m : wf_header h → in_width 64 nonce →
  search n (header_enc h) bits nonce = (found, m) →
  if found
  then good_nonce h bits m = true ∧
    ∃ k, (k < n)%nat ∧ m = u64 (nonce + Z.of_nat k) ∧
         ∀ j, (j < k)%nat → good_nonce h bits (u64 (nonce + Z.of_nat j)) = false
  else m = u64 (nonce + Z.of_nat n) ∧
    ∀ j, (j < n)%nat → good_nonce h bits (u64 (nonce + Z.of_nat j)) = false.
Proof.
  revert h nonce. induction n as [|n IH]; intros h nonce Hh Hn H; cbn [search] in H.
  { injection H as <- <-. split; [|lia]. by rewrite Z.add_0_r, wrap_small. }
  rewrite patch_header in H by done. rewrite <- header_hash_enc in H.
  change (pow_ok (header_hash (with_nonce h nonce)) bits) with (good_nonce h bits nonce) in H.
  assert (u64 (nonce + Z.of_nat 0) = nonce) as H0 by by rewrite Z.add_0_r, wrap_small.
  destruct (good_nonce h bits nonce) eqn:E.
  - injection H as <- <-. split; [done|]. exists 0%nat. split_and!; [lia|done|lia].
  - apply IH in H; [|by apply wf_with_nonce|by apply wrap_in_width].
    change (good_nonce (with_nonce h nonce)) with (good_nonce h) in H.
    assert (∀ k, u64 (u64 (nonce + 1) + Z.of_nat k) = u64 (nonce + Z.of_nat (S k))) as Hs.
    { intros k. rewrite wrap_add_l. f_equal. lia. }
    destruct found.
    + destruct H as [Hg (k & Hk & -> & Hj)]. split; [done|]. exists (S k). split_and!; [lia|apply Hs|].
      intros [|j] Hlt; [by rewrite H0|]. rewrite <- Hs. apply Hj. lia.
    + destruct H as [-> Hj]. split; [apply Hs|].
      intros [|j] Hlt; [by rewrite H0|]. rewrite <- Hs. apply Hj. lia.
Qed.

(** The outer loop ends: after [2 ^ 40] attempts it gives up. *)
Lemma mine_loop_total fuel batch hdr bits nonce tried go i :
  0 < Z.of_nat batch ≤ 2 ^ 40 → 0 ≤ tried ≤ 2 ^ 40 →
  2 ^ 40 < tried + Z.of_nat fuel * Z.of_nat batch →
  is_Some (mine_loop fuel batch hdr bits nonce tried go i).
Proof.
  intros Hb. revert hdr nonce tried i. induction fuel as [|fuel IH]; intros hdr nonce tried i Ht Hf;
    [lia|]. cbn [mine_loop]. destruct (go i); cbn [negb]; [|by eexists].
  destruct (search _ _ _ _) as [found nonce']. rewrite Z.gtb_ltb.
  rewrite wrap_small by (unfold in_width; lia).
  destruct (Z.ltb_spec (2 ^ 40) (tried + Z.of_nat batch)); [by eexists|].
  destruct found; [by eexists|]. apply IH; lia.
Qed.

Lemma mine_loop_found fuel batch h bits nonce tried go i m : wf_header h → in_width 64 nonce →
  mine_loop fuel batch (header_enc h) bits nonce tried go i = Some (true, m) →
  good_nonce h bits m = true ∧ in_width 64 m.
Proof.
  intros Hh. revert nonce tried i. induction fuel as [|fuel IH]; intros nonce tried i Hn H; [done|].
  cbn [mine_loop] in H. destruct (negb _); [done|].
  destruct (search batch (header_enc h) bits nonce) as [found m'] eqn:E.
  apply search_cases in E; [|done..].
  assert (in_width 64 m') as Hm.
  { destruct found; [destruct E as (_ & k & _ & -> & _)|destruct E as [-> _]]; by apply wrap_in_width. }
  case_match.
  - injection H as -> ->. by destruct E.
  - destruct found; [injection H as ->; by destruct E|]. by apply IH in H.
Qed.
End search.

(** ** More funds keep transactions valid *)

(** The same nonces, and at least the same balances. *)
Definition richer (s1 s2 : State) : Prop :=
  ∀ a, nonce (acct s1 a) = nonce (acct s2 a) ∧ balance (acct s1 a) ≤ balance (acct s2 a).

Section richer.
Context `{HF : HashFn} `{CN : Cng}.

Lemma richer_tx_ok s1 s2 t p h : richer s1 s2 → tx_ok s1 t p h false → tx_ok s2 t p h false.
Proof.
  intros Hr (Hn & Ha & Ht & Hb). destruct (Hr (addr_of (t_from t))) as [En Eb].
  split_and!; try done; [congruence|].
  destruct Hb as [(?&?&?)|?]; [left; split_and!; [done..|lia]|by right].
Qed.

Lemma richer_bump s1 s2 a : richer s1 s2 → richer (bump s1 a) (bump s2 a).
Proof.
  intros Hr b. rewrite !acct_bump. destruct (Hr a) as [-> ?]. case_decide; [done|apply Hr].
Qed.

Lemma richer_transfer s1 s2 a to v : wf_state s1 → wf_state s2 → supply s2 < 2 ^ 64 →
  richer s1 s2 → 0 ≤ v ≤ balance (acct s1 a) →
  richer (credit (debit s1 a v) to v) (credit (debit s2 a v) to v).
Proof.
  intros H1 H2 Hs Hr Hv.
  assert (0 ≤ v ≤ balance (acct s2 a)) as Hv2 by (destruct (Hr a); lia).
  pose proof (balance_le_supply (debit s2 a v) to (wf_debit _ _ _ H2)) as Hle.
  rewrite supply_debit in Hle by done.
  assert (richer (debit s1 a v) (debit s2 a v)) as Hd.
  { intros b. rewrite !nonce_debit, !balance_debit by done. destruct (Hr b). split; [done|lia]. }
  intros b. rewrite !nonce_credit. destruct (Hd b) as [? ?], (Hd to) as [? ?]. split; [done|].
  rewrite !balance_credit by (apply wf_debit || lia; done). lia.
Qed.

Lemma richer_tx_post s1 s2 t p h : wf_state s1 → wf_state s2 → supply s2 < 2 ^ 64 → wf_tx t →
  richer s1 s2 → tx_ok s1 t p h false → richer (tx_post s1 t) (tx_post s2 t).
Proof.
  intros H1 H2 Hs Ht Hr (_ & _ & _ & Hb). unfold tx_post.
  destruct (Z.eqb_spec (t_type t) TX_COINBASE) as [E|E].
  { destruct Hb as [(E' & _)|(E' & _)]; by rewrite E in E'. }
  apply richer_bump. destruct (Z.eqb_spec (t_type t) TX_TRANSFER) as [E'|E']; [|done].
  destruct Hb as [(_ & _ & Hb)|(Hb & _)]; [|by rewrite E' in Hb].
  pose proof (wf_t_amount t Ht) as [? _]. by apply richer_transfer.
Qed.

(** Only a coinbase changes the supply. *)
Lemma supply_pending s t p h : wf_state s → wf_tx t → supply s < 2 ^ 64 →
  tx_ok s t p h false → supply (tx_post s t) = supply s.
Proof.
  intros Hw Ht Hs Hok. assert (minted t = 0) as Hm.
  { unfold minted. case_match eqn:E; [|done]. bool_props.
    destruct Hok as (_ & _ & _ & [(E' & _)|(E' & _)]); by rewrite E in E'. }
  erewrite supply_tx_post; [|done..|]; rewrite Hm; lia.
Qed.

Lemma richer_txs_ok p h s1 s2 i ts : wf_state s1 → wf_state s2 → supply s2 < 2 ^ 64 →
  Forall wf_tx ts → richer s1 s2 → txs_ok p h s1 (S i) ts → txs_ok p h s2 (S i) ts.
Proof.
  intros H1 H2 Hs Hw Hr H. remember (S i) as j eqn:Hj. revert i s2 H2 Hs Hr Hj.
  induction H as [s1 j|s1 j t ts Ht Hts IH]; intros i s2 H2 Hs Hr ->; [constructor|].
  apply Forall_cons in Hw as [Hw1 Hw]. cbn in Ht. pose proof (richer_tx_ok _ _ _ _ _ Hr Ht) as Ht2.
  constructor; [done|]. apply (IH (wf_tx_post _ _ H1) Hw (S i)); try done.
  - by apply wf_tx_post.
  - by rewrite (supply_pending _ _ p h).
  - by eapply richer_tx_post.
Qed.

Lemma richer_credit s a v : wf_state s → 0 ≤ v → supply s + v < 2 ^ 64 → richer s (credit s a v).
Proof.
  intros Hw Hv Hs b. rewrite nonce_credit. split; [done|].
  pose proof (balance_le_supply s a Hw). rewrite balance_credit by (done || lia). case_decide; lia.
Qed.
End richer.

(** ** Templates are valid blocks *)

Lemma wf_zeros n : wf_array n (replicate n 0).
Proof. split; [apply length_replicate|by apply Forall_replicate]. Qed.

Section templates.
Context `{HF : HashFn} `{CN : Cng} {D : Type} `{DB : Sqlite D}.
Implicit Types c : Chain D.

Lemma wf_coinbase p to h : wf_params p → wf_array 20 to → in_width 64 h → wf_tx (coinbase p to h).
Proof.
  intros (? & _ & ? & _) ? ?.
  split; cbn; try done; [exact (wf_zeros 64)|apply wf_bytes_nil|exact (wf_zeros 64)].
Qed.

(** A transaction list that [collect] may return for the chain. *)
Definition pickable c (txs : list Tx) : Prop :=
  Forall wf_tx txs ∧ txs_ok (params c) (u64 (height c + 1)) (st c) 1 txs ∧ size txs ≤ 1000.

Lemma collect_pickable c pool : pool_inv (params c) pool →
  pickable c (collect pool (st c) (params c) (u64 (height c + 1))).
Proof.
  intros Hp. destruct (collect_collected pool (st c) (params c) (u64 (height c + 1)))
    as (H1 & H2 & H3 & _). split_and!; [|done|unfold size; lia].
  apply Forall_forall. intros t Ht. apply H1, elem_of_entries_snd in Ht as [k Hk].
  by eapply pt_wf, pi_entry.
Qed.

Definition sealed (b : Block) (n : Z) : Block := mkBlock (with_nonce (b_h b) n) (b_txs b).

Lemma wf_sealed c to txs now n : wf_params (params c) → chain_inv c → wf_array 20 to →
  in_width 64 now → in_width 64 n → Forall wf_tx txs →
  wf_block (sealed (template c (params c) to txs now) n).
Proof.
  intros Hp Hc Hto Hnow Hn Hw. pose proof Hp as (? & ? & _).
  assert (in_width 64 (u64 (height c + 1))) by by apply wrap_in_width.
  split; cbn; [|constructor; [by apply wf_coinbase|done]].
  split; cbn; try done.
  - rewrite chain_inv_tip by done. destruct (tip c); [apply wf_header_hash|apply wf_zero_hash].
  - exact (wf_merkle_root _ (wf_txids (coinbase (params c) to (u64 (height c + 1)) :: txs))).
Qed.

Lemma template_next_ok c to txs now n : wf_params (params c) → chain_inv c → blocks c ≠ [] →
  supply (ledger (blocks c)) + p_reward (params c) < 2 ^ 64 →
  pickable c txs →
  good_nonce (b_h (template c (params c) to txs now)) (p_bits (params c)) n = true →
  next_ok (params c) (blocks c) (sealed (template c (params c) to txs now) n).
Proof.
  intros Hp Hc Hne Hs (Hw & Hok & Hl) Hg. unfold next_ok.
  destruct (last (blocks c)) as [prev|] eqn:El; [|by apply last_None in El].
  assert (tip c = Some prev) as Et by done.
  split; cbn; try done.
  - unfold height. by rewrite Et.
  - by rewrite (chain_inv_tip c Hc), Et.
  - unfold size in *. cbn [length]. unfold MAX_BLOCK_TXS. lia.
  - constructor.
    + split; [done|]. by split_and!.
    + change (tx_post (ledger (blocks c)) (coinbase (params c) to (u64 (height c + 1))))
        with (credit (ledger (blocks c)) to (p_reward (params c))).
      destruct Hp as (_ & _ & [Hr _] & _). pose proof (wf_ledger (blocks c)) as Hwl.
      eapply (richer_txs_ok _ _ (ledger (blocks c))); try done.
      * by apply wf_credit.
      * rewrite supply_credit by (done || lia). lia.
      * by apply richer_credit.
      * eapply txs_ok_equiv; [apply Hc|]. exact Hok.
Qed.

(** The template of the pool, with a nonce that meets the difficulty, is accepted
    by the chain it was built on. *)
Lemma mined_accepted c pool to now n now' : wf_params (params c) → chain_inv c → blocks c ≠ [] →
  pool_inv (params c) pool → supply (ledger (blocks c)) + p_reward (params c) < 2 ^ 64 →
  now ≤ u64 (now' + MAX_TIME_SKEW_S) →
  let cand := template c (params c) to
    (collect pool (st c) (params c) (u64 (height c + 1))) now in
  good_nonce (b_h cand) (p_bits (params c)) n = true →
  ∃ c', connect_block c (sealed cand n) now' = (c', "").
Proof.
  intros Hp Hc Hne Hpool Hs Hnow cand Hg. apply connect_block_run; [done| |].
  - apply template_next_ok; try done. by apply collect_pickable.
  - intros _. exact Hnow.
Qed.
End templates.

(** ** Theorems *)

Section theorems.
Context `{HF : HashFn} `{CN : Cng} {D : Type} `{DB : Sqlite D}.

(** What a node mines is accepted: any nonce that meets the difficulty makes of the
    template a block that the chain it was built on takes. *)
Lemma mined_block_accepted (c : Chain D) mp to now n now' :
  wf_params (params c) → chain_inv c → blocks c ≠ [] → pool_inv (params c) mp →
  wf_array 20 to → in_width 64 now → in_width 64 n →
  supply (st c) + p_reward (params c) < 2 ^ 64 → now ≤ u64 (now' + MAX_TIME_SKEW_S) →
  let b := sealed (template c (params c) to
             (collect mp (st c) (params c) (u64 (height c + 1))) now) n in
  pow_ok (block_hash b) (p_bits (params c)) = true →
  ∃ c', connect_block c b now' = (c', "") ∧ chain_inv c' ∧ blocks c' = blocks c ++ [b].
Proof.
  intros Hp Hc Hne Hpool Hto Hnow Hn Hs Hclock b Hg. rewrite (ci_st c Hc) in Hs.
  destruct (mined_accepted c mp to now n now' Hp Hc Hne Hpool Hs Hclock Hg) as [c' H].
  exists c'. split; [done|]. eapply connect_block_ok in H as (_ & _ & ? & _ & ? & _); try done.
  apply wf_sealed; try done. by apply collect_pickable.
Qed.

(** The nonce search ends and is right. With the 100000 attempts of a round the
    loop of [miner_thread] ends within 10995118 rounds whatever the header; when it
    gives a block, this is the candidate with another nonce and its hash meets the
    difficulty. *)
Lemma mine_search (cand : Block) nonce go : wf_header (b_h cand) → in_width 64 nonce →
  is_Some (mine_loop (Z.to_nat 10995118) (Z.to_nat 100000) (header_serialize (b_h cand))
             (h_bits (b_h cand)) nonce 0 go 0) ∧
  ∀ fuel b, mine fuel cand nonce go = Some b →
    ∃ n, in_width 64 n ∧ b = sealed cand n ∧ pow_ok (block_hash b) (h_bits (b_h cand)) = true.
Proof.
  intros Hh Hn. split; [apply mine_loop_total; lia|]. intros fuel b. unfold mine.
  rewrite header_serialize_enc.
  destruct (mine_loop _ _ _ _ _ _ _ _) as [[[|] n]|] eqn:E; try done. intros [= <-].
  apply mine_loop_found in E as [Hg Hw]; [|done..]. by exists n.
Qed.
End theorems.
