(* ===== verification/Net.v ===== *)
(** * Net: peers and framing of [src/net.h]

    A [Peer] without its socket: buffers, handshake and tip. What the sockets do
    (bytes received, bytes accepted for sending, a connection that ends) is the
    input of the operations. [parse_frames] takes fuel, which the length of the
    buffer bounds. *)

From stdpp Require Import sorting.
From S2P Require Import Prelude Serial Tx.

Local Open Scope Z_scope.

Definition M_HELLO : Z := 1.
Definition M_TIP : Z := 2.
Definition M_GET_BLOCKS : Z := 3.
Definition M_BLOCKS : Z := 4.
Definition M_TX : Z := 5.
Definition M_BLOCK : Z := 6.

Record Peer := mkPeer {
  label : string;
  target : string;
  connecting : bool;
  ready : bool;
  dead : bool;
  dedup_drop : bool;
  peer_port : Z;
  inbuf : bytes;
  outbuf : bytes;
  tip_height : Z;
  tip_work : Z;
  peer_tip_hash : bytes;
}.

(** [Peer p; p.label = l; p.target = t; p.connecting = c;] *)
Definition Peer_new (l t : string) (c : bool) : Peer :=
  mkPeer l t c false false false 0 [] [] 0 0 (replicate 32 0).

Definition set_connecting (p : Peer) (b : bool) : Peer :=
  mkPeer (label p) (target p) b (ready p) (dead p) (dedup_drop p) (peer_port p) (inbuf p)
    (outbuf p) (tip_height p) (tip_work p) (peer_tip_hash p).
Definition set_ready (p : Peer) (b : bool) : Peer :=
  mkPeer (label p) (target p) (connecting p) b (dead p) (dedup_drop p) (peer_port p) (inbuf p)
    (outbuf p) (tip_height p) (tip_work p) (peer_tip_hash p).
Definition set_dead (p : Peer) (b : bool) : Peer :=
  mkPeer (label p) (target p) (connecting p) (ready p) b (dedup_drop p) (peer_port p) (inbuf p)
    (outbuf p) (tip_height p) (tip_work p) (peer_tip_hash p).
Definition set_dedup_drop (p : Peer) (b : bool) : Peer :=
  mkPeer (label p) (target p) (connecting p) (ready p) (dead p) b (peer_port p) (inbuf p)
    (outbuf p) (tip_height p) (tip_work p) (peer_tip_hash p).
Definition set_peer_port (p : Peer) (v : Z) : Peer :=
  mkPeer (label p) (target p) (connecting p) (ready p) (dead p) (dedup_drop p) v (inbuf p)
    (outbuf p) (tip_height p) (tip_work p) (peer_tip_hash p).
Definition set_inbuf (p : Peer) (b : bytes) : Peer :=
  mkPeer (label p) (target p) (connecting p) (ready p) (dead p) (dedup_drop p) (peer_port p) b
    (outbuf p) (tip_height p) (tip_work p) (peer_tip_hash p).
Definition set_outbuf (p : Peer) (b : bytes) : Peer :=
  mkPeer (label p) (target p) (connecting p) (ready p) (dead p) (dedup_drop p) (peer_port p)
    (inbuf p) b (tip_height p) (tip_work p) (peer_tip_hash p).
Definition set_tip (p : Peer) (h w : Z) (hash : bytes) : Peer :=
  mkPeer (label p) (target p) (connecting p) (ready p) (dead p) (dedup_drop p) (peer_port p)
    (inbuf p) (outbuf p) h w hash.

(** The members of [P2P] that are not sockets or threads. *)
Record P2P := mkP2P {
  net_id : Z;
  listen_port : Z;
  targets : list string;
  peers : gmap Z Peer;
  next_id : Z;  (* an [int], which a run with 2^31 links would overflow: not modelled *)
  last_reconnect : Z;
}.

Definition set_peers (n : P2P) (ps : gmap Z Peer) : P2P :=
  mkP2P (net_id n) (listen_port n) (targets n) ps (next_id n) (last_reconnect n).

(** [Ev]: kind 0, 1 and 2. *)
Inductive Ev : Type :=
  | EvReady (peer : Z)
  | EvMsg (peer : Z) (type : Z) (payload : bytes)
  | EvGone (peer : Z).

(** ** Sending *)

Definition frame_into (out : bytes) (type : Z) (payload : bytes) : bytes :=
  let len := u32 (size payload) in
  let out := foldl (λ out i, out ++ [Z.land (Z.shiftr len (8 * i)) 0xff]) out [0; 1; 2; 3] in
  (out ++ [type]) ++ payload.

Definition send_frame (p : Peer) (type : Z) (payload : bytes) : Peer :=
  set_outbuf p (frame_into (outbuf p) type payload).

Definition queue_hello (n : P2P) (p : Peer) : Peer :=
  let w := w_u32 [] (net_id n) in
  let w := w_u32 w CL_VERSION in
  let w := w_u16 w (listen_port n) in
  send_frame p M_HELLO w.

Definition send_to (n : P2P) (peer : Z) (type : Z) (payload : bytes) : P2P :=
  match peers n !! peer with
  | None => n
  | Some p => if dead p then n else set_peers n (<[peer := send_frame p type payload]> (peers n))
  end.

Definition broadcast (n : P2P) (type : Z) (payload : bytes) (except : Z) : P2P :=
  set_peers n (map_imap (λ id p, Some
    (if ready p && negb (dead p) && negb (id =? except) then send_frame p type payload else p))
    (peers n)).

Definition ready_count (n : P2P) : Z :=
  map_fold (λ _ p k, if ready p && negb (dead p) then k + 1 else k) 0 (peers n).

(** The height, work and hash that [peer_tip] writes, [None] for [false]. *)
Definition peer_tip (n : P2P) (id : Z) : option (Z * Z * bytes) :=
  match peers n !! id with
  | None => None
  | Some p => if negb (ready p) then None else Some (tip_height p, tip_work p, peer_tip_hash p)
  end.

Definition peer_label (n : P2P) (id : Z) : string :=
  match peers n !! id with None => "?" | Some p => label p end.

(** ** Receiving *)

Definition MAX_FRAME : Z := 8 * 1024 * 1024.
Definition MAX_INBUF : Z := 16 * 1024 * 1024.

Definition hello_fields : Parser (Z * Z) :=
  nid ← r_u32; version ← r_u32; port ← r_u16; mret (nid, port).

(** A TIP: the fields are assigned as they are read, also when a later one is
    missing. *)
Definition on_tip (p : Peer) (payload : bytes) : Peer * bool :=
  match r_u64 (reader_of payload) with
  | Err _ => (p, false)
  | Ok (h, r) =>
      let p := set_tip p h (tip_work p) (peer_tip_hash p) in
      match r_u64 r with
      | Err _ => (p, false)
      | Ok (w, r) =>
          let p := set_tip p (tip_height p) w (peer_tip_hash p) in
          match r_arr 32 r with
          | Err _ => (p, false)
          | Ok (hash, _) => (set_tip p (tip_height p) (tip_work p) hash, true)
          end
      end
  end.

(** A HELLO from a peer: the peer and its events. *)
Definition on_hello (n : P2P) (id : Z) (p : Peer) (payload : bytes) : Peer * list Ev :=
  match hello_fields (reader_of payload) with
  | Err _ => (set_dead p true, [])
  | Ok ((nid, their_port), _) =>
      if negb (nid =? net_id n) then (set_dead p true, [])
      else
        let p := set_peer_port p their_port in
        let i_should_dial := listen_port n <? their_port in
        let is_outbound := negb (bool_decide (target p = "")) in
        if negb (their_port =? 0) && negb (Bool.eqb i_should_dial is_outbound)
        then (set_dedup_drop (set_dead p true) true, [])
        else if negb (ready p) then (set_ready p true, [EvReady id])
        else (p, [])
  end.

(** A complete frame: [parse_frames] goes on unless the peer is dead. *)
Definition on_frame (n : P2P) (id : Z) (p : Peer) (type : Z) (payload : bytes) : Peer * list Ev :=
  if type =? M_HELLO then on_hello n id p payload
  else if type =? M_TIP then
    let '(p, ok) := on_tip p payload in
    if ok then (p, [EvMsg id type payload]) else (set_dead p true, [])
  else (p, [EvMsg id type payload]).

Definition byte_at (b : bytes) (i : nat) : Z := nth i b 0.

Definition frame_len (b : bytes) : Z :=
  Z.lor (Z.lor (Z.lor (byte_at b 0) (Z.shiftl (byte_at b 1) 8)) (Z.shiftl (byte_at b 2) 16))
    (Z.shiftl (byte_at b 3) 24).

Fixpoint parse_loop (fuel : nat) (n : P2P) (id : Z) (p : Peer) (evs : list Ev) : Peer * list Ev :=
  match fuel with
  | O => (p, evs)
  | S fuel =>
      let b := inbuf p in
      if size b <? 5 then (p, evs)
      else
        let len := frame_len b in
        if len >? MAX_FRAME then (set_dead p true, evs)
        else if size b <? 5 + len then (p, evs)
        else
          let type := byte_at b 4 in
          let payload := take (Z.to_nat len) (drop 5 b) in
          let p := set_inbuf p (drop (Z.to_nat (5 + len)) b) in
          let '(p, new) := on_frame n id p type payload in
          if dead p then (p, evs ++ new) else parse_loop fuel n id p (evs ++ new)
  end.

Definition parse_frames (n : P2P) (id : Z) (p : Peer) (evs : list Ev) : Peer * list Ev :=
  parse_loop (S (length (inbuf p))) n id p evs.

(** What [recv] returns. *)
Inductive Recv : Type :=
  | RecvData (b : bytes)
  | RecvClosed
  | RecvWouldBlock
  | RecvError.

(** The loop that drains a readable socket. *)
Fixpoint drain (p : Peer) (rs : list Recv) : Peer :=
  match rs with
  | [] => p
  | RecvData b :: rs =>
      let p := set_inbuf p (inbuf p ++ b) in
      if size (inbuf p) >? MAX_INBUF then set_dead p true else drain p rs
  | RecvWouldBlock :: _ => p
  | RecvClosed :: _ | RecvError :: _ => set_dead p true
  end.

Definition on_readable (n : P2P) (id : Z) (p : Peer) (rs : list Recv) (evs : list Ev) : Peer * list Ev :=
  let p := drain p rs in
  if negb (dead p) then parse_frames n id p evs else (p, evs).

(** What [send] returns. *)
Inductive Sent : Type :=
  | SentBytes (k : nat)
  | SentWouldBlock
  | SentError.

Definition on_writable (p : Peer) (r : Sent) : Peer :=
  if negb (dead p) && negb (bool_decide (outbuf p = [])) then
    match r with
    | SentBytes k => set_outbuf p (drop k (outbuf p))
    | SentWouldBlock => p
    | SentError => set_dead p true
    end
  else p.

(** [peers[next_id++] = std::move(p);] *)
Definition add_peer (n : P2P) (p : Peer) : P2P :=
  mkP2P (net_id n) (listen_port n) (targets n) (<[next_id n := p]> (peers n)) (next_id n + 1)
    (last_reconnect n).

(** A connection that [accept] returned; [port] is what [getpeername] tells. *)
Definition accept_peer (n : P2P) (port : option Z) : P2P :=
  let l := match port with Some v => "in:" +:+ pretty v | None => "in:?" end in
  add_peer n (queue_hello n (Peer_new l "" false)).

(** A connection that [connect] made or started. *)
Definition dial_peer (n : P2P) (t : string) (pending : bool) : P2P :=
  let p := Peer_new t t pending in
  add_peer n (if pending then p else queue_hello n p).

Definition on_connected (n : P2P) (p : Peer) (ok : bool) : Peer :=
  if negb ok then set_dead p true else queue_hello n (set_connecting p false).

(** [have] of [try_connect_targets]. *)
Definition has_live_link (n : P2P) (t : string) : bool :=
  existsb (λ kv, bool_decide (target kv.2 = t) && negb (dead kv.2)) (map_to_list (peers n)).

(** The order of the map's iteration. *)
Definition id_le (x y : Z * Peer) : Prop := x.1 ≤ y.1.

#[export] Instance id_le_dec x y : Decision (id_le x y).
Proof. unfold id_le. apply _. Defined.

Definition peer_ids (n : P2P) : list Z := (merge_sort id_le (map_to_list (peers n))).*1.

(** A dead peer is erased; one that was ready raises an event. *)
Definition reap_link (s : P2P * list Ev) (id : Z) : P2P * list Ev :=
  match peers s.1 !! id with
  | None => s
  | Some p =>
      if dead p
      then (set_peers s.1 (delete id (peers s.1)), if ready p then s.2 ++ [EvGone id] else s.2)
      else s
  end.

Definition reap (n : P2P) (evs : list Ev) : P2P * list Ev := foldl reap_link (n, evs) (peer_ids n).

(** ** Frames on the wire *)

Lemma le_4 v : le 4 v = [v mod 256; v / 256 mod 256; v / 65536 mod 256; v / 16777216 mod 256].
Proof.
  change 16777216 with (256 * 256 * 256). change 65536 with (256 * 256).
  by rewrite <- !Z.div_div.
Qed.

Lemma frame_into_enc out type payload :
  frame_into out type payload = out ++ le 4 (u32 (size payload)) ++ type :: payload.
Proof.
  unfold frame_into. cbv zeta. cbn [foldl]. rewrite <- !app_assoc. f_equal.
  set (v := u32 (size payload)).
  assert (∀ i, Z.land (Z.shiftr v (8 * i)) 255 = Z.shiftr v (8 * i) mod 256) as Hb.
  { intros i. change 255 with (Z.ones 8). by rewrite Z.land_ones. }
  rewrite !Hb, le_4, !Z.shiftr_div_pow2 by done.
  change (2 ^ (8 * 0)) with 1. rewrite Z.div_1_r. reflexivity.
Qed.

Lemma frame_len_bytes a b c d rest :
  in_width 8 a → in_width 8 b → in_width 8 c → in_width 8 d →
  frame_len (a :: b :: c :: d :: rest) = a + 256 * (b + 256 * (c + 256 * d)).
Proof.
  unfold in_width. intros. unfold frame_len, byte_at. cbn [nth].
  rewrite (Z.lor_comm a), lor_shiftl_low by (unfold in_width; lia).
  rewrite (Z.lor_comm _ (Z.shiftl c 16)), lor_shiftl_low by (unfold in_width; lia).
  rewrite (Z.lor_comm _ (Z.shiftl d 24)), lor_shiftl_low by (unfold in_width; lia).
  change (2 ^ 8) with 256. change (2 ^ 16) with 65536. change (2 ^ 24) with 16777216. lia.
Qed.

Lemma frame_len_le v rest : in_width 32 v → frame_len (le 4 v ++ rest) = v.
Proof.
  intros Hv. pose proof (le_val_le 4 v Hv) as E. pose proof (wf_le 4 v) as Hw.
  rewrite le_4 in *. unfold wf_bytes in Hw. rewrite !Forall_cons in Hw. destruct_and!.
  cbn [app]. rewrite frame_len_bytes by done. cbn [le_val] in E. lia.
Qed.

(** ** A stream of frames in any chunks *)

Definition frame_of (msg : Z * bytes) : bytes := frame_into [] msg.1 msg.2.

Definition frames (msgs : list (Z * bytes)) : bytes := concat (map frame_of msgs).

(** A message that [parse_frames] hands on as it is. *)
Definition plain (msg : Z * bytes) : Prop :=
  msg.1 ≠ M_HELLO ∧ msg.1 ≠ M_TIP ∧ wf_bytes msg.2 ∧ size msg.2 ≤ MAX_FRAME.

Definition ev_of (id : Z) (msg : Z * bytes) : Ev := EvMsg id msg.1 msg.2.

Lemma frame_of_enc msg : size msg.2 ≤ MAX_FRAME → frame_of msg = le 4 (size msg.2) ++ msg.1 :: msg.2.
Proof.
  intros Hs. unfold frame_of. rewrite frame_into_enc, app_nil_l.
  rewrite wrap_small; [done|]. unfold MAX_FRAME, size, in_width in *. lia.
Qed.

Lemma length_frame_of msg : size msg.2 ≤ MAX_FRAME → length (frame_of msg) = (5 + length msg.2)%nat.
Proof. intros H. rewrite frame_of_enc, length_app, length_le by done. cbn. lia. Qed.

Lemma set_inbuf_same p : set_inbuf p (inbuf p) = p.
Proof. by destruct p. Qed.

Lemma set_inbuf_twice p x y : set_inbuf (set_inbuf p x) y = set_inbuf p y.
Proof. done. Qed.

Lemma on_frame_plain n id p msg : plain msg → on_frame n id p msg.1 msg.2 = (p, [ev_of id msg]).
Proof.
  intros (H1 & H2 & _). unfold on_frame.
  by rewrite (proj2 (Z.eqb_neq _ _) H1), (proj2 (Z.eqb_neq _ _) H2).
Qed.

Section stream.
Context (n : P2P) (id : Z).

(** A complete frame at the start of the buffer. *)
Lemma parse_loop_head fuel p msg rest evs : size msg.2 ≤ MAX_FRAME → inbuf p = frame_of msg ++ rest →
  parse_loop (S fuel) n id p evs =
    let '(q, new) := on_frame n id (set_inbuf p rest) msg.1 msg.2 in
    if dead q then (q, evs ++ new) else parse_loop fuel n id q (evs ++ new).
Proof.
  intros Hs Hb. cbn [parse_loop]. cbv zeta. rewrite Hb. pose proof (length_frame_of msg Hs) as Hl.
  assert (in_width 32 (size msg.2)) as Hw by (unfold MAX_FRAME, size, in_width in *; lia).
  assert (frame_len (frame_of msg ++ rest) = size msg.2) as ->
    by by rewrite frame_of_enc, <- app_assoc, frame_len_le.
  assert (size (frame_of msg ++ rest) = 5 + size msg.2 + size rest) as Hsz
    by (unfold size; rewrite length_app; lia).
  rewrite Hsz, (proj2 (Z.ltb_ge _ _)) by (unfold size; lia).
  rewrite Z.gtb_ltb, (proj2 (Z.ltb_ge _ _)) by done.
  rewrite (proj2 (Z.ltb_ge _ _)) by (unfold size; lia).
  assert (byte_at (frame_of msg ++ rest) 4 = msg.1) as -> by by rewrite frame_of_enc, le_4.
  assert (take (Z.to_nat (size msg.2)) (drop 5 (frame_of msg ++ rest)) = msg.2) as ->.
  { rewrite frame_of_enc, le_4 by done. cbn [app drop]. apply take_app_exact. unfold size. lia. }
  by rewrite drop_app_exact by (unfold size; lia).
Qed.

Lemma parse_loop_frame fuel p msg rest evs : plain msg → dead p = false →
  inbuf p = frame_of msg ++ rest →
  parse_loop (S fuel) n id p evs = parse_loop fuel n id (set_inbuf p rest) (evs ++ [ev_of id msg]).
Proof.
  intros Hm Hd Hb. rewrite (parse_loop_head _ _ msg rest), on_frame_plain by (done || apply Hm).
  cbn [dead set_inbuf]. by rewrite Hd.
Qed.

(** A frame that is not complete. *)
Lemma parse_loop_partial fuel p msg more evs : plain msg → dead p = false →
  inbuf p ++ more = frame_of msg → more ≠ [] →
  parse_loop fuel n id p evs = (p, evs).
Proof.
  intros Hm Hd Hb Hne. destruct fuel as [|fuel]; [done|]. cbn [parse_loop].
  destruct (Z.ltb_spec (size (inbuf p)) 5) as [|H5]; [done|].
  pose proof Hm as (_ & _ & _ & Hs). pose proof (length_frame_of msg Hs) as Hl.
  assert (in_width 32 (size msg.2)) as Hw by (unfold MAX_FRAME, size, in_width in *; lia).
  assert (frame_len (inbuf p) = size msg.2) as ->.
  { rewrite frame_of_enc, le_4 in Hb by done. unfold size in H5.
    destruct (inbuf p) as [|a [|b [|c [|d l]]]]; cbn in H5; try lia.
    injection Hb as -> -> -> -> _.
    pose proof (frame_len_le (size msg.2) l Hw) as E. by rewrite le_4 in E. }
  rewrite Z.gtb_ltb, (proj2 (Z.ltb_ge _ _)) by done.
  rewrite (proj2 (Z.ltb_lt _ _)); [done|].
  apply (f_equal length) in Hb. rewrite length_app in Hb. unfold size in *.
  destruct more; [done|cbn in Hb; lia].
Qed.

(** The next frame of a stream, [[]] at its end. *)
Definition head_frame (msgs : list (Z * bytes)) : bytes :=
  match msgs with [] => [] | m :: _ => frame_of m end.

(** Any part of a stream: the complete frames are handed on in order, the rest
    waits in the buffer. *)
Lemma parse_prefix msgs data more p evs fuel : Forall plain msgs → dead p = false →
  data ++ more = frames msgs → inbuf p = data → (length data < fuel)%nat →
  ∃ ms1 ms2 y, msgs = ms1 ++ ms2 ∧ y ++ more = frames ms2 ∧
    (length y ≤ length (head_frame ms2))%nat ∧ (more = [] → ms2 = []) ∧
    parse_loop fuel n id p evs = (set_inbuf p y, evs ++ map (ev_of id) ms1).
Proof.
  intros Hw. revert data p evs fuel. induction Hw as [|m msgs Hm Hw IH]; intros data p evs fuel Hd E Hb Hf.
  { apply app_eq_nil in E as [-> ->]. exists [], [], []. split_and!; try done.
    rewrite <- Hb, set_inbuf_same, app_nil_r. destruct fuel; [done|]. cbn. by rewrite Hb. }
  change (frames (m :: msgs)) with (frame_of m ++ frames msgs) in E.
  destruct (decide (length (frame_of m) ≤ length data)%nat) as [Hle|Hgt].
  - assert (data = frame_of m ++ drop (length (frame_of m)) data) as Ed.
    { rewrite <- (take_drop (length (frame_of m)) data) at 1. f_equal.
      apply (f_equal (take (length (frame_of m)))) in E.
      by rewrite take_app_le, take_app_length in E by lia. }
    set (data' := drop (length (frame_of m)) data) in *. clearbody data'. rewrite Ed in E, Hb, Hf.
    rewrite <- app_assoc in E. apply app_inv_head in E.
    destruct fuel as [|fuel]; [lia|]. rewrite (parse_loop_frame _ _ m data') by done.
    rewrite length_app, length_frame_of in Hf by apply Hm.
    destruct (IH data' (set_inbuf p data') (evs ++ [ev_of id m]) fuel) as (ms1 & ms2 & y & -> & ? & ? & ? & ->);
      [done..|lia|].
    exists (m :: ms1), ms2, y. split_and!; try done. by rewrite <- app_assoc.
  - exists [], (m :: msgs), data. cbn [map app]. rewrite app_nil_r, <- Hb, set_inbuf_same, Hb.
    assert (take (length (frame_of m)) (data ++ more) = frame_of m) as Et by by rewrite E, take_app_length.
    rewrite take_app_ge in Et by lia.
    assert (take (length (frame_of m) - length data) more ≠ []) as Hne.
    { intros E0. rewrite E0, app_nil_r in Et. rewrite Et in Hgt. lia. }
    split_and!; [done|done|cbn [head_frame]; lia| |].
    + intros ->. by rewrite take_nil in Hne.
    + eapply (parse_loop_partial _ _ m); [done..| |exact Hne]. by rewrite Hb.
Qed.

(** The reads of a link, each drained and parsed. *)
Definition receive (p : Peer) (chunks : list bytes) : Peer * list Ev :=
  foldl (λ s c, on_readable n id s.1 [RecvData c; RecvWouldBlock] s.2) (p, []) chunks.

Lemma on_readable_chunk p y c evs : dead p = false → size (y ++ c) ≤ MAX_INBUF →
  on_readable n id (set_inbuf p y) [RecvData c; RecvWouldBlock] evs =
    parse_loop (S (length (y ++ c))) n id (set_inbuf p (y ++ c)) evs.
Proof.
  intros Hd Hs. unfold on_readable. cbn [drain]. cbv zeta. cbn [inbuf set_inbuf].
  rewrite Z.gtb_ltb, (proj2 (Z.ltb_ge _ _)) by done. cbn [dead set_inbuf]. by rewrite Hd.
Qed.

Lemma receive_stream msgs chunks p : Forall plain msgs → dead p = false → inbuf p = [] →
  Forall (λ c, size c ≤ 7 * 1024 * 1024) chunks → concat chunks = frames msgs →
  receive p chunks = (p, map (ev_of id) msgs).
Proof.
  intros Hw Hd Hb Hc E.
  assert (∀ ms y evs, Forall plain ms → (length y ≤ length (head_frame ms))%nat →
    y ++ concat chunks = frames ms → (concat chunks = [] → ms = [] ∧ y = []) →
    foldl (λ s c, on_readable n id s.1 [RecvData c; RecvWouldBlock] s.2) (set_inbuf p y, evs) chunks
      = (p, evs ++ map (ev_of id) ms)) as H.
  { clear Hw E. induction Hc as [|c chunks Hc _ IH]; intros ms y evs Hw Hy E Hend; cbn [foldl].
    - destruct (Hend eq_refl) as [-> ->]. by rewrite <- Hb, set_inbuf_same, app_nil_r.
    - cbn [fst snd]. rewrite on_readable_chunk; [|done|].
      2:{ unfold size in *. rewrite length_app. unfold MAX_INBUF.
          destruct ms as [|m ms]; cbn [head_frame] in Hy; [cbn in Hy; lia|].
          apply Forall_cons in Hw as [Hm _]. rewrite length_frame_of in Hy by apply Hm.
          destruct Hm as (_ & _ & _ & Hm). unfold size, MAX_FRAME in Hm. lia. }
      cbn [concat] in E. rewrite app_assoc in E.
      destruct (parse_prefix ms (y ++ c) (concat chunks) (set_inbuf p (y ++ c)) evs
                  (S (length (y ++ c))) Hw Hd E eq_refl ltac:(lia))
        as (ms1 & ms2 & z & -> & Ez & Hz & Hn & ->).
      apply Forall_app in Hw as [_ Hw]. rewrite set_inbuf_twice, (IH ms2); [|done..|].
      + by rewrite map_app, app_assoc.
      + intros E0. specialize (Hn E0) as ->. split; [done|]. cbn in Hz. by destruct z; [|cbn in Hz; lia]. }
  unfold receive. rewrite <- (set_inbuf_same p), Hb. rewrite (H msgs []); cbn; try done.
  - by rewrite <- Hb, set_inbuf_same.
  - lia.
  - intros E0. rewrite E0 in E. split; [|done]. destruct msgs as [|m msgs]; [done|].
    apply Forall_cons in Hw as [Hm _]. apply (f_equal length) in E.
    change (frames (m :: msgs)) with (frame_of m ++ frames msgs) in E.
    rewrite length_app, length_frame_of in E by done. cbn in E. lia.
Qed.
End stream.

(** ** The handshake *)

(** The payload that [queue_hello] sends. *)
Definition hello_payload (n : P2P) : bytes :=
  w_u16 (w_u32 (w_u32 [] (net_id n)) CL_VERSION) (listen_port n).

(** [P2P] of its C++ types. *)
Definition wf_net (n : P2P) : Prop := in_width 32 (net_id n) ∧ in_width 16 (listen_port n).

#[export] Instance wf_net_dec n : Decision (wf_net n).
Proof. unfold wf_net. apply _. Defined.

Lemma hello_payload_enc n : hello_payload n = le 4 (net_id n) ++ le 4 CL_VERSION ++ le 2 (listen_port n).
Proof. unfold hello_payload. by rewrite w_u16_app, !w_u32_app, <- app_assoc. Qed.

Lemma hello_fields_run n : wf_net n →
  ∃ r, hello_fields (reader_of (hello_payload n)) = Ok ((net_id n, listen_port n), r).
Proof.
  intros [Hn Hp]. eexists. unfold hello_fields.
  assert (wfr (reader_of (hello_payload n))) as Hr.
  { apply wfr_reader_of. rewrite hello_payload_enc, !wf_bytes_app. auto using wf_le. }
  assert (view (reader_of (hello_payload n)) = le 4 (net_id n) ++ le 4 CL_VERSION ++ le 2 (listen_port n) ++ [])
    as E by (rewrite app_nil_r; apply hello_payload_enc).
  codec_forward; [exact Hn|]. codec_forward; [done|]. codec_forward; [exact Hp|]. done.
Qed.

(** What a link does with a HELLO of node [m]: the test for a duplicate. *)
Definition keeps (n m : P2P) (outbound : bool) : bool :=
  (net_id m =? net_id n) &&
  ((listen_port m =? 0) || Bool.eqb (listen_port n <? listen_port m) outbound).

Definition is_outbound (p : Peer) : bool := negb (bool_decide (target p = "")).

Lemma on_hello_cases n m id p : wf_net m → dead p = false →
  on_hello n id p (hello_payload m) =
    if negb (net_id m =? net_id n) then (set_dead p true, [])
    else if keeps n m (is_outbound p)
    then (set_ready (set_peer_port p (listen_port m)) true, if ready p then [] else [EvReady id])
    else (set_dedup_drop (set_dead (set_peer_port p (listen_port m)) true) true, []).
Proof.
  intros Hm Hd. unfold on_hello, keeps. destruct (hello_fields_run m Hm) as [r ->].
  destruct (net_id m =? net_id n); [|done]. cbn [negb andb target set_peer_port].
  fold (is_outbound p). destruct (listen_port m =? 0); cbn [negb andb orb];
    [|destruct (Bool.eqb _ _)]; cbn [negb ready set_peer_port]; destruct (ready p) eqn:E; try done;
    by destruct p; cbn in *; subst.
Qed.

(** ** Theorems *)

(** C39: framing survives any chunking of the stream. When a peer sends messages (other
    than HELLO and TIP, up to 8 MiB each) and the bytes arrive in pieces of up to
    7 MiB, cut anywhere, the link raises exactly these messages in their order, stays
    alive and is left with an empty buffer. *)
Theorem framing_any_chunks n id p msgs chunks : Forall plain msgs → dead p = false → inbuf p = [] →
  Forall (λ c, size c ≤ 7 * 1024 * 1024) chunks →
  concat chunks = outbuf (foldl (λ q msg, send_frame q msg.1 msg.2) (Peer_new "" "" false) msgs) →
  receive n id p chunks = (p, map (λ msg, EvMsg id msg.1 msg.2) msgs).
Proof.
  intros Hm Hd Hb Hc E. apply receive_stream; try done. rewrite E. unfold frames.
  assert (∀ q, outbuf (foldl (λ q msg, send_frame q msg.1 msg.2) q msgs) =
    outbuf q ++ concat (map frame_of msgs)) as H.
  { clear. induction msgs as [|msg msgs IH]; intros q; cbn [foldl map concat]; [by rewrite app_nil_r|].
    rewrite IH. cbn [send_frame outbuf set_outbuf]. unfold frame_of.
    by rewrite !frame_into_enc, app_nil_l, <- app_assoc. }
  rewrite H. done.
Qed.

(** Of the two links that two nodes open to each other exactly one survives the
    handshake, and both ends agree which. For nodes of one network with different
    listen ports, the link dialled by [n] is kept by both when [n] has the lower port
    and dropped by both otherwise; nodes of different networks always drop it. *)
Lemma hello_dedup_agrees n m pn pm idn idm : wf_net n → wf_net m →
  listen_port n ≠ 0 → listen_port m ≠ 0 → listen_port n ≠ listen_port m →
  target pn ≠ "" → target pm = "" → dead pn = false → dead pm = false →
  let kept_by_dialler := negb (dead (on_hello n idn pn (hello_payload m)).1) in
  let kept_by_acceptor := negb (dead (on_hello m idm pm (hello_payload n)).1) in
  kept_by_dialler = kept_by_acceptor ∧
  kept_by_dialler = (net_id n =? net_id m) && (listen_port n <? listen_port m).
Proof.
  intros Hn Hm Hpn Hpm Hne Htn Htm Hdn Hdm. cbv zeta. rewrite !on_hello_cases by done.
  assert (is_outbound pn = true ∧ is_outbound pm = false) as [Ho Hi].
  { unfold is_outbound. rewrite bool_decide_eq_false_2, bool_decide_eq_true_2 by done. done. }
  unfold keeps. rewrite Ho, Hi, (Z.eqb_sym (net_id n)).
  rewrite (proj2 (Z.eqb_neq _ _) Hpn), (proj2 (Z.eqb_neq _ _) Hpm).
  destruct (Z.eqb_spec (net_id m) (net_id n)); cbn [negb andb orb fst]; [|done].
  destruct (Z.ltb_spec (listen_port n) (listen_port m)), (Z.ltb_spec (listen_port m) (listen_port n));
    try lia; cbn; by rewrite ?Hdn, ?Hdm.
Qed.

(** Nodes that listen on the same port never stay linked: the dialler drops the
    link as a duplicate, although there is no other. *)
Lemma equal_ports_never_link n m p id : wf_net m → listen_port n = listen_port m →
  listen_port m ≠ 0 → target p ≠ "" → dead p = false →
  dead (on_hello n id p (hello_payload m)).1 = true.
Proof.
  intros Hm E Hne Ht Hd. rewrite on_hello_cases by done. case_match; [done|].
  unfold keeps, is_outbound. rewrite E, Z.ltb_irrefl, bool_decide_eq_false_2 by done.
  rewrite (proj2 (Z.eqb_neq _ _) Hne). cbn [negb Bool.eqb orb]. by rewrite andb_false_r.
Qed.
