(* ===== verification/Loop.v ===== *)
(** * Loop: the network thread of [src/net.h]

    One turn of [P2P::loop]: links to the configured targets, [select], what the
    sockets deliver to each link, and the events for the node. [Net] has what happens
    to one link. [turn_part] is what the parts of a turn promise. *)

From stdpp Require Import sorting.
From S2P Require Import Prelude Text Serial Tx Net.

Local Open Scope Z_scope.

(** ** Start and stop *)

Definition P2P_new : P2P := mkP2P 0 0 [] ∅ 1 0.

(** [listening]: [socket], [bind] and [listen] succeed. *)
Definition start (n : P2P) (port : Z) (targets_ : list string) (netid : Z) (listening : bool) : P2P * bool :=
  (mkP2P netid port targets_ (peers n) (next_id n) (last_reconnect n), listening).

Definition stop (n : P2P) : P2P := set_peers n ∅.

(** ** Dialling *)

(** What [socket], [inet_pton] and [connect] make of an address. *)
Inductive Dial : Type := DialFailed | DialPending | DialDone.

(** Host and port of a target; [None] without a colon. *)
Definition dial_addr (t : string) : option (string * Z) :=
  match cut_last ":" t with Some (h, p) => Some (h, u16 (atoi p)) | None => None end.

Definition dial (connect : string → Z → Dial) (n : P2P) (t : string) : P2P :=
  if has_live_link n t then n
  else
    match dial_addr t with
    | None => n
    | Some (host, port) =>
        match connect host port with
        | DialFailed => n
        | DialPending => dial_peer n t true
        | DialDone => dial_peer n t false
        end
    end.

(** [connect k] is the [k]-th target's turn. *)
Fixpoint dial_loop (connect : nat → string → Z → Dial) (k : nat) (ts : list string) (n : P2P) : P2P :=
  match ts with
  | [] => n
  | t :: ts => dial_loop connect (S k) ts (dial (connect k) n t)
  end.

Definition try_connect_targets (connect : nat → string → Z → Dial) (n : P2P) : P2P :=
  dial_loop connect 0 (targets n) n.

Definition set_last_reconnect (n : P2P) (v : Z) : P2P :=
  mkP2P (net_id n) (listen_port n) (targets n) (peers n) (next_id n) v.

(** The first locked part of a turn, at [now_ms() = t]. *)
Definition reconnect (connect : nat → string → Z → Dial) (t : Z) (n : P2P) : P2P :=
  if u64 (t - last_reconnect n) >? 2000
  then try_connect_targets connect (set_last_reconnect n t)
  else n.

(** The sets of [select] that a link's socket is put in. *)
Record Watch := mkWatch { w_read : bool; w_write : bool; w_except : bool }.

Definition watch (p : Peer) : Watch :=
  if connecting p then mkWatch false true true
  else mkWatch true (negb (bool_decide (outbuf p = []))) false.

Definition watched (n : P2P) : gmap Z Watch := watch <$> filter (λ kv, dead kv.2 = false) (peers n).

(** ** What [select] reports *)

(** The sets that hold a link's socket, and what the calls on it return: [SO_ERROR] of
    a connecting link in the write set, the results of [recv] for one in the read set,
    that of [send] for one in the write set. *)
Record LinkIO := mkLinkIO {
  io_except : bool;
  io_connected : option Z;
  io_recv : option (list Recv);
  io_sent : option Sent;
}.

Definition link_step (n : P2P) (id : Z) (p : Peer) (io : LinkIO) (evs : list Ev) : Peer * list Ev :=
  if dead p then (p, evs)
  else if connecting p then
    if io_except io then (set_dead p true, evs)
    else
      match io_connected io with
      | Some err => (on_connected n p (err =? 0), evs)
      | None => (p, evs)
      end
  else
    let '(p, evs) := match io_recv io with
                     | Some rs => on_readable n id p rs evs
                     | None => (p, evs)
                     end in
    (match io_sent io with Some r => on_writable p r | None => p end, evs).

Definition links_loop (io : Z → LinkIO) (s : P2P * list Ev) (id : Z) : P2P * list Ev :=
  match peers s.1 !! id with
  | None => s
  | Some p =>
      let '(p, evs) := link_step s.1 id p (io id) s.2 in
      (set_peers s.1 (<[id := p]> (peers s.1)), evs)
  end.

(** The result of [select]: whether anything is ready, the connections that [accept]
    returns, and the links. *)
Record Selected := mkSelected {
  sel_ready : bool;
  sel_accepted : list (option Z);
  sel_io : Z → LinkIO;
}.

(** The second locked part of a turn. *)
Definition select_step (n : P2P) (sel : Selected) : P2P * list Ev :=
  let '(n, evs) :=
    if sel_ready sel then
      let n := foldl accept_peer n (sel_accepted sel) in
      foldl (links_loop (sel_io sel)) (n, []) (peer_ids n)
    else (n, []) in
  reap n evs.

(** Received data are bytes. *)
Definition wf_recv (r : Recv) : Prop := match r with RecvData b => wf_bytes b | _ => True end.
Definition wf_io (io : LinkIO) : Prop := match io_recv io with Some rs => Forall wf_recv rs | None => True end.

(** [select] reports only sockets of its sets; those of new links are in none. *)
Definition within (w : Watch) (io : LinkIO) : Prop :=
  (io_except io = true → w_except w = true) ∧ (is_Some (io_connected io) → w_write w = true) ∧
  (is_Some (io_recv io) → w_read w = true) ∧ (is_Some (io_sent io) → w_write w = true).

Definition reported (ws : gmap Z Watch) (io : Z → LinkIO) : Prop :=
  ∀ id, within (default (mkWatch false false false) (ws !! id)) (io id).

(** ** The life of a link *)

Inductive Life : Type := Fresh | Greeting | Up | Down.

Definition life (n : P2P) (id : Z) : Life :=
  match peers n !! id with
  | Some p => if ready p then Up else Greeting
  | None => if id <? next_id n then Down else Fresh
  end.

(** How a link goes through its life, and the events it raises on the way. *)
Inductive lives (id : Z) : Life → list Ev → Life → Prop :=
  | lives_stay l : lives id l [] l
  | lives_open evs l : lives id Greeting evs l → lives id Fresh evs l
  | lives_msg l t b evs l' : l = Greeting ∨ l = Up → lives id l evs l' → lives id l (EvMsg id t b :: evs) l'
  | lives_ready evs l : lives id Up evs l → lives id Greeting (EvReady id :: evs) l
  | lives_drop evs l : lives id Down evs l → lives id Greeting evs l
  | lives_gone evs l : lives id Down evs l → lives id Up (EvGone id :: evs) l.

#[export] Hint Constructors lives : chainlite.

Definition ev_peer (e : Ev) : Z :=
  match e with EvReady id | EvMsg id _ _ | EvGone id => id end.

(** The events of one link. *)
Definition events_of (id : Z) (evs : list Ev) : list Ev := List.filter (λ e, ev_peer e =? id) evs.

Lemma lives_app id l1 l2 l3 e1 e2 : lives id l1 e1 l2 → lives id l2 e2 l3 → lives id l1 (e1 ++ e2) l3.
Proof. induction 1; cbn [app]; eauto with chainlite. Qed.

Lemma events_of_app id e1 e2 : events_of id (e1 ++ e2) = events_of id e1 ++ events_of id e2.
Proof. unfold events_of. by rewrite List.filter_app. Qed.

(** What a part of the thread's turn does to the links: every link goes on with its life,
    identifiers are not used again, what is buffered are bytes. *)
Definition evolves (n : P2P) (evs : list Ev) (n' : P2P) : Prop :=
  ∀ id, lives id (life n id) (events_of id evs) (life n' id).

Lemma evolves_refl n : evolves n [] n.
Proof. intros id. constructor. Qed.

Lemma evolves_trans n1 n2 n3 e1 e2 : evolves n1 e1 n2 → evolves n2 e2 n3 → evolves n1 (e1 ++ e2) n3.
Proof. intros H1 H2 id. rewrite events_of_app. by eapply lives_app. Qed.

(** ** One link *)

Definition stage (p : Peer) : Life := if ready p then Up else Greeting.

Definition ev_wf (e : Ev) : Prop := match e with EvMsg _ _ b => wf_bytes b | _ => True end.

(** What the thread does to one link. *)
Record link_part (id : Z) (p : Peer) (new : list Ev) (p' : Peer) : Prop := {
  lp_wf : wf_bytes (inbuf p) → wf_bytes (inbuf p');
  lp_target : target p' = target p;
  lp_dead : dead p = true → dead p' = true;
  lp_lives : lives id (stage p) new (stage p');
  lp_events : wf_bytes (inbuf p) → Forall (λ e, ev_peer e = id ∧ ev_wf e) new;
}.

Lemma link_part_quiet id p p' : wf_bytes (inbuf p) → wf_bytes (inbuf p') → target p' = target p →
  (dead p = true → dead p' = true) → ready p' = ready p → link_part id p [] p'.
Proof. intros ? ? ? ? E. split; try done. unfold stage. rewrite E. constructor. Qed.

Lemma link_part_trans id p1 p2 p3 e1 e2 :
  link_part id p1 e1 p2 → link_part id p2 e2 p3 → link_part id p1 (e1 ++ e2) p3.
Proof.
  intros [] []. split; [tauto|congruence|tauto|by eapply lives_app|].
  intros. apply Forall_app. split; tauto.
Qed.

Section link.
Context (n : P2P) (id : Z).

(** The same for an operation that appends to the thread's list of events. *)
Definition link_does (p : Peer) (evs : list Ev) (r : Peer * list Ev) : Prop :=
  ∃ new, r.2 = evs ++ new ∧ link_part id p new r.1.

Lemma link_does_quiet p evs p' : link_part id p [] p' → link_does p evs (p', evs).
Proof. intros H. exists []. by rewrite app_nil_r. Qed.

Lemma link_does_trans p evs p1 evs1 r : link_does p evs (p1, evs1) → link_does p1 evs1 r → link_does p evs r.
Proof.
  intros (e1 & E1 & H1) (e2 & E2 & H2). cbn [fst snd] in *. subst evs1. exists (e1 ++ e2).
  rewrite app_assoc. split; [done|]. by eapply link_part_trans.
Qed.

Lemma link_same p : link_part id p [] p.
Proof. split; try done. constructor. Qed.

Lemma link_set_dead p : link_part id p [] (set_dead p true).
Proof. split; try done. constructor. Qed.

Lemma link_on_hello p payload : link_part id p (on_hello n id p payload).2 (on_hello n id p payload).1.
Proof.
  unfold on_hello. destruct (hello_fields _) as [[[nid port] r]|]; [|apply link_set_dead].
  case_match; [apply link_set_dead|]. cbv zeta.
  case_match; [split; try done; constructor|].
  destruct (ready p) eqn:Er; cbn [negb ready set_peer_port]; rewrite Er; cbn [negb fst snd];
    [split; try done; constructor|].
  split; try done; [|by constructor]. unfold stage. cbn. rewrite Er. repeat constructor.
Qed.

Lemma link_on_tip p payload : link_part id p [] (on_tip p payload).1.
Proof.
  unfold on_tip. repeat (case_match; cbv zeta); split; try done; constructor.
Qed.

Lemma link_msg p type payload : wf_bytes payload → link_part id p [EvMsg id type payload] p.
Proof.
  intros Hw. split; try done; [|by repeat constructor]. unfold stage.
  destruct (ready p); auto with chainlite.
Qed.

Lemma link_on_frame p type payload : wf_bytes payload →
  link_part id p (on_frame n id p type payload).2 (on_frame n id p type payload).1.
Proof.
  intros Hw. unfold on_frame. case_match; [apply link_on_hello|]. case_match; [|by apply link_msg].
  pose proof (link_on_tip p payload) as Ht. destruct (on_tip p payload) as [p' ok]. cbn [fst] in Ht.
  destruct ok; cbn [fst snd].
  - apply (link_part_trans _ _ p' _ [] [_]); [done|by apply link_msg].
  - apply (link_part_trans _ _ p' _ [] []); [done|apply link_set_dead].
Qed.

Lemma parse_loop_does fuel p evs : wf_bytes (inbuf p) → link_does p evs (parse_loop fuel n id p evs).
Proof.
  revert p evs. induction fuel as [|fuel IH]; intros p evs Hw; cbn [parse_loop];
    [apply link_does_quiet, link_same|]. cbv zeta.
  case_match; [apply link_does_quiet, link_same|].
  case_match; [apply link_does_quiet, link_set_dead|].
  case_match; [apply link_does_quiet, link_same|].
  set (len := frame_len _). set (payload := take _ _). set (p0 := set_inbuf _ _).
  assert (link_part id p [] p0) as Hcut.
  { split; try done; [intros; by apply wf_bytes_drop|constructor]. }
  assert (wf_bytes payload) as Hp by by apply wf_bytes_take, wf_bytes_drop.
  pose proof (link_on_frame p0 (byte_at (inbuf p) 4) payload Hp) as Hf.
  destruct (on_frame _ _ _ _ _) as [p1 new]. cbn [fst snd] in Hf.
  assert (link_does p evs (p1, evs ++ new)) as Hdo.
  { exists new. split; [done|]. by apply (link_part_trans _ _ p0 _ [] new). }
  case_match; [done|]. eapply link_does_trans; [exact Hdo|]. apply IH.
  eapply lp_wf; [exact Hf|]. by apply (lp_wf _ _ _ _ Hcut).
Qed.

Lemma drain_part p rs : Forall wf_recv rs → link_part id p [] (drain p rs).
Proof.
  intros Hr. revert p. induction Hr as [|r rs Hr _ IH]; intros p; cbn [drain]; [apply link_same|].
  destruct r as [b| | |]; try apply link_set_dead; [|apply link_same]. cbv zeta.
  assert (link_part id p [] (set_inbuf p (inbuf p ++ b))) as H0.
  { split; try done; [intros; by apply wf_bytes_app|constructor]. }
  apply (link_part_trans _ _ _ _ [] [] H0). case_match; [apply link_set_dead|apply IH].
Qed.

Lemma on_readable_does p rs evs : wf_bytes (inbuf p) → Forall wf_recv rs →
  link_does p evs (on_readable n id p rs evs).
Proof.
  intros Hw Hr. pose proof (drain_part p rs Hr) as Hd. unfold on_readable. cbv zeta.
  eapply link_does_trans; [by apply link_does_quiet|].
  case_match; [|apply link_does_quiet, link_same]. apply parse_loop_does. by apply (lp_wf _ _ _ _ Hd).
Qed.

Lemma on_writable_part p r : link_part id p [] (on_writable p r).
Proof. unfold on_writable. repeat case_match; split; try done; constructor. Qed.

Lemma on_connected_part p ok : link_part id p [] (on_connected n p ok).
Proof. unfold on_connected. repeat case_match; split; try done; constructor. Qed.

Lemma link_step_does p io evs : wf_bytes (inbuf p) → wf_io io → link_does p evs (link_step n id p io evs).
Proof.
  intros Hw Hi. unfold link_step. case_match; [apply link_does_quiet, link_same|].
  case_match.
  { repeat case_match; apply link_does_quiet; [apply link_set_dead|apply on_connected_part|apply link_same]. }
  destruct (match io_recv io with Some rs => _ | None => _ end) as [p1 evs1] eqn:E.
  apply (link_does_trans _ _ p1 evs1).
  - rewrite <- E. unfold wf_io in Hi. case_match; [by apply on_readable_does|apply link_does_quiet, link_same].
  - destruct (io_sent io); apply link_does_quiet; [apply on_writable_part|apply link_same].
Qed.
End link.

(** ** All links *)

(** Identifiers are given out once, buffers hold bytes, and no target has two live
    links. *)
Record links_ok (n : P2P) : Prop := {
  lo_next : 1 ≤ next_id n;
  lo_ids : ∀ id p, peers n !! id = Some p → 1 ≤ id < next_id n;
  lo_bytes : ∀ id p, peers n !! id = Some p → wf_bytes (inbuf p);
  lo_one : ∀ i j p q, peers n !! i = Some p → peers n !! j = Some q → dead p = false → dead q = false →
    target p = target q → target p ≠ "" → i = j;
}.

Definition ev_ok (e : Ev) : Prop := 1 ≤ ev_peer e ∧ ev_wf e.

(** What a part of a turn does to the links: all is still in order, every link goes on
    with its life, and the events are in order. *)
Definition turn_part (n : P2P) (evs : list Ev) (n' : P2P) : Prop :=
  links_ok n' ∧ evolves n evs n' ∧ Forall ev_ok evs.

Lemma turn_refl n : links_ok n → turn_part n [] n.
Proof. intros. split_and!; [done|apply evolves_refl|constructor]. Qed.

Lemma turn_trans n1 n2 n3 e1 e2 : turn_part n1 e1 n2 → turn_part n2 e2 n3 → turn_part n1 (e1 ++ e2) n3.
Proof.
  intros (_ & ? & ?) (? & ? & ?). split_and!; [done|by eapply evolves_trans|by apply Forall_app].
Qed.

Lemma life_lookup n id p : peers n !! id = Some p → life n id = stage p.
Proof. intros E. unfold life. by rewrite E. Qed.

Lemma events_of_own id evs : Forall (λ e, ev_peer e = id) evs → events_of id evs = evs.
Proof.
  induction 1 as [|e evs He _ IH]; [done|]. unfold events_of in *. cbn [List.filter].
  by rewrite He, Z.eqb_refl, IH.
Qed.

Lemma events_of_other id j evs : Forall (λ e, ev_peer e = id) evs → j ≠ id → events_of j evs = [].
Proof.
  intros H Hne. induction H as [|e evs He _ IH]; [done|]. unfold events_of in *. cbn [List.filter].
  by rewrite He, (proj2 (Z.eqb_neq _ _)) by done.
Qed.

(** One link changes. *)
Lemma turn_link n id p new p' : links_ok n → peers n !! id = Some p → link_part id p new p' →
  turn_part n new (set_peers n (<[id := p']> (peers n))).
Proof.
  intros Hn E H. pose proof (lo_bytes n Hn id p E) as Hb. pose proof (lp_events _ _ _ _ H Hb) as Hev.
  assert (Forall (λ e, ev_peer e = id) new) as Hown by (eapply Forall_impl; [exact Hev|by intros ? []]).
  split_and!.
  - split; cbn [next_id peers set_peers]; [apply Hn|..].
    + intros j q [[<- <-]|[_ Hq]]%lookup_insert_Some; by eapply lo_ids.
    + intros j q [[<- <-]|[_ Hq]]%lookup_insert_Some; [by apply (lp_wf _ _ _ _ H)|by eapply lo_bytes].
    + assert (∀ j q, <[id := p']> (peers n) !! j = Some q → dead q = false →
        ∃ q0, peers n !! j = Some q0 ∧ dead q0 = false ∧ target q0 = target q) as Hold.
      { intros j q [[<- <-]|[_ Hq]]%lookup_insert_Some Hd; [|by exists q]. exists p.
        split_and!; [done| |symmetry; apply H]. destruct (dead p) eqn:Ed; [|done].
        by rewrite (lp_dead _ _ _ _ H Ed) in Hd. }
      intros i j q1 q2 H1 H2 Hd1 Hd2 Ht Hne.
      destruct (Hold i q1 H1 Hd1) as (r1 & L1 & D1 & T1), (Hold j q2 H2 Hd2) as (r2 & L2 & D2 & T2).
      eapply (lo_one n Hn); [exact L1|exact L2|done|done|congruence|congruence].
  - intros j. destruct (decide (j = id)) as [->|Hj].
    + rewrite events_of_own by done. rewrite (life_lookup n id p E).
      rewrite (life_lookup _ id p') by (cbn; apply lookup_insert_eq). apply H.
    + rewrite (events_of_other id) by done. unfold life. cbn [peers set_peers next_id].
      rewrite lookup_insert_ne by done. constructor.
  - eapply Forall_impl; [exact Hev|]. intros e [He ?]. split; [|done]. rewrite He.
    by eapply lo_ids.
Qed.

Lemma peer_ids_nil n : peers n = ∅ → peer_ids n = [].
Proof. intros E. unfold peer_ids. by rewrite E, map_to_list_empty. Qed.

(** A new link: outgoing only to a target without a live one. *)
Lemma turn_add n p : links_ok n → inbuf p = [] → ready p = false →
  (∀ j q, peers n !! j = Some q → dead q = false → target q = target p → target p = "") →
  turn_part n [] (add_peer n p).
Proof.
  intros Hn Hb Hr Hone. pose proof (lo_next n Hn) as H1.
  assert (∀ j q, peers n !! j = Some q → j ≠ next_id n) as Hne.
  { intros j q Hq. pose proof (lo_ids n Hn j q Hq). lia. }
  split_and!; [|..|constructor].
  - split; cbn [next_id peers add_peer]; [lia|..].
    + intros j q [[<- <-]|[_ Hq]]%lookup_insert_Some; [lia|]. pose proof (lo_ids n Hn j q Hq). lia.
    + intros j q [[<- <-]|[_ Hq]]%lookup_insert_Some; [rewrite Hb; constructor|by eapply lo_bytes].
    + intros i j q1 q2 [[<- <-]|[_ L1]]%lookup_insert_Some [[<- <-]|[_ L2]]%lookup_insert_Some D1 D2 T Hx; [done|..].
      * by specialize (Hone j q2 L2 D2 (eq_sym T)).
      * rewrite T in Hx. by specialize (Hone i q1 L1 D1 T).
      * by eapply (lo_one n Hn).
  - intros j. unfold life. cbn [peers add_peer next_id].
    destruct (decide (j = next_id n)) as [->|Hj].
    + rewrite lookup_insert_eq, Hr. destruct (peers n !! next_id n) as [q|] eqn:E; [by apply Hne in E|].
      rewrite Z.ltb_irrefl. apply lives_open. constructor.
    + rewrite lookup_insert_ne by done. destruct (peers n !! j) as [q|] eqn:E; [constructor|].
      destruct (Z.ltb_spec j (next_id n)), (Z.ltb_spec j (next_id n + 1)); lia || constructor.
Qed.

Lemma turn_accept n ports : links_ok n → turn_part n [] (foldl accept_peer n ports).
Proof.
  revert n. induction ports as [|port ports IH]; intros n Hn; cbn [foldl]; [by apply turn_refl|].
  assert (turn_part n [] (accept_peer n port)) as H by by apply turn_add.
  apply (turn_trans _ (accept_peer n port) _ [] []); [done|]. by apply IH, H.
Qed.

Lemma has_live_link_spec n t : has_live_link n t = true ↔
  ∃ id p, peers n !! id = Some p ∧ target p = t ∧ dead p = false.
Proof.
  unfold has_live_link. rewrite existsb_exists. split.
  - intros ([id p] & Hin & [Ht Hd]%andb_true_iff). cbn [snd] in *. apply list_elem_of_In, elem_of_map_to_list in Hin.
    apply bool_decide_eq_true in Ht. exists id, p. split_and!; [done..|]. by destruct (dead p).
  - intros (id & p & Hp & Ht & Hd). exists (id, p). cbn [snd]. rewrite Hd, bool_decide_eq_true_2 by done.
    split; [|done]. by apply list_elem_of_In, elem_of_map_to_list.
Qed.

Lemma turn_dial connect n t : links_ok n → turn_part n [] (dial connect n t).
Proof.
  intros Hn. unfold dial. destruct (has_live_link n t) eqn:El; [by apply turn_refl|].
  destruct (dial_addr t) as [[host port]|]; [|by apply turn_refl].
  assert (∀ b, turn_part n [] (dial_peer n t b)) as Hd.
  { intros b. apply turn_add; [done|by destruct b..|]. intros j q Hq Dq Tq.
    assert (target q = t) as Et by by destruct b. apply not_true_iff_false in El. destruct El.
    apply has_live_link_spec. by exists j, q. }
  destruct (connect host port); [by apply turn_refl|apply Hd..].
Qed.

Lemma turn_dial_loop connect k ts n : links_ok n → turn_part n [] (dial_loop connect k ts n).
Proof.
  revert k n. induction ts as [|t ts IH]; intros k n Hn; cbn [dial_loop]; [by apply turn_refl|].
  pose proof (turn_dial (connect k) n t Hn) as H.
  apply (turn_trans _ (dial (connect k) n t) _ [] []); [done|]. by apply IH, H.
Qed.

Lemma turn_reconnect connect ms n : links_ok n → turn_part n [] (reconnect connect ms n).
Proof.
  intros Hn. unfold reconnect. case_match; [|by apply turn_refl].
  assert (turn_part n [] (set_last_reconnect n ms)) as H0.
  { split_and!; [by destruct Hn|intros id; constructor|constructor]. }
  apply (turn_trans _ _ _ [] [] H0). apply turn_dial_loop, H0.
Qed.

(** Loops that append to the list of events. *)
Definition turn_does (s : P2P * list Ev) (r : P2P * list Ev) : Prop :=
  ∃ new, r.2 = s.2 ++ new ∧ turn_part s.1 new r.1.

Lemma turn_does_refl s : links_ok s.1 → turn_does s s.
Proof. intros. exists []. rewrite app_nil_r. split; [done|]. by apply turn_refl. Qed.

Lemma turn_does_trans s1 s2 s3 : turn_does s1 s2 → turn_does s2 s3 → turn_does s1 s3.
Proof.
  intros (e1 & E1 & H1) (e2 & E2 & H2). exists (e1 ++ e2). split; [by rewrite E2, E1, app_assoc|].
  by eapply turn_trans.
Qed.

Lemma turn_foldl {A} (f : P2P * list Ev → A → P2P * list Ev) l s :
  (∀ s x, links_ok s.1 → turn_does s (f s x)) → links_ok s.1 → turn_does s (foldl f s l).
Proof.
  intros Hf. revert s. induction l as [|x l IH]; intros s Hs; cbn [foldl]; [by apply turn_does_refl|].
  pose proof (Hf s x Hs) as H. eapply turn_does_trans; [exact H|]. apply IH.
  by destruct H as (? & _ & ? & _).
Qed.

Lemma links_loop_does io s id : (∀ id, wf_io (io id)) → links_ok s.1 → turn_does s (links_loop io s id).
Proof.
  intros Hio Hs. unfold links_loop. destruct (peers s.1 !! id) as [p|] eqn:E; [|by apply turn_does_refl].
  destruct (link_step_does s.1 id p (io id) s.2 (lo_bytes _ Hs id p E) (Hio id)) as (new & E2 & Hl).
  destruct (link_step _ _ _ _ _) as [p' evs']. cbn [fst snd] in *. subst evs'.
  exists new. split; [done|]. by eapply turn_link.
Qed.

Lemma reap_link_does s id : links_ok s.1 → turn_does s (reap_link s id).
Proof.
  intros Hs. unfold reap_link. destruct (peers s.1 !! id) as [p|] eqn:E; [|by apply turn_does_refl].
  destruct (dead p) eqn:Ed; [|by apply turn_does_refl].
  pose proof (lo_ids _ Hs id p E) as Hid.
  exists (if ready p then [EvGone id] else []). cbn [fst snd].
  split; [destruct (ready p); [done|by rewrite app_nil_r]|]. split_and!.
  - split; cbn [next_id peers set_peers]; [apply Hs|..].
    + intros j q [_ Hq]%lookup_delete_Some. by eapply lo_ids.
    + intros j q [_ Hq]%lookup_delete_Some. by eapply lo_bytes.
    + intros i j q1 q2 [_ H1]%lookup_delete_Some [_ H2]%lookup_delete_Some. by eapply (lo_one _ Hs).
  - intros j. destruct (decide (j = id)) as [->|Hj].
    + rewrite (life_lookup _ id p E). unfold life, stage. cbn [peers set_peers next_id].
      rewrite lookup_delete_eq, (proj2 (Z.ltb_lt _ _)) by lia.
      destruct (ready p); unfold events_of; cbn [List.filter ev_peer]; rewrite ?Z.eqb_refl;
        repeat constructor.
    + rewrite (events_of_other id) by (destruct (ready p); repeat constructor || done).
      unfold life. cbn [peers set_peers next_id]. rewrite lookup_delete_ne by done. constructor.
  - destruct (ready p); constructor; [|constructor]. split; [|done]. cbn. lia.
Qed.

(** The second part of a turn. *)
Lemma turn_select n sel n' evs : (∀ id, wf_io (sel_io sel id)) → links_ok n →
  select_step n sel = (n', evs) → turn_part n evs n'.
Proof.
  intros Hio Hn H. unfold select_step in H.
  destruct (if sel_ready sel then _ else _) as [n1 evs1] eqn:E1.
  assert (turn_does (n, []) (n1, evs1)) as H1.
  { destruct (sel_ready sel); [|injection E1 as <- <-; by apply turn_does_refl].
    cbv zeta in E1. pose proof (turn_accept n (sel_accepted sel) Hn) as Ha.
    set (n0 := foldl accept_peer n (sel_accepted sel)) in *.
    assert (turn_does (n, []) (n0, [])) as H0 by by exists [].
    eapply turn_does_trans; [exact H0|]. rewrite <- E1.
    apply turn_foldl; [|apply Ha]. intros. by apply links_loop_does. }
  assert (turn_does (n1, evs1) (n', evs)) as H2.
  { rewrite <- H. unfold reap. apply turn_foldl; [intros; by apply reap_link_does|].
    by destruct H1 as (? & _ & ? & _). }
  destruct (turn_does_trans _ _ _ H1 H2) as (new & E & Hp). change (evs = new) in E. by rewrite E.
Qed.

(** Between the parts of a turn no link is dead. *)
Definition all_alive (n : P2P) : Prop := ∀ id p, peers n !! id = Some p → dead p = false.

Lemma alive_add n p : all_alive n → dead p = false → all_alive (add_peer n p).
Proof.
  intros Hn Hp id q Hq. cbn [peers add_peer] in Hq.
  apply lookup_insert_Some in Hq as [[<- <-]|[_ Hq]]; [done|by eapply Hn].
Qed.

Lemma alive_dial connect n t : all_alive n → all_alive (dial connect n t).
Proof.
  intros Hn. unfold dial. case_match; [done|]. destruct (dial_addr t) as [[host port]|]; [|done].
  destruct (connect host port); [done|by apply alive_add..].
Qed.

Lemma alive_reconnect connect ms n : all_alive n → all_alive (reconnect connect ms n).
Proof.
  intros Hn. unfold reconnect, try_connect_targets. case_match; [|done].
  set (n0 := set_last_reconnect n ms). change (all_alive n0) in Hn. generalize 0%nat.
  generalize (targets n0). clearbody n0. intros ts. revert n0 Hn.
  induction ts as [|t ts IH]; intros n0 Hn k; cbn [dial_loop]; [done|]. by apply IH, alive_dial.
Qed.

Lemma reap_alive_loop l s : (∀ id p, peers s.1 !! id = Some p → dead p = true → id ∈ l) →
  all_alive (foldl reap_link s l).1.
Proof.
  revert s. induction l as [|x l IH]; intros s Hs; cbn [foldl].
  { intros id p Hp. destruct (dead p) eqn:Ed; [|done]. by apply Hs, elem_of_nil in Hp. }
  apply IH. intros id p Hp Hd. unfold reap_link in Hp.
  assert (id ≠ x → peers s.1 !! id = Some p → id ∈ l) as Hl.
  { intros Hne Hq. apply Hs in Hq as [->|?]%elem_of_cons; done. }
  destruct (peers s.1 !! x) as [q|] eqn:Eq; [destruct (dead q) eqn:Eqd|]; cbn [fst peers set_peers] in Hp.
  - apply lookup_delete_Some in Hp as [Hne Hp]. by apply Hl.
  - apply Hl; [|done]. intros ->. congruence.
  - apply Hl; [|done]. intros ->. congruence.
Qed.

Lemma elem_of_peer_ids n id p : peers n !! id = Some p → id ∈ peer_ids n.
Proof.
  intros Hp. unfold peer_ids. rewrite (merge_sort_Permutation id_le).
  apply list_elem_of_fmap. exists (id, p). split; [done|]. by apply elem_of_map_to_list.
Qed.

Lemma alive_select n sel : all_alive (select_step n sel).1.
Proof.
  unfold select_step. destruct (if sel_ready sel then _ else _) as [n1 evs1]. unfold reap.
  apply reap_alive_loop. intros id p Hp _. by eapply elem_of_peer_ids.
Qed.

(** ** Links to the targets *)

Lemma dial_keeps connect n t id q : links_ok n → peers n !! id = Some q →
  peers (dial connect n t) !! id = Some q.
Proof.
  intros Hn Hq. unfold dial. case_match; [done|]. destruct (dial_addr t) as [[host port]|]; [|done].
  pose proof (lo_ids n Hn id q Hq) as Hid.
  destruct (connect host port); [done|..]; cbn [dial_peer add_peer peers]; by rewrite lookup_insert_ne by lia.
Qed.

Lemma dial_links connect n t : dial_addr t ≠ None → (∀ host port, connect host port ≠ DialFailed) →
  has_live_link (dial connect n t) t = true.
Proof.
  intros Ha Hc. unfold dial. destruct (has_live_link n t) eqn:E; [done|].
  destruct (dial_addr t) as [[host port]|]; [|done]. specialize (Hc host port).
  destruct (connect host port); [done|..]; apply has_live_link_spec; eexists (next_id n), _;
    cbn [dial_peer add_peer peers]; (split; [apply lookup_insert_eq|done]).
Qed.

Lemma dial_loop_links connect k ts n : links_ok n → (∀ k host port, connect k host port ≠ DialFailed) →
  (∀ id q, peers n !! id = Some q → peers (dial_loop connect k ts n) !! id = Some q) ∧
  ∀ t, t ∈ ts → dial_addr t ≠ None → has_live_link (dial_loop connect k ts n) t = true.
Proof.
  intros Hn Hc. revert k n Hn. induction ts as [|t ts IH]; intros k n Hn; cbn [dial_loop].
  { split; [done|]. by intros t ?%elem_of_nil. }
  destruct (turn_dial (connect k) n t Hn) as (Hn1 & _). destruct (IH (S k) _ Hn1) as [Hk Hl].
  split; [intros; by apply Hk, dial_keeps|]. intros t' [->|?]%elem_of_cons Ha; [|by apply Hl].
  pose proof (dial_links (connect k) n t Ha (Hc k)) as Hlive.
  apply has_live_link_spec in Hlive as (id & q & Hq & Ht & Hd). apply has_live_link_spec.
  exists id, q. split; [by apply Hk|done].
Qed.

(** Links to the configured targets. More than two seconds after the last attempt the
    thread dials: if [connect] takes every address, each target with a colon has exactly
    one live link afterwards, and the links that there were stay as they are. *)
Lemma reconnect_targets n connect t : links_ok n → u64 (t - last_reconnect n) > 2000 →
  (∀ k host port, connect k host port ≠ DialFailed) →
  let n' := reconnect connect t n in
  (∀ id q, peers n !! id = Some q → peers n' !! id = Some q) ∧
  ∀ x, x ∈ targets n → x ≠ "" → dial_addr x ≠ None →
    ∃ id q, (peers n' !! id = Some q ∧ target q = x ∧ dead q = false) ∧
      ∀ id' q', peers n' !! id' = Some q' → target q' = x → dead q' = false → id' = id.
Proof.
  intros Hn Ht Hc. pose proof (turn_reconnect connect t n Hn) as (Hn' & _). revert Hn'.
  unfold reconnect. rewrite Z.gtb_ltb, (proj2 (Z.ltb_lt _ _)) by lia. intros Hn'.
  assert (links_ok (set_last_reconnect n t)) as H0 by by destruct Hn.
  destruct (dial_loop_links connect 0 (targets n) (set_last_reconnect n t) H0 Hc) as [Hk Hl].
  cbv zeta. split; [done|]. intros x Hx Hne Ha. specialize (Hl x Hx Ha).
  apply has_live_link_spec in Hl as (id & q & Hq & Ex & Hd). exists id, q. split; [done|].
  intros id' q' Hq' Ex' Hd'. eapply (lo_one _ Hn'); [exact Hq'|exact Hq|done|done|congruence|congruence].
Qed.
