(* ===== verification/Http.v ===== *)
(** * Http: the server of [src/rpc.h] and the client of [src/http_client.h]

    A connection is the list of what the calls of [recv] return: the empty string
    stands for [n <= 0]. What the calls of [send] accept is a list of counts. The
    function that answers a request is an argument; it may change a state. *)

From S2P Require Import Prelude Hex Text Net.

Local Open Scope Z_scope.

Record HttpReq := mkReq {
  method : string;
  path : string;
  query : gmap string string;
  req_body : string;
}.

Record HttpResp := mkResp {
  resp_code : Z;
  ctype : string;
  resp_body : string;
}.

(** ** Sending *)

(** The loop around [send]: what the other side gets, and whether it is all. *)
Fixpoint send_loop (out : string) (ns : list Z) : string * bool :=
  match out, ns with
  | EmptyString, _ => ("", true)
  | _, [] => ("", false)
  | _, n :: ns =>
      if n <=? 0 then ("", false)
      else
        let k := Z.to_nat n in
        let '(s, ok) := send_loop (substr_from k out) ns in
        (String.substring 0 k out +:+ s, ok)
  end.

(** ** The server *)

Definition crlf : string := String (ascii_of_nat 13) (String (ascii_of_nat 10) "").
Definition head_end : string := crlf +:+ crlf.

Definition len (s : string) : Z := Z.of_nat (String.length s).

(** [%XY] of two hexadecimal digits is a byte, [+] a space. *)
Fixpoint url_decode (s : string) : string :=
  match s with
  | EmptyString => ""
  | String c s' =>
      let plain := String (if code c =? code "+" then " "%char else c) (url_decode s') in
      match s' with
      | String c1 (String c2 s'') =>
          let h := hexval c1 in
          let l := hexval c2 in
          if (code c =? code "%") && (0 <=? h) && (0 <=? l)
          then String (ascii_of_N (Z.to_N (u8 (Z.lor (Z.shiftl h 4) l)))) (url_decode s'')
          else plain
      | _ => plain
      end
  end.

Definition RECV_HEAD_MAX : Z := 1024 * 1024.
Definition BODY_MAX : Z := 4 * 1024 * 1024.

(** Reads up to the end of the head: the head, what follows it, and the rest of the
    connection. *)
Fixpoint read_head (req : string) (chunks : list string) : option (string * string * list string) :=
  if len req <? RECV_HEAD_MAX then
    match chunks with
    | [] | EmptyString :: _ => None
    | c :: chunks =>
        let req := req +:+ c in
        match cut head_end req with
        | Some (head, rest) => Some (head, rest, chunks)
        | None => read_head req chunks
        end
    end
  else None.

Fixpoint read_body (body : string) (clen : Z) (chunks : list string) : string :=
  if len body <? clen then
    match chunks with
    | [] | EmptyString :: _ => body
    | c :: chunks => read_body (body +:+ c) clen chunks
    end
  else body.

(** The method and the target of the request line. *)
Definition request_line (head : string) : option (string * string) :=
  let line := match cut crlf head with Some (l, _) => l | None => head end in
  '(m, r) ← cut " " line;
  '(full, _) ← cut_last " " r;
  Some (m, full).

Definition target_path (full : string) : string :=
  match cut "?" full with Some (p, _) => p | None => full end.

Definition add_param (q : gmap string string) (kv : string) : gmap string string :=
  match cut "=" kv with
  | Some (k, v) => <[url_decode k := url_decode v]> q
  | None => q
  end.

Definition parse_query (qs : string) : gmap string string := foldl add_param ∅ (pieces "&" qs).

Definition target_query (full : string) : gmap string string :=
  match cut "?" full with Some (_, qs) => parse_query qs | None => ∅ end.

Definition tolower (c : ascii) : ascii :=
  if (code "A" <=? code c) && (code c <=? code "Z") then ascii_of_N (Z.to_N (code c + 32)) else c.

Fixpoint lower (s : string) : string :=
  match s with String c s => String (tolower c) (lower s) | EmptyString => "" end.

Definition content_length (head : string) : Z :=
  match cut "content-length:" (lower head) with
  | Some (_, r) => u64 (atoll r)
  | None => 0
  end.

(** [None]: the connection is closed without an answer. *)
Definition http_request (chunks : list string) : option HttpReq :=
  '(head, rest, chunks) ← read_head "" chunks;
  '(m, full) ← request_line head;
  let clen := content_length head in
  if clen >? BODY_MAX then None
  else Some (mkReq m (target_path full) (target_query full) (read_body rest clen chunks)).

Definition status_text (c : Z) : string :=
  if c =? 200 then "200 OK"
  else if c =? 400 then "400 Bad Request"
  else if c =? 404 then "404 Not Found"
  else "500 Internal Server Error".

Definition response_head (r : HttpResp) : string :=
  "HTTP/1.1 " +:+ status_text (resp_code r) +:+ crlf +:+
  "Content-Type: " +:+ ctype r +:+ crlf +:+
  "Content-Length: " +:+ pretty (len (resp_body r)) +:+ crlf +:+
  "Access-Control-Allow-Origin: *" +:+ crlf +:+
  "Connection: close" +:+ crlf +:+ crlf.

Definition response_text (r : HttpResp) : string := strf (response_head r) +:+ resp_body r.

Definition no_handler : HttpResp := mkResp 404 "text/plain" "no handler".

Section server.
Context {S : Type}.

(** [RpcServer::handle] on one connection: the new state and the bytes sent. *)
Definition handle (handler : option (S → HttpReq → S * HttpResp)) (s : S) (chunks : list string)
    (ns : list Z) : S * string :=
  match http_request chunks with
  | None => (s, "")
  | Some r =>
      let '(s, resp) := match handler with Some h => h s r | None => (s, no_handler) end in
      (s, (send_loop (response_text resp) ns).1)
  end.

(** What [accept] gives: nothing, or a connection with what [recv] and [send] return on it. *)
Inductive Accepted : Type := NoConnection | Connection (chunks : list string) (ns : list Z).

(** [RpcServer::loop] until the flag comes down: the state, and what each connection was
    sent. *)
Fixpoint serve (handler : option (S → HttpReq → S * HttpResp)) (s : S) (conns : list Accepted) : S * list string :=
  match conns with
  | [] => (s, [])
  | NoConnection :: conns => serve handler s conns
  | Connection chunks ns :: conns =>
      let '(s, out) := handle handler s chunks ns in
      let '(s, outs) := serve handler s conns in
      (s, out :: outs)
  end.
End server.

(** *** Start and stop *)

(** [listener] is not [INVALID_SOCKET], and the flag of the thread. *)
Record RpcServer := mkServer { listener : bool; running : bool }.

Definition RpcServer_new : RpcServer := mkServer false false.

(** What [socket], [bind] and [listen] answer. *)
Inductive Listening : Type := SocketFails | BindFails | ListenFails | Listens.

Definition rpc_start (v : RpcServer) (l : Listening) : RpcServer * bool :=
  match l with
  | SocketFails => (mkServer false (running v), false)
  | BindFails | ListenFails => (mkServer true (running v), false)
  | Listens => (mkServer true true, true)
  end.

Definition rpc_stop (v : RpcServer) : RpcServer := mkServer false false.

(** ** The client *)

Definition RESP_MAX : Z := 64 * 1024 * 1024.

Definition request_head (host : string) (port : Z) (m p body : string) : string :=
  m +:+ " " +:+ p +:+ " HTTP/1.1" +:+ crlf +:+
  "Host: " +:+ host +:+ ":" +:+ pretty port +:+ crlf +:+
  "Content-Length: " +:+ pretty (len body) +:+ crlf +:+
  "Connection: close" +:+ crlf +:+ crlf.

Definition request_text (host : string) (port : Z) (m p body : string) : string :=
  strf (request_head host port m p body) +:+ body.

Fixpoint recv_response (resp : string) (chunks : list string) : string :=
  match chunks with
  | [] | EmptyString :: _ => resp
  | c :: chunks =>
      let resp := resp +:+ c in
      if len resp >? RESP_MAX then resp else recv_response resp chunks
  end.

(** The status code and the body of a response. *)
Definition parse_response (resp : string) : Z * string :=
  match cut head_end resp with
  | None => (-1, "")
  | Some (_, out) =>
      let c := match cut " " resp with
               | Some (_, r) => if 3 <=? len r then atoi r else -1
               | None => -1
               end in
      (c, out)
  end.

(** [http_req] once connected: [ns] is what [send] accepts, [peer] what the other side
    answers to the bytes it got; [None] for a connection that fails. *)
Definition http_req (host : string) (port : Z) (m p body : string)
    (conn : option (list Z * (string → list string))) : Z * string :=
  match conn with
  | None => (-1, "")
  | Some (ns, peer) =>
      let '(sent, ok) := send_loop (request_text host port m p body) ns in
      if negb ok then (-1, "") else parse_response (recv_response "" (peer sent))
  end.

(** ** Sending and receiving in pieces *)

Lemma substring_split k s : s = String.substring 0 k s +:+ substr_from k s.
Proof.
  revert k. induction s as [|c s IH]; intros [|k]; try done.
  - unfold substr_from. change (String.substring 0 0 (String c s)) with "".
    by rewrite substring_all by lia.
  - change (String.substring 0 (S k) (String c s)) with (String c (String.substring 0 k s)).
    change (substr_from (S k) (String c s)) with (substr_from k s).
    change (String c (String.substring 0 k s) +:+ substr_from k s)
      with (String c (String.substring 0 k s +:+ substr_from k s)). by rewrite <- IH.
Qed.

(** What arrives is a beginning of the text, all of it when the loop ends well. *)
Lemma send_loop_spec out ns s ok : send_loop out ns = (s, ok) →
  ∃ rest, out = s +:+ rest ∧ (ok = true → rest = "").
Proof.
  revert out s ok. induction ns as [|n ns IH]; intros [|c out] s ok; cbn [send_loop].
  - intros [= <- <-]. by exists "".
  - intros [= <- <-]. by eexists.
  - intros [= <- <-]. by exists "".
  - destruct (n <=? 0); [intros [= <- <-]; by eexists|].
    destruct (send_loop (substr_from _ _) ns) as [t ok'] eqn:E. intros [= <- <-].
    apply IH in E as (rest & E & Hok). exists rest. split; [|done].
    rewrite string_app_assoc, <- E. exact (substring_split (Z.to_nat n) (String c out)).
Qed.

Lemma send_loop_all out ns s : send_loop out ns = (s, true) → s = out.
Proof. intros (rest & -> & ->)%send_loop_spec; [|done]. by rewrite string_app_nil_r. Qed.

(** A text that arrives in chunks. *)
Definition arrives (text : string) (chunks : list string) : Prop :=
  foldr String.append "" chunks = text ∧ Forall (λ c, c ≠ "") chunks.

Lemma arrives_cons text c chunks : arrives text (c :: chunks) → c ≠ "" ∧ ∃ t, text = c +:+ t ∧ arrives t chunks.
Proof. intros [<- [Hc H]%Forall_cons]. split; [done|]. by eexists. Qed.

Lemma arrives_nil text : arrives text [] → text = "".
Proof. by intros [<- _]. Qed.

(** A prefix without the searched text is shorter than the place where it is. *)
Lemma cut_none_short p req t head rest : cut p req = None → req +:+ t = head +:+ p +:+ rest →
  len req < len head + len p.
Proof.
  intros Hn E. unfold len. destruct (decide (String.length req < String.length head + String.length p)%nat); [lia|].
  exfalso. assert (∃ x, req = (head +:+ p) +:+ x) as [x ->].
  { rewrite <- string_app_assoc in E. assert (String.length (head +:+ p) ≤ String.length req)%nat as Hl
      by (rewrite string_length_app; lia).
    clear Hn n. revert Hl E. generalize (head +:+ p) as u. intros u. revert req.
    induction u as [|c u IH]; intros req Hl E; [by exists req|]. destruct req as [|d req]; [cbn in Hl; lia|].
    change (String d req +:+ t) with (String d (req +:+ t)) in E.
    change (String c u +:+ rest) with (String c (u +:+ rest)) in E. injection E as -> E.
    destruct (IH req) as [x ->]; [cbn in Hl; lia|done|]. by exists x. }
  rewrite string_app_assoc in Hn. destruct (cut_found p head x) as (? & ? & ?). congruence.
Qed.

Lemma read_head_run text head rest : cut head_end text = Some (head, rest) →
  len head + 4 <= RECV_HEAD_MAX → ∀ chunks req t, arrives t chunks → text = req +:+ t →
  cut head_end req = None → ∃ a cs, read_head req chunks = Some (head, a, cs) ∧
    ∃ u, rest = a +:+ u ∧ arrives u cs.
Proof.
  intros Hc Hs. pose proof (cut_split _ _ _ _ Hc) as Et.
  induction chunks as [|c chunks IH]; intros req t Ha Ereq Hn.
  - apply arrives_nil in Ha as ->. rewrite string_app_nil_r in Ereq. congruence.
  - apply arrives_cons in Ha as (Hne & u & -> & Hu). cbn [read_head].
    rewrite Ereq in Et. pose proof (cut_none_short _ _ _ _ _ Hn Et) as Hlt.
    change (len head_end) with 4 in Hlt. rewrite (proj2 (Z.ltb_lt _ _)) by lia.
    destruct c as [|d c]; [done|]. destruct (cut head_end (req +:+ String d c)) as [[a b]|] eqn:E.
    + exists b, chunks. pose proof (cut_extend _ _ _ _ u E) as E'.
      rewrite string_app_assoc, <- Ereq, Hc in E'. injection E' as -> ->. split; [done|]. by exists u.
    + apply (IH (req +:+ String d c) u); [done| |done]. by rewrite string_app_assoc.
Qed.

Lemma read_body_run n : ∀ chunks a u, arrives u chunks → n = len (a +:+ u) → read_body a n chunks = a +:+ u.
Proof.
  induction chunks as [|c chunks IH]; intros a u Ha Hn; cbn [read_body].
  - apply arrives_nil in Ha as ->. rewrite string_app_nil_r. by destruct (len a <? n).
  - apply arrives_cons in Ha as (Hne & v & -> & Hv). destruct c as [|d c]; [done|].
    rewrite <- string_app_assoc in *. rewrite (proj2 (Z.ltb_lt _ _)); [by apply IH|].
    rewrite Hn. unfold len. rewrite !string_length_app. cbn. lia.
Qed.

Lemma recv_run : ∀ chunks a u, arrives u chunks → len (a +:+ u) <= RESP_MAX → recv_response a chunks = a +:+ u.
Proof.
  induction chunks as [|c chunks IH]; intros a u Ha Hl; cbn [recv_response].
  - apply arrives_nil in Ha as ->. by rewrite string_app_nil_r.
  - apply arrives_cons in Ha as (Hne & v & -> & Hv). destruct c as [|d c]; [done|].
    rewrite <- string_app_assoc in *. unfold len in *. rewrite string_length_app in Hl.
    rewrite Z.gtb_ltb, (proj2 (Z.ltb_ge _ _)) by lia. apply IH; [done|]. rewrite string_length_app. lia.
Qed.

(** ** Heads *)

Definition cr : ascii := ascii_of_nat 13.
Definition no_cr : ascii → bool := not_char cr.

(** Lines and the empty line that ends a head. *)
Fixpoint head_text (ls : list string) : string :=
  match ls with [] => crlf | l :: ls => l +:+ crlf +:+ head_text ls end.

Definition line_ok (l : string) : Prop := l ≠ "" ∧ all_chars no_cr l.

Lemma crlf_app t : crlf +:+ t = String cr (String (ascii_of_nat 10) t).
Proof. done. Qed.

Lemma head_end_cons : head_end = String cr (String (ascii_of_nat 10) crlf).
Proof. done. Qed.

Lemma cut_head_line s c t : all_chars no_cr s → c ≠ cr →
  cut head_end (s +:+ crlf +:+ String c t) = prepend (s +:+ crlf) <$> cut head_end (String c t).
Proof.
  intros Hs Hc. rewrite head_end_cons, cut_skip, crlf_app by done.
  rewrite cut_miss.
  2:{ unfold starts_with, crlf. fold cr. cbn [String.prefix].
      destruct (Ascii.ascii_dec _ _); [|done]. by destruct (Ascii.ascii_dec cr c) as [<-|]. }
  rewrite (cut_char_other cr _ (ascii_of_nat 10)) by done.
  by rewrite !prepend_prepend, ?string_app_assoc.
Qed.

(** The head ends after its lines. *)
Lemma cut_head l ls rest : Forall line_ok (l :: ls) →
  cut head_end (head_text (l :: ls) +:+ rest) = Some (join crlf (l :: ls), rest).
Proof.
  revert l. induction ls as [|l' ls IH]; intros l [[Hne Hl] Hls]%Forall_cons.
  - cbn [head_text join]. rewrite !string_app_assoc. rewrite head_end_cons at 1. rewrite cut_skip by done.
    rewrite <- (string_app_assoc crlf crlf rest).
    change (String cr (String (ascii_of_nat 10) crlf)) with (crlf +:+ crlf). rewrite cut_hit. cbn.
    unfold prepend. cbn. by rewrite string_app_nil_r.
  - pose proof Hls as [[Hne' Hl'] _]%Forall_cons. specialize (IH l' Hls).
    change (head_text (l :: l' :: ls)) with (l +:+ crlf +:+ head_text (l' :: ls)).
    rewrite !string_app_assoc. destruct (head_text (l' :: ls) +:+ rest) as [|c t] eqn:E; [done|].
    rewrite cut_head_line; [|done|].
    2:{ destruct l' as [|d l']; [done|]. apply Forall_cons in Hl' as [Hd _].
        cbn [head_text] in E. change (String d l' +:+ crlf +:+ head_text ls) with (String d (l' +:+ crlf +:+ head_text ls)) in E.
        injection E as <- _. unfold no_cr, not_char in Hd. apply negb_true_iff, bool_decide_eq_false in Hd. done. }
    rewrite IH. cbn. unfold prepend. cbn [fst snd]. by rewrite string_app_assoc.
Qed.

Lemma length_head_text l ls : len (join crlf (l :: ls)) + 4 = len (head_text (l :: ls)).
Proof.
  revert l. induction ls as [|l' ls IH]; intros l.
  - cbn [head_text join]. unfold len. rewrite !string_length_app. cbn. lia.
  - change (head_text (l :: l' :: ls)) with (l +:+ crlf +:+ head_text (l' :: ls)).
    change (join crlf (l :: l' :: ls)) with (l +:+ crlf +:+ join crlf (l' :: ls)).
    unfold len in *. specialize (IH l'). rewrite !string_length_app in *. lia.
Qed.

(** ** Searching past a character the pattern does not have *)

Lemma starts_with_stop p s d t : all_chars (not_char d) p →
  starts_with p (s +:+ String d t) = true → starts_with p s = true.
Proof.
  unfold starts_with. revert s. induction p as [|c p IH]; intros s Hp; [by destruct s|].
  apply Forall_cons in Hp as [Hc Hp]. destruct s as [|e s].
  - change ("" +:+ String d t) with (String d t). cbn [String.prefix].
    destruct (Ascii.ascii_dec c d) as [->|]; [|done]. exfalso.
    unfold not_char in Hc. apply negb_true_iff, bool_decide_eq_false in Hc. done.
  - change (String e s +:+ String d t) with (String e (s +:+ String d t)). cbn [String.prefix].
    destruct (Ascii.ascii_dec c e); [by apply IH|done].
Qed.

Lemma starts_with_chars f p s : starts_with p s = true → all_chars f s → all_chars f p.
Proof.
  intros [t ->]%starts_with_split. unfold all_chars. induction p as [|c p IH]; [constructor|].
  change (String c p +:+ t) with (String c (p +:+ t)). cbn. intros [Hc Hs]%Forall_cons.
  constructor; [done|]. by apply IH.
Qed.

Lemma cut_skip_past e p s d t : ¬ all_chars (not_char e) p → all_chars (not_char e) s →
  all_chars (not_char d) p →
  cut p (s +:+ String d t) = prepend (s +:+ String d "") <$> cut p t.
Proof.
  intros He Hs Hd. induction s as [|c s IH].
  - change ("" +:+ String d t) with (String d t). change ("" +:+ String d "") with (String d "").
    destruct p as [|c p]; [by destruct He|]. apply cut_char_other. apply Forall_cons in Hd as [Hc _].
    unfold not_char in Hc. apply negb_true_iff, bool_decide_eq_false in Hc. done.
  - change (String c s +:+ String d t) with (String c (s +:+ String d t)). cbn [cut].
    destruct (starts_with p _) eqn:E.
    { exfalso. apply He. change (String c (s +:+ String d t)) with (String c s +:+ String d t) in E.
      apply starts_with_stop in E; [|done]. by eapply starts_with_chars. }
    apply Forall_cons in Hs as [_ Hs]. rewrite IH by done. by destruct (cut p t) as [[]|].
Qed.

(** ** Requests of the client *)

(** Characters of a method or a target. *)
Definition target_char (c : ascii) : bool :=
  not_char " " c && not_char cr c && not_char ":" c.

(** Characters of an IPv4 address. *)
Definition host_char (c : ascii) : bool := is_digit c || (code c =? 46).

(** A request that [http_req] can send. *)
Record request_ok (host : string) (port : Z) (m p body : string) : Prop := {
  rq_host : all_chars host_char host;
  rq_port : 0 ≤ port;
  rq_method : all_chars target_char m;
  rq_path : all_chars target_char p;
  rq_body : len body ≤ BODY_MAX;
  rq_head : len (request_head host port m p body) ≤ 4095;
}.

Definition first_line (m p : string) : string := m +:+ " " +:+ p +:+ " HTTP/1.1".
Definition host_line (host : string) (port : Z) : string := "Host: " +:+ host +:+ ":" +:+ pretty port.
Definition length_line (n : Z) : string := "Content-Length: " +:+ pretty n.

Definition request_lines (host : string) (port : Z) (m p body : string) : list string :=
  [first_line m p; host_line host port; length_line (len body); "Connection: close"].

Lemma request_head_lines host port m p body :
  request_head host port m p body = head_text (request_lines host port m p body).
Proof.
  unfold request_head, request_lines, first_line, host_line, length_line. cbn [head_text].
  by rewrite !string_app_assoc.
Qed.

Lemma not_char_neq c d : not_char c d = true ↔ d ≠ c.
Proof. unfold not_char. by rewrite negb_true_iff, bool_decide_eq_false. Qed.

Lemma host_char_code c : host_char c = true → 46 ≤ code c ≤ 57.
Proof. unfold host_char, is_digit. intros [?|?]%orb_true_iff; bool_props; lia. Qed.

Lemma host_char_not d c : code d < 46 ∨ 57 < code d → host_char c = true → not_char d c = true.
Proof. intros Hd Hc%host_char_code. apply not_char_neq. intros ->. lia. Qed.

Lemma all_chars_nil f : all_chars f "".
Proof. constructor. Qed.

Lemma pretty_host x : 0 ≤ x → all_chars host_char (pretty x).
Proof.
  intros Hx. eapply all_chars_impl; [|by apply pretty_digits]. intros c Hc. unfold host_char. by rewrite Hc.
Qed.

Lemma target_not c : target_char c = true → not_char " " c = true ∧ not_char cr c = true ∧ not_char ":" c = true.
Proof. unfold target_char. intros. bool_props. done. Qed.

Lemma target_no_space s : all_chars target_char s → all_chars (not_char " ") s.
Proof. apply all_chars_impl. intros c Hc. by apply target_not. Qed.
Lemma target_no_cr s : all_chars target_char s → all_chars no_cr s.
Proof. apply all_chars_impl. intros c Hc. by apply target_not. Qed.
Lemma target_no_colon s : all_chars target_char s → all_chars (not_char ":") s.
Proof. apply all_chars_impl. intros c Hc. by apply target_not. Qed.

#[local] Hint Resolve target_no_space target_no_cr target_no_colon all_chars_app pretty_host : chars.

Ltac const_chars := repeat constructor.

Lemma host_no_cr s : all_chars host_char s → all_chars no_cr s.
Proof. apply all_chars_impl. intros c Hc. apply host_char_not; [left; done|done]. Qed.

#[local] Hint Resolve host_no_cr : chars.

Lemma request_lines_ok host port m p body : request_ok host port m p body →
  Forall line_ok (request_lines host port m p body).
Proof.
  intros []. unfold request_lines, first_line, host_line, length_line.
  assert (0 ≤ len body) by (unfold len; lia).
  repeat apply Forall_cons_2; try apply Forall_nil_2; (split; [try done|]).
  - by destruct m.
  - repeat apply all_chars_app; auto with chars; const_chars.
  - repeat apply all_chars_app; auto with chars; const_chars.
  - repeat apply all_chars_app; auto with chars; const_chars.
  - const_chars.
Qed.

Lemma request_line_run ls m p : all_chars target_char m → all_chars target_char p → ls ≠ [] →
  request_line (join crlf (first_line m p :: ls)) = Some (m, p).
Proof.
  intros Hm Hp Hls. unfold request_line. destruct ls as [|l ls]; [done|].
  change (join crlf (first_line m p :: l :: ls)) with (first_line m p +:+ crlf +:+ join crlf (l :: ls)).
  change crlf with (String cr (String (ascii_of_nat 10) "")) at 1 2. rewrite cut_text.
  2:{ unfold first_line. repeat apply all_chars_app; auto with chars; const_chars. }
  unfold first_line. change (" " +:+ p +:+ " HTTP/1.1") with (String " " (p +:+ " HTTP/1.1")).
  rewrite cut_char by auto with chars. cbn [mbind option_bind].
  change (" HTTP/1.1") with (String " " "HTTP/1.1"). by rewrite cut_last_char by const_chars.
Qed.

Lemma lower_app s t : lower (s +:+ t) = lower s +:+ lower t.
Proof.
  induction s as [|c s IH]; [done|]. change (String c s +:+ t) with (String c (s +:+ t)).
  cbn [lower]. by rewrite IH.
Qed.

Lemma lower_host s : all_chars host_char s → lower s = s.
Proof.
  induction s as [|c s IH]; [done|]. intros [Hc%host_char_code Hs]%Forall_cons. cbn [lower].
  rewrite IH by done. unfold tolower. change (code "A") with 65. by rewrite (proj2 (Z.leb_gt _ _)) by lia.
Qed.

Lemma tolower_not d c : (code d < 65 ∨ 122 < code d) → not_char d c = true → not_char d (tolower c) = true.
Proof.
  rewrite !not_char_neq. intros Hd Hc E. subst d. unfold tolower in *. destruct (_ && _) eqn:Ec; [|done].
  change (code "A") with 65 in Ec. change (code "Z") with 90 in Ec. bool_props.
  assert (code (ascii_of_N (Z.to_N (code c + 32))) = code c + 32) as Hcode.
  { unfold code at 1. rewrite N_ascii_embedding by lia. lia. }
  rewrite Hcode in Hd. lia.
Qed.

Lemma lower_not d s : (code d < 65 ∨ 122 < code d) → all_chars (not_char d) s → all_chars (not_char d) (lower s).
Proof.
  intros Hd. unfold all_chars. induction s as [|c s IH]; [done|]. intros [Hc Hs]%Forall_cons.
  constructor; [by apply tolower_not|by apply IH].
Qed.

Definition clen_pattern : string := "content-length:".

(** The server finds the length the client sent. *)
Lemma content_length_run host port m p body : request_ok host port m p body →
  content_length (join crlf (request_lines host port m p body)) = len body.
Proof.
  intros [Hh Hp Hm Hpa Hb _]. unfold content_length. fold clen_pattern.
  assert (∃ t, lower (join crlf (request_lines host port m p body)) =
    lower (first_line m p) +:+ String cr (String (ascii_of_nat 10) ("host: " +:+ host +:+ ":" +:+ pretty port +:+
      crlf +:+ clen_pattern +:+ String " " (pretty (len body) +:+ String cr t)))) as [t ->].
  { exists (String (ascii_of_nat 10) "connection: close"). cbn [request_lines join].
    assert (0 ≤ len body) by (unfold len; lia).
    unfold host_line, length_line. rewrite !lower_app, (lower_host host), (lower_host (pretty port)),
      (lower_host (pretty (len body))) by auto with chars. by rewrite !string_app_assoc. }
  rewrite (cut_skip_past ":"); [| |apply lower_not; [by left|]|by const_chars].
  2:{ intros H. by repeat (apply Forall_cons in H as [? H]). }
  2:{ unfold first_line. repeat apply all_chars_app; auto with chars; const_chars. }
  set (r := pretty (len body) +:+ String cr t).
  assert (∀ u, all_chars (not_char "c") u → ∀ v, cut clen_pattern (u +:+ v) = prepend u <$> cut clen_pattern v) as Hskip.
  { intros u Hu v. by apply cut_skip. }
  assert (∀ u, all_chars host_char u → all_chars (not_char "c") u) as Hhc.
  { intros u. apply all_chars_impl. intros c. apply host_char_not. by right. }
  match goal with |- context [String (ascii_of_nat 10) ("host: " +:+ ?x)] =>
    change (String (ascii_of_nat 10) ("host: " +:+ x)) with (String (ascii_of_nat 10) "host: " +:+ x) end.
  rewrite !Hskip by first [solve [const_chars] | apply Hhc; auto with chars].
  rewrite cut_hit. cbn -[atoll]. unfold atoll, strtos.
  change (signed_digits (String " " r)) with (signed_digits r). unfold r.
  assert (0 ≤ len body) by (unfold len; lia).
  unfold BODY_MAX in Hb. rewrite signed_digits_text, Z.min_r, Z.max_r by (done || lia).
  apply wrap_small. unfold in_width. lia.
Qed.

(** The request that arrives is the request that was made. *)
Definition request_of (m p body : string) : HttpReq := mkReq m (target_path p) (target_query p) body.

Lemma http_request_run host port m p body chunks : request_ok host port m p body →
  arrives (request_text host port m p body) chunks →
  http_request chunks = Some (request_of m p body).
Proof.
  intros Hr Ha. pose proof Hr as [_ _ Hm Hp Hb Hlen]. unfold http_request.
  pose proof (request_lines_ok _ _ _ _ _ Hr) as Hl. pose proof (content_length_run _ _ _ _ _ Hr) as Hc.
  unfold request_text in Ha. rewrite strf_short in Ha by (unfold len in Hlen; lia).
  rewrite request_head_lines in Ha, Hlen. unfold request_lines in Ha, Hlen, Hl, Hc.
  pose proof (cut_head _ _ body Hl) as Hcut. rewrite <- length_head_text in Hlen.
  edestruct (read_head_run _ _ _ Hcut) as (a & cs & -> & u & Hu & Hu2); [|exact Ha|done|done|].
  { unfold RECV_HEAD_MAX. lia. }
  cbn [mbind option_bind]. rewrite request_line_run by done. cbn [mbind option_bind].
  rewrite Hc. rewrite Z.gtb_ltb, (proj2 (Z.ltb_ge _ _)) by done.
  rewrite (read_body_run _ _ a u) by (done || by rewrite Hu). by rewrite <- Hu.
Qed.

(** ** Responses *)

(** A response a browser or client can read back. *)
Record response_ok (r : HttpResp) : Prop := {
  rp_ctype : all_chars no_cr (ctype r);
  rp_code : resp_code r ∈ [200; 400; 404; 500];
  rp_len : len (response_head r) ≤ 4095;
  rp_body : len (resp_body r) ≤ RESP_MAX - 4095;
}.

Definition response_lines (r : HttpResp) : list string :=
  ["HTTP/1.1 " +:+ status_text (resp_code r); "Content-Type: " +:+ ctype r;
   "Content-Length: " +:+ pretty (len (resp_body r)); "Access-Control-Allow-Origin: *"; "Connection: close"].

Lemma response_head_lines r : response_head r = head_text (response_lines r).
Proof. unfold response_head, response_lines. cbn [head_text]. by rewrite !string_app_assoc. Qed.

Lemma status_text_ok c : c ∈ [200; 400; 404; 500] →
  all_chars no_cr (status_text c) ∧
  ∀ t, 3 ≤ len (status_text c +:+ t) ∧ atoi (status_text c +:+ t) = c.
Proof.
  intros H. assert (c = 200 ∨ c = 400 ∨ c = 404 ∨ c = 500) as Hc by set_solver.
  destruct Hc as [->|[->|[->| ->]]]; (split; [const_chars|]); intros t;
    (split; [unfold len; rewrite string_length_app; cbn; lia|]).
  - exact (strtos_text 32 200 (" OK" +:+ t) ltac:(lia) eq_refl).
  - exact (strtos_text 32 400 (" Bad Request" +:+ t) ltac:(lia) eq_refl).
  - exact (strtos_text 32 404 (" Not Found" +:+ t) ltac:(lia) eq_refl).
  - exact (strtos_text 32 500 (" Internal Server Error" +:+ t) ltac:(lia) eq_refl).
Qed.

Lemma response_lines_ok r : response_ok r → Forall line_ok (response_lines r).
Proof.
  intros []. destruct (status_text_ok (resp_code r)) as [Hs _]; [done|].
  assert (0 ≤ len (resp_body r)) by (unfold len; lia). unfold response_lines.
  repeat apply Forall_cons_2; try apply Forall_nil_2; (split; [done|]).
  all: repeat apply all_chars_app; auto with chars; const_chars.
Qed.

Lemma parse_response_run r chunks : response_ok r → arrives (response_text r) chunks →
  parse_response (recv_response "" chunks) = (resp_code r, resp_body r).
Proof.
  intros Hr Ha. pose proof Hr as [Hct Hc Hl Hb]. pose proof (response_lines_ok r Hr) as Hls.
  unfold response_text in Ha. rewrite strf_short in Ha by (unfold len in Hl; lia).
  rewrite (recv_run chunks "" _ Ha).
  2:{ change ("" +:+ ?x) with x. unfold len in *. rewrite string_length_app. lia. }
  rewrite response_head_lines. unfold response_lines in Hls |- *.
  match goal with |- parse_response ("" +:+ ?x) = _ => change ("" +:+ x) with x end.
  unfold parse_response. rewrite cut_head by done. f_equal.
  destruct (status_text_ok (resp_code r) Hc) as [_ Ht]. cbn [head_text]. rewrite !string_app_assoc.
  match goal with |- context ["HTTP/1.1 " +:+ ?x] =>
    change ("HTTP/1.1 " +:+ x) with ("HTTP/1.1" +:+ String " " x) end.
  rewrite cut_char by const_chars.
  match goal with |- context [len (status_text _ +:+ ?t)] => destruct (Ht t) as [H3 H4] end.
  by rewrite (proj2 (Z.leb_le _ _)), H4.
Qed.

(** ** Theorem *)

Section theorems.
Context {S : Type} (h : S → HttpReq → S * HttpResp).

(** The request of a connection, if there is a whole one. *)
Definition conn_request (c : Accepted) : option HttpReq :=
  match c with NoConnection => None | Connection chunks _ => http_request chunks end.

(** The server calls the handler once for each whole request, in their order; failed accepts
    and broken requests change nothing. *)
Lemma serve_requests s conns :
  (serve (Some h) s conns).1 = foldl (λ s r, (h s r).1) s (omap conn_request conns).
Proof.
  revert s. induction conns as [|[|chunks ns] conns IH]; intros s; cbn [serve omap list_omap conn_request foldl]; [done|apply IH|].
  unfold handle. destruct (http_request chunks) as [r|]; cbn [foldl].
  - destruct (h s r) as [s' resp]. cbn [fst]. rewrite <- IH. by destruct (serve _ s' conns).
  - rewrite <- IH. by destruct (serve _ s conns).
Qed.

(** C23: an exchange over HTTP is a call of the handler. Whatever pieces the client's
    sends, the server's receives, its sends and the client's receives come in, the
    handler is called once, with the method, the decoded target and the body that the
    client asked for, and the client gets the code and the body that the handler
    returned. *)
Theorem http_exchange s host port m p body ns1 ns2 (split1 split2 : string → list string) :
  request_ok host port m p body → response_ok (h s (request_of m p body)).2 →
  (∀ t, arrives t (split1 t)) → (∀ t, arrives t (split2 t)) →
  (send_loop (request_text host port m p body) ns1).2 = true →
  (send_loop (response_text (h s (request_of m p body)).2) ns2).2 = true →
  ∃ s' out, handle (Some h) s (split1 (request_text host port m p body)) ns2 = (s', out) ∧
    s' = (h s (request_of m p body)).1 ∧
    http_req host port m p body (Some (ns1, λ t, split2 (handle (Some h) s (split1 t) ns2).2)) =
      (resp_code (h s (request_of m p body)).2, resp_body (h s (request_of m p body)).2).
Proof.
  intros Hq Hr Hs1 Hs2 Hn1 Hn2.
  destruct (send_loop (request_text _ _ _ _ _) ns1) as [t1 ok1] eqn:E1. cbn in Hn1. subst ok1.
  pose proof (send_loop_all _ _ _ E1) as ->.
  destruct (send_loop (response_text _) ns2) as [t2 ok2] eqn:E2. cbn in Hn2. subst ok2.
  pose proof (send_loop_all _ _ _ E2) as ->.
  assert (handle (Some h) s (split1 (request_text host port m p body)) ns2 =
    ((h s (request_of m p body)).1, response_text (h s (request_of m p body)).2)) as Eh.
  { unfold handle. rewrite (http_request_run _ _ _ _ _ _ Hq) by done.
    destruct (h s (request_of m p body)) as [s' resp]. cbn [fst snd] in *. by rewrite E2. }
  eexists _, _. split; [exact Eh|]. split; [done|].
  unfold http_req. rewrite E1, Eh. cbn [negb snd]. by apply parse_response_run.
Qed.
End theorems.
