(* ===== verification/Node.v ===== *)
(** * Node: the handlers of [src/node_impl.h]

    [App] is the state of a node: chain, pool, links and the synchronisation state
    machine. The handlers run under the mutex [a.mtx], so each is one step. What
    they read from outside is an argument: [clock i] is the [i]-th reading of
    [now_s()] and [ms] the reading of [now_ms()]. *)

From S2P Require Import Prelude Hex Serial Sha256 Hash Crypto Merkle Tx Ledger Store Chain Consensus Recovery Mempool Miner Net.

Local Open Scope Z_scope.

Record App {D : Type} := mkApp {
  a_params : Params;
  chain : Chain D;
  pool : Mempool;
  p2p : P2P;
  miner_addr : bytes;
  mine_on : bool;
  heartbeat_s : Z;
  tip_seq : Z;
  sync_peer : Z;
  sync_mode : Z;
  sync_extend_got : Z;
  cand : list Block;
  sync_last_ms : Z;
  work_cache : gmap (list Z) (list Tx);
}.
Arguments App : clear implicits.

Section setters.
Context {D : Type}.
Implicit Types a : App D.

Definition set_chain a (c : Chain D) : App D :=
  mkApp D (a_params a) c (pool a) (p2p a) (miner_addr a) (mine_on a) (heartbeat_s a) (tip_seq a)
    (sync_peer a) (sync_mode a) (sync_extend_got a) (cand a) (sync_last_ms a) (work_cache a).
Definition set_pool a (mp : Mempool) : App D :=
  mkApp D (a_params a) (chain a) mp (p2p a) (miner_addr a) (mine_on a) (heartbeat_s a) (tip_seq a)
    (sync_peer a) (sync_mode a) (sync_extend_got a) (cand a) (sync_last_ms a) (work_cache a).
Definition set_p2p a (n : P2P) : App D :=
  mkApp D (a_params a) (chain a) (pool a) n (miner_addr a) (mine_on a) (heartbeat_s a) (tip_seq a)
    (sync_peer a) (sync_mode a) (sync_extend_got a) (cand a) (sync_last_ms a) (work_cache a).
Definition set_tip_seq a (v : Z) : App D :=
  mkApp D (a_params a) (chain a) (pool a) (p2p a) (miner_addr a) (mine_on a) (heartbeat_s a) v
    (sync_peer a) (sync_mode a) (sync_extend_got a) (cand a) (sync_last_ms a) (work_cache a).
Definition set_sync a (peer mode got : Z) (bs : list Block) : App D :=
  mkApp D (a_params a) (chain a) (pool a) (p2p a) (miner_addr a) (mine_on a) (heartbeat_s a)
    (tip_seq a) peer mode got bs (sync_last_ms a) (work_cache a).
Definition set_sync_last_ms a (v : Z) : App D :=
  mkApp D (a_params a) (chain a) (pool a) (p2p a) (miner_addr a) (mine_on a) (heartbeat_s a)
    (tip_seq a) (sync_peer a) (sync_mode a) (sync_extend_got a) (cand a) v (work_cache a).
Definition set_work_cache a (m : gmap (list Z) (list Tx)) : App D :=
  mkApp D (a_params a) (chain a) (pool a) (p2p a) (miner_addr a) (mine_on a) (heartbeat_s a)
    (tip_seq a) (sync_peer a) (sync_mode a) (sync_extend_got a) (cand a) (sync_last_ms a) m.
End setters.

Section handlers.
Context `{HF : HashFn} `{CN : Cng} {D : Type} `{DB : Sqlite D}.
Implicit Types a : App D.

Definition app_tip_hash a : bytes := default zero_hash (tip_hash (chain a)).

Definition tip_payload a : bytes :=
  let w := w_u64 [] (height (chain a)) in
  let w := w_u64 w (work (chain a)) in
  w_arr w (app_tip_hash a).

Definition announce_tip a (except : Z) : App D :=
  set_p2p a (broadcast (p2p a) M_TIP (tip_payload a) except).

Definition post_chain_change a : App D :=
  let a := set_pool a (purge (pool a) (st (chain a))) in
  let a := set_work_cache a ∅ in
  set_tip_seq a (u64 (tip_seq a + 1)).

Definition reset_sync a : App D := set_sync a (-1) 0 0 [].

Definition request_blocks a (peer start ms : Z) : App D :=
  let w := w_u64 [] start in
  let w := w_u32 w 200 in
  set_sync_last_ms (set_p2p a (send_to (p2p a) peer M_GET_BLOCKS w)) ms.

Definition maybe_sync a (peer ms : Z) : App D :=
  if negb (sync_peer a =? -1) then a
  else
    match peer_tip (p2p a) peer with
    | None => a
    | Some (ph, pw, phash) =>
        if pw <=? work (chain a) then a
        else
          let a := set_sync a peer 1 0 [] in
          request_blocks a peer (u64 (height (chain a) + 1)) ms
    end.

(** The loop of mode 1: the chain, the number of blocks connected and the last
    error text. *)
Fixpoint extend_loop (c : Chain D) (v : list Block) (clock : nat → Z) (okc : nat)
    : Chain D * nat * string :=
  match v with
  | [] => (c, okc, "")
  | b :: v =>
      let '(c, err) := connect_block c b (clock okc) in
      if negb (bool_decide (err = "")) then (c, okc, err)
      else extend_loop c v clock (S okc)
  end.

(** Mode 1: extend from the tip. *)
Definition extend_step a (peer : Z) (v : list Block) (clock : nat → Z) (ms : Z) : App D :=
  let have := peer_tip (p2p a) peer in
  let '(c, okc, err) := extend_loop (chain a) v clock 0 in
  let a := set_chain a c in
  let a := if (0 <? okc)%nat then post_chain_change a else a in
  if negb (bool_decide (err = "")) && (okc =? 0)%nat && (sync_extend_got a =? 0) then
    request_blocks (set_sync a (sync_peer a) 2 (sync_extend_got a) []) peer 0 ms
  else
    let a := set_sync a (sync_peer a) (sync_mode a)
               (u64 (sync_extend_got a + Z.of_nat okc)) (cand a) in
    let caught_up := match have with
                     | Some (ph, pw, phash) => pw <=? work (chain a)
                     | None => false
                     end in
    if caught_up then reset_sync (announce_tip a (-1))
    else if (0 <? okc)%nat && negb (bool_decide (v = []))
      then request_blocks a peer (u64 (height (chain a) + 1)) ms
    else reset_sync a.

(** Mode 2: collect a whole chain, then compare it with ours. *)
Definition redownload_step a (peer : Z) (v : list Block) (clock : nat → Z) (ms : Z) : App D :=
  let have := peer_tip (p2p a) peer in
  let a := set_sync a (sync_peer a) (sync_mode a) (sync_extend_got a) (cand a ++ v) in
  if size (cand a) >? 500000 then reset_sync a
  else
    let complete := bool_decide (v = []) ||
      match last (cand a), have with
      | Some b, Some (ph, pw, phash) => ph <=? h_height (b_h b)
      | _, _ => false
      end in
    if negb complete then request_blocks a peer (size (cand a)) ms
    else
      let '(c, err, fork) := try_replace (chain a) (cand a) clock in
      let a := set_chain a c in
      let a := if bool_decide (err = "") then announce_tip (post_chain_change a) (-1) else a in
      reset_sync a.

Definition handle_blocks a (peer : Z) (v : list Block) (clock : nat → Z) (ms : Z) : App D :=
  if negb (peer =? sync_peer a) then a
  else
    let a := set_sync_last_ms a ms in
    if sync_mode a =? 1 then extend_step a peer v clock ms
    else if sync_mode a =? 2 then redownload_step a peer v clock ms
    else a.

(** ** Links *)

Definition on_ready a (peer : Z) : App D :=
  set_p2p a (send_to (p2p a) peer M_TIP (tip_payload a)).

Definition on_gone a (peer : Z) : App D :=
  if peer =? sync_peer a then reset_sync a else a.

(** ** Messages *)

Definition get_blocks_fields : Parser (Z * Z) := start ← r_u64; cnt ← r_u32; mret (start, cnt).

(** The payload of M_BLOCKS for [raws]. *)
Definition blocks_payload (raws : list bytes) : bytes :=
  foldl (λ w raw, w_blob (w_u32 w (u32 (size raw))) raw) (w_u32 [] (u32 (size raws))) raws.

Definition on_get_blocks a (peer : Z) (payload : bytes) : App D :=
  match get_blocks_fields (reader_of payload) with
  | Err _ => a
  | Ok ((start, cnt), _) =>
      let cnt := Z.min cnt 200 in
      let raws := map block_serialize
        (take (Z.to_nat cnt) (drop (Z.to_nat start) (blocks (chain a)))) in
      set_p2p a (send_to (p2p a) peer M_BLOCKS (blocks_payload raws))
  end.

(** The loop of M_BLOCKS: length, raw block, parse. *)
Fixpoint raw_blocks (n : nat) : Parser (list Block) :=
  match n with
  | O => mret []
  | S n =>
      len ← r_u32;
      raw ← r_blob len;
      match block_parse raw with
      | None => throw "bad block"
      | Some b => bs ← raw_blocks n; mret (b :: bs)
      end
  end.

(** [None]: the message is dropped. *)
Definition blocks_body : Parser (option (list Block)) :=
  n ← r_u32;
  if n >? 500 then mret None else (bs ← raw_blocks (Z.to_nat n); mret (Some bs)).

Definition on_blocks a (peer : Z) (payload : bytes) (clock : nat → Z) (ms : Z) : App D :=
  match blocks_body (reader_of payload) with
  | Ok (Some v, _) => handle_blocks a peer v clock ms
  | _ => a
  end.

(** A transaction and nothing after it. *)
Definition whole_tx (payload : bytes) : result Tx :=
  match tx_parse (reader_of payload) with
  | Err e => Err e
  | Ok (t, r) => if negb (remaining r =? 0) then Err "trailing bytes" else Ok t
  end.

(** [pool.has(id) || chain.txidx.count(id)], then [pool.add]. *)
Definition known_tx a (id : bytes) : bool :=
  has (pool a) id || bool_decide (is_Some (txidx (chain a) !! id)).

Definition on_tx a (peer : Z) (payload : bytes) : App D :=
  match whole_tx payload with
  | Err _ => a
  | Ok t =>
      if known_tx a (txid t) then a
      else
        let '(mp, err) := add (pool a) t (st (chain a)) (a_params a) in
        let a := set_pool a mp in
        if bool_decide (err = "") then set_p2p a (broadcast (p2p a) M_TX payload peer) else a
  end.

Definition on_block a (peer : Z) (payload : bytes) (clock : nat → Z) (ms : Z) : App D :=
  match block_parse payload with
  | None => a
  | Some b =>
      if has_block (chain a) (header_hash (b_h b)) then a
      else
        let '(c, err) := connect_block (chain a) b (clock 0%nat) in
        let a := set_chain a c in
        if bool_decide (err = "") then
          let a := announce_tip (post_chain_change a) peer in
          set_p2p a (broadcast (p2p a) M_BLOCK payload peer)
        else if h_height (b_h b) >? height (chain a) then maybe_sync a peer ms
        else a
  end.

Definition on_msg a (peer type : Z) (payload : bytes) (clock : nat → Z) (ms : Z) : App D :=
  if type =? M_TIP then maybe_sync a peer ms
  else if type =? M_GET_BLOCKS then on_get_blocks a peer payload
  else if type =? M_BLOCKS then on_blocks a peer payload clock ms
  else if type =? M_TX then on_tx a peer payload
  else if type =? M_BLOCK then on_block a peer payload clock ms
  else a.

(** ** Mining *)

(** What [miner_thread] does with a mined block; [seq] is the [tip_seq] its
    template was made at. *)
Definition submit_mined a (b : Block) (seq : Z) (clock : nat → Z) : App D :=
  if negb (tip_seq a =? seq) then a
  else
    let '(c, err) := connect_block (chain a) b (clock 0%nat) in
    let a := set_chain a c in
    if bool_decide (err = "") then
      let a := announce_tip (post_chain_change a) (-1) in
      set_p2p a (broadcast (p2p a) M_BLOCK (block_serialize b) (-1))
    else a.

Definition prepare_block a (now1 now2 : Z) : option Block :=
  if mine_on a
  then miner_candidate (chain a) (pool a) (a_params a) (miner_addr a) (heartbeat_s a) now1 now2
  else None.

(** [/work]: the header handed to an external miner. *)
Definition get_work a (payto : bytes) (now : Z) : App D * BlockHeader :=
  let txs := collect (pool a) (st (chain a)) (a_params a) (u64 (height (chain a) + 1)) in
  let b := template (chain a) (a_params a) payto txs now in
  let cache := if (64 <? stdpp.base.size (work_cache a))%nat then ∅ else work_cache a in
  (set_work_cache a (<[h_merkle (b_h b) := b_txs b]> cache), b_h b).

(** [/submitwork] with the parsed header: an error text or the block. *)
Definition submit_work a (h : BlockHeader) (clock : nat → Z) : App D * result Block :=
  match work_cache a !! h_merkle h with
  | None => (a, Err "unknown work (stale tip?)")
  | Some txs =>
      let b := mkBlock h txs in
      let '(c, err) := connect_block (chain a) b (clock 0%nat) in
      let a := set_chain a c in
      if negb (bool_decide (err = "")) then (a, Err ("rejected: " +:+ err))
      else
        let a := announce_tip (post_chain_change a) (-1) in
        (set_p2p a (broadcast (p2p a) M_BLOCK (block_serialize b) (-1)), Ok b)
  end.

(** [/submit] with the decoded body: an error text or the transaction. *)
Definition submit_tx a (raw : bytes) : App D * result Tx :=
  match whole_tx raw with
  | Err e => (a, Err ("parse: " +:+ e))
  | Ok t =>
      if known_tx a (txid t) then (a, Err "duplicate tx")
      else
        let '(mp, err) := add (pool a) t (st (chain a)) (a_params a) in
        let a := set_pool a mp in
        if negb (bool_decide (err = "")) then (a, Err err)
        else (set_p2p a (broadcast (p2p a) M_TX raw (-1)), Ok t)
  end.

(** ** Housekeeping *)

(** One round of [periodic_thread]; [tick] is its counter. *)
Definition periodic a (tick ms : Z) : App D :=
  let a := if tick mod 40 =? 0 then announce_tip a (-1) else a in
  if negb (sync_peer a =? -1) && (u64 (ms - sync_last_ms a) >? 20000) then reset_sync a else a.

(** ** Start *)

(** The state that [node_run] starts the threads with, or the error of [init]. *)
Definition app_start (p : Params) (database : option D) (n : P2P) (addr : bytes) (mine : bool)
    (heartbeat : Z) (clock : nat → Z) : result (App D) :=
  let '(c, err) := init (Chain_new p) database clock in
  if negb (bool_decide (err = "")) then Err ("chain init: " +:+ err)
  else Ok (mkApp D p c Mempool_empty n addr mine heartbeat 0 (-1) 0 0 [] 0 ∅).
End handlers.
