(* ===== verification/Safety.v ===== *)
(** * Safety: the node as a transition system

    [step] is one handler of [Node] run by some thread. Every step keeps [app_inv]
    and changes the chain only by [connect_block] and [try_replace]. *)

From S2P Require Import Prelude Hex Serial Sha256 Hash Crypto Merkle Tx Ledger Store Chain Consensus Recovery Typed Mempool Miner Net Node.

Local Open Scope Z_scope.

Section safety.
Context `{HF : HashFn} `{CN : Cng} {D : Type} `{DB : Sqlite D}.
Implicit Types a : App D.
Implicit Types c : Chain D.

(** ** How a chain changes *)

Inductive chain_step : Chain D → Chain D → Prop :=
  | step_connect c b now c' :
      wf_block b → connect_block c b now = (c', "") → chain_step c c'
  | step_replace c bs clock c' f :
      Forall wf_block bs → try_replace c bs clock = (c', "", f) → chain_step c c'.

(** ** The invariant of a node *)

(** The synchronisation state machine is idle, extends or downloads. *)
Definition sync_ok a : Prop :=
  sync_peer a = -1 ∧ sync_mode a = 0 ∧ cand a = [] ∨
  sync_peer a ≠ -1 ∧ sync_mode a = 1 ∧ cand a = [] ∨
  sync_peer a ≠ -1 ∧ sync_mode a = 2.

Record app_inv a : Prop := {
  ai_params : wf_params (a_params a);
  ai_same : params (chain a) = a_params a;
  ai_chain : chain_inv (chain a);
  ai_nonempty : blocks (chain a) ≠ [];
  ai_pool : pool_inv (a_params a) (pool a);
  ai_addr : wf_array 20 (miner_addr a);
  ai_cand : Forall wf_block (cand a);
  ai_cache : ∀ m txs, work_cache a !! m = Some txs → wf_array 32 m ∧ Forall wf_tx txs;
  ai_keys : addr_keys (st (chain a));
  ai_counts : in_width 64 (tip_seq a) ∧ in_width 64 (sync_extend_got a);
  ai_sync : sync_ok a;
}.

Lemma app_inv_p2p a n : app_inv a → app_inv (set_p2p a n).
Proof. by intros []. Qed.

Lemma app_inv_last_ms a v : app_inv a → app_inv (set_sync_last_ms a v).
Proof. by intros []. Qed.

Lemma app_inv_pool a mp : app_inv a → pool_inv (a_params a) mp → app_inv (set_pool a mp).
Proof. by intros [] ?. Qed.

Lemma app_inv_sync a peer mode got bs : app_inv a → Forall wf_block bs → in_width 64 got →
  sync_ok (set_sync a peer mode got bs) → app_inv (set_sync a peer mode got bs).
Proof. intros [] ? ? ?. split; try done. by split; [apply ai_counts0|]. Qed.

Lemma app_inv_reset a : app_inv a → app_inv (reset_sync a).
Proof. intros Ha. apply app_inv_sync; [done|constructor|done|by left]. Qed.

Lemma app_inv_announce a e : app_inv a → app_inv (announce_tip a e).
Proof. apply app_inv_p2p. Qed.

Lemma app_inv_request a peer start ms : app_inv a → app_inv (request_blocks a peer start ms).
Proof. intros. by apply app_inv_last_ms, app_inv_p2p. Qed.

Lemma app_inv_chain a c : app_inv a → chain_inv c → params c = params (chain a) →
  blocks c ≠ [] → addr_keys (st c) → app_inv (set_chain a c).
Proof. intros [] ? ? ? ?. split; try done. cbn. congruence. Qed.

Lemma app_inv_post a : app_inv a → app_inv (post_chain_change a).
Proof.
  intros Ha. pose proof (purge_inv _ _ (st (chain a)) (ai_pool a Ha)) as [Hp _].
  destruct Ha. split; try done. split; [by apply wrap_in_width|apply ai_counts0].
Qed.

Lemma wf_tip_hash a : app_inv a → wf_array 32 (app_tip_hash a).
Proof.
  intros Ha. unfold app_tip_hash. rewrite chain_inv_tip by apply Ha.
  destruct (tip (chain a)); [apply wf_header_hash|apply wf_zero_hash].
Qed.

(** What a handler may do. *)
Definition handled a a' : Prop := app_inv a' ∧ rtc chain_step (chain a) (chain a').

Lemma handled_same a a' : app_inv a' → chain a' = chain a → handled a a'.
Proof. intros ? E. split; [done|]. by rewrite E. Qed.

Lemma handled_refl a : app_inv a → handled a a.
Proof. intros. by apply handled_same. Qed.

Lemma handled_trans a1 a2 a3 : handled a1 a2 → handled a2 a3 → handled a1 a3.
Proof. intros [_ ?] [? ?]. split; [done|]. by etrans. Qed.

Lemma chain_step_inv c c' : chain_step c c' → chain_inv c →
  chain_inv c' ∧ params c' = params c ∧ blocks c' ≠ [] ∧ persisting c' = persisting c.
Proof.
  intros [c0 b now c1 Hb H|c0 bs clock c1 f Hb H] Hc.
  - apply connect_block_ok in H as (_ & _ & ? & ? & E & ? & _); [|done..].
    split_and!; try done. rewrite E. by destruct (blocks c0).
  - apply try_replace_cases in H as [(_&(?&_)&?&?&E&?&_)|(?&_)]; [|done..].
    split_and!; try done. by rewrite E.
Qed.

Lemma chain_step_keys c c' : chain_step c c' → addr_keys (st c) → addr_keys (st c').
Proof.
  intros [c0 b now c1 Hb H|c0 bs clock c1 f Hb H] Hs;
    [by eapply addr_keys_connect|by eapply addr_keys_replace].
Qed.

Lemma handled_step a c : app_inv a → chain_step (chain a) c → handled a (set_chain a c).
Proof.
  intros Ha H. split; [|by apply rtc_once].
  destruct (chain_step_inv _ _ H (ai_chain a Ha)) as (? & ? & ? & _).
  apply app_inv_chain; try done. eapply chain_step_keys; [done|apply Ha].
Qed.
End safety.

#[export] Hint Resolve app_inv_p2p app_inv_last_ms app_inv_reset app_inv_announce app_inv_request
  app_inv_post : chainlite.

(** ** The handlers *)

Section handlers.
Context `{HF : HashFn} `{CN : Cng} {D : Type} `{DB : Sqlite D}.
Implicit Types a : App D.
Implicit Types c : Chain D.

(** A chain change that is announced. *)
Lemma handled_changed a c e : app_inv a → chain_step (chain a) c →
  handled a (announce_tip (post_chain_change (set_chain a c)) e).
Proof.
  intros Ha Hs. destruct (handled_step a c Ha Hs) as [Hi Hr].
  split; [by auto with chainlite|done].
Qed.

Lemma connect_refused c b now c' err : chain_inv c → connect_block c b now = (c', err) →
  err ≠ "" → c' = c.
Proof. intros. by eapply connect_block_fail. Qed.

Lemma set_chain_same a : set_chain a (chain a) = a.
Proof. by destruct a. Qed.

Lemma maybe_sync_handled a peer ms : peer ≠ -1 → app_inv a → handled a (maybe_sync a peer ms).
Proof.
  intros Hp Ha. unfold maybe_sync. destruct (Z.eqb_spec (sync_peer a) (-1)); [|by apply handled_refl].
  cbn [negb]. destruct (peer_tip _ _) as [[[ph pw] phash]|]; [|by apply handled_refl].
  case_match; [by apply handled_refl|]. apply handled_same; [|done].
  apply app_inv_request, app_inv_sync; [done|constructor|done|]. right; left. done.
Qed.

Lemma extend_loop_steps c v clock k c' okc err : chain_inv c → Forall wf_block v →
  extend_loop c v clock k = (c', okc, err) →
  rtc chain_step c c' ∧ (k ≤ okc)%nat ∧ (k = okc → c' = c).
Proof.
  revert c k. induction v as [|b v IH]; intros c k Hc Hv H; cbn [extend_loop] in H.
  { by injection H as <- <- <-. }
  apply Forall_cons in Hv as [Hb Hv]. destruct (connect_block c b (clock k)) as [c1 e] eqn:E.
  case_bool_decide as He; cbn [negb] in H.
  - subst e. assert (chain_step c c1) as Hs by by econstructor.
    destruct (chain_step_inv _ _ Hs Hc) as (Hc1 & _).
    destruct (IH c1 (S k) Hc1 Hv H) as (Hr & Hle & _). split_and!; [|lia|lia].
    by eapply rtc_l.
  - injection H as <- <- <-. rewrite (connect_refused _ _ _ _ _ Hc E He). done.
Qed.

Lemma chain_steps_inv c c' : rtc chain_step c c' → chain_inv c → blocks c ≠ [] →
  chain_inv c' ∧ params c' = params c ∧ blocks c' ≠ [] ∧ persisting c' = persisting c.
Proof.
  induction 1 as [c|c1 c2 c3 Hs _ IH]; intros Hc Hne; [done|].
  destruct (chain_step_inv _ _ Hs Hc) as (Hc2 & Hp & Hne2 & Hps).
  destruct (IH Hc2 Hne2) as (? & ? & ? & ?). split_and!; congruence || done.
Qed.

Lemma handled_steps a c : app_inv a → rtc chain_step (chain a) c → handled a (set_chain a c).
Proof.
  intros Ha Hs. split; [|done].
  destruct (chain_steps_inv _ _ Hs (ai_chain a Ha) (ai_nonempty a Ha)) as (? & ? & ? & _).
  apply app_inv_chain; try done. pose proof (ai_keys a Ha) as Hk. clear -Hs Hk.
  induction Hs as [c|c1 c2 c3 H _ IH]; [done|]. by eapply IH, chain_step_keys.
Qed.

Lemma extend_step_handled a v clock ms : app_inv a → sync_peer a ≠ -1 → sync_mode a = 1 →
  cand a = [] → Forall wf_block v → handled a (extend_step a (sync_peer a) v clock ms).
Proof.
  intros Ha Hp Hm Hcand Hv. unfold extend_step.
  destruct (extend_loop (chain a) v clock 0) as [[c okc] err] eqn:E.
  apply extend_loop_steps in E as (Hs & _ & Hsame); [|apply Ha|done].
  destruct (handled_steps a c Ha Hs) as [Hi Hr].
  set (a1 := if (0 <? okc)%nat then post_chain_change (set_chain a c) else set_chain a c).
  assert (app_inv a1 ∧ chain a1 = c ∧ sync_peer a1 = sync_peer a ∧ sync_mode a1 = 1 ∧ cand a1 = [])
    as (Ha1 & Ec & Ep & Em & Eca).
  { subst a1. destruct (0 <? okc)%nat; split_and!; try done; by apply app_inv_post. }
  assert (∀ a', app_inv a' → chain a' = chain a1 → handled a a') as Hdone.
  { intros a' Ha' E'. split; [done|]. by rewrite E', Ec. }
  cbv zeta. fold a1. case_match.
  { apply Hdone; [|done]. apply app_inv_request, app_inv_sync; [done|constructor|apply Ha1|].
    right; right. cbn. by rewrite Ep. }
  set (a2 := set_sync a1 _ _ _ _).
  assert (app_inv a2) as Ha2.
  { apply app_inv_sync; [done|by rewrite Eca; constructor|by apply wrap_in_width|]. right; left. cbn. by rewrite Ep. }
  repeat case_match; apply Hdone; auto with chainlite.
Qed.

Lemma redownload_step_handled a v clock ms : app_inv a → sync_peer a ≠ -1 → sync_mode a = 2 →
  Forall wf_block v → handled a (redownload_step a (sync_peer a) v clock ms).
Proof.
  intros Ha Hp Hm Hv. unfold redownload_step. cbv zeta.
  set (a1 := set_sync a _ _ _ _).
  assert (app_inv a1) as Ha1.
  { apply app_inv_sync; [done|apply Forall_app; split; [apply Ha|done]|apply Ha|]. by right; right. }
  destruct (_ >? 500000); [by apply handled_same; auto with chainlite|].
  destruct (negb _); [by apply handled_same; auto with chainlite|].
  destruct (try_replace (chain a1) (cand a1) clock) as [[c err] f] eqn:E.
  case_bool_decide as He.
  - subst err. assert (chain_step (chain a1) c) as Hs by (eapply step_replace; [|exact E]; apply Ha1).
    destruct (handled_changed a1 c (-1) Ha1 Hs) as [Hi Hr]. split; [by apply app_inv_reset|done].
  - apply try_replace_cases in E as [(->&_)|(_&->&_)]; [done| |apply Ha1|apply Ha1].
    rewrite set_chain_same. by apply handled_same; auto with chainlite.
Qed.

Lemma handle_blocks_handled a peer v clock ms : peer ≠ -1 → app_inv a → Forall wf_block v →
  handled a (handle_blocks a peer v clock ms).
Proof.
  intros Hp Ha Hv. unfold handle_blocks.
  destruct (Z.eqb_spec peer (sync_peer a)) as [->|]; [|by apply handled_refl]. cbn [negb].
  pose proof (app_inv_last_ms a ms Ha) as Ha1. cbv zeta.
  destruct (Z.eqb_spec (sync_mode (set_sync_last_ms a ms)) 1) as [Hm|Hm].
  { apply (extend_step_handled (set_sync_last_ms a ms)); try done.
    destruct (ai_sync _ Ha1) as [(_&_&?)|[(_&_&?)|(_&E)]]; try done. by rewrite Hm in E. }
  destruct (Z.eqb_spec (sync_mode (set_sync_last_ms a ms)) 2) as [Hm2|Hm2].
  { by apply (redownload_step_handled (set_sync_last_ms a ms)). }
  by apply handled_same.
Qed.

(** *** Messages *)

Lemma raw_blocks_wf n r v r' : wfr r → raw_blocks n r = Ok (v, r') → Forall wf_block v.
Proof.
  revert r v r'. induction n as [|n IH]; intros r v r' Hr H; cbn [raw_blocks] in H.
  { apply mret_inv in H as [<- _]. constructor. }
  codec_backward H. destruct (Z_of_nat_complete a) as [k ->]; [apply Hwf|]. codec_backward H.
  destruct (block_parse a) as [b|] eqn:Eb; [|done].
  unfold mbind, parser_bind in H. destruct (raw_blocks n _) as [[bs r1]|] eqn:E; [|done].
  apply mret_inv in H as [<- _]. constructor; [|eapply IH; [exact Hr1|exact E]].
  eapply parsed_block; [|done]. apply Hwf0.
Qed.

Lemma blocks_body_wf payload v r' : wf_bytes payload →
  blocks_body (reader_of payload) = Ok (Some v, r') → Forall wf_block v.
Proof.
  intros Hw H. pose proof (wfr_reader_of payload Hw) as Hr. unfold blocks_body in H.
  codec_backward H. case_match; [done|].
  unfold mbind, parser_bind in H. destruct (raw_blocks _ _) as [[bs r1]|] eqn:E; [|done].
  apply mret_inv in H as [[= <-] _]. eapply raw_blocks_wf; [|exact E]. done.
Qed.

Lemma whole_tx_wf payload t : wf_bytes payload → whole_tx payload = Ok t → wf_tx t.
Proof.
  intros Hw H. unfold whole_tx in H. destruct (tx_parse _) as [[u r]|] eqn:E; [|done].
  case_match; [done|]. injection H as ->.
  apply (codec_enc (Codec := tx_codec)) in E as ([? _] & _); [done|by apply wfr_reader_of].
Qed.

Lemma add_handled a t n : app_inv a → wf_tx t → let '(mp, err) := add (pool a) t (st (chain a)) (a_params a) in
  handled a (if bool_decide (err = "") then set_p2p (set_pool a mp) n else set_pool a mp).
Proof.
  intros Ha Ht. destruct (add _ _ _ _) as [mp err] eqn:E.
  assert (app_inv (set_pool a mp)) as Hi.
  { apply app_inv_pool; [done|]. apply add_cases in E as [(_&?&->)|(_&->&_)]; [|apply Ha].
    eapply inserted_inv; [apply Ha|done..]. }
  by apply handled_same; case_match; auto with chainlite.
Qed.

Lemma on_tx_handled a peer payload : app_inv a → wf_bytes payload →
  handled a (on_tx a peer payload).
Proof.
  intros Ha Hw. unfold on_tx. destruct (whole_tx payload) as [t|] eqn:E; [|by apply handled_refl].
  case_match; [by apply handled_refl|].
  pose proof (add_handled a t (broadcast (p2p a) M_TX payload peer) Ha (whole_tx_wf _ _ Hw E)) as H1.
  by destruct (add _ _ _ _).
Qed.

Lemma on_block_handled a peer payload clock ms : peer ≠ -1 → app_inv a → wf_bytes payload →
  handled a (on_block a peer payload clock ms).
Proof.
  intros Hp Ha Hw. unfold on_block. destruct (block_parse payload) as [b|] eqn:E; [|by apply handled_refl].
  case_match; [by apply handled_refl|]. destruct (connect_block _ _ _) as [c err] eqn:Ec.
  case_bool_decide as He.
  - subst err. assert (chain_step (chain a) c) as Hs.
    { econstructor; [|done]. by eapply parsed_block. }
    destruct (handled_changed a c peer Ha Hs) as [Hi Hr]. split; [by apply app_inv_p2p|done].
  - rewrite (connect_refused _ _ _ _ _ (ai_chain a Ha) Ec He), set_chain_same.
    case_match; [by apply maybe_sync_handled|by apply handled_refl].
Qed.

Lemma on_get_blocks_handled a peer payload : app_inv a → handled a (on_get_blocks a peer payload).
Proof.
  intros Ha. unfold on_get_blocks. destruct (get_blocks_fields _) as [[[start cnt] r]|];
    [|by apply handled_refl]. by apply handled_same; auto with chainlite.
Qed.

Lemma on_msg_handled a peer type payload clock ms : peer ≠ -1 → app_inv a → wf_bytes payload →
  handled a (on_msg a peer type payload clock ms).
Proof.
  intros Hp Ha Hw. unfold on_msg. repeat case_match.
  - by apply maybe_sync_handled.
  - by apply on_get_blocks_handled.
  - unfold on_blocks. destruct (blocks_body _) as [[[v|] r]|] eqn:E; try by apply handled_refl.
    apply handle_blocks_handled; [done..|by eapply blocks_body_wf].
  - by apply on_tx_handled.
  - by apply on_block_handled.
  - by apply handled_refl.
Qed.

(** *** Mining and RPC *)

Lemma connect_handled a b now n : app_inv a → wf_block b →
  let '(c, err) := connect_block (chain a) b now in
  handled a (if bool_decide (err = "")
             then set_p2p (announce_tip (post_chain_change (set_chain a c)) (-1)) n
             else set_chain a c).
Proof.
  intros Ha Hb. destruct (connect_block _ _ _) as [c err] eqn:E. case_bool_decide as He.
  - subst err. assert (chain_step (chain a) c) as Hs by by econstructor.
    destruct (handled_changed a c (-1) Ha Hs) as [Hi Hr]. split; [by apply app_inv_p2p|done].
  - rewrite (connect_refused _ _ _ _ _ (ai_chain a Ha) E He), set_chain_same. by apply handled_refl.
Qed.

Lemma submit_mined_handled a b seq clock : app_inv a → wf_block b →
  handled a (submit_mined a b seq clock).
Proof.
  intros Ha Hb. unfold submit_mined. case_match; [by apply handled_refl|].
  destruct (connect_block _ _ _) as [c err] eqn:E.
  pose proof (connect_handled a b (clock 0%nat) (broadcast (p2p (announce_tip (post_chain_change (set_chain a c)) (-1)))
    M_BLOCK (block_serialize b) (-1)) Ha Hb) as H1. by rewrite E in H1.
Qed.

Lemma submit_work_handled a h clock : app_inv a → wf_header h →
  handled a (submit_work a h clock).1.
Proof.
  intros Ha Hh. unfold submit_work. destruct (work_cache a !! h_merkle h) as [txs|] eqn:Et;
    [|by apply handled_refl].
  assert (wf_block (mkBlock h txs)) as Hb by (split; [done|by eapply ai_cache]).
  destruct (connect_block _ _ _) as [c err] eqn:E.
  pose proof (connect_handled a (mkBlock h txs) (clock 0%nat)
    (broadcast (p2p (announce_tip (post_chain_change (set_chain a c)) (-1)))
    M_BLOCK (block_serialize (mkBlock h txs)) (-1)) Ha Hb) as H1. rewrite E in H1.
  by case_bool_decide.
Qed.

Lemma submit_tx_handled a raw : app_inv a → wf_bytes raw → handled a (submit_tx a raw).1.
Proof.
  intros Ha Hw. unfold submit_tx. destruct (whole_tx raw) as [t|] eqn:E; [|by apply handled_refl].
  case_match; [by apply handled_refl|].
  pose proof (add_handled a t (broadcast (p2p a) M_TX raw (-1)) Ha (whole_tx_wf _ _ Hw E)) as H1.
  destruct (add _ _ _ _). by case_bool_decide.
Qed.

Lemma get_work_handled a payto now : app_inv a → wf_array 20 payto → in_width 64 now →
  handled a (get_work a payto now).1.
Proof.
  intros Ha Hto Hnow. apply handled_same; [|done]. cbn [fst get_work].
  destruct (collect_pickable (chain a) (pool a)) as (Hw & _).
  { rewrite (ai_same a Ha). apply Ha. }
  rewrite (ai_same a Ha) in Hw. destruct Ha. split; try done. cbn [work_cache set_work_cache a_params].
  intros m txs [[<- <-]|[_ Hm]]%lookup_insert_Some.
  - split; [apply (wf_merkle_root _ (wf_txids _))|].
    constructor; [|done]. apply wf_coinbase; [done..|by apply wrap_in_width].
  - case_match; [done|by eauto].
Qed.

Lemma periodic_handled a tick ms : app_inv a → handled a (periodic a tick ms).
Proof.
  intros Ha. unfold periodic. cbv zeta.
  apply handled_same; repeat case_match; by auto with chainlite.
Qed.

Lemma on_gone_handled a peer : app_inv a → handled a (on_gone a peer).
Proof. intros Ha. unfold on_gone. apply handled_same; case_match; by auto with chainlite. Qed.

Lemma on_ready_handled a peer : app_inv a → handled a (on_ready a peer).
Proof. intros Ha. by apply handled_same; [apply app_inv_p2p|]. Qed.
End handlers.

(** ** The transition system *)

Section system.
Context `{HF : HashFn} `{CN : Cng} {D : Type} `{DB : Sqlite D}.
Implicit Types a : App D.
Implicit Types c : Chain D.

(** One handler. [step_net] is anything the network thread does to the links. *)
Inductive step a : App D → Prop :=
  | step_msg peer type payload clock ms :
      peer ≠ -1 → wf_bytes payload → step a (on_msg a peer type payload clock ms)
  | step_ready peer : step a (on_ready a peer)
  | step_gone peer : step a (on_gone a peer)
  | step_net n : step a (set_p2p a n)
  | step_mined b seq clock : wf_block b → step a (submit_mined a b seq clock)
  | step_work payto now : wf_array 20 payto → in_width 64 now → step a (get_work a payto now).1
  | step_submit_work h clock : wf_header h → step a (submit_work a h clock).1
  | step_submit raw : wf_bytes raw → step a (submit_tx a raw).1
  | step_tick tick ms : step a (periodic a tick ms).

Lemma step_handled a a' : app_inv a → step a a' → handled a a'.
Proof.
  intros Ha [].
  - by apply on_msg_handled.
  - by apply on_ready_handled.
  - by apply on_gone_handled.
  - by apply handled_same; [apply app_inv_p2p|].
  - by apply submit_mined_handled.
  - by apply get_work_handled.
  - by apply submit_work_handled.
  - by apply submit_tx_handled.
  - by apply periodic_handled.
Qed.

Lemma steps_handled a a' : app_inv a → rtc step a a' → handled a a'.
Proof.
  intros Ha H. revert Ha. induction H as [a|a1 a2 a3 Hs _ IH]; intros Ha; [by apply handled_refl|].
  pose proof (step_handled _ _ Ha Hs) as H12. eapply handled_trans; [done|]. apply IH, H12.
Qed.

(** *** The start *)

(** Stored rows are byte strings. *)
Definition rows_wf : Prop := ∀ (d : D) raws, sql_select d = Some raws → Forall wf_bytes raws.

Lemma init_db_inv p d clock c err : rows_wf → init_db (Chain_new p) d clock = (c, err) →
  chain_inv c ∧ params c = p ∧ persisting c = true.
Proof.
  intros Hw H. unfold init_db in H. destruct (exec_all schema_texts d) as [d1 ok].
  destruct (chain_inv_new (D := D) p) as [H1 H2 H3 H4 H5 H6].
  destruct ok; cbn [negb] in H; [|injection H as <- <-; by split_and!; [split|..]].
  destruct (sql_select d1) as [raws|] eqn:Er; [|injection H as <- <-; by split_and!; [split|..]].
  destruct (load_loop _ raws clock 0) as [c1 n] eqn:El.
  apply load_loop_cases in El as (Hc1 & Ep & _); [|by split|done|by eapply Hw].
  destruct Hc1. case_match; injection H as <- <-; split_and!; try done; by split.
Qed.

Lemma init_inv p database clock c : wf_params p → rows_wf →
  init (Chain_new p) database clock = (c, "") →
  chain_inv c ∧ params c = p ∧ blocks c ≠ [] ∧ persisting c = true.
Proof.
  intros Hp Hw H. unfold init in H.
  destruct (match database with Some d => _ | None => _ end) as [c1 err] eqn:E.
  assert (chain_inv c1 ∧ params c1 = p ∧ persisting c1 = true) as (Hc1 & Ep & Eps).
  { destruct database as [d|]; [by eapply init_db_inv|]. injection E as <- <-.
    destruct (chain_inv_new (D := D) p). by split_and!; [split|..]. }
  case_bool_decide; cbn [negb] in H; [|by injection H as -> ->].
  case_bool_decide as Hb; [|injection H as <-; done].
  destruct (connect_block c1 _ _) as [c2 err2] eqn:Ec.
  case_bool_decide as He; cbn [negb] in H; [|done]. injection H as <-. subst err2.
  apply connect_block_ok in Ec as (_ & _ & ? & ? & Eb & ? & _);
    [|done|rewrite Ep; by apply wf_make_genesis].
  split_and!; try congruence. rewrite Eb. by destruct (blocks c1).
Qed.

Lemma init_keys p database clock c err : wf_params p → rows_wf →
  init (Chain_new p) database clock = (c, err) → addr_keys (st c).
Proof.
  intros Hp Hw H. unfold init in H.
  destruct (match database with Some d => _ | None => _ end) as [c1 e] eqn:E.
  assert (addr_keys (st c1) ∧ params c1 = p) as [Hc1 Ep].
  { destruct database as [d|]; [|simplify_eq; split; [apply addr_keys_empty|done]].
    split; [by eapply addr_keys_init_db|by eapply init_db_inv]. }
  case_bool_decide; cbn [negb] in H; [|by simplify_eq]. case_bool_decide; [|by simplify_eq].
  destruct (connect_block c1 _ _) as [c2 e2] eqn:Ec.
  apply addr_keys_connect in Ec; [|done|rewrite Ep; by apply wf_make_genesis]. by case_match; simplify_eq.
Qed.

Lemma start_inv p database n addr mine hb clock a : wf_params p → rows_wf → wf_array 20 addr →
  app_start p database n addr mine hb clock = Ok a → app_inv a.
Proof.
  intros Hp Hw Hadr H. unfold app_start in H.
  destruct (init (Chain_new p) database clock) as [c err] eqn:E.
  case_bool_decide; [|done]. subst err. injection H as <-.
  destruct (init_inv _ _ _ _ Hp Hw E) as (? & ? & ? & _).
  split; cbn; try done; [apply pool_inv_empty|by eapply init_keys|by left].
Qed.

(** *** Types *)

(** A value of [int]. *)
Definition c_int (x : Z) : Prop := - 2 ^ 31 ≤ x < 2 ^ 31.

#[export] Instance c_int_dec x : Decision (c_int x).
Proof. unfold c_int. apply _. Defined.

(** A step whose arguments are of the types that they have in the code: the numbers of links
    are [int], message types bytes, clocks and counters of 64 bits. *)
Inductive typed_step a : App D → Prop :=
  | typed_msg peer type payload clock ms : peer ≠ -1 → c_int peer → in_width 8 type → wf_bytes payload →
      (∀ i, in_width 64 (clock i)) → in_width 64 ms → typed_step a (on_msg a peer type payload clock ms)
  | typed_ready peer : c_int peer → typed_step a (on_ready a peer)
  | typed_gone peer : c_int peer → typed_step a (on_gone a peer)
  | typed_net n : typed_step a (set_p2p a n)
  | typed_mined b seq clock : wf_block b → in_width 64 seq → (∀ i, in_width 64 (clock i)) →
      typed_step a (submit_mined a b seq clock)
  | typed_work payto now : wf_array 20 payto → in_width 64 now → typed_step a (get_work a payto now).1
  | typed_submit_work h clock : wf_header h → (∀ i, in_width 64 (clock i)) → typed_step a (submit_work a h clock).1
  | typed_submit raw : wf_bytes raw → typed_step a (submit_tx a raw).1
  | typed_tick tick ms : c_int tick → in_width 64 ms → typed_step a (periodic a tick ms).

Lemma typed_step_step a a' : typed_step a a' → step a a'.
Proof. intros []; by constructor. Qed.

Lemma typed_steps a a' : rtc typed_step a a' → rtc step a a'.
Proof. intros H. eapply rtc_subrel; [|exact H]. intros ??. apply typed_step_step. Qed.

(** The link and the clock that the synchronisation keeps are arguments of a step. *)
Definition sync_typed a : Prop := c_int (sync_peer a) ∧ in_width 64 (sync_last_ms a).

Lemma idle_typed : c_int (-1).
Proof. done. Qed.

Lemma reset_typed a : sync_typed a → sync_typed (reset_sync a).
Proof. intros [_ H]. split; [apply idle_typed|exact H]. Qed.

Lemma request_typed a peer start ms : sync_typed a → in_width 64 ms → sync_typed (request_blocks a peer start ms).
Proof. intros [H _] Hms. by split. Qed.

Lemma maybe_sync_typed a peer ms : sync_typed a → c_int peer → in_width 64 ms → sync_typed (maybe_sync a peer ms).
Proof. intros Ha Hp Hms. unfold maybe_sync. repeat case_match; try done. Qed.

Lemma extend_typed a peer v clock ms : sync_typed a → in_width 64 ms → sync_typed (extend_step a peer v clock ms).
Proof.
  intros Ha Hms. unfold extend_step. destruct (extend_loop _ _ _ _) as [[c okc] err]. cbv zeta.
  set (a1 := if (0 <? okc)%nat then _ else _).
  assert (sync_typed a1) as H1 by (subst a1; by case_match). clearbody a1.
  repeat case_match; by first [apply request_typed | apply reset_typed | done].
Qed.

Lemma redownload_typed a peer v clock ms : sync_typed a → in_width 64 ms →
  sync_typed (redownload_step a peer v clock ms).
Proof.
  intros Ha Hms. unfold redownload_step. cbv zeta. case_match; [by apply reset_typed|].
  case_match; [by apply request_typed|]. destruct (try_replace _ _ _) as [[c err] f].
  apply reset_typed. by destruct (bool_decide (err = "")), Ha.
Qed.

Lemma on_msg_typed a peer type payload clock ms : sync_typed a → c_int peer → in_width 64 ms →
  sync_typed (on_msg a peer type payload clock ms).
Proof.
  intros Ha Hp Hms. unfold on_msg. repeat case_match; [..|done].
  - by apply maybe_sync_typed.
  - unfold on_get_blocks. by repeat case_match.
  - unfold on_blocks. repeat case_match; try done. unfold handle_blocks.
    assert (sync_typed (set_sync_last_ms a ms)) as Ha1 by (by destruct Ha).
    repeat case_match; [done|by apply extend_typed|by apply redownload_typed|done].
  - unfold on_tx. by repeat case_match.
  - unfold on_block. repeat case_match; try done. by apply maybe_sync_typed.
Qed.

Lemma typed_step_sync a a' : typed_step a a' → sync_typed a → sync_typed a'.
Proof.
  intros Hs Ha. destruct Hs.
  - by apply on_msg_typed.
  - done.
  - unfold on_gone. case_match; [by apply reset_typed|done].
  - done.
  - unfold submit_mined. by repeat case_match.
  - done.
  - unfold submit_work. by repeat case_match.
  - unfold submit_tx. by repeat case_match.
  - unfold periodic. repeat case_match; by first [apply reset_typed | done].
Qed.

Lemma typed_steps_sync a a' : rtc typed_step a a' → sync_typed a → sync_typed a'.
Proof. induction 1 as [|a1 a2 a3 Hs _ IH]; [done|]. intros Ha. by eapply IH, typed_step_sync. Qed.

Lemma start_typed p database n addr mine hb clock a :
  app_start p database n addr mine hb clock = Ok a → sync_typed a.
Proof. unfold app_start. destruct (init _ _ _) as [c err]. case_match; [done|]. by intros [= <-]. Qed.

(** The ranges of the C++ types of the members of [Chain], [Mempool] and [App]. *)
Record typed a : Prop := {
  ty_params : wf_params (a_params a);
  ty_blocks : Forall wf_block (blocks (chain a));
  ty_hashes : Forall (wf_array 32) (hashes (chain a));
  ty_st x v : st (chain a) !! x = Some v → wf_array 20 x ∧ in_width 64 (balance v) ∧ in_width 64 (nonce v);
  ty_txidx id v : txidx (chain a) !! id = Some v → wf_array 32 id ∧ in_width 32 v.1 ∧ in_width 32 v.2;
  ty_work : in_width 64 (work (chain a));
  ty_height : in_width 64 (height (chain a));
  ty_pool k t : m (pool a) !! k = Some t → wf_array 20 k.1 ∧ in_width 64 k.2 ∧ wf_tx t;
  ty_ids id : id ∈ ids (pool a) → wf_array 32 id;
  ty_miner_addr : wf_array 20 (miner_addr a);
  ty_tip_seq : in_width 64 (tip_seq a);
  ty_sync_mode : sync_mode a ∈ [0; 1; 2];
  ty_sync_peer : c_int (sync_peer a);
  ty_sync_extend_got : in_width 64 (sync_extend_got a);
  ty_sync_last_ms : in_width 64 (sync_last_ms a);
  ty_cand : Forall wf_block (cand a);
  ty_work_cache mk txs : work_cache a !! mk = Some txs → wf_array 32 mk ∧ Forall wf_tx txs;
}.

Lemma height_width c : chain_inv c → in_width 64 (height c).
Proof.
  intros Hc. unfold height, tip. destruct (last (blocks c)) as [b|] eqn:E; [|done].
  pose proof (ci_wf c Hc) as Hw. rewrite Forall_forall in Hw. apply last_Some_elem_of in E.
  apply (wf_h_height _ (proj1 (Hw _ E))).
Qed.

Lemma app_inv_typed a : app_inv a → sync_typed a → typed a.
Proof.
  intros Ha [Hsp Hms]. pose proof (ai_chain a Ha) as Hc. split; try exact Hsp; try exact Hms; try apply Ha.
  - rewrite (ci_hashes _ Hc). apply Forall_fmap, Forall_true. intros b. apply wf_header_hash.
  - intros x v Hx. split; [apply (ai_keys a Ha); by exists v|].
    assert (wf_state (st (chain a))) as Hw by (rewrite (ci_st _ Hc); apply wf_ledger). by apply (Hw x v).
  - intros id v Hv. rewrite (ci_txidx _ Hc) in Hv. apply index_of_sound in Hv as (b & j & t & _ & _ & -> & ->).
    split_and!; [apply wf_txid|by apply wrap_in_width..].
  - rewrite (ci_work _ Hc). by apply wrap_in_width.
  - by apply height_width.
  - intros k t Hk. destruct (pi_entry _ _ (ai_pool a Ha) k t Hk) as [-> Hw _ _ _].
    split_and!; [apply wf_addr_of|apply Hw|done].
  - intros id (k & t & _ & <-)%(pi_ids _ _ (ai_pool a Ha)). apply wf_txid.
  - rewrite !elem_of_cons. destruct (ai_sync a Ha) as [(_&E&_)|[(_&E&_)|(_&E)]]; auto.
Qed.

(** *** Work *)

Lemma chain_work_next p bs b : 0 ≤ p_bits p → chain_work p bs < chain_work p (bs ++ [b]).
Proof.
  intros Hp. rewrite chain_work_snoc. pose proof (work_of_range (p_bits p) Hp). case_match; lia.
Qed.

Lemma chain_work_nonneg p bs : 0 ≤ p_bits p → 0 ≤ chain_work p bs.
Proof.
  intros Hp. unfold chain_work. pose proof (work_of_range (p_bits p) Hp). case_match; nia.
Qed.

Lemma chain_step_work c c' : chain_step c c' → chain_inv c → 0 ≤ p_bits (params c) →
  chain_work (params c) (blocks c) < 2 ^ 64 → chain_work (params c) (blocks c') < 2 ^ 64 →
  work c < work c'.
Proof.
  intros Hs Hc Hp H1 H2. destruct (chain_step_inv _ _ Hs Hc) as (Hc' & Ep & _).
  pose proof (chain_work_nonneg _ (blocks c) Hp). pose proof (chain_work_nonneg _ (blocks c') Hp).
  rewrite (ci_work c Hc), (ci_work c' Hc'), Ep, !wrap_small by (unfold in_width; lia).
  destruct Hs as [c b now c' Hb Hx|c bs clock c' f Hb Hx].
  - apply connect_block_ok in Hx as (_ & _ & _ & _ & -> & _); [|done..]. by apply chain_work_next.
  - apply try_replace_cases in Hx as [(_&(_&_&_&Hlt)&_&_&E&_)|(?&_)]; [|done..].
    rewrite <- E, (ci_work c Hc), !wrap_small in Hlt by (unfold in_width; lia). done.
Qed.
End system.

(** ** Theorems *)

Section theorems.
Context `{HF : HashFn} `{CN : Cng} {D : Type} `{DB : Sqlite D}.

(** C2: every reachable state of a node is in order. From the start with any database
    whose rows are byte strings, through any sequence of messages, link events, mined
    blocks, requests and timer ticks in any order, the chain is valid from genesis on
    with the members that belong to it, the pool keeps its invariant, the
    synchronisation state machine is in one of its three states, and no account holds
    more than was minted. *)
Theorem reachable_safe p database n addr mine hb clock (a0 a : App D) :
  wf_params p → rows_wf (D := D) → wf_array 20 addr →
  app_start p database n addr mine hb clock = Ok a0 → rtc step a0 a →
  chain_valid p (blocks (chain a)) ∧ blocks (chain a) ≠ [] ∧ chain_inv (chain a) ∧
  pool_inv p (pool a) ∧ sync_ok a ∧
  (p_reward p * Z.of_nat (pred (length (blocks (chain a)))) < 2 ^ 64 →
     ∀ x, balance (acct (st (chain a)) x) ≤ p_reward p * Z.of_nat (pred (length (blocks (chain a))))).
Proof.
  intros Hp Hw Hadr Hst Hrun. pose proof (start_inv _ _ _ _ _ _ _ _ Hp Hw Hadr Hst) as H0.
  destruct (steps_handled _ _ H0 Hrun) as [Ha Hc].
  destruct (chain_steps_inv _ _ Hc (ai_chain _ H0) (ai_nonempty _ H0)) as (_ & Ep & _).
  assert (params (chain a0) = p) as E0.
  { rewrite (ai_same _ H0). unfold app_start in Hst. destruct (init _ _ _) as [c err].
    case_match; [done|]. by injection Hst as <-. }
  rewrite E0 in Ep. pose proof (ai_same _ Ha) as Es. rewrite Ep in Es.
  split_and!; try apply Ha.
  - rewrite <- Ep. apply Ha.
  - rewrite Es. apply Ha.
  - intros Hs x. pose proof (ai_chain _ Ha) as Hca. pose proof Hp as (_ & _ & [Hr _] & _).
    rewrite (ci_st _ Hca x). rewrite <- Ep in Hs |- *.
    rewrite <- (valid_supply (params (chain a)) (blocks (chain a))); try apply Hca; try done.
    + apply balance_le_supply, wf_ledger.
    + by rewrite Ep.
Qed.

(** C20: a node stays within its C++ types. In every state that a node reaches from its
    start with any database of byte strings, through any steps whose arguments are of their
    types, every member of its chain, pool, synchronisation and work cache holds a value of
    its declared type: blocks, hashes and ids of the right sizes, accounts of 20-byte
    addresses with 64-bit balances and nonces, index places of 32 bits, work, height,
    counters and the clock of 64 bits, the number of the link an [int]. *)
Theorem reachable_typed p database n addr mine hb clock (a0 a : App D) :
  wf_params p → rows_wf (D := D) → wf_array 20 addr →
  app_start p database n addr mine hb clock = Ok a0 → rtc typed_step a0 a → typed a.
Proof.
  intros Hp Hw Hadr Hst Hrun. apply app_inv_typed.
  - by apply (steps_handled a0); [eapply start_inv|apply typed_steps].
  - by eapply typed_steps_sync, start_typed.
Qed.

(** C21: the chain of a node only gets better. Every handler leaves the chain as it was
    or changes it by connecting valid blocks and adopting chains of more work, and each
    of these changes strictly increases the accumulated work, as long as the work of
    the chains fits 64 bits. *)
Theorem work_increases (a a' : App D) : app_inv a → step a a' →
  rtc chain_step (chain a) (chain a') ∧
  ∀ c1 c2, rtc chain_step (chain a) c1 → chain_step c1 c2 →
    chain_work (a_params a) (blocks c1) < 2 ^ 64 →
    chain_work (a_params a) (blocks c2) < 2 ^ 64 → work c1 < work c2.
Proof.
  intros Ha Hs. destruct (step_handled _ _ Ha Hs) as [_ Hr]. split; [done|].
  intros c1 c2 Hc1 Hc H1 H2. destruct (ai_params a Ha) as (_ & [Hb _] & _).
  destruct (chain_steps_inv _ _ Hc1 (ai_chain a Ha) (ai_nonempty a Ha)) as (Hi & Ep & _).
  rewrite <- (ai_same a Ha), <- Ep in *. by apply (chain_step_work _ _ Hc Hi).
Qed.

(** C12: the database follows the chain. When a chain that is kept in a database
    connects a block or adopts a candidate, the [blocks] table holds the serialized
    blocks of the new chain under their heights, if it held those of the old chain
    (unless two of the strings hashed for the two chains collide). *)
Theorem database_follows_chain `{DS : !SqliteSpec D} (c c' : Chain D) :
  chain_step c c' → wf_params (params c) → chain_inv c → db_ok c → persisting c = true →
  size (blocks c) < 2 ^ 63 → size (blocks c') < 2 ^ 63 →
  db_ok c' ∨ collision (chain_pre (params c) (blocks c) ++ chain_pre (params c) (blocks c')).
Proof.
  intros Hs Hp Hc Hd Hps H1 H2. destruct Hs as [c b now c' Hb H|c bs clock c' f Hb H].
  - assert (blocks c' = blocks c ++ [b]) as E by by apply connect_block_ok in H as (_&_&_&_&?&_).
    eapply connect_block_stored; try done. rewrite E. by apply list_subseteq_app_r.
  - assert (blocks c' = bs) as E.
    { by apply try_replace_cases in H as [(_&_&_&_&?&_)|(?&_)]. }
    rewrite E in H2 |- *.
    eapply try_replace_stored; try done; [by apply list_subseteq_app_l|by apply list_subseteq_app_r].
Qed.
End theorems.
