(* ===== verification/Mining.v ===== *)
(** * Mining: a turn of [miner_thread] of [src/node_impl.h] among the other threads

    The miner builds a candidate under the mutex, searches for a nonce without it, and
    takes it again to connect the block. What happens in between it sees in [tip_seq] only.
    [paced] is what every handler does with the chain and that counter. *)

From S2P Require Import Prelude Hex Text Json Serial Sha256 Hash Crypto Merkle Tx Ledger Store Chain Consensus Recovery Mempool Miner Net Node Safety.

Local Open Scope Z_scope.

(** More rounds than the search can take. *)
Definition MINE_ROUNDS : nat := Z.to_nat 10995118.

Section turn.
Context `{HF : HashFn} `{CN : Cng} {D : Type} `{DB : Sqlite D}.
Implicit Types a : App D.

(** A turn up to the submission: the block and the [tip_seq] of its candidate. [moved]: the
    tip moved during the delay; [stale]: it moved until the search was over. *)
Definition miner_turn a (now1 now2 : Z) (moved : bool) (nonce : Z) (go : nat → bool) (stale : bool)
    : option (Block * Z) :=
  let seq := tip_seq a in
  match prepare_block a now1 now2 with
  | None => None
  | Some cand =>
      if moved then None
      else
        match mine MINE_ROUNDS cand nonce go with
        | None => None
        | Some b => if stale then None else Some (b, seq)
        end
  end.

(** ** The pace of the chain *)

(** The chain is as it was, or the counter went on by one. *)
Definition paced a a' : Prop :=
  chain a' = chain a ∧ tip_seq a' = tip_seq a ∨ tip_seq a' = u64 (tip_seq a + 1).

Lemma paced_refl a : paced a a.
Proof. by left. Qed.

(** The same chain and counter. *)
Definition same_tip a a' : Prop := chain a' = chain a ∧ tip_seq a' = tip_seq a.

Lemma paced_same a a1 a' : paced a a1 → same_tip a1 a' → paced a a'.
Proof. unfold paced. intros H [-> ->]. exact H. Qed.

Lemma paced_changed a c n : paced a (set_p2p (post_chain_change (set_chain a c)) n).
Proof. by right. Qed.

Lemma paced_connect a b now n : app_inv a →
  let '(c, err) := connect_block (chain a) b now in
  paced a (if bool_decide (err = "") then set_p2p (post_chain_change (set_chain a c)) n else set_chain a c).
Proof.
  intros Ha. destruct (connect_block _ _ _) as [c err] eqn:E. case_bool_decide; [apply paced_changed|].
  rewrite (connect_refused _ _ _ _ _ (ai_chain a Ha) E) by done. by left.
Qed.

Lemma maybe_sync_tip a peer ms : same_tip a (maybe_sync a peer ms).
Proof. unfold maybe_sync. by repeat case_match. Qed.

Lemma extend_step_paced a peer v clock ms : app_inv a → Forall wf_block v → paced a (extend_step a peer v clock ms).
Proof.
  intros Ha Hv. unfold extend_step. destruct (extend_loop (chain a) v clock 0) as [[c okc] err] eqn:E.
  apply extend_loop_steps in E as (_ & _ & Hsame); [|apply Ha|done]. cbv zeta.
  set (a1 := if (0 <? okc)%nat then _ else _).
  assert (paced a a1) as H1.
  { subst a1. destruct okc as [|okc]; [left; by rewrite Hsame|by right]. }
  repeat case_match; by eapply paced_same.
Qed.

Lemma redownload_step_paced a peer v clock ms : app_inv a → Forall wf_block v →
  paced a (redownload_step a peer v clock ms).
Proof.
  intros Ha Hv. unfold redownload_step. cbv zeta.
  destruct (_ >? 500000); [by left|]. destruct (negb _); [by left|].
  destruct (try_replace _ _ _) as [[c err] f] eqn:E. case_bool_decide as He; [by right|].
  apply try_replace_cases in E as [(->&_)|(_&->&_)]; [done|by left|apply Ha|].
  apply Forall_app. split; [apply Ha|done].
Qed.

Lemma handle_blocks_paced a peer v clock ms : app_inv a → Forall wf_block v →
  paced a (handle_blocks a peer v clock ms).
Proof.
  intros Ha Hv. unfold handle_blocks. pose proof (app_inv_last_ms a ms Ha) as Ha1.
  repeat case_match; [by left| | |by left].
  - by apply (extend_step_paced (set_sync_last_ms a ms)).
  - by apply (redownload_step_paced (set_sync_last_ms a ms)).
Qed.

Lemma on_block_paced a peer payload clock ms : app_inv a → paced a (on_block a peer payload clock ms).
Proof.
  intros Ha. unfold on_block. destruct (block_parse payload) as [b|]; [|by left]. case_match; [by left|].
  destruct (connect_block _ _ _) as [c err] eqn:E. cbv zeta. case_bool_decide; [by right|].
  rewrite (connect_refused _ _ _ _ _ (ai_chain a Ha) E), set_chain_same by done.
  case_match; [left; apply maybe_sync_tip|by left].
Qed.

Lemma on_msg_paced a peer type payload clock ms : app_inv a → wf_bytes payload →
  paced a (on_msg a peer type payload clock ms).
Proof.
  intros Ha Hw. unfold on_msg. repeat case_match.
  - left. apply maybe_sync_tip.
  - left. unfold on_get_blocks. by repeat case_match.
  - unfold on_blocks. destruct (blocks_body _) as [[[v|] r]|] eqn:E; try by left.
    apply handle_blocks_paced; [done|by eapply blocks_body_wf].
  - left. unfold on_tx. by repeat case_match.
  - by apply on_block_paced.
  - by left.
Qed.

Lemma submit_mined_paced a b seq clock : app_inv a → paced a (submit_mined a b seq clock).
Proof.
  intros Ha. unfold submit_mined. case_match; [by left|].
  destruct (connect_block _ _ _) as [c err] eqn:E. cbv zeta. case_bool_decide; [by right|].
  rewrite (connect_refused _ _ _ _ _ (ai_chain a Ha) E) by done. by left.
Qed.

Lemma submit_work_paced a h clock : app_inv a → paced a (submit_work a h clock).1.
Proof.
  intros Ha. unfold submit_work. destruct (work_cache a !! h_merkle h); [|by left].
  destruct (connect_block _ _ _) as [c err] eqn:E. cbv zeta. case_bool_decide; [by right|].
  rewrite (connect_refused _ _ _ _ _ (ai_chain a Ha) E) by done. by left.
Qed.

Lemma step_paced a a' : app_inv a → step a a' → paced a a'.
Proof.
  intros Ha []; [by apply on_msg_paced|by left|..].
  - left. unfold on_gone. by case_match.
  - by left.
  - by apply submit_mined_paced.
  - by left.
  - by apply submit_work_paced.
  - left. unfold submit_tx. by repeat case_match.
  - left. unfold periodic. by repeat case_match.
Qed.

(** After [n] steps the counter has gone on by [k], and the chain is the same if by nothing. *)
Lemma steps_paced n a a' : app_inv a → nsteps step n a a' →
  app_inv a' ∧ ∃ k, 0 ≤ k ≤ Z.of_nat n ∧ u64 (tip_seq a') = u64 (tip_seq a + k) ∧ (k = 0 → chain a' = chain a).
Proof.
  intros Ha H. revert Ha. induction H as [a|n a1 a2 a3 Hs _ IH]; intros Ha.
  - split; [done|]. exists 0. split_and!; [lia|lia|f_equal; lia|done].
  - destruct (step_handled _ _ Ha Hs) as [Ha2 _]. destruct (IH Ha2) as (Ha3 & k & Hk & E & Hc). split; [done|].
    destruct (step_paced _ _ Ha Hs) as [[E1 E2]|E2].
    + exists k. split_and!; [lia|lia|by rewrite E, E2|]. intros K. by rewrite Hc, E1.
    + exists (k + 1). split_and!; [lia|lia| |lia]. rewrite E, E2, wrap_add_l. f_equal. lia.
Qed.

(** The counter shows every change, if there were fewer than 2^64. *)
Lemma same_seq n a a' : app_inv a → nsteps step n a a' → Z.of_nat n < 2 ^ 64 → tip_seq a' = tip_seq a →
  chain a' = chain a.
Proof.
  intros Ha H Hn E. destruct (steps_paced n a a' Ha H) as (_ & k & Hk & Eu & Hc). apply Hc.
  pose proof (ai_counts a Ha) as [[H0 H1] _]. rewrite E in Eu. unfold u64, wrap in Eu.
  rewrite (Z.mod_small (tip_seq a)) in Eu by lia. destruct (decide (tip_seq a + k < 2 ^ 64)) as [Hlt|Hge].
  - rewrite Z.mod_small in Eu by lia. lia.
  - assert ((tip_seq a + k) mod 2 ^ 64 = tip_seq a + k - 2 ^ 64) as E'.
    { symmetry. apply (Z.mod_unique _ _ 1); lia. }
    lia.
Qed.

Lemma wf_candidate_header a now : app_inv a → in_width 64 now →
  wf_header (b_h (template (chain a) (a_params a) (miner_addr a)
    (collect (pool a) (st (chain a)) (a_params a) (u64 (height (chain a) + 1))) now)).
Proof.
  intros [Hp Hs Hc _ Hpool Ht] Hnow. rewrite <- Hs in *.
  refine (proj1 (wf_sealed (D := D) _ _ _ _ 0 Hp Hc Ht Hnow _ _)); [done|]. by apply collect_pickable.
Qed.

(** The block of a turn is the sealed template of the snapshot. *)
Lemma miner_turn_block a now1 now2 moved nonce go stale b seq : app_inv a → in_width 64 nonce → in_width 64 now2 →
  miner_turn a now1 now2 moved nonce go stale = Some (b, seq) →
  seq = tip_seq a ∧ ∃ n, in_width 64 n ∧
    b = sealed (template (chain a) (a_params a) (miner_addr a)
                  (collect (pool a) (st (chain a)) (a_params a) (u64 (height (chain a) + 1))) now2) n ∧
    pow_ok (block_hash b) (p_bits (a_params a)) = true.
Proof.
  intros Ha Hn Hnow H. unfold miner_turn, prepare_block, miner_candidate in H. cbv zeta in H.
  destruct (mine_on a); [|done]. destruct (_ || _); [|done].
  destruct moved; [done|].
  destruct (mine _ _ _ _) as [b'|] eqn:E; [|done]. destruct stale; [done|]. injection H as <- <-.
  split; [done|]. apply mine_search in E as (n & ? & -> & Hp); [|by apply wf_candidate_header|done].
  by exists n.
Qed.

(** A search whose first attempt is good. *)
Lemma search_at_once n h bits nonce : (0 < n)%nat → wf_header h → good_nonce h bits nonce = true →
  search n (header_enc h) bits nonce = (true, nonce).
Proof.
  intros Hn Hh Hg. destruct n as [|n]; [lia|]. cbn [search]. rewrite patch_header, <- header_hash_enc by done.
  unfold good_nonce in Hg. by rewrite Hg.
Qed.

Lemma mine_at_once fuel cand nonce go : (0 < fuel)%nat → wf_header (b_h cand) → go 0%nat = true →
  good_nonce (b_h cand) (h_bits (b_h cand)) nonce = true → mine fuel cand nonce go = Some (sealed cand nonce).
Proof.
  intros Hf Hh Hgo Hg. destruct fuel as [|fuel]; [lia|]. unfold mine. cbn [mine_loop]. rewrite Hgo, header_serialize_enc.
  cbn [negb]. rewrite search_at_once by (done || lia). rewrite Z2Nat.id by lia. reflexivity.
Qed.

(** The chain of the snapshot accepts it. *)
Lemma mined_candidate a now n now' : app_inv a → in_width 64 n → in_width 64 now →
  supply (st (chain a)) + p_reward (a_params a) < 2 ^ 64 → now ≤ u64 (now' + MAX_TIME_SKEW_S) →
  let b := sealed (template (chain a) (a_params a) (miner_addr a)
             (collect (pool a) (st (chain a)) (a_params a) (u64 (height (chain a) + 1))) now) n in
  pow_ok (block_hash b) (p_bits (a_params a)) = true →
  ∃ c', connect_block (chain a) b now' = (c', "") ∧ chain_inv c' ∧ blocks c' = blocks (chain a) ++ [b].
Proof.
  intros [Hp Hs Hc Hne Hpool Ht] Hn Hnow. rewrite <- Hs in *. intros Hm Hclock.
  exact (mined_block_accepted _ _ _ _ _ _ Hp Hc Hne Hpool Ht Hnow Hn Hm Hclock).
Qed.

(** C14: mining and the other threads. A turn of the miner takes a snapshot of the node,
    searches without the mutex, and submits. Let the other threads have handled any number
    (below 2^64) of messages, requests and ticks in between. Then either [tip_seq] has moved,
    and the block is dropped and the node is as it was, or the chain is still that of the
    snapshot, and the block is accepted: the chain of the node is one block longer, by a
    block whose hash meets the difficulty, and [tip_seq] goes on. A mined block is never
    refused, when the clock did not run backwards and one more reward fits the supply. *)
Theorem mining_turn a a' k now1 now2 moved nonce go stale b seq clock : app_inv a → nsteps step k a a' →
  Z.of_nat k < 2 ^ 64 → in_width 64 nonce → in_width 64 now2 →
  supply (st (chain a)) + p_reward (a_params a) < 2 ^ 64 → now2 ≤ u64 (clock 0%nat + MAX_TIME_SKEW_S) →
  miner_turn a now1 now2 moved nonce go stale = Some (b, seq) →
  let a2 := submit_mined a' b seq clock in
  (tip_seq a' ≠ tip_seq a ∧ a2 = a') ∨
  (chain a' = chain a ∧ blocks (chain a2) = blocks (chain a) ++ [b] ∧ chain_inv (chain a2) ∧
   tip_seq a2 = u64 (tip_seq a + 1) ∧ pow_ok (block_hash b) (p_bits (a_params a)) = true).
Proof.
  intros Ha Hst Hk Hn Hnow Hs Hclock H a2. subst a2. unfold submit_mined.
  destruct (miner_turn_block _ _ _ _ _ _ _ _ _ Ha Hn Hnow H) as (-> & n & Hn' & Hb & Hg).
  destruct (Z.eqb_spec (tip_seq a') (tip_seq a)) as [E|E]; cbn [negb]; [right|by left].
  rewrite (same_seq _ _ _ Ha Hst Hk E). clear Hst H.
  destruct (mined_candidate a now2 n (clock 0%nat) Ha Hn' Hnow Hs Hclock) as (c & Hc & Hi & Hbs).
  { by rewrite <- Hb. }
  rewrite <- Hb in Hc, Hbs. rewrite Hc. split_and!; [done|exact Hbs|exact Hi| |exact Hg].
  change (u64 (tip_seq a' + 1) = u64 (tip_seq a + 1)). by rewrite E.
Qed.
End turn.
