(* ===== verification/Sync.v ===== *)
(** * Sync: what synchronisation achieves

    The blocks that a node sends are the blocks its peer decodes, a node that is
    behind on the same history catches up, and a node on another branch adopts the
    better chain. *)

From S2P Require Import Prelude Hex Serial Sha256 Hash Crypto Merkle Tx Ledger Store Chain Consensus Recovery Mempool Miner Net Node Safety.

Local Open Scope Z_scope.

(** ** The BLOCKS message *)

Section message.
Context `{HF : HashFn} `{CN : Cng}.

Definition raw_enc (raw : bytes) : bytes := le 4 (size raw) ++ raw.

Lemma blocks_payload_enc bs : Forall wire_block bs → size bs ≤ 500 →
  blocks_payload (map block_serialize bs) =
    le 4 (size bs) ++ concat (map (λ b, raw_enc (block_serialize b)) bs).
Proof.
  intros Hb Hs. unfold blocks_payload.
  assert (∀ w, foldl (λ w raw, w_blob (w_u32 w (u32 (size raw))) raw) w (map block_serialize bs) =
    w ++ concat (map (λ b, raw_enc (block_serialize b)) bs)) as H.
  { clear Hs. induction Hb as [|b bs Hb _ IH]; intros w; cbn [map foldl concat]; [by rewrite app_nil_r|].
    rewrite IH, w_u32_app. unfold w_blob, w_raw, raw_enc. pose proof (length_block_le b Hb).
    rewrite wrap_small by (unfold in_width, size in *; lia). by rewrite <- !app_assoc. }
  rewrite H, w_u32_app, app_nil_l. unfold size in *. rewrite length_map.
  by rewrite wrap_small by (unfold in_width; lia).
Qed.

Lemma wf_blocks_payload bs : Forall wire_block bs → size bs ≤ 500 →
  wf_bytes (blocks_payload (map block_serialize bs)).
Proof.
  intros Hb Hs. rewrite blocks_payload_enc by done. apply wf_bytes_app. split; [apply wf_le|].
  clear Hs. induction Hb as [|b bs Hb _ IH]; cbn [map concat]; [constructor|].
  apply wf_bytes_app. split; [|done]. apply wf_bytes_app. split; [apply wf_le|by apply wf_block_serialize].
Qed.

Lemma raw_blocks_run bs r rest : Forall wire_block bs → wfr r →
  view r = concat (map (λ b, raw_enc (block_serialize b)) bs) ++ rest →
  ∃ r', raw_blocks (length bs) r = Ok (bs, r').
Proof.
  intros Hb. revert r. induction Hb as [|b bs Hb _ IH]; intros r Hr E; [by exists r|].
  cbn [map concat length raw_blocks] in *. unfold raw_enc at 1 in E. rewrite <- !app_assoc in E.
  pose proof (length_block_le b Hb) as Hl.
  assert (in_width 32 (size (block_serialize b))) as Hw by (unfold in_width, size in *; lia).
  codec_forward; [exact Hw|]. unfold size at 1.
  codec_forward; [split; [done|by apply wf_block_serialize]|].
  rewrite block_parse_serialize by done.
  match goal with Hr2 : wfr ?r2, Ev : view ?r2 = concat _ ++ rest |- _ =>
    destruct (IH r2 Hr2 Ev) as [r' Hr'] end.
  exists r'. unfold mbind, parser_bind. by rewrite Hr'.
Qed.

Lemma blocks_body_payload bs : Forall wire_block bs → size bs ≤ 500 →
  ∃ r', blocks_body (reader_of (blocks_payload (map block_serialize bs))) = Ok (Some bs, r').
Proof.
  intros Hb Hs. pose proof (wf_blocks_payload bs Hb Hs) as Hw. revert Hw.
  rewrite blocks_payload_enc by done. set (data := le 4 (size bs) ++ _). intros Hw.
  assert (wfr (reader_of data)) as Hr by by apply wfr_reader_of.
  assert (view (reader_of data) = le 4 (size bs) ++ concat (map (λ b, raw_enc (block_serialize b)) bs) ++ [])
    as E by by rewrite app_nil_r.
  unfold blocks_body. codec_forward; [unfold in_width, size in *; lia|].
  rewrite Z.gtb_ltb, (proj2 (Z.ltb_ge _ _)) by done. unfold size. rewrite Nat2Z.id.
  match goal with Hr2 : wfr ?r2, Ev : view ?r2 = concat _ ++ [] |- _ =>
    destruct (raw_blocks_run bs r2 [] Hb Hr2 Ev) as [r' Hr'] end.
  exists r'. unfold mbind, parser_bind. unfold size in Hr'. by rewrite Hr'.
Qed.
End message.

(** ** Catching up and adopting a better chain *)

Section sync.
Context `{HF : HashFn} `{CN : Cng} {D : Type} `{DB : Sqlite D}.
Implicit Types a : App D.

Lemma extend_loop_run (c : Chain D) v clock k : chain_inv c → Forall wf_block v →
  chain_valid (params c) (blocks c ++ v) → times_ok (blocks c) v clock k →
  ∃ c', extend_loop c v clock k = (c', (k + length v)%nat, "") ∧ blocks c' = blocks c ++ v.
Proof.
  revert c k. induction v as [|b v IH]; intros c k Hc Hw Hv Ht; cbn [extend_loop].
  { exists c. by rewrite app_nil_r, Nat.add_0_r. }
  apply Forall_cons in Hw as [Hb Hw]. apply times_ok_cons in Ht as [Ht0 Ht].
  replace (blocks c ++ b :: v) with ((blocks c ++ [b]) ++ v) in * by by rewrite <- app_assoc.
  pose proof (chain_valid_prefix _ _ _ Hv) as [_ Hn]%chain_valid_snoc_inv.
  destruct (connect_block_run c b (clock k) Hc Hn Ht0) as [c1 E]. rewrite E.
  rewrite bool_decide_eq_true_2 by done. cbn [negb].
  apply connect_block_ok in E as (_ & _ & Hc1 & Ep & Eb & _); [|done..].
  rewrite <- Eb, <- Ep in *. destruct (IH c1 (S k) Hc1 Hw Hv Ht) as (c' & E' & Eb').
  exists c'. rewrite E'. split; [|done]. cbn [length]. do 2 f_equal. lia.
Qed.

(** Mode 1 with valid next blocks. *)
Lemma extend_step_chain a peer v clock ms : app_inv a → Forall wf_block v →
  chain_valid (a_params a) (blocks (chain a) ++ v) → times_ok (blocks (chain a)) v clock 0 →
  blocks (chain (extend_step a peer v clock ms)) = blocks (chain a) ++ v.
Proof.
  intros Ha Hw Hv Ht. rewrite <- (ai_same a Ha) in Hv. unfold extend_step.
  destruct (extend_loop_run (chain a) v clock 0 (ai_chain a Ha) Hw Hv Ht) as (c' & -> & <-).
  rewrite bool_decide_eq_true_2 by done. cbn [negb andb]. cbv zeta.
  by repeat case_match.
Qed.

(** The request that [request_blocks] sends. *)
Definition get_blocks_payload (start : Z) : bytes := w_u32 (w_u64 [] start) 200.

Lemma get_blocks_fields_run start : in_width 64 start →
  ∃ r, get_blocks_fields (reader_of (get_blocks_payload start)) = Ok ((start, 200), r).
Proof.
  intros Hs. unfold get_blocks_payload.
  assert (w_u32 (w_u64 [] start) 200 = le 8 start ++ le 4 200 ++ []) as E
    by (rewrite w_u32_app, w_u64_app, app_nil_r, app_nil_l; done).
  assert (wfr (reader_of (w_u32 (w_u64 [] start) 200))) as Hr.
  { apply wfr_reader_of. rewrite E, !wf_bytes_app. auto using wf_le with chainlite. }
  change (w_u32 (w_u64 [] start) 200) with (view (reader_of (w_u32 (w_u64 [] start) 200))) in E.
  eexists. unfold get_blocks_fields. codec_forward; [exact Hs|]. codec_forward; done.
Qed.

(** A node that is behind catches up. When the chain of [a] is a prefix of the
    chain of [b], the request that [a] sends for the blocks after its tip is answered
    by [b] with its next blocks, up to 200, and [a], waiting for them, connects all of
    them (unless two of the strings hashed for its chain collide). *)
Lemma catch_up a b peer_a peer_b clock ms n : app_inv a → app_inv b →
  a_params a = a_params b → blocks (chain a) = take n (blocks (chain b)) →
  size (blocks (chain b)) < 2 ^ 63 → peer_b ≠ -1 → sync_peer a = peer_b → sync_mode a = 1 →
  let next := take 200 (drop n (blocks (chain b))) in
  times_ok (blocks (chain a)) next clock 0 →
  let reply := blocks_payload (map block_serialize next) in
  (on_msg b peer_a M_GET_BLOCKS (get_blocks_payload (u64 (height (chain a) + 1))) clock ms =
     set_p2p b (send_to (p2p b) peer_a M_BLOCKS reply) ∧
   blocks (chain (on_msg a peer_b M_BLOCKS reply clock ms)) = blocks (chain a) ++ next) ∨
  collision (chain_pre (a_params a) (blocks (chain a))).
Proof.
  intros Ha Hb Ep Eb Hs Hp Hsp Hsm next Ht reply.
  pose proof (ai_chain b Hb) as Hcb. pose proof (ai_chain a Ha) as Hca.
  pose proof (valid_wire _ _ (ci_wf _ Hcb) (ci_valid _ Hcb)) as Hz.
  assert (Forall wire_block next) as Hzn by by apply Forall_take, Forall_drop.
  assert (Forall wf_block next) as Hwn by (apply Forall_take, Forall_drop, Hcb).
  destruct (valid_heights (chain_pre (a_params a) (blocks (chain a))) (params (chain a)) (blocks (chain a)))
    as [Hh|?]; [by rewrite (ai_same a Ha)|rewrite (ai_same a Ha); apply Ha|apply Hca|apply Hca| |by right].
  left. pose proof (ai_nonempty a Ha) as Hne.
  destruct (snoc_inv (blocks (chain a)) Hne) as (pre & tipb & Epre).
  assert (u64 (height (chain a) + 1) = size (blocks (chain a))) as Eh.
  { unfold height, tip. rewrite Epre, last_snoc. rewrite (Hh (length pre) tipb)
      by (rewrite Epre; by apply list_lookup_middle).
    rewrite wrap_add_l. unfold size. rewrite length_app. cbn [length].
    assert (length (blocks (chain a)) ≤ length (blocks (chain b)))%nat as Hle
      by (rewrite Eb, length_take; lia).
    rewrite Epre, length_app in Hle. cbn [length] in Hle. unfold size in Hs.
    rewrite wrap_small by (unfold in_width; lia). lia. }
  assert (drop (length (blocks (chain a))) (blocks (chain b)) = drop n (blocks (chain b))) as Ed.
  { rewrite Eb, length_take. destruct (Nat.le_ge_cases n (length (blocks (chain b)))) as [H|H].
    - by rewrite Nat.min_l.
    - rewrite Nat.min_r, !drop_ge by lia. done. }
  split.
  - unfold on_msg. cbn [Z.eqb M_GET_BLOCKS M_TIP Pos.eqb]. unfold on_get_blocks. rewrite Eh.
    destruct (get_blocks_fields_run (size (blocks (chain a)))) as [r ->].
    { rewrite <- Eh. by apply wrap_in_width. }
    cbv zeta. change (Z.to_nat (Z.min 200 200)) with 200%nat. unfold size at 1.
    rewrite Nat2Z.id, Ed. done.
  - unfold on_msg. cbn [Z.eqb M_BLOCKS M_GET_BLOCKS M_TIP Pos.eqb]. unfold on_blocks.
    destruct (blocks_body_payload next Hzn) as [r Er].
    { unfold size, next. rewrite length_take. lia. }
    fold reply in Er. rewrite Er. unfold handle_blocks. rewrite Hsp, Z.eqb_refl. cbn [negb]. cbv zeta.
    change (sync_mode (set_sync_last_ms a ms)) with (sync_mode a). rewrite Hsm, Z.eqb_refl.
    rewrite extend_step_chain; [done|by apply app_inv_last_ms|done| |exact Ht].
    change (a_params (set_sync_last_ms a ms)) with (a_params a).
    change (chain (set_sync_last_ms a ms)) with (chain a). rewrite Ep, <- (ai_same b Hb), Eb.
    apply (chain_valid_prefix _ _ (drop 200 (drop n (blocks (chain b))))).
    unfold next. rewrite <- app_assoc, !take_drop. apply Hcb.
Qed.

(** A node on a worse branch adopts the better chain. When the last part of a
    candidate arrives that is a valid chain of more work and as high as the peer's tip,
    the node's chain becomes the candidate, the pool and the work cache are cleaned,
    and the synchronisation is idle again. *)
Lemma reorg_adopts a peer v clock ms ph pw phash : app_inv a → peer ≠ -1 →
  sync_peer a = peer → sync_mode a = 2 → Forall wire_block v → size v ≤ 500 →
  let bs := cand a ++ v in
  size bs ≤ 500000 → candidate_ok (chain a) bs clock →
  peer_tip (p2p a) peer = Some (ph, pw, phash) →
  (∀ b, last bs = Some b → ph ≤ h_height (b_h b)) →
  let a' := on_msg a peer M_BLOCKS (blocks_payload (map block_serialize v)) clock ms in
  blocks (chain a') = bs ∧ app_inv a' ∧ sync_mode a' = 0 ∧
    pool a' = purge (pool a) (st (chain a')) ∧ tip_seq a' = u64 (tip_seq a + 1).
Proof.
  intros Ha Hp Hsp Hsm Hz Hs bs Hsb Hok Htip Hph a'.
  assert (app_inv a') as Ha'.
  { apply on_msg_handled; [done|done|]. by apply wf_blocks_payload. }
  assert (Forall wf_block v) as Hwv.
  { eapply Forall_impl; [exact Hz|]. intros b (Hh & Ht & _). split; [done|by apply wire_txs_wf]. }
  assert (Forall wf_block bs) as Hwb by (apply Forall_app; split; [apply Ha|done]).
  subst a'. unfold on_msg in *. cbn [Z.eqb M_BLOCKS M_GET_BLOCKS M_TIP Pos.eqb] in *. unfold on_blocks in *.
  destruct (blocks_body_payload v Hz Hs) as [r Er]. rewrite Er in *.
  unfold handle_blocks in *. rewrite Hsp, Z.eqb_refl in *. cbn [negb] in *. cbv zeta in *.
  change (sync_mode (set_sync_last_ms a ms)) with (sync_mode a) in *. rewrite Hsm in *.
  cbn [Z.eqb Pos.eqb] in *. unfold redownload_step in *. cbv zeta in *.
  change (p2p (set_sync_last_ms a ms)) with (p2p a) in *. rewrite Htip in *.
  cbn [cand set_sync set_sync_last_ms chain] in *. fold bs in Ha' |- *.
  rewrite Z.gtb_ltb, (proj2 (Z.ltb_ge _ _)) in * by done.
  destruct (last bs) as [b|] eqn:El; [|by apply last_None in El; destruct Hok].
  rewrite (proj2 (Z.leb_le _ _)) in * by by apply Hph. rewrite orb_true_r in *. cbn [negb] in *.
  destruct (try_replace (chain a) bs clock) as [[c err] f] eqn:E.
  apply try_replace_cases in E as [(->&_&_&_&Eb&_)|(_&_&_&?)]; [|done|apply Ha|done].
  rewrite bool_decide_eq_true_2 in * by done. done.
Qed.
End sync.
