(* ===== verification/Gpu.v ===== *)
(** * Gpu: the CUDA kernel of [src/clminer_gpu.cu]

    The kernel has its own SHA-256, unrolled for 100-byte headers, its own leading
    zero count and its own nonce loop. The theorems compare them with the code of
    [Sha256] that the nodes use. *)

From S2P Require Import Prelude Serial Sha256 Hash Tx Miner.

Local Open Scope Z_scope.

(** ** Device SHA-256 *)

Definition dK : list Z := [
  0x428A2F98;0x71374491;0xB5C0FBCF;0xE9B5DBA5;0x3956C25B;0x59F111F1;0x923F82A4;0xAB1C5ED5;
  0xD807AA98;0x12835B01;0x243185BE;0x550C7DC3;0x72BE5D74;0x80DEB1FE;0x9BDC06A7;0xC19BF174;
  0xE49B69C1;0xEFBE4786;0x0FC19DC6;0x240CA1CC;0x2DE92C6F;0x4A7484AA;0x5CB0A9DC;0x76F988DA;
  0x983E5152;0xA831C66D;0xB00327C8;0xBF597FC7;0xC6E00BF3;0xD5A79147;0x06CA6351;0x14292967;
  0x27B70A85;0x2E1B2138;0x4D2C6DFC;0x53380D13;0x650A7354;0x766A0ABB;0x81C2C92E;0x92722C85;
  0xA2BFE8A1;0xA81A664B;0xC24B8B70;0xC76C51A3;0xD192E819;0xD6990624;0xF40E3585;0x106AA070;
  0x19A4C116;0x1E376C08;0x2748774C;0x34B0BCB5;0x391C0CB3;0x4ED8AA4A;0x5B9CCA4F;0x682E6FF3;
  0x748F82EE;0x78A5636F;0x84C87814;0x8CC70208;0x90BEFFFA;0xA4506CEB;0xBEF9A3F7;0xC67178F2].

Definition rr (x n : Z) : Z := u32 (Z.lor (Z.shiftr x n) (Z.shiftl x (32 - n))).

(** [for (i = 0; i < n; i++) blk[off + i] = f(i);] *)
Definition fill (blk : bytes) (off n : nat) (f : nat → Z) : bytes :=
  foldl (λ b i, <[(off + i)%nat := f i]> b) blk (seq 0 n).

Definition gpu_load (blk : bytes) (i : nat) : Z :=
  Z.lor (Z.lor (Z.lor (u32 (Z.shiftl (at_ blk (i * 4)) 24))
                      (u32 (Z.shiftl (at_ blk (i * 4 + 1)) 16)))
               (u32 (Z.shiftl (at_ blk (i * 4 + 2)) 8)))
        (at_ blk (i * 4 + 3)).

(** [w[i]] for [i >= 16]. *)
Definition gpu_schedule_step (w : list Z) (i : nat) : list Z :=
  let s0 := Z.lxor (Z.lxor (rr (at_ w (i - 15)) 7) (rr (at_ w (i - 15)) 18))
                   (Z.shiftr (at_ w (i - 15)) 3) in
  let s1 := Z.lxor (Z.lxor (rr (at_ w (i - 2)) 17) (rr (at_ w (i - 2)) 19))
                   (Z.shiftr (at_ w (i - 2)) 10) in
  w ++ [u32 (at_ w (i - 16) + s0 + at_ w (i - 7) + s1)].

(** The assignments [h=g; g=f; ...; a=t1+t2;] in their order. *)
Definition gpu_round (w : list Z) (v : regs) (i : nat) : regs :=
  let '(mkRegs a b c d e f g h) := v in
  let S1 := Z.lxor (Z.lxor (rr e 6) (rr e 11)) (rr e 25) in
  let ch := Z.lxor (Z.land e f) (Z.land (Z.lnot e) g) in
  let t1 := u32 (h + S1 + ch + at_ dK i + at_ w i) in
  let S0 := Z.lxor (Z.lxor (rr a 2) (rr a 13)) (rr a 22) in
  let mj := Z.lxor (Z.lxor (Z.land a b) (Z.land a c)) (Z.land b c) in
  let t2 := u32 (S0 + mj) in
  let h := g in let g := f in let f := e in let e := u32 (d + t1) in
  let d := c in let c := b in let b := a in let a := u32 (t1 + t2) in
  mkRegs a b c d e f g h.

Definition sha256_block (blk : bytes) (st : regs) : regs :=
  let w := foldl gpu_schedule_step (map (gpu_load blk) (seq 0 16)) (seq 16 48) in
  let v := foldl (gpu_round w) st (seq 0 64) in
  mkRegs (u32 (ra st + ra v)) (u32 (rb st + rb v)) (u32 (rc st + rc v)) (u32 (rD st + rD v))
         (u32 (re st + re v)) (u32 (rf st + rf v)) (u32 (rg st + rg v)) (u32 (rh st + rh v)).

(** The words as big-endian bytes, [dig[i*4] = st[i] >> 24; ...]. *)
Definition digest_bytes (v : regs) : bytes :=
  concat (map (λ x, [u8 (Z.shiftr x 24); u8 (Z.shiftr x 16); u8 (Z.shiftr x 8); u8 x])
    [ra v; rb v; rc v; rD v; re v; rf v; rg v; rh v]).

Definition gpu_IV : regs :=
  mkRegs 0x6A09E667 0xBB67AE85 0x3C6EF372 0xA54FF53A 0x510E527F 0x9B05688C 0x1F83D9AB 0x5BE0CD19.

(** The local arrays start with some contents; every byte is assigned before use. *)
Definition sha256d_100 (msg : bytes) : bytes :=
  let blk := fill (replicate 64 0) 0 64 (λ i, at_ msg i) in
  let st := sha256_block blk gpu_IV in
  let blk := fill blk 0 36 (λ i, at_ msg (64 + i)) in
  let blk := <[36%nat := 0x80]> blk in
  let blk := fill blk 37 19 (λ _, 0) in
  let bits := 100 * 8 in
  let blk := fill blk 56 8 (λ i, u8 (Z.shiftr bits (56 - 8 * Z.of_nat i))) in
  let st := sha256_block blk st in
  let dig := digest_bytes st in
  let blk2 := fill (replicate 64 0) 0 32 (λ i, at_ dig i) in
  let blk2 := <[32%nat := 0x80]> blk2 in
  let blk2 := fill blk2 33 23 (λ _, 0) in
  let bits2 := 32 * 8 in
  let blk2 := fill blk2 56 8 (λ i, u8 (Z.shiftr bits2 (56 - 8 * Z.of_nat i))) in
  digest_bytes (sha256_block blk2 gpu_IV).

(** ** The kernel *)

(** [while (!(b & 0x80)) { n++; b <<= 1; }] on a non-zero byte. *)
Fixpoint gpu_shift (fuel : nat) (n b : Z) : Z :=
  match fuel with
  | O => n
  | S fuel => if Z.land b 0x80 =? 0 then gpu_shift fuel (n + 1) (u8 (Z.shiftl b 1)) else n
  end.

Fixpoint lead_zeros_loop (n : Z) (h : bytes) : Z :=
  match h with
  | [] => 256
  | b :: h => if b =? 0 then lead_zeros_loop (n + 8) h else gpu_shift 8 n b
  end.

Definition lead_zeros (h : bytes) : Z := lead_zeros_loop 0 h.

(** [(int)bits] *)
Definition i32 (x : Z) : Z := if x <? 2 ^ 31 then x else x - 2 ^ 32.

(** One thread of [mine_kernel] from iteration [k] on, [n] iterations left: the nonce
    it finds. [flag k] is what it reads in [*flag] at iteration [k]. *)
Fixpoint kernel_loop (n k : nat) (local : bytes) (bits base tid stride : Z) (flag : nat → bool)
    : option Z :=
  match n with
  | O => None
  | S n =>
      if flag k then None
      else
        let nonce := u64 (base + tid + Z.of_nat k * stride) in
        let local := patch_nonce local nonce in
        let out := sha256d_100 local in
        if i32 bits <=? lead_zeros out then Some nonce
        else kernel_loop n (S k) local bits base tid stride flag
  end.

Definition mine_kernel (hdr : bytes) (bits base : Z) (per_thread : nat) (tid stride : Z)
    (flag : nat → bool) : option Z :=
  kernel_loop per_thread 0 hdr bits base tid stride flag.

(** ** The device hash is the hash of the nodes *)

Lemma dK_eq : dK = K.
Proof. reflexivity. Qed.

Lemma gpu_round_eq w v i : gpu_round w v i = round w v i.
Proof.
  destruct v. unfold gpu_round, round. rewrite dK_eq. change rr with rotr. cbv zeta. reflexivity.
Qed.

Lemma gpu_schedule_step_eq w i : gpu_schedule_step w i = schedule_step w i.
Proof. unfold gpu_schedule_step, schedule_step. change rr with rotr. reflexivity. Qed.

Lemma gpu_schedule_eq blk :
  foldl gpu_schedule_step (map (gpu_load blk) (seq 0 16)) (seq 16 48) = schedule blk.
Proof.
  unfold schedule. change (gpu_load blk) with (load_be blk). apply foldl_ext.
  intros. apply gpu_schedule_step_eq.
Qed.

Lemma gpu_block_compress blk st : sha256_block blk st = compress st blk.
Proof.
  unfold sha256_block, compress. cbv zeta.
  rewrite gpu_schedule_eq.
  by rewrite (foldl_ext (gpu_round (schedule blk)) (round (schedule blk))) by (intros; apply gpu_round_eq).
Qed.

Lemma digest_bytes_output v : digest_bytes v = output v.
Proof. by destruct v. Qed.

(** Filling the middle of a block. *)
Lemma fill_spec (a b c : bytes) n f : length b = n →
  fill (a ++ b ++ c) (length a) n f = a ++ map f (seq 0 n) ++ c.
Proof.
  intros <-. unfold fill.
  assert (∀ k b' c', foldl (λ l i, <[(length a + i)%nat := f i]> l) (a ++ map f (seq 0 k) ++ b' ++ c') (seq k (length b'))
    = a ++ map f (seq 0 (k + length b')) ++ c') as H.
  { intros k b'. revert k. induction b' as [|x b' IH]; intros k c'; cbn [seq foldl length app].
    { by rewrite Nat.add_0_r. }
    rewrite insert_app_r_alt by lia. replace (length a + k - length a)%nat with k by lia.
    rewrite insert_app_r_alt by (rewrite length_map, length_seq; lia).
    rewrite length_map, length_seq, Nat.sub_diag. cbn [insert list_insert].
    replace (map f (seq 0 k) ++ f k :: b' ++ c') with (map f (seq 0 (S k)) ++ b' ++ c').
    - rewrite IH. by rewrite Nat.add_succ_comm.
    - rewrite seq_S, map_app. cbn [map]. by rewrite <- app_assoc. }
  apply (H 0%nat).
Qed.

Lemma map_at_seq (l : bytes) k n : (k + n ≤ length l)%nat →
  map (λ i, at_ l (k + i)) (seq 0 n) = take n (drop k l).
Proof.
  intros Hl. apply list_eq. intros i. rewrite list_lookup_fmap.
  destruct (decide (i < n)%nat).
  - rewrite lookup_seq_lt, lookup_take_lt, lookup_drop by done. cbn. unfold at_.
    rewrite nth_lookup. destruct (lookup_lt_is_Some_2 l (k + i)) as [x ->]; [lia|done].
  - rewrite lookup_seq_ge, lookup_take_ge by lia. done.
Qed.

Lemma map_at_seq0 (l : bytes) n : (n ≤ length l)%nat → map (λ i, at_ l i) (seq 0 n) = take n l.
Proof. intros Hl. pose proof (map_at_seq l 0 n Hl) as E. by rewrite drop_0 in E. Qed.

Lemma map_zero_seq j k : map (λ _ : nat, 0) (seq j k) = replicate k 0.
Proof. revert j. induction k as [|k IH]; intros j; [done|]. cbn. by rewrite IH. Qed.

(** A padded block: [n] data bytes, [0x80], zeros and the bit count. *)
Lemma padded_block (blk l : bytes) n bits f : length blk = 64%nat → (n ≤ 55)%nat →
  map f (seq 0 n) = l →
  fill (fill (<[n := 0x80]> (fill blk 0 n f)) (S n) (55 - n) (λ _, 0)) 56 8
    (λ i, u8 (Z.shiftr bits (56 - 8 * Z.of_nat i))) =
  l ++ [0x80] ++ replicate (55 - n) 0 ++ len_be bits.
Proof.
  intros Hb Hn <-.
  assert (∃ b1 x b2 b3, blk = b1 ++ [x] ++ b2 ++ b3 ∧ length b1 = n ∧ length b2 = (55 - n)%nat ∧ length b3 = 8%nat)
    as (b1 & x & b2 & b3 & -> & H1 & H2 & H3).
  { destruct (drop n blk) as [|x rest] eqn:E.
    { apply (f_equal length) in E. rewrite length_drop in E. cbn in E. lia. }
    exists (take n blk), x, (take (55 - n) rest), (drop (55 - n) rest).
    pose proof (f_equal length E) as El. rewrite length_drop in El. cbn in El.
    rewrite !length_take, length_drop. split_and!; try lia.
    rewrite take_drop. rewrite <- (take_drop n blk) at 1. by rewrite E. }
  pose proof (fill_spec [] b1 ([x] ++ b2 ++ b3) n f H1) as E1. cbn [app length] in E1. cbn [app]. rewrite E1.
  assert (length (map f (seq 0 n)) = n) as Hl by by rewrite length_map, length_seq.
  rewrite insert_app_r_alt, Hl, Nat.sub_diag by lia. cbn [insert list_insert].
  set (d := map f (seq 0 n)) in *.
  replace (d ++ 0x80 :: b2 ++ b3) with ((d ++ [0x80]) ++ b2 ++ b3) by by rewrite <- app_assoc.
  assert (S n = length (d ++ [0x80])) as Hn1 by (rewrite length_app; cbn; lia).
  rewrite Hn1 at 1. rewrite fill_spec by done.
  rewrite map_zero_seq.
  set (z := replicate (55 - n) 0).
  replace ((d ++ [0x80]) ++ z ++ b3) with (((d ++ [0x80]) ++ z) ++ b3 ++ []) by by rewrite app_nil_r, <- !app_assoc.
  assert (56%nat = length ((d ++ [0x80]) ++ z)) as ->.
  { rewrite length_app, <- Hn1. unfold z. rewrite length_replicate. lia. }
  rewrite fill_spec by done. rewrite app_nil_r, <- !app_assoc. done.
Qed.

Lemma fips_one_block m : length m = 32%nat →
  sha256 m = output (compress IV (m ++ [0x80] ++ replicate 23 0 ++ len_be 256)).
Proof.
  intros Hm. rewrite sha256_streaming. unfold one_shot, pad. rewrite Hm.
  change ((119 - 32 mod 64) mod 64)%nat with 23%nat. change (8 * Z.of_nat 32) with 256.
  set (p := m ++ _). assert (length p = 64%nat) as Hp.
  { unfold p. rewrite !length_app, length_replicate, Hm. done. }
  rewrite Hp. change (seq 0 (64 / 64)) with [0%nat]. cbn [foldl]. unfold block.
  by rewrite drop_0, take_ge by lia.
Qed.

Lemma fips_two_blocks m : length m = 100%nat →
  sha256 m = output (compress (compress IV (take 64 m))
                       (drop 64 m ++ [0x80] ++ replicate 19 0 ++ len_be 800)).
Proof.
  intros Hm. rewrite sha256_streaming. unfold one_shot, pad. rewrite Hm.
  change ((119 - 100 mod 64) mod 64)%nat with 19%nat. change (8 * Z.of_nat 100) with 800.
  set (tl := [0x80] ++ _). assert (length tl = 28%nat) as Ht.
  { unfold tl. rewrite !length_app, length_replicate. done. }
  rewrite length_app, Hm, Ht. change (seq 0 ((100 + 28) / 64)) with [0%nat; 1%nat]. cbn [foldl].
  unfold block. rewrite drop_0. rewrite take_app_le by lia.
  change (64 * 1)%nat with 64%nat. rewrite drop_app_le by lia.
  by rewrite (take_ge (drop 64 m ++ tl)) by (rewrite length_app, length_drop; lia).
Qed.

Lemma gpu_hash msg : length msg = 100%nat → sha256d_100 msg = sha256d msg.
Proof.
  intros Hm. unfold sha256d, sha256d_100. cbv zeta.
  rewrite (fips_one_block (sha256 msg)) by apply wf_sha256. rewrite (fips_two_blocks msg Hm).
  rewrite !digest_bytes_output, !gpu_block_compress. change gpu_IV with IV.
  assert (fill (replicate 64 0) 0 64 (λ i, at_ msg i) = take 64 msg) as E1.
  { pose proof (fill_spec [] (replicate 64 0) [] 64 (λ i, at_ msg i) eq_refl) as E.
    rewrite app_nil_r in E. cbn [app length] in E. rewrite E, app_nil_r.
    rewrite (map_at_seq0 msg 64) by lia. done. }
  rewrite E1. change (100 * 8) with 800. change (32 * 8) with 256.
  pose proof (padded_block (take 64 msg) (drop 64 msg) 36 800 (λ i, at_ msg (64 + i))) as E2.
  change (55 - 36)%nat with 19%nat in E2. rewrite E2; clear E1 E2.
  2:{ rewrite length_take. lia. }
  2:{ lia. }
  2:{ rewrite map_at_seq by lia. apply take_ge. rewrite length_drop. lia. }
  set (v := compress (compress IV _) _).
  pose proof (padded_block (replicate 64 0) (output v) 32 256 (λ i, at_ (output v) i)) as E3.
  change (55 - 32)%nat with 23%nat in E3. rewrite E3; [done|done|lia|].
  rewrite map_at_seq0 by by destruct v. apply take_ge. by destruct v.
Qed.

Lemma gpu_shift_eq fuel n b : gpu_shift fuel n b = shift_loop fuel n b.
Proof. revert n b. induction fuel as [|fuel IH]; intros n b; [done|]. cbn. by rewrite IH. Qed.

Lemma lead_zeros_eq h : lead_zeros h = leading_zero_bits h.
Proof.
  unfold lead_zeros, leading_zero_bits. generalize 0. induction h as [|b h IH]; intros n; [done|].
  cbn [lead_zeros_loop lzb_loop]. destruct (b =? 0); [apply IH|apply gpu_shift_eq].
Qed.

(** The kernel's test is the nodes' test. *)
Lemma gpu_test h bits : wf_array 32 h → 0 ≤ bits < 2 ^ 31 →
  (i32 bits <=? lead_zeros h) = pow_ok h bits.
Proof.
  intros Hh Hb. unfold i32, pow_ok. rewrite (proj2 (Z.ltb_lt _ _)), lead_zeros_eq by lia.
  pose proof (leading_zero_bits_range h Hh). by rewrite wrap_small by (unfold in_width; lia).
Qed.

#[local] Opaque sha256 compress.

Lemma good_nonce_sha256d h bits n :
  good_nonce h bits n = pow_ok (sha256d (header_enc (with_nonce h n))) bits.
Proof. unfold good_nonce. by rewrite (header_hash_enc (with_nonce h n)), hash256d_sha256d. Qed.

Lemma kernel_loop_cases n k h bits base tid stride flag : wf_header h → 0 ≤ bits < 2 ^ 31 →
  (∀ j, (j < n)%nat → flag (k + j)%nat = false) →
  let nonce j := u64 (base + tid + Z.of_nat j * stride) in
  match kernel_loop n k (header_enc h) bits base tid stride flag with
  | Some m => ∃ j, (j < n)%nat ∧ m = nonce (k + j)%nat ∧ good_nonce h bits m = true ∧
      ∀ i, (i < j)%nat → good_nonce h bits (nonce (k + i)%nat) = false
  | None => ∀ j, (j < n)%nat → good_nonce h bits (nonce (k + j)%nat) = false
  end.
Proof.
  intros Hh Hb Hf nonce. revert h k Hh Hf. induction n as [|n IH]; intros h k Hh Hf; cbn [kernel_loop]; [lia|].
  assert (flag k = false) as -> by (rewrite <- (Nat.add_0_r k); apply Hf; lia).
  rewrite patch_header by done. cbv zeta. fold (nonce k). set (h' := with_nonce h (nonce k)).
  assert (wf_header h') as Hh' by (apply wf_with_nonce; [done|by apply wrap_in_width]).
  assert (wf_array 32 (sha256d (header_enc h'))) as Hd by apply wf_sha256d.
  rewrite gpu_hash by by apply length_header_enc.
  rewrite gpu_test by done.
  pose proof (good_nonce_sha256d h bits (nonce k)) as Eg. fold h' in Eg. rewrite <- Eg. clear Eg.
  destruct (good_nonce h bits (nonce k)) eqn:Eg.
  - exists 0%nat. rewrite Nat.add_0_r. split_and!; [lia|done|done|lia].
  - specialize (IH h' (S k) Hh'). change (good_nonce h') with (good_nonce h) in IH.
    assert (∀ i, (S k + i = k + S i)%nat) as Hs by lia.
    specialize (IH ltac:(intros j Hj; rewrite Hs; apply Hf; lia)).
    destruct (kernel_loop _ _ _ _ _ _ _ _) as [m|].
    + destruct IH as (j & Hj & -> & Hg & Hi). exists (S j). rewrite <- Hs. split_and!; [lia|done|done|].
      intros [|i] Hlt; [by rewrite Nat.add_0_r|]. rewrite <- Hs. apply Hi. lia.
    + intros [|j] Hj; [by rewrite Nat.add_0_r|]. rewrite <- Hs. apply IH. lia.
Qed.

(** ** Theorems *)

(** The GPU computes the hash that the nodes check. On every 100-byte header the
    kernel's unrolled double SHA-256 gives the digest of [sha256d], and its zero count
    is that of [leading_zero_bits]. *)
Lemma gpu_hash_agrees (msg h : bytes) : length msg = 100%nat →
  sha256d_100 msg = sha256d msg ∧ lead_zeros h = leading_zero_bits h.
Proof. intros Hm. split; [by apply gpu_hash|apply lead_zeros_eq]. Qed.

