(* ===== verification/Verify.v ===== *)
(** * Verify: Merkle proof files, [/prove] of [src/node_impl.h] and [cmd_verify] of
      [src/clctl.cpp]

    [prove_text] is the file that a node writes, [verify_text] the offline check of
    the wallet up to the optional cross-check against other nodes. *)

From S2P Require Import Prelude Hex Text Serial Sha256 Hash Crypto Merkle Tx Ledger Store Chain Consensus.

Local Open Scope Z_scope.

(** [while (line.back() == '\r' || line.back() == ' ') line.pop_back();] *)
Definition line_trim (c : ascii) : bool := (code c =? 13) || (code c =? 32).
Definition no_trim (c : ascii) : bool := negb (line_trim c).

(** ** Writing a proof *)

Definition sibling_line (s : MerkleStep) : string :=
  "sibling " +:+ (if step_left s then "L" else "R") +:+ " " +:+ hexs (step_h s) +:+ newline.

Definition concat_lines (ls : list string) : string := foldr String.append "" ls.

Section prove.
Context `{HF : HashFn} {D : Type}.

Definition proof_text (id : bytes) (b : Block) (index : Z) (steps : list MerkleStep) : string :=
  "CHAINLITE-PROOF v1" +:+ newline +:+
  "txid " +:+ hexs id +:+ newline +:+
  "height " +:+ pretty (h_height (b_h b)) +:+ newline +:+
  "index " +:+ pretty index +:+ newline +:+
  "blockhash " +:+ hexs (header_hash (b_h b)) +:+ newline +:+
  "header " +:+ hexs (header_serialize (b_h b)) +:+ newline +:+
  concat_lines (map sibling_line steps) +:+
  "end" +:+ newline.

(** The 200 response of [/prove], [None] for the 404. *)
Definition prove_text (c : Chain D) (id : bytes) : option string :=
  match txidx c !! id with
  | None => None
  | Some (h, i) =>
      b ← blocks c !! Z.to_nat h;
      let leaves := map txid (b_txs b) in
      Some (proof_text id b i (merkle_proof leaves (Z.to_nat i)))
  end.
End prove.

(** ** Checking a proof *)

(** The local variables of [cmd_verify]. *)
Record ProofFile := mkProofFile {
  pf_txid : bytes;
  pf_blockhash : bytes;
  pf_height : Z;
  pf_header : bytes;
  pf_steps : list MerkleStep;
  pf_ok_hdr : bool;
  pf_ok_txid : bool;
  pf_ok_bh : bool;
}.

Definition ProofFile_init : ProofFile :=
  mkProofFile zero_hash zero_hash (2 ^ 64 - 1) [] [] false false false.

(** One line of the file. *)
Definition read_line (f : ProofFile) (raw_line : string) : ProofFile :=
  let line := pop_back_while line_trim raw_line in
  if starts_with "txid " line then
    match unhex_n 32 (substr_from 5 line) with
    | Some v => mkProofFile v (pf_blockhash f) (pf_height f) (pf_header f) (pf_steps f)
                  (pf_ok_hdr f) true (pf_ok_bh f)
    | None => f
    end
  else if starts_with "height " line then
    mkProofFile (pf_txid f) (pf_blockhash f) (strtoull (substr_from 7 line)) (pf_header f)
      (pf_steps f) (pf_ok_hdr f) (pf_ok_txid f) (pf_ok_bh f)
  else if starts_with "blockhash " line then
    match unhex_n 32 (substr_from 10 line) with
    | Some v => mkProofFile (pf_txid f) v (pf_height f) (pf_header f) (pf_steps f)
                  (pf_ok_hdr f) (pf_ok_txid f) true
    | None => f
    end
  else if starts_with "header " line then
    match unhex (substr_from 7 line) with
    | Some v =>
        if size v =? HEADER_SIZE
        then mkProofFile (pf_txid f) (pf_blockhash f) (pf_height f) v (pf_steps f)
               true (pf_ok_txid f) (pf_ok_bh f)
        else f
    | None => f
    end
  else if starts_with "sibling " line && (10 <? String.length line)%nat then
    let left := match String.get 8 line with Some c => Ascii.eqb c "L" | None => false end in
    match unhex_n 32 (substr_from 10 line) with
    | Some v => mkProofFile (pf_txid f) (pf_blockhash f) (pf_height f) (pf_header f)
                  (pf_steps f ++ [mkStep v left]) (pf_ok_hdr f) (pf_ok_txid f) (pf_ok_bh f)
    | None => f
    end
  else f.

Definition read_proof (content : string) : ProofFile := foldl read_line ProofFile_init (lines content).

Definition well_formed (f : ProofFile) : bool :=
  pf_ok_txid f && pf_ok_bh f && pf_ok_hdr f && negb (pf_height f =? 2 ^ 64 - 1).

Section verify.
Context `{HF : HashFn}.

(** The four checks, once the header is parsed. *)
Definition check_proof (f : ProofFile) (h : BlockHeader) : bool :=
  bool_decide (hash256d (pf_header f) = pf_blockhash f) &&
  (h_height h =? pf_height f) &&
  bool_decide (merkle_apply (pf_txid f) (pf_steps f) = h_merkle h) &&
  negb ((0 <? pf_height f) && negb (pow_ok (pf_blockhash f) (h_bits h))).

(** [None]: "malformed proof file" or "bad header in proof". *)
Definition verify_text (content : string) : option bool :=
  let f := read_proof content in
  if negb (well_formed f) then None
  else
    match header_parse (reader_of (pf_header f)) with
    | Err _ => None
    | Ok (h, _) => Some (check_proof f h)
    end.
End verify.

(** A line that ends in other characters is not trimmed. *)
Lemma trim_keep s t : t ≠ "" → all_chars no_trim t → pop_back_while line_trim (s +:+ t) = s +:+ t.
Proof.
  intros Hne Ht.
  assert (pop_back_while line_trim t = t) as E.
  { pose proof (pop_back_while_keep line_trim t "") as H. rewrite string_app_nil_r in H. apply H; [|constructor].
    eapply Forall_impl; [exact Ht|]. cbn. intros c. apply negb_true_iff. }
  induction s as [|c s IH]; [done|].
  change (String c s +:+ t) with (String c (s +:+ t)). cbn [pop_back_while]. rewrite IH.
  destruct (s +:+ t) eqn:Es; [|done]. destruct s; [by subst|done].
Qed.

Lemma digit_no_trim c : is_digit c = true → no_trim c = true.
Proof.
  unfold is_digit, no_trim, line_trim. intros. bool_props. apply negb_true_iff, orb_false_iff.
  split; apply Z.eqb_neq; lia.
Qed.

Lemma hex_no_trim c : is_hex c = true → no_trim c = true.
Proof.
  unfold is_hex, no_trim, line_trim. intros H. apply negb_true_iff, orb_false_iff.
  split; apply Z.eqb_neq; intros E; unfold hexval in H; rewrite E in H; done.
Qed.

(** ** Reading the lines of a proof *)

Lemma hexs_nonempty p : p ≠ [] → hexs p ≠ "".
Proof. by destruct p. Qed.

Lemma trim_hex s p : wf_bytes p → p ≠ [] → pop_back_while line_trim (s +:+ hexs p) = s +:+ hexs p.
Proof.
  intros Hp Hne. apply trim_keep; [by apply hexs_nonempty|].
  eapply all_chars_impl; [apply hex_no_trim|by apply hexs_is_hex].
Qed.

Lemma trim_number s x : 0 ≤ x → pop_back_while line_trim (s +:+ pretty x) = s +:+ pretty x.
Proof.
  intros Hx. apply trim_keep; [by apply pretty_nonempty|].
  eapply all_chars_impl; [apply digit_no_trim|by apply pretty_digits].
Qed.

Lemma wf_array_ne n p : wf_array (S n) p → p ≠ [].
Proof. by intros [Hl _] ->. Qed.

Definition set_txid (f : ProofFile) (v : bytes) : ProofFile :=
  mkProofFile v (pf_blockhash f) (pf_height f) (pf_header f) (pf_steps f) (pf_ok_hdr f) true (pf_ok_bh f).

Lemma read_txid f p : wf_array 32 p → read_line f ("txid " +:+ hexs p) = set_txid f p.
Proof.
  intros Hp. unfold read_line. rewrite trim_hex by (apply Hp || by eapply wf_array_ne).
  change (starts_with "txid " ("txid " +:+ hexs p)) with (starts_with "" (hexs p)).
  assert (starts_with "" (hexs p) = true) as -> by apply (starts_with_app "").
  rewrite (substr_prefix 5 "txid "), unhex_n_hexs by done. done.
Qed.

Definition set_height (f : ProofFile) (v : Z) : ProofFile :=
  mkProofFile (pf_txid f) (pf_blockhash f) v (pf_header f) (pf_steps f) (pf_ok_hdr f)
    (pf_ok_txid f) (pf_ok_bh f).

Lemma read_height f x : 0 ≤ x < 2 ^ 64 → read_line f ("height " +:+ pretty x) = set_height f x.
Proof.
  intros Hx. unfold read_line. rewrite trim_number by lia.
  rewrite (starts_with_app "height " (pretty x)).
  change (starts_with "txid " ("height " +:+ pretty x)) with false.
  by rewrite (substr_prefix 7 "height "), strtoull_pretty.
Qed.

Lemma read_index f x : 0 ≤ x → read_line f ("index " +:+ pretty x) = f.
Proof. intros Hx. unfold read_line. rewrite trim_number by lia. reflexivity. Qed.

Definition set_blockhash (f : ProofFile) (v : bytes) : ProofFile :=
  mkProofFile (pf_txid f) v (pf_height f) (pf_header f) (pf_steps f) (pf_ok_hdr f) (pf_ok_txid f) true.

Lemma read_blockhash f p : wf_array 32 p → read_line f ("blockhash " +:+ hexs p) = set_blockhash f p.
Proof.
  intros Hp. unfold read_line. rewrite trim_hex by (apply Hp || by eapply wf_array_ne).
  change (starts_with "txid " ("blockhash " +:+ hexs p)) with false.
  change (starts_with "height " ("blockhash " +:+ hexs p)) with false.
  by rewrite (starts_with_app "blockhash " (hexs p)), (substr_prefix 10 "blockhash "), unhex_n_hexs.
Qed.

Definition set_header (f : ProofFile) (v : bytes) : ProofFile :=
  mkProofFile (pf_txid f) (pf_blockhash f) (pf_height f) v (pf_steps f) true (pf_ok_txid f) (pf_ok_bh f).

Lemma read_header f p : wf_array 100 p → read_line f ("header " +:+ hexs p) = set_header f p.
Proof.
  intros Hp. unfold read_line. rewrite trim_hex by (apply Hp || by eapply wf_array_ne).
  change (starts_with "txid " ("header " +:+ hexs p)) with false.
  change (starts_with "height " ("header " +:+ hexs p)) with false.
  change (starts_with "blockhash " ("header " +:+ hexs p)) with false.
  rewrite (starts_with_app "header " (hexs p)), (substr_prefix 7 "header ") by done.
  rewrite unhex_hexs_some by apply Hp. unfold size. by rewrite (wf_array_length _ _ Hp).
Qed.

Definition add_step (f : ProofFile) (s : MerkleStep) : ProofFile :=
  mkProofFile (pf_txid f) (pf_blockhash f) (pf_height f) (pf_header f) (pf_steps f ++ [s])
    (pf_ok_hdr f) (pf_ok_txid f) (pf_ok_bh f).

Definition sibling_prefix (left : bool) : string := if left then "sibling L " else "sibling R ".

Lemma read_sibling f s : wf_array 32 (step_h s) →
  read_line f (sibling_prefix (step_left s) +:+ hexs (step_h s)) = add_step f s.
Proof.
  destruct s as [p l]. cbn [step_h step_left]. intros Hp. unfold read_line.
  rewrite trim_hex by (apply Hp || by eapply wf_array_ne).
  set (line := sibling_prefix l +:+ hexs p).
  assert (starts_with "txid " line = false ∧ starts_with "height " line = false ∧
    starts_with "blockhash " line = false ∧ starts_with "header " line = false ∧
    starts_with "sibling " line = true) as (-> & -> & -> & -> & ->).
  { subst line. unfold sibling_prefix. destruct l; split_and!; reflexivity. }
  assert (String.length line = 74%nat) as ->.
  { subst line. rewrite string_length_app, length_hexs, (wf_array_length _ _ Hp). by destruct l. }
  assert (substr_from 10 line = hexs p) as ->.
  { subst line. by destruct l; apply substr_prefix. }
  rewrite unhex_n_hexs by done. subst line. by destruct l.
Qed.

Lemma sibling_line_split s rest :
  sibling_line s +:+ rest = (sibling_prefix (step_left s) +:+ hexs (step_h s)) +:+ newline +:+ rest.
Proof.
  unfold sibling_line, sibling_prefix. rewrite !string_app_assoc.
  by destruct (step_left s); rewrite ?string_app_assoc.
Qed.

Lemma sibling_no_newline l p : wf_bytes p → all_chars no_newline (sibling_prefix l +:+ hexs p).
Proof.
  intros Hp. apply all_chars_app; [by destruct l; repeat constructor|].
  eapply all_chars_impl; [apply hex_no_newline|by apply hexs_is_hex].
Qed.

Lemma read_siblings f steps rest : Forall (λ s, wf_array 32 (step_h s)) steps →
  foldl read_line f (lines (concat_lines (map sibling_line steps) +:+ rest)) =
  foldl read_line (foldl add_step f steps) (lines rest).
Proof.
  intros Hs. revert f. induction Hs as [|s steps Hs _ IH]; intros f; [done|].
  unfold concat_lines in *. cbn [map foldr foldl].
  rewrite string_app_assoc, sibling_line_split, lines_cons by (apply sibling_no_newline, Hs).
  cbn [foldl]. by rewrite read_sibling, IH.
Qed.

Lemma add_steps f steps : foldl add_step f steps =
  mkProofFile (pf_txid f) (pf_blockhash f) (pf_height f) (pf_header f) (pf_steps f ++ steps)
    (pf_ok_hdr f) (pf_ok_txid f) (pf_ok_bh f).
Proof.
  revert f. induction steps as [|s steps IH]; intros f; cbn [foldl].
  - rewrite app_nil_r. by destruct f.
  - rewrite IH. cbn. by rewrite <- app_assoc.
Qed.

Section texts.
Context `{HF : HashFn}.

(** Reading a proof file that was written for [id] and [b]. *)
Lemma read_proof_text id b index steps : wf_array 32 id → wf_header (b_h b) → 0 ≤ index →
  Forall (λ s, wf_array 32 (step_h s)) steps →
  read_proof (proof_text id b index steps) =
    mkProofFile id (header_hash (b_h b)) (h_height (b_h b)) (header_serialize (b_h b)) steps
      true true true.
Proof.
  intros Hid Hh Hi Hs. unfold read_proof, proof_text.
  pose proof (wf_h_height _ Hh) as Hht. unfold in_width in Hht.
  assert (wf_array 100 (header_serialize (b_h b))) as Hser.
  { rewrite header_serialize_enc. split; [by apply length_header_enc|by apply wf_header_enc]. }
  pose proof (wf_header_hash (b_h b)) as Hbh.
  assert (∀ pre p, all_chars no_newline pre → wf_bytes p → all_chars no_newline (pre +:+ hexs p)) as Hx.
  { intros pre p Hpre Hp. apply all_chars_app; [done|].
    eapply all_chars_impl; [apply hex_no_newline|by apply hexs_is_hex]. }
  assert (∀ pre x, all_chars no_newline pre → 0 ≤ x → all_chars no_newline (pre +:+ pretty x)) as Hn.
  { intros pre x Hpre Hx0. apply all_chars_app; [done|].
    eapply all_chars_impl; [apply digit_no_newline|by apply pretty_digits]. }
  rewrite lines_cons by by repeat constructor. cbn [foldl].
  change (read_line ProofFile_init "CHAINLITE-PROOF v1") with ProofFile_init.
  rewrite <- (string_app_assoc "txid "), lines_cons by (apply Hx; [by repeat constructor|apply Hid]).
  cbn [foldl]. rewrite read_txid by done.
  rewrite <- (string_app_assoc "height "), lines_cons by (apply Hn; [by repeat constructor|lia]).
  cbn [foldl]. rewrite read_height by done.
  rewrite <- (string_app_assoc "index "), lines_cons by (apply Hn; [by repeat constructor|lia]).
  cbn [foldl]. rewrite read_index by done.
  rewrite <- (string_app_assoc "blockhash "), lines_cons by (apply Hx; [by repeat constructor|apply Hbh]).
  cbn [foldl]. rewrite read_blockhash by done.
  rewrite <- (string_app_assoc "header "), lines_cons by (apply Hx; [by repeat constructor|apply Hser]).
  cbn [foldl]. rewrite read_header by done.
  rewrite read_siblings, add_steps by done. reflexivity.
Qed.

(** The header of a proof is read back. *)
Lemma header_parse_serialize h : wf_header h →
  ∃ r, header_parse (reader_of (header_serialize h)) = Ok (h, r).
Proof.
  intros Hh. rewrite header_serialize_enc. eexists. eapply (codec_dec (Codec := header_codec)) with (rest := []).
  - by apply wfr_reader_of, wf_header_enc.
  - done.
  - by rewrite app_nil_r.
Qed.

Lemma verify_proof_text id b index steps : wf_array 32 id → wf_header (b_h b) → 0 ≤ index →
  h_height (b_h b) ≠ 2 ^ 64 - 1 → Forall (λ s, wf_array 32 (step_h s)) steps →
  verify_text (proof_text id b index steps) = Some (
    bool_decide (merkle_apply id steps = h_merkle (b_h b)) &&
    negb ((0 <? h_height (b_h b)) && negb (pow_ok (header_hash (b_h b)) (h_bits (b_h b))))).
Proof.
  intros Hid Hh Hi Hne Hs. unfold verify_text. rewrite read_proof_text by done.
  unfold well_formed. cbn [pf_ok_txid pf_ok_bh pf_ok_hdr pf_height pf_header].
  rewrite (proj2 (Z.eqb_neq _ _) Hne). cbn [andb negb].
  destruct (header_parse_serialize (b_h b) Hh) as [r ->]. f_equal. unfold check_proof.
  cbn [pf_txid pf_blockhash pf_height pf_header pf_steps].
  rewrite bool_decide_eq_true_2, Z.eqb_refl; [done|].
  by rewrite header_serialize_enc, header_hash_enc.
Qed.
End texts.

(** ** What an accepted file says *)

(** The fields come from hexadecimal text. *)
Record wf_proof (f : ProofFile) : Prop := {
  wp_txid : wf_array 32 (pf_txid f);
  wp_header : pf_ok_hdr f = true → wf_array 100 (pf_header f);
  wp_steps : Forall (λ s, wf_array 32 (step_h s)) (pf_steps f);
}.

Lemma read_line_wf f line : wf_proof f → wf_proof (read_line f line).
Proof.
  intros [H1 H2 H3]. unfold read_line. cbv zeta. set (l := pop_back_while _ _).
  destruct (starts_with "txid " l).
  { destruct (unhex_n 32 _) as [v|] eqn:E; [|done]. apply unhex_n_wf in E. by split. }
  destruct (starts_with "height " l); [by split|].
  destruct (starts_with "blockhash " l); [by destruct (unhex_n 32 _)|].
  destruct (starts_with "header " l).
  { destruct (unhex _) as [v|] eqn:E; [|done]. case_match eqn:Es; [|done]. bool_props.
    apply unhex_wf in E. split; try done. intros _. split; [|done]. unfold size, HEADER_SIZE in Es. cbn. lia. }
  destruct (_ && _); [|done].
  destruct (unhex_n 32 _) as [v|] eqn:E; [|done]. apply unhex_n_wf in E. split; try done.
  apply Forall_app. split; [done|]. by constructor.
Qed.

Lemma read_proof_wf content : wf_proof (read_proof content).
Proof.
  unfold read_proof. assert (wf_proof ProofFile_init) as H by (split; [apply wf_zero_hash|done|constructor]).
  revert H. generalize ProofFile_init. induction (lines content) as [|l ls IH]; intros f Hf; [done|].
  cbn [foldl]. by apply IH, read_line_wf.
Qed.

Section sound.
Context `{HF : HashFn}.

Lemma verify_text_true content : verify_text content = Some true →
  let f := read_proof content in
  ∃ h, wf_header h ∧ pf_header f = header_enc h ∧ pf_blockhash f = header_hash h ∧
    pf_height f = h_height h ∧ merkle_apply (pf_txid f) (pf_steps f) = h_merkle h ∧
    (0 < h_height h → pow_ok (header_hash h) (h_bits h) = true).
Proof.
  unfold verify_text. pose proof (read_proof_wf content) as [_ Hwh _].
  set (f := read_proof content) in *. destruct (well_formed f) eqn:Ew; [|done]. cbn [negb].
  unfold well_formed in Ew. bool_props. destruct Hwh as [Hl Hb]; [done|].
  destruct (header_parse _) as [[h r]|] eqn:E; [|done]. intros [= Hc]. unfold check_proof in Hc.
  apply (codec_enc (Codec := header_codec)) in E as (Hh & Hv & _); [|by apply wfr_reader_of].
  assert (pf_header f = header_enc h) as Eh.
  { change (view (reader_of (pf_header f))) with (pf_header f) in Hv. rewrite Hv.
    apply (f_equal length) in Hv. rewrite length_app, length_header_enc, Hl in Hv by done.
    destruct (view r); [by rewrite app_nil_r|cbn in Hv; lia]. }
  bool_props. exists h. rewrite header_hash_enc, <- Eh. split_and!; try done; try congruence.
  intros Hpos. match goal with Hx : _ && negb _ = false |- _ => apply andb_false_iff in Hx as [Hx|Hx] end;
    bool_props; [lia|congruence].
Qed.
End sound.

(** ** Theorems *)

Section theorems.
Context `{HF : HashFn} `{CN : Cng} {D : Type}.
Implicit Types c : Chain D.

(** C33: what a node proves a wallet verifies. For every transaction of a valid chain
    [/prove] answers with a file, and [clctl verify] reads this text back and accepts
    it (unless two of the strings hashed for the chain collide). *)
Theorem prove_verify c b j t : wf_params (params c) → chain_inv c →
  size (blocks c) ≤ 2 ^ 32 → size (chain_txs (blocks c)) ≤ 2 ^ 64 →
  b ∈ blocks c → b_txs b !! j = Some t →
  (∃ text, prove_text c (txid t) = Some text ∧ verify_text text = Some true) ∨
  collision (chain_pre (params c) (blocks c)).
Proof.
  intros Hp Hc Hs Ht Hb Hj.
  set (K := chain_pre (params c) (blocks c)). assert (K ⊆ K) as HK by done.
  destruct (valid_heights K (params c) (blocks c) HK Hp (ci_wf c Hc) (ci_valid c Hc)) as [Hh|?]; [|by right].
  destruct (index_of_complete K (params c) (blocks c)) as [Hall|?]; try done;
    [apply Hc|apply Hc|lia| |by right].
  left. pose proof (list_elem_of_lookup_1 _ _ Hb) as [i Hi].
  assert (wf_block b) as [Hwb _] by (eapply Forall_forall; [apply Hc|done]).
  assert (h_height (b_h b) = Z.of_nat i) as Ehi.
  { rewrite (Hh i b Hi). apply lookup_lt_Some in Hi. unfold size in Hs.
    apply wrap_small. unfold in_width. lia. }
  exists (proof_text (txid t) b (Z.of_nat j) (merkle_proof (map txid (b_txs b)) j)). split.
  - unfold prove_text. rewrite (ci_txidx c Hc), (Hall b j t Hb Hj).
    rewrite (valid_height_bound _ i b Hh Hs Hi).
    rewrite (valid_index_bound (params c) (blocks c) b j t) by (apply Hc || done).
    rewrite !Nat2Z.id, Hi. done.
  - rewrite verify_proof_text; [|apply wf_txid|done|lia| |apply wf_merkle_proof, wf_txids].
    2:{ apply lookup_lt_Some in Hi. unfold size in Hs. lia. }
    destruct (chain_valid_lookup (params c) (blocks c) i b) as (Hm & Hpow); [apply Hc|done|intros E0; by rewrite E0 in Hj|].
    rewrite <- Hm, bool_decide_eq_true_2.
    + rewrite Hpow. by rewrite andb_false_r.
    + apply merkle_proof_correct. rewrite list_lookup_fmap. by rewrite Hj.
Qed.

(** C34: an accepted proof of a transaction is right. If [clctl verify] accepts a file
    whose block hash is that of a block of a valid chain that has transactions, and
    the file's id is the id of a transaction, then this transaction is in the block
    (unless two of the strings hashed for the chain, the transaction and the file
    collide); the header, height and proof of work of the file are those of the block. *)
Theorem verify_sound c content b t : chain_inv c → b ∈ blocks c → b_txs b ≠ [] → wire_tx t →
  verify_text content = Some true → let f := read_proof content in
  pf_blockhash f = block_hash b → pf_txid f = txid t →
  (t ∈ b_txs b ∧ pf_header f = header_serialize (b_h b) ∧ pf_height f = h_height (b_h b)) ∨
  collision (chain_pre (params c) (blocks c) ++ pf_header f :: tx_enc t :: path_pre (txid t) (pf_steps f)).
Proof.
  intros Hc Hb Hne Ht Hv f Hbh Hid.
  destruct (verify_text_true content Hv) as (h & Hh & Eh & Ebh & Ehh & Em & _). fold f in Eh, Ebh, Ehh, Em.
  assert (wf_block b) as [Hwb _] by (eapply Forall_forall; [apply Hc|done]).
  set (K := chain_pre _ _ ++ _). assert (chain_pre (params c) (blocks c) ⊆ K) as HK by by apply list_subseteq_app_l.
  apply chain_pre_subseteq in HK as [_ HK]. specialize (HK b Hb). apply block_pre_subseteq in HK as [HK1 HK2].
  assert (pf_header f ∈ K ∧ tx_enc t ∈ K ∧ path_pre (txid t) (pf_steps f) ⊆ K) as (HK3 & HK4 & HK5).
  { split_and!; [apply elem_of_app; right; left|apply elem_of_app; right; right; left|].
    by apply list_subseteq_app_r, list_subseteq_cons, list_subseteq_cons. }
  destruct (header_hash_inj K h (b_h b)) as [->|?];
    [by rewrite <- Eh|done|done|done|unfold block_hash in *; congruence| |by right].
  pose proof (valid_wire _ _ (ci_wf c Hc) (ci_valid c Hc)) as Hz. rewrite Forall_forall in Hz.
  destruct (Hz b Hb) as (_ & Hzt & _).
  apply list_elem_of_lookup in Hb as [i Hi].
  destruct (chain_valid_lookup (params c) (blocks c) i b) as (Hm & _); [apply Hc|done|done|].
  rewrite <- Hm, Hid in Em. pose proof (read_proof_wf content) as [_ _ Hsteps].
  destruct (merkle_path_txid K (b_txs b) t (pf_steps f)) as [Hin|?]; try done; [|by right].
  left. by rewrite header_serialize_enc.
Qed.

(** C40: the file's id need not be the id of a transaction. For every block of a valid
    chain the file that claims the block's Merkle root itself as a transaction id, with
    no siblings, is accepted ([cmd_verify] checks neither the length of the path nor
    the position), and for a block of two or more transactions this root is the id of
    no transaction at all (unless two of the strings hashed for it and the block
    collide). *)
Theorem verify_accepts_inner_node c i b index : chain_inv c → blocks c !! S i = Some b →
  h_height (b_h b) ≠ 2 ^ 64 - 1 → 0 ≤ index →
  verify_text (proof_text (h_merkle (b_h b)) b index []) = Some true ∧
  ((1 < length (b_txs b))%nat → ∀ t, wire_tx t → h_merkle (b_h b) ≠ txid t ∨
    collision (tx_enc t :: txs_pre (b_txs b))).
Proof.
  intros Hc Hi Hne Hidx. pose proof (list_elem_of_lookup_2 _ _ _ Hi) as Hb.
  assert (wf_block b) as [Hwb _] by (eapply Forall_forall; [apply Hc|done]). split.
  - rewrite verify_proof_text; [|by apply wf_h_merkle|done|done|done|constructor].
    rewrite bool_decide_eq_true_2 by done.
    rewrite (chain_valid_pow (params c) (blocks c) i b) by (apply Hc || done). by rewrite andb_false_r.
  - intros Hl t Ht. pose proof (valid_wire _ _ (ci_wf c Hc) (ci_valid c Hc)) as Hz.
    rewrite Forall_forall in Hz. destruct (Hz b Hb) as (_ & Hzt & _).
    destruct (chain_valid_lookup (params c) (blocks c) (S i) b) as (<- & _); [apply Hc|done| |].
    + intros E. rewrite E in Hl. cbn in Hl. lia.
    + apply root_not_txid; try done; [|left]. by apply list_subseteq_cons, list_subseteq_app_r.
Qed.
End theorems.
