(* ===== verification/Rpc.v ===== *)
(** * Rpc: the endpoints of [handle_rpc] of [src/node_impl.h]

    [handle_rpc] answers one request, from the state of the node to its new state and
    the response. One Definition per endpoint, in the order of the code; the JSON
    texts are built with [strf] where the code does, whose buffer may cut them. *)

From S2P Require Import Prelude Hex Text Json Serial Sha256 Hash Crypto Merkle Tx Ledger Store Chain Consensus Recovery Mempool Miner Net Http Node Verify.

Local Open Scope Z_scope.

(** The members of [App] that only the viewer and [/nodes] read, the web page compiled
    into the binary and [read_file]. *)
Record Web := mkWeb {
  webroot : string;
  rpc_peers : string;
  rpc_port : Z;
  viewer_html : string;
  read_file : string → string;
}.

Definition json_type : string := "application/json".
Definition json (body : string) : HttpResp := mkResp 200 json_type body.
Definition err400 (e : string) : HttpResp := mkResp 400 json_type (obj [("error", JStr e)]).
Definition err404 (e : string) : HttpResp := mkResp 404 json_type (obj [("error", JStr e)]).

(** [r.query.count(k) ? r.query.at(k) : ""] *)
Definition param (r : HttpReq) (k : string) : string := default "" (query r !! k).

(** A vector subscript out of range, which the invariant of the node excludes. *)
Definition out_of_range : HttpResp := mkResp 500 "" "".

(** A list of quoted texts with commas. *)
Definition quoted_list (l : list string) : string := join "," (map quoted l).

(** ** Static pages *)

Definition backslash : string := String (ascii_of_nat 92) "".

Definition viewer_page (w : Web) : HttpResp :=
  let html := if bool_decide (webroot w = "") then ""
              else read_file w (webroot w +:+ backslash +:+ "viewer.html") in
  let html := if bool_decide (html = "") then viewer_html w else html in
  if negb (bool_decide (html = "")) then mkResp 200 "text/html; charset=utf-8" html
  else mkResp 200 "text/plain"
    ("chainlite node RPC (no web viewer embedded or found)" +:+ newline +:+
     "Endpoints: GET /help for the list." +:+ newline).

Definition help_page : HttpResp :=
  mkResp 200 "text/plain" (foldr (λ l s, l +:+ newline +:+ s) ""
    ["chainlite node RPC";
     "  GET  /            web viewer (explorer + wallet)";
     "  GET  /status";
     "  GET  /balance?addr=<hex40>";
     "  GET  /block?height=N | /block?hash=<hex64>";
     "  GET  /tx?id=<hex64>";
     "  GET  /mempool";
     "  GET  /records?limit=N[&addr=<hex40>]   (notes feed: every RECORD tx)";
     "  GET  /tail?n=N";
     "  GET  /prove?txid=<hex64>          (merkle inclusion proof)";
     "  POST /submit        body=<hex tx>";
     "  GET  /work?addr=<hex40>           (mining work for external miner)";
     "  POST /submitwork    body=<hex 100-byte header>"]).

Definition nodes_fields (w : Web) : list (string * JVal) :=
  let src := if bool_decide (rpc_peers w = "") then pretty (rpc_port w) else rpc_peers w in
  let ports := List.filter (λ t, negb (bool_decide (t = ""))) (pieces "," src) in
  [("self", JNum (rpc_port w)); ("rpc", JRaw ("[" +:+ join "," ports +:+ "]"))].

Definition nodes_page (w : Web) : HttpResp := json (strf (obj (nodes_fields w))).

Section queries.
Context `{HF : HashFn} `{CN : Cng} {D : Type}.
Implicit Types a : App D.
Implicit Types c : Chain D.

(** ** State and accounts *)

Definition status_fields a : list (string * JVal) :=
  [("height", JNum (height (chain a)));
   ("tip", JStr (hexs (app_tip_hash a)));
   ("work", JNum (work (chain a)));
   ("peers", JNum (ready_count (p2p a)));
   ("mempool", JNum (Z.of_nat (stdpp.base.size (m (pool a)))));
   ("mining", JRaw (if mine_on a then "true" else "false"));
   ("miner_addr", JStr (hexs (miner_addr a)));
   ("net_id", JNum (p_net_id (a_params a)));
   ("bits", JNum (p_bits (a_params a)));
   ("reward", JNum (p_reward (a_params a)))].

Definition get_status a : HttpResp := json (strf (obj (status_fields a))).

Definition balance_fields a (ad : bytes) : list (string * JVal) :=
  [("addr", JStr (hexs ad));
   ("balance", JNum (cur_balance (st (chain a)) ad));
   ("nonce", JNum (cur_nonce (st (chain a)) ad))].

Definition get_balance a (r : HttpReq) : HttpResp :=
  match unhex_n 20 (param r "addr") with
  | None => err400 "need addr=<hex40>"
  | Some ad => json (strf (obj (balance_fields a ad)))
  end.

(** ** Blocks *)

(** The block that [height] or [hash] names. *)
Definition find_block c (r : HttpReq) : option Block :=
  match query r !! "height" with
  | Some s =>
      let h := strtoull s in
      if h <? size (blocks c) then blocks c !! Z.to_nat h else None
  | None =>
      s ← query r !! "hash";
      want ← unhex_n 32 s;
      '(i, _) ← list_find (λ x, x = want) (hashes c);
      blocks c !! i
  end.

Definition block_fields (b : Block) : list (string * JVal) :=
  [("height", JNum (h_height (b_h b)));
   ("hash", JStr (hexs (header_hash (b_h b))));
   ("prev", JStr (hexs (h_prev (b_h b))));
   ("merkle", JStr (hexs (h_merkle (b_h b))));
   ("time", JNum (h_time (b_h b)));
   ("bits", JNum (h_bits (b_h b)));
   ("nonce", JNum (h_nonce (b_h b)));
   ("ntx", JNum (size (b_txs b)))].

(** An object that is still open at a list of texts. *)
Definition open_list (fs : list (string * JVal)) (k : string) : string :=
  "{" +:+ fields_text fs +:+ "," +:+ quoted k +:+ ":[".

Definition get_block a (r : HttpReq) : HttpResp :=
  match find_block (chain a) r with
  | None => err404 "block not found"
  | Some b =>
      json (strf (open_list (block_fields b) "txids") +:+
            quoted_list (map (λ t, hexs (txid t)) (b_txs b)) +:+ "]}")
  end.

Definition summary_fields (b : Block) : list (string * JVal) :=
  [("height", JNum (h_height (b_h b)));
   ("hash", JStr (hexs (header_hash (b_h b))));
   ("time", JNum (h_time (b_h b)));
   ("ntx", JNum (size (b_txs b)))].

Definition json_block_summary (b : Block) : string := strf (obj (summary_fields b)).

Definition get_tail a (r : HttpReq) : HttpResp :=
  let n := match query r !! "n" with Some s => strtoull s | None => 10 end in
  let n := Z.min n 100 in
  let total := size (blocks (chain a)) in
  let start := if total >? n then total - n else 0 in
  json ("{" +:+ quoted "blocks" +:+ ":[" +:+
        join "," (map json_block_summary (drop (Z.to_nat start) (blocks (chain a)))) +:+ "]}").

(** ** Transactions *)

Definition confirmations a (b : Block) : Z := u64 (u64 (height (chain a) - h_height (b_h b)) + 1).

Definition tx_fields a (id : bytes) (b : Block) (i : Z) (t : Tx) : list (string * JVal) :=
  [("txid", JStr (hexs id));
   ("status", JStr "confirmed");
   ("height", JNum (h_height (b_h b)));
   ("index", JNum i);
   ("confirmations", JNum (confirmations a b));
   ("type", JNum (t_type t));
   ("from", JStr (if t_type t =? TX_COINBASE then "coinbase" else hexs (addr_of (t_from t))));
   ("to", JStr (hexs (t_to t)));
   ("amount", JNum (t_amount t));
   ("nonce", JNum (t_nonce t));
   ("payload_hex", JStr (hexs (t_payload t)))].

Definition pending_text (id : bytes) : string :=
  strf (obj [("txid", JStr (hexs id)); ("status", JStr "pending")]).

Definition get_tx a (r : HttpReq) : HttpResp :=
  match unhex_n 32 (param r "id") with
  | None => err400 "need id=<hex64>"
  | Some id =>
      match txidx (chain a) !! id with
      | Some (h, i) =>
          match blocks (chain a) !! Z.to_nat h with
          | Some b =>
              match b_txs b !! Z.to_nat i with
              | Some t => json (strf (obj (tx_fields a id b i t)))
              | None => out_of_range
              end
          | None => out_of_range
          end
      | None =>
          if bool_decide (is_Some (find (pool a) id)) then json (pending_text id)
          else err404 "tx not found (it may have been dropped in a reorg; resubmit)"
      end
  end.

Definition get_mempool a : HttpResp :=
  json (strf ("{" +:+ fields_text [("count", JNum (Z.of_nat (stdpp.base.size (m (pool a)))))] +:+ "," +:+
              quoted "txids" +:+ ":[") +:+
        quoted_list (map (λ kt, hexs (txid kt.2)) (entries (pool a))) +:+ "]}").

(** ** The notes feed *)

(** The members that [emit] prints. *)
Record FeedRow := mkRow {
  fr_tx : Tx;
  fr_status : string;
  fr_height : Z;
  fr_time : Z;
  fr_conf : Z;
}.

Definition row_fields (f : FeedRow) : list (string * JVal) :=
  [("txid", JStr (hexs (txid (fr_tx f))));
   ("status", JStr (fr_status f));
   ("height", JNum (fr_height f));
   ("time", JNum (fr_time f));
   ("confirmations", JNum (fr_conf f));
   ("from", JStr (hexs (addr_of (t_from (fr_tx f)))));
   ("payload_hex", JStr (hexs (t_payload (fr_tx f))))].

Definition row_text (f : FeedRow) : string := strf (obj (row_fields f)).

(** The variables [out] and [n] of the handler. *)
Definition emit (o : string * Z) (f : FeedRow) : string * Z :=
  let '(out, n) := o in
  let out := if negb (n =? 0) then out +:+ "," else out in
  (out +:+ row_text f, n + 1).

(** The two [continue]s of the loops, negated. *)
Definition wanted (only : option bytes) (t : Tx) : bool :=
  (t_type t =? TX_RECORD) &&
  match only with Some ad => bool_decide (addr_of (t_from t) = ad) | None => true end.

Definition pending_row (t : Tx) : FeedRow := mkRow t "pending" 0 0 0.
Definition confirmed_row a (b : Block) (t : Tx) : FeedRow :=
  mkRow t "confirmed" (h_height (b_h b)) (h_time (b_h b)) (confirmations a b).

(** The loop over the transactions of the pool, and that over a block's. *)
Fixpoint emit_loop (row : Tx → FeedRow) (only : option bytes) (limit : Z) (ts : list Tx) (o : string * Z)
    : string * Z :=
  match ts with
  | [] => o
  | t :: ts =>
      if limit <=? o.2 then o
      else emit_loop row only limit ts (if wanted only t then emit o (row t) else o)
  end.

(** The loops over blocks count down: they run on reversed lists. *)
Fixpoint blocks_loop a (bs : list Block) (only : option bytes) (limit : Z) (o : string * Z) : string * Z :=
  match bs with
  | [] => o
  | b :: bs =>
      if limit <=? o.2 then o
      else blocks_loop a bs only limit (emit_loop (confirmed_row a b) only limit (reverse (b_txs b)) o)
  end.

Definition records_limit (r : HttpReq) : Z :=
  let limit := match query r !! "limit" with Some s => strtoull s | None => 50 end in
  if (limit =? 0) || (limit >? 500) then 500 else limit.

Definition get_records a (r : HttpReq) : HttpResp :=
  let limit := records_limit r in
  let feed (only : option bytes) :=
    let o := ("{" +:+ quoted "records" +:+ ":[", 0) in
    let o := emit_loop pending_row only limit (entries (pool a)).*2 o in
    let o := blocks_loop a (reverse (blocks (chain a))) only limit o in
    json (o.1 +:+ "]}") in
  match query r !! "addr" with
  | None => feed None
  | Some s => match unhex_n 20 s with None => err400 "bad addr" | Some ad => feed (Some ad) end
  end.

(** ** Proofs *)

Definition get_prove a (r : HttpReq) : HttpResp :=
  match unhex_n 32 (param r "txid") with
  | None => err400 "need txid=<hex64>"
  | Some id =>
      match prove_text (chain a) id with
      | None => err404 "tx not confirmed on this chain"
      | Some text => mkResp 200 "text/plain" text
      end
  end.
End queries.

(** ** Requests that change the node *)

Section handlers.
Context `{HF : HashFn} `{CN : Cng} {D : Type} `{DB : Sqlite D}.
Implicit Types a : App D.

Definition post_submit a (r : HttpReq) : App D * HttpResp :=
  match unhex (req_body r) with
  | None => (a, err400 "body must be hex")
  | Some raw =>
      let '(a, res) := submit_tx a raw in
      (a, match res with Err e => err400 e | Ok t => json (pending_text (txid t)) end)
  end.

Definition work_fields a (h : BlockHeader) (ntx : Z) : list (string * JVal) :=
  [("header", JStr (hexs (header_serialize h)));
   ("bits", JNum (h_bits h));
   ("height", JNum (h_height h));
   ("tip", JStr (hexs (app_tip_hash a)));
   ("ntx", JNum ntx)].

Definition work_answer a (payto : bytes) (now : Z) : App D * HttpResp :=
  let '(a, h) := get_work a payto now in
  let ntx := match work_cache a !! h_merkle h with Some l => size l | None => 0 end in
  (a, json (strf (obj (work_fields a h ntx)))).

Definition get_work_page a (r : HttpReq) (clock : nat → Z) : App D * HttpResp :=
  match query r !! "addr" with
  | None => work_answer a (miner_addr a) (clock 0%nat)
  | Some s =>
      match unhex_n 20 s with
      | None => (a, err400 "bad addr")
      | Some ad => work_answer a ad (clock 0%nat)
      end
  end.

Definition post_submitwork a (r : HttpReq) (clock : nat → Z) : App D * HttpResp :=
  match unhex (req_body r) with
  | None => (a, err400 "body must be hex of 100-byte header")
  | Some raw =>
      if negb (size raw =? HEADER_SIZE) then (a, err400 "body must be hex of 100-byte header")
      else
        match header_parse (reader_of raw) with
        | Err _ => (a, err400 "bad header")
        | Ok (h, _) =>
            let '(a, res) := submit_work a h clock in
            (a, match res with
                | Err e => err400 e
                | Ok b => json (strf (obj [("ok", JRaw "true");
                                           ("height", JNum (h_height (b_h b)));
                                           ("hash", JStr (hexs (header_hash (b_h b))))]))
                end)
        end
  end.

(** [clock] holds the readings of [now_s()] during the request. *)
Definition handle_rpc (w : Web) (clock : nat → Z) a (r : HttpReq) : App D * HttpResp :=
  let p := path r in
  let post := bool_decide (method r = "POST") in
  if bool_decide (p = "/") || bool_decide (p = "/app") || bool_decide (p = "/viewer.html") then (a, viewer_page w)
  else if bool_decide (p = "/help") then (a, help_page)
  else if bool_decide (p = "/nodes") then (a, nodes_page w)
  else if bool_decide (p = "/status") then (a, get_status a)
  else if bool_decide (p = "/balance") then (a, get_balance a r)
  else if bool_decide (p = "/block") then (a, get_block a r)
  else if bool_decide (p = "/tx") then (a, get_tx a r)
  else if bool_decide (p = "/mempool") then (a, get_mempool a)
  else if bool_decide (p = "/records") then (a, get_records a r)
  else if bool_decide (p = "/tail") then (a, get_tail a r)
  else if bool_decide (p = "/submit") && post then post_submit a r
  else if bool_decide (p = "/prove") then (a, get_prove a r)
  else if bool_decide (p = "/work") then get_work_page a r clock
  else if bool_decide (p = "/submitwork") && post then post_submitwork a r clock
  else (a, err404 "unknown endpoint (GET / for help)").
End handlers.
