(* ===== verification/RpcSpec.v ===== *)
(** * RpcSpec: what the endpoints promise

    Requests as steps of the transition system of [Safety], the notes feed against its
    reading by itself, and answers that fit the buffer of [strf]. *)

From S2P Require Import Prelude Hex Text Json Serial Sha256 Hash Crypto Merkle Tx Ledger Store Chain Consensus Recovery Mempool Miner Net Http Node Safety Verify Rpc.

Local Open Scope Z_scope.

(** ** The notes feed *)

Lemma join_snoc sep l x : l ≠ [] → join sep (l ++ [x]) = join sep l +:+ sep +:+ x.
Proof.
  induction l as [|y l IH]; [done|]. intros _. destruct l as [|z l]; [done|].
  change (join sep ((y :: z :: l) ++ [x])) with (y +:+ sep +:+ join sep ((z :: l) ++ [x])).
  change (join sep (y :: z :: l)) with (y +:+ sep +:+ join sep (z :: l)).
  rewrite IH by done. by rewrite !string_app_assoc.
Qed.

Section feed.
Context `{HF : HashFn} {D : Type}.
Implicit Types a : App D.

(** The variables [out] and [n] after some rows. *)
Definition feed_state (pre : string) (rows : list FeedRow) : string * Z :=
  (pre +:+ join "," (map row_text rows), size rows).

Lemma emit_row pre rows f : emit (feed_state pre rows) f = feed_state pre (rows ++ [f]).
Proof.
  unfold emit, feed_state, size. rewrite map_app, length_app. cbn [map length]. f_equal; [|lia].
  destruct rows as [|g rows].
  - cbn [map join length app]. by rewrite string_app_nil_r.
  - rewrite join_snoc by done. cbn [length]. rewrite (proj2 (Z.eqb_neq _ 0)) by lia. cbn [negb].
    by rewrite !string_app_assoc.
Qed.

Lemma emit_loop_rows row only limit ts pre rows : size rows ≤ limit →
  emit_loop row only limit ts (feed_state pre rows) =
  feed_state pre (take (Z.to_nat limit) (rows ++ map row (List.filter (wanted only) ts))).
Proof.
  revert rows. induction ts as [|t ts IH]; intros rows Hl; cbn [emit_loop].
  - cbn. rewrite app_nil_r, take_ge; [done|]. unfold size in Hl. lia.
  - cbn [feed_state snd]. destruct (Z.leb_spec limit (size rows)) as [Hle|Hlt].
    + assert (Z.to_nat limit = length rows) as -> by (unfold size in *; lia). by rewrite take_app_length.
    + cbn [List.filter]. destruct (wanted only t); [|by apply IH]. rewrite emit_row, IH.
      * cbn [map]. by rewrite <- app_assoc.
      * unfold size in *. rewrite length_app. cbn. lia.
Qed.

(** The rows of a block, last transaction first. *)
Definition block_rows a only (b : Block) : list FeedRow :=
  map (confirmed_row a b) (List.filter (wanted only) (reverse (b_txs b))).

Lemma blocks_loop_rows a bs only limit pre rows : size rows ≤ limit →
  blocks_loop a bs only limit (feed_state pre rows) =
  feed_state pre (take (Z.to_nat limit) (rows ++ concat (map (block_rows a only) bs))).
Proof.
  revert rows. induction bs as [|b bs IH]; intros rows Hl; cbn [blocks_loop].
  - cbn. rewrite app_nil_r, take_ge; [done|]. unfold size in Hl. lia.
  - cbn [feed_state snd]. destruct (Z.leb_spec limit (size rows)) as [Hle|Hlt].
    + assert (Z.to_nat limit = length rows) as -> by (unfold size in *; lia). by rewrite take_app_length.
    + fold (feed_state pre rows). rewrite emit_loop_rows by done. rewrite IH.
      * cbn [map concat]. fold (block_rows a only b). rewrite (app_assoc rows). f_equal.
        set (x := rows ++ block_rows a only b). set (y := concat _).
        destruct (decide (length x ≤ Z.to_nat limit)%nat).
        -- by rewrite (take_ge x).
        -- rewrite !take_app_le by (rewrite ?length_take; lia). by rewrite take_take, Nat.min_id.
      * unfold size in *. rewrite length_take. lia.
Qed.

(** All rows of a feed: what is pending in the order of the pool, then what is confirmed,
    newest block first and last transaction of a block first. *)
Definition feed_rows a only : list FeedRow :=
  map pending_row (List.filter (wanted only) (entries (pool a)).*2) ++
  concat (map (block_rows a only) (reverse (blocks (chain a)))).

(** The address that restricts a feed. *)
Definition feed_filter (r : HttpReq) : option (option bytes) :=
  match query r !! "addr" with None => Some None | Some s => Some <$> unhex_n 20 s end.

Lemma records_limit_range r : 0 < records_limit r ≤ 500.
Proof.
  unfold records_limit. destruct (query r !! "limit") as [s|]; [|cbn; lia].
  destruct (strtou_range 64 s) as [H _]; [lia|]. fold (strtoull s) in H.
  destruct (Z.eqb_spec (strtoull s) 0); [cbn; lia|]. cbn [orb].
  rewrite Z.gtb_ltb. destruct (Z.ltb_spec 500 (strtoull s)); lia.
Qed.

(** The answer in the terms of the loops. *)
Lemma records_rows a r :
  0 < records_limit r ≤ 500 ∧
  get_records a r =
    match feed_filter r with
    | None => err400 "bad addr"
    | Some only =>
        json ("{" +:+ quoted "records" +:+ ":[" +:+
          join "," (map row_text (take (Z.to_nat (records_limit r)) (feed_rows a only))) +:+ "]}")
    end.
Proof.
  pose proof (records_limit_range r) as Hl. split; [done|]. unfold get_records.
  assert (∀ only,
    (blocks_loop a (reverse (blocks (chain a))) only (records_limit r)
      (emit_loop pending_row only (records_limit r) (entries (pool a)).*2
        ("{" +:+ quoted "records" +:+ ":[", 0))).1 +:+ "]}" =
    "{" +:+ quoted "records" +:+ ":[" +:+
          join "," (map row_text (take (Z.to_nat (records_limit r)) (feed_rows a only))) +:+ "]}") as Hf.
  { intros only. set (pre := "{" +:+ quoted "records" +:+ ":[").
    assert ((pre, 0) = feed_state pre []) as ->.
    { unfold feed_state. cbn. by rewrite string_app_nil_r. }
    rewrite emit_loop_rows by (unfold size; cbn [length]; lia). rewrite blocks_loop_rows.
    2:{ unfold size. rewrite length_take. lia. }
    cbn [feed_state fst]. rewrite app_nil_l. unfold feed_rows.
    set (x := map pending_row _). set (y := concat _). unfold pre. rewrite !string_app_assoc.
    do 5 f_equal. f_equal. destruct (decide (length x ≤ Z.to_nat (records_limit r))%nat).
    - by rewrite (take_ge x).
    - rewrite !take_app_le by (rewrite ?length_take; lia). by rewrite take_take, Nat.min_id. }
  unfold feed_filter. destruct (query r !! "addr") as [s|]; [|by rewrite Hf].
  destruct (unhex_n 20 s) as [ad|]; [|done]. cbn. by rewrite Hf.
Qed.
(** *** What the feed is *)

(** A note: a transaction of type RECORD, with an address one whose sender has it. *)
Definition note (only : option bytes) (t : Tx) : Prop :=
  t_type t = TX_RECORD ∧ match only with None => True | Some ad => take 20 (hash256 (t_from t)) = ad end.

#[export] Instance note_dec only t : Decision (note only t).
Proof. unfold note. destruct only; apply _. Defined.

(** A note as the feed shows it. *)
Definition note_text (t : Tx) (status : string) (height time conf : Z) : string :=
  strf (obj [("txid", JStr (hexs (hash256d (tx_serialize t)))); ("status", JStr status); ("height", JNum height);
             ("time", JNum time); ("confirmations", JNum conf);
             ("from", JStr (hexs (take 20 (hash256 (t_from t))))); ("payload_hex", JStr (hexs (t_payload t)))]).

(** Those of the pool in its order, then those of the chain from the last transaction of the
    last block back, each with the number of blocks from its own to the tip. *)
Definition notes a (only : option bytes) : list string :=
  map (λ t, note_text t "pending" 0 0 0) (filter (note only) (entries (pool a)).*2) ++
  concat (map (λ b, map (λ t, note_text t "confirmed" (h_height (b_h b)) (h_time (b_h b))
                                (u64 (height (chain a) - h_height (b_h b) + 1)))
                        (filter (note only) (reverse (b_txs b))))
              (reverse (blocks (chain a)))).

(** 50 without an option; what the option says from 1 to 500, and else 500. *)
Definition notes_limit (r : HttpReq) : nat :=
  match query r !! "limit" with
  | None => 50
  | Some s => if decide (1 ≤ strtoull s ≤ 500) then Z.to_nat (strtoull s) else 500
  end.

Lemma records_limit_is r : Z.to_nat (records_limit r) = notes_limit r.
Proof.
  unfold records_limit, notes_limit. destruct (query r !! "limit") as [s|]; [|done].
  destruct (strtou_range 64 s) as [H _]; [lia|]. fold (strtoull s) in H. rewrite Z.gtb_ltb.
  destruct (Z.eqb_spec (strtoull s) 0), (Z.ltb_spec 500 (strtoull s)); cbn [orb]; case_decide; lia || done.
Qed.

Lemma filter_wanted only ts : List.filter (wanted only) ts = filter (note only) ts.
Proof.
  induction ts as [|t ts IH]; [done|]. cbn [List.filter]. rewrite filter_cons, IH.
  replace (wanted only t) with (bool_decide (note only t)); [by case_bool_decide; case_decide|].
  unfold wanted, note, addr_of.
  destruct (Z.eqb_spec (t_type t) TX_RECORD), only as [ad|]; cbn [andb];
    repeat case_bool_decide; naive_solver.
Qed.

Lemma feed_rows_notes a only : map row_text (feed_rows a only) = notes a only.
Proof.
  unfold feed_rows, notes. rewrite map_app, filter_wanted, map_map, concat_map, map_map. f_equal. f_equal.
  apply map_ext. intros b. unfold block_rows. rewrite filter_wanted, map_map. apply map_ext. intros t.
  unfold row_text, row_fields, confirmed_row, confirmations, note_text. cbn [fr_tx fr_status fr_height fr_time fr_conf].
  by rewrite wrap_add_l.
Qed.

(** C35: [/records] is the feed of notes, newest first. The answer is the array of the first
    [limit] notes, 50 without that option and at most 500: transactions of type RECORD and
    no others, with an address only those whose sender has it; first the pending ones in
    the order of the pool, then the confirmed ones from the last transaction of the last
    block back, each with its id, its place, the blocks from it to the tip, its sender and
    its payload. An address that is not 20 bytes of hexadecimal is refused. *)
Theorem records_feed a r :
  get_records a r =
    match unhex_n 20 <$> query r !! "addr" with
    | Some None => err400 "bad addr"
    | Some (Some ad) =>
        json ("{" +:+ quoted "records" +:+ ":[" +:+ join "," (take (notes_limit r) (notes a (Some ad))) +:+ "]}")
    | None =>
        json ("{" +:+ quoted "records" +:+ ":[" +:+ join "," (take (notes_limit r) (notes a None)) +:+ "]}")
    end.
Proof.
  destruct (records_rows a r) as [_ ->]. unfold feed_filter. rewrite records_limit_is.
  destruct (query r !! "addr") as [s|]; cbn; [destruct (unhex_n 20 s) as [ad|]; cbn; [|done]|];
    by rewrite <- feed_rows_notes, firstn_map.
Qed.
End feed.

(** ** Requests as steps *)

Section requests.
Context `{HF : HashFn} `{CN : Cng} {D : Type} `{DB : Sqlite D}.
Implicit Types a : App D.

Lemma set_pool_same a : set_pool a (pool a) = a.
Proof. by destruct a. Qed.

(** A refused request changes nothing. *)
Lemma submit_tx_refused a raw a' e : submit_tx a raw = (a', Err e) → a' = a.
Proof.
  unfold submit_tx. destruct (whole_tx raw) as [t|]; [|by intros [= <-]].
  destruct (known_tx a (txid t)); [by intros [= <-]|].
  destruct (add _ _ _ _) as [mp err] eqn:E. case_bool_decide as He; cbn [negb]; [done|].
  intros [= <- _]. destruct (add_cases _ _ _ _ _ _ E) as [(->&_)|(_&->&_)]; [done|apply set_pool_same].
Qed.

Lemma submit_work_refused a h clock a' e : app_inv a → submit_work a h clock = (a', Err e) → a' = a.
Proof.
  intros Ha. unfold submit_work. destruct (work_cache a !! h_merkle h) as [txs|]; [|by intros [= <-]].
  destruct (connect_block _ _ _) as [c err] eqn:E. case_bool_decide as He; cbn [negb]; [done|].
  intros [= <- _]. rewrite (connect_block_fail _ _ _ _ _ (ai_chain a Ha) E He). apply set_chain_same.
Qed.

Definition codes : list Z := [200; 400; 404].

Lemma code_200 : 200 ∈ codes. Proof. by left. Qed.
Lemma code_400 : 400 ∈ codes. Proof. right. by left. Qed.
Lemma code_404 : 404 ∈ codes. Proof. right. right. by left. Qed.
#[local] Hint Resolve code_200 code_400 code_404 : rpc.

(** The index of transactions leads to transactions. *)
Definition index_ok a : Prop := ∀ id h i, txidx (chain a) !! id = Some (h, i) →
  ∃ b t, blocks (chain a) !! Z.to_nat h = Some b ∧ b_txs b !! Z.to_nat i = Some t ∧ txid t = id ∧
    b ∈ blocks (chain a) ∧ 0 ≤ i.

Lemma app_index_ok a : app_inv a → size (blocks (chain a)) ≤ 2 ^ 32 →
  index_ok a ∨ collision (chain_pre (a_params a) (blocks (chain a))).
Proof.
  intros Ha Hs. pose proof (ai_chain a Ha) as Hc. pose proof (ai_params a Ha) as Hp.
  rewrite <- (ai_same a Ha) in *.
  destruct (valid_heights _ _ _ (reflexivity _) Hp (ci_wf _ Hc) (ci_valid _ Hc)) as [Hh|?]; [left|by right].
  intros id h i H. destruct (txidx_lookup _ _ _ _ Hh Hc Hs H) as (b & t & ? & ? & ? & _ & ? & ?).
  by exists b, t.
Qed.

Lemma query_codes a r : index_ok a →
  resp_code (get_balance a r) ∈ codes ∧ resp_code (get_block a r) ∈ codes ∧
  resp_code (get_tx a r) ∈ codes ∧ resp_code (get_records a r) ∈ codes ∧ resp_code (get_prove a r) ∈ codes.
Proof.
  intros Hi. split_and!.
  - unfold get_balance. case_match; auto with rpc.
  - unfold get_block. case_match; auto with rpc.
  - unfold get_tx. destruct (unhex_n _ _) as [id|]; [|auto with rpc].
    destruct (txidx (chain a) !! id) as [[h i]|] eqn:E; [|case_match; auto with rpc].
    destruct (Hi _ _ _ E) as (b & t & -> & -> & _). auto with rpc.
  - unfold get_records. repeat case_match; auto with rpc.
  - unfold get_prove. repeat case_match; auto with rpc.
Qed.

(** What a request may do. *)
Definition request_post a (res : App D * HttpResp) : Prop :=
  (res.1 = a ∨ step a res.1) ∧ resp_code res.2 ∈ codes ∧ (resp_code res.2 ≠ 200 → res.1 = a).

Lemma request_query a resp : resp_code resp ∈ codes → request_post a (a, resp).
Proof. intros. split_and!; [by left|done|done]. Qed.

Lemma post_submit_post a r : request_post a (post_submit a r).
Proof.
  unfold post_submit. destruct (unhex (req_body r)) as [raw|] eqn:Er; [|apply request_query; auto with rpc].
  destruct (submit_tx a raw) as [a' res] eqn:E. split_and!; cbn [fst snd].
  - right. replace a' with (submit_tx a raw).1 by by rewrite E. apply step_submit. by eapply unhex_wf.
  - destruct res; auto with rpc.
  - destruct res; [done|]. intros _. by eapply submit_tx_refused.
Qed.

Lemma get_work_page_post a r clock : app_inv a → in_width 64 (clock 0%nat) →
  request_post a (get_work_page a r clock).
Proof.
  intros Ha Hc. assert (∀ ad, wf_array 20 ad → request_post a (work_answer a ad (clock 0%nat))) as Hw.
  { intros ad Had. unfold work_answer. destruct (get_work a ad (clock 0%nat)) as [a' h] eqn:E.
    split_and!; cbn [fst snd]; [|auto with rpc|done]. right.
    replace a' with (get_work a ad (clock 0%nat)).1 by by rewrite E. by apply step_work. }
  unfold get_work_page. destruct (query r !! "addr") as [s|]; [|apply Hw, Ha].
  destruct (unhex_n 20 s) as [ad|] eqn:E; [|apply request_query; auto with rpc].
  by eapply Hw, unhex_n_wf.
Qed.

Lemma post_submitwork_post a r clock : app_inv a → request_post a (post_submitwork a r clock).
Proof.
  intros Ha. unfold post_submitwork.
  destruct (unhex (req_body r)) as [raw|] eqn:Er; [|apply request_query; auto with rpc].
  destruct (Z.eqb_spec (size raw) HEADER_SIZE); cbn [negb]; [|apply request_query; auto with rpc].
  destruct (header_parse (reader_of raw)) as [[h rd]|] eqn:Ep; [|apply request_query; auto with rpc].
  destruct (submit_work a h clock) as [a' res] eqn:E. split_and!; cbn [fst snd].
  - right. replace a' with (submit_work a h clock).1 by by rewrite E. apply step_submit_work.
    apply (codec_enc (Codec := header_codec)) in Ep as (Hh & _); [done|].
    apply wfr_reader_of. by eapply unhex_wf.
  - destruct res; auto with rpc.
  - destruct res; [done|]. intros _. by eapply submit_work_refused.
Qed.

(** One test of the chain of endpoints. [P]: the target is none of those that change
    the node. *)
Lemma endpoint_query (P : Prop) (b : bool) a resp rest : resp_code resp ∈ codes →
  request_post a rest ∧ (P → rest.1 = a) →
  request_post a (if b then (a, resp) else rest) ∧ (P → (if b then (a, resp) else rest).1 = a).
Proof. intros Hc Hr. destruct b; [split; [by apply request_query|done]|done]. Qed.

Lemma endpoint_step (P : Prop) (b : bool) a x rest : request_post a x → (b = true → ¬ P) →
  request_post a rest ∧ (P → rest.1 = a) →
  request_post a (if b then x else rest) ∧ (P → (if b then x else rest).1 = a).
Proof. intros Hx Hb Hr. destruct b; [|done]. split; [done|]. intros HP. by destruct Hb. Qed.

(** The targets that change the node. *)
Lemma changing_path r s (l : list string) : s ∈ l → path r = s → ¬ (path r ∉ l).
Proof. by intros Hs -> Hn. Qed.

Lemma handle_rpc_post w clock a r : app_inv a → in_width 64 (clock 0%nat) → index_ok a →
  request_post a (handle_rpc w clock a r) ∧
  (path r ∉ ["/submit"; "/work"; "/submitwork"] → (handle_rpc w clock a r).1 = a).
Proof.
  intros Ha Hc Hi. destruct (query_codes a r Hi) as (? & ? & ? & ? & ?).
  assert (resp_code (viewer_page w) ∈ codes) by (unfold viewer_page; case_match; apply code_200).
  unfold handle_rpc. cbv zeta. do 10 (apply endpoint_query; [first [assumption|apply code_200]|]).
  apply endpoint_step; [apply post_submit_post| |].
  { intros [E%bool_decide_eq_true _]%andb_true_iff. by apply (changing_path _ _ _ ltac:(by left) E). }
  apply endpoint_query; [assumption|].
  apply endpoint_step; [by apply get_work_page_post| |].
  { intros E%bool_decide_eq_true. by apply (changing_path _ _ _ ltac:(right; by left) E). }
  apply endpoint_step; [by apply post_submitwork_post| |].
  { intros [E%bool_decide_eq_true _]%andb_true_iff.
    by apply (changing_path _ _ _ ltac:(right; right; by left) E). }
  split; [apply request_query, code_404|done].
Qed.

(** C22: the RPC interface is safe. Whatever request arrives, with whatever clock, the
    node stays in order and its chain changes only by valid blocks; the request is a
    step of the node or changes nothing, and it changes nothing unless it is a
    submission or asks for work, nor if it is answered with an error; the code is 200,
    400 or 404 (or two of the strings hashed for the chain collide). *)
Theorem rpc_safe w clock a r : app_inv a → in_width 64 (clock 0%nat) → size (blocks (chain a)) ≤ 2 ^ 32 →
  (let '(a', resp) := handle_rpc w clock a r in
   app_inv a' ∧ rtc chain_step (chain a) (chain a') ∧ (a' = a ∨ step a a') ∧
   resp_code resp ∈ [200; 400; 404] ∧ (resp_code resp ≠ 200 → a' = a) ∧
   (path r ∉ ["/submit"; "/work"; "/submitwork"] → a' = a)) ∨
  collision (chain_pre (a_params a) (blocks (chain a))).
Proof.
  intros Ha Hc Hs. destruct (app_index_ok a Ha Hs) as [Hi|?]; [left|by right].
  destruct (handle_rpc_post w clock a r Ha Hc Hi) as [(Hst & Hcode & Herr) Hq].
  destruct (handle_rpc w clock a r) as [a' resp]. cbn [fst snd] in *.
  assert (handled a a') as [? ?].
  { destruct Hst as [->|Hst]; [by apply handled_refl|by apply step_handled]. }
  by split_and!.
Qed.
End requests.

(** ** Answers fit the buffer of strf *)

Lemma strf_obj fs : (2 + sum_list_with field_size fs ≤ 4095)%nat → strf (obj fs) = obj fs.
Proof. intros H. apply strf_short. pose proof (length_obj fs). lia. Qed.

Lemma field_num k x : in_width 64 x → (field_size (k, JNum x) ≤ String.length k + 24)%nat.
Proof. intros H. pose proof (length_num x H). unfold field_size. cbn [fst snd]. lia. Qed.

Lemma field_hex k p n : length p = n → field_size (k, JStr (hexs p)) = (String.length k + 6 + 2 * n)%nat.
Proof. intros <-. unfold field_size. cbn [fst snd]. rewrite length_str, length_hexs. lia. Qed.

Lemma field_str k s : field_size (k, JStr s) = (String.length k + 6 + String.length s)%nat.
Proof. unfold field_size. cbn [fst snd]. rewrite length_str. lia. Qed.

(** Bounds the fields of a concrete object one by one. *)
Ltac object_fits :=
  cbn [sum_list_with];
  repeat match goal with
  | |- context [field_size (?k, JNum ?x)] =>
      let H := fresh "H" in
      assert (field_size (k, JNum x) ≤ String.length k + 24)%nat as H by (apply field_num; assumption);
      revert H; generalize (field_size (k, JNum x)); intros ? H; cbn [String.length] in H
  | |- context [field_size (?k, JStr (hexs ?p))] =>
      first [ rewrite (field_hex k p 20) by auto | rewrite (field_hex k p 32) by auto
            | rewrite (field_hex k p 100) by auto | rewrite (field_hex k p (length p)) by done ]
  | |- context [field_size (?k, JStr ?s)] => rewrite (field_str k s)
  end; cbn [String.length]; try lia.

Section fits.
Context `{HF : HashFn} `{CN : Cng} {D : Type}.
Implicit Types a : App D.

Lemma length_header_hash h : length (header_hash h) = 32%nat.
Proof. apply wf_header_hash. Qed.
Lemma length_txid t : length (txid t) = 32%nat.
Proof. apply wf_txid. Qed.
Lemma length_addr pub : length (addr_of pub) = 20%nat.
Proof. apply wf_addr_of. Qed.

#[local] Hint Resolve length_header_hash length_txid length_addr : core.

Lemma ready_count_range (n : P2P) : 0 ≤ ready_count n ≤ Z.of_nat (stdpp.base.size (peers n)).
Proof.
  unfold ready_count. apply (map_fold_weak_ind (λ k ps, 0 ≤ k ≤ Z.of_nat (stdpp.base.size ps))).
  - rewrite map_size_empty. lia.
  - intros i p ps k Hi IH. rewrite map_size_insert_None by done. case_match; lia.
Qed.

Lemma length_tip_hash a : chain_inv (chain a) → length (app_tip_hash a) = 32%nat.
Proof.
  intros Hc. unfold app_tip_hash. rewrite chain_inv_tip by done. destruct (tip (chain a)); [|done].
  apply wf_header_hash.
Qed.

Lemma account_width (c : Chain D) ad : chain_inv c →
  in_width 64 (cur_balance (st c) ad) ∧ in_width 64 (cur_nonce (st c) ad).
Proof.
  intros Hc. rewrite cur_nonce_acct, cur_balance_acct, (ci_st c Hc ad). apply wf_acct, wf_ledger.
Qed.

Lemma small_width x : 0 ≤ x < 2 ^ 32 → in_width 64 x.
Proof. unfold in_width. lia. Qed.

Lemma width_32 x : in_width 32 x → in_width 64 x.
Proof. by apply in_width_mono. Qed.

Lemma width_8 x : in_width 8 x → in_width 64 x.
Proof. by apply in_width_mono. Qed.

Lemma status_whole a : chain_inv (chain a) → wf_params (a_params a) → wf_array 20 (miner_addr a) →
  Z.of_nat (stdpp.base.size (m (pool a))) ≤ 10000 → Z.of_nat (stdpp.base.size (peers (p2p a))) < 2 ^ 32 →
  strf (obj (status_fields a)) = obj (status_fields a).
Proof.
  intros Hc (Hn & Hb & Hr & _) [Hm _] Hs Hp. apply strf_obj. unfold status_fields.
  pose proof (height_width _ Hc). pose proof (length_tip_hash a Hc).
  assert (in_width 64 (work (chain a))) by (rewrite (ci_work _ Hc); by apply wrap_in_width).
  pose proof (ready_count_range (p2p a)).
  assert (in_width 64 (ready_count (p2p a))) by (apply small_width; lia).
  assert (in_width 64 (Z.of_nat (stdpp.base.size (m (pool a))))) by (apply small_width; lia).
  assert (in_width 64 (p_net_id (a_params a))) by first [by apply width_32|by apply width_8].
  assert (in_width 64 (p_bits (a_params a))) by first [by apply width_32|by apply width_8].
  assert (field_size ("mining", JRaw (if mine_on a then "true" else "false")) ≤ 15)%nat
    by (destruct (mine_on a); cbn; lia).
  object_fits.
Qed.

Lemma balance_whole a ad : chain_inv (chain a) → wf_array 20 ad →
  strf (obj (balance_fields a ad)) = obj (balance_fields a ad).
Proof.
  intros Hc [Ha _]. destruct (account_width (chain a) ad Hc). apply strf_obj. unfold balance_fields. object_fits.
Qed.

Lemma tx_count_width b : wire_block b → in_width 64 (size (b_txs b)).
Proof. intros (_ & _ & H). apply small_width. unfold MAX_BLOCK_TXS, size in *. lia. Qed.

Lemma block_whole b : wire_block b →
  strf (open_list (block_fields b) "txids") = open_list (block_fields b) "txids" ∧
  json_block_summary b = obj (summary_fields b).
Proof.
  intros Hb. pose proof (tx_count_width b Hb). destruct Hb as ([] & _ & _).
  destruct wf_h_prev as [Hpr _], wf_h_merkle as [Hmk _].
  assert (in_width 64 (h_bits (b_h b))) by first [by apply width_32|by apply width_8].
  split; [|apply strf_obj; unfold summary_fields; object_fits].
  apply strf_short. unfold open_list. rewrite !string_length_app, length_quoted.
  assert (sum_list_with field_size (block_fields b) ≤ 4000)%nat by (unfold block_fields; object_fits).
  pose proof (length_fields (block_fields b)). cbn [String.length]. lia.
Qed.

Lemma conf_width a b : in_width 64 (confirmations a b).
Proof. by apply wrap_in_width. Qed.

Lemma payload_len t : wire_tx t → (2 * length (t_payload t) ≤ 2048)%nat.
Proof. intros [_ H]. unfold size, MAX_PAYLOAD in H. lia. Qed.

Lemma row_whole f : wire_tx (fr_tx f) → (String.length (fr_status f) ≤ 20)%nat →
  in_width 64 (fr_height f) → in_width 64 (fr_time f) → in_width 64 (fr_conf f) →
  row_text f = obj (row_fields f).
Proof.
  intros Ht Hs ???. pose proof (payload_len _ Ht). apply strf_obj. unfold row_fields. object_fits.
Qed.

Lemma tx_whole a b i t : wire_block b → b_txs b !! i = Some t →
  strf (obj (tx_fields a (txid t) b (Z.of_nat i) t)) = obj (tx_fields a (txid t) b (Z.of_nat i) t).
Proof.
  intros Hb Hi. pose proof Hb as ([] & Hts & Hn). pose proof (conf_width a b).
  assert (wire_tx t) as Ht by (eapply Forall_lookup_1; done).
  pose proof (payload_len _ Ht). destruct Ht as [[] _]. destruct wf_t_to as [Hto _].
  assert (in_width 64 (Z.of_nat i)).
  { apply lookup_lt_Some in Hi. apply small_width. unfold size, MAX_BLOCK_TXS in Hn. lia. }
  assert (in_width 64 (t_type t)) by first [by apply width_32|by apply width_8].
  pose (sender := if t_type t =? TX_COINBASE then "coinbase" else hexs (addr_of (t_from t))).
  assert (field_size ("from", JStr sender) ≤ 50)%nat.
  { unfold sender. rewrite field_str.
    destruct (t_type t =? TX_COINBASE)%Z; [cbn; lia|]. rewrite length_hexs, length_addr. cbn. lia. }
  apply strf_obj. unfold tx_fields. fold sender. generalize dependent (JStr sender). intros v Hv. object_fits.
Qed.
End fits.

Section theorems.
Context `{HF : HashFn} `{CN : Cng} {D : Type} `{DB : Sqlite D}.
Implicit Types a : App D.

Lemma pool_wire p mp k t : pool_inv p mp → m mp !! k = Some t → wire_tx t.
Proof.
  intros Hp Hk. destruct (pi_entry p mp Hp k t Hk) as [_ Hw _ _ Hb]. split; [done|].
  unfold body_shape, size, MAX_PAYLOAD in *. destruct Hb as [[_ ->]|(_ & _ & ?)]; [done|lia].
Qed.

Lemma mempool_whole a : Z.of_nat (stdpp.base.size (m (pool a))) ≤ 10000 →
  get_mempool a = json ("{" +:+ fields_text [("count", JNum (Z.of_nat (stdpp.base.size (m (pool a)))))] +:+ "," +:+
    quoted "txids" +:+ ":[" +:+ quoted_list (map (λ kt, hexs (txid kt.2)) (entries (pool a))) +:+ "]}").
Proof.
  intros Hs. unfold get_mempool. rewrite strf_short; [by rewrite !string_app_assoc|].
  set (fs := [("count", JNum _)]). assert (sum_list_with field_size fs ≤ 100)%nat.
  { assert (in_width 64 (Z.of_nat (stdpp.base.size (m (pool a))))) by (apply small_width; lia).
    unfold fs. object_fits. }
  pose proof (length_fields fs). rewrite !string_length_app, length_quoted. cbn [String.length]. lia.
Qed.

Lemma pending_whole id : wf_array 32 id →
  pending_text id = obj [("txid", JStr (hexs id)); ("status", JStr "pending")].
Proof. intros [Hi _]. apply strf_obj. object_fits. Qed.

Lemma mined_whole h : wf_header h →
  let fs := [("ok", JRaw "true"); ("height", JNum (h_height h)); ("hash", JStr (hexs (header_hash h)))] in
  strf (obj fs) = obj fs.
Proof.
  intros [] fs. assert (length (header_hash h) = 32%nat) by apply wf_header_hash.
  assert (field_size ("ok", JRaw "true") ≤ 15)%nat by (cbn; lia).
  apply strf_obj. unfold fs. object_fits.
Qed.

(** The answer of [/work] counts the coinbase and the picked transactions. *)
Lemma work_answer_whole a payto now : app_inv a → wf_array 20 payto → in_width 64 now →
  let '(a', h) := get_work a payto now in
  let ntx := size (collect (pool a) (st (chain a)) (a_params a) (u64 (height (chain a) + 1))) + 1 in
  (work_answer a payto now).2 = json (obj (work_fields a' h ntx)).
Proof.
  intros Ha Hp Hn. unfold work_answer. destruct (get_work a payto now) as [a' h] eqn:E.
  unfold get_work in E. injection E as <- <-. set (txs := collect _ _ _ _). set (b := template (chain a) (a_params a) payto txs now).
  cbn [snd work_cache set_work_cache]. rewrite lookup_insert_eq. cbn [b_txs b template]. unfold json. f_equal.
  assert (size (coinbase (a_params a) payto (u64 (height (chain a) + 1)) :: txs) = size txs + 1) as ->
    by (unfold size; cbn [length]; lia).
  assert (wf_header (b_h b)) as Hh.
  { pose proof Ha as [Hpa Hs Hc _ Hpool _]. unfold b, txs. rewrite <- Hs in *.
    refine (proj1 (wf_sealed (D := D) _ _ _ _ 0 Hpa Hc Hp Hn _ _)); [done|]. by apply collect_pickable. }
  pose proof (ai_pool a Ha) as Hpool. pose proof (ai_same a Ha) as Hs.
  assert (0 ≤ size txs ≤ 1000) as Hl.
  { unfold txs. rewrite <- Hs in *. destruct (collect_pickable (chain a) (pool a) Hpool) as (_ & _ & ?).
    split; [unfold size; lia|done]. }
  pose proof (length_tip_hash a (ai_chain a Ha)) as Ht.
  assert (length (header_serialize (b_h b)) = 100%nat) by (rewrite header_serialize_enc; by apply length_header_enc).
  assert (in_width 64 (size txs + 1)) by (apply small_width; lia). destruct Hh.
  assert (in_width 64 (h_bits (b_h b))) by first [by apply width_32|by apply width_8].
  apply strf_obj. unfold work_fields.
  change (app_tip_hash (set_work_cache a _)) with (app_tip_hash a). object_fits.
Qed.

Lemma length_strf s : (String.length (strf s) ≤ 4095)%nat.
Proof.
  unfold strf. generalize 4095%nat. induction s as [|c s IH]; intros [|n]; cbn; try lia. specialize (IH n). lia.
Qed.

(** C36: which JSON answers fit the buffer of [strf]. In every state of a node in order with
    fewer than 2^32 links, every JSON text that [handle_rpc] prints with [strf] for a request
    other than [/nodes] is whole: the status, a balance, the head and the summary of a
    block, a confirmed and a pending transaction, the list of the pool, the rows of the
    feed, whose payload is the longest text, the work for a miner and the acceptance of
    mined work. The answer to [/nodes] is whole if and only if it has at most 4095 bytes:
    for a longer [--rpc-peers] it is cut. *)
Theorem answers_whole w a : app_inv a → Z.of_nat (stdpp.base.size (peers (p2p a))) < 2 ^ 32 →
  get_status a = json (obj (status_fields a)) ∧
  (∀ ad, wf_array 20 ad → strf (obj (balance_fields a ad)) = obj (balance_fields a ad)) ∧
  get_mempool a = json ("{" +:+ fields_text [("count", JNum (Z.of_nat (stdpp.base.size (m (pool a)))))] +:+ "," +:+
    quoted "txids" +:+ ":[" +:+ quoted_list (map (λ kt, hexs (txid kt.2)) (entries (pool a))) +:+ "]}") ∧
  (∀ k t, m (pool a) !! k = Some t → row_text (pending_row t) = obj (row_fields (pending_row t))) ∧
  (∀ b, b ∈ blocks (chain a) →
    strf (open_list (block_fields b) "txids") = open_list (block_fields b) "txids" ∧
    json_block_summary b = obj (summary_fields b) ∧
    ∀ i t, b_txs b !! i = Some t →
      strf (obj (tx_fields a (txid t) b (Z.of_nat i) t)) = obj (tx_fields a (txid t) b (Z.of_nat i) t) ∧
      row_text (confirmed_row a b t) = obj (row_fields (confirmed_row a b t))) ∧
  (∀ id, wf_array 32 id → pending_text id = obj [("txid", JStr (hexs id)); ("status", JStr "pending")]) ∧
  (∀ payto now, wf_array 20 payto → in_width 64 now →
    let '(a', h) := get_work a payto now in
    let ntx := size (collect (pool a) (st (chain a)) (a_params a) (u64 (height (chain a) + 1))) + 1 in
    (work_answer a payto now).2 = json (obj (work_fields a' h ntx))) ∧
  (∀ h, wf_header h →
    let fs := [("ok", JRaw "true"); ("height", JNum (h_height h)); ("hash", JStr (hexs (header_hash h)))] in
    strf (obj fs) = obj fs) ∧
  (nodes_page w = json (obj (nodes_fields w)) ↔ (String.length (obj (nodes_fields w)) ≤ 4095)%nat).
Proof.
  intros Ha Hs. pose proof (ai_chain a Ha) as Hc. pose proof (pi_size _ _ (ai_pool a Ha)) as Hps. split_and!.
  - unfold get_status. f_equal. apply status_whole; try apply Ha; done.
  - intros ad Had. by apply balance_whole.
  - by apply mempool_whole.
  - intros k t Hk. apply row_whole; cbn; try done; [|lia]. eapply pool_wire; [apply Ha|done].
  - intros b Hb. pose proof (valid_wire _ _ (ci_wf _ Hc) (ci_valid _ Hc)) as Hz.
    rewrite Forall_forall in Hz. pose proof (Hz b Hb) as Hwb. destruct (block_whole b Hwb) as [Hh Hj].
    split_and!; [done..|]. intros i t Hi. split; [by apply tx_whole|].
    destruct Hwb as ([] & Hts & _). apply row_whole; cbn [confirmed_row fr_tx fr_status fr_height fr_time fr_conf];
      [by eapply Forall_lookup_1|cbn; lia|done|done|apply conf_width].
  - apply pending_whole.
  - intros payto now. by apply work_answer_whole.
  - apply mined_whole.
  - unfold nodes_page, json. split; [|intros H; by rewrite strf_short].
    intros E%(f_equal resp_body). cbn [resp_body] in E. rewrite <- E. apply length_strf.
Qed.
End theorems.
