(* ===== verification/Running.v ===== *)
(** * Running: the network thread among the other threads

    The network thread holds the network mutex twice in a turn, in [reconnect] and in
    [select_step], and calls the handlers of the node outside of it; the miner, requests
    and the timer work in between. [loop_step] is one such step. A handler is one step
    also for the network thread: what other threads do to the links in the meantime is
    to append frames to their buffers. *)

From S2P Require Import Prelude Hex Text Json Serial Sha256 Hash Crypto Merkle Tx Ledger Store Chain Consensus Recovery Mempool Miner Net Http Node Safety Verify Rpc RpcSpec Loop.

Local Open Scope Z_scope.

Section system.
Context `{HF : HashFn} `{CN : Cng} {D : Type} `{DB : Sqlite D}.
Implicit Types a : App D.

(** ** The turn of the thread among the other threads *)

(** The callbacks of [wire_p2p]. *)
Definition dispatch a (e : Ev) (clock : nat → Z) (ms : Z) : App D :=
  match e with
  | EvReady peer => on_ready a peer
  | EvMsg peer type payload => on_msg a peer type payload clock ms
  | EvGone peer => on_gone a peer
  end.

(** Where the thread is in its turn. *)
Inductive Phase : Type :=
  | Preparing
  | Selecting (ws : gmap Z Watch)
  | Dispatching (evs : list Ev).

Record Running := mkRunning { app : App D; phase : Phase }.

(** What the other threads do: the miner, a request, the timer. *)
Inductive thread_step a : App D → Prop :=
  | thread_mined b seq clock : wf_block b → thread_step a (submit_mined a b seq clock)
  | thread_request w clock r : in_width 64 (clock 0%nat) → thread_step a (handle_rpc w clock a r).1
  | thread_tick tick ms : thread_step a (periodic a tick ms).

(** A step and the event it hands to the node. *)
Inductive loop_step : Running → list Ev → Running → Prop :=
  | loop_prepare a connect ms n : reconnect connect ms (p2p a) = n →
      loop_step (mkRunning a Preparing) [] (mkRunning (set_p2p a n) (Selecting (watched n)))
  | loop_select a ws sel n evs : (∀ id, wf_io (sel_io sel id)) → reported ws (sel_io sel) →
      select_step (p2p a) sel = (n, evs) →
      loop_step (mkRunning a (Selecting ws)) [] (mkRunning (set_p2p a n) (Dispatching evs))
  | loop_event a e evs clock ms :
      loop_step (mkRunning a (Dispatching (e :: evs))) [e]
        (mkRunning (dispatch a e clock ms) (Dispatching evs))
  | loop_again a : loop_step (mkRunning a (Dispatching [])) [] (mkRunning a Preparing)
  | loop_thread a ph a' : thread_step a a' → loop_step (mkRunning a ph) [] (mkRunning a' ph).

(** A run and the events that it handed to the node. *)
Inductive loop_run (r : Running) : list Ev → Running → Prop :=
  | run_start : loop_run r [] r
  | run_next log r1 new r2 : loop_run r log r1 → loop_step r1 new r2 → loop_run r (log ++ new) r2.

Definition pending (ph : Phase) : list Ev := match ph with Dispatching evs => evs | _ => [] end.
End system.

(** ** The handlers and the links *)

(** The links without what waits to be sent. *)
Definition link_view (p : Peer) : Peer := set_outbuf p [].
Definition quiet (n : P2P) : P2P := set_peers n (link_view <$> peers n).

Lemma quiet_send_to n id type payload : quiet (send_to n id type payload) = quiet n.
Proof.
  unfold send_to. destruct (peers n !! id) as [p|] eqn:E; [|done]. case_match; [done|].
  unfold quiet. cbn [set_peers peers]. rewrite fmap_insert.
  change (link_view (send_frame p type payload)) with (link_view p).
  by rewrite (insert_id (link_view <$> peers n)) by by rewrite lookup_fmap, E.
Qed.

Lemma quiet_broadcast n type payload except : quiet (broadcast n type payload except) = quiet n.
Proof.
  unfold quiet, broadcast. cbn [set_peers peers net_id listen_port targets next_id last_reconnect].
  unfold set_peers. cbn [net_id listen_port targets next_id last_reconnect peers]. f_equal.
  apply map_eq. intros id. rewrite !lookup_fmap, map_lookup_imap.
  destruct (peers n !! id) as [p|]; [|done]. cbn. by case_match.
Qed.

Lemma quiet_lookup n n' id p' : quiet n' = quiet n → peers n' !! id = Some p' →
  ∃ p, peers n !! id = Some p ∧ link_view p = link_view p'.
Proof.
  intros E Hp. apply (f_equal (λ k, peers k !! id)) in E. cbn [quiet set_peers peers] in E.
  rewrite !lookup_fmap, Hp in E. destruct (peers n !! id) as [p|]; [|done].
  apply (inj Some) in E. by exists p.
Qed.

Lemma link_view_same p q : link_view p = link_view q →
  target p = target q ∧ dead p = dead q ∧ ready p = ready q ∧ inbuf p = inbuf q ∧
  tip_height p = tip_height q ∧ tip_work p = tip_work q ∧ peer_tip_hash p = peer_tip_hash q.
Proof. destruct p, q. intros [=]. by subst. Qed.

Lemma quiet_life n n' id : quiet n' = quiet n → life n' id = life n id.
Proof.
  intros E. assert (next_id n' = next_id n) as En by by apply (f_equal next_id) in E. unfold life. rewrite En.
  destruct (peers n' !! id) as [p'|] eqn:Hp'.
  - destruct (quiet_lookup n n' id p' E Hp') as (p & -> & (_ & _ & -> & _)%link_view_same). done.
  - destruct (peers n !! id) as [p|] eqn:Hp; [|done].
    destruct (quiet_lookup n' n id p (eq_sym E) Hp) as (q & Hq & _). congruence.
Qed.

Lemma quiet_links n n' : quiet n' = quiet n → links_ok n → links_ok n'.
Proof.
  intros E Hn. assert (next_id n' = next_id n) as En by by apply (f_equal next_id) in E.
  split.
  - rewrite En. apply Hn.
  - intros id p' Hp'. destruct (quiet_lookup n n' id p' E Hp') as (p & Hp & _). rewrite En. by eapply lo_ids.
  - intros id p' Hp'. destruct (quiet_lookup n n' id p' E Hp') as (p & Hp & (_&_&_&<-&_)%link_view_same).
    by eapply lo_bytes.
  - intros i j p' q' Hp' Hq' Dp Dq Ht Hne.
    destruct (quiet_lookup n n' i p' E Hp') as (p & Hp & (Tp&Ep&_)%link_view_same).
    destruct (quiet_lookup n n' j q' E Hq') as (q & Hq & (Tq&Eq&_)%link_view_same).
    eapply (lo_one n Hn); [exact Hp|exact Hq|congruence..].
Qed.

Lemma quiet_alive n n' : quiet n' = quiet n → all_alive n → all_alive n'.
Proof.
  intros E Hn id p' Hp'. destruct (quiet_lookup n n' id p' E Hp') as (p & Hp & (_&<-&_)%link_view_same).
  by eapply Hn.
Qed.

(** A link that said hello. *)
Definition up (n : P2P) (id : Z) : Prop := life n id = Up.

Lemma peer_tip_up n id v : peer_tip n id = Some v → up n id.
Proof.
  unfold peer_tip, up, life. destruct (peers n !! id) as [p|]; [|done]. by destruct (ready p).
Qed.

Section handlers.
Context `{HF : HashFn} `{CN : Cng} {D : Type} `{DB : Sqlite D}.
Implicit Types a : App D.

(** A handler leaves the links as they are up to frames that wait to be sent, and
    synchronises with nobody but the peer of before or one that said hello. *)
Definition tame a a' : Prop :=
  quiet (p2p a') = quiet (p2p a) ∧
  (sync_peer a' = sync_peer a ∨ sync_peer a' = -1 ∨ up (p2p a) (sync_peer a')).

Lemma tame_refl a : tame a a.
Proof. split; [done|by left]. Qed.

Lemma tame_trans a1 a2 a3 : tame a1 a2 → tame a2 a3 → tame a1 a3.
Proof.
  intros [E1 H1] [E2 H2]. split; [congruence|]. unfold up in *. rewrite (quiet_life _ _ _ E1) in H2.
  destruct H2 as [->|H2]; auto.
Qed.

Lemma tame_same a a' : quiet (p2p a') = quiet (p2p a) → sync_peer a' = sync_peer a → tame a a'.
Proof. intros. split; [done|by left]. Qed.

Lemma tame_net a n : quiet n = quiet (p2p a) → tame a (set_p2p a n).
Proof. intros. by apply tame_same. Qed.

Lemma tame_send a id type payload : tame a (set_p2p a (send_to (p2p a) id type payload)).
Proof. apply tame_net, quiet_send_to. Qed.

Lemma tame_cast a type payload except : tame a (set_p2p a (broadcast (p2p a) type payload except)).
Proof. apply tame_net, quiet_broadcast. Qed.

Lemma tame_announce a e : tame a (announce_tip a e).
Proof. apply tame_cast. Qed.

Lemma tame_request a peer start ms : tame a (request_blocks a peer start ms).
Proof. apply tame_same; [|done]. apply quiet_send_to. Qed.

Lemma tame_post a : tame a (post_chain_change a).
Proof. by apply tame_same. Qed.

Lemma tame_reset a : tame a (reset_sync a).
Proof. split; [done|by right; left]. Qed.

Lemma tame_chain a c : tame a (set_chain a c).
Proof. by apply tame_same. Qed.

Lemma tame_pool a mp : tame a (set_pool a mp).
Proof. by apply tame_same. Qed.

Lemma tame_sync a mode got bs : tame a (set_sync a (sync_peer a) mode got bs).
Proof. by apply tame_same. Qed.

Lemma tame_changed a c e : tame a (announce_tip (post_chain_change (set_chain a c)) e).
Proof. eapply tame_trans, tame_announce. eapply tame_trans, tame_post. apply tame_chain. Qed.

Lemma maybe_sync_tame a peer ms : tame a (maybe_sync a peer ms).
Proof.
  unfold maybe_sync. case_match; [apply tame_refl|].
  destruct (peer_tip (p2p a) peer) as [[[ph pw] phash]|] eqn:E; [|apply tame_refl].
  case_match; [apply tame_refl|]. eapply tame_trans, tame_request.
  split; [done|]. right; right. by eapply peer_tip_up.
Qed.

Lemma extend_step_tame a peer v clock ms : tame a (extend_step a peer v clock ms).
Proof.
  unfold extend_step. destruct (extend_loop _ _ _ _) as [[c okc] err]. cbv zeta.
  set (a1 := if (0 <? okc)%nat then _ else _).
  assert (tame a a1) as H1.
  { subst a1. destruct (0 <? okc)%nat; [|apply tame_chain]. eapply tame_trans, tame_post. apply tame_chain. }
  destruct (_ && (sync_extend_got a1 =? 0)).
  { eapply tame_trans, tame_request. eapply tame_trans; [exact H1|]. apply tame_sync. }
  set (a2 := set_sync a1 _ _ _ _).
  assert (tame a a2) as H2 by (eapply tame_trans; [exact H1|apply tame_sync]).
  destruct (match peer_tip (p2p a) peer with Some _ => _ | None => _ end).
  { eapply tame_trans, tame_reset. eapply tame_trans, tame_announce. done. }
  destruct (_ && _); (eapply tame_trans; [exact H2|]); [apply tame_request|apply tame_reset].
Qed.

Lemma redownload_step_tame a peer v clock ms : tame a (redownload_step a peer v clock ms).
Proof.
  unfold redownload_step. cbv zeta. set (a1 := set_sync a _ _ _ _).
  assert (tame a a1) as H1 by apply tame_sync.
  destruct (_ >? _); [eapply tame_trans; [exact H1|apply tame_reset]|].
  destruct (negb _); [eapply tame_trans; [exact H1|apply tame_request]|].
  destruct (try_replace _ _ _) as [[c err] f]. eapply tame_trans, tame_reset.
  eapply tame_trans; [exact H1|]. case_bool_decide; [apply tame_changed|apply tame_chain].
Qed.

Lemma on_msg_tame a peer type payload clock ms : tame a (on_msg a peer type payload clock ms).
Proof.
  unfold on_msg. case_match; [apply maybe_sync_tame|]. case_match.
  { unfold on_get_blocks. destruct (get_blocks_fields _) as [[[start cnt] r]|]; [|apply tame_refl].
    apply tame_send. }
  case_match.
  { unfold on_blocks. destruct (blocks_body _) as [[[v|] r]|]; try apply tame_refl.
    unfold handle_blocks. case_match; [apply tame_refl|].
    assert (tame a (set_sync_last_ms a ms)) as Hm by by apply tame_same.
    cbv zeta. case_match; [eapply tame_trans; [exact Hm|apply extend_step_tame]|].
    case_match; [eapply tame_trans; [exact Hm|apply redownload_step_tame]|done]. }
  case_match.
  { unfold on_tx. destruct (whole_tx payload) as [t|]; [|apply tame_refl].
    case_match; [apply tame_refl|]. destruct (add _ _ _ _) as [mp err]. cbv zeta.
    case_bool_decide; [eapply tame_trans, tame_cast|]; apply tame_pool. }
  case_match; [|apply tame_refl].
  unfold on_block. destruct (block_parse payload) as [b|]; [|apply tame_refl].
  case_match; [apply tame_refl|]. destruct (connect_block _ _ _) as [c err]. cbv zeta.
  case_bool_decide; [eapply tame_trans, tame_cast; apply tame_changed|].
  case_match; [eapply tame_trans, maybe_sync_tame|]; apply tame_chain.
Qed.

Lemma submit_mined_tame a b seq clock : tame a (submit_mined a b seq clock).
Proof.
  unfold submit_mined. case_match; [apply tame_refl|].
  destruct (connect_block _ _ _) as [c err]. cbv zeta.
  case_bool_decide; [eapply tame_trans, tame_cast; apply tame_changed|apply tame_chain].
Qed.

Lemma submit_work_tame a h clock : tame a (submit_work a h clock).1.
Proof.
  unfold submit_work. destruct (work_cache a !! h_merkle h) as [txs|]; [|apply tame_refl].
  cbv zeta. destruct (connect_block _ _ _) as [c err].
  case_bool_decide; cbn [negb fst]; [eapply tame_trans, tame_cast; apply tame_changed|apply tame_chain].
Qed.

Lemma submit_tx_tame a raw : tame a (submit_tx a raw).1.
Proof.
  unfold submit_tx. destruct (whole_tx raw) as [t|]; [|apply tame_refl].
  case_match; [apply tame_refl|]. destruct (add _ _ _ _) as [mp err]. cbv zeta.
  case_bool_decide; cbn [negb fst]; [eapply tame_trans, tame_cast|]; apply tame_pool.
Qed.

Lemma periodic_tame a tick ms : tame a (periodic a tick ms).
Proof.
  unfold periodic. cbv zeta. set (a1 := if _ =? 0 then _ else _).
  assert (tame a a1) as H1 by (subst a1; case_match; [apply tame_announce|apply tame_refl]).
  case_match; [eapply tame_trans; [exact H1|apply tame_reset]|done].
Qed.

Lemma handle_rpc_cases w clock a r :
  let a' := (handle_rpc w clock a r).1 in
  a' = a ∨ a' = (post_submit a r).1 ∨ a' = (get_work_page a r clock).1 ∨ a' = (post_submitwork a r clock).1.
Proof.
  unfold handle_rpc. cbv zeta.
  do 10 (match goal with |- context [if ?b then (a, _) else _] => destruct b end; [by left|]).
  case_match; [by auto|]. case_match; [by left|]. case_match; [by auto|]. case_match; [by auto|by left].
Qed.

Lemma handle_rpc_tame w clock a r : tame a (handle_rpc w clock a r).1.
Proof.
  assert (∀ ad now, tame a (work_answer a ad now).1) as Hw by (intros; by apply tame_same).
  destruct (handle_rpc_cases w clock a r) as [->|[->|[->| ->]]].
  - apply tame_refl.
  - unfold post_submit. destruct (unhex _) as [raw|]; [|apply tame_refl].
    pose proof (submit_tx_tame a raw) as Ht. by destruct (submit_tx a raw).
  - unfold get_work_page. destruct (query r !! "addr") as [s|]; [|apply Hw].
    destruct (unhex_n 20 s); [apply Hw|apply tame_refl].
  - unfold post_submitwork. destruct (unhex _) as [raw|]; [|apply tame_refl].
    case_match; [apply tame_refl|]. destruct (header_parse _) as [[h rd]|]; [|apply tame_refl].
    pose proof (submit_work_tame a h clock) as Ht. by destruct (submit_work a h clock).
Qed.

Lemma handle_rpc_step w clock a r : app_inv a → in_width 64 (clock 0%nat) →
  rtc step a (handle_rpc w clock a r).1.
Proof.
  intros Ha Hc. assert (∀ res, request_post a res → rtc step a res.1) as H.
  { intros res ([->|Hs] & _); [done|by apply rtc_once]. }
  destruct (handle_rpc_cases w clock a r) as [->|[->|[->| ->]]]; [done|..]; apply H.
  - apply post_submit_post.
  - by apply get_work_page_post.
  - by apply post_submitwork_post.
Qed.

Lemma dispatch_tame a e clock ms : tame a (dispatch a e clock ms).
Proof.
  destruct e as [peer|peer type payload|peer]; cbn [dispatch].
  - apply tame_send.
  - apply on_msg_tame.
  - unfold on_gone. case_match; [apply tame_reset|apply tame_refl].
Qed.

Lemma thread_tame a a' : thread_step a a' → tame a a'.
Proof. intros []; [apply submit_mined_tame|apply handle_rpc_tame|apply periodic_tame]. Qed.

Lemma thread_steps a a' : app_inv a → thread_step a a' → rtc step a a'.
Proof.
  intros Ha []; [by apply rtc_once, step_mined|by apply handle_rpc_step|by apply rtc_once, step_tick].
Qed.

Lemma dispatch_step a e clock ms : ev_ok e → step a (dispatch a e clock ms).
Proof. destruct e as [peer|peer type payload|peer]; intros [He Hw]; cbn in *; constructor; [lia|done]. Qed.
End handlers.

(** ** Runs *)

Section runs.
Context `{HF : HashFn} `{CN : Cng} {D : Type} `{DB : Sqlite D}.
Implicit Types a : App D.
Implicit Types r : Running (D := D).

(** The node waits for blocks from nobody, from a link that said hello, or from one whose
    end it has not yet been told. *)
Definition sync_live r : Prop :=
  let peer := sync_peer (app r) in
  peer = -1 ∨ up (p2p (app r)) peer ∨ EvGone peer ∈ pending (phase r).

(** The invariant of the running node, with the events handed over so far. *)
Record loop_inv a0 (log : list Ev) r : Prop := {
  li_steps : rtc step a0 (app r);
  li_links : links_ok (p2p (app r));
  li_alive : all_alive (p2p (app r));
  li_events : Forall ev_ok (pending (phase r));
  li_sync : sync_live r;
  li_lives : ∀ id, lives id Fresh (events_of id (log ++ pending (phase r))) (life (p2p (app r)) id);
}.

(** A link that was up is up or its end was told. *)
Lemma lives_up id evs l : lives id Up evs l → l = Up ∨ EvGone id ∈ evs.
Proof.
  intros H. remember Up as l0 eqn:E. induction H; try done; try (by left); subst.
  - destruct IHlives as [->|?]; [done|by left|right; by right].
  - right. by left.
Qed.

Lemma turn_up n evs n' id : turn_part n evs n' → up n id → up n' id ∨ EvGone id ∈ evs.
Proof.
  intros (_ & He & _) Hu. specialize (He id). rewrite Hu in He.
  apply lives_up in He as [?|Hin]; [by left|right].
  unfold events_of in Hin. apply list_elem_of_In, List.filter_In in Hin as [Hin _].
  by apply list_elem_of_In.
Qed.

(** A part of a turn of the network thread. *)
Lemma inv_turn a0 log a n evs ph : loop_inv a0 log (mkRunning a ph) → pending ph = [] →
  turn_part (p2p a) evs n → all_alive n → ∀ ph', pending ph' = evs →
  loop_inv a0 log (mkRunning (set_p2p a n) ph').
Proof.
  intros [H1 H2 _ H3 H4 H5] Eph Ht Hal ph' E'. pose proof Ht as (Hl & Hev & Hok). cbn [app phase] in *.
  split; cbn [app phase p2p set_p2p]; rewrite ?E'; try done.
  - eapply rtc_r; [exact H1|]. apply step_net.
  - unfold sync_live in *. cbn [app phase] in *. rewrite Eph in H4. rewrite E'.
    change (sync_peer (set_p2p a n)) with (sync_peer a). change (p2p (set_p2p a n)) with n.
    destruct H4 as [?|[Hu|Hin]]; [by left| |by apply elem_of_nil in Hin].
    right. by eapply turn_up.
  - intros id. specialize (H5 id). rewrite Eph, app_nil_r in H5. rewrite events_of_app.
    by eapply lives_app.
Qed.

(** A handler. [e]: the event it consumes. *)
Lemma inv_handler a0 log a a' ph e evs : loop_inv a0 log (mkRunning a ph) → pending ph = e ++ evs →
  tame a a' → rtc step a a' →
  (sync_peer a' = sync_peer a → EvGone (sync_peer a) ∈ e → sync_peer a' = -1) →
  ∀ ph', pending ph' = evs → loop_inv a0 (log ++ e) (mkRunning a' ph').
Proof.
  intros [H1 H2 Hal H3 H4 H5] Eph [Hq Hs] Hst Hg ph' E'. cbn [app phase] in *. rewrite Eph in *.
  split; cbn [app phase]; rewrite ?E'.
  - by etrans.
  - by eapply quiet_links.
  - by eapply quiet_alive.
  - by apply Forall_app in H3 as [_ ?].
  - unfold sync_live, up in *. cbn [app phase] in *. rewrite E', (quiet_life _ _ _ Hq).
    destruct Hs as [E|[?|?]]; [|by left|by right; left]. rewrite E.
    destruct H4 as [?|[?|Hin]]; [by left|by right; left|]. rewrite Eph in Hin.
    apply elem_of_app in Hin as [Hin|?]; [|by right; right]. left. rewrite <- E. by apply Hg.
  - intros id. by rewrite (quiet_life _ _ _ Hq), <- app_assoc.
Qed.

Lemma loop_step_inv a0 log r new r' : app_inv a0 → loop_inv a0 log r → loop_step r new r' →
  loop_inv a0 (log ++ new) r'.
Proof.
  intros Ha0 Hi Hs. destruct Hs as [a connect ms n <-|a ws sel n evs Hio _ E|a e evs clock ms|a|a ph a' Ht].
  - rewrite app_nil_r. eapply inv_turn; [exact Hi|done|by apply turn_reconnect, Hi|by apply alive_reconnect, Hi|done].
  - rewrite app_nil_r. eapply inv_turn; [exact Hi|done|by eapply turn_select; [|apply Hi|]| |done].
    pose proof (alive_select (p2p a) sel) as Hal. by rewrite E in Hal.
  - pose proof (li_events _ _ _ Hi) as Hev. cbn [phase pending] in Hev. apply Forall_cons in Hev as [He _].
    eapply (inv_handler _ _ a _ _ [e] evs Hi); [done|apply dispatch_tame|by apply rtc_once, dispatch_step| |done].
    intros E <-%list_elem_of_singleton. cbn [dispatch] in *. unfold on_gone in *.
    rewrite Z.eqb_refl in *. done.
  - rewrite app_nil_r. by destruct Hi.
  - assert (app_inv a) as Ha by (apply (steps_handled a0); [done|apply (li_steps _ _ _ Hi)]).
    apply (inv_handler _ _ a _ ph [] (pending ph) Hi); [done|by apply thread_tame|by apply thread_steps| |done].
    by intros _ Hin%elem_of_nil.
Qed.

(** The node when its threads start: no links yet. *)
Definition no_links (n : P2P) : Prop := peers n = ∅ ∧ next_id n = 1.

Lemma loop_run_inv a0 log r : app_inv a0 → no_links (p2p a0) → sync_peer a0 = -1 →
  loop_run (mkRunning a0 Preparing) log r → loop_inv a0 log r.
Proof.
  intros Ha0 [Hp Hn] Hsy. induction 1 as [|log r1 new r2 _ IH Hs]; [|by eapply loop_step_inv].
  split; cbn [app phase pending List.app]; [done|..].
  - split; rewrite ?Hp, ?Hn; [lia|by intros; simplify_map_eq..].
  - intros id p. by rewrite Hp, lookup_empty.
  - constructor.
  - by left.
  - intros id. unfold life. rewrite Hp, Hn, lookup_empty. cbn. case_match; [|constructor].
    apply lives_open, lives_drop. constructor.
Qed.
End runs.

(** ** Theorems *)

Definition is_msg (e : Ev) : Prop := match e with EvMsg _ _ _ => True | _ => False end.

(** The events of a link as the node may see them. *)
Definition protocol (id : Z) (evs : list Ev) : Prop :=
  ∃ early later, Forall is_msg early ∧ Forall is_msg later ∧
    (evs = early ∨ evs = early ++ EvReady id :: later ∨ evs = early ++ EvReady id :: later ++ [EvGone id]).

Lemma lives_split id l1 e1 e2 l3 : lives id l1 (e1 ++ e2) l3 → ∃ l2, lives id l1 e1 l2 ∧ lives id l2 e2 l3.
Proof.
  intros H. remember (e1 ++ e2) as evs eqn:E. revert e1 E.
  induction H as [l|evs l H IH|l t b evs l' Hl H IH|evs l H IH|evs l H IH|evs l H IH]; intros e1 E.
  - symmetry in E. apply app_eq_nil in E as [-> ->]. exists l. auto with chainlite.
  - destruct (IH e1 E) as (l2 & ? & ?). eauto with chainlite.
  - destruct e1 as [|e e1]; [cbn in E; subst e2; eauto with chainlite|].
    injection E as <- E. destruct (IH e1 E) as (l2 & ? & ?). eauto with chainlite.
  - destruct e1 as [|e e1]; [cbn in E; subst e2; eauto with chainlite|].
    injection E as <- E. destruct (IH e1 E) as (l2 & ? & ?). eauto with chainlite.
  - destruct (IH e1 E) as (l2 & ? & ?). eauto with chainlite.
  - destruct e1 as [|e e1]; [cbn in E; subst e2; eauto with chainlite|].
    injection E as <- E. destruct (IH e1 E) as (l2 & ? & ?). eauto with chainlite.
Qed.

(** The events from each point of a life on. *)
Definition story (id : Z) (l : Life) (evs : list Ev) (l' : Life) : Prop :=
  match l with
  | Down => evs = [] ∧ l' = Down
  | Up => ∃ later, Forall is_msg later ∧ (evs = later ∧ l' = Up ∨ evs = later ++ [EvGone id] ∧ l' = Down)
  | _ => ∃ early, Forall is_msg early ∧
      (evs = early ∧ l' ≠ Up ∨ ∃ later, Forall is_msg later ∧
        (evs = early ++ EvReady id :: later ∧ l' = Up ∨
         evs = early ++ EvReady id :: later ++ [EvGone id] ∧ l' = Down))
  end.

Lemma lives_story id l evs l' : lives id l evs l' → story id l evs l'.
Proof.
  induction 1 as [l|evs l _ IH|l t b evs l' Hl _ IH|evs l _ IH|evs l _ IH|evs l _ IH]; cbn [story] in *.
  - destruct l; [exists []..|done]; (split; [constructor|by left]).
  - done.
  - destruct Hl as [->| ->]; cbn [story] in *.
    + destruct IH as (early & He & [[-> Hne]|(later & Hl & [[-> ->]|[-> ->]])]);
        exists (EvMsg id t b :: early); (split; [by constructor|]); [by left|right; exists later..]; auto.
    + destruct IH as (later & Hl & [[-> ->]|[-> ->]]);
        exists (EvMsg id t b :: later); (split; [by constructor|]); auto.
  - destruct IH as (later & Hl & IH). exists []. split; [constructor|]. right. exists later. split; [done|].
    destruct IH as [[-> ->]|[-> ->]]; auto.
  - destruct IH as [-> ->]. exists []. split; [constructor|]. left. done.
  - destruct IH as [-> ->]. exists []. split; [constructor|]. by right.
Qed.

Lemma story_protocol id evs l : story id Fresh evs l →
  protocol id evs ∧ (l = Up ↔ EvReady id ∈ evs ∧ EvGone id ∉ evs) ∧ (EvGone id ∈ evs → l = Down).
Proof.
  assert (∀ ms, Forall is_msg ms → EvReady id ∉ ms ∧ EvGone id ∉ ms) as Hn.
  { intros ms Hms. rewrite Forall_forall in Hms. by split; intros Hin%Hms. }
  intros (early & He & [[-> Hne]|(later & Hl & [[-> ->]|[-> ->]])]); destruct (Hn early He) as [He1 He2].
  - split_and!; [by exists early, []; auto using Forall_nil| |by intros ?]. split; [done|]. by intros [? _].
  - destruct (Hn later Hl) as [Hl1 Hl2]. split; [by exists early, later; auto|].
    rewrite !elem_of_app, !elem_of_cons. split; [split; [intros _|done]|by intros [?|[?|?]]].
    split; [by right; left|]. by intros [?|[?|?]].
  - split_and!; [by exists early, later; auto| |done]. split; [done|]. intros [_ Hg]. destruct Hg.
    rewrite elem_of_app, elem_of_cons, elem_of_app, elem_of_cons. auto.
Qed.

Lemma elem_of_events_of id e evs : ev_peer e = id → e ∈ events_of id evs ↔ e ∈ evs.
Proof.
  intros He. unfold events_of. rewrite !list_elem_of_In, List.filter_In, He, Z.eqb_refl. tauto.
Qed.

Section theorems.
Context `{HF : HashFn} `{CN : Cng} {D : Type} `{DB : Sqlite D}.

Lemma start_loop_inv p database n addr mine hb clock (a0 : App D) log r :
  wf_params p → rows_wf (D := D) → wf_array 20 addr → no_links n →
  app_start p database n addr mine hb clock = Ok a0 → loop_run (mkRunning a0 Preparing) log r →
  app_inv a0 ∧ loop_inv a0 log r.
Proof.
  intros Hp Hw Hadr Hn Hst Hrun. pose proof (start_inv _ _ _ _ _ _ _ _ Hp Hw Hadr Hst) as H0.
  split; [done|]. unfold app_start in Hst. destruct (init _ _ _) as [c err]. case_match; [done|].
  injection Hst as <-. by apply loop_run_inv.
Qed.

(** C3: the running node. Every state that a node reaches from its start, with its network
    thread taking turns and handing over events while the miner, requests and the timer
    work in between, is one that the handlers alone reach, so that what holds of those
    holds here. Between the locked parts of a turn no link is dead and no target has two
    links, and the node never waits for blocks from a link that is gone without the
    event that ends the wait being on its way. *)
Theorem running_safe p database n addr mine hb clock (a0 : App D) log r :
  wf_params p → rows_wf (D := D) → wf_array 20 addr → no_links n →
  app_start p database n addr mine hb clock = Ok a0 → loop_run (mkRunning a0 Preparing) log r →
  rtc step a0 (app r) ∧ app_inv (app r) ∧ sync_live r ∧
  ∀ i q, peers (p2p (app r)) !! i = Some q → dead q = false ∧ 1 ≤ i < next_id (p2p (app r)) ∧
    ∀ j q', peers (p2p (app r)) !! j = Some q' → target q = target q' → target q ≠ "" → i = j.
Proof.
  intros Hp Hw Hadr Hn Hst Hrun.
  destruct (start_loop_inv _ _ _ _ _ _ _ _ _ _ Hp Hw Hadr Hn Hst Hrun) as [H0 [H1 H2 H3 _ H4 _]].
  split_and!; [done|by apply (steps_handled a0)|done|]. intros i q Hq.
  split_and!; [by eapply H3|by eapply (lo_ids _ H2)..|]. intros j q' Hq' Ht Hne.
  eapply (lo_one _ H2); [exact Hq|exact Hq'|by eapply H3|by eapply H3|done|done].
Qed.

(** C19: what the node is told of a link. In every run, for every link: some messages, then
    that it is ready, once, then messages, then that it is gone, once, and nothing after
    that; that it is gone is told only of links that were ready. When all events are
    handed over, the links that said hello are those that were ready and are not gone.
    When the end of a link is told its label is not known any more. *)
Theorem link_protocol p database n addr mine hb clock (a0 : App D) log r :
  wf_params p → rows_wf (D := D) → wf_array 20 addr → no_links n →
  app_start p database n addr mine hb clock = Ok a0 → loop_run (mkRunning a0 Preparing) log r →
  ∀ id, protocol id (events_of id log) ∧
    (pending (phase r) = [] → (up (p2p (app r)) id ↔ EvReady id ∈ log ∧ EvGone id ∉ log)) ∧
    (EvGone id ∈ pending (phase r) → peer_label (p2p (app r)) id = "?").
Proof.
  intros Hp Hw Hadr Hn Hst Hrun id.
  destruct (start_loop_inv _ _ _ _ _ _ _ _ _ _ Hp Hw Hadr Hn Hst Hrun) as [_ Hi].
  pose proof (li_lives _ _ _ Hi id) as Hl. split_and!.
  - rewrite events_of_app in Hl. apply lives_split in Hl as (l2 & Hl & _).
    by apply lives_story, story_protocol in Hl as [? _].
  - intros E. rewrite E, app_nil_r in Hl. apply lives_story, story_protocol in Hl as (_ & Hl & _).
    unfold up. by rewrite Hl, !elem_of_events_of.
  - intros Hg. apply lives_story, story_protocol in Hl as (_ & _ & Hd). unfold peer_label.
    destruct (peers (p2p (app r)) !! id) as [q|] eqn:E; [|done].
    rewrite (life_lookup _ _ _ E) in Hd. unfold stage in Hd.
    assert (EvGone id ∈ events_of id (log ++ pending (phase r))) as Hin.
    { rewrite elem_of_events_of by done. apply elem_of_app. by right. }
    specialize (Hd Hin). by destruct (ready q).
Qed.
End theorems.
