(* ===== verification/Config.v ===== *)
(** * Config: the start of a node, [node_run] of [src/node_impl.h]

    [node_config] reads the options; [node_run] opens the database and the key, loads
    the chain and starts the network, with the message of each failure. What the
    machine answers is a [Machine]. *)

From S2P Require Import Prelude Hex Text Args Serial Sha256 Hash Crypto Merkle Tx Ledger Store Chain Consensus Recovery Mempool Miner Net Loop Node Safety Running.

Local Open Scope Z_scope.

Definition is_separator (c : ascii) : bool := (code c =? 92) || (code c =? 47).

(** [s.substr(0, s.find_last_of("\\/"))] *)
Fixpoint before_separator (s : string) : option string :=
  match s with
  | EmptyString => None
  | String d s =>
      match before_separator s with
      | Some a => Some (String d a)
      | None => if is_separator d then Some "" else None
      end
  end.

Definition dir_of (p : string) : string := default "." (before_separator p).

Record Config := mkConfig {
  cf_params : Params;
  cf_heartbeat : Z;
  cf_mine : bool;
  cf_datadir : string;
  cf_p2p_port : Z;
  cf_rpc_port : Z;
  cf_webroot : string;
  cf_rpc_peers : string;
  cf_peers : list string;
}.

(** The loop that cuts the option [peers]. *)
Definition peer_list (ps : string) : list string :=
  List.filter (λ t, negb (bool_decide (t = "")) && negb (bool_decide (t = "none"))) (pieces "," ps).

Definition node_params (a : Args) : Params :=
  let bits := u32 (strtoul (get a "bits" "20")) in
  let netid := if has_option a "netid" then u32 (strtoul (get a "netid" "")) else p_net_id Params_default in
  mkParams netid bits (p_reward Params_default) (p_genesis_time Params_default).

(** [exe] is the name of the program's file. *)
Definition node_config (exe : string) (a : Args) : Config :=
  mkConfig (node_params a) (strtoull (get a "heartbeat" "0"))
    (negb (bool_decide (get a "mine" "on" = "off")))
    (get a "datadir" "data\node1")
    (u16 (atoi (get a "p2p-port" "7501"))) (u16 (atoi (get a "rpc-port" "8501")))
    (get a "webroot" (dir_of exe +:+ "\..\web"))
    (get a "rpc-peers" "") (peer_list (get a "peers" "")).

(** What the machine answers: whether winsqlite3.dll loads, the databases, the key files
    and whether they can be written, and the ports that can be listened on. *)
Record Machine {D : Type} := mkMachine {
  sq_loads : bool;
  database : string → option D;
  key_file_of : string → option string;
  key_writable : string → bool;
  p2p_listens : Z → bool;
  rpc_listens : Z → bool;
}.
Arguments Machine : clear implicits.

Section run.
Context `{HF : HashFn} `{CN : Cng} {D : Type} `{DB : Sqlite D}.

(** The running node, or the message of the fatal error. *)
Definition node_run (w : Machine D) (exe : string) (args : Args) (clock : nat → Z) : result (App D) :=
  let cf := node_config exe args in
  if negb (sq_loads w) then Err "could not load winsqlite3.dll (ships with Windows 10+)"
  else
    match database w (cf_datadir cf +:+ "\chain.db") with
    | None => Err ("could not open " +:+ cf_datadir cf +:+ "\chain.db")
    | Some d =>
        let key := cf_datadir cf +:+ "\node.key" in
        match (kp_load_or_create (key_writable w key) (key_file_of w key)).1 with
        | None => Err "could not create node key (CNG)"
        | Some kp =>
            match app_start (cf_params cf) (Some d) P2P_new (addr_of (kp_pub kp)) (cf_mine cf)
                    (cf_heartbeat cf) clock with
            | Err e => Err e
            | Ok a =>
                let '(n, listening) := start (p2p a) (cf_p2p_port cf) (cf_peers cf) (p_net_id (cf_params cf))
                                         (p2p_listens w (cf_p2p_port cf)) in
                if negb listening then Err ("could not listen on p2p port " +:+ pretty (cf_p2p_port cf) +:+
                                            " (already in use?)")
                else if negb (rpc_listens w (cf_rpc_port cf))
                  then Err ("could not listen on rpc port " +:+ pretty (cf_rpc_port cf) +:+ " (already in use?)")
                else Ok (set_p2p a n)
            end
        end
    end.

(** [main] of [src/clnode.cpp]. *)
Definition clnode (w : Machine D) (exe : string) (argv : list string) (clock : nat → Z) : result (App D) :=
  node_run w exe (parse argv) clock.

(** ** Properties *)

Lemma wf_node_params a : wf_params (node_params a).
Proof.
  unfold node_params, wf_params. cbn [p_net_id p_bits p_reward p_genesis_time].
  split_and!; try done; [case_match|]; by try apply wrap_in_width.
Qed.

Lemma app_start_net p db n n' addr mine hb clock (a : App D) :
  app_start p db n addr mine hb clock = Ok a → app_start p db n' addr mine hb clock = Ok (set_p2p a n').
Proof.
  unfold app_start. destruct (init _ _ _) as [c err]. case_match; [done|]. by intros [= <-].
Qed.

(** A node that starts has the network of its options and no links, and is a start in the
    sense of [running_safe]. *)
Lemma node_run_start w exe args clock (a : App D) : node_run w exe args clock = Ok a →
  let cf := node_config exe args in
  ∃ d kp, database w (cf_datadir cf +:+ "\chain.db") = Some d ∧
    (kp_load_or_create (key_writable w (cf_datadir cf +:+ "\node.key"))
       (key_file_of w (cf_datadir cf +:+ "\node.key"))).1 = Some kp ∧
    app_start (cf_params cf) (Some d) (p2p a) (addr_of (kp_pub kp)) (cf_mine cf) (cf_heartbeat cf) clock = Ok a ∧
    no_links (p2p a) ∧ listen_port (p2p a) = cf_p2p_port cf ∧ targets (p2p a) = cf_peers cf ∧
    net_id (p2p a) = p_net_id (cf_params cf).
Proof.
  unfold node_run. cbv zeta. set (cf := node_config exe args). destruct (sq_loads w); [|done]. cbn [negb].
  destruct (database w _) as [d|]; [|done]. destruct (kp_load_or_create _ _).1 as [kp|]; [|done].
  destruct (app_start _ _ _ _ _ _ _) as [a0|] eqn:E; [|done].
  assert (p2p a0 = P2P_new) as En.
  { unfold app_start in E. destruct (init _ _ _) as [c err]. case_match; [done|]. by injection E as <-. }
  rewrite En. destruct (start _ _ _ _ _) as [n listening] eqn:Es. unfold start in Es. injection Es as <- <-.
  destruct (p2p_listens w _); [|done]. destruct (rpc_listens w _); [|done]. intros [= <-].
  exists d, kp. split_and!; try done. cbn [p2p set_p2p]. by eapply app_start_net.
Qed.

(** Every start of a node is safe: options that are given give a node in order. *)
Lemma node_run_inv w exe args clock (a : App D) : rows_wf (D := D) → node_run w exe args clock = Ok a →
  app_inv a ∧ no_links (p2p a).
Proof.
  intros Hw H. destruct (node_run_start _ _ _ _ _ H) as (d & kp & _ & _ & Hst & Hn & _).
  split; [|done]. eapply start_inv; [|exact Hw| |exact Hst]; [apply wf_node_params|apply wf_addr_of].
Qed.
End run.
