(* ===== verification/Threads.v ===== *)
(** * Threads: the five threads of a node and their two mutexes

    The threads of [src/node_impl.h], [src/net.h] and [src/rpc.h] share the state of the
    node under [App::mtx] and the links under [P2P::mtx]. [Code] is a function with all
    but its locks, its shared data, its loops on the flags and its threads left out: an
    [if] is a choice, any other loop runs any number of times. [Locked] has the functions,
    [thread_step] and [chance_step] are how threads interleave. *)

From stdpp Require Import functions relations.
From S2P Require Import Prelude.

(** ** Threads, mutexes, data *)

Inductive Thread : Type := Main | NetThread | RpcThread | MinerThread | TimerThread.
#[export] Instance Thread_eq_dec : EqDecision Thread.
Proof. solve_decision. Defined.

(** [App::mtx] and [P2P::mtx]; who holds the second may not ask for the first. *)
Inductive Mutex : Type := AppMtx | NetMtx.
#[export] Instance Mutex_eq_dec : EqDecision Mutex.
Proof. solve_decision. Defined.

(** [App::running], [P2P::running], [RpcServer::running]. *)
Inductive Flag : Type := AppRunning | NetRunning | RpcRunning.
#[export] Instance Flag_eq_dec : EqDecision Flag.
Proof. solve_decision. Defined.

(** Chain, pool, synchronisation and work cache; the links; the listening sockets. *)
Inductive Data : Type := AppData | Peers | NetListener | RpcListener.
#[export] Instance Data_eq_dec : EqDecision Data.
Proof. solve_decision. Defined.

(** The mutex of the comments [guards ...]. *)
Definition guard_of (r : Data) : option Mutex :=
  match r with
  | AppData => Some AppMtx
  | Peers => Some NetMtx
  | NetListener | RpcListener => None
  end.

(** ** Code *)

(** [Guard m c]: a block [c] with a [lock_guard] on [m]; [While f c]: [while (f) c];
    [Poll f c]: a loop with [f] and another condition, or with a [break]; [Clear f]:
    [f = false]. [Accept c d]: [accept] on the socket of the RPC server, which waits for a
    connection ([c]) or fails ([d]); [Close]: [closesocket] of that socket. *)
Inductive Code : Type :=
  | Skip
  | Use (r : Data)
  | Seq (c d : Code)
  | Alt (c d : Code)
  | Star (c : Code)
  | Guard (m : Mutex) (c : Code)
  | While (f : Flag) (c : Code)
  | Poll (f : Flag) (c : Code)
  | Accept (c d : Code)
  | Close
  | Clear (f : Flag)
  | Spawn (t : Thread)
  | Join (t : Thread).

Declare Scope code_scope.
Delimit Scope code_scope with code.
Bind Scope code_scope with Code.
Notation "c ;; d" := (Seq c d) (at level 100, d at level 200, right associativity) : code_scope.

(** [if (..) c] *)
Definition If (c : Code) : Code := Alt c Skip.

Module Locked.
Local Open Scope code_scope.

(** *** [src/net.h] *)

Definition send_to : Code := Guard NetMtx (Use Peers).
Definition broadcast : Code := Guard NetMtx (Use Peers).
Definition ready_count : Code := Guard NetMtx (Use Peers).
Definition peer_tip : Code := Guard NetMtx (Use Peers).
Definition peer_label : Code := Guard NetMtx (Use Peers).

(** *** The helpers of [src/node_impl.h] *)

Definition announce_tip : Code := Use AppData ;; broadcast.
Definition post_chain_change : Code := Use AppData.
Definition reset_sync : Code := Use AppData.
Definition request_blocks : Code := send_to ;; Use AppData.
Definition maybe_sync : Code :=
  Use AppData ;; If (peer_tip ;; If (Use AppData ;; peer_label ;; request_blocks)).

(** [sync_mode == 1] *)
Definition extend_blocks : Code :=
  Star (Use AppData) ;;
  If post_chain_change ;;
  Alt (peer_label ;; Use AppData ;; request_blocks)
    (Use AppData ;; Alt (announce_tip ;; reset_sync) (Alt request_blocks reset_sync)).

(** [sync_mode == 2] *)
Definition download_blocks : Code :=
  Star (Use AppData) ;;
  Alt reset_sync
    (Alt request_blocks
       (Use AppData ;; If (peer_label ;; post_chain_change ;; announce_tip) ;; reset_sync)).

Definition handle_blocks : Code :=
  Guard AppMtx (Use AppData ;; If (peer_tip ;; Alt extend_blocks (If download_blocks))).

(** *** [wire_p2p] *)

Definition on_ready : Code := Guard AppMtx (peer_label ;; ready_count ;; Use AppData ;; send_to).
Definition on_gone : Code := Guard AppMtx (peer_label ;; If reset_sync).

Definition msg_tip : Code := Guard AppMtx maybe_sync.
Definition msg_get_blocks : Code := If (Guard AppMtx (Star (Use AppData) ;; send_to)).
Definition msg_blocks : Code := If handle_blocks.
Definition msg_tx : Code := If (Guard AppMtx (Use AppData ;; If peer_label) ;; If broadcast).
Definition msg_block : Code :=
  If (Guard AppMtx (Use AppData ;; Alt (peer_label ;; post_chain_change ;; announce_tip) (If maybe_sync)) ;;
      If broadcast).
Definition on_msg : Code := Alt msg_tip (Alt msg_get_blocks (Alt msg_blocks (Alt msg_tx (If msg_block)))).

(** *** The loops of the threads *)

(** [P2P::loop] *)
Definition net_loop : Code :=
  While NetRunning
    (Use NetListener ;;
     Guard NetMtx (Star (Use Peers)) ;;
     Guard NetMtx (If (If (Star (Use NetListener ;; If (Use Peers))) ;; Star (Use Peers)) ;; Star (Use Peers)) ;;
     Star (Alt on_ready (Alt on_gone on_msg))).

(** Behind the lock of [handle_rpc]: reading, [/status], [/submit], [/submitwork]. *)
Definition endpoint : Code :=
  Use AppData ;;
  If (Alt ready_count (Alt broadcast (post_chain_change ;; announce_tip ;; broadcast))).

Definition handle_rpc : Code := If (Guard AppMtx endpoint).

(** [RpcServer::handle]: receive, answer, send; the sockets have timeouts of five seconds. *)
Definition handle : Code := Star Skip ;; If (Star Skip ;; handle_rpc ;; Star Skip).

(** [RpcServer::loop]; after a failed [accept] the flag decides, as in the loop. *)
Definition rpc_loop : Code := While RpcRunning (Use RpcListener ;; Accept handle Skip).

Definition miner_thread : Code :=
  While AppRunning
    (If (Guard AppMtx (Use AppData) ;;
         If (Poll AppRunning Skip ;;
             If (Poll AppRunning (Star Skip) ;;
                 If (Guard AppMtx (If (Use AppData ;; If (post_chain_change ;; announce_tip))) ;; If broadcast))))).

Definition periodic_thread : Code :=
  While AppRunning
    (If (Guard AppMtx announce_tip) ;;
     If (Guard AppMtx (Use AppData ;; ready_count)) ;;
     Guard AppMtx (Use AppData ;; If reset_sync)).

(** *** Stopping *)

Definition rpc_stop : Code :=
  Clear RpcRunning ;; Use RpcListener ;; Close ;; Use RpcListener ;; Join RpcThread.

Definition p2p_stop : Code := Clear NetRunning ;; Join NetThread ;; Guard NetMtx (Use Peers ;; Use NetListener).

(** [node_run] from [p2p.start] on; the arguments say whether the servers can listen. *)
Definition node_run (p2p_listens rpc_listens : bool) : Code :=
  if negb p2p_listens then Skip
  else
    Spawn NetThread ;;
    (if negb rpc_listens then Skip
     else
       Spawn RpcThread ;;
       Spawn MinerThread ;;
       Spawn TimerThread ;;
       While AppRunning Skip ;;
       rpc_stop ;;
       p2p_stop ;;
       Join MinerThread ;;
       Join TimerThread).
End Locked.

(** What a thread runs. *)
Definition thread_code (t : Thread) : Code :=
  match t with
  | Main => Skip
  | NetThread => Locked.net_loop
  | RpcThread => Locked.rpc_loop
  | MinerThread => Locked.miner_thread
  | TimerThread => Locked.periodic_thread
  end.

(** ** Interleaving *)

(** What a thread has still to do: code, and the ends of blocks with a lock. *)
Inductive Frame : Type := Run (c : Code) | Release (m : Mutex).
#[export] Instance Code_eq_dec : EqDecision Code.
Proof. solve_decision. Defined.
#[export] Instance Frame_eq_dec : EqDecision Frame.
Proof. solve_decision. Defined.

(** A thread that was not started has no stack, one that has ended an empty one. The flags
    of the servers are set, and the socket of the RPC server listens, before their threads
    start. *)
Record Threads := mkThreads {
  stack : Thread → option (list Frame);
  up : Flag → bool;
  listening : bool;
  joined : Thread → bool;
}.

Definition set_stack (s : Threads) (t : Thread) (k : list Frame) : Threads :=
  mkThreads (<[t := Some k]> (stack s)) (up s) (listening s) (joined s).
Definition clear_flag (s : Threads) (f : Flag) : Threads :=
  mkThreads (stack s) (<[f := false]> (up s)) (listening s) (joined s).
Definition close_listener (s : Threads) : Threads := mkThreads (stack s) (up s) false (joined s).
Definition set_joined (s : Threads) (t : Thread) : Threads :=
  mkThreads (stack s) (up s) (listening s) (<[t := true]> (joined s)).

Definition holds (s : Threads) (t : Thread) (m : Mutex) : Prop :=
  ∃ k, stack s t = Some k ∧ Release m ∈ k.

Definition free (s : Threads) (m : Mutex) : Prop := ∀ t, ¬ holds s t m.

(** A step that thread [t] takes by itself. A [Poll] ends by its flag, and [accept] fails when
    the socket was closed. *)
Inductive thread_step (t : Thread) (s : Threads) : Threads → Prop :=
  | step_skip k : stack s t = Some (Run Skip :: k) → thread_step t s (set_stack s t k)
  | step_use r k : stack s t = Some (Run (Use r) :: k) → thread_step t s (set_stack s t k)
  | step_seq c d k : stack s t = Some (Run (Seq c d) :: k) → thread_step t s (set_stack s t (Run c :: Run d :: k))
  | step_alt_l c d k : stack s t = Some (Run (Alt c d) :: k) → thread_step t s (set_stack s t (Run c :: k))
  | step_alt_r c d k : stack s t = Some (Run (Alt c d) :: k) → thread_step t s (set_stack s t (Run d :: k))
  | step_star_end c k : stack s t = Some (Run (Star c) :: k) → thread_step t s (set_stack s t k)
  | step_star_more c k : stack s t = Some (Run (Star c) :: k) →
      thread_step t s (set_stack s t (Run c :: Run (Star c) :: k))
  | step_lock m c k : stack s t = Some (Run (Guard m c) :: k) → free s m →
      thread_step t s (set_stack s t (Run c :: Release m :: k))
  | step_unlock m k : stack s t = Some (Release m :: k) → thread_step t s (set_stack s t k)
  | step_while f c k : stack s t = Some (Run (While f c) :: k) → up s f = true →
      thread_step t s (set_stack s t (Run c :: Run (While f c) :: k))
  | step_while_end f c k : stack s t = Some (Run (While f c) :: k) → up s f = false →
      thread_step t s (set_stack s t k)
  | step_poll f c k : stack s t = Some (Run (Poll f c) :: k) → up s f = true →
      thread_step t s (set_stack s t (Run c :: Run (Poll f c) :: k))
  | step_poll_end f c k : stack s t = Some (Run (Poll f c) :: k) → up s f = false →
      thread_step t s (set_stack s t k)
  | step_refused c d k : stack s t = Some (Run (Accept c d) :: k) → listening s = false →
      thread_step t s (set_stack s t (Run d :: k))
  | step_close k : stack s t = Some (Run Close :: k) → thread_step t s (close_listener (set_stack s t k))
  | step_clear f k : stack s t = Some (Run (Clear f) :: k) → thread_step t s (clear_flag (set_stack s t k) f)
  | step_spawn u k : stack s t = Some (Run (Spawn u) :: k) → stack s u = None →
      thread_step t s (set_stack (set_stack s t k) u [Run (thread_code u)])
  | step_join u k : stack s t = Some (Run (Join u) :: k) → stack s u = Some [] →
      thread_step t s (set_joined (set_stack s t k) u).

(** A step that takes something from outside: a connection, an error of [accept], or the other
    condition of a [Poll] (the delay is over, a nonce was found, the tip has moved). *)
Inductive chance_step (t : Thread) (s : Threads) : Threads → Prop :=
  | chance_poll f c k : stack s t = Some (Run (Poll f c) :: k) → chance_step t s (set_stack s t k)
  | chance_accept c d k : stack s t = Some (Run (Accept c d) :: k) → listening s = true →
      chance_step t s (set_stack s t (Run c :: k))
  | chance_error c d k : stack s t = Some (Run (Accept c d) :: k) → listening s = true →
      chance_step t s (set_stack s t (Run d :: k)).

(** The threads alone. *)
Definition any_step (s s' : Threads) : Prop := ∃ t, thread_step t s s'.

(** Ctrl+C: [ctrl_handler]. *)
Definition ctrl_handler (s : Threads) : Threads := clear_flag s AppRunning.

Inductive node_step (s : Threads) : Threads → Prop :=
  | node_thread t s' : thread_step t s s' → node_step s s'
  | node_chance t s' : chance_step t s s' → node_step s s'
  | node_ctrl : node_step s (ctrl_handler s).

Definition node_started (p2p_listens rpc_listens : bool) : Threads :=
  mkThreads (<[Main := Some [Run (Locked.node_run p2p_listens rpc_listens)]]> (λ _, None)) (λ _, true) true (λ _, false).

Definition reached (p2p_listens rpc_listens : bool) (s : Threads) : Prop :=
  rtc node_step (node_started p2p_listens rpc_listens) s.

Definition ended (s : Threads) (t : Thread) : Prop := stack s t = Some [].

(** [node_run] returns while a thread can still be joined: the destructor of [std::thread]
    then ends the process by [std::terminate]. *)
Definition terminated (s : Threads) : Prop :=
  ended s Main ∧ ∃ t, t ≠ Main ∧ stack s t ≠ None ∧ joined s t = false.

(** Thread [t] is at an access of [r], or waits for [m]. *)
Definition at_use (s : Threads) (t : Thread) (r : Data) : Prop := ∃ k, stack s t = Some (Run (Use r) :: k).
Definition waits (s : Threads) (t : Thread) (m : Mutex) : Prop := ∃ c k, stack s t = Some (Run (Guard m c) :: k).
