(* ===== verification/ThreadsSpec.v ===== *)
(** * ThreadsSpec: the threads of a node exclude each other and can always be stopped

    [lock_discipline] is what the mutexes promise, [node_ends] that Ctrl+C stops a node
    from wherever its threads are. *)

From stdpp Require Import functions relations.
From S2P Require Import Prelude Threads.

(** ** Code that keeps the order of the mutexes *)

Definition level (m : Mutex) : nat := match m with AppMtx => 0 | NetMtx => 1 end.

Definition below (m : Mutex) (held : list Mutex) : bool := forallb (λ h, level h <? level m)%nat held.

(** With [held] by the blocks around it, the code asks only for later mutexes, uses data
    only under its mutex, and waits for no flag, thread or connection inside of a block. *)
Fixpoint ordered (held : list Mutex) (c : Code) : bool :=
  match c with
  | Skip => true
  | Use r => match guard_of r with Some m => bool_decide (m ∈ held) | None => true end
  | Seq c d | Alt c d => ordered held c && ordered held d
  | Star c => ordered held c
  | Guard m c => below m held && ordered (m :: held) c
  | While _ c | Poll _ c => bool_decide (held = []) && ordered held c
  | Accept c d => bool_decide (held = []) && (ordered held c && ordered held d)
  | Close | Clear _ | Spawn _ | Join _ => bool_decide (held = [])
  end.

Fixpoint held (k : list Frame) : list Mutex :=
  match k with
  | [] => []
  | Release m :: k => m :: held k
  | Run _ :: k => held k
  end.

Fixpoint ordered_stack (k : list Frame) : bool :=
  match k with
  | [] => true
  | Release _ :: k => ordered_stack k
  | Run c :: k => ordered (held k) c && ordered_stack k
  end.

Lemma elem_of_held m k : m ∈ held k ↔ Release m ∈ k.
Proof.
  induction k as [|[c|m'] k IH]; cbn; [split; intros H; by apply not_elem_of_nil in H|..];
    rewrite ?elem_of_cons, IH; naive_solver.
Qed.

Lemma below_not m l : below m l = true → m ∉ l.
Proof. intros H Hm%list_elem_of_In. eapply forallb_forall in H; [|exact Hm]. apply Nat.ltb_lt in H. lia. Qed.

(** Inside of a block only the second mutex is left. *)
Lemma below_net m l : below m l = true → l ≠ [] → m = NetMtx.
Proof. destruct l as [|h l]; [done|]. cbn. intros [H _]%andb_true_iff _. by destruct m; [destruct h|]. Qed.

Lemma code_ordered t : ordered [] (thread_code t) = true.
Proof. by destruct t. Qed.

Lemma node_run_ordered p r : ordered [] (Locked.node_run p r) = true.
Proof. by destruct p, r. Qed.

(** ** What the code of a thread other than the main one may do *)

(** The flag of its loop. *)
Definition flag_of (t : Thread) : Flag :=
  match t with
  | NetThread => NetRunning
  | RpcThread => RpcRunning
  | Main | MinerThread | TimerThread => AppRunning
  end.

Fixpoint worker (t : Thread) (c : Code) : bool :=
  match c with
  | Skip => true
  | Use NetListener => bool_decide (t = NetThread)
  | Use RpcListener => bool_decide (t = RpcThread)
  | Use _ => true
  | Seq c d | Alt c d => worker t c && worker t d
  | Star c | Guard _ c => worker t c
  | While f c | Poll f c => bool_decide (f = flag_of t) && worker t c
  | Accept c d => bool_decide (t = RpcThread) && (worker t c && worker t d)
  | Close | Clear _ | Spawn _ | Join _ => false
  end.

Definition worker_frame (t : Thread) (f : Frame) : bool := match f with Run c => worker t c | Release _ => true end.

Lemma code_worker t : worker t (thread_code t) = true.
Proof. by destruct t. Qed.

(** ** What the main thread still has to do *)

(** Flags that are down, threads that were started, threads that were joined, and whether the
    RPC server stopped to listen. *)
Record Abs := mkAbs { dn : Flag → Prop; sp : Thread → Prop; jn : Thread → Prop; cl : Prop }.

Definition abs (s : Threads) : Abs :=
  mkAbs (λ f, up s f = false) (λ t, stack s t ≠ None) (λ t, joined s t = true) (listening s = false).

(** The same, but for flags that came down and the socket that was closed. *)
Record later (a a' : Abs) : Prop := {
  la_dn f : dn a f → dn a' f;
  la_sp t : sp a t ↔ sp a' t;
  la_jn t : jn a t ↔ jn a' t;
  la_cl : cl a → cl a';
}.

Definition with_dn (a : Abs) (f : Flag) : Abs := mkAbs (λ g, g = f ∨ dn a g) (sp a) (jn a) (cl a).
Definition with_sp (a : Abs) (t : Thread) : Abs := mkAbs (dn a) (λ u, u = t ∨ sp a u) (jn a) (cl a).
Definition with_jn (a : Abs) (t : Thread) : Abs := mkAbs (dn a) (sp a) (λ u, u = t ∨ jn a u) (cl a).
Definition with_cl (a : Abs) : Abs := mkAbs (dn a) (sp a) (jn a) True.

(** What a thread needs to end when it was told to: [accept] must fail. *)
Definition let_go (a : Abs) (t : Thread) : Prop := t = RpcThread → cl a.

(** Run to its end from [a], the code comes to [Q]: what it starts was not started, what it
    joins was, was told to stop and waits for nothing outside, it uses the listener of the
    links after their thread has ended, and the one of the RPC server after it took down the
    flag. *)
Fixpoint wp (c : Code) (Q : Abs → Prop) (a : Abs) : Prop :=
  match c with
  | Skip => Q a
  | Use r => (r = NetListener → jn a NetThread) ∧ (r = RpcListener → dn a RpcRunning) ∧ Q a
  | Seq c d => wp c (wp d Q) a
  | Guard _ c => wp c Q a
  | While f c => f = AppRunning ∧ c = Skip ∧ Q (with_dn a f)
  | Clear f => Q (with_dn a f)
  | Spawn t => t ≠ Main ∧ ¬ sp a t ∧ Q (with_sp a t)
  | Close => Q (with_cl a)
  | Join t => t ≠ Main ∧ sp a t ∧ dn a (flag_of t) ∧ let_go a t ∧ Q (with_jn a t)
  | Alt _ _ | Star _ | Poll _ _ | Accept _ _ => False
  end.

Fixpoint wps (k : list Frame) (Q : Abs → Prop) (a : Abs) : Prop :=
  match k with
  | [] => Q a
  | Run c :: k => wp c (wps k Q) a
  | Release _ :: k => wps k Q a
  end.

Definition stays (Q : Abs → Prop) : Prop := ∀ a a', later a a' → Q a → Q a'.

Lemma later_dn a a' f : later a a' → later (with_dn a f) (with_dn a' f).
Proof. intros []. split; cbn; naive_solver. Qed.
Lemma later_sp a a' t : later a a' → later (with_sp a t) (with_sp a' t).
Proof. intros []. split; cbn; naive_solver. Qed.
Lemma later_jn a a' t : later a a' → later (with_jn a t) (with_jn a' t).
Proof. intros []. split; cbn; naive_solver. Qed.

Lemma later_cl a a' : later a a' → later (with_cl a) (with_cl a').
Proof. intros []. by split. Qed.

Lemma wp_stays c Q : stays Q → stays (wp c Q).
Proof.
  revert Q. induction c as [|r|c IHc d IHd|c IHc d IHd|c IHc|m c IHc|f c IHc|f c IHc|c IHc d IHd| |f|t|t]; intros Q HQ a a' Ha; cbn; try done.
  - by apply HQ.
  - intros (Hr & Hd & H). split_and!; [intros E; by apply (la_jn _ _ Ha), Hr| |by eapply HQ].
    intros E. by apply (la_dn _ _ Ha), Hd.
  - by apply IHc; [apply IHd|].
  - by apply IHc.
  - intros (-> & -> & H). split_and!; [done..|]. by eapply HQ; [apply later_dn|].
  - by apply HQ, later_cl.
  - by apply HQ, later_dn.
  - intros (? & Hs & H). split_and!; [done|by rewrite <- (la_sp _ _ Ha)|]. by eapply HQ; [apply later_sp|].
  - intros (? & Hs & Hd & Hl & H). split_and!; [done|by rewrite <- (la_sp _ _ Ha)|by apply (la_dn _ _ Ha)| |].
    + intros E. by apply (la_cl _ _ Ha), Hl.
    + by eapply HQ; [apply later_jn|].
Qed.

Lemma wps_stays k Q : stays Q → stays (wps k Q).
Proof. intros HQ. induction k as [|[c|m] k IH]; [done|by apply wp_stays|done]. Qed.

(** What holds when the main thread ends. *)
Definition main_end (p r : bool) (a : Abs) : Prop :=
  if negb p then ∀ t, t ≠ Main → ¬ sp a t
  else if negb r then sp a NetThread ∧ ¬ jn a NetThread
  else ∀ t, t ≠ Main → sp a t ∧ jn a t.

Lemma main_end_stays p r : stays (main_end p r).
Proof.
  intros a a' Ha. unfold main_end. destruct p, r; cbn [negb].
  - intros H t Ht. rewrite <- (la_sp _ _ Ha), <- (la_jn _ _ Ha). by apply H.
  - by rewrite <- (la_sp _ _ Ha), <- (la_jn _ _ Ha).
  - intros H t Ht. rewrite <- (la_sp _ _ Ha). by apply H.
  - intros H t Ht. rewrite <- (la_sp _ _ Ha). by apply H.
Qed.

Lemma node_run_wp p r : wp (Locked.node_run p r) (main_end p r) (abs (node_started p r)).
Proof.
  destruct p, r; cbn; try (intros t Ht; rewrite fn_lookup_insert_ne by done; naive_solver).
  - rewrite !fn_lookup_insert_ne by done. split_and!; try naive_solver; try done. intros []; naive_solver.
  - rewrite fn_lookup_insert_ne by done. naive_solver.
Qed.

(** ** The invariant *)

(** The locks, and what each thread may do. *)
Record base (s : Threads) : Prop := {
  ba_ordered t k : stack s t = Some k → ordered_stack k = true;
  ba_exclusive m t u : holds s t m → holds s u m → t = u;
  ba_worker t k : t ≠ Main → stack s t = Some k → forallb (worker_frame t) k = true;
  ba_joined t : joined s t = true → t ≠ Main ∧ stack s t = Some [];
}.

(** The main thread comes to [Q]. *)
Definition main_to (Q : Abs → Prop) (s : Threads) : Prop := ∃ k, stack s Main = Some k ∧ wps k Q (abs s).

Lemma holds_held s t k m : stack s t = Some k → holds s t m ↔ m ∈ held k.
Proof. intros E. unfold holds. rewrite E. setoid_rewrite elem_of_held. naive_solver. Qed.

Lemma stack_set s t k : stack (set_stack s t k) t = Some k.
Proof. apply fn_lookup_insert. Qed.

Lemma stack_set_ne s t k u : t ≠ u → stack (set_stack s t k) u = stack s u.
Proof. apply fn_lookup_insert_ne. Qed.

Lemma holds_set_ne s t k u m : t ≠ u → holds (set_stack s t k) u m ↔ holds s u m.
Proof. intros. unfold holds. by rewrite stack_set_ne. Qed.

Lemma later_set s t k k' : stack s t = Some k → later (abs s) (abs (set_stack s t k')).
Proof.
  intros E. split; cbn; [done| |done..]. intros u. destruct (decide (t = u)) as [<-|Hne].
  - rewrite fn_lookup_insert, E. naive_solver.
  - by rewrite fn_lookup_insert_ne.
Qed.

Lemma node_started_base p r : base (node_started p r).
Proof.
  assert (∀ t k, stack (node_started p r) t = Some k → t = Main ∧ k = [Run (Locked.node_run p r)]) as Hs.
  { intros t k. cbn. destruct (decide (t = Main)) as [->|Hne].
    - rewrite fn_lookup_insert. by intros [= <-].
    - by rewrite fn_lookup_insert_ne. }
  split.
  - intros t k [_ ->]%Hs. cbn. by rewrite node_run_ordered.
  - intros m t u (k & [_ ->]%Hs & H1%elem_of_held). by apply not_elem_of_nil in H1.
  - by intros t k Hne [-> _]%Hs.
  - done.
Qed.

(** Thread [t] goes from [k] to [k']. *)
Record moves (s : Threads) (t : Thread) (k k' : list Frame) : Prop := {
  mv_stack : stack s t = Some k;
  mv_some : k ≠ [];
  mv_ordered : ordered_stack k = true → ordered_stack k' = true;
  mv_held m : m ∈ held k' → m ∈ held k ∨ free s m;
  mv_worker : t ≠ Main → forallb (worker_frame t) k = true → forallb (worker_frame t) k' = true;
}.

Lemma moves_base s t k k' : moves s t k k' → base s → base (set_stack s t k').
Proof.
  intros [E Hne Ho Hh Hw] [H1 H2 H3 H5].
  assert (∀ u m, holds (set_stack s t k') u m → holds s u m ∨ u = t ∧ free s m) as Hholds.
  { intros u m. destruct (decide (t = u)) as [<-|Hu]; [|rewrite holds_set_ne by done; auto].
    rewrite (holds_held _ _ k') by apply stack_set. intros [?|?]%Hh; [left|by right].
    by apply (holds_held s t k). }
  split.
  - intros u k1. destruct (decide (t = u)) as [<-|Hu]; [rewrite stack_set|rewrite stack_set_ne by done].
    + intros [= <-]. by eapply Ho, H1.
    + apply H1.
  - intros m u v Hu%Hholds Hv%Hholds.
    destruct Hu as [Hu|[-> Hfr]], Hv as [Hv|[-> Hfr']]; [by eapply H2|by apply Hfr' in Hu|by apply Hfr in Hv|done].
  - intros u k1 Hu. destruct (decide (t = u)) as [<-|Hu']; [rewrite stack_set|rewrite stack_set_ne by done].
    + intros [= <-]. by eapply Hw, H3.
    + by apply H3.
  - intros u Hu. destruct (H5 u Hu) as [Hu1 Hu2]. split; [done|].
    rewrite stack_set_ne; [done|]. intros <-. congruence.
Qed.

Lemma clear_base s f : base s → base (clear_flag s f).
Proof. by intros []. Qed.

Lemma close_base s : base s → base (close_listener s).
Proof. by intros []. Qed.

Lemma joined_base s t : t ≠ Main → stack s t = Some [] → base s → base (set_joined s t).
Proof.
  intros Ht E []. split; [done..|]. intros u. cbn. destruct (decide (t = u)) as [<-|Hu]; [done|].
  rewrite fn_lookup_insert_ne by done. apply ba_joined0.
Qed.

Lemma spawn_base s t : t ≠ Main → stack s t = None → base s → base (set_stack s t [Run (thread_code t)]).
Proof.
  intros Ht E [H1 H2 H3 H5].
  assert (∀ u m, holds (set_stack s t [Run (thread_code t)]) u m → holds s u m) as Hholds.
  { intros u m. destruct (decide (t = u)) as [<-|Hu]; [|by rewrite holds_set_ne].
    rewrite (holds_held _ _ [Run (thread_code t)]) by apply stack_set. intros H. by apply not_elem_of_nil in H. }
  split.
  - intros u k1. destruct (decide (t = u)) as [<-|Hu]; [rewrite stack_set|rewrite stack_set_ne by done; apply H1].
    intros [= <-]. cbn. by rewrite code_ordered.
  - intros m u v Hu%Hholds Hv%Hholds. by eapply H2.
  - intros u k1 Hu. destruct (decide (t = u)) as [<-|Hu']; [rewrite stack_set|rewrite stack_set_ne by done; by apply H3].
    intros [= <-]. cbn. by rewrite code_worker.
  - intros u Hu. destruct (H5 u Hu) as [Hu1 Hu2]. split; [done|].
    rewrite stack_set_ne; [done|]. intros <-. congruence.
Qed.

(** ** Steps keep it *)

Ltac moving E :=
  split; [exact E|done|cbn; rewrite ?andb_true_iff; naive_solver| |cbn; rewrite ?andb_true_iff; naive_solver];
  cbn; set_solver.

(** What only the main thread does. *)
Lemma base_main s t c k : base s → stack s t = Some (Run c :: k) → worker t c = false → t = Main.
Proof.
  intros Hb E Hw. destruct (decide (t = Main)); [done|]. pose proof (ba_worker s Hb t _ n E) as H.
  cbn in H. by rewrite Hw in H.
Qed.

Lemma step_base t s s' : base s → thread_step t s s' → base s'.
Proof.
  intros Hb Hst. destruct Hst as [k E|r k E|c d k E|c d k E|c d k E|c k E|c k E|m c k E Hfr|m k E|f c k E Hf|f c k E Hf
                                 |f c k E Hf|f c k E Hf|c d k E Hl|k E|f k E|u k E Eu|u k E Eu].
  - by eapply moves_base; [moving E|].
  - by eapply moves_base; [moving E|].
  - by eapply moves_base; [moving E|].
  - by eapply moves_base; [moving E|].
  - by eapply moves_base; [moving E|].
  - by eapply moves_base; [moving E|].
  - by eapply moves_base; [moving E|].
  - eapply moves_base; [|done]. split; [exact E|done|cbn; rewrite ?andb_true_iff; naive_solver| |done].
    cbn. intros m'. set_solver.
  - by eapply moves_base; [moving E|].
  - by eapply moves_base; [moving E|].
  - by eapply moves_base; [moving E|].
  - by eapply moves_base; [moving E|].
  - by eapply moves_base; [moving E|].
  - by eapply moves_base; [moving E|].
  - apply close_base. by eapply moves_base; [moving E|].
  - apply clear_base. by eapply moves_base; [moving E|].
  - assert (t = Main) as -> by by eapply base_main.
    assert (Main ≠ u) as Hu by (intros <-; congruence).
    apply spawn_base; [done|by rewrite stack_set_ne|]. by eapply moves_base; [moving E|].
  - assert (t = Main) as -> by by eapply base_main.
    assert (Main ≠ u) as Hu by (intros <-; congruence).
    apply joined_base; [done|by rewrite stack_set_ne|]. by eapply moves_base; [moving E|].
Qed.

Lemma chance_base t s s' : base s → chance_step t s s' → base s'.
Proof. intros Hb [f c k E|c d k E Hl|c d k E Hl]; by eapply moves_base; [moving E|]. Qed.

Lemma abs_close s t k k' : stack s t = Some k → later (with_cl (abs s)) (abs (close_listener (set_stack s t k'))).
Proof. intros E. pose proof (later_set s t k k' E) as []. by split. Qed.

Lemma abs_clear s t k k' f : stack s t = Some k → later (with_dn (abs s) f) (abs (clear_flag (set_stack s t k') f)).
Proof.
  intros E. pose proof (later_set s t k k' E) as [_ Hs Hj Hc]. split; cbn in *; [|done..].
  intros g. destruct (decide (f = g)) as [<-|Hne]; [by rewrite fn_lookup_insert|rewrite fn_lookup_insert_ne by done].
  by intros [->|].
Qed.

Lemma abs_spawn s t k k' u k1 : stack s t = Some k → t ≠ u →
  later (with_sp (abs s) u) (abs (set_stack (set_stack s t k') u k1)).
Proof.
  intros E Hne. pose proof (later_set s t k k' E) as [_ Hs Hj Hc]. split; cbn in *; [done| |done..].
  intros v. destruct (decide (u = v)) as [<-|Hu]; [rewrite fn_lookup_insert; by split; [|left]|].
  rewrite (fn_lookup_insert_ne _ u) by done. rewrite <- Hs. naive_solver.
Qed.

Lemma abs_join s t k k' u : stack s t = Some k → later (with_jn (abs s) u) (abs (set_joined (set_stack s t k') u)).
Proof.
  intros E. pose proof (later_set s t k k' E) as [_ Hs Hj Hc]. split; cbn in *; [done..| |done].
  intros v. destruct (decide (u = v)) as [<-|Hu]; [rewrite fn_lookup_insert; naive_solver|].
  rewrite fn_lookup_insert_ne by done. naive_solver.
Qed.

Lemma with_dn_later a f : dn a f → later (with_dn a f) a.
Proof. intros H. split; cbn; naive_solver. Qed.

Section main.
Context (Q : Abs → Prop) (HQ : stays Q).

Lemma main_set s k k' : stack s Main = Some k → wps k' Q (abs s) → main_to Q (set_stack s Main k').
Proof.
  intros E H. exists k'. split; [apply stack_set|]. eapply wps_stays; [done|by eapply later_set|done].
Qed.

(** A step of another thread. *)
Lemma main_other s t k k' : t ≠ Main → stack s t = Some k → main_to Q s → main_to Q (set_stack s t k').
Proof.
  intros Hne E (km & Em & H). exists km. split; [by rewrite stack_set_ne|].
  eapply wps_stays; [done|by eapply later_set|done].
Qed.

Lemma step_main s t s' : base s → thread_step t s s' → main_to Q s → main_to Q s'.
Proof.
  intros Hb Hst Hm. destruct (decide (t = Main)) as [->|Hne].
  - destruct Hm as (km & Em & H).
    destruct Hst as [k E|r k E|c d k E|c d k E|c d k E|c k E|c k E|m c k E Hfr|m k E|f c k E Hf|f c k E Hf
                    |f c k E Hf|f c k E Hf|c d k E Hl|k E|f k E|u k E Eu|u k E Eu]; rewrite E in Em; injection Em as <-; cbn in H; try done.
    + by eapply main_set.
    + by eapply main_set; [|apply H].
    + by eapply main_set.
    + by eapply main_set.
    + by eapply main_set.
    + destruct H as (-> & -> & H). by eapply main_set.
    + destruct H as (-> & -> & H). eapply main_set; [done|]. by eapply (wps_stays k Q HQ); [apply with_dn_later, Hf|].
    + exists k. split; [apply stack_set|]. eapply wps_stays; [done|by eapply abs_close|done].
    + exists k. split; [apply stack_set|]. eapply wps_stays; [done|by eapply abs_clear|done].
    + destruct H as (Hu & _ & H). exists k. split; [rewrite stack_set_ne by done; apply stack_set|].
      eapply wps_stays; [done|by eapply abs_spawn|done].
    + destruct H as (Hu & _ & _ & _ & H). exists k. split; [apply stack_set|]. eapply wps_stays; [done|by eapply abs_join|done].
  - destruct Hst as [k E|r k E|c d k E|c d k E|c d k E|c k E|c k E|m c k E Hfr|m k E|f c k E Hf|f c k E Hf
                    |f c k E Hf|f c k E Hf|c d k E Hl|k E|f k E|u k E Eu|u k E Eu]; try (by eapply main_other).
    all: by destruct Hne; eapply base_main.
Qed.

Lemma chance_main s t s' : chance_step t s s' → main_to Q s → main_to Q s'.
Proof.
  intros Hst Hm. destruct (decide (t = Main)) as [->|Hne].
  - destruct Hm as (km & Em & H).
    by destruct Hst as [f c k E|c d k E Hl|c d k E Hl]; rewrite E in Em; injection Em as <-.
  - destruct Hst; by eapply main_other.
Qed.
End main.

(** ** What is reached *)

Definition inv (p r : bool) (s : Threads) : Prop := base s ∧ main_to (main_end p r) s.

Lemma node_started_inv p r : inv p r (node_started p r).
Proof.
  split; [apply node_started_base|]. exists [Run (Locked.node_run p r)]. split; [done|]. apply node_run_wp.
Qed.

Lemma thread_step_inv p r t s s' : thread_step t s s' → inv p r s → inv p r s'.
Proof.
  intros Hst [Hb Hm]. split; [by eapply step_base|]. eapply step_main; [apply main_end_stays|done..].
Qed.

Lemma chance_step_inv p r t s s' : chance_step t s s' → inv p r s → inv p r s'.
Proof. intros Hst [Hb Hm]. split; [by eapply chance_base|]. eapply chance_main; [apply main_end_stays|done..]. Qed.

Lemma ctrl_inv p r s : inv p r s → inv p r (ctrl_handler s).
Proof.
  intros [Hb (k & E & H)]. split; [by apply clear_base|]. exists k. split; [done|].
  eapply wps_stays; [apply main_end_stays| |exact H]. split; cbn; [|done..].
  intros f Hf. by destruct (decide (AppRunning = f)) as [<-|]; [rewrite fn_lookup_insert|rewrite fn_lookup_insert_ne].
Qed.

Lemma reached_inv p r s : reached p r s → inv p r s.
Proof.
  intros H. eapply (rtc_ind_r (inv p r)); [apply node_started_inv| |exact H].
  intros s1 s2 _ [t s' Hst|t s' Hst|] Hi; [by eapply thread_step_inv|by eapply chance_step_inv|by apply ctrl_inv].
Qed.

(** ** Running one thread *)

(** The steps that code takes when its loops end as soon as they may. *)
Fixpoint cost (c : Code) : nat :=
  match c with
  | Seq c d => S (cost c + cost d)
  | Alt c _ => S (cost c)
  | Guard _ c => S (S (cost c))
  | Accept _ d => S (cost d)
  | _ => 1
  end.

Fixpoint costs (k : list Frame) : nat :=
  match k with
  | [] => 0
  | Run c :: k => cost c + costs k
  | Release _ :: k => S (costs k)
  end.

(** Only thread [t] moved. *)
Record alone (t : Thread) (s s' : Threads) : Prop := {
  al_steps : rtc any_step s s';
  al_stack u : u ≠ t → stack s' u = stack s u;
  al_up : up s' = up s;
  al_listening : listening s' = listening s;
  al_joined : joined s' = joined s;
}.

Lemma alone_refl t s : alone t s s.
Proof. by split. Qed.

Lemma alone_step t s k s' : thread_step t s (set_stack s t k) → alone t (set_stack s t k) s' → alone t s s'.
Proof.
  intros Hst [H1 H2 H3 H4 H5]. split; [|intros u Hu; by rewrite H2, stack_set_ne|done..].
  eapply rtc_l; [by exists t|done].
Qed.

Lemma steps_inv p r s s' : rtc any_step s s' → inv p r s → inv p r s'.
Proof. induction 1 as [|s1 s2 s3 [t Hst] _ IH]; [done|]. intros Hi. by eapply IH, thread_step_inv. Qed.

Lemma steps_base s s' : rtc any_step s s' → base s → base s'.
Proof. induction 1 as [|s1 s2 s3 [t Hst] _ IH]; [done|]. intros Hi. by eapply IH, step_base. Qed.

Lemma alone_holds t s s' u m : alone t s s' → u ≠ t → holds s' u m ↔ holds s u m.
Proof. intros [_ Hs _ _ _] Hu. unfold holds. by rewrite Hs. Qed.

(** What a thread needs for its next step, when its loops end as soon as they may. *)
Definition ready (s : Threads) (f : Frame) : Prop :=
  match f with
  | Run (Guard m _) => free s m
  | Run (While f _) | Run (Poll f _) => up s f = false
  | Run (Accept _ _) => listening s = false
  | Run Close | Run (Clear _) | Run (Spawn _) | Run (Join _) => False
  | _ => True
  end.

Lemma ready_step t s f k : stack s t = Some (f :: k) → ready s f →
  ∃ k', thread_step t s (set_stack s t k') ∧ (costs k' < costs (f :: k))%nat.
Proof.
  intros E Hr. destruct f as [c|m]; [|exists k; split; [by eapply step_unlock|cbn; lia]].
  destruct c as [|x|c d|c d|c|m c|f c|f c|c d| |f|u|u]; cbn in Hr; try done.
  - exists k. split; [by apply step_skip|cbn; lia].
  - exists k. split; [by eapply step_use|cbn; lia].
  - exists (Run c :: Run d :: k). split; [by apply step_seq|cbn; lia].
  - exists (Run c :: k). split; [by eapply step_alt_l|cbn; lia].
  - exists k. split; [by eapply step_star_end|cbn; lia].
  - exists (Run c :: Release m :: k). split; [by apply step_lock|cbn; lia].
  - exists k. split; [by eapply step_while_end|cbn; lia].
  - exists k. split; [by eapply step_poll_end|cbn; lia].
  - exists (Run d :: k). split; [by eapply step_refused|cbn; lia].
Qed.

(** As long as [t] is [ready] before it comes to [P], it gets there. *)
Lemma run_alone (P : list Frame → Prop) t : (∀ k, Decision (P k)) →
  ∀ n s k, base s → stack s t = Some k → (costs k ≤ n)%nat → P [] →
  (∀ s' f k', alone t s s' → base s' → stack s' t = Some (f :: k') → ¬ P (f :: k') → ready s' f) →
  ∃ s' k', alone t s s' ∧ stack s' t = Some k' ∧ P k'.
Proof.
  intros Hdec n. induction n as [n IH] using lt_wf_ind. intros s k Hb E Hn Hend Hr.
  destruct (decide (P k)) as [HP|HP]; [exists s, k; split_and!; [apply alone_refl|done..]|].
  destruct k as [|f k]; [done|].
  destruct (ready_step t s f k E) as (k1 & Hst & Hc); [by eapply Hr; [apply alone_refl|..]|].
  destruct (IH (costs k1) ltac:(lia) (set_stack s t k1) k1) as (s' & k' & Ha & E' & HP'); try done.
  - by eapply step_base.
  - apply stack_set.
  - intros s' f' k' Ha. apply Hr. by eapply alone_step.
  - exists s', k'. split_and!; [by eapply alone_step|done..].
Qed.

(** A thread leaves the blocks that it is in, if nobody else has the mutex of the links. *)
Lemma drain t s k : base s → stack s t = Some k → (∀ u, u ≠ t → ¬ holds s u NetMtx) →
  ∃ s', alone t s s' ∧ ∀ m, ¬ holds s' t m.
Proof.
  intros Hb E Hnet.
  destruct (run_alone (λ k, held k = []) t _ _ s k Hb E (le_n _) eq_refl) as (s' & k' & Ha & E' & HP).
  - intros s' f k' Ha Hb' E' Hne. pose proof (ba_ordered s' Hb' t _ E') as Ho.
    destruct f as [c|m]; [|done]. cbn in Ho, Hne. apply andb_true_iff in Ho as [Ho _].
    destruct c as [|x|c d|c d|c|m c|f c|f c|c d| |f|u|u]; cbn in Ho; try done.
    + apply andb_true_iff in Ho as [Hl _]. pose proof (below_net _ _ Hl Hne) as ->. intros u Hu.
      destruct (decide (u = t)) as [->|Hut].
      * apply (holds_held _ _ _ _ E') in Hu. by eapply below_not.
      * apply (alone_holds t s s') in Hu; [|done..]. by eapply Hnet.
    + apply andb_true_iff in Ho as [Ho _]. by apply bool_decide_eq_true in Ho.
    + apply andb_true_iff in Ho as [Ho _]. by apply bool_decide_eq_true in Ho.
    + apply andb_true_iff in Ho as [Ho _]. by apply bool_decide_eq_true in Ho.
    + by apply bool_decide_eq_true in Ho.
    + by apply bool_decide_eq_true in Ho.
    + by apply bool_decide_eq_true in Ho.
    + by apply bool_decide_eq_true in Ho.
  - exists s'. split; [done|]. intros m. rewrite (holds_held _ _ _ _ E'), HP. apply not_elem_of_nil.
Qed.

(** A thread that was told to stop ends by itself, if nobody else is in a block. *)
Lemma finish t s k : t ≠ Main → base s → stack s t = Some k → up s (flag_of t) = false → let_go (abs s) t →
  (∀ u m, u ≠ t → ¬ holds s u m) → ∃ s', alone t s s' ∧ ended s' t.
Proof.
  intros Ht Hb E Hup Hlet Hfree.
  destruct (run_alone (λ k, k = []) t _ _ s k Hb E (le_n _) eq_refl) as (s' & k' & Ha & E' & ->); [|by exists s'].
  intros s' f k' Ha Hb' E' _. pose proof (ba_ordered s' Hb' t _ E') as Ho.
  pose proof (ba_worker s' Hb' t _ Ht E') as Hw. cbn in Hw. apply andb_true_iff in Hw as [Hw _].
  destruct f as [c|m]; [|done]. cbn in Ho, Hw. apply andb_true_iff in Ho as [Ho _].
  destruct c as [|x|c d|c d|c|m c|f c|f c|c d| |f|u|u]; cbn in Ho, Hw; try done.
  - apply andb_true_iff in Ho as [Hl _]. intros u Hu. destruct (decide (u = t)) as [->|Hut].
    + apply (holds_held _ _ _ _ E') in Hu. by eapply below_not.
    + apply (alone_holds t s s') in Hu; [|done..]. by eapply Hfree.
  - apply andb_true_iff in Hw as [->%bool_decide_eq_true _]. cbn. by rewrite (al_up _ _ _ Ha).
  - apply andb_true_iff in Hw as [->%bool_decide_eq_true _]. cbn. by rewrite (al_up _ _ _ Ha).
  - apply andb_true_iff in Hw as [Hw%bool_decide_eq_true _]. cbn. rewrite (al_listening _ _ _ Ha). by apply Hlet.
Qed.

(** ** Running all threads *)

Definition threads : list Thread := [Main; NetThread; RpcThread; MinerThread; TimerThread].

Lemma elem_of_threads t : t ∈ threads.
Proof. destruct t; set_solver. Qed.

#[export] Instance holds_dec s t m : Decision (holds s t m).
Proof.
  destruct (stack s t) as [k|] eqn:E.
  - destruct (decide (m ∈ held k)); [left|right]; by rewrite (holds_held _ _ _ _ E).
  - right. intros (k & Ek & _). congruence.
Defined.

(** Steps by which nobody takes a mutex for good. *)
Record leaving (s s' : Threads) : Prop := {
  lv_steps : rtc any_step s s';
  lv_up : up s' = up s;
  lv_free t m : ¬ holds s t m → ¬ holds s' t m;
}.

Lemma leaving_refl s : leaving s s.
Proof. by split. Qed.

Lemma leaving_trans s1 s2 s3 : leaving s1 s2 → leaving s2 s3 → leaving s1 s3.
Proof. intros [] []. split; [by etrans|congruence|auto]. Qed.

Lemma leaving_base s s' : leaving s s' → base s → base s'.
Proof. intros []. by apply steps_base. Qed.

Lemma drain_leaving t s : base s → (∃ m, holds s t m) → (∀ u, u ≠ t → ¬ holds s u NetMtx) →
  ∃ s', leaving s s' ∧ ∀ m, ¬ holds s' t m.
Proof.
  intros Hb (m & k & E & _) Hnet. destruct (drain t s k Hb E Hnet) as (s' & Ha & Hd).
  exists s'. split; [|done]. split; [apply Ha|apply Ha|].
  intros u x Hu. destruct (decide (u = t)) as [->|Hne]; [apply Hd|]. by rewrite (alone_holds t s).
Qed.

(** Everybody in [l] leaves the blocks with [m], if who is in one can be made to. *)
Lemma leave_all m (l : list Thread) s : base s →
  (∀ s' t, leaving s s' → base s' → holds s' t m → ∀ u, u ≠ t → ¬ holds s' u NetMtx) →
  ∃ s', leaving s s' ∧ ∀ t, t ∈ l → ¬ holds s' t m.
Proof.
  intros Hb Hok. induction l as [|t l (s1 & H1 & Hl)].
  { exists s. split; [apply leaving_refl|]. intros t Ht. by apply not_elem_of_nil in Ht. }
  pose proof (leaving_base _ _ H1 Hb) as Hb1. destruct (decide (holds s1 t m)) as [Ht|Ht].
  2:{ exists s1. split; [done|]. intros u [->|Hu]%elem_of_cons; [done|by apply Hl]. }
  destruct (drain_leaving t s1 Hb1) as (s2 & H2 & Hd); [by exists m|by apply (Hok s1 t)|].
  exists s2. split; [by eapply leaving_trans|].
  intros u [->|Hu]%elem_of_cons; [apply Hd|]. by apply (lv_free _ _ H2), Hl.
Qed.

(** First those who hold the links, then the others. *)
Lemma all_leave s : base s → ∃ s', leaving s s' ∧ ∀ t m, ¬ holds s' t m.
Proof.
  intros Hb. destruct (leave_all NetMtx threads s Hb) as (s1 & H1 & Hn).
  { intros s' t _ Hb' Ht u Hu Hh. by apply Hu, (ba_exclusive s' Hb' NetMtx). }
  pose proof (leaving_base _ _ H1 Hb) as Hb1. destruct (leave_all AppMtx threads s1 Hb1) as (s2 & H2 & Hap).
  { intros s' t Hs' _ _ u _. apply (lv_free _ _ Hs'), Hn, elem_of_threads. }
  exists s2. split; [by eapply leaving_trans|].
  intros t []; [apply Hap, elem_of_threads|apply (lv_free _ _ H2), Hn, elem_of_threads].
Qed.

(** ** The end of the main thread *)

Section stopping.
Context (Q : Abs → Prop) (HQ : stays Q).

(** The main thread can stop: nobody else is in a block, and Ctrl+C was pressed. *)
Record calm (s : Threads) : Prop := {
  ca_base : base s;
  ca_up : up s AppRunning = false;
  ca_free t m : t ≠ Main → ¬ holds s t m;
}.

Lemma calm_main s s' : thread_step Main s s' → calm s → calm s'.
Proof.
  intros Hst [Hb Hu Hf]. split; [by eapply step_base| |].
  - destruct Hst; try done. cbn. destruct (decide (f = AppRunning)) as [->|Hne];
      [by rewrite fn_lookup_insert|by rewrite fn_lookup_insert_ne].
  - assert (∀ k k', stack s Main = Some k → ∀ t m, t ≠ Main → ¬ holds (set_stack s Main k') t m) as Hset.
    { intros k k' _ t m Ht. rewrite holds_set_ne by done. by apply Hf. }
    destruct Hst; try by eapply Hset.
    intros t m Ht. destruct (decide (u = t)) as [->|Hne].
    + rewrite (holds_held _ _ [Run (thread_code t)]) by apply stack_set. apply not_elem_of_nil.
    + rewrite holds_set_ne by done. by eapply Hset.
Qed.

Lemma steps_main s s' : rtc any_step s s' → base s → main_to Q s → main_to Q s'.
Proof. induction 1 as [|s1 s2 s3 [t Hst] _ IH]; [done|]. intros Hb Hm. apply IH; [by eapply step_base|by eapply step_main]. Qed.

(** A thread that is waited for ends. *)
Lemma calm_finish s u k : calm s → stack s Main = Some (Run (Join u) :: k) → u ≠ Main → stack s u ≠ None →
  up s (flag_of u) = false → let_go (abs s) u → ∃ s', alone u s s' ∧ ended s' u ∧ calm s'.
Proof.
  intros Hc E Hu Hs Hd Hl. pose proof (ca_base s Hc) as Hb. destruct (stack s u) as [ku|] eqn:Eu; [|done].
  destruct (finish u s ku Hu Hb Eu Hd Hl) as (s1 & Ha & He).
  - intros v m Hv Hh. destruct (decide (v = Main)) as [->|Hvm]; [|by eapply ca_free].
    apply (holds_held _ _ _ _ E) in Hh. pose proof (ba_ordered s Hb _ _ E) as Ho. cbn in Ho, Hh.
    apply andb_true_iff in Ho as [Ho%bool_decide_eq_true _]. rewrite Ho in Hh. by apply not_elem_of_nil in Hh.
  - exists s1. split_and!; [done..|]. split; [eapply steps_base; [apply Ha|done]|rewrite (al_up _ _ _ Ha); apply Hc|].
    intros t m Ht. destruct (decide (t = u)) as [->|Hne].
    + rewrite (holds_held _ _ _ _ He). apply not_elem_of_nil.
    + rewrite (alone_holds u s) by done. by apply Hc.
Qed.

Lemma main_step s f k : calm s → stack s Main = Some (f :: k) → wps (f :: k) Q (abs s) →
  ∃ s' k', rtc any_step s s' ∧ calm s' ∧ stack s' Main = Some k' ∧ main_to Q s' ∧ (costs k' < costs (f :: k))%nat.
Proof.
  intros Hc E H. pose proof (ca_base s Hc) as Hb.
  assert (main_to Q s) as Hm by by exists (f :: k).
  assert (∀ s' k', thread_step Main s s' → stack s' Main = Some k' → (costs k' < costs (f :: k))%nat →
    ∃ s' k', rtc any_step s s' ∧ calm s' ∧ stack s' Main = Some k' ∧ main_to Q s' ∧ (costs k' < costs (f :: k))%nat) as Hgo.
  { intros s' k' Hst E' Hk. exists s', k'. split_and!; try done; [by apply rtc_once; exists Main|by eapply calm_main|].
    by eapply step_main. }
  destruct f as [c|m]; [|eapply Hgo; [by eapply step_unlock|apply stack_set|cbn; lia]].
  destruct c as [|x|c d|c d|c|m c|f c|f c|c d| |f|u|u]; cbn in H; try done.
  - eapply Hgo; [by apply step_skip|apply stack_set|cbn; lia].
  - eapply Hgo; [by eapply step_use|apply stack_set|cbn; lia].
  - eapply Hgo; [by apply step_seq|apply stack_set|cbn; lia].
  - eapply Hgo; [apply step_lock; [done|]|apply stack_set|cbn; lia].
    intros t Ht. destruct (decide (t = Main)) as [->|Hne]; [|by eapply ca_free].
    apply (holds_held _ _ _ _ E) in Ht. pose proof (ba_ordered s Hb _ _ E) as Ho. cbn in Ho, Ht.
    apply andb_true_iff in Ho as [[Hl _]%andb_true_iff _]. by eapply below_not.
  - destruct H as (-> & -> & _). eapply Hgo; [by eapply step_while_end, ca_up|apply stack_set|cbn; lia].
  - eapply Hgo; [by apply step_close|apply stack_set|cbn; lia].
  - eapply Hgo; [by apply step_clear|apply stack_set|cbn; lia].
  - destruct H as (Hu & Hs & _). eapply (Hgo _ k); [apply step_spawn; [done|]| |cbn; lia].
    + cbn in Hs. destruct (stack s u); [by destruct Hs|done].
    + rewrite stack_set_ne by done. apply stack_set.
  - destruct H as (Hu & Hs & Hd & Hl & _). cbn in Hs, Hd.
    destruct (calm_finish s u k Hc E Hu Hs Hd Hl) as (s1 & Ha & He & Hc1).
    assert (stack s1 Main = Some (Run (Join u) :: k)) as E1 by (by rewrite (al_stack _ _ _ Ha)).
    assert (thread_step Main s1 (set_joined (set_stack s1 Main k) u)) as Hst by by apply step_join.
    exists (set_joined (set_stack s1 Main k) u), k. split_and!; [|by eapply calm_main|apply stack_set| |cbn; lia].
    + eapply rtc_r; [apply Ha|by exists Main].
    + eapply step_main; [done|apply Hc1|done|]. eapply steps_main; [apply Ha|done..].
Qed.

Lemma main_finish n s k : calm s → stack s Main = Some k → (costs k ≤ n)%nat → main_to Q s →
  ∃ s', rtc any_step s s' ∧ base s' ∧ ended s' Main ∧ main_to Q s'.
Proof.
  revert s k. induction n as [n IH] using lt_wf_ind. intros s k Hc E Hn Hm.
  destruct k as [|f k]; [exists s; split_and!; [done|apply Hc|done..]|].
  pose proof Hm as (k' & E' & H). rewrite E in E'. injection E' as <-.
  destruct (main_step s f k Hc E H) as (s1 & k1 & Hs & Hc1 & E1 & Hm1 & Hk).
  destruct (IH (costs k1) ltac:(lia) s1 k1 Hc1 E1 (le_n _) Hm1) as (s2 & Hs2 & ? & ? & ?).
  exists s2. split_and!; [by etrans|done..].
Qed.
End stopping.

Lemma ended_main p r s : inv p r s → ended s Main → main_end p r (abs s).
Proof. intros [_ (k & E & H)] He. unfold ended in He. rewrite E in He. by injection He as ->. Qed.

(** *** The theorems *)

(** C18: what the mutexes of a node promise. In every state that the five threads of a node
    reach, a mutex has at most one holder; nobody waits for a mutex that it holds itself,
    and who waits for the mutex of the node does not hold the one of the links; the state
    of the node and the links are used only by who holds their mutex; and no two threads
    are at accesses of the state of the node, of the links, or of the listening socket of
    the links at once. The listening socket of the RPC server has no such protection: its
    thread and the main thread may be at it at once, the latter only in
    [RpcServer::stop], when it has taken down the flag of the server. *)
Theorem lock_discipline p r s : reached p r s →
  (∀ m t u, holds s t m → holds s u m → t = u) ∧
  (∀ m t, waits s t m → ¬ holds s t m ∧ (m = AppMtx → ¬ holds s t NetMtx)) ∧
  (∀ x m t, at_use s t x → guard_of x = Some m → holds s t m) ∧
  (∀ x t u, x ≠ RpcListener → at_use s t x → at_use s u x → t = u) ∧
  (∀ t, at_use s t RpcListener → t = RpcThread ∨ t = Main ∧ up s RpcRunning = false).
Proof.
  intros Hr. pose proof (reached_inv p r s Hr) as [Hb (km & Em & Hm)].
  assert (∀ x m t, at_use s t x → guard_of x = Some m → holds s t m) as Hg.
  { intros x m t (k & E) Hx. pose proof (ba_ordered s Hb t _ E) as Ho. cbn in Ho. rewrite Hx in Ho.
    apply andb_true_iff in Ho as [Ho%bool_decide_eq_true _]. by apply (holds_held s t _ m E). }
  assert (∀ t, at_use s t NetListener → t = NetThread ∨ t = Main ∧ ended s NetThread) as Hl.
  { intros t (k & E). destruct (decide (t = Main)) as [->|Hne].
    - right. split; [done|]. rewrite E in Em. injection Em as <-. cbn in Hm.
      by apply (ba_joined s Hb NetThread), Hm.
    - left. pose proof (ba_worker s Hb t _ Hne E) as Hw. cbn in Hw. apply andb_true_iff in Hw as [Hw _].
      by apply bool_decide_eq_true in Hw. }
  split_and!; [by apply Hb| |done| |].
  - intros m t (c & k & E). pose proof (ba_ordered s Hb t _ E) as Ho. cbn in Ho.
    apply andb_true_iff in Ho as [[Hbl _]%andb_true_iff _]. rewrite !(holds_held _ _ _ _ E). cbn.
    split; [by apply below_not|]. intros -> Hn%list_elem_of_In. eapply forallb_forall in Hbl; [|exact Hn]. done.
  - intros x t u Hx Ht Hu. destruct (guard_of x) as [m|] eqn:Em'; [by eapply (ba_exclusive s Hb m); eapply Hg|].
    destruct x; try done. pose proof Ht as (kt & Et). pose proof Hu as (ku & Eu).
    apply Hl in Ht as [->|[-> He]], Hu as [->|[-> He']]; try done; unfold ended in *; congruence.
  - intros t (k & E). destruct (decide (t = Main)) as [->|Hne].
    + right. split; [done|]. rewrite E in Em. injection Em as <-. cbn in Hm. by apply Hm.
    + left. pose proof (ba_worker s Hb t _ Hne E) as Hw. cbn in Hw. apply andb_true_iff in Hw as [Hw _].
      by apply bool_decide_eq_true in Hw.
Qed.

(** C17: a node can always be stopped. When both servers can listen, from every state that
    its threads reach, Ctrl+C can be followed to the end of all of them, with every thread
    joined, by steps of the threads alone: no connection has to come for [accept], and the
    miner does not have to find a nonce or see the tip move. So no state is a deadlock, and
    [node_run] never returns before. Without the port of the RPC server [node_run] returns
    while the thread of the links can still be joined, and the process ends by
    [std::terminate] instead of with exit code 1. *)
Theorem node_ends p r s : reached p r s →
  (p = true → r = true →
     (∃ s', rtc any_step (ctrl_handler s) s' ∧ (∀ t, ended s' t) ∧ ∀ t, t ≠ Main → joined s' t = true) ∧
     ¬ terminated s) ∧
  (p = true → r = false → ended s Main → terminated s) ∧
  (p = false → ¬ terminated s).
Proof.
  intros Hr. pose proof (reached_inv p r s Hr) as Hi. split_and!.
  - intros -> ->. split.
    + pose proof (ctrl_inv true true s Hi) as [Hb Hm].
      destruct (all_leave _ Hb) as (s1 & Hlv & Hf).
      pose proof (steps_main _ (main_end_stays true true) _ _ (lv_steps _ _ Hlv) Hb Hm) as Hm1.
      assert (calm s1) as Hc.
      { split; [by eapply leaving_base|by rewrite (lv_up _ _ Hlv)|auto]. }
      pose proof Hm1 as (k & E & _).
      destruct (main_finish _ (main_end_stays true true) _ s1 k Hc E (le_n _) Hm1) as (s2 & Hs & Hb2 & He & Hm2).
      pose proof (ended_main true true s2 (conj Hb2 Hm2) He) as Hend. cbn in Hend.
      exists s2. split_and!; [by etrans; [apply Hlv|]| |intros t Ht; by apply Hend].
      intros t. destruct (decide (t = Main)) as [->|Hne]; [done|]. by apply (ba_joined s2 Hb2), Hend.
    + intros [He (t & Ht & _ & Hj)]. pose proof (ended_main true true s Hi He t Ht) as [_ Hj']. cbn in Hj'. congruence.
  - intros -> -> He. split; [done|]. pose proof (ended_main true false s Hi He) as [Hs Hj]. cbn in Hs, Hj.
    exists NetThread. split_and!; [done..|by destruct (joined s NetThread)].
  - intros -> [He (t & Ht & Hs & _)]. by apply (ended_main false r s Hi He t Ht).
Qed.
