(* ===== verification/Converge.v ===== *)
(** * Converge: two linked nodes come to the same chain

    Two nodes and the bytes on the link between them: what one has queued is received,
    parsed and handled by the other. A node that hears of more work asks for blocks until
    it has the chain of its peer, whether its own chain is a part of it or another
    branch. *)

From S2P Require Import Prelude Hex Text Json Serial Sha256 Hash Crypto Merkle Tx Ledger Store Chain Consensus Recovery Mempool Miner Net Loop Http Node Safety Sync Verify Rpc RpcSpec Running.

Local Open Scope Z_scope.

(** ** Carrying bytes *)

(** A socket that takes all bytes, and one that has [data]. *)
Definition takes_all (n : nat) (id : Z) : LinkIO := mkLinkIO false None None (Some (SentBytes n)).
Definition delivers (data : bytes) (id : Z) : LinkIO :=
  mkLinkIO false None
    (Some (if bool_decide (data = []) then [RecvWouldBlock] else [RecvData data; RecvWouldBlock])) None.

Definition queued (n : P2P) (id : Z) : bytes := match peers n !! id with Some p => outbuf p | None => [] end.

Section carry.
Context `{HF : HashFn} `{CN : Cng} {D : Type} `{DB : Sqlite D}.
Implicit Types a b : App D.

(** What [x] has queued for its link [ix] arrives at link [iy] of [y], which handles it. *)
Definition carry (clock : nat → Z) (ms : Z) (x : App D) (ix : Z) (y : App D) (iy : Z) : App D * App D :=
  let data := queued (p2p x) ix in
  let x := set_p2p x (links_loop (takes_all (length data)) (p2p x, []) ix).1 in
  let '(n, evs) := links_loop (delivers data) (p2p y, []) iy in
  (x, foldl (λ y e, dispatch y e clock ms) (set_p2p y n) evs).

(** There and back. *)
Definition exchange (la lb : Z) (s : App D * App D) (t : (nat → Z) * Z) : App D * App D :=
  let '(a, b) := carry t.1 t.2 s.1 la s.2 lb in
  let '(b, a) := carry t.1 t.2 b lb a la in
  (a, b).

(** A link that said hello, with an empty buffer of received bytes and [out] to send. *)
Definition linked a (id : Z) (out : bytes) : Prop :=
  ∃ p, peers (p2p a) !! id = Some p ∧ ready p = true ∧ dead p = false ∧ connecting p = false ∧
    inbuf p = [] ∧ outbuf p = out.

(** The same after its bytes are sent. *)
Definition drained a (id : Z) : App D :=
  match peers (p2p a) !! id with
  | Some p => set_p2p a (set_peers (p2p a) (<[id := set_outbuf p []]> (peers (p2p a))))
  | None => a
  end.

Lemma set_links_same a ps : ps = peers (p2p a) → set_p2p a (set_peers (p2p a) ps) = a.
Proof. intros ->. destruct a as [? ? ? n]. by destruct n. Qed.

Lemma linked_drained a id out : linked a id out → linked (drained a id) id [].
Proof.
  intros (p & Hp & Hr & Hd & Hc & Hi & Ho). unfold drained, linked. rewrite Hp. cbn [p2p set_p2p peers set_peers].
  exists (set_outbuf p []). split; [apply lookup_insert_eq|done].
Qed.

Lemma drained_clean a id : linked a id [] → drained a id = a.
Proof.
  intros (p & Hp & _ & _ & _ & _ & Ho). unfold drained. rewrite Hp.
  assert (set_outbuf p [] = p) as -> by (destruct p; cbn in *; by subst).
  by apply set_links_same, insert_id.
Qed.

Lemma drained_tip a id out i : linked a id out → peer_tip (p2p (drained a id)) i = peer_tip (p2p a) i.
Proof.
  intros (p & Hp & _). unfold drained, peer_tip. rewrite Hp. cbn [p2p set_p2p peers set_peers].
  destruct (decide (i = id)) as [->|Hne]; [by rewrite lookup_insert_eq, Hp|by rewrite lookup_insert_ne].
Qed.

Lemma drained_same a id : chain (drained a id) = chain a ∧ a_params (drained a id) = a_params a ∧
  sync_peer (drained a id) = sync_peer a ∧ sync_mode (drained a id) = sync_mode a ∧
  sync_extend_got (drained a id) = sync_extend_got a ∧ cand (drained a id) = cand a ∧
  (app_inv a → app_inv (drained a id)).
Proof. unfold drained. destruct (peers (p2p a) !! id); split_and!; try done. apply app_inv_p2p. Qed.

Lemma send_link n id p : peers n !! id = Some p → dead p = false → connecting p = false →
  links_loop (takes_all (length (outbuf p))) (n, []) id = (set_peers n (<[id := set_outbuf p []]> (peers n)), []).
Proof.
  intros Hp Hd Hc. unfold links_loop. cbn [fst snd]. rewrite Hp. unfold link_step. rewrite Hd, Hc.
  cbn [takes_all io_recv io_sent]. unfold on_writable. rewrite Hd. cbn [negb andb].
  case_bool_decide as E; cbn [negb]; [|by rewrite drop_all].
  do 3 f_equal. destruct p; cbn in *. by subst.
Qed.

Lemma parse_loop_empty fuel n id p evs : inbuf p = [] → parse_loop fuel n id p evs = (p, evs).
Proof. intros Hi. destruct fuel; [done|]. cbn [parse_loop]. by rewrite Hi. Qed.

Lemma receive_link n id q msg q' evs : size msg.2 ≤ MAX_FRAME → peers n !! id = Some q → dead q = false →
  connecting q = false → inbuf q = [] → on_frame n id q msg.1 msg.2 = (q', evs) → inbuf q' = [] →
  links_loop (delivers (frame_of msg)) (n, []) id = (set_peers n (<[id := q']> (peers n)), evs).
Proof.
  intros Hs Hq Hd Hc Hi Hf Hi'. pose proof (length_frame_of msg Hs) as Hl.
  assert (q = set_inbuf q []) as Eq by (destruct q; cbn in *; by subst).
  unfold links_loop. cbn [fst snd]. rewrite Hq. unfold link_step. rewrite Hd, Hc.
  cbn [delivers io_recv io_sent]. rewrite bool_decide_eq_false_2 by (intros E; rewrite E in Hl; cbn in Hl; lia).
  rewrite Eq, on_readable_chunk; [|done|unfold size, MAX_FRAME, MAX_INBUF in *; rewrite app_nil_l; lia].
  rewrite app_nil_l, (parse_loop_head _ _ _ _ msg []) by (done || by rewrite app_nil_r).
  rewrite set_inbuf_twice, <- Eq, Hf. cbn [app]. destruct (dead q'); [done|]. by rewrite parse_loop_empty.
Qed.

(** One frame is carried. *)
Lemma carry_frame clock ms x ix y iy msg o : plain msg → linked x ix (frame_of msg) → linked y iy o →
  carry clock ms x ix y iy = (drained x ix, on_msg y iy msg.1 msg.2 clock ms).
Proof.
  intros Hm (p & Hp & _ & Hd & Hc & _ & Ho) (q & Hq & _ & Hqd & Hqc & Hqi & _). pose proof Hm as (_ & _ & _ & Hs).
  unfold carry, queued, drained.
  rewrite Hp, send_link, Ho by done.
  rewrite (receive_link _ _ q msg q [ev_of iy msg]) by (done || by apply on_frame_plain).
  rewrite (insert_id (peers (p2p y)) iy q) by done.
  cbn [fst foldl ev_of dispatch]. do 2 f_equal. destruct y as [? ? ? n]. by destruct n.
Qed.

(** Nothing is carried. *)
Lemma carry_nothing clock ms x ix y iy o : linked x ix [] → linked y iy o → carry clock ms x ix y iy = (x, y).
Proof.
  intros Hx (q & Hq & _ & Hqd & Hqc & Hqi & _). pose proof (drained_clean x ix Hx) as Ex.
  destruct Hx as (p & Hp & _ & Hd & Hc & _ & Ho). unfold carry, queued. unfold drained in Ex. rewrite Hp in *.
  rewrite send_link by done. cbn [fst]. rewrite Ex, Ho. unfold links_loop. cbn [fst snd]. rewrite Hq.
  unfold link_step. rewrite Hqd, Hqc. cbn [delivers io_recv io_sent]. rewrite bool_decide_eq_true_2 by done.
  assert (on_readable (p2p y) iy q [RecvWouldBlock] [] = (q, [])) as ->.
  { unfold on_readable, parse_frames. cbn [drain]. cbv zeta. rewrite Hqd. by apply parse_loop_empty. }
  cbn [foldl]. rewrite insert_id by done. f_equal. destruct y as [? ? ? n]. by destruct n.
Qed.

(** *** The tip of a peer *)

(** What a node knows after a TIP message. *)
Definition heard y (iy h w : Z) (hash : bytes) : App D :=
  match peers (p2p y) !! iy with
  | Some q => set_p2p y (set_peers (p2p y) (<[iy := set_tip q h w hash]> (peers (p2p y))))
  | None => y
  end.

Lemma linked_heard y iy h w hash o : linked y iy o → linked (heard y iy h w hash) iy o.
Proof.
  intros (q & Hq & Hr & Hd & Hc & Hi & Ho). unfold heard, linked. rewrite Hq. cbn [p2p set_p2p peers set_peers].
  eexists. split; [apply lookup_insert_eq|done].
Qed.

Lemma heard_tip y iy h w hash o : linked y iy o → peer_tip (p2p (heard y iy h w hash)) iy = Some (h, w, hash).
Proof.
  intros (q & Hq & Hr & _). unfold heard, peer_tip. rewrite Hq. cbn [p2p set_p2p peers set_peers].
  rewrite lookup_insert_eq. cbn. by rewrite Hr.
Qed.

Lemma on_tip_run q h w hash : in_width 64 h → in_width 64 w → wf_array 32 hash →
  on_tip q (w_arr (w_u64 (w_u64 [] h) w) hash) = (set_tip q h w hash, true).
Proof.
  intros Hh Hw Ha. rewrite !w_u64_app, app_nil_l. unfold w_arr, w_raw. rewrite <- app_assoc.
  set (data := le 8 h ++ le 8 w ++ hash).
  assert (wfr (reader_of data)) as Hr.
  { apply wfr_reader_of. unfold data. rewrite !wf_bytes_app. split_and!; try apply wf_le. apply Ha. }
  assert (view (reader_of data) = le 8 h ++ le 8 w ++ hash) as E by done. unfold on_tip.
  destruct (codec_next (dec := r_u64) _ _ _ Hr Hh E) as (r1 & -> & Hr1 & E1).
  destruct (codec_next (dec := r_u64) _ _ _ Hr1 Hw E1) as (r2 & -> & Hr2 & E2).
  rewrite <- (app_nil_r hash) in E2.
  by destruct (codec_next (dec := r_arr 32) _ _ _ Hr2 Ha E2) as (r3 & -> & _).
Qed.

(** The TIP of [x] is carried. *)
Lemma carry_tip clock ms x ix y iy o : app_inv x → in_width 64 (height (chain x)) → in_width 64 (work (chain x)) →
  wf_array 32 (app_tip_hash x) → linked x ix (frame_of (M_TIP, tip_payload x)) → linked y iy o →
  carry clock ms x ix y iy =
    (drained x ix, maybe_sync (heard y iy (height (chain x)) (work (chain x)) (app_tip_hash x)) iy ms).
Proof.
  intros Hx Hh Hw Hz (p & Hp & _ & Hd & Hc & _ & Ho) (q & Hq & _ & Hqd & Hqc & Hqi & _).
  unfold carry, queued, drained, heard. rewrite Hp, Hq, send_link, Ho by done.
  rewrite (receive_link _ _ q (M_TIP, tip_payload x)
             (set_tip q (height (chain x)) (work (chain x)) (app_tip_hash x)) [EvMsg iy M_TIP (tip_payload x)]); try done.
  - unfold size, tip_payload. cbn [snd]. rewrite !w_u64_app. unfold w_arr, w_raw. rewrite !length_app, !length_le.
    rewrite (wf_array_length 32 _ Hz). cbn. unfold MAX_FRAME. lia.
  - cbn [fst snd]. unfold on_frame, tip_payload. cbn [Z.eqb M_TIP M_HELLO Pos.eqb]. by rewrite on_tip_run.
Qed.
(** What [send_to] queues on a clean link. *)
Lemma linked_send a id type payload : linked a id [] →
  linked (set_p2p a (send_to (p2p a) id type payload)) id (frame_of (type, payload)).
Proof.
  intros (p & Hp & Hr & Hd & Hc & Hi & Ho). unfold send_to. rewrite Hp, Hd.
  exists (send_frame p type payload). cbn [p2p set_p2p peers set_peers].
  split; [apply lookup_insert_eq|]. split_and!; try done. unfold send_frame. cbn. by rewrite Ho.
Qed.

Lemma drained_send a id type payload : linked a id [] →
  drained (set_p2p a (send_to (p2p a) id type payload)) id = a.
Proof.
  intros (p & Hp & _ & Hd & _ & _ & Ho). unfold drained, send_to. rewrite Hp, Hd.
  cbn [p2p set_p2p peers set_peers]. rewrite lookup_insert_eq. cbn [p2p set_p2p peers set_peers].
  rewrite insert_insert_eq.
  assert (set_outbuf (send_frame p type payload) [] = p) as -> by (destruct p; cbn in *; by subst).
  etrans; [|by apply (set_links_same a (<[id := p]> (peers (p2p a)))), insert_id]. done.
Qed.

(** A request for blocks comes back as blocks; the peer is as before. *)
Lemma exchange_blocks a b la lb clock ms start : linked a la (frame_of (M_GET_BLOCKS, get_blocks_payload start)) →
  linked b lb [] → in_width 64 start → app_inv b →
  let reply := blocks_payload (map block_serialize (take 200 (drop (Z.to_nat start) (blocks (chain b))))) in
  size reply ≤ MAX_FRAME →
  exchange la lb (a, b) (clock, ms) = (on_msg (drained a la) la M_BLOCKS reply clock ms, b).
Proof.
  intros Ha Hb Hs Hib reply Hr.
  assert (plain (M_GET_BLOCKS, get_blocks_payload start)) as Hp1.
  { split_and!; try done. cbn [snd]. unfold get_blocks_payload. rewrite w_u32_app, w_u64_app.
    apply wf_bytes_app. split; [apply wf_bytes_app; split; [constructor|]|]; apply wf_le. }
  assert (plain (M_BLOCKS, reply)) as Hp2.
  { pose proof (valid_wire _ _ (ci_wf _ (ai_chain b Hib)) (ci_valid _ (ai_chain b Hib))) as Hz.
    split_and!; try done. apply wf_blocks_payload; [by apply Forall_take, Forall_drop|].
    unfold size. rewrite length_take. lia. }
  unfold exchange. cbn [fst snd]. rewrite (carry_frame _ _ _ _ _ _ _ _ Hp1 Ha Hb). cbn [fst snd].
  assert (on_msg b lb M_GET_BLOCKS (get_blocks_payload start) clock ms = set_p2p b (send_to (p2p b) lb M_BLOCKS reply)) as ->.
  { unfold on_msg. cbn [Z.eqb M_GET_BLOCKS M_TIP Pos.eqb]. unfold on_get_blocks.
    destruct (get_blocks_fields_run start Hs) as [r ->]. done. }
  pose proof (linked_send b lb M_BLOCKS reply Hb) as Hb1.
  rewrite (carry_frame _ _ _ _ _ _ _ _ Hp2 Hb1 (linked_drained _ _ _ Ha)). f_equal.
  by apply drained_send.
Qed.
End carry.

(** ** The exchanges *)

Section sync.
Context `{HF : HashFn} `{CN : Cng} {D : Type} `{DB : Sqlite D}.
Context (b : App D) (la lb : Z).
Implicit Types a : App D.

Definition bs : list Block := blocks (chain b).
Definition reply (n : nat) : bytes := blocks_payload (map block_serialize (take 200 (drop n bs))).

(** The peer does not change; its answers fit frames, its blocks lie before the clock. *)
Record peer_ok : Prop := {
  po_inv : app_inv b;
  po_link : linked b lb [];
  po_work : chain_work (a_params b) bs < 2 ^ 64;
  po_size : size bs ≤ 500000;
  po_reply : ∀ n, size (reply n) ≤ MAX_FRAME;
  po_heights : ∀ i x, bs !! i = Some x → h_height (b_h x) = Z.of_nat i;
}.

Definition late (t : (nat → Z) * Z) : Prop :=
  ∀ x i, x ∈ bs → h_time (b_h x) ≤ u64 (t.1 i + MAX_TIME_SKEW_S).

(** Node [a] waits for the blocks from [n] on. *)
Record waiting a (mode : Z) (n : nat) : Prop := {
  wt_inv : app_inv a;
  wt_params : a_params a = a_params b;
  wt_peer : sync_peer a = la;
  wt_mode : sync_mode a = mode;
  wt_link : linked a la (frame_of (M_GET_BLOCKS, get_blocks_payload (Z.of_nat n)));
  wt_tip : peer_tip (p2p a) la = Some (height (chain b), work (chain b), app_tip_hash b);
  wt_work : work (chain a) < work (chain b);
}.

(** The goal: the peer's chain, and nothing to wait for. *)
Definition converged a : Prop := app_inv a ∧ blocks (chain a) = bs ∧ sync_peer a = -1 ∧ sync_mode a = 0.

Context (Hb : peer_ok) (Hla : la ≠ -1).

Lemma bs_valid : chain_valid (a_params b) bs ∧ Forall wf_block bs ∧ Forall wire_block bs ∧ bs ≠ [].
Proof.
  destruct Hb as [Hi _ _ _ _ _]. pose proof (ai_chain b Hi) as Hc. rewrite <- (ai_same b Hi).
  split_and!; [apply Hc|apply Hc| |apply Hi]. eapply valid_wire; [apply Hc|by apply Hc].
Qed.

Lemma bs_height : height (chain b) = size bs - 1.
Proof.
  destruct bs_valid as (_ & _ & _ & Hne). unfold height, tip. fold bs.
  destruct (snoc_inv bs Hne) as (pre & x & E). rewrite E, last_snoc.
  rewrite (po_heights Hb (length pre)) by (rewrite E; by apply list_lookup_middle).
  unfold size. rewrite length_app. cbn. lia.
Qed.

Lemma bs_work : work (chain b) = chain_work (a_params b) bs.
Proof.
  pose proof (po_inv Hb) as Hi. rewrite (ci_work _ (ai_chain b Hi)), (ai_same b Hi).
  rewrite wrap_small; [done|]. pose proof (po_work Hb). destruct (ai_params b Hi) as (_ & [? _] & _).
  split; [by apply chain_work_nonneg|done].
Qed.

Lemma chain_work_take n : chain_work (a_params b) (take n bs) ≤ chain_work (a_params b) bs.
Proof.
  destruct (ai_params b (po_inv Hb)) as (_ & [Hbits _] & _). pose proof (work_of_range _ Hbits).
  unfold chain_work. rewrite length_take.
  destruct (length bs) as [|k]; [by rewrite Nat.min_0_r|].
  destruct (Nat.min n (S k)) as [|j] eqn:E; [lia|]. assert (j ≤ k)%nat by lia. nia.
Qed.

Lemma chain_work_take_lt n : (0 < n < length bs)%nat → chain_work (a_params b) (take n bs) < chain_work (a_params b) bs.
Proof.
  intros Hn. destruct (ai_params b (po_inv Hb)) as (_ & [Hbits _] & _). pose proof (work_of_range _ Hbits).
  unfold chain_work. rewrite length_take.
  destruct (length bs) as [|k]; [lia|]. destruct (Nat.min n (S k)) as [|j] eqn:E; [lia|].
  assert (j < k)%nat by lia. nia.
Qed.

Lemma next_wire n : Forall wire_block (take 200 (drop n bs)) ∧ Forall wf_block (take 200 (drop n bs)) ∧
  size (take 200 (drop n bs)) ≤ 500.
Proof.
  destruct bs_valid as (_ & Hw & Hz & _). split_and!; [by apply Forall_take, Forall_drop..|].
  unfold size. rewrite length_take. lia.
Qed.

(** What an exchange comes to. *)
Lemma waiting_exchange a mode n t : waiting a mode n → (n < length bs)%nat →
  exchange la lb (a, b) t =
    (handle_blocks (drained a la) la (take 200 (drop n bs)) t.1 t.2, b).
Proof.
  intros [Ha _ _ _ Hl _ _] Hn. pose proof (po_size Hb) as Hs. unfold size in Hs. destruct t as [clock ms].
  rewrite (exchange_blocks a b la lb clock ms (Z.of_nat n) Hl).
  - rewrite Nat2Z.id. fold bs. fold (reply n). f_equal. unfold on_msg.
    cbn [Z.eqb M_BLOCKS M_GET_BLOCKS M_TIP Pos.eqb]. unfold on_blocks.
    destruct (next_wire n) as (Hz & _ & H500). unfold reply.
    by destruct (blocks_body_payload _ Hz H500) as [r ->].
  - apply Hb.
  - unfold in_width. lia.
  - apply Hb.
  - rewrite Nat2Z.id. apply Hb.
Qed.

Lemma next_nonempty n : (n < length bs)%nat → take 200 (drop n bs) ≠ [].
Proof.
  intros Hn E. apply (f_equal length) in E. rewrite length_take, length_drop in E. cbn [length] in E. lia.
Qed.

Lemma take_next n : take n bs ++ take 200 (drop n bs) = take (n + 200) bs.
Proof. by rewrite take_take_drop. Qed.

(** The state that a handler starts from. *)
Lemma waiting_drained a mode n ms : waiting a mode n →
  let a0 := set_sync_last_ms (drained a la) ms in
  app_inv a0 ∧ chain a0 = chain a ∧ a_params a0 = a_params b ∧ sync_peer a0 = la ∧ sync_mode a0 = mode ∧
  cand a0 = cand a ∧ sync_extend_got a0 = sync_extend_got a ∧ linked a0 la [] ∧
  peer_tip (p2p a0) la = Some (height (chain b), work (chain b), app_tip_hash b).
Proof.
  intros [Ha Hp Hs Hm Hl Ht _] a0. destruct (drained_same a la) as (E1 & E2 & E3 & E4 & E5 & E6 & E7).
  split_and!; [apply app_inv_last_ms; auto|done|by rewrite <- Hp|by rewrite <- Hs|by rewrite <- Hm|done|done| |].
  - exact (linked_drained _ _ _ Hl).
  - rewrite <- Ht. exact (drained_tip _ _ _ _ Hl).
Qed.

(** A request that a handler sends. *)
Lemma waiting_request a mode n ms : app_inv a → a_params a = a_params b → sync_peer a = la → sync_mode a = mode →
  linked a la [] → peer_tip (p2p a) la = Some (height (chain b), work (chain b), app_tip_hash b) →
  work (chain a) < work (chain b) → waiting (request_blocks a la (Z.of_nat n) ms) mode n.
Proof.
  intros Ha Hp Hs Hm Hl Ht Hw. split; try done.
  - by apply app_inv_request.
  - apply (linked_send a la M_GET_BLOCKS _ Hl).
  - rewrite <- Ht. unfold peer_tip, request_blocks, send_to. cbn [p2p set_sync_last_ms set_p2p].
    destruct Hl as (p & Hq & Hr & Hd & _). rewrite Hq, Hd. cbn [peers set_peers]. by rewrite lookup_insert_eq.
Qed.

(** *** From the tip on *)

Lemma next_times n t pre : late t → times_ok pre (take 200 (drop n bs)) t.1 0.
Proof.
  intros Ht j x Hx _. apply Ht. apply lookup_take_Some in Hx as [Hx _]. rewrite lookup_drop in Hx.
  by eapply list_elem_of_lookup_2.
Qed.

(** A chain that is a part of the peer's. *)
Lemma part_height (c : Chain D) n : blocks c = take n bs → (0 < n ≤ length bs)%nat →
  u64 (height c + 1) = Z.of_nat n.
Proof.
  intros E Hn. unfold height, tip. rewrite E. pose proof (po_size Hb) as Hs. unfold size in Hs.
  destruct (lookup_lt_is_Some_2 bs (pred n)) as [x Hx]; [lia|].
  replace n with (S (pred n)) by lia. rewrite (take_S_r _ _ _ Hx), last_snoc, (po_heights Hb _ _ Hx).
  rewrite wrap_small by (unfold in_width; lia). lia.
Qed.

Lemma part_work (c : Chain D) n : chain_inv c → params c = a_params b → blocks c = take n bs →
  work c = chain_work (a_params b) (take n bs).
Proof.
  intros Hc Hp E. rewrite (ci_work c Hc), Hp, E. apply wrap_small. pose proof (chain_work_take n).
  pose proof (po_work Hb). destruct (ai_params b (po_inv Hb)) as (_ & [? _] & _).
  split; [by apply chain_work_nonneg|lia].
Qed.

(** Mode 1 when all blocks connect. *)
Lemma extend_step_run a v clock ms c' : v ≠ [] → extend_loop (chain a) v clock 0 = (c', length v, "") →
  extend_step a la v clock ms =
    let a1 := set_sync (post_chain_change (set_chain a c')) (sync_peer a) (sync_mode a)
                (u64 (sync_extend_got a + Z.of_nat (length v))) (cand a) in
    if match peer_tip (p2p a) la with Some (_, pw, _) => pw <=? work c' | None => false end
    then reset_sync (announce_tip a1 (-1))
    else request_blocks a1 la (u64 (height c' + 1)) ms.
Proof.
  intros Hv E. unfold extend_step. rewrite E. cbv zeta.
  assert ((0 <? length v)%nat = true) as -> by (destruct v; done).
  rewrite !bool_decide_eq_true_2 by done. rewrite bool_decide_eq_false_2 by done. cbn [negb andb].
  destruct (peer_tip (p2p a) la) as [[[ph pw] phash]|]; done.
Qed.

Definition after a' n mode : Prop :=
  if decide (n + 200 < length bs)%nat then waiting a' mode (n + 200) else converged a'.

Lemma extend_exchange a n t : waiting a 1 n → blocks (chain a) = take n bs → (0 < n < length bs)%nat → late t →
  ∃ a', exchange la lb (a, b) t = (a', b) ∧ after a' n 1 ∧ blocks (chain a') = take (n + 200) bs.
Proof.
  intros Hwt Hbl Hn Ht. rewrite (waiting_exchange a 1 n t Hwt) by lia. eexists. split; [done|].
  destruct (waiting_drained a 1 n t.2 Hwt) as (Hi & Ec & Ep & Es & Em & _ & _ & Hl & Htip).
  unfold handle_blocks. change (sync_peer (drained a la)) with (sync_peer (set_sync_last_ms (drained a la) t.2)).
  rewrite Es, Z.eqb_refl. cbn [negb]. cbv zeta. rewrite Em. cbn [Z.eqb Pos.eqb].
  set (a0 := set_sync_last_ms (drained a la) t.2) in *. set (v := take 200 (drop n bs)).
  destruct (next_wire n) as (_ & Hwv & _). destruct bs_valid as (Hv & _).
  assert (v ≠ []) as Hne by (apply next_nonempty; lia).
  assert (params (chain a0) = a_params b) as Epc by by rewrite (ai_same _ Hi).
  destruct (extend_loop_run (chain a0) v t.1 0 (ai_chain _ Hi) Hwv) as (c' & E & Eb).
  { rewrite Epc, Ec, Hbl. unfold v. rewrite take_next. apply (chain_valid_prefix _ _ (drop (n + 200) bs)).
    by rewrite take_drop. }
  { by apply next_times. }
  rewrite (extend_step_run a0 v t.1 t.2 c' Hne E), Htip. cbv zeta.
  rewrite Ec, Hbl in Eb. unfold v in Eb. rewrite take_next in Eb.
  destruct (extend_loop_steps _ _ _ _ _ _ _ (ai_chain _ Hi) Hwv E) as (Hsteps & _).
  destruct (handled_steps a0 c' Hi Hsteps) as [Hi1 _].
  assert (params c' = a_params b) as Ep' by (pose proof (ai_same _ Hi1) as Es1; cbn in Es1; by rewrite Es1).
  pose proof (part_work c' _ (ai_chain _ Hi1) Ep' Eb) as Ew.
  set (a1 := set_sync (post_chain_change (set_chain a0 c')) _ _ _ _).
  assert (app_inv a1) as Hi2.
  { apply app_inv_sync; [by apply app_inv_post|apply Hi|by apply wrap_in_width|].
    right; left. split_and!; [change (sync_peer a0 ≠ -1); by rewrite Es|exact Em|change (cand a0 = [])].
    destruct (ai_sync _ Hi) as [(?&_)|[(_&_&?)|(_&E2)]]; [congruence|done|congruence]. }
  unfold after. rewrite bs_work. destruct (decide (n + 200 < length bs)%nat) as [Hlt|Hge].
  - pose proof (chain_work_take_lt (n + 200) ltac:(lia)) as Hw.
    rewrite (proj2 (Z.leb_gt _ _)) by lia. split; [|done].
    rewrite (part_height c' (n + 200) Eb ltac:(lia)).
    apply waiting_request; try done. cbn. rewrite bs_work. lia.
  - rewrite take_ge in Ew, Eb |- * by lia. rewrite (proj2 (Z.leb_le _ _)) by lia. split; [|done].
    split_and!; [by apply app_inv_reset, app_inv_announce|done..].
Qed.

(** *** Another branch *)

(** The peer's next block does not fit a chain that is not a part of the peer's. *)
Lemma fork_refused (c : Chain D) n x now : chain_inv c → (0 < n)%nat → bs !! n = Some x →
  params c = a_params b → blocks c ≠ [] → block_hash <$> last (blocks c) ≠ block_hash <$> last (take n bs) →
  ∃ err, connect_block c x now = (c, err) ∧ err ≠ "".
Proof.
  intros Hc Hn Hx Ep Hne Hd. destruct bs_valid as (Hv & Hw & _).
  destruct (connect_block c x now) as [c' err] eqn:E. destruct (decide (err = "")) as [->|He].
  - exfalso. assert (wf_block x) as Hwx by by eapply Forall_lookup_1.
    apply connect_block_ok in E as (Hnext & _); [|done|done].
    destruct n as [|n]; [lia|]. destruct (chain_valid_extends _ _ _ _ Hv Hx) as (prev & Hprev & Hext).
    unfold next_ok in Hnext. destruct (snoc_inv _ Hne) as (pre & y & Ey). rewrite Ey, last_snoc in *.
    apply Hd. rewrite (take_S_r _ _ _ Hprev), last_snoc. cbn. f_equal.
    rewrite <- (ext_prev _ _ _ _ Hext), <- (ext_prev _ _ _ _ Hnext). done.
  - exists err. split; [|done]. by rewrite (connect_block_fail _ _ _ _ _ Hc E He).
Qed.

Lemma fork_exchange a n t : waiting a 1 n → sync_extend_got a = 0 → (0 < n < length bs)%nat →
  block_hash <$> last (blocks (chain a)) ≠ block_hash <$> last (take n bs) →
  ∃ a', exchange la lb (a, b) t = (a', b) ∧ waiting a' 2 0 ∧ cand a' = [].
Proof.
  intros Hwt Hg Hn Hd. rewrite (waiting_exchange a 1 n t Hwt) by lia. eexists. split; [done|].
  destruct (waiting_drained a 1 n t.2 Hwt) as (Hi & Ec & Ep & Es & Em & _ & Eg & Hl & Htip).
  unfold handle_blocks. change (sync_peer (drained a la)) with (sync_peer (set_sync_last_ms (drained a la) t.2)).
  rewrite Es, Z.eqb_refl. cbn [negb]. cbv zeta. rewrite Em. cbn [Z.eqb Pos.eqb].
  set (a0 := set_sync_last_ms (drained a la) t.2) in *. rewrite <- Ec in Hd. rewrite Hg in Eg.
  destruct (lookup_lt_is_Some_2 bs n) as [x Hx]; [lia|].
  assert (take 200 (drop n bs) = x :: take 199 (drop (S n) bs)) as ->.
  { by rewrite (drop_S _ _ _ Hx). }
  destruct (fork_refused (chain a0) n x (t.1 0%nat) (ai_chain _ Hi) ltac:(lia) Hx) as (err & E & He);
    [by rewrite (ai_same _ Hi)|apply Hi|done|].
  unfold extend_step. cbn [extend_loop]. rewrite E, bool_decide_eq_false_2 by done.
  cbn [negb]. cbv zeta. change (0 <? 0)%nat with false. cbv iota.
  rewrite (bool_decide_eq_false_2 _ He).
  rewrite (set_chain_same a0), Eg. cbn [negb andb Nat.eqb Z.eqb].
  split; [|done]. apply (waiting_request _ 2 0); try done.
  - apply app_inv_sync; [done|constructor|done|]. right; right. split; [change (sync_peer a0 ≠ -1); by rewrite Es|done].
  - change (chain (set_sync a0 (sync_peer a0) 2 0 [])) with (chain a0). rewrite Ec. apply Hwt.
Qed.

(** Mode 2 collects the peer's chain and adopts it. *)
Lemma collect_exchange a n t : waiting a 2 n → cand a = take n bs → (n < length bs)%nat → late t →
  ∃ a', exchange la lb (a, b) t = (a', b) ∧ after a' n 2 ∧
    ((n + 200 < length bs)%nat → cand a' = take (n + 200) bs).
Proof.
  intros Hwt Hca Hn Ht. rewrite (waiting_exchange a 2 n t Hwt) by lia. eexists. split; [done|].
  destruct (waiting_drained a 2 n t.2 Hwt) as (Hi & Ec & Ep & Es & Em & Ecand & _ & Hl & Htip).
  unfold handle_blocks. change (sync_peer (drained a la)) with (sync_peer (set_sync_last_ms (drained a la) t.2)).
  rewrite Es, Z.eqb_refl. cbn [negb]. cbv zeta. rewrite Em. cbn [Z.eqb Pos.eqb].
  set (a0 := set_sync_last_ms (drained a la) t.2) in *. pose proof (next_nonempty n Hn) as Hne.
  destruct bs_valid as (Hv & Hw & _ & Hnb). pose proof (po_size Hb) as Hs. pose proof (wt_work _ _ _ Hwt) as Hwork.
  unfold redownload_step. cbv zeta. rewrite Htip. cbn [cand set_sync chain].
  rewrite Ecand, Hca, take_next, (bool_decide_eq_false_2 _ Hne). cbn [orb].
  set (a1 := set_sync a0 _ _ _ _).
  assert (app_inv a1) as Hi1.
  { apply app_inv_sync; [done|by apply Forall_take|apply Hi|]. right; right.
    split; [change (sync_peer a0 ≠ -1); by rewrite Es|exact Em]. }
  assert (size (take (n + 200) bs) ≤ 500000) as Hsz.
  { unfold size in *. rewrite length_take. lia. }
  rewrite Z.gtb_ltb, (proj2 (Z.ltb_ge _ _)) by done.
  unfold after. rewrite bs_height. destruct (decide (n + 200 < length bs)%nat) as [Hlt|Hge].
  - destruct (lookup_lt_is_Some_2 bs (n + 199)) as [x Hx]; [lia|].
    replace (n + 200)%nat with (S (n + 199)) in * by lia.
    rewrite (take_S_r _ _ _ Hx), last_snoc, (po_heights Hb _ _ Hx).
    rewrite (proj2 (Z.leb_gt _ _)) by (unfold size; lia). cbn [negb]. rewrite <- (take_S_r _ _ _ Hx).
    assert (size (take (S (n + 199)) bs) = Z.of_nat (S (n + 199))) as ->.
    { unfold size. rewrite length_take. lia. }
    split; [|intros _; change (take (n + 200) bs = take (S (n + 199)) bs); f_equal; lia]. apply waiting_request; try done. change (chain a1) with (chain a0). by rewrite Ec.
  - rewrite take_ge in * by lia. destruct (snoc_inv bs Hnb) as (pre & x & E). rewrite E at 1. rewrite last_snoc.
    assert (h_height (b_h x) = size bs - 1) as ->.
    { rewrite (po_heights Hb (length pre)) by (rewrite E; by apply list_lookup_middle).
      rewrite E. unfold size. rewrite length_app. cbn. lia. }
    rewrite (proj2 (Z.leb_le _ _)) by lia. cbn [negb].
    destruct (try_replace (chain a0) bs t.1) as [[c' err] f] eqn:Er.
    assert (candidate_ok (chain a0) bs t.1) as Hok.
    { assert (params (chain a0) = a_params b) as Epc by by rewrite (ai_same _ Hi).
      split_and!; [done|by rewrite Epc| |].
      - intros j y Hy _. apply Ht. by eapply list_elem_of_lookup_2.
      - rewrite Epc, Ec, <- bs_work, bs_work, wrap_small by (split; [apply chain_work_nonneg, ai_params, Hb|apply Hb]).
        by rewrite <- bs_work. }
    assert (chain_step (chain a1) c' ∧ err = "") as [Hstep ->].
    { pose proof Er as Er2. apply try_replace_cases in Er2 as [(->&_)|(_&_&_&?)]; [|done|apply Hi|done].
      split; [|done]. by eapply step_replace. }
    assert (blocks c' = bs) as Eb by by apply try_replace_cases in Er as [(_&_&_&_&?&_)|(?&_)]; [|done|apply Hi|done].
    rewrite bool_decide_eq_true_2 by done. split; [|lia].
    destruct (handled_changed a1 c' (-1) Hi1 Hstep) as [Hi2 _].
    split_and!; [by apply app_inv_reset|done..].
Qed.

(** *** The rounds *)

(** Exchanges of 200 blocks each up to the end of the peer's chain. *)
Lemma rounds (P : App D → nat → Prop) k :
  (∀ a n t, P a n → (n < length bs)%nat → late t → ∃ a', exchange la lb (a, b) t = (a', b) ∧
     if decide (n + 200 < length bs)%nat then P a' (n + 200)%nat else converged a') →
  ∀ n, (n < length bs ≤ n + 200 * k)%nat →
    ∃ j, (j ≤ k)%nat ∧ ∀ a ts, P a n → length ts = j → Forall late ts →
      ∃ a', foldl (exchange la lb) (a, b) ts = (a', b) ∧ converged a'.
Proof.
  intros Hstep. induction k as [|k IH]; intros n Hn; [lia|].
  destruct (decide (n + 200 < length bs)%nat) as [Hlt|Hge].
  - destruct (IH (n + 200)%nat) as (j & Hj & IHj); [lia|]. exists (S j). split; [lia|].
    intros a [|t ts] Ha Hl Hts; [done|]. apply Forall_cons in Hts as [Ht Hts].
    destruct (Hstep a n t Ha ltac:(lia) Ht) as (a1 & E & H1). rewrite decide_True in H1 by done.
    cbn [foldl]. rewrite E. apply IHj; [done|by injection Hl|done].
  - exists 1%nat. split; [lia|]. intros a [|t [|]] Ha Hl Hts; try done. apply Forall_cons in Hts as [Ht _].
    destruct (Hstep a n t Ha ltac:(lia) Ht) as (a1 & E & H1). rewrite decide_False in H1 by done.
    cbn [foldl]. rewrite E. by exists a1.
Qed.

Lemma extend_rounds k n : (0 < n)%nat → (n < length bs ≤ n + 200 * k)%nat →
  ∃ j, (j ≤ k)%nat ∧ ∀ a ts, waiting a 1 n ∧ blocks (chain a) = take n bs → length ts = j → Forall late ts →
    ∃ a', foldl (exchange la lb) (a, b) ts = (a', b) ∧ converged a'.
Proof.
  intros H0 Hn. destruct (rounds (λ a n, (0 < n)%nat ∧ waiting a 1 n ∧ blocks (chain a) = take n bs) k)
    with n as (j & Hj & H); [|done|].
  - intros a m t (Hm & Ha & Eb) Hlt Ht. destruct (extend_exchange a m t Ha Eb ltac:(lia) Ht) as (a' & E & H1 & H2).
    exists a'. split; [done|]. unfold after in H1. case_decide; [|done]. split; [lia|done].
  - exists j. split; [done|]. intros a ts Ha. apply H. by split.
Qed.

Lemma collect_rounds k : (0 < length bs ≤ 200 * k)%nat →
  ∃ j, (j ≤ k)%nat ∧ ∀ a ts, waiting a 2 0 ∧ cand a = [] → length ts = j → Forall late ts →
    ∃ a', foldl (exchange la lb) (a, b) ts = (a', b) ∧ converged a'.
Proof.
  intros Hn. destruct (rounds (λ a n, waiting a 2 n ∧ cand a = take n bs) k) with 0%nat as (j & Hj & H); [|lia|].
  - intros a m t (Ha & Ec) Hlt Ht. destruct (collect_exchange a m t Ha Ec Hlt Ht) as (a' & E & H1 & H2).
    exists a'. split; [done|]. unfold after in H1. case_decide; [|done]. split; [done|by apply H2].
  - by exists j.
Qed.
End sync.

Section converge.
Context `{HF : HashFn} `{CN : Cng} {D : Type} `{DB : Sqlite D}.
Implicit Types a b : App D.

(** Heights are indices in a chain of admissible size. *)
Lemma heights_index K p bs : chain_pre p bs ⊆ K → wf_params p → Forall wf_block bs → chain_valid p bs → size bs ≤ 500000 →
  (∀ i x, bs !! i = Some x → h_height (b_h x) = Z.of_nat i) ∨ collision K.
Proof.
  intros HK Hp Hw Hv Hs. destruct (valid_heights K p bs HK Hp Hw Hv) as [Hh|?]; [left|by right].
  intros i x Hx. rewrite (Hh i x Hx). apply lookup_lt_Some in Hx. unfold size in Hs.
  apply wrap_small. unfold in_width. lia.
Qed.

Lemma next_start (c : Chain D) : (∀ i x, blocks c !! i = Some x → h_height (b_h x) = Z.of_nat i) →
  blocks c ≠ [] → size (blocks c) ≤ 500000 → u64 (height c + 1) = size (blocks c).
Proof.
  intros Hh Hne Hs. destruct (snoc_inv _ Hne) as (pre & x & E). unfold height, tip. rewrite E, last_snoc.
  rewrite (Hh (length pre)) by (rewrite E; by apply list_lookup_middle).
  assert (size (pre ++ [x]) = Z.of_nat (length pre) + 1) as El by (unfold size; rewrite length_app; cbn; lia).
  rewrite El. rewrite E, El in Hs. apply wrap_small. unfold in_width. lia.
Qed.

(** A chain of less work is shorter. *)
Lemma work_length p bs ks : wf_params p → chain_work p bs < chain_work p ks → (length bs < length ks)%nat.
Proof.
  intros (_ & [Hbits _] & _) Hlt. pose proof (work_of_range _ Hbits).
  destruct (decide (length bs < length ks)%nat) as [|Hge]; [done|]. exfalso. unfold chain_work in Hlt.
  destruct (length ks) as [|k], (length bs) as [|j]; try lia; nia.
Qed.

(** The first exchange: the peer says its tip, the node asks for blocks. *)
Lemma tip_exchange a b la lb clock ms : app_inv a → app_inv b → a_params a = a_params b →
  linked a la [] → linked b lb [] → sync_peer a = -1 → la ≠ -1 →
  work (chain a) < work (chain b) → u64 (height (chain a) + 1) = size (blocks (chain a)) →
  ∃ a', exchange la lb (a, on_ready b lb) (clock, ms) = (a', b) ∧ waiting b la a' 1 (length (blocks (chain a))) ∧
    blocks (chain a') = blocks (chain a) ∧ sync_extend_got a' = 0.
Proof.
  intros Ha Hb Ep Hla Hlb Hsp Hl Hw Hn. unfold exchange. cbn [fst snd].
  pose proof (linked_send b lb M_TIP (tip_payload b) Hlb) as Hlr. fold (on_ready b lb) in Hlr.
  rewrite (carry_nothing clock ms a la (on_ready b lb) lb _ Hla Hlr).
  assert (app_inv (on_ready b lb)) as Hbr by by apply app_inv_p2p.
  rewrite (carry_tip clock ms (on_ready b lb) lb a la []); [|done|apply (height_width _ (ai_chain b Hb))| |by apply wf_tip_hash|done|done].
  2:{ change (chain (on_ready b lb)) with (chain b). rewrite (ci_work _ (ai_chain b Hb)). by apply wrap_in_width. }
  assert (drained (on_ready b lb) lb = b) as -> by by apply drained_send.
  eexists. split; [done|].
  set (a1 := heard a la _ _ _).
  assert (peer_tip (p2p a1) la = Some (height (chain b), work (chain b), app_tip_hash b)) as Ht
    by (by eapply heard_tip).
  assert (linked a1 la []) as Hl1 by by apply linked_heard.
  assert (chain a1 = chain a ∧ sync_peer a1 = sync_peer a ∧ a_params a1 = a_params a ∧ app_inv a1) as (E1 & E2 & E3 & H1).
  { unfold a1, heard. destruct (peers (p2p a) !! la); split_and!; try done. by apply app_inv_p2p. }
  clearbody a1. unfold maybe_sync. rewrite E2, Hsp, Ht, E1. cbn [Z.eqb Pos.eqb negb]. rewrite (proj2 (Z.leb_gt _ _)) by done.
  cbv zeta. cbn [chain set_sync]. rewrite E1, Hn. split; [|split; [by rewrite <- E1|done]].
  unfold size. apply waiting_request; try done.
  - apply app_inv_sync; [done|constructor|done|]. right; left. by split_and!.
  - change (a_params a1 = a_params b). by rewrite E3.
  - change (work (chain a1) < work (chain b)). by rewrite E1.
Qed.

(** C5: two linked nodes converge. When the link to a node of more work is up and that
    node says its tip, the first node has the whole chain of the second after at most
    [length / 200 + 3] exchanges of what the two have queued, and waits for nothing,
    whether its chain was a part of that chain or another branch. It needs that the
    clocks are not behind the blocks and that no answer is larger than a frame (unless
    two of the strings hashed for the two chains collide). *)
Theorem nodes_converge a b la lb : app_inv a → app_inv b → a_params a = a_params b → la ≠ -1 →
  linked a la [] → linked b lb [] → sync_peer a = -1 → size (blocks (chain b)) ≤ 500000 →
  (∀ n, size (reply b n) ≤ MAX_FRAME) → chain_work (a_params b) (blocks (chain b)) < 2 ^ 64 →
  chain_work (a_params a) (blocks (chain a)) < chain_work (a_params b) (blocks (chain b)) →
  (∃ k, (k ≤ length (blocks (chain b)) / 200 + 3)%nat ∧
     ∀ ts, length ts = k → Forall (late b) ts →
       ∃ a', foldl (exchange la lb) (a, on_ready b lb) ts = (a', b) ∧ converged b a') ∨
  collision (chain_pre (a_params b) (blocks (chain a)) ++ chain_pre (a_params b) (blocks (chain b))).
Proof.
  intros Ha Hb Ep Hla Hl Hlb Hsp Hs Hr Hwb Hw. pose proof (ai_chain a Ha) as Hca. pose proof (ai_chain b Hb) as Hcb.
  pose proof (ai_same a Ha) as Epa. pose proof (ai_same b Hb) as Epb.
  pose proof (ci_valid _ Hca) as Hva. pose proof (ci_valid _ Hcb) as Hvb. rewrite Epa, Ep in Hva. rewrite Epb in Hvb.
  rewrite Ep in Hw. pose proof (work_length _ _ _ (ai_params b Hb) Hw) as Hlen.
  assert (size (blocks (chain a)) ≤ 500000) as Hsa by (unfold size in *; lia).
  set (K := chain_pre (a_params b) (blocks (chain a)) ++ chain_pre (a_params b) (blocks (chain b))).
  assert (chain_pre (a_params b) (blocks (chain a)) ⊆ K ∧ chain_pre (a_params b) (blocks (chain b)) ⊆ K)
    as [HKa HKb] by (split; [by apply list_subseteq_app_l|by apply list_subseteq_app_r]).
  destruct (heights_index K _ _ HKa (ai_params b Hb) (ci_wf _ Hca) Hva Hsa) as [Hha|?]; [|by right].
  destruct (heights_index K _ _ HKb (ai_params b Hb) (ci_wf _ Hcb) Hvb Hs) as [Hhb|?]; [|by right].
  assert (peer_ok b lb) as Hok by done.
  assert (work (chain a) < work (chain b)) as Hww.
  { rewrite (ci_work _ Hca), (ci_work _ Hcb), Epa, Epb, Ep. destruct (ai_params b Hb) as (_ & [? _] & _).
    rewrite !wrap_small; [done|..]; (split; [by apply chain_work_nonneg|lia]). }
  set (n := length (blocks (chain a))) in *. set (m := (length (blocks (chain b)) / 200)%nat) in *.
  assert (0 < n)%nat as Hn0.
  { unfold n. pose proof (ai_nonempty a Ha). by destruct (blocks (chain a)); [|cbn; lia]. }
  pose proof (Nat.div_mod_eq (length (blocks (chain b))) 200) as Hm. fold m in Hm.
  pose proof (Nat.mod_upper_bound (length (blocks (chain b))) 200 ltac:(lia)) as Hmod.
  pose proof (next_start (chain a) Hha (ai_nonempty a Ha) Hsa) as Hst.
  destruct (decide (block_hash <$> last (blocks (chain a)) = block_hash <$> last (take n (bs b)))) as [Eh|Hd].
  - destruct (tip_binding K (a_params b) (blocks (chain a)) (take n (bs b))) as [Eb|?]; try done; [..|by right].
    + by apply chain_pre_take.
    + apply Hb.
    + apply Hca.
    + apply Forall_take, Hcb.
    + apply (chain_valid_prefix _ _ (drop n (bs b))). by rewrite take_drop.
    + lia.
    + unfold size in *. rewrite length_take. unfold bs. lia.
    + apply Ha.
    + intros E%(f_equal length). rewrite length_take in E. unfold bs in E. cbn in E. lia.
    + left. destruct (extend_rounds b la lb Hok Hla (S m) n Hn0) as (j & Hj & Hrun); [unfold bs; lia|].
      exists (S j). split; [lia|]. intros [|[c0 m0] ts] Hts Hlate; [done|].
      apply Forall_cons in Hlate as [_ Hlate]. cbn [foldl].
      destruct (tip_exchange a b la lb c0 m0) as (a1 & -> & Hwt & Eb1 & _); [done..|].
      apply Hrun; [split; [done|by rewrite Eb1]|by injection Hts|done].
  - left.
    destruct (collect_rounds b la lb Hok Hla (S m)) as (j & Hj & Hrun); [unfold bs; lia|].
    exists (S (S j)). split; [lia|]. intros [|[c0 m0] [|t1 ts]] Hts Hlate; try done.
    do 2 apply Forall_cons in Hlate as [? Hlate]. cbn [foldl].
    destruct (tip_exchange a b la lb c0 m0) as (a1 & -> & Hwt & Eb & Eg); [done..|].
    destruct (fork_exchange b la lb Hok Hla a1 n t1 Hwt Eg) as (a2 & -> & Hw2 & Ec); [unfold bs; lia|by rewrite Eb|].
    apply Hrun; [done|by injection Hts|done].
Qed.
End converge.
