(* ===== verification/Wallet.v ===== *)
(** * Wallet: the commands of [src/clctl.cpp]

    The world that answers HTTP requests is a state [S] with a function [http]; files
    are functions from names to contents. A command gives the new state of the world
    and what it prints, writes and returns. *)

From S2P Require Import Prelude Hex Text Json Serial Sha256 Hash Crypto Merkle Tx Ledger Verify Args.

Local Open Scope Z_scope.

(** ** Targets *)

(** [g_host] and [g_port]. *)
Record Target := mkTarget { g_host : string; g_port : Z }.

Definition default_target : Target := mkTarget "127.0.0.1" 8501.

(** [host:port], or a port on the given host. *)
Definition split_spec (host spec : string) : Target :=
  match cut_last ":" spec with
  | None => mkTarget host (u16 (atoi spec))
  | Some (h, p) => mkTarget h (u16 (atoi p))
  end.

Definition set_rpc (g : Target) (spec : string) : Target :=
  if bool_decide (spec = "") then g else split_spec (g_host g) spec.

(** ** What a command does *)

Record Out := mkOut {
  o_exit : Z;
  o_text : string;
  o_file : option (string * string);
}.

Definition line (s : string) : string := s +:+ newline.
Definition says (exit : Z) (s : string) : Out := mkOut exit (line s) None.

(** [die(msg); return 1;] *)
Definition die (msg : string) : Out := says 1 ("error: " +:+ msg).

(** The bytes of a file or an argument. *)
Definition string_bytes (s : string) : bytes := map code (String.list_ascii_of_string s).

Section wallet.
Context `{HF : HashFn} `{CN : Cng} {S : Type}.

(** The operations of the outside world: HTTP, reading a file, whether a file can be
    written. *)
Context (http : S → string → Z → string → string → string → S * (Z * string)).
Context (files : string → option string) (writable : string → bool).

Definition rpc_get (g : Target) (s : S) (path : string) : S * (Z * string) :=
  http s (g_host g) (g_port g) "GET" path "".
Definition rpc_post (g : Target) (s : S) (path body : string) : S * (Z * string) :=
  http s (g_host g) (g_port g) "POST" path body.

Definition key_file (a : Args) : string := get a "key" "wallet.key".

Definition need_key (a : Args) : option KeyPair := kp_load (files (key_file a)).

Definition no_key (a : Args) : Out :=
  die ("could not load key file '" +:+ key_file a +:+ "' (create one with: clctl keygen --out " +:+
       key_file a +:+ ")").

(** ** Transactions *)

(** The transaction before it is signed. *)
Definition unsigned (kp : KeyPair) (type : Z) (to : bytes) (amount : Z) (payload : bytes)
    (net_id nonce : Z) : Tx :=
  mkTx type net_id (kp_pub kp) to amount nonce payload (replicate 64 0).

Definition with_sig (t : Tx) (sig : bytes) : Tx :=
  mkTx (t_type t) (t_net_id t) (t_from t) (t_to t) (t_amount t) (t_nonce t) (t_payload t) sig.

Definition build_and_submit (g : Target) (s : S) (kp : KeyPair) (type : Z) (to : bytes) (amount : Z)
    (payload : bytes) : S * Out :=
  let '(s, (c, st)) := rpc_get g s "/status" in
  if negb (c =? 200) then (s, die ("node not reachable at " +:+ g_host g +:+ ":" +:+ pretty (g_port g)))
  else
    let net_id := u32 (extract_json_int st "net_id" 0) in
    let me := addr_of (kp_pub kp) in
    let '(s, (c, bal)) := rpc_get g s ("/balance?addr=" +:+ hexs me) in
    if negb (c =? 200) then (s, die "balance query failed")
    else
      let nonce := u64 (extract_json_int bal "nonce" 0) in
      let t := unsigned kp type to amount payload net_id nonce in
      match kp_sign kp (sign_hash t) with
      | None => (s, die "signing failed")
      | Some sig =>
          let t := with_sig t sig in
          let '(s, (c, resp)) := rpc_post g s "/submit" (hexs (tx_serialize t)) in
          if negb (c =? 200) then (s, says 1 resp)
          else (s, says 0 (resp +:+ newline +:+ "submitted. check with: clctl tx --id " +:+ hexs (txid t)))
      end.

Definition cmd_send (g : Target) (s : S) (a : Args) : S * Out :=
  match need_key a with
  | None => (s, no_key a)
  | Some kp =>
      match unhex_n 20 (get a "to" "") with
      | None => (s, die "need --to <hex40 address>")
      | Some to =>
          let amount := strtoull (get a "amount" "0") in
          if amount =? 0 then (s, die "need --amount N")
          else build_and_submit g s kp TX_TRANSFER to amount []
      end
  end.

(** The payload of a record, or what is wrong with the arguments. *)
Definition record_payload (a : Args) : bytes + Out :=
  if has_option a "text" then inl (string_bytes (get a "text" ""))
  else if has_option a "file" then
    match files (get a "file" "") with
    | None => inr (die ("cannot open " +:+ get a "file" ""))
    | Some content =>
        let content := string_bytes content in
        if has_option a "hash-only" then inl (hash256 content)
        else if size content <=? MAX_PAYLOAD then inl content
        else inr (die ("file is " +:+ pretty (size content) +:+ " bytes (max " +:+ pretty MAX_PAYLOAD +:+
                       "). use --hash-only to record its sha256 instead"))
    end
  else inr (die ("need --text " +:+ quoted "..." +:+ " or --file PATH")).

Definition cmd_record (g : Target) (s : S) (a : Args) : S * Out :=
  match need_key a with
  | None => (s, no_key a)
  | Some kp =>
      match record_payload a with
      | inr o => (s, o)
      | inl payload =>
          if bool_decide (payload = []) then (s, die "empty payload")
          else build_and_submit g s kp TX_RECORD (replicate 20 0) 0 payload
      end
  end.

(** ** Queries *)

(** Prints the answer to a GET, whatever its code. *)
Definition show (g : Target) (s : S) (path : string) : S * Out :=
  let '(s, (c, out)) := rpc_get g s path in
  if c <? 0 then (s, die "node not reachable") else (s, says 0 out).

Definition cmd_balance (g : Target) (s : S) (a : Args) : S * Out :=
  let addr := get a "addr" "" in
  if negb (bool_decide (addr = "")) then show g s ("/balance?addr=" +:+ addr)
  else match need_key a with
       | None => (s, no_key a)
       | Some kp => show g s ("/balance?addr=" +:+ hexs (addr_of (kp_pub kp)))
       end.

Definition cmd_block (g : Target) (s : S) (a : Args) : S * Out :=
  let q := if has_option a "height" then "height=" +:+ get a "height" "" else "hash=" +:+ get a "hash" "" in
  show g s ("/block?" +:+ q).

Definition cmd_prove (g : Target) (s : S) (a : Args) : S * Out :=
  let id := get a "txid" "" in
  if bool_decide (id = "") then (s, die "need --txid <hex64>")
  else
    let '(s, (c, out)) := rpc_get g s ("/prove?txid=" +:+ id) in
    if negb (c =? 200) then (s, says 1 out)
    else if has_option a "out" then
      let f := get a "out" "" in
      if negb (writable f) then (s, die ("cannot write " +:+ f))
      else (s, mkOut 0 (line ("proof written to " +:+ f +:+ " (verify with: clctl verify --proof " +:+ f +:+
                              " --rpc-all 8501,8502,8503)")) (Some (f, out)))
    else (s, mkOut 0 out None).

(** ** Keys *)

Definition cmd_keygen (a : Args) : Out :=
  let f := get a "out" "wallet.key" in
  match kp_generate with
  | None => die "key generation failed"
  | Some kp =>
      if negb (writable f) then die ("could not write " +:+ f)
      else mkOut 0 (line ("wrote " +:+ f +:+ " (plaintext ECDSA P-256 key -- toy wallet, do not reuse elsewhere)") +:+
                    line ("address: " +:+ hexs (addr_of (kp_pub kp)))) (Some (f, kp_save kp))
  end.

Definition cmd_addr (a : Args) : Out :=
  match need_key a with
  | None => no_key a
  | Some kp => says 0 (hexs (addr_of (kp_pub kp)))
  end.

(** ** Verification *)

(** One node of [--rpc-all]: [pass], [agree], [total] and the world after it. *)
Definition check_node (height : Z) (blockhash : bytes) (o : S * (bool * Z * Z)) (spec : string)
    : S * (bool * Z * Z) :=
  let '(s, (pass, agree, total)) := o in
  if bool_decide (spec = "") then o
  else
    let g := split_spec "127.0.0.1" spec in
    let '(s, (c, body)) := rpc_get g s ("/block?height=" +:+ pretty height) in
    if negb (c =? 200) then (s, (pass, agree, total + 1))
    else if bool_decide (extract_json_str body "hash" = hexs blockhash)
      then (s, (pass, agree + 1, total + 1))
      else (s, (false, agree, total + 1)).

Definition cross_check (s : S) (f : ProofFile) (pass : bool) (all : string) : S * (bool * Z * Z) :=
  foldl (check_node (pf_height f) (pf_blockhash f)) (s, (pass, 0, 0)) (pieces "," all).

Definition verdict (pass : bool) : string :=
  line (if pass then "VERDICT: VALID" else "VERDICT: INVALID").

(** Of what it prints only the last line, the verdict, is modelled. *)
Definition cmd_verify (s : S) (a : Args) : S * Out :=
  let pf := get a "proof" "proof.txt" in
  match files pf with
  | None => (s, die ("cannot open proof file " +:+ pf))
  | Some content =>
      match verify_text content with
      | None => (s, die (if well_formed (read_proof content) then "bad header in proof" else "malformed proof file"))
      | Some pass =>
          let all := get a "rpc-all" "" in
          let '(s, (pass, agree, total)) :=
            if negb (bool_decide (all = "")) then cross_check s (read_proof content) pass all
            else (s, (pass, 0, 0)) in
          (s, mkOut (if pass then 0 else 1) (verdict pass) None)
      end
  end.

(** ** main *)

Definition usage : string :=
  foldr (λ l s, line l +:+ s) ""
    ["chainlite ctl -- commands:";
     "  keygen [--out wallet.key]";
     "  addr --key wallet.key";
     "  status | mempool | tail [--n 10]        (--rpc 8501 or host:port)";
     "  balance (--addr HEX40 | --key FILE)";
     "  send --key FILE --to HEX40 --amount N";
     "  record --key FILE (--text " +:+ quoted "..." +:+ " | --file PATH [--hash-only])";
     "  block (--height N | --hash HEX64)";
     "  tx --id HEX64";
     "  prove --txid HEX64 [--out proof.txt]";
     "  verify --proof proof.txt [--rpc-all 8501,8502,8503]"].

Definition clctl (s : S) (argv : list string) : S * Out :=
  let a := parse argv in
  let g := set_rpc default_target (get a "rpc" "") in
  let cmd := match pos a with [] => "help" | c :: _ => c end in
  if bool_decide (cmd = "keygen") then (s, cmd_keygen a)
  else if bool_decide (cmd = "addr") then (s, cmd_addr a)
  else if bool_decide (cmd = "status") || bool_decide (cmd = "mempool") then show g s ("/" +:+ cmd)
  else if bool_decide (cmd = "tail") then show g s ("/tail?n=" +:+ get a "n" "10")
  else if bool_decide (cmd = "balance") then cmd_balance g s a
  else if bool_decide (cmd = "block") then cmd_block g s a
  else if bool_decide (cmd = "tx") then show g s ("/tx?id=" +:+ get a "id" "")
  else if bool_decide (cmd = "send") then cmd_send g s a
  else if bool_decide (cmd = "record") then cmd_record g s a
  else if bool_decide (cmd = "prove") then cmd_prove g s a
  else if bool_decide (cmd = "verify") then cmd_verify s a
  else (s, mkOut (if bool_decide (cmd = "help") then 0 else 1) usage None).
End wallet.
