(* ===== verification/WalletSpec.v ===== *)
(** * WalletSpec: the wallet and the nodes together

    [http_nodes] is a network of nodes that answer by [handle_rpc]; [http_exchange] of
    [Http] says that requests over sockets amount to it. The theorems follow a payment
    from the command to the pool of the node, and a proof file to the verdict. *)

From S2P Require Import Prelude Hex Text Json Serial Sha256 Hash Crypto Merkle Tx Ledger Store Chain Consensus Recovery Mempool Miner Net Http Node Safety Verify Rpc RpcSpec Args Wallet.

Local Open Scope Z_scope.

(** ** Targets with parameters *)

(** Characters that [url_decode] keeps and that end no parameter. *)
Definition param_char (c : ascii) : bool :=
  negb (code c =? code "%") && negb (code c =? code "+") && not_char "&" c && not_char "?" c && not_char "=" c.

Lemma url_decode_plain s : all_chars param_char s → url_decode s = s.
Proof.
  intros H. assert (∀ n t, (String.length t ≤ n)%nat → all_chars param_char t → url_decode t = t) as Hn; [|by eapply Hn].
  clear s H. induction n as [|n IH]; intros [|c t] Hl Ht; cbn in Hl; try done; [lia|].
  apply Forall_cons in Ht as [Hc Ht]. unfold param_char in Hc. bool_props.
  cbn [url_decode]. rewrite (proj2 (Z.eqb_neq (code c) (code "%"))), (proj2 (Z.eqb_neq (code c) (code "+"))) by done.
  cbn [andb]. rewrite (IH t) by (done || lia). by destruct t as [|? []].
Qed.

Lemma hex_param c : is_hex c = true → param_char c = true.
Proof.
  intros H. unfold param_char, not_char. repeat (apply andb_true_iff; split); apply negb_true_iff;
    [apply Z.eqb_neq|apply Z.eqb_neq|apply bool_decide_eq_false_2..]; intros E;
    first [subst c; by compute in H|unfold is_hex, hexval in H; rewrite E in H; by compute in H].
Qed.

Lemma digit_param c : is_digit c = true → param_char c = true.
Proof.
  intros H. apply hex_param. unfold is_hex, hexval, is_digit in *. bool_props.
  change (code "0") with 48. change (code "9") with 57.
  rewrite (proj2 (Z.leb_le 48 (code c))), (proj2 (Z.leb_le (code c) 57)) by lia. cbn [andb]. apply Z.leb_le. lia.
Qed.

(** A request for [path?k=v]. *)
Lemma request_param m p k v body : all_chars (not_char "?") p →
  all_chars param_char k → k ≠ "" → all_chars param_char v →
  request_of m (p +:+ "?" +:+ k +:+ "=" +:+ v) body = mkReq m p {[k := v]} body.
Proof.
  intros Hp Hk Hne Hv. unfold request_of, target_path, target_query.
  assert (∀ c s, (∀ d, param_char d = true → not_char c d = true) → all_chars param_char s → all_chars (not_char c) s) as Hc.
  { intros c s Hd. by apply all_chars_impl. }
  change ("?" +:+ k +:+ "=" +:+ v) with (String "?" (k +:+ "=" +:+ v)). rewrite cut_char by done. f_equal.
  unfold parse_query. rewrite pieces_last.
  - cbn [foldl]. unfold add_param. change ("=" +:+ v) with (String "=" v). rewrite cut_char.
    + by rewrite !url_decode_plain.
    + apply Hc; [|done]. intros d Hd. unfold param_char in Hd. by bool_props.
  - by destruct k.
  - apply all_chars_app; [|apply all_chars_app]; [apply Hc; [|done]|by repeat constructor|apply Hc; [|done]];
      intros d Hd; unfold param_char in Hd; by bool_props.
Qed.

(** A request for a path alone. *)
Lemma request_plain m p body : all_chars (not_char "?") p → request_of m p body = mkReq m p ∅ body.
Proof.
  intros Hp. unfold request_of, target_path, target_query. by rewrite cut_char_none.
Qed.

(** ** A network of nodes *)

Section network.
Context `{HF : HashFn} `{CN : Cng} {D : Type} `{DB : Sqlite D}.

(** The nodes of a machine by the port of their RPC server. *)
Definition Network : Type := gmap Z (App D).

Definition http_nodes (w : Web) (clock : nat → Z) (s : Network) (host : string) (port : Z) (m p body : string)
    : Network * (Z * string) :=
  if negb (bool_decide (host = "127.0.0.1")) then (s, (-1, ""))
  else
    match s !! port with
    | None => (s, (-1, ""))
    | Some a =>
        let '(a, resp) := handle_rpc w clock a (request_of m p body) in
        (<[port := a]> s, (resp_code resp, resp_body resp))
    end.

Lemma insert_node (s : Network) port a : s !! port = Some a → <[port := a]> s = s.
Proof. apply insert_id. Qed.

Lemma lookup_node (s : Network) port a : (<[port := a]> s : Network) !! port = Some a.
Proof. apply (lookup_insert_eq (M := gmap Z)). Qed.

Lemma insert_node_twice (s : Network) port a a' : <[port := a']> (<[port := a]> s) = (<[port := a']> s : Network).
Proof. apply (insert_insert_eq (M := gmap Z)). Qed.

Definition at_port (port : Z) : Target := mkTarget "127.0.0.1" port.

Lemma rpc_query w clock (s : Network) port a p resp : s !! port = Some a →
  handle_rpc w clock a (request_of "GET" p "") = (a, resp) →
  rpc_get (http_nodes w clock) (at_port port) s p = (s, (resp_code resp, resp_body resp)).
Proof.
  intros Hs Hh. unfold rpc_get, http_nodes. cbn [g_host g_port at_port].
  rewrite bool_decide_eq_true_2 by done. cbn [negb]. rewrite Hs, Hh. by rewrite insert_node.
Qed.
End network.

(** ** What the wallet reads *)

Lemma hex_no_dq c : is_hex c = true → no_dq c = true.
Proof.
  intros H. unfold no_dq. apply not_char_neq. intros ->. by compute in H.
Qed.

Lemma hexs_no_dq p : wf_bytes p → all_chars no_dq (hexs p).
Proof. intros Hp. eapply all_chars_impl; [apply hex_no_dq|by apply hexs_is_hex]. Qed.

Ltac key_chars := split; [done|by repeat constructor].

Section readings.
Context `{HF : HashFn} `{CN : Cng} {D : Type} `{DB : Sqlite D}.
Implicit Types a : App D.

Lemma status_tip a : app_inv a → extract_json_str (obj (status_fields a)) "tip" = hexs (app_tip_hash a).
Proof.
  intros Ha. destruct (height_width _ (ai_chain a Ha)) as [Hh _].
  apply (extract_str_obj (take 1 (status_fields a)) (drop 2 (status_fields a))); [by key_chars| |].
  - apply Forall_cons_2; [|constructor]. split_and!; [by key_chars|done|done].
  - apply hexs_no_dq, wf_tip_hash, Ha.
Qed.

Lemma status_net_id a : app_inv a →
  extract_json_int (obj (status_fields a)) "net_id" 0 = p_net_id (a_params a).
Proof.
  intros Ha. pose proof (ai_chain a Ha) as Hc. pose proof (height_width _ Hc) as [Hh _].
  assert (0 ≤ work (chain a)) by (rewrite (ci_work _ Hc); by apply wrap_in_width).
  pose proof (ready_count_range (p2p a)). destruct (ai_params a Ha) as ([Hn0 Hn] & _).
  apply (extract_int_obj (take 7 (status_fields a)) (drop 8 (status_fields a))); [by key_chars| |lia].
  pose proof (wf_array_bytes _ _ (wf_tip_hash a Ha)) as Ht.
  destruct (ai_addr a Ha) as [_ Hm].
  repeat (apply Forall_cons_2; [split_and!; [by key_chars|done|cbn; first [lia|by apply hexs_no_dq|idtac]]|]);
    [by destruct (mine_on a); repeat constructor|constructor].
Qed.

Lemma balance_nonce a ad : app_inv a → wf_array 20 ad → cur_nonce (st (chain a)) ad < 2 ^ 63 →
  extract_json_int (obj (balance_fields a ad)) "nonce" 0 = cur_nonce (st (chain a)) ad.
Proof.
  intros Ha [_ Had] Hn. destruct (account_width (chain a) ad (ai_chain a Ha)) as [[Hb _] [H0 _]].
  apply (extract_int_obj (take 2 (balance_fields a ad)) []); [by key_chars| |lia].
  repeat (apply Forall_cons_2; [split_and!; [by key_chars|done|cbn; first [lia|by apply hexs_no_dq]]|]).
  constructor.
Qed.

Lemma handle_status w clock a : app_inv a → Z.of_nat (stdpp.base.size (peers (p2p a))) < 2 ^ 32 →
  handle_rpc w clock a (request_of "GET" "/status" "") = (a, json (obj (status_fields a))).
Proof.
  intros Ha Hs. rewrite request_plain by by repeat constructor.
  transitivity (a, get_status a); [reflexivity|]. unfold get_status. do 2 f_equal.
  apply status_whole; try apply Ha; done.
Qed.

Lemma handle_balance w clock a ad : app_inv a → wf_array 20 ad →
  handle_rpc w clock a (request_of "GET" ("/balance?addr=" +:+ hexs ad) "") = (a, json (obj (balance_fields a ad))).
Proof.
  intros Ha Had. change ("/balance?addr=" +:+ hexs ad) with ("/balance" +:+ "?" +:+ "addr" +:+ "=" +:+ hexs ad).
  rewrite request_param; [|by repeat constructor|by repeat constructor|done|].
  2:{ eapply all_chars_impl; [apply hex_param|apply hexs_is_hex, Had]. }
  set (r := mkReq _ _ _ _). transitivity (a, get_balance a r); [reflexivity|].
  unfold get_balance, param, r. cbn [query]. rewrite lookup_singleton_eq.
  change (default "" (Some (hexs ad))) with (hexs ad).
  rewrite unhex_n_hexs by done. do 2 f_equal. apply balance_whole; [apply Ha|done].
Qed.

(** ** Submitting *)

Lemma whole_tx_serialize t : wire_tx t → whole_tx (tx_serialize t) = Ok t.
Proof.
  intros Ht. unfold whole_tx. rewrite tx_serialize_enc.
  pose proof (wfr_reader_of (tx_enc t) (wf_tx_enc t (proj1 Ht))) as Hr.
  rewrite (codec_dec (Codec := tx_codec) (reader_of (tx_enc t)) t [] Hr Ht) by by rewrite app_nil_r.
  set (r := adv _ _). assert (remaining r = 0) as ->; [|done].
  unfold r, remaining, rn, adv, reader_of. cbn [rp roff]. lia.
Qed.

Lemma fresh_in_pool K a t k : map tx_enc (map snd (map_to_list (m (pool a)))) ⊆ K → tx_enc t ∈ K → app_inv a → wire_tx t → k = (addr_of (t_from t), t_nonce t) →
  m (pool a) !! k = None → txid t ∈ ids (pool a) → collision K.
Proof.
  intros HK HKt Ha Ht -> Hk Hin. pose proof (ai_pool a Ha) as Hp.
  apply (pi_ids _ _ Hp) in Hin as (k & u & Hu & E).
  assert (tx_enc u ∈ K) as HKu.
  { apply HK, list_elem_of_fmap_2, list_elem_of_fmap. eexists (_, u). split; [done|].
    by apply elem_of_map_to_list. }
  destruct (txid_inj K u t) as [->|?]; [done|done|by eapply pool_wire|done|done| |done].
  destruct (pi_entry _ _ Hp _ _ Hu) as [-> _ _ _ _]. congruence.
Qed.

(** The chain does not hold a transaction with the next nonce of its sender. *)
Lemma fresh_in_chain K a t : chain_pre (a_params a) (blocks (chain a)) ⊆ K → tx_enc t ∈ K → app_inv a → index_ok a → wire_tx t → t_type t ≠ TX_COINBASE →
  size (chain_txs (blocks (chain a))) < 2 ^ 64 →
  t_nonce t = nonce (acct (st (chain a)) (addr_of (t_from t))) →
  is_Some (txidx (chain a) !! txid t) → collision K.
Proof.
  intros HK HKt Ha Hi Ht Hty Hs Hn [[h i] E]. pose proof (ai_chain a Ha) as Hc.
  destruct (Hi _ _ _ E) as (b & u & Hb & Hu & Eu & Hin & _).
  pose proof (valid_wire _ _ (ci_wf _ Hc) (ci_valid _ Hc)) as Hz. rewrite Forall_forall in Hz.
  assert (wire_tx u) as Hwu by (destruct (Hz b Hin) as (_ & Hts & _); by eapply Forall_lookup_1).
  assert (tx_enc u ∈ K) as HKu.
  { apply chain_pre_subseteq in HK as [_ HK]. specialize (HK b Hin).
    apply block_pre_subseteq in HK as [_ [HK _]%txs_pre_subseteq]. apply HK. by eapply list_elem_of_lookup_2. }
  destruct (txid_inj K u t HKu HKt Hwu Ht Eu) as [->|?]; [exfalso|done].
  assert (t ∈ chain_txs (blocks (chain a))) as Hmem.
  { unfold chain_txs. apply list_elem_of_In, in_concat. exists (b_txs b). rewrite <- !list_elem_of_In.
    split; [by apply list_elem_of_fmap_2|by eapply list_elem_of_lookup_2]. }
  rewrite (ci_st _ Hc) in Hn.
  destruct (valid_nonces _ _ (addr_of (t_from t)) (ci_valid _ Hc)) as [E1 E2].
  assert (t_nonce t ∈ nonces_of (addr_of (t_from t)) (chain_txs (blocks (chain a)))) as Hnm.
  { unfold nonces_of. apply list_elem_of_fmap_2, list_elem_of_filter. by split. }
  assert (length (nonces_of (addr_of (t_from t)) (chain_txs (blocks (chain a)))) ≤
          length (chain_txs (blocks (chain a))))%nat as Hle.
  { unfold nonces_of. rewrite length_map. apply length_filter. }
  rewrite E1 in Hnm. unfold nonce_seq in Hnm. apply list_elem_of_fmap in Hnm as (j & Ej & Hj).
  apply elem_of_seq in Hj. unfold size in *. rewrite Hn, E2 in Ej.
  rewrite !wrap_small in Ej by (unfold in_width; lia). lia.
Qed.
End readings.

(** ** Theorems *)

Section payments.
Context `{HF : HashFn} `{CN : Cng} {D : Type} `{DB : Sqlite D}.
Implicit Types a : App D.

(** What a node hashes for its chain and its pool. *)
Definition node_pre a : list bytes :=
  chain_pre (a_params a) (blocks (chain a)) ++ map tx_enc (map snd (map_to_list (m (pool a)))).

(** The transaction that the wallet sends, and the node after it. *)
Definition payment (kp : KeyPair) (to : bytes) (amount net_id nonce : Z) (sig : bytes) : Tx :=
  with_sig (unsigned kp TX_TRANSFER to amount [] net_id nonce) sig.

Lemma submit_run w clock a t : app_inv a → wire_tx t → admissible (pool a) t (st (chain a)) (a_params a) →
  ¬ is_Some (txidx (chain a) !! txid t) →
  handle_rpc w clock a (request_of "POST" "/submit" (hexs (tx_serialize t))) =
    (set_p2p (set_pool a (inserted (pool a) t)) (broadcast (p2p a) M_TX (tx_serialize t) (-1)),
     json (pending_text (txid t))).
Proof.
  intros Ha Ht Had Hidx. rewrite request_plain by by repeat constructor.
  set (r := mkReq _ _ _ _). transitivity (post_submit a r); [reflexivity|].
  unfold post_submit, r. cbn [req_body]. rewrite unhex_hexs_some.
  2:{ rewrite tx_serialize_enc. apply wf_tx_enc, Ht. }
  unfold submit_tx. rewrite whole_tx_serialize by done. unfold known_tx, has.
  rewrite bool_decide_eq_false_2 by apply Had. rewrite bool_decide_eq_false_2 by done. cbn [orb].
  destruct (add _ _ _ _) as [mp err] eqn:E.
  destruct (add_cases _ _ _ _ _ _ E) as [(->&_&->)|(_&_&[])]; [|done]. reflexivity.
Qed.

(** C15: a payment reaches the pool. When [clctl send] talks to a node whose account of
    the sender covers the amount and whose pool has room and no other transaction with
    the sender's next nonce, then the wallet reads the network and the nonce from the
    node's answers, signs the transaction, and the node accepts it: the command
    succeeds, the pool holds exactly this transfer in addition, with the sender's key,
    the recipient, the amount and a valid signature, and nothing else of the chain has
    changed (unless two of the strings hashed for the chain, the pool and the new
    transaction collide). *)
Theorem payment_accepted w clock (s : Network (D := D)) port a kp to amount :
  let me := addr_of (kp_pub kp) in
  let n := nonce (acct (st (chain a)) me) in
  s !! port = Some a → app_inv a → signer kp → wf_array 20 to → in_width 64 amount →
  amount ≤ balance (acct (st (chain a)) me) → n + 16 < 2 ^ 63 →
  Z.of_nat (stdpp.base.size (m (pool a))) < 10000 → m (pool a) !! (me, n) = None →
  size (blocks (chain a)) ≤ 2 ^ 32 → size (chain_txs (blocks (chain a))) < 2 ^ 64 →
  Z.of_nat (stdpp.base.size (peers (p2p a))) < 2 ^ 32 →
  ∃ sig, let t := payment kp to amount (p_net_id (a_params a)) n sig in
  (∃ out, authentic t ∧ o_exit out = 0 ∧
    build_and_submit (http_nodes w clock) (at_port port) s kp TX_TRANSFER to amount [] =
      (<[port := set_p2p (set_pool a (inserted (pool a) t)) (broadcast (p2p a) M_TX (tx_serialize t) (-1))]> s, out) ∧
    m (inserted (pool a) t) = <[(me, n) := t]> (m (pool a))) ∨ collision (node_pre a ++ [tx_enc t]).
Proof.
  intros me n Hs Ha [Hpub Hnz Hsign] Hto Ham Hbal Hn Hroom Hfree Hsz Htx Hpeers.
  pose proof (ai_chain a Ha) as Hc. pose proof (ai_params a Ha) as (Hnet & _).
  destruct (account_width (chain a) me Hc) as [_ Hnw]. rewrite cur_nonce_acct in Hnw. fold n in Hnw.
  set (u := unsigned kp TX_TRANSFER to amount [] (p_net_id (a_params a)) n).
  destruct (Hsign (sign_hash u)) as (sig & Hsig & Hsw & Hv); [apply wf_hash256d|].
  set (t := payment kp to amount (p_net_id (a_params a)) n sig).
  assert (wire_tx t) as Ht by (split; [split; done || constructor|done]).
  exists sig. cbv zeta. fold t. set (K := node_pre a ++ [tx_enc t]).
  assert (tx_enc t ∈ K) as HKt by (apply elem_of_app; right; left).
  assert (chain_pre (a_params a) (blocks (chain a)) ⊆ K) as HKc by by apply list_subseteq_app_l, list_subseteq_app_l.
  destruct (app_index_ok a Ha Hsz) as [Hi|?]; [|right; by eapply collision_mono].
  destruct (decide (txid t ∈ ids (pool a))) as [Hin|Hnew].
  { right. apply (fresh_in_pool K a t (me, n)); try done. by apply list_subseteq_app_l, list_subseteq_app_r. }
  destruct (decide (is_Some (txidx (chain a) !! txid t))) as [Hin|Hnix].
  { right. by apply (fresh_in_chain K a t). }
  assert (admissible (pool a) t (st (chain a)) (a_params a)) as Had.
  { split; try done.
    - unfold t, payment. cbn. fold me n. rewrite wrap_small by (unfold in_width in *; lia). lia.
    - by left. }
  left. eexists. split; [by apply Had|].
  split; [|split; [|done]].
  2:{ unfold build_and_submit.
      rewrite (rpc_query w clock s port a "/status" _ Hs (handle_status w clock a Ha Hpeers)).
      cbn [resp_code resp_body json]. cbn [negb Z.eqb Pos.eqb].
      fold me. rewrite (rpc_query w clock s port a ("/balance?addr=" +:+ hexs me) _ Hs) by by apply handle_balance, wf_addr_of.
      cbn [resp_code resp_body json]. cbn [negb Z.eqb Pos.eqb].
      rewrite status_net_id, balance_nonce; [|done|apply wf_addr_of|rewrite cur_nonce_acct; fold n; lia|done].
      rewrite cur_nonce_acct. fold n. rewrite !wrap_small by done. fold u. rewrite Hsig.
      change (with_sig u sig) with t. unfold rpc_post, http_nodes. cbn [g_host g_port at_port].
      rewrite bool_decide_eq_true_2 by done. cbn [negb]. rewrite Hs.
      rewrite submit_run by done. cbn [resp_code resp_body json]. cbn [negb Z.eqb Pos.eqb]. reflexivity. }
  done.
Qed.
End payments.

(** ** Cross-checking a proof *)

Section cross_check.
Context `{HF : HashFn} `{CN : Cng} {D : Type} `{DB : Sqlite D}.
Implicit Types a : App D.

(** All nodes of a network are in order. *)
Definition network_ok (s : Network (D := D)) : Prop := ∀ port a, s !! port = Some a → app_inv a.

(** What one node says of a block hash at a height: [None] when nobody answers at its
    address, and also when the node has no block at this height. *)
Definition node_verdict (s : Network (D := D)) (height : Z) (blockhash : bytes) (spec : string) : option bool :=
  let g := split_spec "127.0.0.1" spec in
  if negb (bool_decide (g_host g = "127.0.0.1")) then None
  else
    a ← s !! g_port g;
    b ← blocks (chain a) !! Z.to_nat height;
    Some (bool_decide (header_hash (b_h b) = blockhash)).

Lemma block_hash_read b : wire_block b → ∀ u,
  extract_json_str (open_list (block_fields b) "txids" +:+ u) "hash" = hexs (header_hash (b_h b)).
Proof.
  intros ([] & _ & _) u. unfold open_list. rewrite !string_app_assoc.
  change ("," +:+ quoted "txids" +:+ ":[" +:+ u) with (String "," (quoted "txids" +:+ ":[" +:+ u)).
  apply (extract_str_open (take 1 (block_fields b)) (drop 2 (block_fields b))); try done; [by key_chars| |].
  - apply Forall_cons_2; [|constructor]. split_and!; [by key_chars|done|apply wf_h_height].
  - apply hexs_no_dq, wf_header_hash.
Qed.

(** The answer of a node in order to [/block?height=N]. *)
Lemma handle_block_height w clock a height : app_inv a → in_width 64 height →
  handle_rpc w clock a (request_of "GET" ("/block?height=" +:+ pretty height) "") =
    (a, match blocks (chain a) !! Z.to_nat height with
        | None => err404 "block not found"
        | Some b => json (open_list (block_fields b) "txids" +:+
                          quoted_list (map (λ t, hexs (txid t)) (b_txs b)) +:+ "]}")
        end).
Proof.
  intros Ha Hh.
  change ("/block?height=" +:+ pretty height) with ("/block" +:+ "?" +:+ "height" +:+ "=" +:+ pretty height).
  rewrite request_param; [|by repeat constructor|by repeat constructor|done|].
  2:{ eapply all_chars_impl; [apply digit_param|apply pretty_digits, Hh]. }
  set (r := mkReq _ _ _ _). transitivity (a, get_block a r); [reflexivity|]. f_equal.
  unfold get_block, find_block, r. cbn [query]. rewrite lookup_singleton_eq, strtoull_pretty by done.
  destruct (blocks (chain a) !! Z.to_nat height) as [b|] eqn:E.
  - pose proof (lookup_lt_Some _ _ _ E). destruct Hh. unfold size.
    rewrite (proj2 (Z.ltb_lt _ _)) by lia. f_equal. f_equal.
    refine (proj1 (block_whole b _)). pose proof (ai_chain a Ha) as Hc.
    pose proof (valid_wire _ _ (ci_wf _ Hc) (ci_valid _ Hc)) as Hz. rewrite Forall_forall in Hz.
    by eapply Hz, list_elem_of_lookup_2.
  - apply lookup_ge_None in E. destruct Hh. unfold size. by rewrite (proj2 (Z.ltb_ge _ _)) by lia.
Qed.

Lemma check_node_run w clock (s : Network) height bh pass agree total spec :
  network_ok s → in_width 64 height → wf_array 32 bh →
  check_node (http_nodes w clock) height bh (s, (pass, agree, total)) spec =
  (s, if bool_decide (spec = "") then (pass, agree, total)
      else match node_verdict s height bh spec with
           | None => (pass, agree, total + 1)
           | Some true => (pass, agree + 1, total + 1)
           | Some false => (false, agree, total + 1)
           end).
Proof.
  intros Hs Hh [_ Hbh]. unfold check_node, node_verdict. case_bool_decide as Hsp; [done|].
  set (g := split_spec "127.0.0.1" spec). unfold rpc_get, http_nodes.
  destruct (bool_decide (g_host g = _)) eqn:Eh; cbn [negb]; [|done].
  destruct (s !! g_port g) as [a|] eqn:Ea; cbn [mbind option_bind]; [|done].
  pose proof (Hs _ _ Ea) as Ha. rewrite handle_block_height by done.
  rewrite insert_node by done.
  destruct (blocks (chain a) !! Z.to_nat height) as [b|] eqn:Eb; cbn [mbind option_bind]; [|done].
  cbn [json resp_code resp_body]. cbn [negb Z.eqb Pos.eqb]. pose proof (ai_chain a Ha) as Hc.
  pose proof (valid_wire _ _ (ci_wf _ Hc) (ci_valid _ Hc)) as Hz. rewrite Forall_forall in Hz.
  rewrite block_hash_read by by eapply Hz, list_elem_of_lookup_2.
  assert (bool_decide (hexs (header_hash (b_h b)) = hexs bh) = bool_decide (header_hash (b_h b) = bh)) as ->.
  { apply bool_decide_ext. split; [|by intros ->]. apply hexs_inj; [apply wf_header_hash|done]. }
  by destruct (bool_decide (header_hash (b_h b) = bh)).
Qed.

Definition agrees (v : option bool) : bool := bool_decide (v = Some true).
Definition objects (v : option bool) : bool := bool_decide (v = Some false).

(** C24: the cross-check asks every listed node. Against any network of nodes in order,
    the cross-check of [clctl verify] passes exactly if the file did and no listed node
    has another block at the height of the proof; it counts the nodes that have the
    same block and all that are listed, and changes no node. A node that has no block
    at this height is treated like one that does not answer: it does not make the
    verdict invalid. *)
Theorem cross_check_nodes w clock (s : Network (D := D)) f pass all :
  network_ok s → in_width 64 (pf_height f) → wf_array 32 (pf_blockhash f) →
  let specs := List.filter (λ x, negb (bool_decide (x = ""))) (pieces "," all) in
  let verdicts := map (node_verdict s (pf_height f) (pf_blockhash f)) specs in
  cross_check (http_nodes w clock) s f pass all =
    (s, (pass && negb (existsb objects verdicts), size (List.filter agrees verdicts), size specs)).
Proof.
  intros Hs Hh Hb. cbv zeta. unfold cross_check.
  assert (∀ l pass agree total,
    foldl (check_node (http_nodes w clock) (pf_height f) (pf_blockhash f)) (s, (pass, agree, total)) l =
    let specs := List.filter (λ x, negb (bool_decide (x = ""))) l in
    let verdicts := map (node_verdict s (pf_height f) (pf_blockhash f)) specs in
    (s, (pass && negb (existsb objects verdicts), agree + size (List.filter agrees verdicts),
         total + size specs))) as Hl; [|by rewrite Hl].
  induction l as [|spec l IH]; intros p ag tot.
  - cbv zeta. cbn. by rewrite andb_true_r, !Z.add_0_r.
  - cbn [foldl]. rewrite check_node_run by done. cbn [List.filter].
    case_bool_decide as Hsp; cbn [negb]; [apply IH|]. unfold size in *. cbn [map existsb List.filter length].
    set (vs := map _ _).
    destruct (node_verdict s _ _ spec) as [[]|]; rewrite IH; cbv zeta; fold vs.
    + change (agrees (Some true)) with true. change (objects (Some true)) with false.
      cbn [orb length]. f_equal. f_equal; [f_equal|]; lia.
    + change (agrees (Some false)) with false. change (objects (Some false)) with true.
      cbn [orb negb]. rewrite andb_false_r. cbn [andb]. f_equal. f_equal. lia.
    + change (agrees None) with false. change (objects None) with false.
      cbn [orb]. f_equal. f_equal. lia.
Qed.
End cross_check.
