(* ===== verification/GpuHost.v ===== *)
(** * GpuHost: the host program of [src/clminer_gpu.cu]

    One turn of its loop: work from the node, launches of the kernel, and the solved
    header back to the node. A launch runs one [mine_kernel] per thread; in what order
    the threads finish and what each reads in [*flag] is a [Schedule]. *)

From S2P Require Import Prelude Hex Text Json Serial Sha256 Hash Crypto Merkle Tx Ledger Store Chain Consensus Recovery Mempool Miner Net Http Node Safety Gpu Verify Rpc RpcSpec Args Wallet WalletSpec.

Local Open Scope Z_scope.

(** The order in which threads reach [atomicExch], and [*flag] as thread [tid] reads it
    at iteration [k]. *)
Record Schedule := mkSchedule { sc_order : list nat; sc_flag : nat → nat → bool }.

Definition PER_THREAD : nat := 256.
Definition ROUNDS : nat := 64.

(** The nonce in [*found] after a launch that raised the flag: that of the first thread. *)
Definition launch (hdr : bytes) (bits base : Z) (threads : nat) (sc : Schedule) : option Z :=
  head (omap (λ tid, mine_kernel hdr bits base PER_THREAD (Z.of_nat tid) (Z.of_nat threads) (sc_flag sc tid))
         (sc_order sc)).

Section host.
Context {S : Type} (http : S → string → Z → string → string → string → S * (Z * string)).
Context (threads : nat) (sched : nat → Schedule).

(** Whether the node has another tip by now; asked in every eighth round. *)
Definition tip_moved (g : Target) (s : S) (round : nat) (tip : string) : S * bool :=
  if negb (round mod 8 =? 7)%nat then (s, false)
  else
    let '(s, (c, chk)) := rpc_get http g s "/status" in
    if negb (c =? 200) then (s, false)
    else
      let cur := extract_json_str chk "tip" in
      (s, negb (bool_decide (cur = "")) && negb (bool_decide (tip = "")) && negb (bool_decide (cur = tip))).

(** The loop over [n] more launches: the solving nonce, if any. *)
Fixpoint rounds (n round : nat) (g : Target) (s : S) (hdr : bytes) (bits base : Z) (tip : string)
    : S * option Z :=
  match n with
  | O => (s, None)
  | Datatypes.S n =>
      let found := launch hdr bits base threads (sched round) in
      let base := u64 (base + Z.of_nat threads * Z.of_nat PER_THREAD) in
      let '(s, moved) := tip_moved g s round tip in
      match found with
      | Some nonce => (s, Some nonce)
      | None => if moved then (s, None) else rounds n (Datatypes.S round) g s hdr bits base tip
      end
  end.

Definition work_path (addr : string) : string :=
  "/work" +:+ (if bool_decide (addr = "") then "" else "?addr=" +:+ addr).

(** One turn of [while (true)]: the answer to the submission, [None] without one. *)
Definition mine_once (g : Target) (s : S) (addr : string) (base : Z) : S * option (Z * string) :=
  let '(s, (c, body)) := rpc_get http g s (work_path addr) in
  if negb (c =? 200) then (s, None)
  else
    let bits := extract_json_int body "bits" 0 in
    let tip := extract_json_str body "tip" in
    match unhex (extract_json_str body "header") with
    | None => (s, None)
    | Some hdr =>
        if negb (size hdr =? 100) || (bits <=? 0) then (s, None)
        else
          let '(s, solved) := rounds ROUNDS 0 g s hdr (u32 bits) base tip in
          match solved with
          | None => (s, None)
          | Some nonce =>
              let '(s, (c, resp)) := rpc_post http g s "/submitwork" (hexs (patch_nonce hdr nonce)) in
              (s, Some (c, resp))
          end
    end.

(** [n] turns of [while (true)], from turn [i] on, with the bases that the random source
    gives. *)
Fixpoint mine_turns (n i : nat) (g : Target) (s : S) (addr : string) (base : nat → Z)
    : S * list (option (Z * string)) :=
  match n with
  | O => (s, [])
  | Datatypes.S n =>
      let '(s, res) := mine_once g s addr (base i) in
      let '(s, rest) := mine_turns n (Datatypes.S i) g s addr base in
      (s, res :: rest)
  end.
End host.

(** ** The program *)

(** What the driver tells of a device. *)
Record Device := mkDevice { dv_name : string; dv_processors : nat }.

(** The threads of a launch: 256 in each block, 32 blocks for each processor. *)
Definition grid_threads (d : Device) : nat := dv_processors d * 32 * 256.

Definition miner_target (args : Args) : Target := split_spec "127.0.0.1" (get args "rpc" "8501").

Definition miner_banner (d : Device) (g : Target) : string :=
  "chainlite GPU miner on " +:+ dv_name d +:+ " (" +:+ pretty (Z.of_nat (dv_processors d)) +:+ " SMs), node http://" +:+
  g_host g +:+ ":" +:+ pretty (g_port g) +:+ newline.

(** [main]: the exit code without the device, or the miner's output and its first [turns]
    turns. [devices]: by number. *)
Definition gpu_main {S} (http : S → string → Z → string → string → string → S * (Z * string))
    (devices : Z → option Device) (sched : nat → nat → Schedule) (base : nat → Z) (argv : list string) (turns : nat) (s : S)
    : string * (Z + S * list (option (Z * string))) :=
  let args := parse argv in
  let g := miner_target args in
  let addr := get args "addr" "" in
  let device := atoi (get args "device" "0") in
  match devices device with
  | None => ("no CUDA device " +:+ pretty device +:+ newline, inl 1)
  | Some d =>
      let threads := grid_threads d in
      (miner_banner d g, inr (mine_turns http threads (sched threads) turns 0 g s addr base))
  end.

(** ** Launches *)

(** Every thread runs, and the flag is up only if some thread found a nonce. *)
Definition honest (hdr : bytes) (bits base : Z) (threads : nat) (sc : Schedule) : Prop :=
  sc_order sc ≡ₚ seq 0 threads ∧
  (launch hdr bits base threads sc = None → ∀ tid k, (tid < threads)%nat → sc_flag sc tid k = false).

Lemma kernel_found n k h bits base tid stride flag m : wf_header h → 0 ≤ bits < 2 ^ 31 →
  kernel_loop n k (header_enc h) bits base tid stride flag = Some m → good_nonce h bits m = true ∧ in_width 64 m.
Proof.
  intros Hh Hb. revert h k Hh. induction n as [|n IH]; intros h k Hh; cbn [kernel_loop]; [done|].
  destruct (flag k); [done|]. rewrite patch_header by done. cbv zeta.
  set (x := u64 _). set (h' := with_nonce h x).
  assert (wf_header h') as Hh' by (apply wf_with_nonce; [done|by apply wrap_in_width]).
  rewrite gpu_hash by by apply length_header_enc. rewrite gpu_test; [|apply wf_sha256d|done].
  pose proof (good_nonce_sha256d h bits x) as Eg. fold h' in Eg. rewrite <- Eg.
  destruct (good_nonce h bits x) eqn:E; [|by apply (IH h')].
  intros [= <-]. split; [done|by apply wrap_in_width].
Qed.

Lemma head_omap_None {A B} (f : A → option B) l : head (omap f l) = None → ∀ x, x ∈ l → f x = None.
Proof.
  induction l as [|y l IH]; intros H x Hx; [by apply not_elem_of_nil in Hx|]. cbn in H.
  destruct (f y) eqn:E; [done|]. apply elem_of_cons in Hx as [->|Hx]; [done|by apply IH].
Qed.

Lemma head_omap_Some {A B} (f : A → option B) l b : head (omap f l) = Some b → ∃ x, x ∈ l ∧ f x = Some b.
Proof.
  induction l as [|y l IH]; intros H; [done|]. cbn in H. destruct (f y) eqn:E.
  - injection H as ->. exists y. split; [by left|done].
  - destruct (IH H) as (x & Hx & Ex). exists x. split; [by right|done].
Qed.

(** A launch finds only good nonces, and none only if none of its range is good. *)
Lemma launch_spec h bits base threads sc : wf_header h → 0 ≤ bits < 2 ^ 31 → (0 < threads)%nat →
  honest (header_enc h) bits base threads sc →
  match launch (header_enc h) bits base threads sc with
  | Some n => good_nonce h bits n = true ∧ in_width 64 n
  | None => ∀ i, 0 ≤ i < Z.of_nat threads * Z.of_nat PER_THREAD → good_nonce h bits (u64 (base + i)) = false
  end.
Proof.
  intros Hh Hb Ht [Hperm Hflag]. destruct (launch _ _ _ _ _) as [n|] eqn:E.
  - unfold launch in E. apply head_omap_Some in E as (tid & _ & E). by eapply kernel_found.
  - intros i Hi. specialize (Hflag eq_refl). unfold launch in E.
    set (T := Z.of_nat threads) in *.
    assert (0 ≤ i mod T < T) as Hm by (apply Z.mod_pos_bound; lia).
    assert (0 ≤ i / T < Z.of_nat PER_THREAD) as Hd.
    { split; [apply Z.div_pos; lia|apply Z.div_lt_upper_bound; lia]. }
    assert (Z.to_nat (i mod T) < threads)%nat as Hlt by lia.
    pose proof (head_omap_None _ _ E (Z.to_nat (i mod T))) as Hn. rewrite Hperm in Hn.
    specialize (Hn ltac:(apply elem_of_seq; lia)). unfold mine_kernel in Hn.
    pose proof (kernel_loop_cases PER_THREAD 0 h bits base (Z.of_nat (Z.to_nat (i mod T))) T
      (sc_flag sc (Z.to_nat (i mod T))) Hh Hb ltac:(intros; by apply Hflag)) as Hk.
    cbv zeta in Hk. fold T in Hn. rewrite Hn in Hk. specialize (Hk (Z.to_nat (i / T)) ltac:(lia)).
    rewrite Nat.add_0_l, !Z2Nat.id in Hk by lia.
    replace (base + i mod T + i / T * T) with (base + i) in Hk; [done|].
    pose proof (Z.div_mod i T ltac:(lia)). lia.
Qed.

(** ** Against a node *)

Section mining.
Context `{CN : Cng} {D : Type} `{DB : Sqlite D}.
Implicit Types a : App D.

Lemma rounds_run w clock (s : Network (D := D)) port a h bits base threads sched tip :
  s !! port = Some a → app_inv a → Z.of_nat (stdpp.base.size (peers (p2p a))) < 2 ^ 32 →
  tip = hexs (app_tip_hash a) → wf_header h → 0 ≤ bits < 2 ^ 31 → (0 < threads)%nat →
  (∀ round b, honest (header_enc h) bits b threads (sched round)) → ∀ n round,
  ∃ res, rounds (http_nodes w clock) threads sched n round (at_port port) s (header_enc h) bits base tip = (s, res) ∧
    match res with
    | Some m => good_nonce h bits m = true ∧ in_width 64 m
    | None => ∀ i, 0 ≤ i < Z.of_nat n * (Z.of_nat threads * Z.of_nat PER_THREAD) →
        good_nonce h bits (u64 (base + i)) = false
    end.
Proof.
  intros Hs Ha Hp Htip Hh Hb Ht Hhon n. revert base. induction n as [|n IH]; intros base round.
  - exists None. split; [done|]. intros i Hi. lia.
  - cbn [rounds]. pose proof (launch_spec h bits base threads (sched round) Hh Hb Ht (Hhon _ _)) as Hl.
    assert (tip_moved (http_nodes w clock) (at_port port) s round tip = (s, false)) as ->.
    { unfold tip_moved. destruct (negb (round mod 8 =? 7)%nat); [done|].
      rewrite (rpc_query w clock s port a "/status" _ Hs (handle_status w clock a Ha Hp)).
      cbn [json resp_code resp_body]. cbn [negb Z.eqb Pos.eqb]. rewrite status_tip by done. subst tip.
      rewrite (bool_decide_eq_true_2 (hexs (app_tip_hash a) = hexs (app_tip_hash a))) by done.
      by rewrite andb_false_r. }
    destruct (launch _ _ _ _ _) as [m|] eqn:El; [by exists (Some m)|].
    destruct (IH (u64 (base + Z.of_nat threads * Z.of_nat PER_THREAD)) (Datatypes.S round)) as (res & -> & Hres).
    exists res. split; [done|]. destruct res as [m|]; [done|]. intros i Hi.
    destruct (decide (i < Z.of_nat threads * Z.of_nat PER_THREAD)) as [Hlt|Hge]; [apply Hl; lia|].
    specialize (Hres (i - Z.of_nat threads * Z.of_nat PER_THREAD) ltac:(lia)).
    rewrite wrap_add_l in Hres.
    by replace (base + Z.of_nat threads * Z.of_nat PER_THREAD + (i - Z.of_nat threads * Z.of_nat PER_THREAD))
      with (base + i) in Hres by lia.
Qed.

(** The node's answer to a request for work, and what the miner reads from it. *)
Lemma get_work_facts a payto now : app_inv a → in_width 64 now → wf_array 20 payto →
  let a' := (get_work a payto now).1 in
  let b := template (chain a) (params (chain a)) payto
             (collect (pool a) (st (chain a)) (params (chain a)) (u64 (height (chain a) + 1))) now in
  (get_work a payto now).2 = b_h b ∧ chain a' = chain a ∧ p2p a' = p2p a ∧
  work_cache a' !! h_merkle (b_h b) = Some (b_txs b) ∧ wf_header (b_h b) ∧ 0 ≤ size (b_txs b) ≤ 1001.
Proof.
  intros Ha Hnow Hto a' b. unfold a', b, get_work. rewrite (ai_same a Ha).
  pose proof (ai_params a Ha) as Hp. pose proof (ai_chain a Ha) as Hc. rewrite <- (ai_same a Ha) in *.
  pose proof (collect_pickable (chain a) (pool a)) as Hpk. rewrite (ai_same a Ha) in *.
  specialize (Hpk (ai_pool a Ha)). rewrite <- (ai_same a Ha) in Hp.
  split_and!; try done.
  - cbn [fst work_cache set_work_cache]. apply lookup_insert_eq.
  - destruct (wf_sealed (chain a) payto _ now 0 Hp Hc Hto Hnow ltac:(done) (proj1 Hpk)) as [Hh _].
    rewrite (ai_same a Ha) in Hh. exact Hh.
  - destruct Hpk as (_ & _ & Hl). unfold size in *. cbn [template b_txs length]. lia.
Qed.

Lemma work_whole a h ntx : app_inv a → wf_header h → 0 ≤ ntx < 2 ^ 32 →
  strf (obj (work_fields a h ntx)) = obj (work_fields a h ntx).
Proof.
  intros Ha Hh Hn. apply strf_obj. unfold work_fields.
  assert (length (header_serialize h) = 100%nat) by (rewrite header_serialize_enc; by apply length_header_enc).
  destruct (wf_tip_hash a Ha) as [Ht _]. destruct Hh. pose proof (small_width ntx Hn).
  pose proof (width_32 _ wf_h_bits). object_fits.
Qed.

(** What the miner reads from the answer. *)
Lemma work_read a h ntx : app_inv a → wf_header h → 0 ≤ ntx →
  let body := obj (work_fields a h ntx) in
  unhex (extract_json_str body "header") = Some (header_enc h) ∧
  extract_json_int body "bits" 0 = h_bits h ∧ extract_json_str body "tip" = hexs (app_tip_hash a).
Proof.
  intros Ha Hh Hn body. pose proof (wf_header_enc h Hh) as He. rewrite <- header_serialize_enc in He.
  pose proof (wf_tip_hash a Ha) as [_ Ht]. pose proof (hexs_no_dq _ He).
  destruct (wf_h_bits h Hh) as [H0 H1], (wf_h_height h Hh) as [H2 _]. split_and!.
  - rewrite <- header_serialize_enc. rewrite <- (unhex_hexs_some _ He). f_equal.
    apply (extract_str_obj [] (drop 1 (work_fields a h ntx))); [by key_chars|constructor|done].
  - apply (extract_int_obj (take 1 (work_fields a h ntx)) (drop 2 (work_fields a h ntx))); [by key_chars| |lia].
    apply Forall_cons_2; [|constructor]. by split_and!; [by key_chars|..].
  - apply (extract_str_obj (take 3 (work_fields a h ntx)) (drop 4 (work_fields a h ntx))); [by key_chars| |by apply hexs_no_dq].
    repeat (apply Forall_cons_2; [by split_and!; [by key_chars|..]|]). constructor.
Qed.

(** The address of [--addr], or the node's own. *)
Definition pays a (addr : string) (payto : bytes) : Prop :=
  addr = "" ∧ payto = miner_addr a ∨ addr = hexs payto ∧ wf_array 20 payto.

Lemma work_request a addr payto r : pays a addr payto → app_inv a →
  r = request_of "GET" (work_path addr) "" →
  path r = "/work" ∧ wf_array 20 payto ∧
  ∀ clock, get_work_page a r clock = work_answer a payto (clock 0%nat).
Proof.
  intros Hpay Ha ->. unfold work_path. destruct Hpay as [[-> ->]|[-> Hw]].
  - rewrite bool_decide_eq_true_2 by done. change ("/work" +:+ "") with "/work".
    rewrite request_plain by by repeat constructor. split_and!; [done|apply Ha|done].
  - assert (hexs payto ≠ "") as Hne by (apply hexs_nonempty; intros ->; by destruct Hw).
    rewrite bool_decide_eq_false_2 by done.
    change ("?addr=" +:+ hexs payto) with ("?" +:+ "addr" +:+ "=" +:+ hexs payto).
    rewrite request_param; [|by repeat constructor|by repeat constructor|done|].
    2:{ eapply all_chars_impl; [apply hex_param|apply hexs_is_hex, Hw]. }
    split_and!; [done|done|]. intros clock. unfold get_work_page. cbn [query].
    rewrite lookup_singleton_eq. by rewrite unhex_n_hexs.
Qed.

Lemma handle_work w clock a addr payto : app_inv a → in_width 64 (clock 0%nat) → pays a addr payto →
  let a' := (get_work a payto (clock 0%nat)).1 in
  let b := template (chain a) (params (chain a)) payto
             (collect (pool a) (st (chain a)) (params (chain a)) (u64 (height (chain a) + 1))) (clock 0%nat) in
  handle_rpc w clock a (request_of "GET" (work_path addr) "") =
    (a', json (obj (work_fields a' (b_h b) (size (b_txs b))))).
Proof.
  intros Ha Hc Hpay a' b. destruct (work_request a addr payto _ Hpay Ha eq_refl) as (Hp & Hto & Hw).
  set (r := request_of _ _ _) in *. transitivity (get_work_page a r clock).
  { unfold handle_rpc. rewrite Hp. reflexivity. }
  rewrite Hw. unfold work_answer.
  destruct (get_work_facts a payto (clock 0%nat) Ha Hc Hto) as (Eh & Ech & _ & Hca & Hwh & Hsz). fold b in Eh, Hca, Hwh, Hsz.
  destruct (get_work_handled a payto (clock 0%nat) Ha Hto Hc) as [Ha' _]. fold a' in Ha', Hca.
  destruct (get_work a payto (clock 0%nat)) as [a1 h1]. cbn [fst snd] in *. subst h1 a'.
  rewrite Hca. do 2 f_equal. apply work_whole; [done..|lia].
Qed.

(** The block of a solved header is accepted. *)
Lemma submitwork_run w clock a h txs n c' : app_inv a → wf_header h → in_width 64 n →
  work_cache a !! h_merkle h = Some txs →
  connect_block (chain a) (mkBlock (with_nonce h n) txs) (clock 0%nat) = (c', "") →
  ∃ a' body, chain a' = c' ∧
    handle_rpc w clock a (request_of "POST" "/submitwork" (hexs (header_enc (with_nonce h n)))) =
      (a', json body).
Proof.
  intros Ha Hh Hn Hca Hconn. rewrite request_plain by by repeat constructor.
  set (r := mkReq _ _ _ _).
  assert (wf_header (with_nonce h n)) as Hh' by by apply wf_with_nonce.
  destruct (header_parse_serialize _ Hh') as [rd Hp]. rewrite header_serialize_enc in Hp.
  assert (∃ a' body, chain a' = c' ∧ post_submitwork a r clock = (a', json body)) as (a' & body & E & Hpost).
  { unfold post_submitwork, r. cbn [req_body]. rewrite unhex_hexs_some by by apply wf_header_enc.
    unfold size. rewrite length_header_enc by done. cbn [negb]. change (Z.of_nat 100 =? HEADER_SIZE) with true.
    cbn [negb]. rewrite Hp. unfold submit_work. change (h_merkle (with_nonce h n)) with (h_merkle h).
    rewrite Hca, Hconn. rewrite bool_decide_eq_true_2 by done. cbn [negb]. eexists _, _. split; [|reflexivity]. done. }
  exists a', body. split; [done|]. rewrite <- Hpost. reflexivity.
Qed.

(** C16: a turn of the GPU miner makes a block or shows that there is none to make.
    Against a node in order, with an honest device, one turn of the miner's loop asks
    for work, launches up to 64 kernels and either submits a nonce, and then the node
    answers 200 and its chain is one block longer, whose coinbase pays the asked
    address; or it submits nothing, the chain is as it was, and none of the nonces of
    all its threads, 64 * threads * 256 of them from the random base on, meets the
    difficulty. *)
Theorem gpu_turn w clock (s : Network (D := D)) port a addr payto threads sched base :
  s !! port = Some a → app_inv a → Z.of_nat (stdpp.base.size (peers (p2p a))) < 2 ^ 32 →
  pays a addr payto → 0 < p_bits (a_params a) < 2 ^ 31 → (0 < threads)%nat →
  supply (st (chain a)) + p_reward (a_params a) < 2 ^ 64 →
  0 ≤ clock 0%nat → clock 0%nat + MAX_TIME_SKEW_S < 2 ^ 64 →
  let b := template (chain a) (params (chain a)) payto
             (collect (pool a) (st (chain a)) (params (chain a)) (u64 (height (chain a) + 1))) (clock 0%nat) in
  (∀ round x, honest (header_enc (b_h b)) (p_bits (a_params a)) x threads (sched round)) →
  ∃ a' res, mine_once (http_nodes w clock) threads sched (at_port port) s addr base = (<[port := a']> s, res) ∧
    match res with
    | Some (c, _) => c = 200 ∧ ∃ n, blocks (chain a') = blocks (chain a) ++ [sealed b n] ∧ chain_inv (chain a')
    | None => chain a' = chain a ∧ ∀ i, 0 ≤ i < Z.of_nat ROUNDS * (Z.of_nat threads * Z.of_nat PER_THREAD) →
        pow_ok (block_hash (sealed b (u64 (base + i)))) (p_bits (a_params a)) = false
    end.
Proof.
  intros Hs Ha Hp Hpay Hbits Ht Hsup Hc0 Hc1 b Hhon.
  assert (in_width 64 (clock 0%nat)) as Hcl by (unfold in_width, MAX_TIME_SKEW_S in *; lia).
  destruct (work_request a addr payto _ Hpay Ha eq_refl) as (_ & Hto & _).
  destruct (get_work_facts a payto (clock 0%nat) Ha Hcl Hto) as (_ & Ech & Ep2p & Hca & Hwh & Hsz). fold b in Hca, Hwh, Hsz.
  destruct (get_work_handled a payto (clock 0%nat) Ha Hto Hcl) as [Ha' _].
  pose proof (handle_work w clock a addr payto Ha Hcl Hpay) as Hwork. cbv zeta in Hwork. fold b in Hwork.
  set (a1 := (get_work a payto (clock 0%nat)).1) in *.
  assert (h_bits (b_h b) = p_bits (a_params a)) as Eb by (unfold b; cbn; by rewrite (ai_same a Ha)).
  destruct (work_read a1 (b_h b) (size (b_txs b)) Ha' Hwh ltac:(lia)) as (R1 & R2 & R3).
  set (s1 := <[port := a1]> s : Network (D := D)).
  assert (s1 !! port = Some a1) as Hs1 by apply lookup_node.
  unfold mine_once, rpc_get. unfold http_nodes at 1. cbn [g_host g_port at_port].
  rewrite bool_decide_eq_true_2 by done. cbn [negb]. rewrite Hs, Hwork.
  cbn [json resp_code resp_body]. cbn [negb Z.eqb Pos.eqb]. fold s1. rewrite R1, R2, R3, Eb.
  assert (size (header_enc (b_h b)) = 100) as -> by (unfold size; by rewrite length_header_enc by done).
  rewrite (proj2 (Z.leb_gt _ _)) by lia. change (negb (100 =? 100) || false) with false. cbv iota.
  rewrite wrap_small by (unfold in_width; lia).
  destruct (rounds_run w clock s1 port a1 (b_h b) (p_bits (a_params a)) base threads sched _ Hs1 Ha'
    ltac:(by rewrite Ep2p) eq_refl Hwh ltac:(lia) Ht Hhon ROUNDS 0) as (res & -> & Hres).
  destruct res as [n|].
  - destruct Hres as [Hg Hn].
    destruct (mined_accepted (chain a) (pool a) payto (clock 0%nat) n (clock 0%nat)) as [c' Hc'].
    + rewrite (ai_same a Ha). apply Ha.
    + apply Ha.
    + apply Ha.
    + rewrite (ai_same a Ha). apply Ha.
    + rewrite (ai_same a Ha). by rewrite (ci_st _ (ai_chain a Ha)) in Hsup.
    + rewrite wrap_small by (unfold in_width, MAX_TIME_SKEW_S in *; lia). unfold MAX_TIME_SKEW_S. lia.
    + fold b. by rewrite (ai_same a Ha).
    + fold b in Hc'. change (sealed b n) with (mkBlock (with_nonce (b_h b) n) (b_txs b)) in Hc'.
      rewrite <- Ech in Hc'.
      destruct (submitwork_run w clock a1 (b_h b) (b_txs b) n c' Ha' Hwh Hn Hca Hc') as (a' & body & <- & Hsub).
      exists a'. eexists. rewrite patch_header by done. unfold rpc_post, http_nodes. cbn [g_host g_port at_port].
      rewrite bool_decide_eq_true_2 by done. cbn [negb]. rewrite Hs1, Hsub.
      split; [unfold s1; by rewrite insert_node_twice|]. cbn. split; [done|]. exists n.
      rewrite <- Ech. eapply connect_block_ok in Hc' as (_ & _ & ? & _ & ? & _); [by split|apply Ha'|].
      split; [by apply wf_with_nonce|]. apply (ai_cache a1 Ha' _ _ Hca).
  - exists a1, None. split; [done|]. split; [done|]. intros i Hi. exact (Hres i Hi).
Qed.
End mining.
