(* ===== verification/Launcher.v ===== *)
(** * Launcher: [src/chainlite_app.cpp]

    The program that runs three nodes as its children: the search for free ports, the
    command lines of the children, the questions to their RPC servers, and the lines that
    report on them. HTTP is a parameter as in [Wallet]. [crt_argv] is how the C runtime of
    a child cuts its command line. What the program does with processes is in
    [Supervisor]. *)

From S2P Require Import Prelude Hex Text Json Args Tx Verify Wallet Config.

Local Open Scope Z_scope.

Definition NODES : nat := 3.

(** ** The command line in the child *)

Definition is_blank (c : ascii) : bool := (code c =? 32) || (code c =? 9).

Definition drop_back (n : nat) (s : string) : string := String.substring 0 (String.length s - n) s.

(** The arguments after the program's name: blanks end an argument outside of quotes; a
    backslash counts only before a quote, where two stand for one and an odd one makes
    the quote literal; a doubled quote inside quotes is a literal quote. [cur]: the
    argument so far, [k] the backslashes at its end. *)
Fixpoint crt_args (inq started : bool) (k : nat) (cur s : string) : list string :=
  match s with
  | EmptyString => if started then [cur] else []
  | String c s =>
      if bool_decide (c = dq) then
        let cur := drop_back (Nat.div2 k) cur in
        if Nat.odd k then crt_args inq true 0 (drop_back 1 cur +:+ String dq "") s
        else if inq then
          match s with
          | String d s' =>
              if bool_decide (d = dq) then crt_args true true 0 (cur +:+ String dq "") s'
              else crt_args false true 0 cur s
          | EmptyString => crt_args false true 0 cur s
          end
        else crt_args true true 0 cur s
      else if negb inq && is_blank c then
        if started then cur :: crt_args false false 0 "" s else crt_args false false 0 "" s
      else crt_args inq true (if code c =? 92 then S k else 0) (cur +:+ String c "") s
  end.

(** A quoted program's name ends at the next quote, another one at a blank. *)
Fixpoint before_blank (s : string) : string * string :=
  match s with
  | EmptyString => ("", "")
  | String c s => if is_blank c then ("", s) else let '(a, b) := before_blank s in (String c a, b)
  end.

Definition crt_argv (s : string) : list string :=
  match s with
  | String c s' =>
      if bool_decide (c = dq) then
        match cut (String dq "") s' with
        | Some (name, rest) => name :: crt_args false false 0 "" rest
        | None => [s']
        end
      else let '(name, rest) := before_blank s in name :: crt_args false false 0 "" rest
  | EmptyString => [""]
  end.

(** ** Files and ports *)

Definition node_dir (root : string) (i : nat) : string := strf (root +:+ "\node" +:+ pretty (Z.of_nat i)).

(** The files that [--reset] removes. *)
Definition reset_files (root : string) : list string :=
  concat (map (λ i, map (λ f, node_dir root i +:+ "\" +:+ f) ["chain.db"; "chain.db-wal"; "chain.db-shm"])
    (seq 1 NODES)).

(** The ports of an attempt are free. *)
Definition ports_ok (port_free : Z → bool) (p r : Z) : bool :=
  forallb (λ i, port_free (u16 (p + Z.of_nat i)) && port_free (u16 (r + Z.of_nat i))) (seq 0 NODES).

Fixpoint port_search (port_free : Z → bool) (n attempt : nat) : option (Z * Z) :=
  match n with
  | O => None
  | S n =>
      let p := u16 (7501 + Z.of_nat attempt * 10) in
      let r := u16 (8501 + Z.of_nat attempt * 10) in
      if ports_ok port_free p r then Some (p, r) else port_search port_free n (S attempt)
  end.

Definition find_ports (port_free : Z → bool) : option (Z * Z) := port_search port_free 20 0.

(** ** The children *)

Definition rpc_list (rpc0 : Z) : string := join "," (map (λ i, pretty (rpc0 + Z.of_nat i)) (seq 0 NODES)).

Definition others (i : nat) : list nat := List.filter (λ j, negb (j =? i)%nat) (seq 0 NODES).

Definition peer_spec (p2p0 : Z) (j : nat) : string := strf ("127.0.0.1:" +:+ pretty (u32 (p2p0 + Z.of_nat j))).

Definition peers_option (p2p0 : Z) (i : nat) : string := join "," (map (peer_spec p2p0) (others i)).

Definition node_command (exe root bits hb : string) (p2p0 rpc0 : Z) (i : nat) : string :=
  strf (quoted exe +:+ " --node --datadir " +:+ quoted (node_dir root (S i)) +:+
        " --p2p-port " +:+ pretty (u32 (p2p0 + Z.of_nat i)) +:+
        " --rpc-port " +:+ pretty (u32 (rpc0 + Z.of_nat i)) +:+
        " --peers " +:+ peers_option p2p0 i +:+ " --rpc-peers " +:+ rpc_list rpc0 +:+
        " --bits " +:+ bits +:+ " --heartbeat " +:+ hb).

(** ** Asking the children *)

Section asking.
Context {S : Type} (http : S → string → Z → string → string → string → S * (Z * string)).

Definition here (port : Z) : Target := mkTarget "127.0.0.1" port.

(** [rpc_up], with the height it writes: [None] for [false]. *)
Definition rpc_up (s : S) (port : Z) : S * option Z :=
  let '(s, (c, body)) := rpc_get http (here port) s "/status" in
  (s, if negb (c =? 200) then None else Some (extract_json_int body "height" (-1))).

(** The loop [for (p = find(x); p != npos; p = find(x, p + 1)) n++;]. *)
Fixpoint occurrences (x s : string) : Z :=
  (if starts_with x s then 1 else 0) + match s with EmptyString => 0 | String _ s => occurrences x s end.

Definition count_notes (s : S) (port : Z) : S * Z :=
  let '(s, (c, body)) := rpc_get http (here port) s "/records?limit=500" in
  (s, if negb (c =? 200) then -1 else occurrences (quoted "txid") body).

(** One look at all children. *)
Fixpoint all_up (s : S) (kids : list Z) : S * bool :=
  match kids with
  | [] => (s, true)
  | k :: kids =>
      let '(s, up) := rpc_up s k in
      match up with None => (s, false) | Some _ => all_up s kids end
  end.

(** Which children answer: the largest height, [-1] without one, and their number. *)
Fixpoint poll (s : S) (kids : list Z) (h live : Z) : S * (Z * Z) :=
  match kids with
  | [] => (s, (h, live))
  | k :: kids =>
      let '(s, up) := rpc_up s k in
      match up with
      | None => poll s kids h live
      | Some kh => poll s kids (if kh >? h then kh else h) (live + 1)
      end
  end.

(** What the window shows of the nodes: height, live nodes, notes. *)
Definition look (s : S) (kids : list Z) : S * (Z * Z * Z) :=
  let '(s, (h, live)) := poll s kids (-1) 0 in
  let '(s, n) := count_notes s (default 0 (head kids)) in
  (s, (h, live, n)).

(** [%-6lld] *)
Definition pad6 (s : string) : string :=
  s +:+ String.concat "" (replicate (6 - String.length s) " ").

(** The line of the report after the time of day. *)
Definition report_line (h live n : Z) (kids : list Z) : string :=
  "  height " +:+ pad6 (pretty h) +:+ "  " +:+ pretty live +:+ "/" +:+ pretty (size kids) +:+ " nodes up  " +:+
  pretty (if n <? 0 then 0 else n) +:+ " note" +:+ (if n =? 1 then "" else "s") +:+ " on chain".

(** One turn of the loop: the last height and number of notes, and the line, if any. *)
Definition watch_turn (s : S) (kids : list Z) (last : Z * Z) : S * (Z * Z) * option string :=
  let '(s, (h, live, n)) := look s kids in
  if negb (h =? last.1) || negb (n =? last.2) then (s, (h, n), Some (report_line h live n kids))
  else (s, last, None).

End asking.

(** The default is a directory beside the program. *)
Definition data_root (exe : string) (args : Args) : string :=
  get args "datadir" (dir_of exe +:+ "\chainlite-data").
