(* ===== verification/Processes.v ===== *)
(** * Processes: Windows as the launcher uses it

    [Windows] is what [src/chainlite_app.cpp] calls of the operating system, on a state [O]
    of the machine; [WindowsSpec] is what the documentation of these functions says about
    processes, jobs and handles, also when they fail. [M] is a computation of the launcher, which may be killed
    before any of its calls; [process] runs one to its end. *)

From S2P Require Import Prelude.

Local Open Scope Z_scope.

(** ** The calls *)

(** How a connection to a port went: no socket, nothing within the timeout, or [SO_ERROR]. *)
Inductive Probe : Type := NoSocket | Silent | Writable (so_error : Z).

Definition NULL : Z := 0.
Definition INVALID_HANDLE_VALUE : Z := -1.

(** Handles are numbers. A job is set to [KILL_ON_JOB_CLOSE] by [SetInformationJobObject], a
    process is made [CREATE_SUSPENDED], with the handles of its process and its thread. A
    [bool] is the success of a call, which the launcher does not look at. *)
Class Windows (O : Type) : Type := {
  GetModuleFileName : O → string;
  create_directories : string → O → O;
  remove_file : string → O → O;
  probe : O → Z → Probe;
  CreateFile : string → O → O * Z;
  CreateJobObject : O → O * Z;
  SetInformationJobObject : Z → O → O * bool;
  CreateProcess : string → string → Z → O → O * option (Z * Z);
  AssignProcessToJobObject : Z → Z → O → O * bool;
  ResumeThread : Z → O → O * bool;
  WaitForSingleObject : Z → Z → O → O;
  TerminateProcess : Z → O → O * bool;
  CloseHandle : Z → O → O;
  GetLastError : O → Z;
  http_req : O → string → Z → string → string → string → O * (Z * string);
  ShellExecute : string → O → O;
  localtime : O → Z * Z * Z;
  Sleep : Z → O → O;
  ExitProcess : O → O;
}.

(** ** Computations *)

(** The machine, what the window shows, and the calls until the process is killed. *)
Record World (O : Type) := mkWorld { os : O; shown : string; left : nat }.
Arguments mkWorld {O}.
Arguments os {O}.
Arguments shown {O}.
Arguments left {O}.

(** [None]: killed. *)
Definition M (O A : Type) : Type := World O → World O * option A.

#[export] Instance m_ret {O} : MRet (M O) := λ A a w, (w, Some a).
#[export] Instance m_bind {O} : MBind (M O) := λ A B f m w,
  match m w with (w, Some a) => f a w | (w, None) => (w, None) end.

Definition syscall {O A} (f : O → O * A) : M O A := λ w,
  match left w with
  | 0%nat => (w, None)
  | S n => let '(o, a) := f (os w) in (mkWorld o (shown w) n, Some a)
  end.

Definition run {O} (f : O → O) : M O unit := syscall (λ o, (f o, tt)).
Definition ask {O A} (f : O → A) : M O A := syscall (λ o, (o, f o)).
Definition print {O} (s : string) : M O unit := λ w, (mkWorld (os w) (shown w +:+ s) (left w), Some tt).

(** A process from its start to its end: the machine afterwards, the output, the exit code. *)
Definition process {O A} `{Windows O} (m : M O A) (n : nat) (o : O) : O * string * option A :=
  let '(w, r) := m (mkWorld o "" n) in (ExitProcess (os w), shown w, r).

(** ** What a process holds *)

Inductive Obj : Type := ProcessObj (pid : Z) | ThreadObj (pid : Z) | JobObj (job : Z) | FileObj.

(** The open handles of this process; the processes that it made and that have not ended,
    those whose end the system has begun (it takes its time, but they run no more), those
    whose first thread never ran; for each job its limit and its processes; the command
    lines of the processes made. *)
Record View := mkView {
  handles : gmap Z Obj;
  alive : gset Z;
  ending : gset Z;
  suspended : gset Z;
  jobs : gmap Z (bool * gset Z);
  commands : list string;
}.

(** Alive, and nothing ends it. *)
Definition running (v : View) : gset Z := alive v ∖ ending v.

(** Nothing changes, except that processes may end. *)
Record quiet (v v' : View) : Prop := mkQuiet {
  q_handles : handles v' = handles v;
  q_alive : alive v' ⊆ alive v;
  q_ending : ending v ⊆ ending v';
  q_suspended : suspended v' = suspended v;
  q_jobs : jobs v' = jobs v;
  q_commands : commands v' = commands v;
}.

Definition set_handles (v : View) (m : gmap Z Obj) : View :=
  mkView m (alive v) (ending v) (suspended v) (jobs v) (commands v).
Definition set_jobs (v : View) (m : gmap Z (bool * gset Z)) : View :=
  mkView (handles v) (alive v) (ending v) (suspended v) m (commands v).
Definition set_alive (v : View) (x : gset Z) : View :=
  mkView (handles v) x (ending v) (suspended v) (jobs v) (commands v).
Definition set_ending (v : View) (x : gset Z) : View :=
  mkView (handles v) (alive v) x (suspended v) (jobs v) (commands v).
Definition set_suspended (v : View) (x : gset Z) : View :=
  mkView (handles v) (alive v) (ending v) x (jobs v) (commands v).

(** A handle that the process does not hold. *)
Definition fresh_handle (v : View) (h : Z) : Prop :=
  handles v !! h = None ∧ h ≠ NULL ∧ h ≠ INVALID_HANDLE_VALUE.

Definition is_job (v : View) (h j : Z) : Prop := handles v !! h = Some (JobObj j).

(** The only handle of a job. *)
Definition last_handle (v : View) (h j : Z) : Prop := is_job v h j ∧ ∀ h', is_job v h' j → h' = h.

Class WindowsSpec (O : Type) `{Windows O} : Type := {
  view : O → View;
  ws_create_directories d o : quiet (view o) (view (create_directories d o));
  ws_remove_file f o : quiet (view o) (view (remove_file f o));
  ws_create_file f o :
    let '(o', h) := CreateFile f o in
    h = INVALID_HANDLE_VALUE ∧ quiet (view o) (view o') ∨
    fresh_handle (view o) h ∧ quiet (set_handles (view o) (<[h := FileObj]> (handles (view o)))) (view o');
  ws_create_job o :
    let '(o', h) := CreateJobObject o in
    h = NULL ∧ quiet (view o) (view o') ∨
    fresh_handle (view o) h ∧ ∃ j, jobs (view o) !! j = None ∧
      quiet (set_jobs (set_handles (view o) (<[h := JobObj j]> (handles (view o)))) (<[j := (false, ∅)]> (jobs (view o))))
        (view o');
  ws_set_information h j b ms o : is_job (view o) h j → jobs (view o) !! j = Some (b, ms) →
    let '(o', ok) := SetInformationJobObject h o in
    quiet (if ok then set_jobs (view o) (<[j := (true, ms)]> (jobs (view o))) else view o) (view o');
  ws_create_process exe cmd log o :
    match CreateProcess exe cmd log o with
    | (o', None) => quiet (view o) (view o')
    | (o', Some (p, t)) => p ≠ t ∧ fresh_handle (view o) p ∧ fresh_handle (view o) t ∧ ∃ pid,
        pid ∉ alive (view o) ∧ pid ∉ ending (view o) ∧
        quiet (mkView (<[p := ProcessObj pid]> (<[t := ThreadObj pid]> (handles (view o)))) ({[pid]} ∪ alive (view o))
                 (ending (view o)) ({[pid]} ∪ suspended (view o)) (jobs (view o)) (commands (view o) ++ [cmd]))
          (view o')
    end;
  ws_assign_null p o : quiet (view o) (view (AssignProcessToJobObject NULL p o).1);
  ws_assign h p j b ms pid o : h ≠ NULL → is_job (view o) h j → jobs (view o) !! j = Some (b, ms) →
    handles (view o) !! p = Some (ProcessObj pid) →
    let '(o', ok) := AssignProcessToJobObject h p o in
    quiet (if ok then set_jobs (view o) (<[j := (b, {[pid]} ∪ ms)]> (jobs (view o))) else view o) (view o');
  ws_resume t pid o : handles (view o) !! t = Some (ThreadObj pid) →
    let '(o', ok) := ResumeThread t o in
    quiet (if ok then set_suspended (view o) (suspended (view o) ∖ {[pid]}) else view o) (view o');
  ws_wait p ms o : quiet (view o) (view (WaitForSingleObject p ms o));
  ws_terminate p o : quiet (view o) (view (TerminateProcess p o).1);
  (** It returns before the process has ended. *)
  ws_terminated p pid o : handles (view o) !! p = Some (ProcessObj pid) → (TerminateProcess p o).2 = true →
    pid ∉ running (view (TerminateProcess p o).1);
  ws_close h o : (∀ j, ¬ is_job (view o) h j) →
    quiet (set_handles (view o) (delete h (handles (view o)))) (view (CloseHandle h o));
  ws_close_job h j ms o : last_handle (view o) h j → jobs (view o) !! j = Some (true, ms) →
    quiet (set_ending (set_handles (view o) (delete h (handles (view o)))) (ending (view o) ∪ ms)) (view (CloseHandle h o));
  ws_close_bare h j ms o : is_job (view o) h j → jobs (view o) !! j = Some (false, ms) →
    quiet (set_handles (view o) (delete h (handles (view o)))) (view (CloseHandle h o));
  ws_http o host port method path body : quiet (view o) (view (http_req o host port method path body).1);
  ws_shell url o : quiet (view o) (view (ShellExecute url o));
  ws_sleep ms o : quiet (view o) (view (Sleep ms o));
  (** The handles of a process are closed when it ends. *)
  ws_exit o :
    suspended (view (ExitProcess o)) = suspended (view o) ∧ commands (view (ExitProcess o)) = commands (view o) ∧
    alive (view (ExitProcess o)) ⊆ alive (view o) ∧ ending (view o) ⊆ ending (view (ExitProcess o)) ∧
    ∀ h j ms, is_job (view o) h j → jobs (view o) !! j = Some (true, ms) → ms ⊆ ending (view (ExitProcess o));
}.

(** The calls that the job is made of: when they do not fail. *)
Record job_calls_succeed {O : Type} `{WO : WindowsSpec O} : Prop := {
  jc_create o : (CreateJobObject o).2 ≠ NULL;
  jc_limit h j x o : is_job (view o) h j → jobs (view o) !! j = Some x → (SetInformationJobObject h o).2 = true;
  jc_assign h j x p pid o : h ≠ NULL → is_job (view o) h j → jobs (view o) !! j = Some x →
    handles (view o) !! p = Some (ProcessObj pid) → pid ∈ running (view o) → (AssignProcessToJobObject h p o).2 = true;
}.
Arguments job_calls_succeed O {_ _}.

(** A process that runs can be ended by its handle. *)
Definition terminate_succeeds (O : Type) `{WO : WindowsSpec O} : Prop := ∀ p pid o,
  handles (view o) !! p = Some (ProcessObj pid) → pid ∈ running (view o) → (TerminateProcess p o).2 = true.

(** ** Reasoning *)

Section triples.
Context {O : Type} (Crash : O → Prop).

(** From [P] the computation ends in [Q], or is killed where [Crash] holds. *)
Definition ends_in {A} (P : O → Prop) (m : M O A) (Q : A → O → Prop) : Prop :=
  ∀ w, P (os w) →
    match m w with (w', Some a) => Q a (os w') | (w', None) => Crash (os w') end.

Lemma calls_ret {A} (P : O → Prop) (a : A) (Q : A → O → Prop) : (∀ o, P o → Q a o) → ends_in P (mret a) Q.
Proof. intros H w. apply H. Qed.

Lemma calls_bind {A B} P (m : M O A) (f : A → M O B) Q R :
  ends_in P m Q → (∀ a, ends_in (Q a) (f a) R) → ends_in P (m ≫= f) R.
Proof.
  intros Hm Hf w Hw. specialize (Hm w Hw). unfold mbind, m_bind. destruct (m w) as [w' [a|]]; [|done]. by apply Hf.
Qed.

Lemma calls_syscall {A} (P : O → Prop) (f : O → O * A) (Q : A → O → Prop) :
  (∀ o, P o → Crash o) → (∀ o, P o → Q (f o).2 (f o).1) → ends_in P (syscall f) Q.
Proof.
  intros Hc Hf w Hw. unfold syscall. specialize (Hf _ Hw). destruct (left w); [by apply Hc|]. by destruct (f (os w)).
Qed.

Lemma calls_run (P : O → Prop) (f : O → O) (Q : O → Prop) :
  (∀ o, P o → Crash o) → (∀ o, P o → Q (f o)) → ends_in P (run f) (λ _, Q).
Proof. intros Hc Hf. by apply calls_syscall. Qed.

Lemma calls_print (P : O → Prop) s (Q : unit → O → Prop) : (∀ o, P o → Q tt o) → ends_in P (print s) Q.
Proof. intros H w. apply H. Qed.

Lemma calls_pre {A} (P P' : O → Prop) (m : M O A) Q : (∀ o, P o → P' o) → ends_in P' m Q → ends_in P m Q.
Proof. intros H Hm w Hw. by apply Hm, H. Qed.

Lemma calls_post {A} P (m : M O A) (Q Q' : A → O → Prop) : (∀ a o, Q a o → Q' a o) → ends_in P m Q → ends_in P m Q'.
Proof. intros H Hm w Hw. specialize (Hm w Hw). destruct (m w) as [w' [a|]]; [by apply H|done]. Qed.

Lemma calls_pure {A} (F : Prop) P (m : M O A) Q : (F → ends_in P m Q) → ends_in (λ o, F ∧ P o) m Q.
Proof. intros H w [HF Hw]. by apply H. Qed.
End triples.
