(* ===== verification/Supervisor.v ===== *)
(** * Supervisor: the processes of [src/chainlite_app.cpp]

    [supervise] makes the nodes as children in a job object, waits for them, watches them
    until Ctrl+C and stops them. Its first comment promises that whatever happens to the
    launcher, no node goes on without it; [no_node_outlives] says under which conditions. *)

From S2P Require Import Prelude Hex Text Json Args Serial Sha256 Hash Crypto Merkle Tx Ledger Store Chain Node Verify Wallet Config Launcher Processes.

Local Open Scope Z_scope.

(** Nobody accepts a connection to the port. *)
Definition port_free (r : Probe) : bool :=
  match r with
  | NoSocket => false
  | Silent => true
  | Writable err => negb (err =? 0)
  end.

Record Child := mkChild { ch_process : Z; ch_thread : Z; ch_log : Z; ch_rpc : Z }.

Section supervisor.
Context {O : Type} `{Windows O}.

Definition exe_path (o : O) : string := GetModuleFileName o.

(** The process, its thread and the log file; [None] for [false]. *)
Definition spawn_node (exe cmdline logpath : string) (job : Z) : M O (option (Z * Z * Z)) :=
  h ← syscall (CreateFile logpath);
  pi ← syscall (CreateProcess exe cmdline h);
  match pi with
  | None =>
      (if negb (h =? INVALID_HANDLE_VALUE) then run (CloseHandle h) else mret tt) ;;
      mret None
  | Some (p, t) =>
      syscall (AssignProcessToJobObject job p) ;;
      syscall (ResumeThread t) ;;
      mret (Some (p, t, h))
  end.

Definition banner (datadir : string) (nodes p2p0 rpc0 : Z) (bits hb : string) : string :=
  newline +:+
  "   chainlite  -  a private blockchain in one window" +:+ newline +:+
  "   ---------------------------------------------------------" +:+ newline +:+
  "   data        " +:+ datadir +:+ newline +:+
  "   network     " +:+ pretty nodes +:+ " nodes  |  p2p " +:+ pretty p2p0 +:+ "-" +:+ pretty (u32 (p2p0 + nodes - 1)) +:+
  "  |  rpc " +:+ pretty rpc0 +:+ "-" +:+ pretty (u32 (rpc0 + nodes - 1)) +:+ newline +:+
  "   consensus   proof-of-work, " +:+ bits +:+ " leading zero bits  |  heartbeat " +:+ hb +:+ "s" +:+ newline +:+
  newline.

(** [for (f : files) std::filesystem::remove(f, ec);] *)
Fixpoint remove_files (files : list string) : M O unit :=
  match files with
  | [] => mret tt
  | f :: files => run (remove_file f) ;; remove_files files
  end.

Definition close_job (job : Z) : M O unit :=
  if negb (job =? NULL) then run (CloseHandle job) else mret tt.

(** The loop that starts the children: all of them, or the exit code. *)
Fixpoint start_nodes (exe root bits hb : string) (p2p0 rpc0 job : Z) (nodes : list nat) (kids : list Child)
    : M O (list Child + Z) :=
  match nodes with
  | [] => mret (inl kids)
  | i :: nodes =>
      let datadir := node_dir root (S i) in
      run (create_directories datadir) ;;
      c ← spawn_node exe (node_command exe root bits hb p2p0 rpc0 i) (datadir +:+ "\node.log") job;
      match c with
      | None =>
          e ← ask GetLastError;
          print (newline +:+ "   [!] failed to start node " +:+ pretty (Z.of_nat (S i)) +:+
                 " (error " +:+ pretty (u32 e) +:+ ")" +:+ newline) ;;
          close_job job ;;
          mret (inr 1)
      | Some (p, t, h) =>
          print "." ;;
          start_nodes exe root bits hb p2p0 rpc0 job nodes (kids ++ [mkChild p t h (u16 (rpc0 + Z.of_nat i))])
      end
  end.

(** At most [n] looks, 150 milliseconds apart. *)
Fixpoint wait_up (n : nat) (ports : list Z) : M O bool :=
  match n with
  | 0%nat => mret false
  | S n =>
      up ← syscall (λ o, all_up http_req o ports);
      if (up : bool) then mret true else run (Sleep 150) ;; wait_up n ports
  end.

(** [%02d] *)
Definition pad2 (x : Z) : string := if (0 <=? x) && (x <? 10) then "0" +:+ pretty x else pretty x.

(** The body of the watching loop before its naps. *)
Definition watch_report (ports : list Z) (last : Z * Z) : M O (Z * Z) :=
  r ← syscall (λ o, let '(o, last, line) := watch_turn http_req o ports last in (o, (last, line)));
  match r.2 with
  | None => mret r.1
  | Some line =>
      t ← ask localtime;
      let '(hh, mm, ss) := t in
      print ("   " +:+ pad2 hh +:+ ":" +:+ pad2 mm +:+ ":" +:+ pad2 ss +:+ line +:+ newline) ;;
      mret r.1
  end.

(** [while (g_sup_running)]: the flag is read before each report and each of the twenty naps
    after it ([nap]: the next one, 0 for the report), and is found down after [steps] reads. *)
Fixpoint watch (steps nap : nat) (ports : list Z) (last : Z * Z) : M O unit :=
  match steps with
  | 0%nat => mret tt
  | S steps =>
      if (nap =? 0)%nat then last ← watch_report ports last; watch steps 1 ports last
      else run (Sleep 100) ;; watch steps (if (nap =? 20)%nat then 0 else S nap) ports last
  end.

(** The loop that ends the children. *)
Fixpoint stop_nodes (kids : list Child) : M O unit :=
  match kids with
  | [] => mret tt
  | k :: kids =>
      run (WaitForSingleObject (ch_process k) 3000) ;;
      syscall (TerminateProcess (ch_process k)) ;;
      run (CloseHandle (ch_thread k)) ;;
      run (CloseHandle (ch_process k)) ;;
      (if negb (ch_log k =? INVALID_HANDLE_VALUE) then run (CloseHandle (ch_log k)) else mret tt) ;;
      stop_nodes kids
  end.

Definition viewer_url (rpc0 : Z) : string := strf ("http://127.0.0.1:" +:+ pretty rpc0 +:+ "/").

(** Show the viewer's address or open it. *)
Definition open_viewer (args : Args) (rpc0 : Z) : M O unit :=
  (if negb (has_option args "no-browser") then
     print ("   opening     " +:+ viewer_url rpc0 +:+ newline) ;; run (ShellExecute (viewer_url rpc0))
   else print ("   viewer      " +:+ viewer_url rpc0 +:+ newline)) ;;
  print (newline +:+ "   Write notes in the browser; they are signed there and stored on this chain." +:+ newline +:+
         "   Keep this window open. Ctrl+C (or closing it) stops every node." +:+ newline +:+ newline).

(** The job object that kills its processes when it is closed. *)
Definition make_job : M O Z :=
  job ← syscall CreateJobObject;
  (if negb (job =? NULL) then syscall (SetInformationJobObject job) ;; mret tt else mret tt) ;;
  mret job.

(** From the start of the nodes on, with the ports found. *)
Definition run_network (args : Args) (exe root bits hb : string) (p2p0 rpc0 : Z) (steps : nat) : M O Z :=
  job ← make_job;
  print "   starting nodes" ;;
  started ← start_nodes exe root bits hb p2p0 rpc0 job (seq 0 NODES) [];
  match started with
  | inr code => mret code
  | inl kids =>
      let ports := map ch_rpc kids in
      up ← wait_up 100 ports;
      if negb up then
        print (" failed" +:+ newline +:+ "   [!] nodes did not come up; see " +:+ root +:+ "\node1\node.log" +:+ newline) ;;
        close_job job ;;
        mret 1
      else
        print (" ok" +:+ newline) ;;
        open_viewer args rpc0 ;;
        watch steps 0 ports (-1, -1) ;;
        print (newline +:+ "   stopping nodes..." +:+ newline) ;;
        close_job job ;;
        stop_nodes kids ;;
        print ("   stopped. Your chain is saved in " +:+ root +:+ newline +:+ newline) ;;
        mret 0
  end.

(** [steps]: the reads of [g_sup_running] until Ctrl+C. *)
Definition supervise (args : Args) (steps : nat) : M O Z :=
  exe ← ask exe_path;
  let root := data_root exe args in
  let bits := get args "bits" "18" in
  let hb := get args "heartbeat" "12" in
  run (create_directories root) ;;
  (if has_option args "reset" then
     remove_files (reset_files root) ;; print ("   [reset] stored chain wiped (keys kept)" +:+ newline)
   else mret tt) ;;
  ports ← ask (λ o, find_ports (λ p, port_free (probe o p)));
  match ports with
  | None =>
      print ("   [!] could not find " +:+ pretty (Z.of_nat NODES) +:+ " free port pairs starting at 7501/8501." +:+ newline +:+
             "       Something else is using them; stop it and try again." +:+ newline) ;;
      mret 1
  | Some (p2p0, rpc0) =>
      print (banner root (Z.of_nat NODES) p2p0 rpc0 bits hb) ;;
      run_network args exe root bits hb p2p0 rpc0 steps
  end.

(** [main]: a child is a node, any other call starts the children. *)
Definition chainlite `{HF : HashFn} `{CN : Cng} {D : Type} `{DB : Sqlite D} (w : Machine D) (clock : nat → Z)
    (exe : string) (argv : list string) (steps : nat) : result (App D) + M O Z :=
  let args := parse argv in
  if has_option args "node" then inl (node_run w exe args clock) else inr (supervise args steps).
End supervisor.
