(* ===== verification/LauncherSpec.v ===== *)
(** * LauncherSpec: what the launcher brings about

    The command lines of the launcher, cut by the C runtime and read by [Args] and
    [node_config], give three nodes that know each other; the lines of its window tell
    how the nodes are. *)

From S2P Require Import Prelude Hex Text Json Args Serial Sha256 Hash Crypto Merkle Tx Ledger Store Chain Consensus Recovery Mempool Miner Net Loop Http Node Safety Verify Rpc RpcSpec Running Config Wallet WalletSpec Launcher.

Local Open Scope Z_scope.

(** ** Cutting a command line *)

(** A character that needs no quotes. *)
Definition word_char (c : ascii) : bool := negb (is_blank c) && no_dq c.

Definition word (s : string) : Prop := s ≠ "" ∧ all_chars word_char s.

(** A text that can stand between quotes: no quote in it, no backslash at its end. *)
Fixpoint ends_plain (s : string) : bool :=
  match s with
  | EmptyString => true
  | String c EmptyString => negb (code c =? 92)
  | String _ s => ends_plain s
  end.

Definition quotable (s : string) : Prop := s ≠ "" ∧ all_chars no_dq s ∧ ends_plain s = true.

(** Arguments as they are written: quoted or not. *)
Inductive Arg : Type := Plain (s : string) | Quoted (s : string).

Definition arg_text (x : Arg) : string := match x with Plain s => s | Quoted s => quoted s end.
Definition arg_value (x : Arg) : string := match x with Plain s => s | Quoted s => s end.
Definition arg_ok (x : Arg) : Prop := match x with Plain s => word s | Quoted s => quotable s end.

Lemma no_dq_neq c : no_dq c = true → c ≠ dq.
Proof. unfold no_dq, not_char. intros H E. by rewrite bool_decide_eq_true_2 in H. Qed.

(** The backslashes at the end of a text after [k] of them. *)
Fixpoint back_count (k : nat) (s : string) : nat :=
  match s with EmptyString => k | String c s => back_count (if code c =? 92 then S k else O) s end.

Lemma crt_plain inq started k cur t rest : all_chars no_dq t → (inq = false → all_chars word_char t) → t ≠ "" →
  crt_args inq started k cur (t +:+ rest) = crt_args inq true (back_count k t) (cur +:+ t) rest.
Proof.
  intros Hq Hw Hne. revert started k cur Hq Hw Hne.
  induction t as [|c t IH]; intros started k cur Hq Hw Hne; [done|].
  apply Forall_cons in Hq as [Hc Hq]. change (String c t +:+ rest) with (String c (t +:+ rest)).
  cbn [crt_args back_count]. rewrite bool_decide_eq_false_2 by by apply no_dq_neq.
  assert (negb inq && is_blank c = false) as ->.
  { destruct inq; [done|]. specialize (Hw eq_refl). apply Forall_cons in Hw as [Hw _].
    unfold word_char in Hw. by destruct (is_blank c). }
  assert (cur +:+ String c t = (cur +:+ String c "") +:+ t) as -> by by rewrite string_app_assoc.
  destruct t as [|d t].
  - change ("" +:+ rest) with rest. by rewrite string_app_nil_r.
  - apply IH; [done| |done]. intros E. specialize (Hw E). by apply Forall_cons in Hw as [_ Hw].
Qed.

Lemma word_no_dq s : word s → all_chars no_dq s.
Proof.
  intros [_ H]. eapply all_chars_impl; [|exact H]. intros c Hc. unfold word_char in Hc. by bool_props.
Qed.

Lemma back_count_plain s k : s ≠ "" → ends_plain s = true → back_count k s = 0%nat.
Proof.
  revert k. induction s as [|c [|d s] IH]; intros k Hne H; [done|..].
  - cbn in *. by destruct (code c =? 92).
  - change (back_count (if code c =? 92 then S k else 0) (String d s) = 0%nat). by apply IH.
Qed.

(** What comes after an argument: the end or a blank. *)
Definition arg_end (s : string) : Prop := match s with EmptyString => True | String c _ => c = " "%char end.

Lemma crt_arg x rest : arg_ok x → arg_end rest →
  crt_args false false 0 "" (arg_text x +:+ rest) = arg_value x :: crt_args false false 0 "" (substr_from 1 rest).
Proof.
  intros Hx Hr. assert (∀ k s, crt_args false true k s rest = s :: crt_args false false 0 "" (substr_from 1 rest)) as He.
  { intros k s. destruct rest as [|c rest]; [done|]. unfold arg_end in Hr. subst c.
    cbn [crt_args]. rewrite bool_decide_eq_false_2 by done.
    change (negb false && is_blank " ") with true. cbn [substr_from].
    change (String " " rest) with (" " +:+ rest). by rewrite (substr_prefix 1 " "). }
  destruct x as [s|s]; cbn [arg_text arg_value arg_ok] in *.
  - rewrite crt_plain; [|by apply word_no_dq|by intros _; apply Hx|apply Hx].
    by rewrite He.
  - destruct Hx as (Hne & Hq & Hend). rewrite quoted_app. cbn [crt_args].
    rewrite bool_decide_eq_true_2 by done. cbn [Nat.div2 Nat.odd Nat.even negb].
    change (drop_back 0 "") with "". rewrite crt_plain by done.
    rewrite back_count_plain by done. change ("" +:+ s) with s. cbn [crt_args].
    rewrite bool_decide_eq_true_2 by done. cbn [Nat.div2 Nat.odd Nat.even negb].
    assert (drop_back 0 s = s) as -> by (unfold drop_back; rewrite substring_all; [done|lia]).
    destruct rest as [|c rest]; [done|]. rewrite bool_decide_eq_false_2 by by rewrite Hr. apply He.
Qed.

Lemma crt_args_join xs : Forall arg_ok xs →
  crt_args false false 0 "" (join " " (map arg_text xs)) = map arg_value xs.
Proof.
  induction 1 as [|x xs Hx Hxs IH]; [done|]. destruct xs as [|y xs].
  - cbn [map join]. rewrite <- (string_app_nil_r (arg_text x)). by rewrite crt_arg.
  - cbn [map join] in *. rewrite crt_arg by done. f_equal.
    by rewrite (substr_prefix 1 " ").
Qed.

(** The program's name in quotes, then the arguments. *)
Lemma crt_argv_join exe xs : all_chars no_dq exe → Forall arg_ok xs →
  crt_argv (quoted exe +:+ " " +:+ join " " (map arg_text xs)) = exe :: map arg_value xs.
Proof.
  intros He Hx. rewrite quoted_app. cbn [crt_argv]. rewrite bool_decide_eq_true_2 by done.
  rewrite cut_char by done. f_equal. rewrite <- (crt_args_join xs Hx). reflexivity.
Qed.

(** ** Ports *)

(** The ports of attempt [k]. *)
Definition attempt_free (free : Z → bool) (k : nat) : Prop :=
  ∀ i, (i < NODES)%nat → free (7501 + Z.of_nat k * 10 + Z.of_nat i) = true ∧
                         free (8501 + Z.of_nat k * 10 + Z.of_nat i) = true.

Lemma ports_ok_spec free k : (k < 20)%nat →
  ports_ok free (u16 (7501 + Z.of_nat k * 10)) (u16 (8501 + Z.of_nat k * 10)) = true ↔ attempt_free free k.
Proof.
  intros Hk. unfold ports_ok, attempt_free. rewrite forallb_forall.
  assert (∀ i, (i < 3)%nat → u16 (u16 (7501 + Z.of_nat k * 10) + Z.of_nat i) = 7501 + Z.of_nat k * 10 + Z.of_nat i ∧
    u16 (u16 (8501 + Z.of_nat k * 10) + Z.of_nat i) = 8501 + Z.of_nat k * 10 + Z.of_nat i) as Hw.
  { intros i Hi. rewrite !wrap_add_l, !wrap_small by (unfold in_width; lia). done. }
  split; intros H i Hi.
  - destruct (Hw i Hi) as [E1 E2]. specialize (H i ltac:(apply in_seq; unfold NODES in *; lia)).
    rewrite E1, E2 in H. by apply andb_true_iff in H.
  - apply in_seq in Hi. destruct (Hw i ltac:(unfold NODES in *; lia)) as [-> ->].
    apply andb_true_iff. apply H. unfold NODES in *. lia.
Qed.

Lemma port_search_cases free n k : (k + n ≤ 20)%nat →
  match port_search free n k with
  | Some (p, r) => ∃ j, (k ≤ j < k + n)%nat ∧ p = 7501 + Z.of_nat j * 10 ∧ r = 8501 + Z.of_nat j * 10 ∧
      attempt_free free j ∧ ∀ i, (k ≤ i < j)%nat → ¬ attempt_free free i
  | None => ∀ j, (k ≤ j < k + n)%nat → ¬ attempt_free free j
  end.
Proof.
  revert k. induction n as [|n IH]; intros k Hk; cbn [port_search]; [intros j Hj; lia|]. cbv zeta.
  pose proof (ports_ok_spec free k ltac:(lia)) as Hs. destruct (ports_ok _ _ _).
  - exists k. split_and!; [lia|lia|by rewrite wrap_small by (unfold in_width; lia)..|by apply Hs|lia].
  - assert (¬ attempt_free free k) as Hno by by rewrite <- Hs. specialize (IH (S k) ltac:(lia)).
    destruct (port_search free n (S k)) as [[p r]|].
    + destruct IH as (j & Hj & -> & -> & Hf & Hl). exists j. split_and!; [lia|lia|done..|].
      intros i Hi. destruct (decide (i = k)) as [->|]; [done|]. apply Hl. lia.
    + intros j Hj. destruct (decide (j = k)) as [->|]; [done|]. apply IH. lia.
Qed.

(** The ports that the launcher finds are the first free ones, and it finds some if there
    are any. *)
Lemma find_ports_cases free :
  match find_ports free with
  | Some (p, r) => ∃ j, (j < 20)%nat ∧ p = 7501 + Z.of_nat j * 10 ∧ r = 8501 + Z.of_nat j * 10 ∧
      attempt_free free j ∧ ∀ i, (i < j)%nat → ¬ attempt_free free i
  | None => ∀ j, (j < 20)%nat → ¬ attempt_free free j
  end.
Proof.
  pose proof (port_search_cases free 20 0 ltac:(lia)) as H. unfold find_ports.
  destruct (port_search free 20 0) as [[p r]|].
  - destruct H as (j & Hj & ? & ? & ? & Hl). exists j. split_and!; [lia|done..|]. intros i Hi. apply Hl. lia.
  - intros j Hj. apply H. lia.
Qed.

(** ** The options of a child *)

(** The options, as name and value. *)
Definition child_options (root bits hb : string) (p r : Z) (i : nat) : list (string * string) :=
  [("datadir", root +:+ "\node" +:+ pretty (Z.of_nat (S i)));
   ("p2p-port", pretty (p + Z.of_nat i)); ("rpc-port", pretty (r + Z.of_nat i));
   ("peers", join "," (map (λ j, "127.0.0.1:" +:+ pretty (p + Z.of_nat j)) (others i)));
   ("rpc-peers", rpc_list r); ("bits", bits); ("heartbeat", hb)].

(** The base ports of the search. *)
Definition base_ports (p r : Z) : Prop := 7501 ≤ p ≤ 7691 ∧ 8501 ≤ r ≤ 8691.

(** What the options of the user may be: values that need no quotes, and texts that fit the
    buffer of the command line. *)
Record options_ok (exe root bits hb : string) : Prop := {
  oo_exe : all_chars no_dq exe;
  oo_root : all_chars no_dq root;
  oo_root_option : is_option root = false;
  oo_bits : word bits ∧ is_option bits = false;
  oo_hb : word hb ∧ is_option hb = false;
  oo_size : (String.length exe + String.length root + String.length bits + String.length hb ≤ 3800)%nat;
}.

Lemma digit_word c : is_digit c = true → word_char c = true.
Proof.
  intros H. unfold word_char. rewrite (digit_no_dq c H), andb_true_r. unfold is_digit, is_blank in *. bool_props.
  by rewrite !(proj2 (Z.eqb_neq _ _)) by lia.
Qed.

Lemma word_pretty x : 0 ≤ x → word (pretty x).
Proof.
  intros Hx. split; [by apply pretty_nonempty|].
  eapply all_chars_impl; [apply digit_word|by apply pretty_digits].
Qed.

Lemma not_option_digits s t : all_chars is_digit s → s ≠ "" → is_option (s +:+ t) = false.
Proof.
  intros Hs Hne. destruct s as [|c s]; [done|]. apply Forall_cons in Hs as [Hc _].
  unfold is_option, starts_with. change (String c s +:+ t) with (String c (s +:+ t)). cbn [String.prefix].
  destruct (Ascii.ascii_dec "-" c) as [<-|]; [done|done].
Qed.

Lemma not_option_backslash s t : is_option s = false → is_option (s +:+ "\node" +:+ t) = false.
Proof.
  unfold is_option, starts_with. intros H. change ("\node" +:+ t) with (String "\" ("node" +:+ t)).
  destruct s as [|c [|d s]].
  - done.
  - change (String c "" +:+ String "\" ("node" +:+ t)) with (String c (String "\" ("node" +:+ t))).
    cbn [String.prefix]. by destruct (Ascii.ascii_dec "-" c).
  - change (String c (String d s) +:+ String "\" ("node" +:+ t)) with (String c (String d (s +:+ String "\" ("node" +:+ t)))).
    cbn [String.prefix] in *. destruct (Ascii.ascii_dec "-" c); [|done]. destruct (Ascii.ascii_dec "-" d); [|done].
    by destruct s.
Qed.

Section child.
Context (exe root bits hb : string) (p r : Z).
Context (Hok : options_ok exe root bits hb) (Hports : base_ports p r).

Lemma length_port x : 0 ≤ x < 10000 → (String.length (pretty x) ≤ 4)%nat.
Proof. intros. by apply length_pretty. Qed.

Lemma small_index i : (i < NODES)%nat → 0 ≤ Z.of_nat i ≤ 2.
Proof. unfold NODES. lia. Qed.

Lemma node_dir_text i : (i ≤ NODES)%nat → node_dir root i = root +:+ "\node" +:+ pretty (Z.of_nat i).
Proof.
  intros Hi. unfold node_dir. apply strf_short. rewrite !string_length_app.
  pose proof (length_port (Z.of_nat i) ltac:(unfold NODES in *; lia)). pose proof (oo_size _ _ _ _ Hok). cbn. lia.
Qed.

Lemma peer_spec_text j : (j < NODES)%nat → peer_spec p j = "127.0.0.1:" +:+ pretty (p + Z.of_nat j).
Proof.
  intros Hj. pose proof (small_index j Hj). destruct Hports. unfold peer_spec.
  rewrite wrap_small by (unfold in_width; lia). apply strf_short. rewrite string_length_app.
  pose proof (length_port (p + Z.of_nat j) ltac:(lia)). cbn. lia.
Qed.

Lemma others_small i j : j ∈ others i → (j < NODES)%nat.
Proof. intros [Hj _]%list_elem_of_In%List.filter_In. apply in_seq in Hj. lia. Qed.

Lemma peers_option_text i :
  peers_option p i = join "," (map (λ j, "127.0.0.1:" +:+ pretty (p + Z.of_nat j)) (others i)).
Proof.
  unfold peers_option. f_equal. apply map_ext_in. intros j Hj%list_elem_of_In. by eapply peer_spec_text, others_small.
Qed.

Lemma length_others i : (length (others i) ≤ 3)%nat.
Proof. unfold others. pose proof (List.filter_length_le (λ j, negb (j =? i)%nat) (seq 0 NODES)). by rewrite length_seq in *. Qed.

(** The arguments as the launcher writes them. *)
Definition child_args (i : nat) : list Arg :=
  [Plain "--node"; Plain "--datadir"; Quoted (root +:+ "\node" +:+ pretty (Z.of_nat (S i)));
   Plain "--p2p-port"; Plain (pretty (p + Z.of_nat i)); Plain "--rpc-port"; Plain (pretty (r + Z.of_nat i));
   Plain "--peers"; Plain (join "," (map (λ j, "127.0.0.1:" +:+ pretty (p + Z.of_nat j)) (others i)));
   Plain "--rpc-peers"; Plain (rpc_list r); Plain "--bits"; Plain bits; Plain "--heartbeat"; Plain hb].

Lemma all_chars_join f sep l : all_chars f sep → Forall (all_chars f) l → all_chars f (join sep l).
Proof.
  intros Hs. induction 1 as [|x l Hx Hl IH]; [constructor|]. destruct l as [|y l]; [done|].
  change (join sep (x :: y :: l)) with (x +:+ sep +:+ join sep (y :: l)).
  by apply all_chars_app; [|apply all_chars_app].
Qed.

Lemma length_join_le sep l n : Forall (λ s, String.length s ≤ n)%nat l →
  (String.length (join sep l) ≤ length l * (n + String.length sep))%nat.
Proof.
  induction 1 as [|x l Hx Hl IH]; [cbn; lia|]. destruct l as [|y l]; [cbn in *; lia|].
  change (join sep (x :: y :: l)) with (x +:+ sep +:+ join sep (y :: l)).
  rewrite !string_length_app. cbn [length] in *. lia.
Qed.

Lemma peers_word i : word (join "," (map (λ j, "127.0.0.1:" +:+ pretty (p + Z.of_nat j)) (others i))).
Proof.
  destruct Hports. split.
  - destruct i as [|[|[|i]]]; cbn; by destruct (pretty _).
  - apply all_chars_join; [by repeat constructor|]. apply Forall_map, Forall_forall. intros j Hj%others_small.
    pose proof (small_index j Hj). apply all_chars_app; [by repeat constructor|apply word_pretty; lia].
Qed.

Lemma rpc_list_word : word (rpc_list r).
Proof.
  destruct Hports. split.
  - unfold rpc_list. cbn [seq NODES map join]. intros E. apply (f_equal String.length) in E.
    rewrite !string_length_app in E. cbn in E. lia.
  - apply all_chars_join; [by repeat constructor|]. apply Forall_map, Forall_forall. intros j Hj.
    apply word_pretty. lia.
Qed.

Lemma ends_plain_app s t : t ≠ "" → ends_plain (s +:+ t) = ends_plain t.
Proof.
  intros Hne. induction s as [|c s IH]; [done|]. change (String c s +:+ t) with (String c (s +:+ t)).
  rewrite <- IH. cbn [ends_plain]. destruct (s +:+ t) as [|d u] eqn:E; [|done].
  apply (f_equal String.length) in E. rewrite string_length_app in E. destruct t; [done|cbn in E; lia].
Qed.

Lemma child_args_ok i : (i < NODES)%nat → Forall arg_ok (child_args i).
Proof.
  intros Hi. pose proof (small_index i Hi). destruct Hports, Hok as [? ? ? [? ?] [? ?] _].
  assert (∀ s, s ≠ "" → Forall (λ c, word_char c = true) (String.list_ascii_of_string s) → word s) as Hw by done.
  unfold child_args. repeat apply Forall_cons_2; cbn [arg_ok]; try apply Forall_nil_2;
    try (apply Hw; [done|by repeat constructor]); try (apply word_pretty; lia); try done.
  - assert (i = 0 ∨ i = 1 ∨ i = 2)%nat as Hc by (unfold NODES in *; lia).
    split_and!.
    + destruct root; [|done]. done.
    + apply all_chars_app; [done|apply all_chars_app; [by repeat constructor|]].
      eapply all_chars_impl; [apply digit_no_dq|apply pretty_digits; lia].
    + rewrite ends_plain_app by done. destruct Hc as [->|[->| ->]]; reflexivity.
  - apply peers_word.
  - apply rpc_list_word.
Qed.

Lemma node_command_text i : (i < NODES)%nat →
  node_command exe root bits hb p r i = quoted exe +:+ " " +:+ join " " (map arg_text (child_args i)).
Proof.
  intros Hi. pose proof (small_index i Hi). destruct Hports as [Hp Hr]. unfold node_command.
  rewrite node_dir_text by (unfold NODES in *; lia). rewrite peers_option_text.
  rewrite !wrap_small by (unfold in_width; lia).
  set (ps := join "," (map (λ j, "127.0.0.1:" +:+ pretty (p + Z.of_nat j)) (others i))).
  assert (String.length ps ≤ 60)%nat as Hps.
  { unfold ps. pose proof (length_others i). etrans; [apply (length_join_le _ _ 14)|].
    - apply Forall_map, Forall_forall. intros j Hj%others_small. pose proof (small_index j Hj).
      rewrite string_length_app. pose proof (length_port (p + Z.of_nat j) ltac:(lia)). cbn. lia.
    - rewrite length_map. change (String.length ",") with 1%nat. lia. }
  assert (String.length (rpc_list r) ≤ 15)%nat as Hrs.
  { unfold rpc_list. etrans; [apply (length_join_le _ _ 4)|by cbn].
    apply Forall_map, Forall_forall. intros j Hj%list_elem_of_In%in_seq. apply length_port. unfold NODES in *. lia. }
  rewrite strf_short; [|].
  - unfold child_args. fold ps. reflexivity.
  - pose proof (oo_size _ _ _ _ Hok). rewrite !string_length_app, !length_quoted, !string_length_app.
    pose proof (length_port (Z.of_nat (S i)) ltac:(lia)).
    pose proof (length_port (p + Z.of_nat i) ltac:(lia)). pose proof (length_port (r + Z.of_nat i) ltac:(lia)).
    cbn [String.length]. lia.
Qed.

(** The child's [Args]. *)
Lemma child_parse i : (i < NODES)%nat →
  ∃ a, crt_argv (node_command exe root bits hb p r i) = exe :: a ∧
    parse a = mkArgs (foldl (λ m kv, <[kv.1 := kv.2]> m) {["node" := "1"]} (child_options root bits hb p r i)) [].
Proof.
  intros Hi. rewrite node_command_text by done. rewrite crt_argv_join by first [apply Hok|by apply child_args_ok].
  eexists. split; [done|]. pose proof (small_index i Hi). destruct Hports, Hok as [? ? ? [? ?] [? ?] _].
  change (map arg_value (child_args i)) with ("--node" :: option_words (child_options root bits hb p r i) ++ []).
  unfold parse. rewrite (parse_flag _ "node") by done.
  rewrite parse_options; [done|]. unfold child_options.
  assert (∀ x, 0 ≤ x → is_option (pretty x) = false) as Hn.
  { intros x Hx. rewrite <- (string_app_nil_r (pretty x)).
    apply not_option_digits; [by apply pretty_digits|by apply pretty_nonempty]. }
  repeat apply Forall_cons_2; cbn [snd]; try apply Forall_nil_2; try (apply Hn; lia); try done.
  - by apply not_option_backslash.
  - assert (i = 0 ∨ i = 1 ∨ i = 2)%nat as Hc by (unfold NODES in *; lia). by destruct Hc as [->|[->| ->]].
  - unfold rpc_list. cbn [seq NODES map join]. apply not_option_digits; [apply pretty_digits|apply pretty_nonempty]; lia.
Qed.
End child.

(** ** The network that the launcher starts *)

Lemma pieces_ports p ns : Forall (λ j, 0 ≤ p + Z.of_nat j) ns →
  peer_list (join "," (map (λ j, "127.0.0.1:" +:+ pretty (p + Z.of_nat j)) ns)) =
  map (λ j, "127.0.0.1:" +:+ pretty (p + Z.of_nat j)) ns.
Proof.
  intros Hn. unfold peer_list. rewrite pieces_join.
  - induction ns as [|j ns IH]; [done|]. apply Forall_cons in Hn as [_ Hn]. cbn [map List.filter].
    rewrite !bool_decide_eq_false_2 by done. cbn [negb andb]. by rewrite IH.
  - apply Forall_map. eapply Forall_impl; [exact Hn|]. intros j Hj. split; [done|].
    apply all_chars_app; [by repeat constructor|]. eapply all_chars_impl; [|by apply pretty_digits].
    intros c Hc. unfold not_char. apply negb_true_iff, bool_decide_eq_false_2. by intros ->.
Qed.

Lemma dial_addr_port x : 0 ≤ x < 2 ^ 16 → dial_addr ("127.0.0.1:" +:+ pretty x) = Some ("127.0.0.1", x).
Proof.
  intros Hx. unfold dial_addr. change ("127.0.0.1:" +:+ pretty x) with ("127.0.0.1" +:+ String ":" (pretty x)).
  rewrite cut_last_char.
  - rewrite <- (string_app_nil_r (pretty x)). unfold atoi. rewrite strtos_text by (done || lia).
    by rewrite wrap_small by (unfold in_width; lia).
  - eapply all_chars_impl; [|apply pretty_digits; lia]. intros c Hc. unfold not_char.
    apply negb_true_iff, bool_decide_eq_false_2. by intros ->.
Qed.

Lemma child_lookups root bits hb p r i :
  let m : gmap string string := foldl (λ m kv, <[kv.1 := kv.2]> m) {["node" := "1"]} (child_options root bits hb p r i) in
  m !! "node" = Some "1" ∧ m !! "bits" = Some bits ∧ m !! "netid" = None ∧ m !! "heartbeat" = Some hb ∧
  m !! "mine" = None ∧ m !! "datadir" = Some (root +:+ "\node" +:+ pretty (Z.of_nat (S i))) ∧
  m !! "p2p-port" = Some (pretty (p + Z.of_nat i)) ∧ m !! "rpc-port" = Some (pretty (r + Z.of_nat i)) ∧
  m !! "rpc-peers" = Some (rpc_list r) ∧
  m !! "peers" = Some (join "," (map (λ j, "127.0.0.1:" +:+ pretty (p + Z.of_nat j)) (others i))).
Proof. cbn [child_options foldl fst snd]. split_and!; by simplify_map_eq. Qed.

(** C27: the launcher starts a network of three nodes. Of its twenty attempts it takes the
    first one whose six ports are free, and gives up only if there is none. If its options
    need no quotes and fit the buffer, then child [i], from its command line cut by the C
    runtime and read as options, is a node: it listens on the [i]-th ports of that attempt,
    keeps its data in its own directory, has the parameters that the options name and the
    network id of all, mines, and dials the two others at the ports that they listen on. *)
Theorem launcher_network free exe root bits hb : options_ok exe root bits hb →
  match find_ports free with
  | None => ∀ k, (k < 20)%nat → ¬ attempt_free free k
  | Some (p, r) =>
      (∃ k, (k < 20)%nat ∧ p = 7501 + Z.of_nat k * 10 ∧ r = 8501 + Z.of_nat k * 10 ∧
         attempt_free free k ∧ ∀ k', (k' < k)%nat → ¬ attempt_free free k') ∧
      ∀ i, (i < NODES)%nat →
      ∃ argv, crt_argv (node_command exe root bits hb p r i) = exe :: argv ∧
      let args := parse argv in
      let cf := node_config exe args in
      has_option args "node" = true ∧
      cf_params cf = mkParams (p_net_id Params_default) (u32 (strtoul bits)) (p_reward Params_default) (p_genesis_time Params_default) ∧
      cf_heartbeat cf = strtoull hb ∧ cf_mine cf = true ∧
      cf_datadir cf = root +:+ "\node" +:+ pretty (Z.of_nat (S i)) ∧
      cf_p2p_port cf = p + Z.of_nat i ∧ cf_rpc_port cf = r + Z.of_nat i ∧ cf_rpc_peers cf = rpc_list r ∧
      cf_peers cf = map (λ j, "127.0.0.1:" +:+ pretty (p + Z.of_nat j)) (others i) ∧
      ∀ j, (j < NODES)%nat → (j ∈ others i ↔ j ≠ i) ∧
        dial_addr ("127.0.0.1:" +:+ pretty (p + Z.of_nat j)) = Some ("127.0.0.1", p + Z.of_nat j)
  end.
Proof.
  intros Hok. pose proof (find_ports_cases free) as Hc. destruct (find_ports free) as [[p r]|]; [|exact Hc].
  split; [exact Hc|]. intros i Hi. destruct Hc as (k & Hk & Ep & Er & _).
  assert (base_ports p r) as Hports by (unfold base_ports; lia). pose proof (small_index i Hi).
  destruct (child_parse exe root bits hb p r Hok Hports i Hi) as (argv & -> & Ea).
  exists argv. split; [done|]. cbv zeta. rewrite Ea. unfold has_option, node_config, node_params, get, has_option.
  cbn [kv cf_params cf_heartbeat cf_mine cf_datadir cf_p2p_port cf_rpc_port cf_rpc_peers cf_peers].
  destruct (child_lookups root bits hb p r i) as (-> & -> & -> & -> & -> & -> & -> & -> & -> & ->).
  assert (∀ x, 0 ≤ x < 2 ^ 16 → u16 (atoi (pretty x)) = x) as Hport.
  { intros x Hx. rewrite <- (string_app_nil_r (pretty x)). unfold atoi. rewrite strtos_text by (done || lia).
    by rewrite wrap_small by (unfold in_width; lia). }
  cbn [from_option id]. rewrite !Hport by lia. split_and!; try done.
  - apply pieces_ports. apply Forall_forall. intros j _. lia.
  - intros j Hj. pose proof (small_index j Hj). split; [|apply dial_addr_port; lia].
    unfold others. rewrite list_elem_of_In, List.filter_In, in_seq, negb_true_iff, Nat.eqb_neq.
    split; [by intros [_ ?]|]. intros ?. split; [lia|done].
Qed.

(** ** The report *)

Lemma occurrences_skip k a s : all_chars no_dq a → occurrences (quoted k) (a +:+ s) = occurrences (quoted k) s.
Proof.
  intros Ha. induction a as [|c a IH]; [done|]. apply Forall_cons in Ha as [Hc Ha].
  change (String c a +:+ s) with (String c (a +:+ s)). cbn [occurrences]. rewrite IH by done.
  assert (starts_with (quoted k) (String c (a +:+ s)) = false) as ->; [|done].
  unfold starts_with, quoted. cbn [String.prefix].
  destruct (Ascii.ascii_dec dq c) as [<-|]; [by apply no_dq_neq in Hc|done].
Qed.

(** A quoted text before punctuation. *)
Lemma occurrences_quoted k v c s : key_ok k → all_chars no_dq v → key_char c = false → c ≠ dq →
  occurrences (quoted k) (quoted v +:+ String c s) =
  (if bool_decide (v = k) then 1 else 0) + occurrences (quoted k) (String c s).
Proof.
  intros Hk Hv Hc Hq. rewrite quoted_app. cbn [occurrences].
  fold (occurrences (quoted k) (v +:+ String dq (String c s))). rewrite occurrences_skip by done.
  assert (occurrences (quoted k) (String dq (String c s)) = occurrences (quoted k) (String c s)) as ->.
  { cbn [occurrences]. assert (starts_with (quoted k) (String dq (String c s)) = false) as ->; [|done].
    unfold quoted. pose proof (starts_with_punct k (String dq "") c s Hk Hc) as H. unfold starts_with in *.
    cbn [String.prefix] in *. by destruct (Ascii.ascii_dec dq dq). }
  f_equal. case_bool_decide as E.
  - subst v. rewrite <- quoted_app. by rewrite starts_with_app.
  - destruct (starts_with _ _) eqn:Es; [|done]. unfold quoted in Es. unfold starts_with in Es. cbn [String.prefix] in Es.
    destruct (Ascii.ascii_dec dq dq); [|done].
    apply (starts_with_key k v "" (String c s)) in Es as [-> _]; [done|by apply key_no_dq|done].
Qed.

(** The value of a field does not look like the key. *)
Definition other_value (k : string) (v : JVal) : Prop := match v with JStr s => s ≠ k | _ => True end.

Lemma occurrences_field k f t : key_ok k → key_ok f.1 → value_ok f.2 → other_value k f.2 → field_end t →
  occurrences (quoted k) (field_text f +:+ t) = (if bool_decide (f.1 = k) then 1 else 0) + occurrences (quoted k) t.
Proof.
  destruct f as [k' v], t as [|c t]; [done|]. cbn [fst snd]. intros Hk Hk' Hv Ho (Hc & Hq & _).
  unfold field_text. cbn [fst snd]. rewrite !string_app_assoc.
  change (":" +:+ value_text v +:+ String c t) with (String ":" (value_text v +:+ String c t)).
  rewrite occurrences_quoted by (done || by apply key_no_dq). f_equal.
  change (String ":" (value_text v +:+ String c t)) with (":" +:+ value_text v +:+ String c t).
  rewrite (occurrences_skip k ":") by by repeat constructor.
  destruct (value_text_no_dq v Hv) as [[s ->]|Hp].
  - cbn [value_text other_value] in *. rewrite occurrences_quoted, bool_decide_eq_false_2 by done. lia.
  - by rewrite occurrences_skip.
Qed.

Definition fields_fine (k : string) (fs : list (string * JVal)) : Prop :=
  Forall (λ f, key_ok f.1 ∧ value_ok f.2 ∧ other_value k f.2) fs.

Lemma occurrences_fields k fs t : key_ok k → fields_fine k fs → field_end t →
  occurrences (quoted k) (fields_text fs +:+ t) =
  size (List.filter (λ f, bool_decide (f.1 = k)) fs) + occurrences (quoted k) t.
Proof.
  intros Hk Hf Ht. unfold fields_text. induction Hf as [|f fs (H1 & H2 & H3) Hf IH]; [done|].
  assert (size (List.filter (λ f, bool_decide (f.1 = k)) (f :: fs)) =
    (if bool_decide (f.1 = k) then 1 else 0) + size (List.filter (λ f, bool_decide (f.1 = k)) fs)) as ->.
  { cbn [List.filter]. case_bool_decide; unfold size; cbn [length]; lia. }
  destruct fs as [|g fs].
  - cbn [map join List.filter]. rewrite occurrences_field by done. unfold size. cbn. lia.
  - change (join "," (map field_text (f :: g :: fs))) with (field_text f +:+ "," +:+ join "," (map field_text (g :: fs))).
    rewrite !string_app_assoc, occurrences_field by done. rewrite (occurrences_skip k ",") by by repeat constructor.
    rewrite IH. lia.
Qed.

Section window.
Context `{HF : HashFn} `{CN : Cng} {D : Type} `{DB : Sqlite D}.
Implicit Types a : App D.

(** A row whose members are of their types. *)
Record row_fine (f : FeedRow) : Prop := {
  rf_tx : wire_tx (fr_tx f);
  rf_status : fr_status f = "pending" ∨ fr_status f = "confirmed";
  rf_height : in_width 64 (fr_height f);
  rf_time : in_width 64 (fr_time f);
  rf_conf : in_width 64 (fr_conf f);
}.

Lemma elem_of_filter_wanted only t ts : t ∈ List.filter (wanted only) ts → t ∈ ts.
Proof. rewrite !list_elem_of_In, List.filter_In. tauto. Qed.

Lemma feed_fine a only : app_inv a → Forall row_fine (feed_rows a only).
Proof.
  intros Ha. pose proof (ai_chain a Ha) as Hc. unfold feed_rows. apply Forall_app. split.
  - apply Forall_map, Forall_forall. intros t Ht%elem_of_filter_wanted.
    apply elem_of_entries_snd in Ht as [k Hin].
    split; cbn; try done; [by eapply pool_wire; [apply Ha|]|by left].
  - apply Forall_concat, Forall_map, Forall_forall. intros b Hb. rewrite elem_of_reverse in Hb. unfold block_rows.
    pose proof (valid_wire _ _ (ci_wf _ Hc) (ci_valid _ Hc)) as Hz. rewrite Forall_forall in Hz.
    destruct (Hz b Hb) as ([] & Hts & _). rewrite Forall_forall in Hts.
    apply Forall_map, Forall_forall. intros t Ht%elem_of_filter_wanted. rewrite elem_of_reverse in Ht.
    split; cbn; try done; [by apply Hts|by right|apply conf_width].
Qed.

Lemma key_txid : key_ok "txid".
Proof. key_chars. Qed.

Lemma hexs_not_txid p : wf_bytes p → hexs p ≠ "txid".
Proof.
  intros Hp%hexs_is_hex E. rewrite E in Hp. apply Forall_cons in Hp as [H _]. by compute in H.
Qed.

(** A row of the feed holds the key once. *)
Lemma occurrences_row f c t : row_fine f → field_end (String c t) →
  occurrences (quoted "txid") (row_text f +:+ String c t) = 1 + occurrences (quoted "txid") (String c t).
Proof.
  intros [Ht Hst ? ? ?] Hc. rewrite row_whole by (try done; destruct Hst as [->| ->]; cbn; lia).
  unfold obj. rewrite !string_app_assoc. rewrite (occurrences_skip _ "{") by by repeat constructor.
  rewrite (occurrences_fields _ _ ("}" +:+ String c t)); [|apply key_txid| |done].
  - rewrite (occurrences_skip _ "}") by by repeat constructor. done.
  - assert (wf_bytes (t_payload (fr_tx f))) as Hp by apply Ht.
    pose proof (wf_array_bytes _ _ (wf_txid (fr_tx f))). pose proof (wf_array_bytes _ _ (wf_addr_of (t_from (fr_tx f)))).
    unfold in_width in *. unfold fields_fine, row_fields.
    repeat (apply Forall_cons_2; [split_and!;
      [by key_chars|cbn [snd value_ok]; first [lia|by apply hexs_no_dq|idtac]
      |cbn [snd other_value]; first [exact I|by apply hexs_not_txid|idtac]]|]); [..|constructor].
    + destruct Hst as [->| ->]; by repeat constructor.
    + by destruct Hst as [->| ->].
Qed.

Lemma occurrences_rows rows t : Forall row_fine rows →
  occurrences (quoted "txid") (join "," (map row_text rows) +:+ "]" +:+ t) =
  size rows + occurrences (quoted "txid") ("]" +:+ t).
Proof.
  induction 1 as [|f rows Hf Hrows IH]; [done|]. destruct rows as [|g rows].
  - cbn [map join]. by apply (occurrences_row f "]" t).
  - change (join "," (map row_text (f :: g :: rows))) with (row_text f +:+ "," +:+ join "," (map row_text (g :: rows))).
    rewrite !string_app_assoc.
    change ("," +:+ join "," (map row_text (g :: rows)) +:+ "]" +:+ t) with
      (String "," (join "," (map row_text (g :: rows)) +:+ "]" +:+ t)).
    rewrite (occurrences_row f "," (join "," (map row_text (g :: rows)) +:+ "]" +:+ t)) by done.
    change (String "," (join "," (map row_text (g :: rows)) +:+ "]" +:+ t))
      with ("," +:+ join "," (map row_text (g :: rows)) +:+ "]" +:+ t).
    rewrite (occurrences_skip _ ",") by by repeat constructor. rewrite IH. unfold size. cbn [length]. lia.
Qed.

Lemma count_notes_node w clock (s : Network (D := D)) port a : s !! port = Some a → app_inv a →
  count_notes (http_nodes w clock) s port = (s, Z.min 500 (size (feed_rows a None))).
Proof.
  intros Hs Ha. unfold count_notes. change (here port) with (at_port port).
  assert (handle_rpc w clock a (request_of "GET" "/records?limit=500" "") =
    (a, json ("{" +:+ quoted "records" +:+ ":[" +:+
          join "," (map row_text (take 500 (feed_rows a None))) +:+ "]}"))) as E.
  { change "/records?limit=500" with ("/records" +:+ "?" +:+ "limit" +:+ "=" +:+ "500").
    rewrite request_param; [|by repeat constructor|by repeat constructor|done|by repeat constructor].
    set (r := mkReq _ _ _ _). transitivity (a, get_records a r); [reflexivity|].
    destruct (records_rows a r) as [_ ->]. unfold feed_filter, records_limit, r. cbn [query].
    rewrite lookup_singleton_ne, lookup_singleton_eq by done. by replace (strtoull "500") with 500 by by vm_compute. }
  rewrite (rpc_query w clock s port a _ _ Hs E). cbn [json resp_code resp_body Z.eqb Pos.eqb negb]. f_equal.
  rewrite (occurrences_skip _ "{") by by repeat constructor.
  change (":[" +:+ join "," (map row_text (take 500 (feed_rows a None))) +:+ "]}") with
    (String ":" ("[" +:+ join "," (map row_text (take 500 (feed_rows a None))) +:+ "]}")).
  rewrite occurrences_quoted; [|apply key_txid|by repeat constructor|done|done].
  change (String ":" ("[" +:+ join "," (map row_text (take 500 (feed_rows a None))) +:+ "]}")) with
    (":[" +:+ join "," (map row_text (take 500 (feed_rows a None))) +:+ "]" +:+ "}").
  rewrite (occurrences_skip _ ":[") by by repeat constructor.
  rewrite occurrences_rows by by apply Forall_take, feed_fine.
  rewrite bool_decide_eq_false_2 by done. replace (occurrences (quoted "txid") ("]" +:+ "}")) with 0 by by vm_compute.
  unfold size. rewrite length_take. lia.
Qed.
(** A node that the launcher can ask. *)
Definition askable a : Prop :=
  app_inv a ∧ Z.of_nat (stdpp.base.size (peers (p2p a))) < 2 ^ 32 ∧ height (chain a) < 2 ^ 63.

Lemma rpc_up_node w clock (s : Network (D := D)) port :
  (∀ a, s !! port = Some a → askable a) →
  rpc_up (http_nodes w clock) s port = (s, (λ a, height (chain a)) <$> (s !! port)).
Proof.
  intros Hs. unfold rpc_up. change (here port) with (at_port port).
  destruct (s !! port) as [a|] eqn:E.
  - destruct (Hs a eq_refl) as (Ha & Hp & Hh).
    rewrite (rpc_query w clock s port a _ _ E (handle_status w clock a Ha Hp)).
    cbn [json resp_code resp_body Z.eqb Pos.eqb negb fmap option_fmap option_map]. do 2 f_equal.
    destruct (height_width _ (ai_chain a Ha)) as [H0 _].
    by apply (extract_int_obj [] (drop 1 (status_fields a))); [by key_chars|constructor|lia].
  - unfold rpc_get, http_nodes. cbn [g_host g_port at_port]. rewrite bool_decide_eq_true_2 by done.
    cbn [negb]. by rewrite E.
Qed.

Definition best_height (up : list (App D)) : Z := foldr (λ a, Z.max (height (chain a))) (-1) up.

Lemma best_height_bound up : -1 ≤ best_height up.
Proof. unfold best_height. induction up as [|a up IH]; cbn; lia. Qed.

Lemma poll_nodes w clock (s : Network (D := D)) ports h live : -1 ≤ h →
  (∀ port a, port ∈ ports → s !! port = Some a → askable a) →
  let up := omap (λ port, s !! port) ports in
  poll (http_nodes w clock) s ports h live = (s, (Z.max h (best_height up), live + size up)).
Proof.
  revert h live. induction ports as [|port ports IH]; intros h live Hh Hs; cbn [poll omap list_omap].
  { unfold best_height, size. cbn. do 2 f_equal; lia. }
  rewrite rpc_up_node by (intros; eapply Hs; [by left|done]).
  assert (∀ port' a, port' ∈ ports → s !! port' = Some a → askable a) as Hs'
    by (intros; eapply Hs; [by right|done]).
  destruct (s !! port) as [a|]; cbn [fmap option_fmap option_map]; [|by apply IH].
  cbv zeta in IH. rewrite IH; [| |done].
  - unfold best_height, size. cbn [foldr length]. do 2 f_equal; [|lia].
    rewrite Z.gtb_ltb. destruct (Z.ltb_spec h (height (chain a))); lia.
  - rewrite Z.gtb_ltb. destruct (Z.ltb_spec h (height (chain a))); lia.
Qed.

(** The report of the launcher. With the nodes of the machine behind its requests, the
    window shows the largest height of the children that answer, how many of them answer,
    and the number of rows in the feed of the first child, the pending ones included and
    500 at most; the requests change no node. *)
Lemma launcher_window w clock (s : Network (D := D)) kid kids :
  let ports := kid :: kids in
  (∀ port a, port ∈ ports → s !! port = Some a → askable a) →
  let up := omap (λ port, s !! port) ports in
  look (http_nodes w clock) s ports =
    (s, (best_height up, size up,
         match s !! kid with Some a => Z.min 500 (size (feed_rows a None)) | None => -1 end)).
Proof.
  intros ports Hs up. unfold look. rewrite poll_nodes by (lia || done). fold up.
  cbn [default head ports from_option]. unfold id. destruct (s !! kid) as [a|] eqn:E.
  - rewrite (count_notes_node _ _ _ _ a E) by (eapply Hs; [by left|done]).
    pose proof (best_height_bound up). do 3 f_equal. lia.
  - unfold count_notes, rpc_get, http_nodes, here. cbn [g_host g_port]. rewrite bool_decide_eq_true_2 by done.
    cbn [negb]. rewrite E. cbn [Z.eqb Pos.eqb negb]. pose proof (best_height_bound up). do 3 f_equal. lia.
Qed.
End window.
