(* ===== verification/SupervisorSpec.v ===== *)
(** * SupervisorSpec: no node outlives the launcher

    The invariant of the launcher between any two of its calls, and what follows from it
    for the processes that it leaves behind, when the calls that it does not check succeed. *)

From S2P Require Import Prelude Hex Text Json Args Serial Tx Verify Wallet Config Launcher Processes Supervisor.

Local Open Scope Z_scope.

(** ** The processes that remain *)

(** A process that goes on when this one ends: no job that is closed then kills it. *)
Definition left_over (v : View) (pid : Z) : Prop :=
  pid ∈ running v ∧ ∀ h j ms, is_job v h j → jobs v !! j = Some (true, ms) → pid ∉ ms.

Definition no_job_handles (v : View) : Prop := ∀ h j, ¬ is_job v h j.

Section supervised.
Context {O : Type} `{WO : WindowsSpec O}.
(** Whether the calls for the job and those that end a process do not fail. *)
Context (jobs_work : Prop) (Hjobs : jobs_work → job_calls_succeed O).
Context (stop_works : Prop) (Hstop : stop_works → terminate_succeeds O).
Context (exe root bits hb : string).

(** The command lines of the first [k] children, on ports that were found free. *)
Definition launched (k : nat) (v : View) : Prop :=
  ∃ p r, (k = 0%nat ∨ ∃ o, find_ports (λ q, port_free (probe o q)) = Some (p, r)) ∧ (k ≤ NODES)%nat ∧
    commands v = map (node_command exe root bits hb p r) (seq 0 k).

(** Where it may be killed: only a process that has not run may remain, and only one. *)
Definition safe (v : View) : Prop :=
  (∃ k, launched k v) ∧
  (jobs_work → ∀ p, left_over v p → p ∈ suspended v ∧ ∀ q, left_over v q → q = p).

(** ** The invariant *)

(** The job holds every child, if no call for it failed. *)
Definition job_ok (v : View) (job : Z) : Prop :=
  job = NULL ∧ ¬ jobs_work ∧ no_job_handles v ∨
  job ≠ NULL ∧ ∃ j b ms, is_job v job j ∧ (∀ h' j', is_job v h' j' → h' = job ∧ j' = j) ∧
    jobs v !! j = Some (b, ms) ∧ (jobs_work → b = true ∧ running v ⊆ ms).

(** The launcher holds a handle of every child. *)
Definition covered (v : View) (kids : list Child) : Prop :=
  ∀ pid, pid ∈ running v → ∃ c, c ∈ kids ∧ handles v !! ch_process c = Some (ProcessObj pid).

Definition kid_ok (v : View) (c : Child) : Prop :=
  (∃ pid, handles v !! ch_thread c = Some (ThreadObj pid)) ∧
  (ch_log c = INVALID_HANDLE_VALUE ∨ handles v !! ch_log c = Some FileObj).

Record Inv (job : Z) (kids : list Child) (p r : Z) (k : nat) (v : View) : Prop := {
  inv_job : job_ok v job;
  inv_covered : covered v kids;
  inv_kids : Forall (kid_ok v) kids;
  inv_commands : commands v = map (node_command exe root bits hb p r) (seq 0 k);
}.

Lemma quiet_refl v : quiet v v.
Proof. by split. Qed.

Lemma q_running v v' : quiet v v' → running v' ⊆ running v.
Proof. intros []. unfold running. set_solver. Qed.

Lemma quiet_is_job v v' h j : quiet v v' → is_job v' h j ↔ is_job v h j.
Proof. intros []. unfold is_job. by rewrite q_handles. Qed.

Lemma job_ok_ext v v' job : handles v' = handles v → jobs v' = jobs v → running v' ⊆ running v →
  job_ok v job → job_ok v' job.
Proof.
  intros Hh Hj Ha [(-> & Hn & Hno)|(Hne & j & b & ms & H1 & H2 & H3 & H4)]; unfold job_ok, no_job_handles, is_job in *;
    rewrite Hh, ?Hj; [by left|]. right. split; [done|]. exists j, b, ms. split_and!; [done..|].
  intros Hw. destruct (H4 Hw) as [-> Hms]. split; [done|by etrans].
Qed.

Lemma inv_quiet job kids p r k v v' : quiet v v' → Inv job kids p r k v → Inv job kids p r k v'.
Proof.
  intros Hq []. pose proof (q_running _ _ Hq) as Hr. split.
  - destruct Hq. by eapply job_ok_ext.
  - intros pid Hpid. destruct Hq. rewrite q_handles. by apply inv_covered0, Hr.
  - destruct Hq. eapply Forall_impl; [done|]. intros c. unfold kid_ok. by rewrite q_handles.
  - destruct Hq. by rewrite q_commands.
Qed.

Lemma job_ok_left_over v job p : job_ok v job → jobs_work → ¬ left_over v p.
Proof.
  intros [(_ & ? & _)|(_ & j & b & ms & H1 & _ & H3 & H4)] Hw [Hp Hl]; [done|].
  destruct (H4 Hw) as [-> Hms]. eapply Hl; [done..|]. by apply Hms.
Qed.

(** Ports that were found. *)
Definition ports_found (p r : Z) : Prop := ∃ o, find_ports (λ q, port_free (probe o q)) = Some (p, r).

Lemma inv_safe job kids p r k v : ports_found p r → (k ≤ NODES)%nat → Inv job kids p r k v → safe v.
Proof.
  intros Hf Hk []. split; [by exists k, p, r; auto|]. intros Hw q Hq. by eapply job_ok_left_over in Hq.
Qed.

(** ** Computations that keep a condition *)

Local Notation on P := (λ o, P (view o)).
Local Notation "{{ P }} m {{ Q }}" := (ends_in (on safe) P m Q) (at level 20, m at level 100).

Definition stable (P : View → Prop) : Prop := ∀ v v', quiet v v' → P v → P v'.

(** A condition that holds throughout a phase. *)
Definition phase (P : View → Prop) : Prop := stable P ∧ ∀ v, P v → safe v.

Lemma phase_syscall {A} P (f : O → O * A) : phase P → (∀ o, quiet (view o) (view (f o).1)) →
  {{ on P }} syscall f {{ λ _, on P }}.
Proof. intros [Hs Hc] Hq. apply calls_syscall; [intros o; apply Hc|]. intros o Ho. by eapply Hs; [apply Hq|]. Qed.

Lemma phase_run P (f : O → O) : phase P → (∀ o, quiet (view o) (view (f o))) → {{ on P }} run f {{ λ _, on P }}.
Proof. intros. by apply phase_syscall. Qed.

Lemma phase_ask {A} P (f : O → A) : phase P → {{ on P }} ask f {{ λ _, on P }}.
Proof. intros. apply phase_syscall; [done|]. intros o. apply quiet_refl. Qed.

Lemma phase_print (P : View → Prop) s : {{ on P }} print s {{ λ _, on P }}.
Proof. by apply calls_print. Qed.

Lemma phase_ret {A} (P : View → Prop) (a : A) : {{ on P }} mret a {{ λ _, on P }}.
Proof. by apply calls_ret. Qed.

Lemma phase_bind {A B} (P : View → Prop) (m : M O A) (f : A → M O B) :
  {{ on P }} m {{ λ _, on P }} → (∀ a, {{ on P }} f a {{ λ _, on P }}) → {{ on P }} m ≫= f {{ λ _, on P }}.
Proof. intros. by eapply calls_bind. Qed.

Lemma phase_inv job kids p r k : ports_found p r → (k ≤ NODES)%nat → phase (Inv job kids p r k).
Proof. split; [intros v v'; apply inv_quiet|intros v; by apply inv_safe]. Qed.

(** Before anything is started. *)
Record idle (v : View) : Prop := {
  idle_running : running v = ∅;
  idle_jobs : no_job_handles v;
  idle_commands : commands v = [];
}.

Lemma safe_dead v k : launched k v → (jobs_work → running v = ∅) → safe v.
Proof. intros Hl He. split; [by exists k|]. intros Hw q [Hq _]. rewrite He in Hq by done. set_solver. Qed.

Lemma phase_idle : phase idle.
Proof.
  split.
  - intros v v' Hq []. split; [pose proof (q_running _ _ Hq); set_solver|intros h j; by rewrite quiet_is_job|by rewrite (q_commands _ _ Hq)].
  - intros v []. apply (safe_dead v 0); [|done]. exists 0, 0. split_and!; [by left|lia|done].
Qed.

(** ** Questions to the nodes *)

Lemma quiet_trans v1 v2 v3 : quiet v1 v2 → quiet v2 v3 → quiet v1 v3.
Proof. intros [] []. split; [by etrans..]. Qed.

Lemma quiet_get o g path : quiet (view o) (view (rpc_get http_req g o path).1).
Proof. apply ws_http. Qed.

(** Take the call that comes next. *)
Ltac quiet_call lem :=
  let Hq := fresh in
  pose proof lem as Hq;
  match type of Hq with quiet _ (view ?c.1) => destruct c as [? ?] end;
  cbn [fst] in Hq.

Lemma rpc_up_quiet o port : quiet (view o) (view (rpc_up http_req o port).1).
Proof. unfold rpc_up. quiet_call (quiet_get o (here port) "/status"). by case_match. Qed.

Lemma all_up_quiet o ports : quiet (view o) (view (all_up http_req o ports).1).
Proof.
  revert o. induction ports as [|port ports IH]; intros o; [apply quiet_refl|]. cbn [all_up].
  quiet_call (rpc_up_quiet o port). case_match; [|done]. by eapply quiet_trans.
Qed.

Lemma poll_quiet o ports h live : quiet (view o) (view (poll http_req o ports h live).1).
Proof.
  revert o h live. induction ports as [|port ports IH]; intros o h live; [apply quiet_refl|]. cbn [poll].
  quiet_call (rpc_up_quiet o port). case_match; by eapply quiet_trans.
Qed.

Lemma count_notes_quiet o port : quiet (view o) (view (count_notes http_req o port).1).
Proof. unfold count_notes. quiet_call (quiet_get o (here port) "/records?limit=500"). by case_match. Qed.

Lemma watch_turn_quiet o ports last : quiet (view o) (view (watch_turn http_req o ports last).1.1).
Proof.
  unfold watch_turn, look. quiet_call (poll_quiet o ports (-1) 0). destruct p as [h live].
  quiet_call (count_notes_quiet o0 (default 0 (head ports))).
  case_match; cbn [fst]; by eapply quiet_trans.
Qed.

Lemma phase_remove P files : phase P → {{ on P }} remove_files files {{ λ _, on P }}.
Proof.
  intros HP. induction files as [|f files IH]; [apply phase_ret|].
  apply phase_bind; [apply phase_run; [done|apply ws_remove_file]|done].
Qed.

Lemma phase_wait_up P n ports : phase P → {{ on P }} wait_up n ports {{ λ _, on P }}.
Proof.
  intros HP. induction n as [|n IH]; [apply phase_ret|]. cbn [wait_up].
  apply phase_bind; [apply phase_syscall; [done|intros; apply all_up_quiet]|]. intros [|]; [apply phase_ret|].
  apply phase_bind; [apply phase_run; [done|apply ws_sleep]|done].
Qed.

Lemma phase_watch_report P ports last : phase P → {{ on P }} watch_report ports last {{ λ _, on P }}.
Proof.
  intros HP. apply phase_bind.
  - apply phase_syscall; [done|]. intros o. pose proof (watch_turn_quiet o ports last) as Hq.
    by destruct (watch_turn http_req o ports last) as [[? ?] ?].
  - intros [l [line|]]; [|apply phase_ret]. apply phase_bind; [by apply phase_ask|]. intros [[hh mm] ss].
    apply phase_bind; [apply phase_print|]. intros _. apply phase_ret.
Qed.

Lemma phase_watch P steps nap ports last : phase P → {{ on P }} watch steps nap ports last {{ λ _, on P }}.
Proof.
  intros HP. revert nap last. induction steps as [|steps IH]; intros nap last; [apply phase_ret|]. cbn [watch].
  case_match; apply phase_bind; [by apply phase_watch_report|done|apply phase_run; [done|apply ws_sleep]|done].
Qed.

Lemma phase_viewer P args rpc0 : phase P → {{ on P }} open_viewer args rpc0 {{ λ _, on P }}.
Proof.
  intros HP. apply phase_bind; [|intros; apply phase_print]. case_match; [|apply phase_print].
  apply phase_bind; [apply phase_print|]. intros _. apply phase_run; [done|apply ws_shell].
Qed.

(** ** The job *)

(** A job object without its limit. *)
Record bare_job (job : Z) (v : View) : Prop := {
  bj_running : running v = ∅;
  bj_commands : commands v = [];
  bj_handle : job ≠ NULL;
  bj_job : ∃ j, is_job v job j ∧ (∀ h' j', is_job v h' j' → h' = job ∧ j' = j) ∧ jobs v !! j = Some (false, ∅);
}.

Lemma bare_job_safe job v : bare_job job v → safe v.
Proof. intros []. apply (safe_dead v 0); [|done]. exists 0, 0. split_and!; [by left|lia|done]. Qed.

Lemma idle_inv v p r : idle v → ¬ jobs_work → Inv NULL [] p r 0 v.
Proof. intros [Ha Hj Hc] Hw. split; [by left|intros pid; rewrite Ha; set_solver|constructor|done]. Qed.

Lemma make_job_spec p r : {{ on idle }} make_job {{ λ job, on (Inv job [] p r 0) }}.
Proof.
  eapply calls_bind with
    (Q := λ job o, job = NULL ∧ idle (view o) ∧ ¬ jobs_work ∨ bare_job job (view o)).
  - apply calls_syscall; [intros o Ho; by apply phase_idle|]. intros o Ho.
    pose proof (ws_create_job o) as Hj. pose proof (λ w, jc_create (Hjobs w) o) as Hne.
    destruct (CreateJobObject o) as [o' h]. cbn [fst snd] in *. destruct Hj as [[-> Hq]|(Hfr & j & Hj & Hq)].
    + left. split_and!; [done|by eapply phase_idle|]. intros Hw. by destruct (Hne Hw).
    + right. pose proof (q_running _ _ Hq) as Qr. destruct Ho as [Ha Hn Hc], Hq as [Qh Qa Qe Qs Qj Qc], Hfr as (_ & Hnull & _).
      cbn in *. split; [unfold running in *; set_solver|congruence|done|].
      exists j. unfold is_job. rewrite Qh, Qj, !lookup_insert_eq. split_and!; [done| |done].
      intros h' j' [[<- [= <-]]|[_ Hh]]%lookup_insert_Some; [done|by apply Hn in Hh].
  - intros job. eapply calls_bind with (Q := λ _, on (Inv job [] p r 0)); [|intros; by apply calls_ret].
    destruct (Z.eqb_spec job NULL) as [->|Hne]; cbn [negb].
    + apply calls_ret. intros o [(_ & Hi & Hw)|[]]; [by apply idle_inv|done].
    + eapply calls_bind with (Q := λ _, on (Inv job [] p r 0)); [|intros; by apply calls_ret].
      apply calls_syscall; intros o [(? & _)|Hb]; [done|by eapply bare_job_safe|done|].
      destruct Hb as [Ha Hc _ (j & H1 & H2 & H3)]. pose proof (ws_set_information job j false ∅ o H1 H3) as Hq.
      pose proof (λ w, jc_limit (Hjobs w) job j _ o H1 H3) as Hok.
      destruct (SetInformationJobObject job o) as [o' ok]. cbn [fst snd] in *.
      apply (inv_quiet _ _ _ _ _ _ _ Hq). destruct ok; (split; [|intros pid; cbn; set_solver|constructor|done]).
      * right. split; [done|]. exists j, true, ∅. split_and!; [done..|apply lookup_insert_eq|].
        intros _. split; [done|]. unfold running in *. cbn. set_solver.
      * right. split; [done|]. exists j, false, ∅. split_and!; [done..|]. intros Hw. by specialize (Hok Hw).
Qed.

(** ** Starting a child *)

Lemma inv_handle job kids p r k v h x : fresh_handle v h → (∀ j, x ≠ JobObj j) →
  Inv job kids p r k v → Inv job kids p r k (set_handles v (<[h := x]> (handles v))).
Proof.
  intros (Hh & _) Hx [Hj Hc Hk ?].
  assert (∀ h' y, handles v !! h' = Some y → <[h := x]> (handles v) !! h' = Some y) as Hold.
  { intros h' y E. rewrite lookup_insert_ne; [done|]. congruence. }
  assert (∀ h' j, is_job (set_handles v (<[h := x]> (handles v))) h' j → is_job v h' j) as Hnew.
  { unfold is_job. cbn [handles set_handles]. intros h' j [[_ E]|[_ E]]%lookup_insert_Some; [by apply Hx in E|done]. }
  split.
  - destruct Hj as [(? & ? & Hn)|(? & j & b & ms & H1 & H2 & H3 & H4)]; [left|right].
    + split_and!; [done..|]. intros h' j ?%Hnew. by eapply Hn.
    + split; [done|]. exists j, b, ms. split_and!; [by apply Hold|intros ? ? ?%Hnew; by apply H2|done..].
  - intros pid (c & ? & ?)%Hc. exists c. split; [done|by apply Hold].
  - eapply Forall_impl; [done|]. intros c [[pid Ht] Hl]. split; [exists pid; by apply Hold|].
    destruct Hl as [|Hl]; [by left|right; by apply Hold].
  - done.
Qed.

(** The last child is not in the job yet, and has not run. *)
Record newborn (job : Z) (kids : list Child) (p r : Z) (k : nat) (c : Child) (pid : Z) (v : View) : Prop := {
  nb_job : job_ok (set_alive v (alive v ∖ {[pid]})) job;
  nb_covered : covered v (kids ++ [c]);
  nb_kids : Forall (kid_ok v) (kids ++ [c]);
  nb_commands : commands v = map (node_command exe root bits hb p r) (seq 0 k);
  nb_suspended : pid ∈ suspended v;
  nb_process : handles v !! ch_process c = Some (ProcessObj pid);
}.

Lemma newborn_safe job kids p r k c pid v : ports_found p r → (k ≤ NODES)%nat →
  newborn job kids p r k c pid v → safe v.
Proof.
  intros Hf Hk []. split; [by exists k, p, r; auto|]. intros Hw.
  assert (∀ q, left_over v q → q = pid) as Hl.
  { intros q [Hq Hl]. destruct (decide (q = pid)); [done|]. exfalso.
    apply (job_ok_left_over (set_alive v (alive v ∖ {[pid]})) job q nb_job0 Hw). split; [unfold running in *; cbn; set_solver|done]. }
  intros q Hq. rewrite (Hl q Hq). split; [done|apply Hl].
Qed.

(** The process is made: it is suspended, and only it is outside of the job. *)
Lemma create_newborn job kids p r k v v' h t pid log rpc : Inv job kids p r k v →
  h ≠ t → fresh_handle v h → fresh_handle v t → log = INVALID_HANDLE_VALUE ∨ handles v !! log = Some FileObj →
  pid ∉ alive v → pid ∉ ending v →
  quiet (mkView (<[h := ProcessObj pid]> (<[t := ThreadObj pid]> (handles v))) ({[pid]} ∪ alive v) (ending v)
           ({[pid]} ∪ suspended v) (jobs v) (commands v ++ [node_command exe root bits hb p r k])) v' →
  newborn job kids p r (S k) (mkChild h t log rpc) pid v'.
Proof.
  intros Hi Hht Hh Ht Hl Hnew Hend Hq.
  assert (fresh_handle (set_handles v (<[t := ThreadObj pid]> (handles v))) h) as Hh'.
  { destruct Hh as (? & ?). split; [by apply lookup_insert_None|done]. }
  pose proof (inv_handle _ _ _ _ _ _ t (ThreadObj pid) Ht ltac:(done) Hi) as Hi1.
  pose proof (inv_handle _ _ _ _ _ _ h (ProcessObj pid) Hh' ltac:(done) Hi1) as [Hj Hc Hk Hm].
  clear Hi1. set (m := <[h := ProcessObj pid]> _) in *.
  assert (handles v' = m) as Em by apply (q_handles _ _ Hq).
  assert (m !! h = Some (ProcessObj pid)) as Eh by apply lookup_insert_eq.
  assert (m !! t = Some (ThreadObj pid)) as Et by (unfold m; rewrite lookup_insert_ne by done; apply lookup_insert_eq).
  destruct Hq as [Qh Qa Qe Qs Qj Qc]. cbn in *. unfold covered, running in *. cbn in *. split.
  - eapply job_ok_ext; [..|exact Hj]; cbn; [done..|unfold running; cbn; set_solver].
  - intros q Hq. unfold running in Hq. rewrite Em. destruct (decide (q = pid)) as [->|Hne].
    + exists (mkChild h t log rpc). split; [set_solver|done].
    + destruct (Hc q) as (c & Hin & E); [cbn; set_solver|]. exists c. split; [set_solver|done].
  - apply Forall_app. split.
    + eapply Forall_impl; [exact Hk|]. intros c. unfold kid_ok. cbn. by rewrite Em.
    + apply Forall_singleton. split; [by exists pid; rewrite Em|]. destruct Hl as [|Hl]; [by left|right].
      cbn. rewrite Em. unfold m. destruct Hh as [Hh _], Ht as [Ht _]. rewrite !lookup_insert_ne by congruence. done.
  - rewrite Qc, seq_S, map_app, Nat.add_0_l. f_equal. apply Hi.
  - set_solver.
  - by rewrite Em.
Qed.

Lemma assign_newborn job kids p r k c pid o : newborn job kids p r k c pid (view o) →
  Inv job (kids ++ [c]) p r k (view (AssignProcessToJobObject job (ch_process c) o).1).
Proof.
  intros [[(-> & Hw & Hn)|(Hne & j & b & ms & H1 & H2 & H3 & H4)] Hc Hk Hm Hs Hp].
  - eapply inv_quiet; [apply ws_assign_null|]. split; [by left|done..].
  - pose proof (ws_assign job (ch_process c) j b ms pid o Hne H1 H3 Hp) as Hq.
    pose proof (λ w, jc_assign (Hjobs w) job j _ (ch_process c) pid o Hne H1 H3 Hp) as Hok.
    destruct (AssignProcessToJobObject job (ch_process c) o) as [o' ok]. cbn [fst snd] in *.
    apply (inv_quiet _ _ _ _ _ _ _ Hq). destruct ok; (split; [|done..]); right; (split; [done|]).
    + exists j, b, ({[pid]} ∪ ms). split_and!; [done..|apply lookup_insert_eq|]. intros Hw.
      destruct (H4 Hw) as [-> Hms]. split; [done|]. unfold running in *. cbn in *.
      intros q Hq'. destruct (decide (q = pid)); set_solver.
    + exists j, b, ms. split_and!; [done..|]. intros Hw. destruct (H4 Hw) as [-> Hms]. split; [done|].
      unfold running in *. cbn in *. intros q Hq'. destruct (decide (q = pid)) as [->|]; [|set_solver].
      by specialize (Hok Hw Hq').
Qed.

(** What is found after [spawn_node]: another child, or what was there before. *)
Definition spawned (job : Z) (kids : list Child) (p r : Z) (k : nat) (rpc : Z) (res : option (Z * Z * Z)) : View → Prop :=
  match res with
  | None => Inv job kids p r k
  | Some (h, t, log) => Inv job (kids ++ [mkChild h t log rpc]) p r (S k)
  end.

(** The log file of the next child, which can be closed again. *)
Definition log_open (job : Z) (kids : list Child) (p r : Z) (k : nat) (log : Z) (v : View) : Prop :=
  Inv job kids p r k v ∧
  (log = INVALID_HANDLE_VALUE ∨
   handles v !! log = Some FileObj ∧ Inv job kids p r k (set_handles v (delete log (handles v)))).

Lemma log_open_quiet job kids p r k log v v' : quiet v v' → log_open job kids p r k log v → log_open job kids p r k log v'.
Proof.
  intros Hq [Hi Hl]. split; [by eapply inv_quiet|]. destruct Hl as [|[E Hd]]; [by left|right].
  split; [by rewrite (q_handles _ _ Hq)|]. eapply inv_quiet; [|exact Hd].
  destruct Hq. split; cbn; [by f_equal|done..].
Qed.

Lemma log_open_new job kids p r k log v v' : Inv job kids p r k v → fresh_handle v log →
  quiet (set_handles v (<[log := FileObj]> (handles v))) v' → log_open job kids p r k log v'.
Proof.
  intros Hi Hfr Hq. eapply log_open_quiet; [exact Hq|]. split; [by apply inv_handle|right].
  split; [apply lookup_insert_eq|]. cbn. rewrite delete_insert_id by apply Hfr. by destruct v.
Qed.

Lemma spawn_node_spec job kids p r k rpc logpath : ports_found p r → (k < NODES)%nat →
  {{ on (Inv job kids p r k) }} spawn_node exe (node_command exe root bits hb p r k) logpath job
  {{ λ res, on (spawned job kids p r k rpc res) }}.
Proof.
  intros Hf Hk. assert (∀ v, Inv job kids p r k v → safe v) as Hsafe by (intros v; apply inv_safe; [done|lia]).
  eapply calls_bind with (Q := λ log, on (log_open job kids p r k log)).
  { apply calls_syscall; [intros o; apply Hsafe|]. intros o Ho. pose proof (ws_create_file logpath o) as Hc.
    destruct (CreateFile logpath o) as [o' log]. cbn [fst snd]. destruct Hc as [[-> Hq]|[Hfr Hq]].
    - split; [by eapply inv_quiet|by left].
    - by eapply log_open_new. }
  intros log.
  eapply calls_bind with (Q := λ pi o, match pi with
    | None => log_open job kids p r k log (view o)
    | Some (h, t) => ∃ pid, newborn job kids p r (S k) (mkChild h t log rpc) pid (view o)
    end).
  { apply calls_syscall; [intros o [Ho _]; by apply Hsafe|]. intros o [Ho Hl].
    pose proof (ws_create_process exe (node_command exe root bits hb p r k) log o) as Hc.
    destruct (CreateProcess _ _ _ _) as [o' [[h t]|]]; cbn [fst snd].
    - destruct Hc as (Hht & Hh & Ht & pid & Hn & He & Hq). exists pid. eapply create_newborn; [done|done|done|done| |done|done|done]. naive_solver.
    - by eapply log_open_quiet; [|split]. }
  intros [[h t]|].
  - eapply calls_bind with (Q := λ _, on (Inv job (kids ++ [mkChild h t log rpc]) p r (S k))).
    { apply calls_syscall; intros o [pid Ho]; [eapply newborn_safe; [done| |done]; lia|].
      by apply (assign_newborn job kids p r (S k) (mkChild h t log rpc) pid). }
    intros _. eapply calls_bind with (Q := λ _, on (Inv job (kids ++ [mkChild h t log rpc]) p r (S k)));
      [|intros; by apply calls_ret].
    apply calls_syscall; intros o Ho; [eapply inv_safe; [done| |done]; lia|].
    pose proof (inv_kids _ _ _ _ _ _ Ho) as [_ [[[pid Ht] _] _]%Forall_cons]%Forall_app. cbn in Ht.
    pose proof (ws_resume t pid o Ht) as Hq. destruct (ResumeThread t o) as [o' ok]. cbn [fst snd].
    apply (inv_quiet _ _ _ _ _ _ _ Hq). destruct ok; [|done]. destruct Ho as [Hj Hc Hks Hm].
    split; [by eapply job_ok_ext; [..|exact Hj]|done..].
  - eapply calls_bind with (Q := λ _, on (Inv job kids p r k)); [|intros; by apply calls_ret].
    destruct (Z.eqb_spec log INVALID_HANDLE_VALUE) as [|Hne]; cbn [negb]; [apply calls_ret; by intros o [? _]|].
    apply calls_run; intros o [Ho Hl]; [by apply Hsafe|]. destruct Hl as [|[Hl Hd]]; [done|].
    eapply inv_quiet; [|exact Hd]. apply ws_close. unfold is_job. rewrite Hl. by intros j.
Qed.

(** ** Stopping *)

(** No child that runs needs this handle. *)
Definition spare (v : View) (h : Z) : Prop := ∀ pid, handles v !! h = Some (ProcessObj pid) → pid ∉ running v.

Definition spare_child (v : View) (c : Child) : Prop :=
  spare v (ch_thread c) ∧ (ch_log c = INVALID_HANDLE_VALUE ∨ spare v (ch_log c)).

(** Handles are closed and processes end. *)
Record fewer (v v' : View) : Prop := {
  f_handles : handles v' ⊆ handles v;
  f_running : running v' ⊆ running v;
}.

Lemma quiet_fewer v v' : quiet v v' → fewer v v'.
Proof. intros Hq. split; [by rewrite (q_handles _ _ Hq)|by apply q_running]. Qed.

Lemma fewer_handle v v' h x : fewer v v' → handles v' !! h = Some x → handles v !! h = Some x.
Proof. intros [Hh _] E. by eapply lookup_weaken. Qed.

Lemma spare_fewer v v' h : fewer v v' → spare v h → spare v' h.
Proof. intros Hf Hs pid E%(fewer_handle v) Hp%(f_running v); [by eapply Hs|done..]. Qed.

Lemma spare_child_fewer v v' c : fewer v v' → spare_child v c → spare_child v' c.
Proof. intros Hf [? []]; split; eauto using spare_fewer. Qed.

Lemma kid_spare v c : kid_ok v c → spare_child v c.
Proof.
  intros [[q Ht] Hl]. split; [intros pid; by rewrite Ht|]. destruct Hl as [|Hl]; [by left|right].
  intros pid. by rewrite Hl.
Qed.

(** The job is closed; the children that it did not kill are to be ended. *)
Record closed (p r : Z) (k : nat) (kids : list Child) (v : View) : Prop := {
  cl_jobs : no_job_handles v;
  cl_covered : stop_works → covered v kids;
  cl_kids : Forall (spare_child v) kids;
  cl_commands : commands v = map (node_command exe root bits hb p r) (seq 0 k);
  cl_running : jobs_work → running v = ∅;
}.

Lemma closed_fewer p r k kids v v' : fewer v v' → commands v' = commands v → (stop_works → covered v' kids) →
  closed p r k kids v → closed p r k kids v'.
Proof.
  intros Hf Hcm Hcov []. split; [|done|by eapply Forall_impl; eauto using spare_child_fewer|congruence|].
  - intros h j ?%(fewer_handle v); [by eapply cl_jobs0|done].
  - intros Hw. apply cl_running0 in Hw. destruct Hf. set_solver.
Qed.

Lemma closed_stable p r k kids : stable (closed p r k kids).
Proof.
  intros v v' Hq Hc. apply (closed_fewer _ _ _ _ v); [by apply quiet_fewer|apply Hq| |done].
  intros Hw pid Hp%(q_running _ _ Hq). rewrite (q_handles _ _ Hq). by eapply cl_covered.
Qed.

Lemma closed_safe p r k kids v : ports_found p r → (k ≤ NODES)%nat → closed p r k kids v → safe v.
Proof. intros Hf Hk []. apply (safe_dead v k); [|done]. exists p, r. auto. Qed.

(** The first child has ended, its handles are still to be closed. *)
Definition ended (p r : Z) (k : nat) (c : Child) (kids : list Child) (v : View) : Prop :=
  closed p r k kids v ∧ (stop_works → spare v (ch_process c)) ∧ spare_child v c.

Lemma terminate_ended p r k c kids o : closed p r k (c :: kids) (view o) →
  ended p r k c kids (view (TerminateProcess (ch_process c) o).1).
Proof.
  intros Ho. pose proof (ws_terminate (ch_process c) o) as Hq.
  assert (stop_works → spare (view (TerminateProcess (ch_process c) o).1) (ch_process c)) as Hd.
  { intros Hw pid E. rewrite (q_handles _ _ Hq) in E. destruct (decide (pid ∈ running (view o))) as [Hr|Hr].
    - by apply ws_terminated, (Hstop Hw _ pid).
    - intros Hr'. by apply Hr, (q_running _ _ Hq). }
  pose proof (closed_stable _ _ _ _ _ _ Hq Ho) as []. split_and!; [|done|by apply Forall_inv in cl_kids0].
  split; [done| |by eapply Forall_inv_tail|done..].
  intros Hw pid Hp. destruct (cl_covered0 Hw pid Hp) as (c' & [->|Hc]%elem_of_cons & E); [by apply Hd in E|by exists c'].
Qed.

Lemma close_ended p r k c kids h o : (stop_works → spare (view o) h) → ended p r k c kids (view o) →
  ended p r k c kids (view (CloseHandle h o)).
Proof.
  intros Hh (Hc & Hp & Hk). pose proof (ws_close h o (λ j, cl_jobs _ _ _ _ _ Hc h j)) as Hq.
  pose proof (q_running _ _ Hq) as Qr. destruct Hq as [Qh Qa Qe _ _ Qc]. cbn in *.
  assert (fewer (view o) (view (CloseHandle h o))) as Hf by (split; [rewrite Qh; apply delete_subseteq|exact Qr]).
  split_and!; [|intros Hw; by eapply spare_fewer; [|apply Hp]|by eapply spare_child_fewer].
  eapply closed_fewer; [done..| |exact Hc]. intros Hw pid Hpid.
  destruct (cl_covered _ _ _ _ _ Hc Hw pid) as (c' & Hc' & E); [by apply Qr|].
  exists c'. split; [done|]. rewrite Qh. apply lookup_delete_Some. split; [|done]. intros ->. by eapply (Hh Hw), Qr.
Qed.

Lemma stop_nodes_spec p r k kids : ports_found p r → (k ≤ NODES)%nat →
  {{ on (closed p r k kids) }} stop_nodes kids {{ λ _, on (closed p r k []) }}.
Proof.
  intros Hf Hk. induction kids as [|c kids IH]; [by apply calls_ret|].
  assert (∀ kids v, closed p r k kids v → safe v) as Hsafe by (intros; by eapply closed_safe).
  assert (∀ h, (∀ v, ended p r k c kids v → stop_works → spare v h) →
    {{ on (ended p r k c kids) }} run (CloseHandle h) {{ λ _, on (ended p r k c kids) }}) as Hclose.
  { intros h Hh. apply calls_run; intros o Ho; [by eapply Hsafe, Ho|by apply close_ended; [apply Hh|]]. }
  eapply calls_bind with (Q := λ _, on (closed p r k (c :: kids))).
  { apply phase_run; [split; [apply closed_stable|apply Hsafe]|apply ws_wait]. }
  intros _. eapply calls_bind with (Q := λ _, on (ended p r k c kids)).
  { apply calls_syscall; intros o Ho; [by eapply Hsafe|by apply terminate_ended]. }
  intros _. eapply calls_bind; [apply Hclose; by intros v (_ & _ & ? & _) _|].
  intros []. eapply calls_bind; [apply Hclose; by intros v (_ & ? & _)|].
  intros []. eapply calls_bind with (Q := λ _, on (ended p r k c kids)).
  - destruct (Z.eqb_spec (ch_log c) INVALID_HANDLE_VALUE); cbn [negb]; [by apply calls_ret|].
    apply Hclose. by intros v (_ & _ & _ & [|]) _.
  - intros _. eapply calls_pre; [|exact IH]. by intros o [? _].
Qed.

(** ** The whole run *)

Lemma close_job_spec job kids p r k : ports_found p r → (k ≤ NODES)%nat →
  {{ on (Inv job kids p r k) }} close_job job {{ λ _, on (closed p r k kids) }}.
Proof.
  intros Hf Hk. unfold close_job.
  assert (∀ v, Inv job kids p r k v → Forall (spare_child v) kids) as Hsp.
  { intros v []. eapply Forall_impl; [done|]. apply kid_spare. }
  destruct (Z.eqb_spec job NULL) as [->|Hne]; cbn [negb].
  - apply calls_ret. intros o Hi. pose proof (Hsp _ Hi). destruct Hi as [[(_ & Hw & Hn)|[? _]] ? ? ?]; [by split|done].
  - apply calls_run; intros o Hi; [by eapply inv_safe|]. pose proof (Hsp _ Hi) as Hs.
    destruct Hi as [[[-> _]|(_ & j & b & ms & H1 & H2 & H3 & H4)] Hc Hks Hm]; [done|].
    assert (fewer (view o) (view (CloseHandle job o)) ∧ handles (view (CloseHandle job o)) = delete job (handles (view o)) ∧
      commands (view (CloseHandle job o)) = commands (view o) ∧
      (b = true → running (view (CloseHandle job o)) ⊆ running (view o) ∖ ms)) as (Hfe & Qh & Qc & Hb).
    { destruct b.
      - pose proof (ws_close_job job j ms o ltac:(split; [done|intros h Hh; by apply H2 in Hh as [-> _]]) H3) as Hq.
        pose proof (q_running _ _ Hq) as Qr. destruct Hq as [Qh Qa Qe _ Qj Qc]. unfold running in *. cbn in *.
        split_and!; [split; [rewrite Qh; apply delete_subseteq|unfold running; set_solver]|done..|set_solver].
      - pose proof (ws_close_bare job j ms o H1 H3) as Hq.
        pose proof (q_running _ _ Hq) as Qr. destruct Hq as [Qh Qa Qe _ Qj Qc]. cbn in *.
        split_and!; [split; [rewrite Qh; apply delete_subseteq|exact Qr]|done..]. }
    split.
    + intros h j' E. unfold is_job in E. rewrite Qh in E. apply lookup_delete_Some in E as [Hne' E].
      apply H2 in E as [-> _]. done.
    + intros _ pid Hp. destruct (Hc pid) as (c & Hin & E); [by apply (f_running _ _ Hfe)|]. exists c. split; [done|].
      rewrite Qh. apply lookup_delete_Some. split; [|done]. intros Ej. unfold is_job in H1. rewrite Ej, E in H1. discriminate H1.
    + by eapply Forall_impl; eauto using spare_child_fewer.
    + congruence.
    + intros Hw. destruct (H4 Hw) as [Eb Hms]. specialize (Hb Eb). set_solver.
Qed.

(** How the launcher returns. *)
Record finished (code : Z) (v : View) : Prop := {
  fi_code : code = 0 ∨ code = 1;
  fi_running : code = 0 ∧ stop_works ∨ jobs_work → running v = ∅;
  fi_launched : ∃ k, launched k v ∧ (code = 0 → k = NODES);
}.

Lemma closed_failed p r k kids v : ports_found p r → (k ≤ NODES)%nat → closed p r k kids v → finished 1 v.
Proof.
  intros Hf Hk []. split; [by right|by intros [[? _]|]; [done|auto]|]. exists k. split; [|done]. exists p, r. auto.
Qed.

Lemma closed_done p r v : ports_found p r → closed p r NODES [] v → finished 0 v.
Proof.
  intros Hf []. split; [by left| |].
  - intros [[_ Hw]|Hw]; [|by apply cl_running0]. apply set_eq. intros pid. split; [|set_solver].
    intros (c & Hc & _)%(cl_covered0 Hw). by apply not_elem_of_nil in Hc.
  - exists NODES. split; [|done]. exists p, r. auto.
Qed.

Lemma start_nodes_spec job p r m k kids : ports_found p r → (k + m ≤ NODES)%nat →
  {{ on (Inv job kids p r k) }} start_nodes exe root bits hb p r job (seq k m) kids
  {{ λ res, on (match res with inl kids => Inv job kids p r (k + m) | inr code => finished code end) }}.
Proof.
  intros Hf. revert k kids. induction m as [|m IH]; intros k kids Hk; cbn [seq start_nodes].
  { apply calls_ret. by rewrite Nat.add_0_r. }
  assert (phase (Inv job kids p r k)) as Hph by (apply phase_inv; [done|lia]).
  eapply calls_bind; [apply (phase_run (Inv job kids p r k)); [done|apply ws_create_directories]|]. intros [].
  eapply calls_bind; [apply (spawn_node_spec job kids p r k (u16 (r + Z.of_nat k))); [done|lia]|].
  intros [[[h t] log]|]; cbn [spawned].
  - eapply calls_bind; [apply phase_print|]. intros [].
    rewrite <- Nat.add_succ_comm. apply (IH (S k) _ ltac:(lia)).
  - eapply calls_bind; [apply (phase_ask (Inv job kids p r k)); done|]. intros e.
    eapply calls_bind; [apply (phase_print (Inv job kids p r k))|]. intros [].
    eapply calls_bind; [apply close_job_spec; [done|lia]|]. intros [].
    apply calls_ret. intros o. apply closed_failed; [done|lia].
Qed.

Lemma run_network_spec args p r steps : ports_found p r →
  {{ on idle }} run_network args exe root bits hb p r steps {{ λ code, on (finished code) }}.
Proof.
  intros Hf. eapply calls_bind; [apply (make_job_spec p r)|]. intros job.
  eapply calls_bind; [apply (phase_print (Inv job [] p r 0))|]. intros [].
  eapply calls_bind; [apply (start_nodes_spec job p r NODES 0 []); [done|lia]|].
  intros [kids|code]; [|by apply calls_ret]. rewrite Nat.add_0_l. cbv zeta.
  assert (phase (Inv job kids p r NODES)) as Hph by (by apply phase_inv).
  eapply calls_bind; [apply (phase_wait_up _ 100 (map ch_rpc kids) Hph)|]. intros [|]; cbn [negb].
  - eapply calls_bind; [apply (phase_print (Inv job kids p r NODES))|]. intros [].
    eapply calls_bind; [by apply (phase_viewer (Inv job kids p r NODES))|]. intros [].
    eapply calls_bind; [by apply (phase_watch (Inv job kids p r NODES))|]. intros [].
    eapply calls_bind; [apply (phase_print (Inv job kids p r NODES))|]. intros [].
    eapply calls_bind; [by apply close_job_spec|]. intros [].
    eapply calls_bind; [by apply stop_nodes_spec|]. intros [].
    eapply calls_bind; [apply (phase_print (closed p r NODES []))|]. intros [].
    apply calls_ret. intros o. by apply closed_done.
  - eapply calls_bind; [apply (phase_print (Inv job kids p r NODES))|]. intros [].
    eapply calls_bind; [by apply close_job_spec|]. intros [].
    apply calls_ret. intros o. by apply closed_failed.
Qed.

Lemma supervise_spec args steps o0 :
  exe = exe_path o0 → root = data_root exe args → bits = get args "bits" "18" → hb = get args "heartbeat" "12" →
  {{ λ o, o = o0 ∧ idle (view o) }} supervise args steps {{ λ code, on (finished code) }}.
Proof.
  intros He Hr Hb Hh. eapply calls_bind with (Q := λ e o, e = exe ∧ idle (view o)).
  { apply calls_syscall; [intros o [_ Ho]; by apply phase_idle|]. intros o [-> Ho]. done. }
  intros e. apply calls_pure. intros ->. cbv zeta. rewrite <- Hr, <- Hb, <- Hh.
  eapply calls_bind; [apply (phase_run idle); [apply phase_idle|apply ws_create_directories]|]. intros [].
  eapply calls_bind with (Q := λ _, on idle).
  { case_match; [|apply (phase_ret idle)]. apply (phase_bind idle); [apply phase_remove, phase_idle|].
    intros _. apply (phase_print idle). }
  intros []. eapply calls_bind with (Q := λ ports o, idle (view o) ∧
    match ports with Some (p, r) => ports_found p r | None => True end).
  { apply calls_syscall; [intros o Ho; by apply phase_idle|]. intros o Ho. cbn [fst snd]. split; [done|].
    destruct (find_ports _) as [[p r]|] eqn:E; [by exists o|done]. }
  intros [[p r]|].
  - eapply calls_pre with (P' := λ o, ports_found p r ∧ idle (view o)); [by intros o [? ?]|].
    apply calls_pure. intros Hf. eapply calls_bind; [apply (phase_print idle)|]. intros []. by apply run_network_spec.
  - eapply calls_pre with (P' := on idle); [by intros o [? _]|].
    eapply calls_bind; [apply (phase_print idle)|]. intros [].
    apply calls_ret. intros o [Ha Hj Hc]. split; [by right|done|]. exists 0%nat. split; [|done].
    exists 0, 0. split_and!; [by left|lia|done].
Qed.
End supervised.

(** ** How many calls it makes *)

Section calls.
Local Open Scope nat_scope.
Context {O : Type} `{WO : Windows O}.

(** With [n] calls left it is not killed. *)
Definition takes {A} (n : nat) (m : M O A) : Prop :=
  ∀ w, (n ≤ left w)%nat → ∃ w' a, m w = (w', Some a) ∧ (left w ≤ left w' + n)%nat.

Lemma takes_ret {A} n (a : A) : takes n (mret a).
Proof. intros w Hw. exists w, a. split; [done|lia]. Qed.

Lemma takes_print n s : takes n (print s).
Proof. intros w Hw. eexists _, tt. split; [done|]. cbn. lia. Qed.

Lemma takes_syscall {A} n (f : O → O * A) : (0 < n)%nat → takes n (syscall f).
Proof.
  intros Hn w Hw. unfold syscall. destruct (left w) as [|l]; [lia|]. destruct (f (os w)) as [o a].
  eexists _, a. split; [done|]. cbn. lia.
Qed.

Lemma takes_bind {A B} n n' (m : M O A) (f : A → M O B) :
  takes n m → (n ≤ n')%nat → (∀ a, (∃ w w', m w = (w', Some a)) → takes (n' - n) (f a)) → takes n' (m ≫= f).
Proof.
  intros Hm Hn Hf w Hw. destruct (Hm w ltac:(lia)) as (w1 & a & E1 & H1). unfold mbind, m_bind. rewrite E1.
  destruct (Hf a ltac:(eauto) w1 ltac:(lia)) as (w2 & b & E2 & H2). exists w2, b. split; [done|lia].
Qed.

Lemma takes_le {A} n n' (m : M O A) : (n ≤ n')%nat → takes n m → takes n' m.
Proof. intros Hn Hm w Hw. destruct (Hm w ltac:(lia)) as (w' & a & ? & ?). exists w', a. split; [done|lia]. Qed.
End calls.

Create HintDb calls.
#[export] Hint Resolve takes_ret takes_print : calls.
#[export] Hint Extern 2 (takes _ (syscall _)) => apply takes_syscall; lia : calls.
#[export] Hint Extern 2 (takes _ (run _)) => apply takes_syscall; lia : calls.
#[export] Hint Extern 2 (takes _ (ask _)) => apply takes_syscall; lia : calls.

(** The next command takes [n] calls. *)
Tactic Notation "takes_step" constr(n) := eapply (takes_bind n); [solve [eauto with calls]|lia|intros ? _].

Section bounds.
Local Open Scope nat_scope.
Context {O : Type} `{WO : Windows O}.

Lemma spawn_node_takes exe cmd logpath job : takes 4 (spawn_node (O := O) exe cmd logpath job).
Proof.
  takes_step 1. takes_step 1. destruct a0 as [[h t]|].
  - takes_step 1. takes_step 1. auto with calls.
  - apply (takes_bind 1); [case_match; auto with calls|lia|]. intros ? _. auto with calls.
Qed.

Lemma close_job_takes job : takes 1 (close_job (O := O) job).
Proof. unfold close_job. case_match; auto with calls. Qed.

Lemma start_nodes_takes exe root bits hb p r job nodes kids :
  takes (2 + 5 * length nodes) (start_nodes (O := O) exe root bits hb p r job nodes kids).
Proof.
  revert kids. induction nodes as [|i nodes IH]; intros kids; [apply takes_ret|]. cbn [start_nodes length].
  takes_step 1. eapply (takes_bind 4); [apply spawn_node_takes|lia|]. intros [[[h t] log]|] _.
  - takes_step 0. eapply takes_le; [|apply IH]. lia.
  - takes_step 1. takes_step 0. eapply (takes_bind 1); [apply close_job_takes|lia|]. intros ? _. auto with calls.
Qed.

Lemma wait_up_takes n ports : takes (2 * n) (wait_up (O := O) n ports).
Proof.
  induction n as [|n IH]; [apply takes_ret|]. cbn [wait_up]. takes_step 1. destruct a; [auto with calls|].
  takes_step 1. eapply takes_le; [|apply IH]. lia.
Qed.

Lemma watch_takes steps nap ports last : takes (2 * steps) (watch (O := O) steps nap ports last).
Proof.
  revert nap last. induction steps as [|steps IH]; intros nap last; [apply takes_ret|]. cbn [watch]. case_match.
  - eapply (takes_bind 2); [|lia|intros l _; eapply takes_le; [|apply IH]; lia].
    takes_step 1. destruct a as [l [line|]]; cbn [fst snd]; [|auto with calls]. takes_step 1. destruct a as [[hh mm] ss].
    takes_step 0. auto with calls.
  - takes_step 1. eapply takes_le; [|apply IH]. lia.
Qed.

Lemma stop_nodes_takes kids : takes (5 * length kids) (stop_nodes (O := O) kids).
Proof.
  induction kids as [|c kids IH]; [apply takes_ret|]. cbn [stop_nodes length].
  do 4 takes_step 1. eapply (takes_bind 1); [case_match; auto with calls|lia|].
  intros _ _. eapply takes_le; [|apply IH]. lia.
Qed.

Lemma remove_files_takes files : takes (length files) (remove_files (O := O) files).
Proof.
  induction files as [|f files IH]; [apply takes_ret|]. cbn [remove_files length].
  takes_step 1. eapply takes_le; [|apply IH]. lia.
Qed.

(** All children are there when the loop is done. *)
Lemma start_nodes_length exe root bits hb p r job nodes kids w w' kids' :
  start_nodes (O := O) exe root bits hb p r job nodes kids w = (w', Some (inl kids')) →
  length kids' = (length kids + length nodes)%nat.
Proof.
  revert kids w. induction nodes as [|i nodes IH]; intros kids w.
  - intros [= _ ->]. cbn. lia.
  - cbn [start_nodes length]. unfold mbind, m_bind. destruct (run _ w) as [w1 [[]|]]; [|done].
    destruct (spawn_node _ _ _ _ w1) as [w2 [[[[h t] log]|]|]]; [|intros E; by repeat (case_match; simplify_eq)..].
    unfold print. intros E%IH. rewrite length_app in E. cbn in E. lia.
Qed.

Lemma run_network_takes args exe root bits hb p r steps :
  takes (236 + 2 * steps) (run_network (O := O) args exe root bits hb p r steps).
Proof.
  eapply (takes_bind 2).
  { takes_step 1. eapply (takes_bind 1); [case_match; [takes_step 1|]; auto with calls|lia|]. intros _ _. auto with calls. }
  { lia. }
  intros job _. takes_step 0. eapply (takes_bind 17); [apply (start_nodes_takes _ _ _ _ _ _ _ (seq 0 NODES))|lia|].
  intros [kids|code] (w & w' & E); [|auto with calls]. apply start_nodes_length in E. cbn in E. cbv zeta.
  eapply (takes_bind 200); [apply (wait_up_takes 100)|lia|]. intros up _. destruct (negb up).
  - takes_step 0. eapply (takes_bind 1); [apply close_job_takes|lia|]. intros _ _. auto with calls.
  - takes_step 0. eapply (takes_bind 1); [|lia|].
    { eapply (takes_bind 1); [case_match; [takes_step 0|]; auto with calls|lia|]. intros _ _. auto with calls. }
    intros _ _. eapply (takes_bind (2 * steps)); [apply watch_takes|lia|]. intros _ _. takes_step 0.
    eapply (takes_bind 1); [apply close_job_takes|lia|]. intros _ _.
    eapply (takes_bind 15); [eapply takes_le; [|apply stop_nodes_takes]; lia|lia|]. intros _ _.
    takes_step 0. auto with calls.
Qed.

(** The launcher makes a bounded number of calls until Ctrl+C. *)
Lemma supervise_takes args steps : takes (248 + 2 * steps) (supervise (O := O) args steps).
Proof.
  takes_step 1. cbv zeta. takes_step 1. eapply (takes_bind 9); [|lia|].
  { case_match; [|auto with calls]. eapply (takes_bind 9); [apply (remove_files_takes (reset_files _))|lia|].
    intros _ _. auto with calls. }
  intros _ _. takes_step 1. destruct a1 as [[p r]|].
  - takes_step 0. eapply takes_le; [|apply run_network_takes]. lia.
  - takes_step 0. auto with calls.
Qed.
End bounds.

(** A process that has made nothing yet. *)
Definition newly_started (v : View) : Prop := running v = ∅ ∧ commands v = [] ∧ no_job_handles v.

(** C26: no node outlives the launcher, if the calls that it does not check succeed. However
    the launcher ends, by returning or by being killed between any two of its calls
    ([calls]: after how many), the processes it has made are the first [k] of its three
    nodes. If no call for its job object fails ([job_calls_succeed]), then after any return
    each of them has ended or is being ended by the system, and after a kill only one can go
    on, the one that is not in the job yet, which is suspended and has run nothing. If
    [TerminateProcess] does not fail ([terminate_succeeds]), the first also holds after a
    return with 0 without a job. Nothing is promised otherwise. It returns, if it is not
    killed in the first 248 calls and two more for each turn until Ctrl+C. *)
Theorem no_node_outlives {O : Type} `{WO : WindowsSpec O} args steps calls (o : O) : newly_started (view o) →
  let '(o', _, code) := process (supervise args steps) calls o in
  let exe := exe_path o in
  (∃ k, launched exe (data_root exe args) (get args "bits" "18") (get args "heartbeat" "12") k (view o') ∧
        (code = Some 0 → k = NODES)) ∧
  (code = None ∨ code = Some 0 ∨ code = Some 1) ∧
  (code = None → (calls < 248 + 2 * steps)%nat) ∧
  (code = Some 0 → terminate_succeeds O → running (view o') = ∅) ∧
  (job_calls_succeed O →
    (code ≠ None → running (view o') = ∅) ∧
    ∀ p, p ∈ running (view o') → p ∈ suspended (view o') ∧ ∀ q, q ∈ running (view o') → q = p).
Proof.
  intros (Ha & Hc & Hn). unfold process.
  pose proof (supervise_spec _ (λ w : job_calls_succeed O, w) _ (λ w : terminate_succeeds O, w) _ _ _ _ args steps o
    eq_refl eq_refl eq_refl eq_refl (mkWorld o "" calls) ltac:(done)) as H1.
  pose proof (supervise_takes args steps (mkWorld o "" calls)) as Ht. cbn [left] in Ht.
  destruct (supervise args steps (mkWorld o "" calls)) as [[o' out n] [code|]]; cbn [os shown] in *;
    destruct (ws_exit o') as (Qs & Qc & Qa & Qe & Qj);
    assert (running (view (ExitProcess o')) ⊆ running (view o')) as Qr by (unfold running; set_solver).
  - destruct H1 as [H1 H2 (k & (p & r & Hp & Hk & Hl) & H3)].
    assert (code = 0 ∧ terminate_succeeds O ∨ job_calls_succeed O → running (view (ExitProcess o')) = ∅) as He by set_solver.
    split_and!.
    + exists k. split; [exists p, r; by rewrite Qc|]. intros [= E]. auto.
    + destruct H1 as [-> | ->]; auto.
    + done.
    + intros [= E] Hw. auto.
    + intros Hw. rewrite He by auto. set_solver.
  - destruct H1 as [(k & p & r & Hp & Hk & Hl) Hs]. split_and!; [|by left| |done|].
    + exists k. split; [|done]. exists p, r. by rewrite Qc.
    + intros _. destruct (decide (calls < 248 + 2 * steps)%nat); [done|].
      destruct (Ht ltac:(lia)) as (w' & a & ? & _). done.
    + intros Hw. split; [done|].
      assert (∀ q, q ∈ running (view (ExitProcess o')) → left_over (view o') q) as Hlo.
      { intros q Hq. split; [by apply Qr|]. intros h j ms E1 E2 Hms. apply (Qj h j ms E1 E2) in Hms.
        unfold running in Hq. set_solver. }
      intros q Hq%Hlo. rewrite Qs. destruct (Hs Hw q Hq) as [H1 H2]. auto.
Qed.
