(* ===== verification/Selftest.v ===== *)
(** * Selftest: the program [src/selftest.cpp]

    [main] runs checks on every part of [core.h] in turn and counts the ones that fail. A
    run is a list of outcomes; what it takes from outside - the generated keys, the random
    nonces, the readings of the clock, and whether its key file can be written - is an
    argument. *)

From S2P Require Import Prelude Hex Text Serial Sha256 Hash Crypto Merkle Tx Ledger Store Chain Consensus Recovery Mempool Miner.

Local Open Scope Z_scope.

(** ** Runs

    The outcomes of the checks in order, and a result; [None] when an empty optional is
    read or a search does not end. *)
Definition Run (A : Type) : Type := option (list bool * A).

#[export] Instance run_ret : MRet Run := λ A a, Some ([], a).
#[export] Instance run_bind : MBind Run := λ A B f r,
  match r with
  | None => None
  | Some (l, a) => match f a with None => None | Some (l', b) => Some (l ++ l', b) end
  end.

(** [CHECK(c)] *)
Definition check (b : bool) : Run unit := Some ([b], tt).

(** [*o] *)
Definition deref {A} (o : option A) : Run A := match o with None => None | Some a => mret a end.

Fixpoint for_each {A} (f : A → Run unit) (l : list A) : Run unit :=
  match l with
  | [] => mret tt
  | a :: l => f a ;; for_each f l
  end.

Definition ok (err : string) : bool := bool_decide (err = "").

(** [std::string] as the bytes that are hashed. *)
Definition text_bytes (s : string) : bytes := map code (String.list_ascii_of_string s).

(** [a[i] ^= v] *)
Definition flip (a : bytes) (i : nat) (v : Z) : bytes := <[i := Z.lxor (nth i a 0) v]> a.

(** What the run takes from outside: the keys of the two calls of [kp_generate], the numbers
    of [rng], the clock ([now k j] is reading [j] in call [k]) and the key file. *)
Record Outside `{CN : Cng} := mkOutside {
  generated : nat → option CngKey;
  rng : nat → Z;
  now : nat → nat → Z;
  writable : bool;
}.

Definition with_generated (CN : Cng) (k : option (@CngKey CN)) : Cng := {|
  CngKey := @CngKey CN;
  BCryptOpenAlgorithmProvider := @BCryptOpenAlgorithmProvider CN;
  BCryptImportKeyPair_public := @BCryptImportKeyPair_public CN;
  BCryptImportKeyPair_private := @BCryptImportKeyPair_private CN;
  BCryptVerifySignature := @BCryptVerifySignature CN;
  BCryptSignHash := @BCryptSignHash CN;
  BCryptGenerateKeyPair := k;
  BCryptFinalizeKeyPair := @BCryptFinalizeKeyPair CN;
  BCryptExportKey_size := @BCryptExportKey_size CN;
  BCryptExportKey := @BCryptExportKey CN;
|}.

(** [t.sig = sig] *)
Definition set_sig (t : Tx) (sig : bytes) : Tx :=
  mkTx (t_type t) (t_net_id t) (t_from t) (t_to t) (t_amount t) (t_nonce t) (t_payload t) sig.

Section selftest.
Context `{HF : HashFn} `{CN : Cng} {D : Type} `{DB : Sqlite D}.
Implicit Types c : Chain D.

(** ** Helpers *)

(** [while (!pow_ok(b.h.hash(), p.bits)) b.h.nonce++;] *)
Fixpoint seal (fuel : nat) (h : BlockHeader) (bits : Z) : option BlockHeader :=
  match fuel with
  | O => None
  | S fuel => if pow_ok (header_hash h) bits then Some h
              else seal fuel (with_nonce h (u64 (h_nonce h + 1))) bits
  end.

Definition mine_block (fuel : nat) c (p : Params) (miner : bytes) (txs : list Tx) (t nonce : Z) : option Block :=
  let b := template c p miner txs t in
  h ← seal fuel (with_nonce (b_h b) nonce) (p_bits p);
  Some (mkBlock h (b_txs b)).

Definition make_transfer (from : KeyPair) (to : bytes) (amount nonce : Z) (p : Params) : option Tx :=
  let t := mkTx TX_TRANSFER (p_net_id p) (kp_pub from) to amount nonce (t_payload Tx_default) (t_sig Tx_default) in
  sig ← kp_sign from (sign_hash t);
  Some (set_sig t sig).

(** [c.st[a]] as a part of an expression. *)
Definition st_at c (a : bytes) : Account * Chain D :=
  let c := set_st c (touch (st c) a) in (acct (st c) a, c).

(** ** The parts of [main] *)

Definition hash_vectors : list (bytes * string) :=
  [(text_bytes "", "e3b0c44298fc1c149afbf4c8996fb92427ae41e4649b934ca495991b7852b855");
   (text_bytes "abc", "ba7816bf8f01cfea414140de5dae2223b00361a396177a9cb410ff61f20015ad");
   (text_bytes "The quick brown fox jumps over the lazy dog",
    "d7a8fbb307d7809469ca9abcb0082e4f8d5651e46d3cdb762d02d0bf37c9e592");
   (replicate (Z.to_nat 1000000) 97, "cdc76e5c9914fb9281a1c7e284d73e67f1809a48a497200e046d39ccc7112cd0")].

Definition vector_ok (v : bytes * string) : bool := bool_decide (hexs (hash256 v.1) = v.2).

Definition hash_checks : Run unit := for_each (λ v, check (vector_ok v)) hash_vectors.

Definition hex_checks : Run unit :=
  check (match unhex "00ffa5" with Some b => bool_decide (hexs b = "00ffa5") | None => false end) ;;
  check (bool_decide (unhex "xyz" = None)) ;;
  check (bool_decide (unhex "abc" = None)).

Definition pow_checks : Run unit :=
  let h := zero_hash in
  check (leading_zero_bits h =? 256) ;;
  let h := <[1%nat := 0x7f]> (<[0%nat := 0]> h) in
  check (leading_zero_bits h =? 9) ;;
  let h := <[0%nat := 0x80]> h in
  check (leading_zero_bits h =? 0) ;;
  let z := <[2%nat := 0x01]> zero_hash in
  check (leading_zero_bits z =? 23) ;;
  check (pow_ok z 23 && negb (pow_ok z 24)).

Definition some {A} (o : option A) : bool := match o with Some _ => true | None => false end.

Definition hello : bytes := hash256 (text_bytes "hello chainlite").
Definition hello' : bytes := hash256 (text_bytes "hello chainlitE").

Definition signature_checks (w : Outside) (kA kB : KeyPair) : Run unit :=
  let sig := kp_sign kA hello in
  check (some sig) ;;
  sig ← deref sig;
  check (sig_verify (kp_pub kA) hello sig) ;;
  check (negb (sig_verify (kp_pub kA) hello (flip sig 10 0x01))) ;;
  check (negb (sig_verify (kp_pub kB) hello sig)) ;;
  check (negb (sig_verify (kp_pub kA) hello' sig)) ;;
  check (writable w) ;;
  let back := kp_load (if writable w then Some (kp_save kA) else None) in
  check (match back with Some k => bool_decide (kp_pub k = kp_pub kA) | None => false end) ;;
  back ← deref back;
  check (match kp_sign back hello with Some s => sig_verify (kp_pub kA) hello s | None => false end).

(** The leaves [0 .. n - 1]. *)
Definition leaves (n : nat) : list bytes :=
  map (λ i, hash256 (text_bytes (strf ("leaf" +:+ pretty i)))) (seq 0 n).

Definition merkle_checks : Run unit :=
  check (bool_decide (merkle_root (take 1 (leaves 7)) = nth 0 (leaves 7) [])) ;;
  check (bool_decide (merkle_root [] = zero_hash)) ;;
  for_each (λ n,
    let lv := take n (leaves 7) in
    let root := merkle_root lv in
    for_each (λ i,
      let proof := merkle_proof lv i in
      let leaf := nth i lv [] in
      check (bool_decide (merkle_apply leaf proof = root)) ;;
      if (1 <? n)%nat then check (negb (bool_decide (merkle_apply (flip leaf 0 1) proof = root))) else mret tt)
      (seq 0 n)) (seq 1 7).

Definition test_params : Params := mkParams (p_net_id Params_default) 8 (p_reward Params_default) (p_genesis_time Params_default).

(** [u], parsed from what [t] is serialized to, and what is left of the input. *)
Definition tx_checks (kA kB : KeyPair) : Run unit :=
  t ← deref (make_transfer kA (addr_of (kp_pub kB)) 42 0 test_params);
  match tx_parse (reader_of (tx_serialize t)) with
  | Err _ => None
  | Ok (u, r) =>
      check (remaining r =? 0) ;;
      check (bool_decide (txid u = txid t)) ;;
      check (bool_decide (sign_hash u = sign_hash t)) ;;
      let v := set_sig u (flip (t_sig u) 0 1) in
      check (bool_decide (sign_hash v = sign_hash t)) ;;
      check (negb (bool_decide (txid v = txid t)))
  end.

Definition genesis_checks : Run unit :=
  let g p := header_hash (b_h (make_genesis p)) in
  check (bool_decide (g test_params = g test_params)) ;;
  let p2 := mkParams (u32 (p_net_id test_params + 1)) (p_bits test_params) (p_reward test_params)
              (p_genesis_time test_params) in
  check (negb (bool_decide (g p2 = g test_params))).

(** *** Blocks *)

(** [CHECK(c.init(nullptr).empty())] for a new chain; [k] numbers the call. *)
Definition new_chain (w : Outside) (k : nat) : Run (Chain D) :=
  let '(c, err) := init (Chain_new test_params) None (now w k) in
  check (ok err) ;; mret c.

(** [mine_block] and [connect_block], the [k]-th time. *)
Definition mined (fuel : nat) (w : Outside) (k : nat) c (miner : bytes) (txs : list Tx) (t : Z) : Run Block :=
  deref (mine_block fuel c test_params miner txs t (rng w k)).

Definition connects (w : Outside) (k : nat) c (b : Block) : Run (Chain D) :=
  let '(c, err) := connect_block c b (now w k 0%nat) in
  check (ok err) ;; mret c.

Definition refuses (w : Outside) (k : nat) c (b : Block) : Run (Chain D) :=
  let '(c, err) := connect_block c b (now w k 0%nat) in
  check (negb (ok err)) ;; mret c.

Definition balance_is c (a : bytes) (v : Z) : Run (Chain D) :=
  let '(x, c) := st_at c a in
  check (balance x =? v) ;; mret c.

Definition start_time : Z := u64 (p_genesis_time test_params + 10).

(** The record whose payload is changed after it was signed. *)
Definition hi_record (kA : KeyPair) (payload : bytes) (sig : bytes) : Tx :=
  mkTx TX_RECORD (p_net_id test_params) (kp_pub kA) (t_to Tx_default) (t_amount Tx_default) 1 payload sig.

Definition forged_record (kA : KeyPair) : option Tx :=
  sig ← kp_sign kA (sign_hash (hi_record kA [104; 105] (t_sig Tx_default)));
  Some (hi_record kA [104; 111] sig).

(** A nonce that is used, more than the balance, a record that is not what was signed. *)
Definition refusal_checks (fuel : nat) (w : Outside) (kA kB : KeyPair) c : Run (Chain D) :=
  let A := addr_of (kp_pub kA) in
  let B := addr_of (kp_pub kB) in
  let t0 := start_time in
  bad ← deref (make_transfer kA B 5 0 test_params);
  bb ← mined fuel w 4 c A [bad] (u64 (t0 + 2));
  c ← refuses w 4 c bb;
  over ← deref (make_transfer kA B 10000 1 test_params);
  bo ← mined fuel w 5 c A [over] (u64 (t0 + 2));
  c ← refuses w 5 c bo;
  rec ← deref (forged_record kA);
  br ← mined fuel w 6 c A [rec] (u64 (t0 + 2));
  c ← refuses w 6 c br;
  mret c.

(** Mining, transfers and the validation rules: the chain, and the transfer in it. *)
Definition chain_checks (fuel : nat) (w : Outside) (kA kB : KeyPair) : Run (Chain D * Tx) :=
  let A := addr_of (kp_pub kA) in
  let B := addr_of (kp_pub kB) in
  let t0 := start_time in
  c ← new_chain w 0;
  check (height c =? 0) ;;
  b1 ← mined fuel w 1 c A [] t0;
  c ← connects w 1 c b1;
  c ← balance_is c A 50;
  c ← refuses w 2 c b1;
  pay ← deref (make_transfer kA B 20 0 test_params);
  b2 ← mined fuel w 3 c A [pay] (u64 (t0 + 1));
  c ← connects w 3 c b2;
  c ← balance_is c A 80;
  c ← balance_is c B 20;
  let '(x, c) := st_at c A in
  check (nonce x =? 1) ;;
  check (bool_decide (is_Some (txidx c !! txid pay))) ;;
  c ← refusal_checks fuel w kA kB c;
  mret (c, pay).

Definition adds (mp : Mempool) (t : Tx) c : Run Mempool :=
  let '(mp, err) := add mp t (st c) test_params in
  check (ok err) ;; mret mp.

Definition keeps_out (mp : Mempool) (t : Tx) c : Run Mempool :=
  let '(mp, err) := add mp t (st c) test_params in
  check (negb (ok err)) ;; mret mp.

Definition pool_checks (fuel : nat) (w : Outside) (kA kB : KeyPair) c : Run (Chain D) :=
  let A := addr_of (kp_pub kA) in
  let B := addr_of (kp_pub kB) in
  good ← deref (make_transfer kA B 5 1 test_params);
  mp ← adds Mempool_empty good c;
  mp ← keeps_out mp good c;
  conflict ← deref (make_transfer kA B 6 1 test_params);
  mp ← keeps_out mp conflict c;
  over ← deref (make_transfer kA B 100000 2 test_params);
  stale ← deref (make_transfer kA B 5 0 test_params);
  mp ← keeps_out mp stale c;
  let sel := collect mp (st c) test_params (u64 (height c + 1)) in
  check (match sel with [t] => bool_decide (txid t = txid good) | _ => false end) ;;
  b3 ← mined fuel w 7 c A sel (u64 (start_time + 3));
  c ← connects w 7 c b3;
  let mp := purge mp (st c) in
  check (Z.of_nat (stdpp.base.size (m mp)) =? 0) ;;
  mret c.

(** [for (i = 0; i < main_height + 2; i++)]: the blocks of the other chain. *)
Fixpoint alt_loop (fuel : nat) (w : Outside) (to : bytes) (n : nat) (i : nat) (alt : Chain D) : Run (Chain D) :=
  match n with
  | O => mret alt
  | S n =>
      ab ← mined fuel w (9 + i) alt to [] (u64 (start_time + 10 + Z.of_nat i));
      alt ← connects w (9 + i) alt ab;
      alt_loop fuel w to n (S i) alt
  end.

(** [c.st.find(a) == c.st.end() || c.st[a].balance == 0] *)
Definition unknown_or_empty c (a : bytes) : bool * Chain D :=
  match st c !! a with
  | None => (true, c)
  | Some _ => let '(x, c) := st_at c a in (balance x =? 0, c)
  end.

Definition reorg_checks (fuel : nat) (w : Outside) (kA kB : KeyPair) (pay : Tx) c : Run (Chain D) :=
  let A := addr_of (kp_pub kA) in
  let Cm := addr_of (kp_pub kB) in
  let main_height := height c in
  let main_work := work c in
  alt ← new_chain w 8;
  alt ← alt_loop fuel w Cm (Z.to_nat (u64 (main_height + 2))) 0 alt;
  check (main_work <? work alt) ;;
  let fork := u64 (-1) in
  let '(c, err, f) := try_replace c (blocks alt) (now w 100) in
  let fork := match f with Some f => Z.of_nat f | None => fork end in
  check (ok err) ;;
  check (fork =? 1) ;;
  check (height c =? u64 (main_height + 2)) ;;
  c ← balance_is c Cm (u64 (50 * u64 (main_height + 2)));
  let '(gone, c) := unknown_or_empty c A in
  check gone ;;
  check (bool_decide (txidx c !! txid pay = None)) ;;
  let '(c, err, f) := try_replace c (blocks alt) (now w 101) in
  check (negb (ok err) || true) ;;
  worse ← new_chain w 102;
  wb ← mined fuel w 103 worse A [] (u64 (start_time + 50));
  worse ← connects w 103 worse wb;
  let '(c, err, f) := try_replace c (blocks worse) (now w 104) in
  check (negb (ok err)) ;;
  mret c.

(** ** [main] *)

(** What follows the vectors of the hash function. *)
Definition part_checks (fuel : nat) (w : Outside) : Run unit :=
  hex_checks ;;
  pow_checks ;;
  let kA := @kp_generate (with_generated CN (generated w 0%nat)) in
  let kB := @kp_generate (with_generated CN (generated w 1%nat)) in
  check (some kA && some kB) ;;
  kA ← deref kA;
  kB ← deref kB;
  signature_checks w kA kB ;;
  merkle_checks ;;
  tx_checks kA kB ;;
  genesis_checks ;;
  cp ← chain_checks fuel w kA kB;
  c ← pool_checks fuel w kA kB cp.1;
  c ← reorg_checks fuel w kA kB cp.2 c;
  mret tt.

Definition checks (fuel : nat) (w : Outside) : Run unit := hash_checks ;; part_checks fuel w.

(** The exit code; [None] when the program does not return. *)
Definition selftest (fuel : nat) (w : Outside) : option Z :=
  match checks fuel w with
  | Some (l, _) => Some (if forallb id l then 0 else 1)
  | None => None
  end.
End selftest.
