(* ===== verification/SelftestSpec.v ===== *)
(** * SelftestSpec: the self-test passes

    When the keys sign and the signatures that the self-test tampers with are rejected,
    every check of [Selftest] succeeds, up to the vectors of the hash function. *)

From S2P Require Import Prelude Hex Text Serial Sha256 Hash Crypto Merkle Tx Ledger Store Chain Consensus Recovery Mempool Miner Selftest.

Local Open Scope Z_scope.

(** ** Runs that pass *)

(** All checks of [r] succeed, with a result that satisfies [Q]. *)
Definition passes {A} (r : Run A) (Q : A → Prop) : Prop :=
  ∃ l a, r = Some (l, a) ∧ forallb id l = true ∧ Q a.

Lemma passes_ret {A} (a : A) (Q : A → Prop) : Q a → passes (mret a) Q.
Proof. intros H. by exists [], a. Qed.

Lemma passes_bind {A B} (r : Run A) (f : A → Run B) P Q : passes r P → (∀ a, P a → passes (f a) Q) →
  passes (r ≫= f) Q.
Proof.
  intros (l & a & -> & Hl & Ha) Hf. destruct (Hf a Ha) as (l' & b & E & Hl' & Hb).
  exists (l ++ l'), b. unfold mbind, run_bind. rewrite E. split_and!; [done| |done].
  by rewrite forallb_app, Hl, Hl'.
Qed.

Lemma passes_impl {A} (r : Run A) (P Q : A → Prop) : passes r P → (∀ a, P a → Q a) → passes r Q.
Proof. intros (l & a & E & Hl & Ha) Himp. exists l, a. auto. Qed.

Lemma passes_check b : b = true → passes (check b) (λ _, True).
Proof. intros ->. by exists [true], tt. Qed.

Lemma passes_deref {A} (o : option A) a (Q : A → Prop) : o = Some a → Q a → passes (deref o) Q.
Proof. intros -> H. by apply passes_ret. Qed.

Lemma passes_deref_then {A B} (o : option A) a (f : A → Run B) Q : o = Some a → passes (f a) Q →
  passes (deref o ≫= f) Q.
Proof. intros -> H. eapply passes_bind; [apply (passes_ret a (eq a)); done|]. by intros ? <-. Qed.

(** A check, and the rest. *)
Lemma passes_then {A} b (r : Run A) (Q : A → Prop) : b = true → passes r Q → passes (check b ;; r) Q.
Proof. intros Hb Hr. eapply passes_bind; [by apply passes_check|done]. Qed.

Lemma passes_for_each {A} (f : A → Run unit) l : (∀ a, a ∈ l → passes (f a) (λ _, True)) →
  passes (for_each f l) (λ _, True).
Proof.
  induction l as [|a l IH]; intros H; cbn [for_each]; [by apply passes_ret|].
  eapply passes_bind; [apply H; left|]. intros ? _. apply IH. intros b Hb. apply H. by right.
Qed.

(** Checks that may fail. *)
Lemma for_each_checks {A} (f : A → bool) l : for_each (λ a, check (f a)) l = Some (map f l, tt).
Proof. induction l as [|a l IH]; [done|]. cbn [for_each]. unfold mbind, run_bind at 1. cbn [check]. by rewrite IH. Qed.

(** ** Texts, difficulty *)

Lemma hex_pass : passes hex_checks (λ _, True).
Proof. exists [true; true; true], tt. split_and!; [vm_compute|..]; done. Qed.

Lemma pow_pass : passes pow_checks (λ _, True).
Proof. exists [true; true; true; true; true], tt. split_and!; [vm_compute|..]; done. Qed.

Section spec.
Context `{HF : HashFn} `{CN : Cng} {D : Type} `{DB : Sqlite D}.

(** ** What the self-test hashes *)

(** Two paths with the same siblings start at the same leaf. *)
Lemma merkle_apply_inj K x y steps : path_pre x steps ⊆ K → path_pre y steps ⊆ K →
  merkle_apply x steps = merkle_apply y steps → x = y ∨ collision K.
Proof.
  unfold merkle_apply. revert x y. induction steps as [|s steps IH]; intros x y Hx Hy E; [by left|].
  cbn [path_pre foldl] in *. apply list_subseteq_cons_iff in Hx as [Hx1 Hx], Hy as [Hy1 Hy].
  destruct (IH _ _ Hx Hy E) as [E1|?]; [|by right]. rewrite !apply_step_pre in E1.
  apply (hash256d_inj K) in E1 as [E1|?]; [left|by right|done..].
  unfold step_pre in E1. destruct (step_left s); [by apply app_inv_head in E1|by apply app_inv_tail in E1].
Qed.

(** The strings hashed for the checks of the trees. *)
Definition leaf_pre : list bytes :=
  concat (map (λ n, concat (map (λ i,
    let lv := take n (leaves 7) in
    path_pre (nth i lv []) (merkle_proof lv i) ++ path_pre (flip (nth i lv []) 0 1) (merkle_proof lv i))
    (seq 0 n))) (seq 1 7)).

Lemma elem_of_concat_map {A B} (f : A → list B) l a x : a ∈ l → x ∈ f a → x ∈ concat (map f l).
Proof.
  intros Ha Hx. rewrite list_elem_of_In, in_concat. exists (f a).
  split; [by apply in_map, list_elem_of_In|by apply list_elem_of_In].
Qed.

Lemma flip_neq a i v : (i < length a)%nat → Forall (in_width 8) a → in_width 8 v → v ≠ 0 → flip a i v ≠ a.
Proof.
  intros Hi Ha Hv Hne E. apply (f_equal (λ l, l !! i)) in E. unfold flip in E.
  rewrite list_lookup_insert_eq in E by done. rewrite (list_lookup_lookup_total_lt _ _ Hi) in E.
  injection E as E. rewrite (nth_lookup_Some _ _ _ (a !!! i)) in E by by apply list_lookup_lookup_total_lt.
  apply Hne. apply (f_equal (Z.lxor (a !!! i))) in E. by rewrite <- Z.lxor_assoc, Z.lxor_nilpotent, Z.lxor_0_l in E.
Qed.

Lemma merkle_pass K : leaf_pre ⊆ K → ¬ collision K → passes merkle_checks (λ _, True).
Proof.
  intros HK Hno. unfold merkle_checks. apply passes_then; [by apply bool_decide_eq_true_2|].
  apply passes_then; [by apply bool_decide_eq_true_2|].
  apply passes_for_each. intros n Hn. cbv zeta. apply passes_for_each. intros i Hi.
  assert (path_pre (nth i (take n (leaves 7)) []) (merkle_proof (take n (leaves 7)) i) ++
          path_pre (flip (nth i (take n (leaves 7)) []) 0 1) (merkle_proof (take n (leaves 7)) i) ⊆ K)
    as [HK1 HK2]%list_subseteq_app_iff_l.
  { intros x Hx. apply HK. eapply elem_of_concat_map; [exact Hn|]. by eapply elem_of_concat_map. }
  apply elem_of_seq in Hi, Hn.
  destruct (lookup_lt_is_Some_2 (take n (leaves 7)) i) as [leaf Hl]; [rewrite length_take; cbn [leaves map seq length]; lia|].
  rewrite (nth_lookup_Some _ _ _ _ Hl) in *.
  pose proof (merkle_proof_correct _ _ _ Hl) as Hroot.
  apply passes_then; [by apply bool_decide_eq_true_2|].
  destruct (1 <? n)%nat; [|by apply passes_ret]. apply passes_check, negb_true_iff, bool_decide_eq_false_2.
  rewrite <- Hroot. intros E. destruct (merkle_apply_inj K _ _ _ HK2 HK1 E) as [E1|?]; [|done].
  assert (wf_array 32 leaf) as [Hlen Hw].
  { assert (leaf ∈ leaves 7) as Hin by (by eapply subseteq_take, list_elem_of_lookup_2).
    apply list_elem_of_fmap in Hin as (j & -> & _). apply wf_hash256. }
  revert E1. apply flip_neq; [lia|done|by unfold in_width; lia|done].
Qed.

(** ** Keys

    What the self-test relies on: its two keys sign, they have different addresses, and
    the signatures it tampers with are rejected. *)
Record keys_ok (kA kB : KeyPair) : Prop := {
  ko_A : signer kA;
  ko_A_file : wf_keypair kA;
  ko_addr : addr_of (kp_pub kA) ≠ addr_of (kp_pub kB);
  ko_flip sig : kp_sign kA hello = Some sig → sig_verify (kp_pub kA) hello (flip sig 10 1) = false;
  ko_other_key sig : kp_sign kA hello = Some sig → sig_verify (kp_pub kB) hello sig = false;
  ko_other_digest sig : kp_sign kA hello = Some sig → sig_verify (kp_pub kA) hello' sig = false;
  ko_record t : forged_record kA = Some t → ¬ authentic t;
}.

Lemma signature_pass w kA kB : keys_ok kA kB → writable w = true → passes (signature_checks w kA kB) (λ _, True).
Proof.
  intros Hk Hw. unfold signature_checks. cbv zeta.
  destruct (sg_sign kA (ko_A _ _ Hk) hello (wf_hash256 _)) as (sig & Es & _ & Hv).
  rewrite Es. apply passes_then; [done|]. apply (passes_deref_then _ sig); [done|].
  apply passes_then; [done|]. apply passes_then; [by rewrite (ko_flip _ _ Hk)|].
  apply passes_then; [by rewrite (ko_other_key _ _ Hk)|]. apply passes_then; [by rewrite (ko_other_digest _ _ Hk)|].
  apply passes_then; [done|]. rewrite Hw, kp_load_kp_save by apply Hk.
  apply passes_then; [by apply bool_decide_eq_true_2|].
  apply (passes_deref_then _ kA); [done|]. rewrite Es. by apply passes_check.
Qed.

(** A transfer as [make_transfer] builds it. *)
Record transfer_of (kp : KeyPair) (to : bytes) (amount nonce : Z) (t : Tx) : Prop := {
  tr_wf : wf_tx t;
  tr_authentic : authentic t;
  tr_type : t_type t = TX_TRANSFER;
  tr_net_id : t_net_id t = p_net_id test_params;
  tr_from : t_from t = kp_pub kp;
  tr_to : t_to t = to;
  tr_amount : t_amount t = amount;
  tr_nonce : t_nonce t = nonce;
  tr_payload : t_payload t = [];
}.

Lemma sign_hash_set_sig t sig : sign_hash (set_sig t sig) = sign_hash t.
Proof. done. Qed.

Lemma make_transfer_run kp to amount nonce : signer kp → wf_array 20 to → in_width 64 amount → in_width 64 nonce →
  ∃ t, make_transfer kp to amount nonce test_params = Some t ∧ transfer_of kp to amount nonce t.
Proof.
  intros Hk Ht Ha Hn. unfold make_transfer. cbv zeta.
  destruct (sg_sign kp Hk (sign_hash (mkTx TX_TRANSFER (p_net_id test_params) (kp_pub kp) to amount nonce
    (t_payload Tx_default) (t_sig Tx_default))) (wf_hash256d _)) as (sig & -> & Hsig & Hv).
  eexists. split; [done|]. split; try done.
  - split; cbn; try done; [apply Hk|apply wf_bytes_nil].
  - split; [apply Hk|exact Hv].
Qed.

Lemma transfer_wire kp to amount nonce t : transfer_of kp to amount nonce t → wire_tx t.
Proof. intros H. split; [apply H|]. by rewrite (tr_payload _ _ _ _ _ H). Qed.

(** The strings hashed for the ids of [t] and of [t] with another signature. *)
Definition tx_pre (kA kB : KeyPair) : list bytes :=
  match make_transfer kA (addr_of (kp_pub kB)) 42 0 test_params with
  | Some t => [tx_enc t; tx_enc (set_sig t (flip (t_sig t) 0 1))]
  | None => []
  end.

Lemma tx_pass K kA kB : keys_ok kA kB → tx_pre kA kB ⊆ K → ¬ collision K → passes (tx_checks kA kB) (λ _, True).
Proof.
  intros Hk HK Hno. unfold tx_checks, tx_pre in *.
  destruct (make_transfer_run kA (addr_of (kp_pub kB)) 42 0 (ko_A _ _ Hk) (wf_addr_of _)) as (t & Et & Ht); [done..|].
  rewrite Et in *. apply (passes_deref_then _ t); [done|].
  pose proof (transfer_wire _ _ _ _ _ Ht) as Hwire. rewrite tx_serialize_enc.
  pose proof (wfr_reader_of _ (wf_tx_enc t (tr_wf _ _ _ _ _ Ht))) as Hr.
  rewrite (codec_dec (enc := tx_enc) (reader_of (tx_enc t)) t [] Hr Hwire) by by rewrite view_reader_of, app_nil_r.
  apply passes_then.
  { apply Z.eqb_eq. assert (view (reader_of (tx_enc t)) = tx_enc t ++ []) as Ev by by rewrite view_reader_of, app_nil_r.
    apply remaining_0; [by eapply wfr_adv_app|by eapply view_adv_app]. }
  do 3 (apply passes_then; [by apply bool_decide_eq_true_2|]).
  apply passes_check, negb_true_iff, bool_decide_eq_false_2. rewrite !txid_enc. intros E.
  apply (hash256d_inj K) in E as [E|?]; [|done|apply HK; right; left|apply HK; left].
  destruct (wf_t_sig t (tr_wf _ _ _ _ _ Ht)) as [Hl Hb].
  unfold tx_enc in E. apply app_inv_head in E. revert E. apply flip_neq; [lia|done|by unfold in_width; lia|done].
Qed.

Definition genesis_pre : list bytes :=
  [header_enc (b_h (make_genesis test_params));
   header_enc (b_h (make_genesis (mkParams (u32 (p_net_id test_params + 1)) (p_bits test_params)
     (p_reward test_params) (p_genesis_time test_params))))].

Lemma wf_test_params : wf_params test_params.
Proof. by apply (bool_decide_unpack _). Qed.

Lemma genesis_pass K : genesis_pre ⊆ K → ¬ collision K → passes genesis_checks (λ _, True).
Proof.
  intros HK Hno. unfold genesis_checks. cbv zeta. apply passes_then; [by apply bool_decide_eq_true_2|].
  apply passes_check, negb_true_iff, bool_decide_eq_false_2. rewrite !header_hash_enc. intros E.
  apply (hash256d_inj K) in E as [E|?]; [|done|apply HK; right; left|apply HK; left].
  apply header_enc_inj in E; [done|..]; apply wf_make_genesis; [|apply wf_test_params].
  by apply (bool_decide_unpack _).
Qed.

(** ** Chains of the self-test *)

(** What the self-test relies on outside its keys: nonces that meet the difficulty exist
    and the search tries all, the clock is past the times that the blocks carry, and the
    key file can be written. *)
Record outside_ok (fuel : nat) (w : Outside) : Prop := {
  oo_fuel : 2 ^ 64 ≤ Z.of_nat fuel;
  oo_pow h : wf_header h → ∃ n, in_width 64 n ∧ pow_ok (header_hash (with_nonce h n)) (p_bits test_params) = true;
  oo_rng k : in_width 64 (rng w k);
  oo_now k j : start_time + 50 ≤ u64 (now w k j + MAX_TIME_SKEW_S);
  oo_writable : writable w = true;
}.

Definition genesis : Block := make_genesis test_params.

(** The height of the tip. *)
Definition hgt (bs : list Block) : Z := match last bs with None => 0 | Some b => h_height (b_h b) end.

(** [c] holds the blocks [bs]. *)
Record at_chain (bs : list Block) (c : Chain D) : Prop := {
  ac_inv : chain_inv c;
  ac_params : params c = test_params;
  ac_blocks : blocks c = bs;
  ac_some : bs ≠ [];
  ac_short : (length bs ≤ 100)%nat;
  ac_times : Forall (λ b, h_time (b_h b) ≤ start_time + 50) bs;
}.

Lemma ac_wf bs c : at_chain bs c → Forall wf_block bs.
Proof. intros H. rewrite <- (ac_blocks _ _ H). apply ci_wf, H. Qed.

Lemma ac_valid bs c : at_chain bs c → chain_valid test_params bs.
Proof. intros H. rewrite <- (ac_blocks _ _ H), <- (ac_params _ _ H). apply ci_valid, H. Qed.

Lemma ac_acct bs c a : at_chain bs c → acct (st c) a = acct (ledger bs) a.
Proof. intros H. rewrite <- (ac_blocks _ _ H). apply (ci_st c (ac_inv _ _ H)). Qed.

Lemma ac_height bs c : at_chain bs c → height c = hgt bs.
Proof. intros H. unfold height, tip, hgt. by rewrite (ac_blocks _ _ H). Qed.

Lemma ac_work bs c : at_chain bs c → work c = u64 (chain_work test_params bs).
Proof. intros H. rewrite <- (ac_blocks _ _ H), <- (ac_params _ _ H). apply ci_work, H. Qed.

Lemma ac_supply bs c : at_chain bs c → supply (ledger bs) + p_reward test_params < 2 ^ 64.
Proof.
  intros H. pose proof (ac_short _ _ H). change (p_reward test_params) with 50.
  erewrite (valid_supply test_params); [change (p_reward test_params) with 50; lia|done|by eapply ac_wf|by eapply ac_valid|].
  change (p_reward test_params) with 50. lia.
Qed.

(** Assigning a state that shows the same accounts. *)
Lemma at_chain_touch bs c a : at_chain bs c → at_chain bs (set_st c (touch (st c) a)).
Proof.
  intros [[H1 H2 H3 H4 H5 H6] ? ? ? ? ?]. split; try done. split; try done. cbn. by rewrite touch_equiv.
Qed.

Lemma st_at_run bs c a : at_chain bs c → ∃ c', st_at c a = (acct (ledger bs) a, c') ∧ at_chain bs c'.
Proof.
  intros H. exists (set_st c (touch (st c) a)). split; [|by apply at_chain_touch].
  unfold st_at. cbn [st set_st]. by rewrite acct_touch, (ac_acct bs).
Qed.

Lemma balance_pass bs c a v : at_chain bs c → balance (acct (ledger bs) a) = v →
  passes (balance_is c a v) (at_chain bs).
Proof.
  intros H E. unfold balance_is. destruct (st_at_run bs c a H) as (c' & -> & H').
  apply passes_then; [by apply Z.eqb_eq|]. by apply passes_ret.
Qed.

(** The chain of a new [Chain] after [init]. *)
Definition first_chain (w : Outside) (k : nat) : Chain D := (init (Chain_new test_params) None (now w k)).1.

Lemma new_chain_pass w k : passes (new_chain w k) (λ c, c = first_chain w k ∧ at_chain [genesis] c).
Proof.
  unfold new_chain, first_chain, init. cbn [negb].
  rewrite (bool_decide_eq_true_2 ("" = "")) by done.
  change (blocks (set_db (Chain_new test_params) None)) with (@nil Block). rewrite (bool_decide_eq_true_2 ([] = [])) by done. cbn [negb].
  assert (chain_inv (set_db (D := D) (Chain_new test_params) None)) as Hc by (destruct (chain_inv_new (D := D) test_params); by split).
  destruct (connect_genesis_run _ (now w k 0%nat) Hc eq_refl) as [c' E].
  change (params (set_db (Chain_new test_params) None)) with test_params in *. rewrite E, (bool_decide_eq_true_2 ("" = "")) by done.
  cbn [negb fst]. apply passes_then; [done|]. apply passes_ret. split; [done|].
  apply connect_block_ok in E as (_ & _ & Hc' & Hp & Hb & _); [|done|apply (wf_make_genesis _ wf_test_params)].
  split; [done..| |cbn; lia|]; [done|]. constructor; [|done]. by vm_compute.
Qed.

(** ** Mining *)

Lemma seal_run fuel h bits i : in_width 64 (h_nonce h) → (i < fuel)%nat →
  pow_ok (header_hash (with_nonce h (u64 (h_nonce h + Z.of_nat i)))) bits = true →
  ∃ n, in_width 64 n ∧ seal fuel h bits = Some (with_nonce h n) ∧
    pow_ok (header_hash (with_nonce h n)) bits = true.
Proof.
  revert h i. induction fuel as [|fuel IH]; intros h i Hn Hi Hp; [lia|]. cbn [seal].
  assert (with_nonce h (h_nonce h) = h) as Eh by by destruct h.
  destruct (pow_ok (header_hash h) bits) eqn:E; [exists (h_nonce h); by rewrite Eh|].
  destruct i as [|i].
  { rewrite Z.add_0_r, wrap_small, Eh in Hp by done. congruence. }
  destruct (IH (with_nonce h (u64 (h_nonce h + 1))) i) as (n & Hw & En & Hok).
  - by apply wrap_in_width.
  - lia.
  - cbn [h_nonce with_nonce]. rewrite wrap_add_l.
    replace (h_nonce h + 1 + Z.of_nat i) with (h_nonce h + Z.of_nat (S i)) by lia. exact Hp.
  - by exists n.
Qed.

Lemma seal_total fuel h bits : 2 ^ 64 ≤ Z.of_nat fuel → in_width 64 (h_nonce h) →
  (∃ n, in_width 64 n ∧ pow_ok (header_hash (with_nonce h n)) bits = true) →
  ∃ n, in_width 64 n ∧ seal fuel h bits = Some (with_nonce h n) ∧
    pow_ok (header_hash (with_nonce h n)) bits = true.
Proof.
  intros Hf Hn (n & Hw & Hp).
  pose proof (wrap_in_width 64 (n - h_nonce h) ltac:(done)) as [Hlo Hhi].
  apply (seal_run fuel h bits (Z.to_nat (u64 (n - h_nonce h)))); [done|lia|].
  rewrite Z2Nat.id, wrap_add_r by done. replace (h_nonce h + (n - h_nonce h)) with n by lia.
  by rewrite wrap_small.
Qed.

(** [b] is mined on [bs] for the transactions [txs] at time [t]. *)
Record mined_on (bs : list Block) (miner : bytes) (txs : list Tx) (t : Z) (b : Block) : Prop := {
  mo_wf : wf_block b;
  mo_txs : b_txs b = coinbase test_params miner (u64 (hgt bs + 1)) :: txs;
  mo_height : h_height (b_h b) = u64 (hgt bs + 1);
  mo_time : h_time (b_h b) = t;
  mo_next : txs_ok test_params (u64 (hgt bs + 1)) (ledger bs) 1 txs → next_ok test_params bs b;
}.

Section run.
Context (fuel : nat) (w : Outside) (Hw : outside_ok fuel w).

Lemma mined_pass k bs c miner txs t : at_chain bs c → wf_array 20 miner → in_width 64 t → Forall wf_tx txs →
  size txs ≤ 1000 →
  passes (mined fuel w k c miner txs t)
    (λ b, mine_block fuel c test_params miner txs t (rng w k) = Some b ∧ mined_on bs miner txs t b).
Proof.
  intros H Hm Ht Htx Hs. unfold mined.
  pose proof (ac_params _ _ H) as Hp. pose proof (ac_inv _ _ H) as Hc.
  assert (∀ n, in_width 64 n → wf_block (sealed (template c (params c) miner txs t) n)) as Hwf.
  { intros n Hn. apply wf_sealed; try done. rewrite Hp. apply wf_test_params. }
  rewrite Hp in Hwf.
  destruct (seal_total fuel (with_nonce (b_h (template c test_params miner txs t)) (rng w k)) (p_bits test_params))
    as (n & Hn & E & Hok); [apply Hw|apply (oo_rng _ _ Hw)|apply (oo_pow _ _ Hw), (Hwf (rng w k)), (oo_rng _ _ Hw)|].
  assert (mine_block fuel c test_params miner txs t (rng w k) = Some (sealed (template c test_params miner txs t) n)) as Em.
  { unfold mine_block. rewrite E. done. }
  rewrite Em. apply passes_ret. split; [done|]. split; try done.
  - by apply Hwf.
  - cbn. by rewrite (ac_height _ _ H).
  - cbn. by rewrite (ac_height _ _ H).
  - intros Htxs. rewrite <- (ac_blocks _ _ H), <- Hp. apply template_next_ok; rewrite ?Hp; try done.
    + rewrite (ac_blocks _ _ H). apply H.
    + rewrite (ac_blocks _ _ H). by eapply ac_supply.
    + split_and!; [done| |done]. rewrite Hp, (ac_height _ _ H).
      eapply txs_ok_equiv; [symmetry; apply Hc|]. by rewrite (ac_blocks _ _ H).
Qed.

Lemma connects_pass k bs c b : at_chain bs c → next_ok test_params bs b → wf_block b →
  (length bs < 100)%nat → h_time (b_h b) ≤ start_time + 50 →
  passes (connects w k c b) (at_chain (bs ++ [b])).
Proof.
  intros H Hn Hb Hl Ht. unfold connects. pose proof (ac_inv _ _ H) as Hc.
  destruct (connect_block_run c b (now w k 0%nat)) as [c' E]; [done| | |].
  - by rewrite (ac_params _ _ H), (ac_blocks _ _ H).
  - intros _. pose proof (oo_now _ _ Hw k 0%nat). lia.
  - rewrite E. apply connect_block_ok in E as (_ & _ & Hc' & Hp & Hbs & _); [|done..].
    apply passes_then; [done|]. apply passes_ret. rewrite (ac_blocks _ _ H) in Hbs.
    split; [done|by rewrite Hp; apply H|done|by intros [_ ?]%app_nil| |].
    + rewrite length_app. cbn. lia.
    + apply Forall_app. split; [apply H|by constructor].
Qed.

Lemma refuses_pass k bs c b : at_chain bs c → ¬ next_ok test_params bs b →
  passes (refuses w k c b) (at_chain bs).
Proof.
  intros H Hn. unfold refuses. destruct (connect_block c b (now w k 0%nat)) as [c' err] eqn:E.
  apply connect_block_cases in E as [(_ & [? _] & _)|(He & -> & _)]; [| |by apply (ac_inv _ _ H)].
  - destruct Hn. by rewrite <- (ac_params _ _ H), <- (ac_blocks _ _ H).
  - apply passes_then; [by apply negb_true_iff, bool_decide_eq_false_2|by apply passes_ret].
Qed.
End run.

(** A block whose first transaction after the coinbase is not valid. *)
Lemma not_next bs miner t txs time b : bs ≠ [] → mined_on bs miner (t :: txs) time b →
  ¬ tx_ok (credit (ledger bs) miner (p_reward test_params)) t test_params (u64 (hgt bs + 1)) false →
  ¬ next_ok test_params bs b.
Proof.
  intros Hne Hb Hn Hx. unfold next_ok in Hx. destruct (last bs) as [prev|] eqn:E; [|by apply last_None in E].
  apply ext_txs in Hx. rewrite (mo_txs _ _ _ _ _ Hb), (mo_height _ _ _ _ _ Hb) in Hx.
  inversion Hx as [|???? _ Hx']; subst. inversion Hx' as [|???? Ht _]; subst. by apply Hn.
Qed.

(** The second block of the same height. *)
Lemma not_next_height bs b : bs ≠ [] → h_height (b_h b) ≠ u64 (hgt bs + 1) → ¬ next_ok test_params bs b.
Proof.
  intros Hne Hn Hx. unfold next_ok in Hx. destruct (last bs) as [prev|] eqn:E; [|by apply last_None in E].
  apply Hn. rewrite (ext_height _ _ _ _ Hx). unfold hgt. by rewrite E.
Qed.

(** ** The accounts after a block *)

Lemma ledger_mined bs miner txs t b a : mined_on bs miner txs t b →
  acct (ledger (bs ++ [b])) a = acct (txs_post (credit (ledger bs) miner (p_reward test_params)) txs) a.
Proof. intros H. by rewrite ledger_snoc, (mo_txs _ _ _ _ _ H). Qed.

Lemma transfer_post kp to v n t s : transfer_of kp to v n t →
  tx_post s t = bump (credit (debit s (addr_of (kp_pub kp)) v) to v) (addr_of (kp_pub kp)).
Proof.
  intros H. unfold tx_post. by rewrite (tr_type _ _ _ _ _ H), (tr_from _ _ _ _ _ H), (tr_to _ _ _ _ _ H), (tr_amount _ _ _ _ _ H).
Qed.

Lemma transfer_tx_ok kp to v n t s h : transfer_of kp to v n t →
  tx_ok s t test_params h false ↔
  n = nonce (acct s (addr_of (kp_pub kp))) ∧ v ≤ balance (acct s (addr_of (kp_pub kp))).
Proof.
  intros H. unfold tx_ok, body_ok. rewrite (tr_from _ _ _ _ _ H), (tr_nonce _ _ _ _ _ H), (tr_amount _ _ _ _ _ H).
  rewrite (tr_type _ _ _ _ _ H), (tr_payload _ _ _ _ _ H).
  pose proof (tr_net_id _ _ _ _ _ H). pose proof (tr_authentic _ _ _ _ _ H). split.
  - intros (_ & _ & ? & [(_ & _ & ?)|(? & _)]); done.
  - intros [? ?]. split_and!; try done. by left.
Qed.

Lemma after_transfer bs kp to v n t time b :
  let from := addr_of (kp_pub kp) in
  from ≠ to → mined_on bs from [t] time b → transfer_of kp to v n t →
  acct (ledger (bs ++ [b])) from =
    mkAccount (u64 (u64 (balance (acct (ledger bs) from) + 50) - v)) (u64 (nonce (acct (ledger bs) from) + 1)) ∧
  acct (ledger (bs ++ [b])) to =
    mkAccount (u64 (balance (acct (ledger bs) to) + v)) (nonce (acct (ledger bs) to)).
Proof.
  intros from Hne Hb Ht. rewrite !(ledger_mined _ _ _ _ _ _ Hb). cbn [txs_post foldl].
  rewrite !(transfer_post _ _ _ _ _ _ Ht). fold from. change (p_reward test_params) with 50.
  autorewrite with ledger. rewrite !(decide_True (P := from = from)), !(decide_True (P := to = to)) by done.
  by rewrite !(decide_False (P := from = to)), !(decide_False (P := to = from)) by congruence.
Qed.

Lemma after_coinbase bs miner t b a : mined_on bs miner [] t b →
  acct (ledger (bs ++ [b])) a =
    if decide (miner = a) then mkAccount (u64 (balance (acct (ledger bs) miner) + 50)) (nonce (acct (ledger bs) miner))
    else acct (ledger bs) a.
Proof.
  intros Hb. rewrite (ledger_mined _ _ _ _ _ _ Hb). cbn [txs_post foldl]. by rewrite acct_credit.
Qed.

Lemma hgt_snoc bs b : hgt (bs ++ [b]) = h_height (b_h b).
Proof. unfold hgt. by rewrite last_snoc. Qed.

(** ** The parts of the run that use chains *)

Section main.
Context (fuel : nat) (w : Outside) (kA kB : KeyPair).
Context (Hw : outside_ok fuel w) (Hk : keys_ok kA kB).
Abbreviation A := (addr_of (kp_pub kA)).
Abbreviation B := (addr_of (kp_pub kB)).

(** A block is mined and connected, and the run goes on. *)
Lemma grow_then {X} k k' bs c miner txs t (f : Block → Chain D → Run X) Q :
  at_chain bs c → wf_array 20 miner → in_width 64 t → Forall wf_tx txs → size txs ≤ 1000 →
  (length bs < 100)%nat → t ≤ start_time + 50 → txs_ok test_params (u64 (hgt bs + 1)) (ledger bs) 1 txs →
  (∀ b c', mine_block fuel c test_params miner txs t (rng w k) = Some b → mined_on bs miner txs t b →
    at_chain (bs ++ [b]) c' → hgt (bs ++ [b]) = u64 (hgt bs + 1) → passes (f b c') Q) →
  passes (b ← mined fuel w k c miner txs t; c' ← connects w k' c b; f b c') Q.
Proof.
  intros Hc Hm Ht Htx Hs Hl Htime Hok Hf. eapply passes_bind; [by eapply mined_pass|]. intros b [Em Hb].
  eapply passes_bind; [eapply connects_pass; try done|].
  - by apply (mo_next _ _ _ _ _ Hb).
  - by eapply mo_wf.
  - by rewrite (mo_time _ _ _ _ _ Hb).
  - intros c' Hc'. apply Hf; [done..|]. by rewrite hgt_snoc, (mo_height _ _ _ _ _ Hb).
Qed.

(** A block is mined for a transaction that is not valid, and refused. *)
Lemma refuse_then {X} k k' bs c miner x t (f : Chain D → Run X) Q :
  at_chain bs c → wf_array 20 miner → in_width 64 t → wf_tx x →
  ¬ tx_ok (credit (ledger bs) miner (p_reward test_params)) x test_params (u64 (hgt bs + 1)) false →
  (∀ c', at_chain bs c' → passes (f c') Q) →
  passes (b ← mined fuel w k c miner [x] t; c' ← refuses w k' c b; f c') Q.
Proof.
  intros Hc Hm Ht Hx Hn Hf. eapply passes_bind; [eapply mined_pass; try done; by constructor|]. intros b [_ Hb].
  eapply passes_bind; [eapply refuses_pass; [done|]|done]. eapply not_next; [apply Hc|done..].
Qed.

Lemma make_transfer_A v n : in_width 64 v → in_width 64 n →
  ∃ t, make_transfer kA B v n test_params = Some t ∧ transfer_of kA B v n t.
Proof. intros. apply make_transfer_run; [apply Hk|apply wf_addr_of|done..]. Qed.

Lemma ledger_genesis a : acct (ledger [genesis]) a = Account_default.
Proof. done. Qed.

Lemma forged_record_run : ∃ t, forged_record kA = Some t ∧ wf_tx t ∧ ¬ authentic t.
Proof.
  pose proof (ko_record _ _ Hk) as Hr. unfold forged_record in *.
  destruct (sg_sign kA (ko_A _ _ Hk) (sign_hash (hi_record kA [104; 105] (t_sig Tx_default))) (wf_hash256d _))
    as (sig & Es & Hs & _).
  rewrite Es in *. eexists. split; [done|]. split; [|by apply Hr].
  split; cbn; try done; [apply Hk|exact (wf_zeros 20)|]. by apply (bool_decide_unpack (wf_bytes [104; 111])).
Qed.

Lemma coinbase_credit a s : acct (credit s A (p_reward test_params)) a =
  if decide (A = a) then mkAccount (u64 (balance (acct s A) + 50)) (nonce (acct s A)) else acct s a.
Proof. by rewrite acct_credit. Qed.

(** The chain after [chain_checks]. *)
Record after_chain (bs : list Block) (b1 : Block) (c : Chain D) (pay : Tx) : Prop := {
  af_chain : at_chain bs c;
  af_blocks : ∃ b2, bs = [genesis; b1; b2];
  af_height : hgt bs = 2;
  af_A : acct (ledger bs) A = mkAccount 80 1;
  af_B : acct (ledger bs) B = mkAccount 20 0;
  af_pay : make_transfer kA B 20 0 test_params = Some pay;
  af_transfer : transfer_of kA B 20 0 pay;
  af_b1 : mine_block fuel (first_chain w 0) test_params A [] start_time (rng w 1) = Some b1;
  af_wf : wf_block b1;
  af_time : h_time (b_h b1) = start_time;
}.

(** After two blocks of [A], the second with the payment. *)
Lemma refusals_pass bs c : at_chain bs c → (length bs < 100)%nat → hgt bs = 2 → acct (ledger bs) A = mkAccount 80 1 →
  passes (refusal_checks fuel w kA kB c) (at_chain bs).
Proof.
  intros Hc Hl Hh HA. unfold refusal_checks. cbv zeta.
  assert (acct (credit (ledger bs) A (p_reward test_params)) A = mkAccount 130 1) as HA'.
  { by rewrite acct_credit, decide_True, HA. }
  destruct (make_transfer_A 5 0) as (bad & -> & Hbad); [done..|]. apply (passes_deref_then _ bad); [done|].
  eapply refuse_then; try done; [apply wf_addr_of|apply Hbad| |].
  { rewrite (transfer_tx_ok _ _ _ _ _ _ _ Hbad), HA'. by intros [? _]. }
  clear c Hc. intros c Hc.
  destruct (make_transfer_A 10000 1) as (over & -> & Hover); [done..|]. apply (passes_deref_then _ over); [done|].
  eapply refuse_then; try done; [apply wf_addr_of|apply Hover| |].
  { rewrite (transfer_tx_ok _ _ _ _ _ _ _ Hover), HA'. intros [_ Hx]. by apply Hx. }
  clear c Hc. intros c Hc.
  destruct forged_record_run as (rec & -> & Hrec & Hn). apply (passes_deref_then _ rec); [done|].
  eapply refuse_then; try done; [apply wf_addr_of| |]; [by intros (_ & ? & _)|]. intros c' Hc'. by apply passes_ret.
Qed.

Lemma chain_pass : passes (chain_checks fuel w kA kB) (λ cp, ∃ bs b1, after_chain bs b1 cp.1 cp.2).
Proof.
  pose proof (ko_addr _ _ Hk) as Hne. unfold chain_checks. cbv zeta.
  eapply passes_bind; [apply new_chain_pass|]. intros c0 [-> H0].
  apply passes_then; [rewrite (ac_height _ _ H0); done|].
  eapply (grow_then 1 1 [genesis]); try done; [apply wf_addr_of|cbn; lia|constructor|]. intros b1 c E1 M1 C G1.
  assert (acct (ledger ([genesis] ++ [b1])) A = mkAccount 50 0 ∧ acct (ledger ([genesis] ++ [b1])) B = mkAccount 0 0) as [A1 B1].
  { rewrite !(after_coinbase _ _ _ _ _ M1), !ledger_genesis, decide_True, decide_False by congruence. done. }
  eapply passes_bind; [eapply balance_pass; [done|by rewrite A1]|]. clear c C. intros c C.
  eapply passes_bind; [eapply refuses_pass; [done|]|].
  { apply not_next_height; [done|]. by rewrite G1, (mo_height _ _ _ _ _ M1). }
  clear c C. intros c C. change (u64 (hgt [genesis] + 1)) with 1 in G1.
  destruct (make_transfer_A 20 0) as (pay & Ep & Hp); [done..|]. rewrite Ep. apply (passes_deref_then _ pay); [done|].
  eapply (grow_then 3 3); try done; [apply wf_addr_of|by constructor; [apply Hp|]|cbn; lia| |].
  { constructor; [|constructor]. apply (transfer_tx_ok _ _ _ _ _ _ _ Hp). by rewrite A1. }
  intros b2 c' _ M2 C' G2. clear c C. rename c' into c, C' into C. rewrite G1 in G2. change (u64 (1 + 1)) with 2 in G2.
  destruct (after_transfer _ _ _ _ _ _ _ _ Hne M2 Hp) as [A2 B2]. rewrite A1 in A2. rewrite B1 in B2.
  eapply passes_bind; [eapply balance_pass; [done|by rewrite A2]|]. clear c C. intros c C.
  eapply passes_bind; [eapply balance_pass; [done|by rewrite B2]|]. clear c C. intros c C.
  destruct (st_at_run _ _ A C) as (c' & -> & C'). apply passes_then; [by rewrite A2|]. apply passes_then.
  { apply bool_decide_eq_true_2. rewrite (ci_txidx _ (ac_inv _ _ C')), (ac_blocks _ _ C'), index_of_snoc.
    rewrite (mo_txs _ _ _ _ _ M2). cbn [index_txs]. by rewrite lookup_insert_eq. }
  eapply passes_bind; [eapply refusals_pass; [done|cbn; lia|done..]|]. clear c C. intros c C. apply passes_ret.
  exists (([genesis] ++ [b1]) ++ [b2]), b1. split; try done; [by exists b2|by eapply mo_wf|by eapply mo_time].
Qed.
(** *** The pool *)

Lemma adds_pass mp t (c : Chain D) : admissible mp t (st c) test_params → passes (adds mp t c) (λ mp', mp' = inserted mp t).
Proof.
  intros Ha. unfold adds. destruct (add mp t (st c) test_params) as [mp' err] eqn:E.
  apply add_cases in E as [(-> & _ & ->)|(_ & _ & [])]; [|done]. apply passes_then; [done|by apply passes_ret].
Qed.

Lemma keeps_out_pass mp t (c : Chain D) : ¬ admissible mp t (st c) test_params → passes (keeps_out mp t c) (λ mp', mp' = mp).
Proof.
  intros Ha. unfold keeps_out. destruct (add mp t (st c) test_params) as [mp' err] eqn:E.
  apply add_cases in E as [(_ & ? & _)|(He & -> & _)]; [done|].
  apply passes_then; [by apply negb_true_iff, bool_decide_eq_false_2|by apply passes_ret].
Qed.

(** A pool with one valid transfer. *)
Lemma collect_one mp s h v n t : transfer_of kA B v n t → m mp = {[(A, n) := t]} → in_width 64 n →
  tx_ok s t test_params h false → collect mp s test_params h = [t].
Proof.
  intros Ht Hm Hn Hok. destruct (collect_collected mp s test_params h) as (H1 & H2 & _ & H4).
  assert (∀ x, x ∈ (entries mp).*2 → x = t) as Hone.
  { intros x [k Hx]%elem_of_entries_snd. rewrite Hm in Hx. by apply lookup_singleton_Some in Hx as [_ <-]. }
  destruct (collect mp s test_params h) as [|x out].
  - destruct (H4 ltac:(cbn; lia) (A, n) t); [| |done].
    + apply elem_of_entries. by rewrite Hm, lookup_singleton_eq.
    + by rewrite (tr_from _ _ _ _ _ Ht), (tr_nonce _ _ _ _ _ Ht).
  - rewrite (Hone x) in * by by apply H1; left. f_equal. destruct out as [|y out]; [done|exfalso].
    rewrite (Hone y) in * by by apply H1; right; left. inversion H2 as [|???? _ H3]; subst.
    inversion H3 as [|???? H5 _]; subst. apply (transfer_tx_ok _ _ _ _ _ _ _ Ht) in H5 as [H5 _], Hok as [Hok _].
    rewrite acct_tx_post_nonce, decide_True, <- Hok in H5.
    2:{ split; [by rewrite (tr_type _ _ _ _ _ Ht)|by rewrite (tr_from _ _ _ _ _ Ht)]. }
    revert H5. unfold in_width, wrap in *. destruct (Z.eq_dec n (2 ^ 64 - 1)) as [->|?]; [done|].
    rewrite Z.mod_small by lia. lia.
Qed.

Lemma purge_one mp s n t : pool_inv test_params mp → m mp = {[(A, n) := t]} → n < nonce (acct s A) →
  stdpp.base.size (m (purge mp s)) = 0%nat.
Proof.
  intros Hi Hm Hn. destruct (purge_inv _ _ s Hi) as [_ Hp]. apply map_size_empty_iff, map_eq. intros k.
  rewrite Hp, lookup_empty, Hm. case_decide as Hst; [done|]. apply lookup_singleton_None. intros <-. by apply Hst.
Qed.

Lemma transfer_admissible mp bs c v n t : at_chain bs c → transfer_of kA B v n t →
  Z.of_nat (stdpp.base.size (m mp)) < 10000 → txid t ∉ ids mp → m mp !! (A, n) = None →
  nonce (acct (ledger bs) A) = n → v ≤ balance (acct (ledger bs) A) → n < 1000 → 0 ≤ n →
  admissible mp t (st c) test_params.
Proof.
  intros Hc Ht Hs Hi Hf Hn Hb Hn1 Hn2. rewrite <- (ac_acct _ _ _ Hc) in Hn, Hb.
  split; rewrite ?(tr_from _ _ _ _ _ Ht), ?(tr_nonce _ _ _ _ _ Ht), ?(tr_amount _ _ _ _ _ Ht); try done; try apply Ht.
  - rewrite Hn, wrap_small by (unfold in_width; lia). lia.
  - left. split; apply Ht.
Qed.

(** The chain after [pool_checks]. *)
Record after_pool (b1 : Block) (c : Chain D) : Prop := {
  ap_chain : ∃ b2 b3, at_chain [genesis; b1; b2; b3] c;
  ap_height : height c = 3;
}.

Lemma pool_pass bs b1 c pay : after_chain bs b1 c pay → passes (pool_checks fuel w kA kB c) (after_pool b1).
Proof.
  intros [C [b2 Ebs] G HA HB _ _ _ _ _]. unfold pool_checks. cbv zeta.
  destruct (make_transfer_A 5 1) as (good & -> & Hg); [done..|]. apply (passes_deref_then _ good); [done|].
  assert (admissible Mempool_empty good (st c) test_params) as Hadm.
  { by eapply (transfer_admissible _ _ _ 5 1); [..|rewrite HA|rewrite HA| |]. }
  eapply passes_bind; [by apply adds_pass|]. intros mp ->.
  pose proof (inserted_inv test_params _ _ _ (pool_inv_empty _) (tr_wf _ _ _ _ _ Hg) Hadm) as Hinv.
  assert (m (inserted Mempool_empty good) = {[(A, 1) := good]}) as Hm.
  { cbn. by rewrite (tr_from _ _ _ _ _ Hg), (tr_nonce _ _ _ _ _ Hg). }
  set (mp := inserted Mempool_empty good) in *.
  eapply passes_bind; [apply keeps_out_pass|]. { intros Ha. apply (ad_new _ _ _ _ Ha). cbn. set_solver. } intros ? ->.
  destruct (make_transfer_A 6 1) as (conf & -> & Hconf); [done..|]. apply (passes_deref_then _ conf); [done|].
  eapply passes_bind; [apply keeps_out_pass|].
  { intros Ha. pose proof (ad_free _ _ _ _ Ha) as Hf.
    by rewrite (tr_from _ _ _ _ _ Hconf), (tr_nonce _ _ _ _ _ Hconf), Hm, lookup_singleton_eq in Hf. }
  intros ? ->.
  destruct (make_transfer_A 100000 2) as (over & -> & _); [done..|]. apply (passes_deref_then _ over); [done|].
  destruct (make_transfer_A 5 0) as (old & -> & Hold); [done..|]. apply (passes_deref_then _ old); [done|].
  eapply passes_bind; [apply keeps_out_pass|].
  { intros Ha. pose proof (ad_nonce _ _ _ _ Ha) as [Hx _].
    rewrite (tr_from _ _ _ _ _ Hold), (tr_nonce _ _ _ _ _ Hold), (ac_acct _ _ _ C), HA in Hx. by apply Hx. }
  intros ? ->.
  assert (tx_ok (st c) good test_params (u64 (height c + 1)) false) as Hok.
  { apply (transfer_tx_ok _ _ _ _ _ _ _ Hg). by rewrite (ac_acct _ _ _ C), HA. }
  rewrite (collect_one mp _ _ 5 1 good Hg Hm); [|done..]. apply passes_then; [by apply bool_decide_eq_true_2|].
  eapply (grow_then 7 7); try done; [apply wf_addr_of|by constructor; [apply Hg|]|subst bs; cbn; lia| |].
  { constructor; [|constructor]. apply (transfer_tx_ok _ _ _ _ _ _ _ Hg). by rewrite HA. }
  intros b3 c' _ M3 C' G3. apply passes_then.
  - rewrite (purge_one _ _ 1 good); [done..|]. rewrite (ac_acct _ _ _ C').
    by destruct (after_transfer _ _ _ _ _ _ _ _ (ko_addr _ _ Hk) M3 Hg) as [-> _]; rewrite HA.
  - apply passes_ret. split; [subst bs; by exists b2, b3|]. by rewrite (ac_height _ _ C'), G3, G.
Qed.
(** *** The other chain *)

(** The first blocks of the two chains. *)
Definition main_first : option Block := mine_block fuel (first_chain w 0) test_params A [] start_time (rng w 1).
Definition alt_first : option Block :=
  mine_block fuel (first_chain w 8) test_params B [] (u64 (start_time + 10 + Z.of_nat 0)) (rng w 9).

(** The other chain with [i] blocks after the genesis block. *)
Record alt_blocks (i : nat) (ks : list Block) : Prop := {
  al_length : length ks = i;
  al_height : hgt (genesis :: ks) = Z.of_nat i;
  al_B : acct (ledger (genesis :: ks)) B = mkAccount (50 * Z.of_nat i) 0;
  al_other a : a ≠ B → acct (ledger (genesis :: ks)) a = Account_default;
  al_txs b t : b ∈ ks → t ∈ b_txs b → ∃ j, (j < i)%nat ∧ t = coinbase test_params B (Z.of_nat (S j));
  al_first : (0 < i)%nat → ∃ b, head ks = Some b ∧ alt_first = Some b ∧ h_time (b_h b) = start_time + 10;
}.

Definition alt_at (i : nat) (alt : Chain D) : Prop :=
  (i = 0%nat → alt = first_chain w 8) ∧ ∃ ks, at_chain (genesis :: ks) alt ∧ alt_blocks i ks.

Lemma alt_grow i ks b : (i < 10)%nat → alt_blocks i ks →
  mined_on (genesis :: ks) B [] (u64 (start_time + 10 + Z.of_nat i)) b →
  hgt ((genesis :: ks) ++ [b]) = u64 (hgt (genesis :: ks) + 1) →
  (i = 0%nat → alt_first = Some b) → alt_blocks (S i) (ks ++ [b]).
Proof.
  intros Hi [H1 H2 H3 H4 H5 H6] Hb Hh Hfirst.
  assert (u64 (Z.of_nat i + 1) = Z.of_nat (S i)) as Es by (rewrite wrap_small by (unfold in_width; lia); lia).
  split; try change (genesis :: ks ++ [b]) with ((genesis :: ks) ++ [b]).
  - rewrite length_app, H1. cbn. lia.
  - by rewrite Hh, H2.
  - rewrite (after_coinbase _ _ _ _ _ Hb), decide_True, H3 by done. cbn [balance nonce]. f_equal.
    rewrite wrap_small by (unfold in_width; lia). lia.
  - intros a Ha. rewrite (after_coinbase _ _ _ _ _ Hb), decide_False by done. by apply H4.
  - intros x t [Hx|Hx%list_elem_of_singleton]%elem_of_app Ht.
    + destruct (H5 _ _ Hx Ht) as (j & ? & ->). exists j. split; [lia|done].
    + subst x. rewrite (mo_txs _ _ _ _ _ Hb), H2, Es in Ht. apply list_elem_of_singleton in Ht as ->.
      exists i. split; [lia|done].
  - intros _. destruct ks as [|k ks]; cbn [head app].
    + cbn in H1. subst i. exists b. split_and!; [done|by apply Hfirst|]. by rewrite (mo_time _ _ _ _ _ Hb).
    + cbn in H1. apply H6. lia.
Qed.

Lemma alt_pass n i alt : (i + n ≤ 10)%nat → alt_at i alt → passes (alt_loop fuel w B n i alt) (alt_at (i + n)).
Proof.
  revert i alt. induction n as [|n IH]; intros i alt Hn [Hfirst (ks & C & Hks)]; cbn [alt_loop].
  { rewrite Nat.add_0_r. apply passes_ret. split; [done|]. by exists ks. }
  pose proof (al_length _ _ Hks) as Hl.
  assert (u64 (start_time + 10 + Z.of_nat i) = start_time + 10 + Z.of_nat i) as Et.
  { change start_time with 1753000010. apply wrap_small. unfold in_width. lia. }
  eapply grow_then; try done; [apply wf_addr_of|by apply wrap_in_width|cbn; lia|lia|constructor|].
  intros b alt' E M C' G. rewrite <- Nat.add_succ_comm. apply IH; [lia|]. split; [done|].
  exists (ks ++ [b]). split; [done|]. apply alt_grow; try done; [lia|].
  intros ->. rewrite Hfirst in E by done. exact E.
Qed.

(** The strings hashed where the two chains are compared. *)
Definition reorg_pre : list bytes :=
  map (λ b, header_enc (b_h b)) (option_list main_first ++ option_list alt_first) ++
  map tx_enc (option_list (make_transfer kA B 20 0 test_params)) ++
  map (λ j, tx_enc (coinbase test_params B (Z.of_nat (S j)))) (seq 0 5).

(** *** Adopting a chain *)

Lemma work_genesis ks : (length ks < 100)%nat →
  u64 (chain_work test_params (genesis :: ks)) = 1 + 256 * Z.of_nat (length ks).
Proof.
  intros Hl. unfold chain_work. cbn [length]. change (work_of (p_bits test_params)) with 256.
  rewrite wrap_small by (unfold in_width; lia). lia.
Qed.

Lemma adopts k bs ks c alt : at_chain (genesis :: bs) c → at_chain (genesis :: ks) alt → (length bs < length ks)%nat →
  ∃ c', try_replace c (blocks alt) (now w k) =
      (c', "", Some (common_prefix (map block_hash (genesis :: bs)) (map block_hash (genesis :: ks)))) ∧
    at_chain (genesis :: ks) c'.
Proof.
  intros C1 C2 Hlt. pose proof (ac_short _ _ C1) as Hs1. pose proof (ac_short _ _ C2) as Hs2. cbn in Hs1, Hs2.
  destruct (try_replace c (blocks alt) (now w k)) as [[c' err] f] eqn:E. rewrite (ac_blocks _ _ C2) in E.
  apply try_replace_cases in E as [(-> & _ & Hc & Hp & Hb & _ & -> & _)|(_ & _ & _ & Hn)];
    [| |apply C1|by eapply ac_wf].
  - exists c'. rewrite (ci_hashes _ (ac_inv _ _ C1)), (ac_blocks _ _ C1). split; [done|].
    rewrite (ac_params _ _ C1) in Hp. split; try done; apply C2.
  - destruct Hn. split_and!; [done| | |].
    + rewrite (ac_params _ _ C1). by eapply ac_valid.
    + intros j b Hj _. pose proof (proj1 (Forall_lookup _ _) (ac_times _ _ C2) j b Hj) as Ht. cbn beta in Ht.
      pose proof (oo_now _ _ Hw k (0 + j)%nat). lia.
    + rewrite (ac_work _ _ C1), (ac_params _ _ C1), !work_genesis by lia. lia.
Qed.

Lemma not_adopted k bs ks c alt : at_chain (genesis :: bs) c → at_chain (genesis :: ks) alt → (length ks ≤ length bs)%nat →
  ∃ err, err ≠ "" ∧ try_replace c (blocks alt) (now w k) = (c, err, None).
Proof.
  intros C1 C2 Hle. pose proof (ac_short _ _ C1) as Hs1. pose proof (ac_short _ _ C2) as Hs2. cbn in Hs1, Hs2.
  destruct (try_replace c (blocks alt) (now w k)) as [[c' err] f] eqn:E. exists err. rewrite (ac_blocks _ _ C2) in E.
  apply try_replace_cases in E as [(_ & (_ & _ & _ & Hx) & _)|(? & -> & -> & _)];
    [|done|apply C1|by eapply ac_wf].
  rewrite (ac_work _ _ C1), (ac_params _ _ C1), !work_genesis in Hx by lia. lia.
Qed.

Context (K : list bytes) (HK : reorg_pre ⊆ K) (Hno : ¬ collision K).

(** The chains part after the genesis block. *)
Lemma fork_1 b1 bs ks : main_first = Some b1 → wf_block b1 → h_time (b_h b1) = start_time →
  Forall wf_block ks → alt_blocks 5 ks →
  common_prefix (map block_hash (genesis :: b1 :: bs)) (map block_hash (genesis :: ks)) = 1%nat.
Proof.
  intros E1 Hb1 Ht1 Hks Ha. destruct (al_first _ _ Ha) as (a1 & Eh & E2 & Ht2); [lia|].
  destruct ks as [|k ks]; [done|]. injection Eh as ->. apply Forall_cons in Hks as [Ha1 _].
  cbn [map common_prefix]. rewrite bool_decide_eq_true_2 by done. rewrite bool_decide_eq_false_2; [done|].
  intros E. unfold block_hash in E. apply (header_hash_inj K) in E as [E|?]; try done.
  - rewrite E, Ht2 in Ht1. lia.
  - apply HK. unfold reorg_pre. rewrite E1, E2. by left.
  - apply HK. unfold reorg_pre. rewrite E1, E2. by right; left.
  - apply Hb1.
  - apply Ha1.
Qed.

(** The payment is not in the other chain. *)
Lemma pay_gone pay ks : make_transfer kA B 20 0 test_params = Some pay → transfer_of kA B 20 0 pay →
  alt_blocks 5 ks → index_of (genesis :: ks) !! txid pay = None.
Proof.
  intros Ep Hp Ha. destruct (index_of (genesis :: ks) !! txid pay) as [v|] eqn:E; [exfalso|done].
  apply index_of_sound in E as (b & j & t & Hb & Ht & Eid & _). apply list_elem_of_lookup_2 in Ht.
  apply elem_of_cons in Hb as [->|Hb]; [by apply elem_of_nil in Ht|].
  destruct (al_txs _ _ Ha _ _ Hb Ht) as (i & Hi & ->).
  apply (txid_inj K) in Eid as [Eid|?]; try done.
  - pose proof (tr_type _ _ _ _ _ Hp) as Hty. by rewrite Eid in Hty.
  - apply HK. unfold reorg_pre. rewrite Ep. apply elem_of_app. right. apply elem_of_app. by left; left.
  - apply HK. unfold reorg_pre. apply elem_of_app. right. apply elem_of_app. right.
    apply (list_elem_of_fmap_2 (λ j, tx_enc (coinbase test_params B (Z.of_nat (S j)))) _ i), elem_of_seq. lia.
  - by eapply transfer_wire.
  - split; [|done]. apply wf_coinbase; [apply wf_test_params|apply wf_addr_of|unfold in_width; lia].
Qed.

Lemma unknown_run ks c a : at_chain ks c → balance (acct (ledger ks) a) = 0 →
  ∃ c', unknown_or_empty c a = (true, c') ∧ at_chain ks c'.
Proof.
  intros C E. unfold unknown_or_empty. case_match; [|by exists c].
  destruct (st_at_run _ _ a C) as (c' & -> & C'). exists c'. rewrite E. done.
Qed.

Lemma reorg_pass bs b1 c0 c pay : after_chain bs b1 c0 pay → after_pool b1 c →
  passes (reorg_checks fuel w kA kB pay c) (λ _, True).
Proof.
  intros [_ _ _ _ _ Ep Hp E1 Hb1 Ht1] [(b2 & b3 & C) Hh]. unfold reorg_checks. cbv zeta. rewrite Hh.
  eapply passes_bind; [apply new_chain_pass|]. intros ? [-> A0].
  eapply passes_bind; [apply alt_pass; [vm_compute; lia|]|].
  { split; [done|]. exists []. split; [done|]. split; try done; [|lia]. by intros b t ?%elem_of_nil. }
  change (0 + Z.to_nat (u64 (3 + 2)))%nat with 5%nat. intros alt [_ (ks & CA & Ha)].
  pose proof (al_length _ _ Ha) as Hl. pose proof (proj2 (proj1 (Forall_cons _ _ _) (ac_wf _ _ CA))) as Hwf.
  apply passes_then.
  { rewrite (ac_work _ _ C), (ac_work _ _ CA), !work_genesis, Hl by (rewrite ?Hl; cbn; lia). done. }
  destruct (adopts 100 _ _ _ _ C CA) as (c1 & E & C1); [rewrite Hl; cbn; lia|]. rewrite E. clear E.
  apply passes_then; [done|]. rewrite (fork_1 b1 [b2; b3] ks) by done.
  apply passes_then; [done|]. apply passes_then; [by rewrite (ac_height _ _ C1), (al_height _ _ Ha)|].
  eapply passes_bind; [eapply balance_pass; [done|by rewrite (al_B _ _ Ha)]|]. intros c2 C2.
  destruct (unknown_run _ _ A C2) as (c3 & -> & C3); [by rewrite (al_other _ _ Ha) by apply Hk|].
  apply passes_then; [done|]. apply passes_then.
  { apply bool_decide_eq_true_2. rewrite (ci_txidx _ (ac_inv _ _ C3)), (ac_blocks _ _ C3). by apply pay_gone. }
  destruct (not_adopted 101 _ _ _ _ C3 CA) as (err & He & ->); [lia|]. apply passes_then; [by rewrite orb_true_r|].
  eapply passes_bind; [apply new_chain_pass|]. intros ? [-> W0].
  eapply (grow_then 103 103 [genesis]); try done; [apply wf_addr_of|cbn; lia|constructor|]. intros wb worse _ _ W _.
  destruct (not_adopted 104 _ [wb] _ _ C3 W) as (err' & He' & ->); [rewrite Hl; cbn; lia|].
  apply passes_then; [by apply negb_true_iff, bool_decide_eq_false_2|by apply passes_ret].
Qed.
End main.

(** ** The program *)

(** What the self-test hashes where it expects different hashes. *)
Definition selftest_pre (fuel : nat) (w : Outside) (kA kB : KeyPair) : list bytes :=
  leaf_pre ++ tx_pre kA kB ++ genesis_pre ++ reorg_pre fuel w kA kB.

Lemma collision_dec K : collision K ∨ ¬ collision K.
Proof.
  assert (collision K ↔ Exists (λ x, Exists (λ y, x ≠ y ∧ hash256d x = hash256d y) K) K) as ->.
  { rewrite Exists_exists. setoid_rewrite Exists_exists. unfold collision. naive_solver. }
  destruct (decide (Exists (λ x, Exists (λ y, x ≠ y ∧ hash256d x = hash256d y) K) K)); auto.
Qed.

Lemma parts_pass fuel w kA kB :
  @kp_generate (with_generated CN (generated w 0%nat)) = Some kA →
  @kp_generate (with_generated CN (generated w 1%nat)) = Some kB →
  keys_ok kA kB → outside_ok fuel w → ¬ collision (selftest_pre fuel w kA kB) →
  passes (part_checks fuel w) (λ _, True).
Proof.
  intros EA EB Hk Hw Hno. set (K := selftest_pre fuel w kA kB) in *.
  assert (leaf_pre ⊆ K ∧ tx_pre kA kB ⊆ K ∧ genesis_pre ⊆ K ∧ reorg_pre fuel w kA kB ⊆ K) as (K1 & K2 & K3 & K4).
  { rewrite <- !list_subseteq_app_iff_l. by intros x. }
  unfold part_checks. eapply passes_bind; [apply hex_pass|]. intros _ _. eapply passes_bind; [apply pow_pass|]. intros _ _. cbv zeta.
  rewrite EA, EB. apply passes_then; [done|].
  apply (passes_deref_then _ kA); [done|]. apply (passes_deref_then _ kB); [done|].
  eapply passes_bind; [by apply signature_pass; [|apply Hw]|]. intros _ _.
  eapply passes_bind; [by apply (merkle_pass K)|]. intros _ _.
  eapply passes_bind; [by apply (tx_pass K)|]. intros _ _.
  eapply passes_bind; [by apply (genesis_pass K)|]. intros _ _.
  eapply passes_bind; [by apply chain_pass|]. intros [c pay] (bs & b1 & Hc).
  eapply passes_bind; [by eapply pool_pass|]. intros c' Hc'.
  eapply passes_bind; [by eapply (reorg_pass _ _ _ _ Hw Hk K)|]. intros ? _. by apply passes_ret.
Qed.

(** C25: the self-test passes. When the keys it generates sign, its forgeries are rejected,
    nonces that meet the difficulty exist and the clock is past the times of its blocks,
    the run of [main] ends - enough fuel is as many attempts as there are nonces - and
    every check on texts, difficulty, signatures, Merkle trees, transactions, the genesis
    block, the chain, the pool and the reorganisation succeeds: the exit code only depends
    on the published vectors of the hash function. Otherwise two of the strings that it
    hashes collide. *)
Theorem selftest_passes fuel w kA kB :
  @kp_generate (with_generated CN (generated w 0%nat)) = Some kA →
  @kp_generate (with_generated CN (generated w 1%nat)) = Some kB →
  keys_ok kA kB → outside_ok fuel w →
  selftest fuel w = Some (if forallb vector_ok hash_vectors then 0 else 1) ∨
  collision (selftest_pre fuel w kA kB).
Proof.
  intros EA EB Hk Hw. destruct (collision_dec (selftest_pre fuel w kA kB)) as [|Hno]; [by right|left].
  destruct (parts_pass _ _ _ _ EA EB Hk Hw Hno) as (l & [] & E & Hl & _).
  unfold selftest, checks, hash_checks. rewrite for_each_checks. unfold mbind, run_bind.
  rewrite E, forallb_app, Hl, andb_true_r.
  assert (∀ vs, forallb id (map vector_ok vs) = forallb vector_ok vs) as Hid; [|by rewrite Hid].
  induction vs as [|v vs IH]; [done|]. cbn [map forallb]. by rewrite IH.
Qed.
End spec.
