(* ===== verification/Samples.v ===== *)
(** * Samples: a concrete chain, pool and node

    Inputs at which the theorems are applied: parameters with the easiest
    difficulty, a toy signature scheme in place of bcrypt.dll, the SHA-256 of the
    code, a database in memory, and a chain of three blocks with a transfer and a
    record. *)

From S2P Require Import Prelude Hex Serial Sha256 Hash Crypto Merkle Tx Ledger Store Chain Consensus Recovery Typed Mempool Miner Net Node Safety.

Local Open Scope Z_scope.

(** ** Signatures

    A key is its public part; a signature is the digest twice. *)
#[export] Instance toy_cng : Cng := {|
  CngKey := bytes;
  BCryptOpenAlgorithmProvider := true;
  BCryptImportKeyPair_public blob := if decide (length blob = 72%nat) then Some (drop 8 blob) else None;
  BCryptImportKeyPair_private blob :=
    if decide (length blob = 104%nat) then Some (take 64 (drop 8 blob)) else None;
  BCryptVerifySignature _ digest sig := bool_decide (sig = digest ++ digest);
  BCryptSignHash _ digest := Some (digest ++ digest);
  BCryptGenerateKeyPair := Some (replicate 64 7);
  BCryptFinalizeKeyPair k := Some k;
  BCryptExportKey_size _ := Some 104;
  BCryptExportKey _ _ := Some (le 4 0x32534345 ++ le 4 32 ++ replicate 64 7 ++ replicate 32 9);
|}.

(** ** A table whose cells are bytes *)

Record ByteTable := mkByteTable { cells : gmap Z (list Z) }.

#[export] Instance byte_db : Sqlite ByteTable := {|
  sql_run s d := let '(m, ok) := mem_run s (cells d) in (mkByteTable m, ok);
  sql_select d := Some (map (map u8) (ordered_rows (cells d)));
  sql_errmsg _ := "not an error";
|}.

Lemma byte_rows_wf : rows_wf (D := ByteTable).
Proof.
  intros d raws [= <-]. apply Forall_fmap, Forall_true. intros l. cbn.
  apply Forall_fmap, Forall_true. intros x. by apply wrap_in_width.
Qed.

(** ** A chain

    Nothing below evaluates the hash function: with difficulty 0 every block has its
    proof of work, and the templates of the miner are valid by construction. *)

Abbreviation Table := (gmap Z (list Z)).

Definition sample_params : Params := mkParams 0x4C495445 0 50 1753000000.
Definition sample_now : Z := 1753000600.
Definition sample_clock : nat → Z := λ _, sample_now.
Definition sample_pub : bytes := replicate 64 7.
Definition other_addr : bytes := replicate 20 5.

Lemma wf_sample_params : wf_params sample_params.
Proof. by apply (bool_decide_unpack _). Qed.

Section samples.
Context `{HF : HashFn}.

Definition sample_addr : bytes := addr_of sample_pub.

(** [t] signed by the toy scheme. *)
Definition signed (t : Tx) : Tx :=
  mkTx (t_type t) (t_net_id t) (t_from t) (t_to t) (t_amount t) (t_nonce t) (t_payload t)
    (sign_hash t ++ sign_hash t).

Definition sample_transfer : Tx :=
  signed (mkTx TX_TRANSFER (p_net_id sample_params) sample_pub other_addr 20 0 [] []).
Definition sample_record : Tx :=
  signed (mkTx TX_RECORD (p_net_id sample_params) sample_pub (replicate 20 0) 0 1 [104; 105] []).

(** One block of the sample miner. *)
Definition next_block {D} (c : Chain D) (txs : list Tx) (now n : Z) : Block :=
  sealed (template c sample_params sample_addr txs now) n.

Definition connected {D} `{DB : Sqlite D} (c : Chain D) (b : Block) : Chain D :=
  (connect_block c b sample_now).1.

Definition sample_genesis : Block := make_genesis sample_params.
Definition chain0 : Chain Table :=
  connected (set_db (Chain_new sample_params) (Some ∅)) sample_genesis.
Definition sample_b1 : Block := next_block chain0 [] 1753000060 7.
Definition chain1 : Chain Table := connected chain0 sample_b1.
Definition sample_b2 : Block := next_block chain1 [sample_transfer; sample_record] 1753000120 11.
Definition chain2 : Chain Table := connected chain1 sample_b2.
Definition sample_blocks : list Block := [sample_genesis; sample_b1; sample_b2].

(** ** Transactions *)

Lemma wf_signed t : wf_tx (mkTx (t_type t) (t_net_id t) (t_from t) (t_to t) (t_amount t)
    (t_nonce t) (t_payload t) (replicate 64 0)) → wf_tx (signed t).
Proof.
  intros []. split; try done. cbn. destruct (wf_hash256d (tx_ser t [] false)) as [Hl Hb].
  unfold sign_hash. split; [by rewrite length_app, Hl|by apply Forall_app].
Qed.

Lemma signed_authentic t : is_zero (t_from t) = false → length (t_from t) = 64%nat →
  authentic (signed t).
Proof.
  intros Hz Hl. split; [done|]. unfold sig_verify, public_blob.
  cbn [BCryptOpenAlgorithmProvider toy_cng negb BCryptImportKeyPair_public].
  rewrite decide_True by (cbn [signed t_from]; by rewrite !length_app, !length_le, Hl).
  cbn [BCryptVerifySignature toy_cng]. by apply bool_decide_eq_true_2.
Qed.

Lemma wire_transfer : wire_tx sample_transfer.
Proof. split; [|done]. apply wf_signed. by apply (bool_decide_unpack _). Qed.

Lemma wire_record : wire_tx sample_record.
Proof. split; [|done]. apply wf_signed. by apply (bool_decide_unpack _). Qed.

(** The transfer and the record are valid when the sender has the money. *)
Lemma sample_txs_ok h st : acct st sample_addr = mkAccount 50 0 →
  txs_ok sample_params h st 1 [sample_transfer; sample_record].
Proof.
  intros E. assert (addr_of (t_from sample_transfer) = sample_addr) as Ea by done.
  constructor; [|constructor; [|constructor]].
  - split; [done|]. split; [by apply signed_authentic|]. rewrite Ea, E. split; [done|]. by left.
  - split; [done|]. split; [by apply signed_authentic|].
    change (addr_of (t_from sample_record)) with sample_addr.
    assert (nonce (acct (tx_post st sample_transfer) sample_addr) = 1) as ->.
    { unfold tx_post. change (addr_of (t_from sample_transfer)) with sample_addr.
      change (t_type sample_transfer =? TX_COINBASE) with false.
      change (t_type sample_transfer =? TX_TRANSFER) with true. cbv iota.
      autorewrite with ledger. rewrite decide_True by done. cbn [nonce].
      repeat case_decide; cbn [nonce]; by rewrite ?E. }
    split; [done|]. right. done.
Qed.

(** ** Growing a chain *)

Record good {D} (c : Chain D) : Prop := {
  good_inv : chain_inv c;
  good_params : params c = sample_params;
  good_nonempty : blocks c ≠ [];
  good_size : size (blocks c) ≤ 1000;
  good_keys : addr_keys (st c);
}.

Lemma pow_ok_0 h : wf_array 32 h → pow_ok h 0 = true.
Proof.
  intros Hh. pose proof (leading_zero_bits_range h Hh). unfold pow_ok.
  rewrite wrap_small by (unfold in_width; lia). apply Z.leb_le. lia.
Qed.

Lemma sample_supply {D} (c : Chain D) : good c →
  supply (st c) = 50 * Z.of_nat (pred (length (blocks c))).
Proof.
  intros [Hc Hp _ Hs _]. unfold size in Hs. rewrite (ci_st c Hc), (valid_supply (params c));
    [by rewrite Hp|by rewrite Hp|apply Hc|apply Hc|]. rewrite Hp. cbn [p_reward sample_params]. lia.
Qed.

Lemma grow {D} `{DB : Sqlite D} (c : Chain D) txs now n : good c → size (blocks c) < 1000 →
  pickable c txs → 0 ≤ now ≤ sample_now → in_width 64 n →
  let b := next_block c txs now n in
  wf_block b ∧ next_ok sample_params (blocks c) b ∧
  connect_block c b sample_now = (connected c b, "") ∧ good (connected c b) ∧
  blocks (connected c b) = blocks c ++ [b].
Proof.
  intros Hg Hs Ht Hnow Hn. pose proof (sample_supply c Hg) as Hsup. destruct Hg as [Hc Hp Hne _ Hk].
  pose proof wf_sample_params as Hwp. assert (in_width 64 now) by (unfold in_width, sample_now in *; lia).
  unfold next_block. rewrite <- Hp in *.
  assert (wf_block (sealed (template c (params c) sample_addr txs now) n)) as Hb
    by (apply wf_sealed; try done; [apply wf_addr_of|apply Ht]).
  assert (next_ok (params c) (blocks c) (sealed (template c (params c) sample_addr txs now) n)) as Hok.
  { apply template_next_ok; try done.
    - rewrite <- (ci_st c Hc), Hsup, Hp. unfold size in *. cbn [p_reward sample_params]. lia.
    - unfold good_nonce. rewrite Hp. apply pow_ok_0, wf_hash256d. }
  destruct (connect_block_run c (sealed (template c (params c) sample_addr txs now) n) sample_now)
    as [c' E]; [done..| |].
  { intros _. change (now ≤ u64 (sample_now + MAX_TIME_SKEW_S)). transitivity sample_now; [lia|done]. }
  unfold connected. rewrite E. cbn [fst].
  pose proof (connect_block_ok _ _ _ _ Hc Hb E) as (_ & _ & Hc' & Hp' & Hbs & _).
  split_and!; try done. split; try done; [congruence|by rewrite Hbs; destruct (blocks c)| |by eapply addr_keys_connect].
  rewrite Hbs. unfold size in *. rewrite length_app. cbn. lia.
Qed.

(** ** The sample chain *)

Lemma genesis_connects {D} `{DB : Sqlite D} (d : option D) now :
  connect_block (set_db (Chain_new sample_params) d) sample_genesis now =
    (append (set_db (Chain_new sample_params) d) sample_genesis 1, "").
Proof.
  unfold connect_block. cbn [tip blocks set_db Chain_new last params].
  rewrite !bool_decide_eq_true_2 by done. reflexivity.
Qed.

Lemma wf_sample_genesis : wf_block sample_genesis.
Proof. apply wf_make_genesis, wf_sample_params. Qed.

Lemma good_chain0 : good chain0 ∧ blocks chain0 = [sample_genesis].
Proof.
  unfold chain0, connected. rewrite genesis_connects. cbn [fst]. split; [|done].
  pose proof (genesis_connects (D := Table) (Some ∅) sample_now) as E.
  apply connect_block_ok in E as (_ & _ & Hc & _); [|by split; try constructor|apply wf_sample_genesis].
  split; try done. apply addr_keys_empty.
Qed.

Lemma pickable_nil {D} (c : Chain D) : pickable c [].
Proof. by split_and!; [constructor|constructor|]. Qed.

Lemma sample_block1 :
  wf_block sample_b1 ∧ next_ok sample_params (blocks chain0) sample_b1 ∧
  connect_block chain0 sample_b1 sample_now = (chain1, "") ∧ good chain1 ∧
  blocks chain1 = [sample_genesis; sample_b1].
Proof.
  destruct good_chain0 as [Hg E].
  destruct (grow chain0 [] 1753000060 7 Hg) as (H1 & H2 & H3 & H4 & H5); [by rewrite E|apply pickable_nil|done..|].
  rewrite E in H5. by split_and!.
Qed.

(** The reward of the first block is spent in the second. *)
Lemma sample_acct1 : acct (st chain1) sample_addr = mkAccount 50 0.
Proof.
  destruct sample_block1 as (_ & _ & _ & [Hc _ _ _] & E). rewrite (ci_st chain1 Hc), E.
  change (ledger [sample_genesis; sample_b1]) with (credit ∅ sample_addr 50).
  by rewrite acct_credit, decide_True.
Qed.

Lemma pickable_sample : pickable chain1 [sample_transfer; sample_record].
Proof.
  destruct sample_block1 as (_ & _ & _ & [_ Hp _ _] & _). unfold pickable. rewrite Hp.
  split; [|split; [by apply sample_txs_ok, sample_acct1|done]].
  constructor; [apply wire_transfer|]. constructor; [apply wire_record|constructor].
Qed.

Lemma sample_block2 :
  wf_block sample_b2 ∧ next_ok sample_params (blocks chain1) sample_b2 ∧
  connect_block chain1 sample_b2 sample_now = (chain2, "") ∧ good chain2 ∧
  blocks chain2 = sample_blocks.
Proof.
  destruct sample_block1 as (_ & _ & _ & Hg & E).
  destruct (grow chain1 [sample_transfer; sample_record] 1753000120 11 Hg)
    as (H1 & H2 & H3 & H4 & H5); [by rewrite E|apply pickable_sample|done..|].
  rewrite E in H5. by split_and!.
Qed.

Lemma chain2_inv : chain_inv chain2.
Proof. apply sample_block2. Qed.

Lemma chain2_params : params chain2 = sample_params.
Proof. apply sample_block2. Qed.

Lemma chain2_blocks : blocks chain2 = sample_blocks.
Proof. apply sample_block2. Qed.

Lemma sample_blocks_valid : chain_valid sample_params sample_blocks ∧ Forall wf_block sample_blocks.
Proof.
  rewrite <- chain2_blocks, <- chain2_params. split; apply chain2_inv.
Qed.

Lemma sample_wire_blocks : Forall wire_block sample_blocks.
Proof. destruct sample_blocks_valid. by eapply valid_wire. Qed.

Lemma sample_times bs : times_ok bs sample_blocks sample_clock 0.
Proof.
  intros j b Hj _. do 3 (destruct j as [|j]; [injection Hj as <-; done|]). done.
Qed.

(** The sample chain is better than its first block. *)
Lemma sample_candidate : candidate_ok chain0 sample_blocks sample_clock.
Proof.
  destruct good_chain0 as [[Hc Hp _ _ _] E]. unfold candidate_ok. rewrite Hp.
  split_and!; [done|apply sample_blocks_valid|apply sample_times|].
  by rewrite (ci_work _ Hc), Hp, E.
Qed.

(** The chain of a node that adopted the sample chain. *)
Definition adopted : Chain Table := (try_replace chain0 sample_blocks sample_clock).1.1.

Lemma adopted_ok : chain_inv adopted ∧ params adopted = sample_params ∧ blocks adopted = sample_blocks.
Proof.
  destruct good_chain0 as [[Hc Hp _ _ _] E]. unfold adopted.
  destruct (try_replace chain0 sample_blocks sample_clock) as [[c err] f] eqn:Er.
  apply try_replace_cases in Er as [(_ & _ & H1 & H2 & H3 & _)|(_ & _ & _ & [])];
    [| |done|apply sample_blocks_valid].
  - cbn [fst]. by rewrite H2.
  - apply sample_candidate.
Qed.
End samples.

(** ** Applying a theorem *)

(** The instances of [t] are found before its type is compared with the goal. *)
Ltac instance_of t := let H := fresh "H" in pose proof t as H; exact H.
