(* ===== verification/ChainWitnesses.v ===== *)
(** * ChainWitnesses: the theorems on chains at the sample chain

    The theorems of [Consensus], [Chain], [Recovery], [Safety] and [Miner] applied to
    the chain of [Samples], with the SHA-256 of the code. *)

From S2P Require Import Prelude Hex Serial Sha256 Hash Crypto Merkle Tx Ledger Store Chain Consensus Recovery Mempool Miner Net Node Safety Samples.

Local Open Scope Z_scope.

(** ** The hypotheses

    They hold for any hash function. *)

Definition sample_table `{HF : HashFn} : Table := rows_of_list (map block_serialize sample_blocks).

(** A table whose second row was damaged. *)
Definition damaged_rows : list bytes := [block_serialize sample_genesis; [1; 2; 3]; []].

Section facts.
Context `{HF : HashFn}.

Lemma chain0_inv : chain_inv chain0.
Proof. apply good_chain0. Qed.

Lemma chain1_inv : chain_inv chain1.
Proof. apply sample_block1. Qed.

Lemma wf_sample_b2 : wf_block sample_b2.
Proof. apply sample_block2. Qed.

Lemma wf_sample_blocks : Forall wf_block sample_blocks.
Proof. apply sample_blocks_valid. Qed.

Lemma sample_chain_valid : chain_valid sample_params sample_blocks.
Proof. apply sample_blocks_valid. Qed.

Lemma chain2_wf_params : wf_params (params chain2).
Proof. rewrite chain2_params. apply wf_sample_params. Qed.

Lemma chain2_reward : 0 ≤ p_reward (params chain2).
Proof. by rewrite chain2_params. Qed.

Lemma chain2_txs n : 4 ≤ n → size (chain_txs (blocks chain2)) ≤ n.
Proof. rewrite chain2_blocks. done. Qed.

Lemma chain2_size n : 3 ≤ n → size (blocks chain2) ≤ n.
Proof. rewrite chain2_blocks. done. Qed.

Lemma chain2_nonempty : blocks chain2 ≠ [].
Proof. by rewrite chain2_blocks. Qed.

Lemma chain2_third : blocks chain2 !! 2%nat = Some sample_b2.
Proof. by rewrite chain2_blocks. Qed.

(** The chain that was adopted has the tip of the one built block by block. *)
Lemma adopted_like_chain2 : params chain2 = params adopted ∧ size (blocks adopted) ≤ 2 ^ 64 ∧
  blocks adopted ≠ [] ∧ tip_hash chain2 = tip_hash adopted.
Proof.
  destruct adopted_ok as (Ha & Hp & Hb). rewrite chain2_params, Hp. rewrite Hb. split_and!; try done.
  rewrite !chain_inv_tip by (done || apply chain2_inv). unfold tip. by rewrite chain2_blocks, Hb.
Qed.

Lemma adopted_inv : chain_inv adopted.
Proof. apply adopted_ok. Qed.

Lemma sample_stored : rows sample_table = rows_of_list (map block_serialize sample_blocks).
Proof. done. Qed.

Lemma schema_runs (d : Table) :
  (exec_all schema_texts d).2 = true ∧ usable (exec_all schema_texts d).1.
Proof. done. Qed.

Lemma wf_damaged_rows : Forall wf_bytes damaged_rows.
Proof. by apply (bool_decide_unpack _). Qed.

Lemma few_damaged_rows : size damaged_rows < 2 ^ 63.
Proof. done. Qed.

Lemma sample_nonempty : sample_blocks ≠ [].
Proof. done. Qed.

Lemma sample_few : size sample_blocks < 2 ^ 63.
Proof. done. Qed.

Lemma sample_b2_txs : b_txs sample_b2 ≠ [].
Proof. done. Qed.

Lemma sample_step : chain_step chain0 chain1.
Proof. apply (step_connect _ sample_b1 sample_now); apply sample_block1. Qed.

Lemma chain0_kept : wf_params (params chain0) ∧ chain_inv chain0 ∧ db_ok chain0 ∧
  persisting chain0 = true ∧ size (blocks chain0) < 2 ^ 63 ∧ size (blocks chain1) < 2 ^ 63.
Proof.
  destruct good_chain0 as [[Hc Hp _ _ _] E]. destruct sample_block1 as (_ & _ & _ & _ & ->).
  rewrite Hp, E. pose proof wf_sample_params. split_and!; try done.
  - unfold chain0, connected. rewrite genesis_connects. by intros d [= <-].
  - unfold chain0, connected. by rewrite genesis_connects.
Qed.
End facts.

Local Notation SHA := sha256_hash.

(** ** Consensus *)

Lemma connect_block_refines_witness :
  let '(c', err) := connect_block chain1 sample_b2 sample_now in
  (err = "" ↔ next_ok (params chain1) (blocks chain1) sample_b2 ∧
     time_ok (blocks chain1) sample_b2 sample_now) ∧
  (err = "" → chain_inv c' ∧ params c' = params chain1 ∧ blocks c' = blocks chain1 ++ [sample_b2] ∧
     db c' = if persisting chain1 then (λ d, db_insert d sample_b2) <$> db chain1 else db chain1) ∧
  (err ≠ "" → c' = chain1).
Proof.
  instance_of (connect_block_refines (HF := SHA) chain1 sample_b2 sample_now
           (@chain1_inv SHA) (@wf_sample_b2 SHA)).
Defined.

Lemma supply_conservation_witness :
  let minted := p_reward (params chain2) * Z.of_nat (pred (length (blocks chain2))) in
  u64 (supply (st chain2)) = u64 minted ∧
  (minted < 2 ^ 64 → supply (st chain2) = minted ∧ ∀ a, 0 ≤ balance (acct (st chain2) a) ≤ minted).
Proof. instance_of (supply_conservation (HF := SHA) chain2 (@chain2_inv SHA) (@chain2_reward SHA)). Defined.

Lemma no_replay_witness :
  let sent := nonces_of sample_addr (chain_txs (blocks chain2)) in
  sent = nonce_seq 0 (length sent) ∧ NoDup sent ∧ nonce (acct (st chain2) sample_addr) = u64 (size sent).
Proof. instance_of (no_replay (HF := SHA) chain2 sample_addr (@chain2_inv SHA) (@chain2_txs SHA (2 ^ 64) ltac:(lia))). Defined.

Lemma tip_hash_commits_witness :
  (blocks chain2 = blocks adopted ∧ st chain2 ≡ st adopted ∧ txidx chain2 = txidx adopted ∧
   work chain2 = work adopted) ∨
  collision (chain_pre (params chain2) (blocks chain2) ++ chain_pre (params chain2) (blocks adopted)).
Proof.
  destruct (@adopted_like_chain2 SHA) as (Hp & Hs & Hne & Ht).
  instance_of (tip_hash_commits (HF := SHA) chain2 adopted (@chain2_wf_params SHA) (@chain2_inv SHA) (@adopted_inv SHA) Hp
           (@chain2_size SHA (2 ^ 64) ltac:(lia)) Hs (@chain2_nonempty SHA) Hne Ht).
Defined.

Lemma txidx_exact_witness :
  (∀ id h j, txidx chain2 !! id = Some (h, j) ↔
     ∃ b t, blocks chain2 !! Z.to_nat h = Some b ∧ b_txs b !! Z.to_nat j = Some t ∧ txid t = id ∧
       0 ≤ h ∧ 0 ≤ j) ∨ collision (chain_pre (params chain2) (blocks chain2)).
Proof.
  instance_of (txidx_exact (HF := SHA) chain2 (@chain2_wf_params SHA) (@chain2_inv SHA) (@chain2_size SHA (2 ^ 32) ltac:(lia))
           (@chain2_txs SHA (2 ^ 64) ltac:(lia))).
Defined.

Lemma tx_proof_sound_witness :
  (sample_transfer ∈ b_txs sample_b2 → ∃ steps, Forall (λ s, wf_array 32 (step_h s)) steps ∧
     merkle_apply (txid sample_transfer) steps = h_merkle (b_h sample_b2)) ∧
  (∀ steps, Forall (λ s, wf_array 32 (step_h s)) steps →
     merkle_apply (txid sample_transfer) steps = h_merkle (b_h sample_b2) →
     sample_transfer ∈ b_txs sample_b2 ∨
     collision (txs_pre (b_txs sample_b2) ++ tx_enc sample_transfer :: path_pre (txid sample_transfer) steps)).
Proof.
  instance_of (tx_proof_sound (HF := SHA) chain2 2 sample_b2 sample_transfer (@chain2_inv SHA)
                 (@chain2_third SHA) (@sample_b2_txs SHA) (@wire_transfer SHA)).
Defined.

(** ** Reorganisation and recovery *)

Lemma try_replace_refines_witness :
  let '(c', err, fork) := try_replace chain0 sample_blocks sample_clock in
  (err = "" ↔ candidate_ok chain0 sample_blocks sample_clock) ∧
  (err = "" → chain_inv c' ∧ params c' = params chain0 ∧ blocks c' = sample_blocks ∧
     work chain0 < work c' ∧
     ∃ f, fork = Some f ∧ take f (hashes c') = take f (hashes chain0) ∧
       (∀ h k, hashes c' !! f = Some h → hashes chain0 !! f = Some k → h ≠ k)) ∧
  (err ≠ "" → c' = chain0 ∧ fork = None).
Proof.
  instance_of (try_replace_refines (HF := SHA) chain0 sample_blocks sample_clock (@chain0_inv SHA)
           (@wf_sample_blocks SHA)).
Defined.

Lemma init_recovers_witness :
  ∃ c', init (Chain_new sample_params) (Some sample_table) sample_clock = (c', "") ∧ chain_inv c' ∧
    params c' = sample_params ∧ blocks c' = sample_blocks ∧ db_ok c'.
Proof.
  instance_of (init_recovers (HF := SHA) sample_params sample_table sample_blocks sample_clock
                 wf_sample_params (@wf_sample_blocks SHA) (@sample_chain_valid SHA) (@sample_nonempty SHA)
                 (@sample_times SHA []) (@sample_stored SHA) (@sample_few SHA)
                 (proj1 (schema_runs _)) (proj2 (schema_runs _))).
Defined.

Lemma init_keeps_valid_prefix_witness :
  ∃ c' bs rest, init (Chain_new sample_params) (Some (rows_of_list damaged_rows)) sample_clock = (c', "") ∧
    chain_inv c' ∧ params c' = sample_params ∧ blocks c' = or_genesis sample_params bs ∧
    damaged_rows = map block_serialize bs ++ rest ∧
    (∀ raw tl, rest = raw :: tl → bad_row sample_params bs raw (sample_clock (length bs))) ∧
    db_ok c'.
Proof.
  instance_of (init_keeps_valid_prefix (HF := SHA) sample_params (rows_of_list damaged_rows) damaged_rows
                 sample_clock wf_sample_params wf_damaged_rows eq_refl few_damaged_rows
                 (proj1 (schema_runs _)) (proj2 (schema_runs _))).
Defined.

Lemma database_follows_chain_witness : 
  db_ok chain1 ∨ collision (chain_pre (params chain0) (blocks chain0) ++ chain_pre (params chain0) (blocks chain1)).
Proof.
  destruct (@chain0_kept SHA) as (H1 & H2 & H3 & H4 & H5 & H6).
  instance_of (database_follows_chain (HF := SHA) chain0 chain1 (@sample_step SHA) H1 H2 H3 H4 H5 H6).
Defined.
