(* ===== verification/NodeWitnesses.v ===== *)
(** * NodeWitnesses: the theorems on nodes at the sample chain

    The theorems of [Safety], [Sync], [Mining], [Mempool] and [Verify] applied to nodes
    that hold the chains of [Samples], with the SHA-256 of the code. *)

From S2P Require Import Prelude Hex Serial Sha256 Hash Crypto Merkle Tx Ledger Store Chain Consensus Recovery Mempool Miner Net Node Safety Mining Sync Verify Samples.

Local Open Scope Z_scope.

(** ** Nodes *)

(** Peer 3 is ready and announced a tip at height 2. *)
Definition sample_peer : Peer := set_tip (set_ready (Peer_new "127.0.0.1:9002" "" false) true) 2 3 (replicate 32 1).
Definition sample_net : P2P := mkP2P 0x4C495445 9001 [] {[3 := sample_peer]} 4 0.

Section nodes.
Context `{HF : HashFn}.

Definition node_with {D} (c : Chain D) (mp : Mempool) (peer mode : Z) (bs : list Block) : App D :=
  mkApp D sample_params c mp sample_net sample_addr true 60 0 peer mode 0 bs 0 ∅.

Lemma node_with_inv {D} (c : Chain D) mp peer mode bs : good c → pool_inv sample_params mp →
  Forall wf_block bs → sync_ok (node_with c mp peer mode bs) → app_inv (node_with c mp peer mode bs).
Proof.
  intros [Hc Hp Hne _ Hk] Hmp Hbs Hs. pose proof wf_sample_params. split; try done. apply wf_addr_of.
Qed.

(** A node right after its start, without a database. *)
Definition started : App ByteTable :=
  node_with (append (set_db (Chain_new sample_params) None) sample_genesis 1) Mempool_empty (-1) 0 [].

Lemma start_ok :
  app_start sample_params None sample_net sample_addr true 60 sample_clock = Ok started.
Proof.
  unfold app_start, init. rewrite bool_decide_eq_true_2 by done. cbn [negb].
  rewrite bool_decide_eq_true_2 by done. rewrite genesis_connects. done.
Qed.

Lemma wf_sample_addr : wf_array 20 sample_addr.
Proof. apply wf_addr_of. Qed.

(** Some events at that node. *)
Definition running : App ByteTable := periodic (on_ready started 3) 40 100.

Lemma started_typed : rtc typed_step started running.
Proof.
  eapply rtc_l; [by apply (typed_ready _ 3)|]. eapply rtc_l; [by apply (typed_tick _ 40 100)|]. apply rtc_refl.
Qed.

Lemma started_runs : rtc step started running.
Proof.
  eapply rtc_l; [apply (step_ready _ 3)|]. eapply rtc_l; [apply (step_tick _ 40 100)|]. apply rtc_refl.
Qed.

(** A node at height 1 that receives the next block. *)
Definition node1 : App Table := node_with chain1 Mempool_empty (-1) 0 [].

Lemma node1_inv : app_inv node1.
Proof.
  apply node_with_inv; [apply sample_block1|apply pool_inv_empty|constructor|by left].
Qed.

Lemma wf_sample_b2_bytes : wf_bytes (block_serialize sample_b2).
Proof.
  pose proof sample_wire_blocks as H. rewrite Forall_forall in H.
  apply wf_block_serialize, H. right. right. left.
Qed.

Definition node1_next : App Table :=
  on_msg node1 3 M_BLOCK (block_serialize sample_b2) sample_clock 100.

Lemma node1_step : step node1 node1_next.
Proof. apply step_msg; [done|]. apply wf_sample_b2_bytes. Qed.

(** ** The pool *)

Definition sample_pool : Mempool := (add Mempool_empty sample_transfer (st chain1) sample_params).1.

Lemma wf_sample_transfer : wf_tx sample_transfer.
Proof. apply wire_transfer. Qed.

Lemma wf_sample_record : wf_tx sample_record.
Proof. apply wire_record. Qed.

Lemma empty_pool_inv : pool_inv sample_params Mempool_empty.
Proof. apply pool_inv_empty. Qed.

Lemma sample_pool_inv : pool_inv sample_params sample_pool.
Proof.
  unfold sample_pool. destruct (add _ _ _ _) as [mp err] eqn:E. cbn [fst].
  apply add_cases in E as [(_ & Ha & ->)|(_ & -> & _)]; [|apply pool_inv_empty].
  eapply inserted_inv; [apply pool_inv_empty|apply wf_sample_transfer|done].
Qed.

(** ** Mining *)

Lemma chain2_mines : params chain2 = sample_params ∧ chain_inv chain2 ∧ blocks chain2 ≠ [] ∧
  supply (st chain2) + p_reward (params chain2) < 2 ^ 64.
Proof.
  destruct sample_block2 as (_ & _ & _ & Hg & E). rewrite (sample_supply _ Hg), (good_params _ Hg), E.
  split_and!; done || apply Hg.
Qed.

Lemma chain2_params_wf : wf_params (params chain2).
Proof. rewrite chain2_params. apply wf_sample_params. Qed.

Lemma wf_sample_header : wf_header (b_h sample_b2).
Proof. apply sample_block2. Qed.

(** ** Synchronisation *)

Definition ahead : App Table := node_with chain2 sample_pool (-1) 0 [].

Lemma ahead_inv : app_inv ahead.
Proof.
  apply node_with_inv; [apply sample_block2|apply sample_pool_inv|constructor|by left].
Qed.

(** A node at height 2 with a heartbeat due mines, while peer 3 becomes ready. *)
Definition mined5 : Block :=
  sealed (template chain2 sample_params sample_addr
            (collect sample_pool (st chain2) sample_params (u64 (height chain2 + 1))) 1753000180) 5.

Definition meanwhile : App Table := on_ready ahead 3.

Lemma ahead_then : nsteps step 1 ahead meanwhile.
Proof. eapply nsteps_l; [apply (step_ready _ 3)|constructor]. Qed.

Lemma ahead_supply : supply (st (chain ahead)) + p_reward (a_params ahead) < 2 ^ 64.
Proof. pose proof chain2_mines as (E & _ & _ & H). rewrite E in H. exact H. Qed.

Lemma ahead_due : prepare_block ahead sample_now 1753000180 =
  Some (template chain2 sample_params sample_addr
          (collect sample_pool (st chain2) sample_params (u64 (height chain2 + 1))) 1753000180).
Proof.
  unfold prepare_block, miner_candidate. change (mine_on ahead) with true. change (chain ahead) with chain2.
  cbv zeta. unfold tip. rewrite chain2_blocks.
  rewrite orb_true_intro; [done|]. by right.
Qed.

Lemma ahead_turn : miner_turn ahead sample_now 1753000180 false 5 (λ _, true) false = Some (mined5, 0).
Proof.
  unfold miner_turn. rewrite ahead_due. rewrite mine_at_once; [done|unfold MINE_ROUNDS; lia|..|done|].
  - apply (wf_candidate_header ahead); [apply ahead_inv|done].
  - apply pow_ok_0, wf_hash256d.
Qed.
Definition downloading : App Table := node_with chain0 sample_pool 3 2 [sample_genesis; sample_b1].

Lemma downloading_inv : app_inv downloading.
Proof.
  apply node_with_inv; [apply good_chain0|apply sample_pool_inv| |by right; right].
  destruct sample_blocks_valid as [_ H]. exact (Forall_take _ 2 _ H).
Qed.

Lemma sample_b2_at : h_height (b_h sample_b2) = 2.
Proof.
  destruct sample_block2 as (_ & Hn & _). unfold next_ok in Hn.
  destruct sample_block1 as (_ & H1 & _ & _ & E1). rewrite E1 in Hn. destruct Hn as [_ _ Hh _ _ _ _ _ _].
  unfold next_ok in H1. rewrite (proj2 good_chain0) in H1. destruct H1 as [_ _ Hh1 _ _ _ _ _ _].
  by rewrite Hh, Hh1.
Qed.

Lemma last_part : Forall wire_block [sample_b2] ∧
  candidate_ok (chain downloading) (cand downloading ++ [sample_b2]) sample_clock ∧
  (∀ b, last (cand downloading ++ [sample_b2]) = Some b → 2 ≤ h_height (b_h b)).
Proof.
  split; [|split; [apply sample_candidate|]].
  - pose proof sample_wire_blocks as H. exact (Forall_drop _ 2 _ H).
  - intros b [= <-]. by rewrite sample_b2_at.
Qed.

(** ** Proofs *)

Definition sample_proof : string :=
  proof_text (txid sample_transfer) sample_b2 1 (merkle_proof (txids sample_b2) 1).

Lemma sample_b2_height : h_height (b_h sample_b2) ≠ 2 ^ 64 - 1.
Proof. by rewrite sample_b2_at. Qed.

Lemma sample_read_proof : read_proof sample_proof =
  mkProofFile (txid sample_transfer) (header_hash (b_h sample_b2)) (h_height (b_h sample_b2))
    (header_serialize (b_h sample_b2)) (merkle_proof (txids sample_b2) 1) true true true.
Proof.
  apply read_proof_text; [apply wf_txid|apply wf_sample_header|done|apply wf_merkle_proof, wf_txids].
Qed.

Lemma sample_proof_fields : pf_blockhash (read_proof sample_proof) = block_hash sample_b2 ∧
  pf_txid (read_proof sample_proof) = txid sample_transfer.
Proof. by rewrite sample_read_proof. Qed.

Lemma sample_proof_accepted : verify_text sample_proof = Some true.
Proof.
  unfold sample_proof. rewrite verify_proof_text; [|apply wf_txid|apply wf_sample_header|done|
    apply sample_b2_height|apply wf_merkle_proof, wf_txids].
  destruct sample_block2 as (_ & Hn & _). unfold next_ok in Hn.
  destruct sample_block1 as (_ & _ & _ & _ & E1). rewrite E1 in Hn. destruct Hn as [_ _ _ _ Hb Hp _ Hm _].
  rewrite Hb. unfold block_hash in Hp. rewrite Hp, <- Hm, andb_false_r, bool_decide_eq_true_2; [done|].
  by apply merkle_proof_correct.
Qed.

Lemma sample_place : sample_b2 ∈ blocks chain2 ∧ blocks chain2 !! 2%nat = Some sample_b2 ∧
  b_txs sample_b2 !! 1%nat = Some sample_transfer ∧ b_txs sample_b2 ≠ [] ∧
  size (blocks chain2) ≤ 2 ^ 32 ∧ size (chain_txs (blocks chain2)) ≤ 2 ^ 64.
Proof. rewrite chain2_blocks. split_and!; try done. right. right. left. Qed.
End nodes.

Local Notation SHA := sha256_hash.

(** ** Safety of nodes *)

Lemma reachable_safe_witness :
  chain_valid sample_params (blocks (chain running)) ∧ blocks (chain running) ≠ [] ∧
  chain_inv (chain running) ∧ pool_inv sample_params (pool running) ∧ sync_ok running ∧
  (p_reward sample_params * Z.of_nat (pred (length (blocks (chain running)))) < 2 ^ 64 →
     ∀ x, balance (acct (st (chain running)) x) ≤
       p_reward sample_params * Z.of_nat (pred (length (blocks (chain running))))).
Proof.
  instance_of (reachable_safe (HF := SHA) sample_params None sample_net sample_addr true 60 sample_clock
                 started running wf_sample_params byte_rows_wf (@wf_sample_addr SHA)
                 (@start_ok SHA) (@started_runs SHA)).
Defined.

Lemma reachable_typed_witness : typed running.
Proof.
  instance_of (reachable_typed (HF := SHA) sample_params None sample_net sample_addr true 60 sample_clock
                 started running wf_sample_params byte_rows_wf (@wf_sample_addr SHA)
                 (@start_ok SHA) (@started_typed SHA)).
Defined.

Lemma work_increases_witness :
  rtc chain_step (chain node1) (chain node1_next) ∧
  ∀ c1 c2, rtc chain_step (chain node1) c1 → chain_step c1 c2 →
    chain_work (a_params node1) (blocks c1) < 2 ^ 64 →
    chain_work (a_params node1) (blocks c2) < 2 ^ 64 → work c1 < work c2.
Proof. instance_of (work_increases (HF := SHA) node1 node1_next (@node1_inv SHA) (@node1_step SHA)). Defined.

(** ** Mining *)

Lemma mining_turn_witness :
  let a2 := submit_mined meanwhile mined5 0 sample_clock in
  (tip_seq meanwhile ≠ tip_seq ahead ∧ a2 = meanwhile) ∨
  (chain meanwhile = chain ahead ∧ blocks (chain a2) = blocks (chain ahead) ++ [mined5] ∧ chain_inv (chain a2) ∧
   tip_seq a2 = u64 (tip_seq ahead + 1) ∧ pow_ok (block_hash mined5) (p_bits (a_params ahead)) = true).
Proof.
  instance_of (mining_turn (HF := SHA) ahead meanwhile 1 sample_now 1753000180 false 5 (λ _, true) false mined5 0
                 sample_clock (@ahead_inv SHA) (@ahead_then SHA) (bool_decide_unpack (Z.of_nat 1 < 2 ^ 64) I)
                 (bool_decide_unpack (in_width 64 5) I) (bool_decide_unpack (in_width 64 1753000180) I)
                 (@ahead_supply SHA) (bool_decide_unpack (1753000180 ≤ u64 (sample_clock 0 + MAX_TIME_SKEW_S)) I)
                 (@ahead_turn SHA)).
Defined.

(** ** The pool *)

Lemma add_refines_witness :
  let '(mp', err) := add sample_pool sample_record (st chain1) sample_params in
  (err = "" ↔ admissible sample_pool sample_record (st chain1) sample_params) ∧
  pool_inv sample_params mp' ∧
  (err = "" → ∀ k, m mp' !! k =
     if decide (k = (addr_of (t_from sample_record), t_nonce sample_record)) then Some sample_record
     else m sample_pool !! k) ∧
  (err ≠ "" → mp' = sample_pool).
Proof.
  instance_of (add_refines (HF := SHA) sample_pool sample_record (st chain1) sample_params
                 (@sample_pool_inv SHA) (@wf_sample_record SHA)).
Defined.

Lemma collect_witness :
  ∃ out, collect_n sample_pool (st chain1) sample_params 2 1000 = Some out ∧ (length out ≤ 1000)%nat ∧
    (∀ t, t ∈ out → ∃ k, m sample_pool !! k = Some t) ∧ txs_ok sample_params 2 (st chain1) 1 out ∧
    ((length out < 1000)%nat → ∀ k t, m sample_pool !! k = Some t →
       ¬ tx_ok (txs_post (st chain1) out) t sample_params 2 false).
Proof.
  instance_of (collect_sound_and_maximal (HF := SHA) sample_params sample_pool (st chain1) 2 1000
                 (@sample_pool_inv SHA)).
Defined.

(** ** Synchronisation *)

(** ** Proofs for wallets *)

Lemma prove_verify_witness :
  (∃ text, prove_text chain2 (txid sample_transfer) = Some text ∧ verify_text text = Some true) ∨
  collision (chain_pre (params chain2) (blocks chain2)).
Proof.
  destruct (@sample_place SHA) as (Hb & _ & Ht & _ & Hs & Hn).
  instance_of (prove_verify (HF := SHA) chain2 sample_b2 1 sample_transfer (@chain2_params_wf SHA)
                 (@chain2_inv SHA) Hs Hn Hb Ht).
Defined.

Lemma verify_sound_witness :
  (sample_transfer ∈ b_txs sample_b2 ∧ pf_header (read_proof sample_proof) = header_serialize (b_h sample_b2) ∧
   pf_height (read_proof sample_proof) = h_height (b_h sample_b2)) ∨
  collision (chain_pre (params chain2) (blocks chain2) ++ pf_header (read_proof sample_proof) ::
    tx_enc sample_transfer :: path_pre (txid sample_transfer) (pf_steps (read_proof sample_proof))).
Proof.
  destruct (@sample_place SHA) as (Hb & _ & _ & Hne & _).
  destruct (@sample_proof_fields SHA) as [Eh Et].
  instance_of (verify_sound (HF := SHA) chain2 sample_proof sample_b2 sample_transfer (@chain2_inv SHA) Hb Hne
                 (@wire_transfer SHA) (@sample_proof_accepted SHA) Eh Et).
Defined.

Lemma verify_accepts_inner_node_witness :
  verify_text (proof_text (h_merkle (b_h sample_b2)) sample_b2 0 []) = Some true ∧
  ((1 < length (b_txs sample_b2))%nat → ∀ t, wire_tx t → h_merkle (b_h sample_b2) ≠ txid t ∨
    collision (tx_enc t :: txs_pre (b_txs sample_b2))).
Proof.
  destruct (@sample_place SHA) as (_ & Hi & _).
  instance_of (verify_accepts_inner_node (HF := SHA) chain2 1 sample_b2 0 (@chain2_inv SHA) Hi
                 (@sample_b2_height SHA) (bool_decide_unpack (0 ≤ 0) I)).
Defined.
