(* ===== verification/PartWitnesses.v ===== *)
(** * PartWitnesses: the theorems on the single components at concrete inputs *)

From S2P Require Import Prelude Hex Serial Fips Sha256 Hash Crypto Merkle Tx Ledger Store Chain Consensus Recovery Mempool Miner Net Node Safety Gpu Samples.

Local Open Scope Z_scope.

Section facts.
Context `{HF : HashFn}.

(** An account with one reward. *)
Definition rich_state : State := {[sample_addr := mkAccount 50 0]}.

Lemma rich_acct : acct rich_state sample_addr = mkAccount 50 0.
Proof. unfold acct, rich_state. by rewrite lookup_singleton_eq. Qed.

Lemma rich_wf : wf_state rich_state.
Proof. by apply map_Forall_singleton. Qed.

Lemma rich_supply : supply rich_state < 2 ^ 64.
Proof. unfold supply, rich_state. by rewrite map_fold_singleton. Qed.

Lemma rich_tx_ok : tx_ok rich_state sample_transfer sample_params 1 false.
Proof.
  pose proof (sample_txs_ok 1 rich_state rich_acct) as H. inversion H; subst. done.
Qed.

Lemma rich_transfer : t_type sample_transfer = TX_TRANSFER ∧ wf_tx sample_transfer.
Proof. split; [done|apply wire_transfer]. Qed.

(** Three leaves. *)
Definition leaves : list bytes := [replicate 32 1; replicate 32 2; replicate 32 3].

Lemma wf_leaves : leaves ≠ [] ∧ wf_level leaves ∧ wf_array 32 (replicate 32 2).
Proof.
  split; [done|split; [|by apply (bool_decide_unpack _)]].
  repeat constructor; try done; by apply (bool_decide_unpack (wf_bytes _)).
Qed.

Lemma wf_sample_raw : wf_bytes (block_serialize sample_b1).
Proof.
  pose proof sample_wire_blocks as H. rewrite Forall_forall in H.
  apply wf_block_serialize, H. right. left.
Qed.
End facts.

(** The key pair of the toy scheme. *)
Definition sample_keypair : KeyPair :=
  mkKeyPair (replicate 64 7) (le 4 0x32534345 ++ le 4 32 ++ replicate 64 7 ++ replicate 32 9).

Lemma generated_bytes k n b : BCryptExportKey k n = Some b → wf_bytes b.
Proof. intros [= <-]. by apply (bool_decide_unpack _). Qed.

(** A stream of two messages in three pieces. *)
Definition two_msgs : list (Z * bytes) := [(M_TX, [1; 2; 3]); (M_BLOCK, [4; 5])].
Definition three_chunks : list bytes := [[3; 0]; [0; 0; 5; 1; 2]; [3; 2; 0; 0; 0; 6; 4; 5]].
Definition quiet_peer : Peer := Peer_new "127.0.0.1:9002" "" false.

Lemma two_msgs_plain : Forall plain two_msgs.
Proof. repeat constructor; try done; by apply (bool_decide_unpack (wf_bytes _)). Qed.

Lemma three_chunks_small : Forall (λ c, size c ≤ 7 * 1024 * 1024) three_chunks.
Proof. by repeat constructor. Qed.

Definition net_9001 : P2P := mkP2P 0x4C495445 9001 ["127.0.0.1:9002"] ∅ 1 0.
Definition net_9002 : P2P := mkP2P 0x4C495445 9002 [] ∅ 1 0.
Definition dialled_peer : Peer := Peer_new "127.0.0.1:9002" "127.0.0.1:9002" false.

Definition gpu_header : BlockHeader :=
  mkHeader 1 0x4C495445 (replicate 32 3) (replicate 32 4) 5 1753000060 8 0.

Lemma wf_gpu_header : wf_header gpu_header.
Proof. by apply (bool_decide_unpack _). Qed.

Local Notation SHA := sha256_hash.

(** ** Wire forms *)

Lemma block_wire_form_witness :
  block_parse (block_serialize (@sample_b1 SHA)) = Some (@sample_b1 SHA) ↔
  wire_block (@sample_b1 SHA) ∧ block_serialize (@sample_b1 SHA) = block_serialize (@sample_b1 SHA).
Proof.
  instance_of (block_wire_form (block_serialize (@sample_b1 SHA)) (@sample_b1 SHA) (@wf_sample_raw SHA)).
Defined.

Lemma sign_hash_covers_witness :
  (sign_hash sample_transfer = sign_hash sample_record →
    (t_type sample_transfer = t_type sample_record ∧ t_net_id sample_transfer = t_net_id sample_record ∧
     t_from sample_transfer = t_from sample_record ∧ t_to sample_transfer = t_to sample_record ∧
     t_amount sample_transfer = t_amount sample_record ∧ t_nonce sample_transfer = t_nonce sample_record ∧
     t_payload sample_transfer = t_payload sample_record) ∨
    collision [tx_body sample_transfer; tx_body sample_record]) ∧
  (txid sample_transfer = txid sample_record → sample_transfer = sample_record ∨
    collision [tx_serialize sample_transfer; tx_serialize sample_record]).
Proof.
  instance_of (sign_hash_covers (HF := SHA) sample_transfer sample_record (@wire_transfer SHA) (@wire_record SHA)).
Defined.

(** ** Links *)

Lemma framing_any_chunks_witness :
  receive net_9001 4 quiet_peer three_chunks = (quiet_peer, map (λ msg, EvMsg 4 msg.1 msg.2) two_msgs).
Proof.
  instance_of (framing_any_chunks net_9001 4 quiet_peer two_msgs three_chunks two_msgs_plain eq_refl eq_refl
                 three_chunks_small eq_refl).
Defined.

(** ** Hashing *)

(** The digest of "abc", given in two pieces, is the one of the standard's example. *)
Lemma sha256_is_fips_witness :
  let chunks := [[97]; [98; 99]] in
  Forall wf_bytes chunks ∧ final (foldl update Ctx_init chunks) = fips_sha256 [97; 98; 99] ∧
  take 4 (fips_sha256 [97; 98; 99]) = [0xba; 0x78; 0x16; 0xbf].
Proof.
  cbv zeta. assert (Forall wf_bytes [[97]; [98; 99]]) as Hw by (repeat constructor; done).
  split; [exact Hw|]. split; [exact (sha256_is_fips [[97]; [98; 99]] Hw)|]. vm_compute. done.
Defined.
