(* ===== verification/ConvergeWitnesses.v ===== *)
(** * ConvergeWitnesses: the convergence of two nodes at the sample chains

    A node with another block at height 1 is linked to a node with the sample chain. *)

From S2P Require Import Prelude Hex Text Json Serial Sha256 Hash Crypto Merkle Tx Ledger Store Chain Consensus Recovery Mempool Miner Net Loop Http Node Safety Sync Verify Rpc RpcSpec Running Converge Samples NodeWitnesses.

Local Open Scope Z_scope.

Section branch.
Context `{HF : HashFn}.

(** Another block at height 1. *)
Definition branch_b1 : Block := next_block chain0 [] 1753000090 8.
Definition branch1 : Chain Table := connected chain0 branch_b1.

Lemma good_branch1 : good branch1 ∧ blocks branch1 = [sample_genesis; branch_b1].
Proof.
  destruct good_chain0 as [Hg E].
  destruct (grow chain0 [] 1753000090 8 Hg) as (_ & _ & _ & H1 & H2); [by rewrite E|apply pickable_nil|done..|].
  rewrite E in H2. by split.
Qed.

Definition branched : App Table := node_with branch1 Mempool_empty (-1) 0 [].

Lemma branched_inv : app_inv branched.
Proof. apply node_with_inv; [apply good_branch1|apply pool_inv_empty|constructor|by left]. Qed.

Lemma linked_3 (c : Chain Table) mp : linked (node_with c mp (-1) 0 []) 3 [].
Proof. by exists sample_peer. Qed.

Lemma ahead_size : size (blocks (chain ahead)) ≤ 500000.
Proof. cbn [ahead node_with chain]. by rewrite chain2_blocks. Qed.

Lemma ahead_work : chain_work (a_params ahead) (blocks (chain ahead)) < 2 ^ 64.
Proof. cbn [ahead node_with chain]. by rewrite chain2_blocks. Qed.

Lemma branched_work :
  chain_work (a_params branched) (blocks (chain branched)) < chain_work (a_params ahead) (blocks (chain ahead)).
Proof. cbn [ahead branched node_with chain]. by rewrite chain2_blocks, (proj2 good_branch1). Qed.

(** A few small blocks fit a frame. *)
Lemma small_answer bs : Forall wire_block bs → (length bs ≤ 200)%nat → Forall (λ b, length (b_txs b) ≤ 3)%nat bs →
  size (blocks_payload (map block_serialize bs)) ≤ MAX_FRAME.
Proof.
  intros Hw Hl Ht. rewrite blocks_payload_enc by (done || unfold size; lia).
  unfold size. rewrite length_app, length_le.
  assert (length (concat (map (λ b, raw_enc (block_serialize b)) bs)) ≤ 3693 * length bs)%nat as H.
  { clear Hl. induction Hw as [|b bs (Hh & Hb & Hs) _ IH]; [done|]. apply Forall_cons in Ht as [Ht0 Ht].
    cbn [map concat length]. rewrite length_app. unfold raw_enc at 1. rewrite length_app, length_le.
    rewrite block_serialize_enc, !length_app, length_le, length_header_enc by done.
    pose proof (length_txs_enc_le _ Hb). specialize (IH Ht). lia. }
  unfold MAX_FRAME. lia.
Qed.

Lemma ahead_answers n : size (reply ahead n) ≤ MAX_FRAME.
Proof.
  unfold reply, bs. cbn [ahead node_with chain]. rewrite chain2_blocks. apply small_answer.
  - apply Forall_take, Forall_drop, sample_wire_blocks.
  - rewrite length_take. lia.
  - apply Forall_take, Forall_drop. repeat (apply Forall_cons_2; [vm_compute; lia|]). constructor.
Qed.
End branch.

Local Notation SHA := sha256_hash.

Lemma nodes_converge_witness :
  (∃ k, (k ≤ length (blocks (chain ahead)) / 200 + 3)%nat ∧
     ∀ ts, length ts = k → Forall (late ahead) ts →
       ∃ a', foldl (exchange 3 3) (branched, on_ready ahead 3) ts = (a', ahead) ∧ converged ahead a') ∨
  collision (chain_pre (a_params ahead) (blocks (chain branched)) ++ chain_pre (a_params ahead) (blocks (chain ahead))).
Proof.
  instance_of (nodes_converge (HF := SHA) branched ahead 3 3 (@branched_inv SHA) (@ahead_inv SHA) eq_refl
                 (bool_decide_unpack (3 ≠ -1) I) (@linked_3 SHA branch1 Mempool_empty)
                 (@linked_3 SHA chain2 sample_pool) eq_refl (@ahead_size SHA) (@ahead_answers SHA)
                 (@ahead_work SHA) (@branched_work SHA)).
Defined.
