(* ===== verification/LoopWitnesses.v ===== *)
(** * LoopWitnesses: the theorems on the network thread at a concrete run

    A node without a database listens on port 9001 and dials port 9002; the other node
    says hello. *)

From S2P Require Import Prelude Hex Text Json Serial Sha256 Hash Crypto Merkle Tx Ledger Store Chain Consensus Recovery Mempool Miner Net Loop Http Node Safety Verify Rpc RpcSpec Running Samples NodeWitnesses PartWitnesses.

Local Open Scope Z_scope.

Definition sample_connect (k : nat) (host : string) (port : Z) : Dial := DialDone.

(** The link to 9002 after the first part of the turn, and what it receives. *)
Definition dialled_net : P2P := reconnect sample_connect 5000 net_9001.
Definition hello_io (id : Z) : LinkIO :=
  mkLinkIO false None
    (if id =? 1 then Some [RecvData (frame_into [] M_HELLO (hello_payload net_9002)); RecvWouldBlock] else None)
    None.
Definition hello_selected : Selected := mkSelected true [] hello_io.

Lemma hello_raises_ready : (select_step dialled_net hello_selected).2 = [EvReady 1].
Proof. vm_compute. reflexivity. Qed.

Lemma hello_io_wf id : wf_io (hello_io id).
Proof.
  unfold wf_io, hello_io. cbn [io_recv]. case_match; [|done].
  destruct (id =? 1); [|done]. simplify_eq. repeat constructor; by apply (bool_decide_unpack (in_width 8 _)).
Qed.

Lemma hello_reported : reported (watched dialled_net) hello_io.
Proof.
  intros id. unfold within, hello_io. cbn [io_except io_connected io_recv io_sent].
  destruct (Z.eqb_spec id 1) as [->|]; [|by split_and!; try done; intros []].
  split_and!; try done; by intros [].
Qed.

Section boot.
Context `{HF : HashFn}.

Definition booted : App ByteTable := set_p2p started net_9001.

Lemma boot_ok : app_start sample_params None net_9001 sample_addr true 60 sample_clock = Ok booted.
Proof.
  unfold app_start, init. rewrite bool_decide_eq_true_2 by done. cbn [negb].
  rewrite bool_decide_eq_true_2 by done. rewrite genesis_connects. done.
Qed.

(** The node after it handled the event. *)
Definition greeted : Running :=
  mkRunning (dispatch (set_p2p (set_p2p booted dialled_net) (select_step dialled_net hello_selected).1)
    (EvReady 1) sample_clock 100) (Dispatching []).

Lemma greeted_run : loop_run (mkRunning booted Preparing) [EvReady 1] greeted.
Proof.
  change [EvReady 1] with (([] ++ []) ++ [] ++ [EvReady 1]). rewrite app_assoc.
  eapply run_next; [eapply run_next; [eapply run_next; [apply run_start|]|]|].
  - by apply (loop_prepare booted sample_connect 5000 dialled_net).
  - apply (loop_select _ _ hello_selected); [apply hello_io_wf|apply hello_reported|].
    change (p2p (set_p2p booted dialled_net)) with dialled_net.
    rewrite (surjective_pairing (select_step dialled_net hello_selected)), hello_raises_ready. done.
  - apply loop_event.
Qed.
End boot.

Local Notation SHA := sha256_hash.

Lemma no_links_9001 : no_links net_9001.
Proof. done. Qed.

Lemma running_safe_witness :
  rtc step booted (app greeted) ∧ app_inv (app greeted) ∧ sync_live greeted ∧
  ∀ i q, peers (p2p (app greeted)) !! i = Some q → dead q = false ∧ 1 ≤ i < next_id (p2p (app greeted)) ∧
    ∀ j q', peers (p2p (app greeted)) !! j = Some q' → target q = target q' → target q ≠ "" → i = j.
Proof.
  instance_of (running_safe (HF := SHA) sample_params None net_9001 sample_addr true 60 sample_clock booted
                 [EvReady 1] greeted wf_sample_params byte_rows_wf (@wf_sample_addr SHA) no_links_9001
                 (@boot_ok SHA) (@greeted_run SHA)).
Defined.

Lemma link_protocol_witness :
  protocol 1 (events_of 1 [EvReady 1]) ∧
  (pending (phase greeted) = [] →
    (up (p2p (app greeted)) 1 ↔ EvReady 1 ∈ [EvReady 1] ∧ EvGone 1 ∉ [EvReady 1])) ∧
  (EvGone 1 ∈ pending (phase greeted) → peer_label (p2p (app greeted)) 1 = "?").
Proof.
  instance_of (link_protocol (HF := SHA) sample_params None net_9001 sample_addr true 60 sample_clock booted
                 [EvReady 1] greeted wf_sample_params byte_rows_wf (@wf_sample_addr SHA) no_links_9001
                 (@boot_ok SHA) (@greeted_run SHA) 1).
Defined.
