(* ===== verification/RpcWitnesses.v ===== *)
(** * RpcWitnesses: requests, payments and mining at concrete nodes *)

From S2P Require Import Prelude Hex Text Json Serial Sha256 Hash Crypto Merkle Tx Ledger Store Chain Consensus Recovery Typed Mempool Miner Net Http Node Safety Gpu Verify Rpc RpcSpec Args Wallet WalletSpec GpuHost Samples NodeWitnesses PartWitnesses.

Local Open Scope Z_scope.

(** ** HTTP, one byte at a time *)

Definition one_by_one (t : string) : list string := map (λ c, String c "") (String.list_ascii_of_string t).

Lemma one_by_one_arrives t : arrives t (one_by_one t).
Proof.
  unfold one_by_one. split.
  - induction t as [|c t IH]; [done|]. cbn [String.list_ascii_of_string map foldr]. by rewrite IH.
  - apply Forall_fmap, Forall_true. done.
Qed.

(** A handler that counts requests and answers with the target. *)
Definition counter (n : nat) (r : HttpReq) : nat * HttpResp := (S n, json (path r)).

Lemma counter_request : request_ok "127.0.0.1" 8501 "GET" "/status" "".
Proof. split; try done; by repeat constructor. Qed.

Lemma counter_response : response_ok (counter 0 (request_of "GET" "/status" "")).2.
Proof. split; [by repeat constructor|by left|done..]. Qed.

Definition sample_web : Web := mkWeb "" "" 8501 "" (λ _, "").

Section facts.
Context `{HF : HashFn}.

Lemma node1_sizes : size (blocks (chain node1)) ≤ 2 ^ 32 ∧
  size (chain_txs (blocks (chain node1))) < 2 ^ 64 ∧
  Z.of_nat (stdpp.base.size (peers (p2p node1))) < 2 ^ 32.
Proof.
  destruct sample_block1 as (_ & _ & _ & _ & E). cbn [node1 node_with chain p2p]. rewrite E. done.
Qed.

Definition nodes1 : Network (D := Table) := {[8501 := node1]}.

Lemma nodes1_at : nodes1 !! 8501 = Some node1.
Proof. apply (lookup_singleton_eq (M := gmap Z)). Qed.

Lemma nodes1_ok : network_ok nodes1.
Proof.
  intros port a H. assert (8501 = port ∧ node1 = a) as [_ <-] by by apply (lookup_singleton_Some (M := gmap Z)).
  apply node1_inv.
Qed.

Lemma sample_signer : signer sample_keypair.
Proof.
  split; [by apply (bool_decide_unpack _)|done|]. intros h [Hl Hh]. exists (h ++ h).
  split; [|split].
  - unfold kp_sign. cbn [BCryptOpenAlgorithmProvider toy_cng negb orb].
    assert (kp_valid sample_keypair = true) as -> by by vm_compute. cbn [negb toy_cng BCryptImportKeyPair_private].
    rewrite decide_True by by vm_compute. cbn [mbind option_bind toy_cng BCryptSignHash].
    by rewrite bool_decide_eq_true_2 by (rewrite length_app; lia).
  - split; [rewrite length_app; lia|by apply Forall_app].
  - unfold sig_verify. cbn [BCryptOpenAlgorithmProvider toy_cng negb BCryptImportKeyPair_public].
    rewrite decide_True by by vm_compute. cbn [toy_cng BCryptVerifySignature]. by apply bool_decide_eq_true_2.
Qed.

Lemma node1_payer :
  let me := addr_of (kp_pub sample_keypair) in
  20 ≤ balance (acct (st (chain node1)) me) ∧ nonce (acct (st (chain node1)) me) + 16 < 2 ^ 63 ∧
  Z.of_nat (stdpp.base.size (m (pool node1))) < 10000 ∧
  m (pool node1) !! (me, nonce (acct (st (chain node1)) me)) = None.
Proof.
  cbn [node1 node_with chain pool]. change (addr_of (kp_pub sample_keypair)) with sample_addr.
  rewrite sample_acct1. split_and!; done.
Qed.

Lemma sample_proof_wf : in_width 64 (pf_height (read_proof sample_proof)) ∧
  wf_array 32 (pf_blockhash (read_proof sample_proof)).
Proof. rewrite sample_read_proof. split; [apply wf_sample_header|apply wf_header_hash]. Qed.

(** ** The notes of a node *)

(** The chain has a transfer and a note, the pool one note more. *)
Definition noted : App Table :=
  node_with chain2 (mkMempool {[ (sample_addr, 1) := sample_record ]} ∅) (-1) 0 [].

Lemma noted_entries : (entries (pool noted)).*2 = [sample_record].
Proof. unfold entries. cbn [noted node_with pool m]. by rewrite map_to_list_singleton. Qed.

Definition confirmed_note : string :=
  note_text sample_record "confirmed" (h_height (b_h sample_b2)) (h_time (b_h sample_b2))
    (u64 (height chain2 - h_height (b_h sample_b2) + 1)).

Lemma noted_notes : notes noted None = [note_text sample_record "pending" 0 0 0; confirmed_note].
Proof. unfold notes. rewrite noted_entries. change (chain noted) with chain2. by rewrite chain2_blocks. Qed.

(** ** A node that mines at difficulty 20 *)

Definition hard_params : Params := mkParams 0x4C495445 20 50 1753000000.
Definition hard_chain : Chain Table := append (Chain_new hard_params) (make_genesis hard_params) 1.

Lemma hard_chain_ok : chain_inv hard_chain ∧ blocks hard_chain = [make_genesis hard_params].
Proof.
  assert (connect_block (Chain_new (D := Table) hard_params) (make_genesis hard_params) 0 = (hard_chain, "")) as E.
  { unfold connect_block. cbn [tip blocks Chain_new last params]. rewrite !bool_decide_eq_true_2 by done. reflexivity. }
  apply connect_block_ok in E as (_ & _ & Hc & _ & Hb & _); [by split|by split; try constructor|].
  apply wf_make_genesis. by apply (bool_decide_unpack _).
Qed.

Definition hard_node : App Table :=
  mkApp Table hard_params hard_chain Mempool_empty sample_net sample_addr true 60 0 (-1) 0 0 [] 0 ∅.

Lemma hard_node_inv : app_inv hard_node.
Proof.
  destruct hard_chain_ok as [Hc Hb].
  split; cbn [hard_node a_params chain pool miner_addr cand work_cache]; try done.
  - apply pool_inv_empty.
  - apply wf_addr_of.
  - apply addr_keys_empty.
  - by left.
Qed.

Definition hard_nodes : Network (D := Table) := {[8501 := hard_node]}.

Lemma hard_nodes_at : hard_nodes !! 8501 = Some hard_node.
Proof. apply (lookup_singleton_eq (M := gmap Z)). Qed.

Lemma hard_supply : supply (st (chain hard_node)) + p_reward (a_params hard_node) < 2 ^ 64.
Proof. done. Qed.

(** Two threads, in order. *)
Definition calm : nat → Schedule := λ _, mkSchedule [0; 1]%nat (λ _ _, false).

Lemma calm_honest hdr bits : ∀ round x, honest hdr bits x 2 (calm round).
Proof. intros. split; [reflexivity|done]. Qed.
End facts.

Local Notation SHA := sha256_hash.

(** ** Requests *)

Lemma http_exchange_witness :
  ∃ s' out, handle (Some counter) 0%nat (one_by_one (request_text "127.0.0.1" 8501 "GET" "/status" "")) [1000] = (s', out) ∧
    s' = 1%nat ∧
    http_req "127.0.0.1" 8501 "GET" "/status" "" (Some ([7; 1000], λ t, one_by_one (handle (Some counter) 0%nat (one_by_one t) [1000]).2)) =
      (200, "/status").
Proof.
  instance_of (http_exchange counter 0%nat "127.0.0.1" 8501 "GET" "/status" "" [7; 1000] [1000] one_by_one one_by_one
                 counter_request counter_response one_by_one_arrives one_by_one_arrives eq_refl eq_refl).
Defined.

Lemma rpc_safe_witness :
  let r := request_of "POST" "/submit" (hexs (tx_serialize sample_transfer)) in
  (let '(a', resp) := handle_rpc sample_web sample_clock node1 r in
   app_inv a' ∧ rtc chain_step (chain node1) (chain a') ∧ (a' = node1 ∨ step node1 a') ∧
   resp_code resp ∈ [200; 400; 404] ∧ (resp_code resp ≠ 200 → a' = node1) ∧
   (path r ∉ ["/submit"; "/work"; "/submitwork"] → a' = node1)) ∨
  collision (chain_pre (a_params node1) (blocks (chain node1))).
Proof.
  destruct (@node1_sizes SHA) as (Hs & _).
  instance_of (rpc_safe (HF := SHA) sample_web sample_clock node1
                 (request_of "POST" "/submit" (hexs (tx_serialize sample_transfer))) (@node1_inv SHA)
                 (bool_decide_unpack (in_width 64 sample_now) I) Hs).
Defined.

Lemma records_feed_witness :
  get_records noted (request_of "GET" "/records" "") =
    json ("{" +:+ quoted "records" +:+ ":[" +:+
          (note_text sample_record "pending" 0 0 0 +:+ "," +:+ confirmed_note) +:+ "]}").
Proof.
  pose proof (records_feed (HF := SHA) noted (request_of "GET" "/records" "")) as H.
  assert (query (request_of "GET" "/records" "") !! "addr" = None) as E by reflexivity.
  assert (notes_limit (request_of "GET" "/records" "") = 50%nat) as El by reflexivity.
  rewrite E, El in H. cbn [fmap option_fmap option_map] in H. rewrite (@noted_notes SHA) in H.
  cbn [take join] in H. exact H.
Defined.

(** The launcher's three ports, and a list that is too long. *)
Definition three_ports : Web := mkWeb "" "8501,8502,8503" 8501 "" (λ _, "").
Definition long_list : Web := mkWeb "" (join "," (replicate 900 "8501")) 8501 "" (λ _, "").

Lemma answers_whole_witness :
  get_status node1 = json (obj (status_fields node1)) ∧
  nodes_page three_ports = json (obj (nodes_fields three_ports)) ∧
  nodes_page long_list ≠ json (obj (nodes_fields long_list)).
Proof.
  destruct (@node1_sizes SHA) as (_ & _ & Hs).
  destruct (answers_whole (HF := SHA) three_ports node1 (@node1_inv SHA) Hs) as (H1 & _ & _ & _ & _ & _ & _ & _ & H2).
  destruct (answers_whole (HF := SHA) long_list node1 (@node1_inv SHA) Hs) as (_ & _ & _ & _ & _ & _ & _ & _ & H3).
  split; [exact H1|]. split; [apply H2; apply (bool_decide_unpack _); vm_compute; exact I|].
  intros E. apply H3 in E. revert E. apply (bool_decide_unpack (¬ _)). vm_compute. exact I.
Defined.

(** ** The wallet *)

Lemma payment_accepted_witness :
  ∃ sig, let t := payment sample_keypair other_addr 20 (p_net_id (a_params node1))
        (nonce (acct (st (chain node1)) (addr_of (kp_pub sample_keypair)))) sig in
  (∃ out, authentic t ∧ o_exit out = 0 ∧
    build_and_submit (http_nodes sample_web sample_clock) (at_port 8501) nodes1 sample_keypair TX_TRANSFER other_addr 20 [] =
      (<[8501 := set_p2p (set_pool node1 (inserted (pool node1) t)) (broadcast (p2p node1) M_TX (tx_serialize t) (-1))]> nodes1, out) ∧
    m (inserted (pool node1) t) =
      <[(addr_of (kp_pub sample_keypair), nonce (acct (st (chain node1)) (addr_of (kp_pub sample_keypair)))) := t]> (m (pool node1))) ∨
  collision (node_pre node1 ++ [tx_enc t]).
Proof.
  destruct (@node1_sizes SHA) as (H1 & H2 & H3). destruct (@node1_payer SHA) as (P1 & P2 & P3 & P4).
  instance_of (payment_accepted (HF := SHA) sample_web sample_clock nodes1 8501 node1 sample_keypair other_addr 20
                 (@nodes1_at SHA) (@node1_inv SHA) sample_signer (bool_decide_unpack (wf_array 20 other_addr) I)
                 (bool_decide_unpack (in_width 64 20) I) P1 P2 P3 P4 H1 H2 H3).
Defined.

Lemma cross_check_nodes_witness :
  let f := read_proof sample_proof in
  let specs := List.filter (λ x, negb (bool_decide (x = ""))) (pieces "," "8501,9000") in
  let verdicts := map (node_verdict nodes1 (pf_height f) (pf_blockhash f)) specs in
  cross_check (http_nodes sample_web sample_clock) nodes1 f true "8501,9000" =
    (nodes1, (true && negb (existsb objects verdicts), size (List.filter agrees verdicts), size specs)).
Proof.
  destruct (@sample_proof_wf SHA) as [Hh Hb].
  instance_of (cross_check_nodes (HF := SHA) sample_web sample_clock nodes1 (read_proof sample_proof) true "8501,9000"
                 (@nodes1_ok SHA) Hh Hb).
Defined.

(** ** The GPU miner *)

Lemma gpu_turn_witness :
  let b := template (chain hard_node) (params (chain hard_node)) sample_addr
             (collect (pool hard_node) (st (chain hard_node)) (params (chain hard_node))
                (u64 (height (chain hard_node) + 1))) sample_now in
  ∃ a' res, mine_once (http_nodes sample_web sample_clock) 2 calm (at_port 8501) hard_nodes "" 77 =
      (<[8501 := a']> hard_nodes, res) ∧
    match res with
    | Some (c, _) => c = 200 ∧ ∃ n, blocks (chain a') = blocks (chain hard_node) ++ [sealed b n] ∧ chain_inv (chain a')
    | None => chain a' = chain hard_node ∧ ∀ i, 0 ≤ i < Z.of_nat ROUNDS * (Z.of_nat 2 * Z.of_nat PER_THREAD) →
        pow_ok (block_hash (sealed b (u64 (77 + i)))) (p_bits (a_params hard_node)) = false
    end.
Proof.
  instance_of (gpu_turn sample_web sample_clock hard_nodes 8501 hard_node "" sample_addr 2 calm 77
                 (@hard_nodes_at SHA) (@hard_node_inv SHA) eq_refl (or_introl (conj eq_refl eq_refl))
                 (conj eq_refl eq_refl) (le_S _ _ (le_n 1)) (@hard_supply SHA)
                 (bool_decide_unpack (0 ≤ sample_now) I) eq_refl (calm_honest _ _)).
Defined.
