(* ===== verification/LauncherWitnesses.v ===== *)
(** * LauncherWitnesses: the launcher at concrete ports and options *)

From S2P Require Import Prelude Hex Text Json Args Serial Sha256 Hash Crypto Merkle Tx Ledger Store Chain Consensus Recovery Mempool Miner Net Loop Http Node Safety Verify Rpc RpcSpec Running Config Wallet WalletSpec Launcher LauncherSpec Samples NodeWitnesses PartWitnesses RpcWitnesses.

Local Open Scope Z_scope.

(** Somebody else listens on port 7502. *)
Definition busy_7502 (port : Z) : bool := negb (port =? 7502).

Lemma second_attempt : find_ports busy_7502 = Some (7511, 8511).
Proof. vm_compute. reflexivity. Qed.

Definition sample_exe : string := "C:\Program Files\chainlite\chainlite.exe".
Definition sample_root : string := "C:\my chain\chainlite-data".

Lemma text_chars f s : forallb f (String.list_ascii_of_string s) = true → all_chars f s.
Proof. intros H. apply Forall_forall. intros c Hc. eapply forallb_forall; [exact H|by apply list_elem_of_In]. Qed.

Lemma sample_options : options_ok sample_exe sample_root "18" "12".
Proof.
  split; [apply text_chars; by vm_compute|apply text_chars; by vm_compute|done|..].
  1-2: split; [split; [done|apply text_chars; by vm_compute]|done].
  vm_compute. lia.
Qed.

Lemma launcher_network_witness :
  ¬ attempt_free busy_7502 0 ∧
  ∃ argv, crt_argv (node_command sample_exe sample_root "18" "12" 7511 8511 1) = sample_exe :: argv ∧
  let args := parse argv in
  let cf := node_config sample_exe args in
  has_option args "node" = true ∧
  cf_params cf = mkParams (p_net_id Params_default) (u32 (strtoul "18")) (p_reward Params_default) (p_genesis_time Params_default) ∧
  cf_heartbeat cf = strtoull "12" ∧ cf_mine cf = true ∧
  cf_datadir cf = sample_root +:+ "\node" +:+ pretty (Z.of_nat 2) ∧
  cf_p2p_port cf = 7511 + Z.of_nat 1 ∧ cf_rpc_port cf = 8511 + Z.of_nat 1 ∧ cf_rpc_peers cf = rpc_list 8511 ∧
  cf_peers cf = map (λ j, "127.0.0.1:" +:+ pretty (7511 + Z.of_nat j)) (others 1) ∧
  ∀ j, (j < NODES)%nat → (j ∈ others 1 ↔ j ≠ 1%nat) ∧
    dial_addr ("127.0.0.1:" +:+ pretty (7511 + Z.of_nat j)) = Some ("127.0.0.1", 7511 + Z.of_nat j).
Proof.
  pose proof (launcher_network busy_7502 sample_exe sample_root "18" "12" sample_options) as H.
  rewrite second_attempt in H. destruct H as [(k & Hk & Ep & _ & _ & Hfirst) H].
  split; [apply Hfirst; lia|exact (H 1%nat (bool_decide_unpack (1 < NODES)%nat I))].
Defined.
