(* ===== verification/SelftestWitnesses.v ===== *)
(** * SelftestWitnesses: the self-test with concrete keys and a hash that is quick to evaluate *)

From S2P Require Import Prelude Hex Text Serial Sha256 Hash Crypto Merkle Tx Ledger Store Chain Consensus Recovery Mempool Miner Selftest SelftestSpec Samples.

Local Open Scope Z_scope.

(** A polynomial of the bytes behind a zero byte: every hash meets eight bits. *)
Definition quick_hash (m : bytes) : bytes := 0 :: le 31 (foldl (λ a b, (a * 257 + b + 1) mod 2 ^ 247) 1 m).

Lemma wf_quick_hash m : wf_array 32 (quick_hash m).
Proof. split; [cbn [quick_hash length]; by rewrite length_le|constructor; [done|apply wf_le]]. Qed.

(** [hash256] is kept folded. *)
Lemma zero_byte_pow l : wf_array 31 l → pow_ok (0 :: l) 8 = true.
Proof.
  intros [Hl Hb]. apply pow_ok_iff_target; [split; [cbn; by rewrite Hl|by constructor]|done|].
  split; [done|]. cbn [be_val]. pose proof (be_val_bound l Hb) as Hv. rewrite Hl in Hv.
  change (8 * Z.of_nat 31) with 248 in Hv. change (256 - 8) with 248. lia.
Qed.

Lemma quick_pow m : pow_ok (quick_hash m) 8 = true.
Proof. apply zero_byte_pow. split; [apply length_le|apply wf_le]. Qed.

Definition QUICK : HashFn := {| hash256 := quick_hash; wf_hash256 := wf_quick_hash |}.

(** The signature of a digest is the digest and half of the public key. *)
Definition keyed_cng : Cng := {|
  CngKey := bytes;
  BCryptOpenAlgorithmProvider := true;
  BCryptImportKeyPair_public blob := if decide (length blob = 72%nat) then Some (drop 8 blob) else None;
  BCryptImportKeyPair_private blob :=
    if decide (length blob = 104%nat) then Some (take 64 (drop 8 blob)) else None;
  BCryptVerifySignature k digest sig := bool_decide (sig = digest ++ take 32 k);
  BCryptSignHash k digest := Some (digest ++ take 32 k);
  BCryptGenerateKeyPair := None;
  BCryptFinalizeKeyPair k := Some k;
  BCryptExportKey_size k := Some (Z.of_nat (length k));
  BCryptExportKey k _ := Some k;
|}.

Definition test_blob (k : nat) : bytes := replicate 104 (Z.of_nat k + 1).
Definition test_key (k : nat) : KeyPair := mkKeyPair (take 64 (drop 8 (test_blob k))) (test_blob k).

Definition test_outside : @Outside keyed_cng := {|
  generated k := Some (test_blob k : @CngKey keyed_cng);
  rng _ := 0;
  now _ _ := start_time + 50;
  writable := true;
|}.

Lemma test_signer : @signer keyed_cng (test_key 0).
Proof.
  split; [by apply (bool_decide_unpack (wf_array 64 (kp_pub (test_key 0)))); vm_compute|done|].
  intros h [Hl Hh]. exists (h ++ replicate 32 1).
  assert (length (h ++ replicate 32 1) = 64%nat) as Hlen by by rewrite length_app, Hl.
  split_and!.
  - unfold kp_sign. change (negb BCryptOpenAlgorithmProvider || negb (kp_valid (test_key 0))) with false. cbv iota.
    change (BCryptImportKeyPair_private (kp_blob (test_key 0))) with (Some (kp_pub (test_key 0))).
    cbn [mbind option_bind BCryptSignHash keyed_cng].
    change (take 32 (kp_pub (test_key 0))) with (replicate 32 1). by rewrite bool_decide_eq_true_2.
  - split; [done|]. apply wf_bytes_app. split; [done|]. by apply Forall_replicate.
  - by apply bool_decide_eq_true_2.
Qed.

Lemma test_keys_ok : @keys_ok QUICK keyed_cng (test_key 0) (test_key 1).
Proof.
  assert (@kp_sign keyed_cng (test_key 0) (@hello QUICK) = Some (@hello QUICK ++ replicate 32 1)) as Es by by vm_compute.
  split.
  - apply test_signer.
  - by apply (bool_decide_unpack (wf_array 104 (test_blob 0) ∧ kp_pub (test_key 0) = take 64 (drop 8 (test_blob 0)))); vm_compute.
  - intros E. apply (f_equal (λ a, bool_decide (a = @addr_of QUICK (kp_pub (test_key 1))))) in E. by vm_compute in E.
  - intros sig E. rewrite Es in E. injection E as <-. by vm_compute.
  - intros sig E. rewrite Es in E. injection E as <-. by vm_compute.
  - intros sig E. rewrite Es in E. injection E as <-. by vm_compute.
  - intros t E.
    assert (match @forged_record QUICK keyed_cng (test_key 0) with
            | Some t => @sig_verify keyed_cng (t_from t) (@sign_hash QUICK t) (t_sig t) | None => true end = false) as Hf by by vm_compute.
    rewrite E in Hf. intros [_ Hv]. congruence.
Qed.

Lemma test_outside_ok : @outside_ok QUICK keyed_cng (Z.to_nat (2 ^ 64)) test_outside.
Proof.
  split.
  - rewrite Z2Nat.id; [apply Z.le_refl|apply Z.pow_nonneg; lia].
  - intros h _. exists 0. split; [done|]. apply quick_pow.
  - done.
  - intros k j. by vm_compute.
  - done.
Qed.

Lemma selftest_passes_witness :
  @selftest QUICK keyed_cng Table mem_db (Z.to_nat (2 ^ 64)) test_outside =
    Some (if forallb (@vector_ok QUICK) hash_vectors then 0 else 1) ∨
  @collision QUICK (@selftest_pre QUICK keyed_cng Table mem_db (Z.to_nat (2 ^ 64)) test_outside (test_key 0) (test_key 1)).
Proof.
  instance_of (@selftest_passes QUICK keyed_cng Table mem_db (Z.to_nat (2 ^ 64)) test_outside (test_key 0) (test_key 1)
                 eq_refl eq_refl test_keys_ok test_outside_ok).
Defined.
