(* ===== verification/ShimWitnesses.v ===== *)
(** * ShimWitnesses: a sqlite3 in memory behind the shim *)

From S2P Require Import Prelude Tx Store Shim ShimSpec Samples.

Local Open Scope Z_scope.

(** One table, the live statements by their handles, and the next handle. *)
Record MemLib := mkMemLib {
  ml_tbl : gmap Z (list Z);
  ml_live : gmap Z Prepared;
  ml_next : Z;
}.

Definition set_live (l : MemLib) (s : Z) (p : Prepared) : MemLib :=
  mkMemLib (ml_tbl l) (<[s := p]> (ml_live l)) (ml_next l).

Definition mem_bind (s i : Z) (v : Value) (l : MemLib) : MemLib :=
  match ml_live l !! s with
  | Some p => set_live l s (bound p i v)
  | None => l
  end.

Definition mem_step (s : Z) (l : MemLib) : MemLib * Z :=
  match ml_live l !! s with
  | None => (l, 21)
  | Some p =>
      if decide (p_sql p = select_sql) then
        match to_come p (ml_tbl l) with
        | [] => (l, CL_SQLITE_DONE)
        | row :: rest => (set_live l s (mkPrepared (p_sql p) (p_binds p) (Some row) (Some rest)), CL_SQLITE_ROW)
        end
      else (mkMemLib (default (ml_tbl l) (effect p (ml_tbl l))) (ml_live l) (ml_next l), CL_SQLITE_DONE)
  end.

#[export] Instance mem_lib : Winsqlite MemLib := {|
  GetProcAddress := Some (λ _, true);
  sqlite3_open_v2 _ _ l := (l, (0, 7));
  sqlite3_close _ l := l;
  sqlite3_exec _ _ l := (l, 0);
  sqlite3_prepare_v2 _ sql l := (mkMemLib (ml_tbl l) (<[ml_next l := fresh sql]> (ml_live l)) (ml_next l + 1), ml_next l);
  sqlite3_step := mem_step;
  sqlite3_finalize s l := mkMemLib (ml_tbl l) (delete s (ml_live l)) (ml_next l);
  sqlite3_bind_int64 s i v l := mem_bind s i (VInt v) l;
  sqlite3_bind_text s i v _ l := mem_bind s i (VText v) l;
  sqlite3_bind_blob s i v _ l := mem_bind s i (VBlob v) l;
  sqlite3_column_int64 _ _ _ := 0;
  sqlite3_column_text _ _ _ := None;
  sqlite3_column_blob s _ l := p ← ml_live l !! s; p_row p;
  sqlite3_column_bytes s _ l := match (p ← ml_live l !! s; p_row p) with Some row => size row | None => 0 end;
  sqlite3_errmsg _ _ := "not an error";
  sqlite3_busy_timeout _ _ l := l;
|}.

Definition mem_limit (l : MemLib) : nat := stdpp.base.size (ml_tbl l).

Lemma mem_bind_run s i v p (l : MemLib) : ml_live l !! s = Some p → mem_bind s i v l = set_live l s (bound p i v).
Proof. intros Hp. unfold mem_bind. by rewrite Hp. Qed.

Lemma live_set l s p : ml_live (set_live l s p) !! s = Some p.
Proof. apply lookup_insert_eq. Qed.

#[export] Instance mem_lib_spec : WinsqliteSpec MemLib (mkDb 7) mem_limit.
Proof.
  refine (Build_WinsqliteSpec MemLib mem_lib (mkDb 7) mem_limit (λ l, 1 ≤ ml_next l) ml_tbl (λ l s, ml_live l !! s)
    _ _ _ _ _ _ _ _ _ _); cbn -[decide effect to_come].
  - done.
  - intros l sql Hr _. split_and!; [lia|lia|done|apply lookup_insert_eq].
  - intros l s p i v Hr Hl _ _. rewrite (mem_bind_run _ _ _ _ _ Hl). by split_and!; [..|apply live_set].
  - intros l s p i v n Hr Hl _ _. rewrite (mem_bind_run _ _ _ _ _ Hl). split_and!; [done..|].
    eexists. split; [apply live_set|]. split_and!; [done..|]. intros j Hj. by apply lookup_insert_ne.
  - intros l s p i v n Hr Hl _ _ _ _. rewrite (mem_bind_run _ _ _ _ _ Hl). by split_and!; [..|apply live_set].
  - intros l s p t Hr Hl He. unfold mem_step. rewrite Hl. rewrite decide_False.
    + rewrite He. by split_and!.
    + intros Es. unfold effect in He. rewrite Es in He. done.
  - intros l s p Hr Hl Hp. unfold mem_step. rewrite Hl, decide_True by done.
    destruct (to_come p (ml_tbl l)) as [|row rest]; [by split_and!|]. by split_and!; [..|apply live_set].
  - intros l s p row Hl Hr. rewrite Hl. cbn. by rewrite Hr.
  - done.
  - done.
Defined.

Lemma shim_refines_witness :
  ∃ S : @SqliteSpec MemLib (shim (mkDb 7) mem_limit),
    ∀ l, @rows _ (shim (mkDb 7) mem_limit) S l = tbl l ∧ (@usable _ (shim (mkDb 7) mem_limit) S l ↔ ready l).
Proof. instance_of (shim_refines (mkDb 7) mem_limit mem_lib_spec). Defined.

(** What the statements do to that library. *)
Example shim_rows :
  let D := shim (mkDb 7) mem_limit in
  let d := sql_do (InsertBlock 1 "" "" 0 0 [3; 4]) (sql_do (InsertBlock 0 "" "" 0 0 [1]) (mkMemLib ∅ ∅ 1)) in
  sql_select d = Some [[1]; [3; 4]] ∧ sql_select (sql_do (DeleteBlocksFrom 1) d) = Some [[1]] ∧ ml_live d = ∅.
Proof. by vm_compute. Qed.
