(* ===== verification/SupervisorWitnesses.v ===== *)
(** * SupervisorWitnesses: the launcher on a small machine

    A machine that does what [WindowsSpec] asks: [launch_once] runs the launcher on it to
    its end, and the examples kill it early or take the job object away. *)

From S2P Require Import Prelude Text Json Args Config Launcher Processes Supervisor SupervisorSpec.

Local Open Scope Z_scope.

(** What it holds, and how many more processes can be made. *)
Record Toy := mkToy { t_view : View; t_spawns : nat }.

Definition with_view (o : Toy) (v : View) : Toy := mkToy v (t_spawns o).

(** An unused handle. *)
Definition new_handle (v : View) (also : gset Z) : Z := fresh ({[NULL; INVALID_HANDLE_VALUE]} ∪ also ∪ dom (handles v)).

Definition job_at (v : View) (h : Z) : option (Z * (bool * gset Z)) :=
  match handles v !! h with
  | Some (JobObj j) => pair j <$> jobs v !! j
  | _ => None
  end.

(** What ends when a handle is closed. *)
Definition ended_by (v : View) (h : Z) : gset Z :=
  match job_at v h with
  | Some (_, (true, ms)) => ms
  | _ => ∅
  end.

Definition toy_close (h : Z) (v : View) : View :=
  set_ending (set_handles v (delete h (handles v))) (ending v ∪ ended_by v h).

Definition toy_exit (v : View) : View :=
  mkView ∅ (alive v) (foldr (λ h s, s ∪ ended_by v h) (ending v) (map_to_list (handles v)).*1) (suspended v) (jobs v)
    (commands v).

(** [works]: whether job objects can be made. *)
Definition toy_create_job (works : bool) (o : Toy) : Toy * Z :=
  if works then
    let v := t_view o in
    let h := new_handle v ∅ in
    let j := fresh (dom (jobs v)) in
    (with_view o (set_jobs (set_handles v (<[h := JobObj j]> (handles v))) (<[j := (false, ∅)]> (jobs v))), h)
  else (o, NULL).

Definition toy_set_job (f : bool * gset Z → bool * gset Z) (h : Z) (o : Toy) : Toy * bool :=
  let v := t_view o in
  match job_at v h with
  | Some (j, x) => (with_view o (set_jobs v (<[j := f x]> (jobs v))), true)
  | None => (o, false)
  end.

Definition toy_process (cmd : string) (o : Toy) : Toy * option (Z * Z) :=
  match t_spawns o with
  | 0%nat => (o, None)
  | S n =>
      let v := t_view o in
      let p := new_handle v ∅ in
      let t := new_handle v {[p]} in
      let pid := fresh (alive v ∪ ending v ∪ suspended v) in
      (mkToy (mkView (<[p := ProcessObj pid]> (<[t := ThreadObj pid]> (handles v))) ({[pid]} ∪ alive v)
                (ending v) ({[pid]} ∪ suspended v) (jobs v) (commands v ++ [cmd])) n, Some (p, t))
  end.

Definition pid_at (v : View) (h : Z) : gset Z :=
  match handles v !! h with
  | Some (ProcessObj pid) => {[pid]}
  | Some (ThreadObj pid) => {[pid]}
  | _ => ∅
  end.

Definition toy (works : bool) : Windows Toy := {|
  GetModuleFileName _ := "C:\chainlite\chainlite.exe";
  create_directories _ o := o;
  remove_file _ o := o;
  probe _ _ := Silent;
  CreateFile _ o :=
    let v := t_view o in
    let h := new_handle v ∅ in
    (with_view o (set_handles v (<[h := FileObj]> (handles v))), h);
  CreateJobObject := toy_create_job works;
  SetInformationJobObject := toy_set_job (λ x, (true, x.2));
  CreateProcess _ cmd _ := toy_process cmd;
  AssignProcessToJobObject job p o :=
    if job =? NULL then (o, false) else toy_set_job (λ x, (x.1, pid_at (t_view o) p ∪ x.2)) job o;
  ResumeThread t o :=
    let v := t_view o in
    (with_view o (set_suspended v (suspended v ∖ pid_at v t)), true);
  WaitForSingleObject _ _ o := o;
  TerminateProcess p o := let v := t_view o in (with_view o (set_ending v (ending v ∪ pid_at v p)), true);
  CloseHandle h o := with_view o (toy_close h (t_view o));
  GetLastError _ := 2;
  http_req o _ _ _ _ _ := (o, (200, "{" +:+ quoted "height" +:+ ":7}"));
  ShellExecute _ o := o;
  localtime _ := (9, 5, 30);
  Sleep _ o := o;
  ExitProcess o := with_view o (toy_exit (t_view o));
|}.

Lemma new_handle_fresh v also : fresh_handle v (new_handle v also) ∧ new_handle v also ∉ also.
Proof.
  pose proof (is_fresh ({[NULL; INVALID_HANDLE_VALUE]} ∪ also ∪ dom (handles v))) as H. fold (new_handle v also) in H.
  rewrite !not_elem_of_union, not_elem_of_dom in H. unfold fresh_handle. set_solver.
Qed.

Lemma job_at_is v h j x : is_job v h j → jobs v !! j = Some x → job_at v h = Some (j, x).
Proof. unfold is_job, job_at. by intros -> ->. Qed.

Lemma toy_set_job_is f h o j x : is_job (t_view o) h j → jobs (t_view o) !! j = Some x →
  toy_set_job f h o = (with_view o (set_jobs (t_view o) (<[j := f x]> (jobs (t_view o)))), true).
Proof. intros H1 H2. unfold toy_set_job. by rewrite (job_at_is _ _ _ _ H1 H2). Qed.

Lemma ended_by_is v h j ms : is_job v h j → jobs v !! j = Some (true, ms) → ended_by v h = ms.
Proof. intros H1 H2. unfold ended_by. by rewrite (job_at_is _ _ _ _ H1 H2). Qed.

Lemma toy_exit_ending v : ending v ⊆ ending (toy_exit v).
Proof. unfold toy_exit. cbn. induction (map_to_list (handles v)).*1; cbn; set_solver. Qed.

Lemma toy_exit_killed v h j ms : is_job v h j → jobs v !! j = Some (true, ms) → ms ⊆ ending (toy_exit v).
Proof.
  intros Hj E. unfold toy_exit. cbn [ending].
  assert (h ∈ (map_to_list (handles v)).*1) as Hin.
  { apply list_elem_of_fmap. exists (h, JobObj j). split; [done|]. by apply elem_of_map_to_list. }
  pose proof (ended_by_is _ _ _ _ Hj E) as Ha.
  induction (map_to_list (handles v)).*1 as [|h' hs IH]; [by apply not_elem_of_nil in Hin|].
  apply elem_of_cons in Hin as [<-|Hin]; cbn [foldr]; [rewrite Ha; set_solver|]. specialize (IH Hin). set_solver.
Qed.

Lemma same_view o v : v = t_view o → quiet v (t_view o).
Proof. intros ->. apply quiet_refl. Qed.

Lemma toy_closed v h : quiet (set_handles v (delete h (handles v))) (toy_close h v).
Proof. split; cbn; [done|done|set_solver|done..]. Qed.

#[program] Definition toy_spec (works : bool) : WindowsSpec Toy (H := toy works) := {| view := t_view |}.
Solve Obligations with (intros; apply quiet_refl).
Next Obligation. intros works f o. right. split; [apply new_handle_fresh|by apply same_view]. Qed.
Next Obligation.
  intros works o. cbn [CreateJobObject toy]. unfold toy_create_job. destruct works; [right|left; split; [done|by apply same_view]].
  split; [apply new_handle_fresh|]. exists (fresh (dom (jobs (t_view o)))).
  split; [apply not_elem_of_dom, is_fresh|by apply same_view].
Qed.
Next Obligation.
  intros works h j b ms o H1 H2. cbn [SetInformationJobObject toy]. rewrite (toy_set_job_is _ _ _ _ _ H1 H2). by apply same_view.
Qed.
Next Obligation.
  intros works exe cmd log o. cbn [CreateProcess toy]. unfold toy_process. destruct (t_spawns o); [by apply same_view|].
  destruct (new_handle_fresh (t_view o) {[new_handle (t_view o) ∅]}) as [H1 H2].
  pose proof (is_fresh (alive (t_view o) ∪ ending (t_view o) ∪ suspended (t_view o))) as Hf.
  split; [set_solver|]. split; [apply new_handle_fresh|]. split; [done|].
  eexists. split; [|split; [|by apply same_view]]; set_solver.
Qed.
Next Obligation.
  intros works h p j b ms pid o Hn H1 H2 H3. cbn [AssignProcessToJobObject toy]. destruct (Z.eqb_spec h NULL); [done|].
  rewrite (toy_set_job_is _ _ _ _ _ H1 H2). apply same_view. unfold pid_at. by rewrite H3.
Qed.
Next Obligation. intros works t pid o E. apply same_view. cbn. unfold pid_at. by rewrite E. Qed.
Next Obligation. intros works p o. split; cbn; [done|done|set_solver|done..]. Qed.
Next Obligation. intros works p pid o E _. cbn. unfold running, pid_at. cbn. rewrite E. set_solver. Qed.
Next Obligation. intros works h o _. apply toy_closed. Qed.
Next Obligation.
  intros works h j ms o [Hj _] E. apply same_view. cbn. unfold toy_close. by rewrite (ended_by_is _ _ _ _ Hj E).
Qed.
Next Obligation. intros works h j ms o _ _. apply toy_closed. Qed.
Next Obligation.
  intros works o. cbn. split_and!; [done..|by apply toy_exit_ending|]. intros h j ms Hj E. by eapply toy_exit_killed.
Qed.

(** ** Runs *)

Definition sample_toy (spawns : nat) : Toy := mkToy (mkView ∅ ∅ ∅ ∅ ∅ []) spawns.

Definition launch_args : Args := parse ["--no-browser"; "--reset"; "--bits"; "20"].

Definition launch (works : bool) (calls : nat) (o : Toy) : Toy * string * option Z :=
  process (H := toy works) (supervise (H := toy works) launch_args 30) calls o.

(** It runs until Ctrl+C and starts three nodes. *)
Lemma launch_once :
  let '(o, out, code) := launch true 1000 (sample_toy 3) in
  code = Some 0 ∧ running (t_view o) = ∅ ∧ length (commands (t_view o)) = 3%nat.
Proof. vm_compute. repeat split. Qed.

(** Killed after 17 calls, in the start of the first node, it leaves that process suspended. *)
Lemma launch_killed :
  let '(o, _, code) := launch true 17 (sample_toy 3) in
  code = None ∧ elements (running (t_view o)) = elements (suspended (t_view o)) ∧ size (running (t_view o)) = 1%nat.
Proof. vm_compute. repeat split. Qed.

(** Without a job object it leaves two nodes running when the third does not start. *)
Lemma launch_without_job :
  let '(o, _, code) := launch false 1000 (sample_toy 2) in
  code = Some 1 ∧ suspended (t_view o) = ∅ ∧ size (running (t_view o)) = 2%nat.
Proof. vm_compute. repeat split. Qed.

Lemma toy_jobs_work : job_calls_succeed Toy (H := toy true) (WO := toy_spec true).
Proof.
  split.
  - intros o. cbn. apply new_handle_fresh.
  - intros h j x o Hj E. cbn [SetInformationJobObject toy]. by rewrite (toy_set_job_is _ _ _ _ _ Hj E).
  - intros h j x p pid o Hn Hj E _ _. cbn [AssignProcessToJobObject toy]. destruct (Z.eqb_spec h NULL); [done|].
    by rewrite (toy_set_job_is _ _ _ _ _ Hj E).
Qed.

Lemma sample_newly spawns : newly_started (t_view (sample_toy spawns)).
Proof. split_and!; [vm_compute; done|done|]. intros h j E. unfold is_job in E. cbn in E. by rewrite lookup_empty in E. Qed.

Lemma no_node_outlives_witness :
  let '(o', _, code) := launch true 17 (sample_toy 3) in
  (code = None → (17 < 248 + 2 * 30)%nat) ∧
  (code ≠ None → running (t_view o') = ∅) ∧
  ∀ p, p ∈ running (t_view o') → p ∈ suspended (t_view o') ∧ ∀ q, q ∈ running (t_view o') → q = p.
Proof.
  pose proof (no_node_outlives (WO := toy_spec true) launch_args 30 17 (sample_toy 3) (sample_newly 3)) as H1.
  fold (launch true 17 (sample_toy 3)) in H1. destruct (launch true 17 (sample_toy 3)) as [[o' out] code].
  destruct H1 as (_ & _ & H1 & _ & H2). split; [exact H1|exact (H2 toy_jobs_work)].
Defined.
