(* ===== verification/ThreadsWitnesses.v ===== *)
(** * ThreadsWitnesses: runs of the threads of a node *)

From stdpp Require Import functions relations.
From S2P Require Import Prelude Threads ThreadsSpec.

Local Open Scope code_scope.

(** One step of [t] for each entry: the branch, [true] for the first or for another round. *)
Definition step_of (t : Thread) (b : bool) (s : Threads) : Threads :=
  match stack s t with
  | Some (Run c :: k) =>
      match c with
      | Skip | Use _ => set_stack s t k
      | Seq c d => set_stack s t (Run c :: Run d :: k)
      | Alt c d => set_stack s t (Run (if b then c else d) :: k)
      | Star c => set_stack s t (if b then Run c :: Run (Star c) :: k else k)
      | Guard m c => set_stack s t (Run c :: Release m :: k)
      | While f c => if up s f then set_stack s t (Run c :: Run (While f c) :: k) else set_stack s t k
      | Poll f c => if b && up s f then set_stack s t (Run c :: Run (Poll f c) :: k) else set_stack s t k
      | Accept c d => set_stack s t (Run (if b && listening s then c else d) :: k)
      | Close => close_listener (set_stack s t k)
      | Clear f => clear_flag (set_stack s t k) f
      | Spawn u => match stack s u with None => set_stack (set_stack s t k) u [Run (thread_code u)] | _ => s end
      | Join u => match stack s u with Some [] => set_joined (set_stack s t k) u | _ => s end
      end
  | Some (Release m :: k) => set_stack s t k
  | _ => s
  end.

(** It asks for no mutex that somebody holds. *)
Definition lock_free (t : Thread) (s : Threads) : bool :=
  match stack s t with
  | Some (Run (Guard m _) :: _) => forallb (λ u, negb (bool_decide (holds s u m))) threads
  | _ => true
  end.

Lemma step_of_ok t b s : lock_free t s = true → 
  step_of t b s = s ∨ thread_step t s (step_of t b s) ∨ chance_step t s (step_of t b s).
Proof.
  unfold lock_free, step_of. intros Hl. destruct (stack s t) as [[|[c|m] k]|] eqn:E; auto.
  - destruct c as [|x|c d|c d|c|m c|f c|f c|c d| |f|u|u].
    + right; left. by constructor.
    + right; left. by econstructor.
    + right; left. by constructor.
    + right; left. destruct b; by econstructor.
    + right; left. destruct b; [by apply step_star_more|by eapply step_star_end].
    + right; left. apply step_lock; [done|]. intros u. rewrite forallb_forall in Hl. specialize (Hl u).
      rewrite <- list_elem_of_In in Hl. specialize (Hl (elem_of_threads u)).
      by apply negb_true_iff, bool_decide_eq_false in Hl.
    + right; left. destruct (up s f) eqn:Ef; [by apply step_while|by eapply step_while_end].
    + right. destruct b; cbn [andb]; [|right; by eapply chance_poll].
      left. destruct (up s f) eqn:Ef; [by apply step_poll|by eapply step_poll_end].
    + right. destruct (listening s) eqn:Ef; rewrite ?andb_true_r, ?andb_false_r.
      * right. destruct b; [by eapply chance_accept|by eapply chance_error].
      * left. by eapply step_refused.
    + right; left. by constructor.
    + right; left. by constructor.
    + destruct (stack s u) eqn:Eu; [by left|right; left]. by constructor.
    + destruct (stack s u) as [[|? ?]|] eqn:Eu; [right; left; by constructor|by left..].
  - right; left. by econstructor.
Qed.

(** *** Schedules *)

(** Steps of threads, [None] for Ctrl+C. *)
Fixpoint drive (l : list (option (Thread * bool))) (s : Threads) : option Threads :=
  match l with
  | [] => Some s
  | Some (t, b) :: l => if lock_free t s then drive l (step_of t b s) else None
  | None :: l => drive l (ctrl_handler s)
  end.

Lemma drive_reached p r l s s' : reached p r s → drive l s = Some s' → reached p r s'.
Proof.
  revert s. induction l as [|[[t b]|] l IH]; intros s Hr; cbn [drive]; [by intros [= <-]|..].
  - destruct (lock_free t s) eqn:El; [|done]. apply IH.
    destruct (step_of_ok t b s El) as [->|[Hst|Hst]]; [done|..]; (eapply rtc_r; [done|]);
      [by eapply node_thread|by eapply node_chance].
  - apply IH. eapply rtc_r; [done|apply node_ctrl].
Qed.

Definition by_thread (t : Thread) (bs : list bool) : list (option (Thread * bool)) := map (λ b, Some (t, b)) bs.

(** All threads run: one uses the links and another the state of the node. *)
Definition busy : list (option (Thread * bool)) :=
  by_thread Main (replicate 8 true) ++ by_thread NetThread (replicate 6 true) ++ by_thread MinerThread (replicate 4 true).

(** The main thread closes the listening socket of the RPC server while its thread accepts. *)
Definition accepting : list (option (Thread * bool)) :=
  by_thread Main (replicate 8 true) ++ by_thread RpcThread [true; true] ++ [None] ++ by_thread Main (replicate 6 true).

(** The RPC server waits for a connection, and the miner searches. *)
Definition waiting : list (option (Thread * bool)) :=
  by_thread Main (replicate 8 true) ++ by_thread RpcThread (replicate 3 true) ++
  by_thread MinerThread (replicate 10 true ++ [false] ++ replicate 3 true).

(** The RPC server cannot listen, and the main thread returns. *)
Definition refused : list (option (Thread * bool)) := by_thread Main (replicate 3 true).

Definition after (r : bool) (l : list (option (Thread * bool))) : Threads :=
  default (node_started true r) (drive l (node_started true r)).

Lemma after_reached r l : reached true r (after r l).
Proof.
  unfold after. destruct (drive l _) eqn:E; cbn; [|apply rtc_refl]. eapply drive_reached; [apply rtc_refl|exact E].
Qed.

(** *** What they reach *)

Lemma busy_uses : at_use (after true busy) NetThread Peers ∧ at_use (after true busy) MinerThread AppData.
Proof. split; eexists; reflexivity. Qed.

Lemma lock_discipline_witness : let s := after true busy in
  holds s NetThread NetMtx ∧ holds s MinerThread AppMtx ∧
  (∀ x t u, x ≠ RpcListener → at_use s t x → at_use s u x → t = u) ∧
  ¬ at_use s Main RpcListener.
Proof.
  destruct (lock_discipline true true (after true busy) (after_reached true busy)) as (_ & _ & Hg & Hx & Hr).
  split; [exact (Hg Peers NetMtx NetThread (proj1 busy_uses) eq_refl)|].
  split; [exact (Hg AppData AppMtx MinerThread (proj2 busy_uses) eq_refl)|]. split; [exact Hx|].
  intros H. destruct (Hr Main H) as [E|[_ E]]; [discriminate E|vm_compute in E; discriminate E].
Defined.

(** The one access that no mutex orders: [RpcServer::stop] writes [listener] while the thread
    of the server reads it. *)
Lemma rpc_listener_race : ∃ s, reached true true s ∧ at_use s Main RpcListener ∧ at_use s RpcThread RpcListener.
Proof. exists (after true accepting). split; [apply after_reached|]. split; eexists; reflexivity. Qed.

Lemma waiting_at : (∃ c d k, stack (after true waiting) RpcThread = Some (Run (Accept c d) :: k)) ∧
  ∃ c k, stack (after true waiting) MinerThread = Some (Run c :: Run (Poll AppRunning c) :: k).
Proof. split; repeat eexists; reflexivity. Qed.

Lemma node_ends_witness :
  (∃ s', rtc any_step (ctrl_handler (after true waiting)) s' ∧ (∀ t, ended s' t) ∧ ∀ t, t ≠ Main → joined s' t = true) ∧
  terminated (after false refused).
Proof.
  split.
  - exact (proj1 (proj1 (node_ends true true (after true waiting) (after_reached true waiting)) eq_refl eq_refl)).
  - exact (proj1 (proj2 (node_ends true false (after false refused) (after_reached false refused))) eq_refl eq_refl eq_refl).
Defined.
